(* ===== verification/_CoqProject ===== *)
-Q . S2P
Prelude.v
Prog.v
Linear.v
Epoch.v
Meta.v
Queue.v
HashSet.v
Registry.v
Slots.v
State.v
Heap.v
Marking.v
Participant.v
TaskCell.v
Guards.v
Pointers.v
Collector.v
Stats.v
Barriers.v
Iter.v
Total.v
Frame.v
Tasks.v
Tracing.v
Safety.v
Completion.v
Sweep.v
TraceInv.v
Roots.v
Handles.v
Cycle.v
Rest.v
Memory.v
Mutator.v
Alloc.v
Commands.v
Threads.v
Transparency.v
Scripts.v
StackCrate.v
Managed.v
Stack.v
Lists.v
ListsCorrect.v
ListsLin.v
HashMap.v
SearchTree.v
NMTree.v
NMTreeCorrect.v
EFRBTree.v
EFRBCorrect.v
EFRBSafe.v
Derive.v
DeriveCorrect.v
Instances.v
Sessions.v
StackRun.v
