(* ===== verification/Prelude.v ===== *)
(** * CDPT: a verification library for the concurrent deferred partial tracing collector

    CDPT ([src/]) is a concurrent garbage collector as a Rust crate.  Mutators hold managed
    objects through rooted links ([Shared], [AtomicShared], [AtomicSharedOption]), counted in
    the header of their target, through links inside managed objects, which are coloured, and
    through [Local]s, protected by a pinned guard or a hazard pointer.  A collector thread runs
    cycles: a root-tracing phase marks what is rooted or protected, a completion phase repeats
    marking until no mark task is left anywhere, and the next Normal phase frees, together with
    the mutators, what kept the previous white colour.  This development models the crate, the
    derive macro that generates the traversals, and the lock-free data structures of
    [examples/] as clients, and proves the properties that make them correct.

    ** Parts, from the bottom up

    - [Prelude]: machine words, bit reasoning ([zbit]), lists.
    - [Prog]: programs as trees of atomic steps.  One term is run alone ([run]), interleaved
      with others ([pstep]), and verified against an environment ([wp], rely-guarantee, with a
      trace of abstract events); [pool_sound] carries [wp] to every interleaving.
    - [Linear]: linearizability.  Executions in which threads begin calls, make atomic steps and
      return whenever they like ([hrun]), the atomic object they are compared with, in which each
      call has its effects between its beginning and its return and in the same order ([orun]), and
      the rule that gets this from a [wp] per method ([linear_sound]).
    - [Epoch] ([src/epoch.rs]), [Meta] ([ObjMeta] and [ManPtr] of [src/pointers.rs]): packed
      words with the records they refine.
    - [Queue] ([src/sync/queue.rs]), [HashSet] ([src/sync/hash_set.rs]), [Slots]
      ([src/sync/reusable_slots.rs]), [Registry] (type registration, [src/pointers.rs]):
      the lock-free structures, each with its invariant under interference and the
      theorem about every interleaving.
    - [State], [Heap], [Participant], [Guards], [Pointers], [Collector] ([src/internal.rs],
      [src/guards.rs], [src/pointers.rs], [src/collector.rs]): one state type [gstate] for the
      heap (objects by address, links by cell), the records of the threads ([struct Local]) and
      the global record, and every operation of the crate on it, composed the way the code
      composes it.  [TaskCell] ([src/task.rs]): the storage of deferred closures.  [Stats] ([src/collector.rs], [src/internal.rs]): the collection heuristic,
      with binary64 arithmetic.
    - [Marking], [Iter], [Tasks], [Barriers], [Tracing], [Safety], [Completion]: what those
      operations do.  [Marking] and [Barriers] give the effect of one operation, [Tracing] the
      tri-colour invariant and the effect of a drain, [Safety] that the write barriers keep the
      invariant and lose nothing, [Completion] the detection that marking is done.
    - [Sweep]: the scan that frees what a marking phase left unmarked.  [Total]: rules for
      programs run alone to their end.  [TraceInv], [Roots], [Cycle]: the invariant of a
      root-tracing phase, the scan for roots with the help of guards, and a whole cycle.
      [Frame]: what collection work leaves alone (the registry, the owners, hazard slots and
      guards of the participants), pins and unpins aside.
    - [Handles] ([src/tls.rs], and what owns a participant in [src/guards.rs]): the singletons,
      and the reference counts of handles, guards and hazard pointers.
    - [Memory]: the abstract specification of the crate, a heap of objects and links with
      neither root counts nor colours, atomic commands and collections.  [Rest]: the heap
      between collections, where the root count of an object is the number of rooted links to
      it.  [Mutator], [Alloc], [Commands]: every operation of a guard between two collections
      refines a command, whatever guards other threads hold.  [Threads]: registering, leaving,
      pinning and unpinning.  [Transparency]: sessions of threads whose critical sections
      overlap, and of cycles, refine the specification.  [Scripts]: data structures whose
      methods are such sections; from a proof per method (the classes [Structure], [Proof] and
      [Correct]), every schedule of every script.  [StackCrate] ([examples/stack.rs]): Treiber's
      stack this way, on the operations of the crate.
    - [Managed]: managed memory as the client data structures see it; [Stack]
      ([examples/stack.rs]), [Lists], [ListsCorrect], [ListsLin], [HashMap]
      ([examples/ds/lists.rs]): linearizability of the clients.
    - [SearchTree]: what the two lock-free search trees share (the ordered contents of a tree,
      the place a search ends at, the class [MapImpl] of a map implementation and sessions of
      its operations).  [NMTree], [NMTreeCorrect] ([examples/ds/nm_tree.rs]) and [EFRBTree],
      [EFRBCorrect] ([examples/ds/efrb_tree.rs]): every session refines a finite map, the help
      of half-finished operations included.  [EFRBSafe]: the operations of the second tree in
      every interleaving.
    - [Derive], [DeriveCorrect] ([cdpt-derive/src/lib.rs]): the generator, and the typing and
      meaning of what it generates.
    - [Instances], [Sessions], [StackRun]: concrete states and runs on which the theorems about
      the collector, sessions, handles, tasks and the stack are applied.

    ** What the theorems show

    Transparency: the program's threads come and go and work in critical sections that overlap,
    with collection cycles in between; every operation returns and acts on the heap as the
    abstract memory says, and a collection removes exactly what cannot be reached
    ([Transparency.session_refines]).  This composes registration, pinning, every
    pointer operation, allocation with its batches and the registry, hazard pointers, helping
    and the cycle.  End to end: Treiber's stack, with its threads, nodes, protected references and
    collections, is linearizable and keeps what a reference names
    ([StackCrate.stack_on_crate]).  Cycles: a whole cycle, run alone from a heap at rest, returns, keeps what a root count or a
    hazard pointer leads to, frees everything else, cyclic garbage included, and leaves the
    heap at rest ([Cycle.cycle_exact]).  Tracing: a drain marks exactly what is reachable from
    the queued tasks; a swap of any link
    keeps the tri-colour invariant and loses no object marking would still find, for links in
    objects (Dijkstra and Yuasa barriers) and rooted links (root counts); the completion test
    is right in every interleaving with mutators that schedule and take tasks.
    Structures: linearizability of the queue, the stack, the lists and the hash map: every
    execution of any number of threads is one of the atomic object, with the calls and returns in
    the same order; the search trees implement a map, and no
    interleaving of the second one's operations reaches an error; exclusive ownership of participant slots; agreement
    and bounds of type ids; the hash set stores a key once, and the two panics it has.  Threads: whatever they do with
    handles, guards and hazard pointers, and whenever they end, a participant is given back with
    the last reference to it, unpinned and with its hazard slots clean ([Handles.handles_counted]);
    a task runs the closure it was made of ([TaskCell.task_roundtrip]).  Operations: the complete effect of
    swap, compare-exchange, tag operations, hazard pointers and marking on each branch, with
    the panics and overflows the code can reach.  Words: packed words refine records.  Derive:
    generated traversals visit exactly the managed pointers, and which declarations compile, for
    declarations without references to managed pointers; what goes wrong with those.

    ** Conventions

    Words are [Z] in [0, 2^64).  Additions the code leaves unchecked panic in a debug build and
    wrap in a release build: where a counter can be shown not to overflow the theorems say so,
    sums of the hash set are checked, and [HashSet.probe_overflows] says when they overflow (an
    allocation of the abstract memory is allowed if those for its type do not,
    [Memory.hash_fits]); statistics and timestamps wrap
    ([wadd]).  [assert!], [debug_assert!], [unwrap] and [panic!] are [Stop (Panic _)]; accesses
    the code does not check are [Stop (UB _)] when they would be undefined behaviour.

    Loops the code leaves unbounded take fuel.  [OutOfFuel] stands for a thread still in its
    loop: the interleaving theorems hold for every fuel and exclude every other stop, and that
    a method returns when it runs alone is proved with an explicit bound (the number of slots
    plus one for the slot search, one round for queue and pointer retries, the tasks plus the
    links of the unmarked objects for a drain, [Cycle.rounds] for a cycle).

    The memory is sequentially consistent: orderings and fences have no counterpart.  History
    variables (the owner of a node, slot or entry) are written and never read by programs.
    Collector and mutators interleave in [Completion]; the theorems on the heap run one
    operation at a time, between the steps of others, on the states the invariants describe.
    In a session the operations of different threads interleave, each operation whole, and a
    cycle is one event that finds no guard held: a critical section meets a Normal phase there,
    the barriers of the tracing phases are the subject of [Safety].
    The scoped workers of [parallel_shard_work] are programs of their own that the cycle runs
    one after the other over the disjoint ranges they own.

    What comes from outside [src/] is the class [State.Extern]: the random generator, the
    work-stealing deque, the hash of a type, the allocator, object alignment; [syn]'s syntax
    tree in [Derive]; the order and hash of keys in the clients.  [Instances] and [HashMap] give
    concrete ones.

    ** Not modelled

    Benchmarks, command lines and tests.  The linearizability of the two search trees under
    interference is not proved.  Operations of [Handles] that may do collection work are
    modelled for threads whose thread-local handle is alive: collection work pins through it.

    ** Plan

    Cycles among mutators that run; pinning and guards under interference (a state a guard protects is not
    swept); the lists and trees as [Scripts.Structure]s, so that their theorems rest on the operations of
    the crate as the stack's does. *)
From stdpp Require Export base numbers list option gmap strings.
From Stdlib Require Export ZArith Lia Btauto.
#[export] Set Default Goal Selector "!".
#[export] Set Warnings "-clear-no-such-hyp".

Open Scope Z_scope.

(** ** Machine words

    The crate packs colours, phases, root counts and pointer metadata into
    [usize] values of a 64-bit target ([ObjMeta::COLOR_SHIFT] is 63).  A word is a
    [Z] in [0, 2^64); the bitwise operators keep it there. *)
Definition wbits : Z := 64.
Definition wmod : Z := 2 ^ 64.
Definition wmax : Z := Z.ones 64.
Definition is_word (x : Z) : Prop := 0 <= x < wmod.

Definition wadd (x y : Z) : Z := (x + y) mod wmod.
Definition wsub (x y : Z) : Z := (x - y) mod wmod.
Definition wmul (x y : Z) : Z := (x * y) mod wmod.
Definition wnot (x : Z) : Z := Z.lxor x wmax.
Definition wshl (x n : Z) : Z := Z.land (Z.shiftl x n) wmax.
Definition wshr (x n : Z) : Z := Z.shiftr x n.

Declare Scope word_scope.
Delimit Scope word_scope with w.
Notation "x '.&' y" := (Z.land x y) (at level 40, left associativity) : word_scope.
Notation "x '.^' y" := (Z.lxor x y) (at level 45, left associativity) : word_scope.
Notation "x '.|' y" := (Z.lor x y) (at level 50, left associativity) : word_scope.
Notation "x '.<<' n" := (wshl x n) (at level 33, left associativity) : word_scope.
Notation "x '.>>' n" := (wshr x n) (at level 33, left associativity) : word_scope.

(** *** Bit-level reasoning

    [zbit] turns an equation between words into a boolean identity on the bits:
    every operator is pushed to the bits by the [zbits] rewrite base, bits of a
    contiguous mask become range tests, and the range tests are split by [lia]. *)
Definition mask (lo n : Z) : Z := Z.shiftl (Z.ones n) lo.

Lemma testbit_mask lo n i :
  0 <= lo -> 0 <= n -> 0 <= i ->
  Z.testbit (mask lo n) i = (lo <=? i) && (i <? lo + n).
Proof.
  intros Hlo Hn Hi. unfold mask. rewrite Z.shiftl_spec by lia.
  destruct (Z.leb_spec lo i); simpl.
  - rewrite Z.testbit_ones_nonneg by lia.
    destruct (Z.ltb_spec (i - lo) n), (Z.ltb_spec i (lo + n)); lia.
  - apply Z.testbit_neg_r. lia.
Qed.

Lemma land_mask_small x n : 0 <= n -> 0 <= x < 2 ^ n -> Z.land x (Z.ones n) = x.
Proof. intros. rewrite Z.land_ones by lia. apply Z.mod_small. lia. Qed.

Lemma wmax_mask : wmax = mask 0 64.
Proof. reflexivity. Qed.

Lemma testbit_word x i : is_word x -> 64 <= i -> Z.testbit x i = false.
Proof.
  intros [H0 H1] Hi. destruct (decide (x = 0)) as [->|Hx].
  - apply Z.testbit_0_l.
  - apply Z.bits_above_log2; [lia|].
    apply Z.log2_lt_pow2; [lia|]. unfold wmod in H1.
    eapply Z.lt_le_trans; [exact H1|]. apply Z.pow_le_mono_r; lia.
Qed.

Lemma is_word_testbit x : 0 <= x -> (forall i, 64 <= i -> Z.testbit x i = false) -> is_word x.
Proof.
  intros H0 Hb. split; [done|].
  assert (E : x mod 2 ^ 64 = x).
  { apply Z.bits_inj'. intros i Hi. destruct (Z.lt_ge_cases i 64).
    - rewrite Z.mod_pow2_bits_low by lia. done.
    - rewrite Z.mod_pow2_bits_high by lia. by rewrite Hb. }
  unfold wmod. pose proof (Z.mod_pos_bound x (2 ^ 64)). lia.
Qed.

Lemma wnot_spec x i : 0 <= i -> Z.testbit (wnot x) i = xorb (Z.testbit x i) (i <? 64).
Proof.
  intros. unfold wnot. rewrite Z.lxor_spec, wmax_mask, testbit_mask by lia.
  replace (0 <=? i) with true by lia. done.
Qed.

Lemma wshl_spec x n i :
  0 <= i -> Z.testbit (wshl x n) i = Z.testbit x (i - n) && (i <? 64).
Proof.
  intros. unfold wshl. rewrite Z.land_spec, wmax_mask, testbit_mask by lia.
  rewrite Z.shiftl_spec by lia. replace (0 <=? i) with true by lia. done.
Qed.

Lemma wshr_spec x n i : 0 <= i -> Z.testbit (wshr x n) i = Z.testbit x (i + n).
Proof. intros. unfold wshr. by apply Z.shiftr_spec. Qed.

(** *** Bit fields

    Every packed value of the crate is a concatenation of contiguous fields.
    [fget] and [fset] are the two idioms of the code,
    [(w & MASK) >> POS] and [(w & !MASK) | (v << POS)]. *)
Definition fget (lo n w : Z) : Z := wshr (Z.land w (mask lo n)) lo.
Definition fset (lo n w v : Z) : Z := Z.lor (Z.land w (wnot (mask lo n))) (wshl v lo).

#[global] Arguments wadd : simpl never.
#[global] Arguments wsub : simpl never.
#[global] Arguments wnot : simpl never.
#[global] Arguments wshl : simpl never.
#[global] Arguments wshr : simpl never.
#[global] Arguments fget : simpl never.
#[global] Arguments fset : simpl never.
#[global] Arguments mask : simpl never.

Create Rewrite HintDb zbits.
#[export] Hint Rewrite Z.land_spec Z.lor_spec Z.lxor_spec : zbits.
#[export] Hint Rewrite wnot_spec wshl_spec wshr_spec testbit_mask using lia : zbits.

(** Split the range tests left by [zbits] and close the boolean identity. *)
Ltac split_ranges :=
  repeat match goal with
  | |- context [?a <=? ?b] => destruct (Z.leb_spec a b); try lia
  | |- context [?a <? ?b] => destruct (Z.ltb_spec a b); try lia
  end; simpl.
Ltac bit_neg :=
  repeat match goal with
  | |- context [Z.testbit ?x ?i] => rewrite (Z.testbit_neg_r x i) by lia
  end.
Ltac zbit :=
  apply Z.bits_inj'; let i := fresh "i" in let Hi := fresh "Hi" in intros i Hi;
  autorewrite with zbits; split_ranges; bit_neg; try btauto.

Lemma fget_spec lo n w i :
  0 <= lo -> 0 <= n -> 0 <= i ->
  Z.testbit (fget lo n w) i = Z.testbit w (i + lo) && (i <? n).
Proof.
  intros. unfold fget. rewrite wshr_spec, Z.land_spec, testbit_mask by lia.
  split_ranges; btauto.
Qed.

Lemma fset_spec lo n w v i :
  0 <= lo -> 0 <= n -> 0 <= i ->
  Z.testbit (fset lo n w v) i =
    (Z.testbit w i && xorb ((lo <=? i) && (i <? lo + n)) (i <? 64))
    || (Z.testbit v (i - lo) && (i <? 64)).
Proof. intros. unfold fset. autorewrite with zbits. done. Qed.
#[export] Hint Rewrite fget_spec fset_spec using lia : zbits.

Lemma testbit_small v n i : 0 <= v < 2 ^ n -> n <= i -> Z.testbit v i = false.
Proof.
  intros Hv Hi. destruct (decide (v = 0)) as [->|Hv0]; [apply Z.testbit_0_l|].
  apply Z.bits_above_log2; [lia|].
  assert (0 < n) by (destruct (Z.lt_ge_cases 0 n); [done|];
    destruct (decide (n = 0)) as [->|]; [lia|rewrite Z.pow_neg_r in Hv by lia; lia]).
  pose proof (proj1 (Z.log2_lt_pow2 v n ltac:(lia)) ltac:(lia)). lia.
Qed.

(** Reading a field back: a write that fits is read as written, a write that does
    not fit spills into the bits above, as [|] does in the code. *)
Lemma fget_fset_same lo n w v :
  0 <= lo -> 0 <= n -> lo + n <= 64 -> 0 <= v < 2 ^ n ->
  fget lo n (fset lo n w v) = v.
Proof.
  intros Hlo Hn H64 Hv. apply Z.bits_inj'. intros i Hi.
  rewrite fget_spec, fset_spec by lia.
  replace (i + lo - lo) with i by lia.
  destruct (Z.ltb_spec i n).
  - split_ranges; btauto.
  - rewrite (testbit_small v n) by lia. btauto.
Qed.

Lemma fget_fset_other lo n lo' n' w v :
  0 <= lo -> 0 <= n -> lo' + n' <= 64 -> 0 <= lo' -> 0 <= n' -> 0 <= v < 2 ^ n ->
  lo' + n' <= lo \/ lo + n <= lo' ->
  fget lo' n' (fset lo n w v) = fget lo' n' w.
Proof.
  intros Hlo Hn H64 Hlo' Hn' Hv Hdisj. apply Z.bits_inj'. intros i Hi.
  rewrite !fget_spec, fset_spec by lia.
  destruct (Z.ltb_spec i n'); [|btauto].
  destruct Hdisj.
  - rewrite (Z.testbit_neg_r v) by lia. split_ranges; btauto.
  - rewrite (testbit_small v n) by lia. split_ranges; btauto.
Qed.

Lemma fget_range lo n w : 0 <= lo -> 0 <= n -> 0 <= fget lo n w < 2 ^ n.
Proof.
  intros. assert (fget lo n w = fget lo n w mod 2 ^ n) as ->.
  - apply Z.bits_inj'. intros i Hi. destruct (Z.lt_ge_cases i n).
    + by rewrite Z.mod_pow2_bits_low by lia.
    + rewrite Z.mod_pow2_bits_high by lia. rewrite fget_spec by lia.
      split_ranges; btauto.
  - apply Z.mod_pos_bound. lia.
Qed.

Lemma fset_word lo n w v :
  0 <= lo -> 0 <= n -> 0 <= v -> is_word w -> is_word (fset lo n w v).
Proof.
  intros Hlo Hn Hv [Hw0 Hw]. apply is_word_testbit.
  - unfold fset, wshl. apply Z.lor_nonneg. split; apply Z.land_nonneg.
    + by left.
    + right. by vm_compute.
  - intros i Hi. rewrite fset_spec by lia.
    rewrite (testbit_word w) by (done || lia). split_ranges; btauto.
Qed.

(** A field as arithmetic: [fget lo n w = (w / 2^lo) mod 2^n]. *)
Lemma fget_div lo n w : 0 <= lo -> 0 <= n -> fget lo n w = (w / 2 ^ lo) mod 2 ^ n.
Proof.
  intros. rewrite <- Z.land_ones, <- Z.shiftr_div_pow2 by lia.
  apply Z.bits_inj'. intros i Hi.
  rewrite fget_spec, Z.land_spec, Z.shiftr_spec, Z.testbit_ones_nonneg by lia. done.
Qed.

(** Arithmetic with division and remainder by literals. *)
Ltac zdiv := Z.to_euclidean_division_equations; lia.

Lemma fset_mod lo n w v :
  0 <= lo -> 0 <= n -> lo + n = 64 -> fset lo n w v = fset lo n w (v mod 2 ^ n).
Proof.
  intros. apply Z.bits_inj'. intros i Hi. rewrite !fset_spec by lia.
  destruct (Z.ltb_spec i 64); [|btauto].
  destruct (Z.lt_ge_cases i lo).
  - by rewrite !(Z.testbit_neg_r _ (i - lo)) by lia.
  - by rewrite Z.mod_pow2_bits_low by lia.
Qed.

(** ** Packed words

    A layout lists the fields of a word from the least significant one, each with
    its width and value. *)
Fixpoint pack (fs : list (Z * Z)) : Z :=
  match fs with [] => 0 | (n, v) :: fs' => v + 2 ^ n * pack fs' end.
Fixpoint width (fs : list (Z * Z)) : Z :=
  match fs with [] => 0 | (n, _) :: fs' => n + width fs' end.
Definition fits (fs : list (Z * Z)) : Prop := Forall (fun f => 0 <= f.1 /\ 0 <= f.2 < 2 ^ f.1) fs.

Lemma width_nonneg fs : fits fs -> 0 <= width fs.
Proof. induction 1 as [|[n v] fs [Hn Hv] _ IH]; simpl in *; lia. Qed.

Lemma width_app fs gs : width (fs ++ gs) = width fs + width gs.
Proof. induction fs as [|[]]; simpl in *; lia. Qed.

Lemma pack_range fs : fits fs -> 0 <= pack fs < 2 ^ width fs.
Proof.
  induction 1 as [|[n v] fs [Hn Hv] Hfs IH]; simpl in *; [lia|].
  rewrite Z.pow_add_r by (try apply width_nonneg; done). nia.
Qed.

Lemma pack_app fs gs : fits fs -> pack (fs ++ gs) = pack fs + 2 ^ width fs * pack gs.
Proof.
  induction 1 as [|[n v] fs [Hn Hv] Hfs IH]; simpl in *; [lia|].
  rewrite IH, Z.pow_add_r by (try apply width_nonneg; done). lia.
Qed.

Lemma testbit_add_high a b n i :
  0 <= n -> 0 <= a < 2 ^ n -> 0 <= i ->
  Z.testbit (a + 2 ^ n * b) i = if i <? n then Z.testbit a i else Z.testbit b (i - n).
Proof.
  intros Hn Ha Hi. destruct (Z.ltb_spec i n).
  - rewrite <- (Z.mod_pow2_bits_low (a + 2 ^ n * b) n i) by lia.
    rewrite (Z.mul_comm (2 ^ n)), Z.mod_add, Z.mod_small by lia. done.
  - replace i with (i - n + n) at 1 by lia. rewrite <- Z.div_pow2_bits by lia.
    rewrite (Z.mul_comm (2 ^ n)), Z.div_add, Z.div_small by lia. done.
Qed.

Lemma fits_app fs gs : fits (fs ++ gs) <-> fits fs /\ fits gs.
Proof. apply Forall_app. Qed.

Lemma fget_pack fs n v gs :
  fits (fs ++ (n, v) :: gs) -> fget (width fs) n (pack (fs ++ (n, v) :: gs)) = v.
Proof.
  intros [Hfs [[Hn Hv] Hgs]%Forall_cons]%fits_app. simpl in *.
  pose proof (width_nonneg _ Hfs). pose proof (pack_range _ Hfs).
  rewrite fget_div, pack_app by done. simpl.
  rewrite (Z.mul_comm (2 ^ width fs)), Z.div_add, Z.div_small by lia.
  rewrite Z.add_0_l, (Z.mul_comm (2 ^ n)), Z.mod_add, Z.mod_small by lia. done.
Qed.

Lemma fset_pack fs n v v' gs :
  fits (fs ++ (n, v) :: gs) -> width (fs ++ (n, v) :: gs) <= 64 -> 0 <= v' < 2 ^ n ->
  fset (width fs) n (pack (fs ++ (n, v) :: gs)) v' = pack (fs ++ (n, v') :: gs).
Proof.
  intros Hfit H64 Hv'. pose proof (pack_range _ Hfit) as Hr.
  assert (is_word (pack (fs ++ (n, v) :: gs))) as Hw.
  { unfold is_word, wmod. pose proof (Z.pow_le_mono_r 2 _ _ ltac:(lia) H64). lia. }
  apply fits_app in Hfit as [Hfs [[Hn Hv] Hgs]%Forall_cons]. simpl in Hn, Hv.
  pose proof (width_nonneg _ Hfs). pose proof (pack_range _ Hfs).
  pose proof (width_nonneg _ Hgs).
  assert (width fs + n <= 64) as Hle.
  { revert H64. rewrite width_app. simpl. lia. }
  apply Z.bits_inj'. intros i Hi. rewrite fset_spec by lia.
  rewrite !pack_app, !testbit_add_high by done. simpl.
  destruct (Z.ltb_spec i (width fs)).
  { rewrite (Z.testbit_neg_r v') by lia. split_ranges; btauto. }
  rewrite !testbit_add_high by lia.
  destruct (Z.ltb_spec (i - width fs) n).
  - split_ranges; btauto.
  - rewrite (testbit_small v' n) by lia.
    destruct (Z.ltb_spec i 64); [split_ranges; btauto|].
    rewrite andb_false_r, orb_false_r.
    pose proof (testbit_word _ i Hw ltac:(lia)) as Hb.
    rewrite pack_app, !testbit_add_high in Hb by done. simpl in Hb.
    replace (i <? width fs) with false in Hb by lia.
    rewrite !testbit_add_high in Hb by lia.
    replace (i - width fs <? n) with false in Hb by lia. rewrite Hb. done.
Qed.

Lemma pack_word fs : fits fs -> width fs <= 64 -> is_word (pack fs).
Proof.
  intros Hf Hw. pose proof (pack_range _ Hf).
  pose proof (Z.pow_le_mono_r 2 _ _ ltac:(lia) Hw). unfold is_word, wmod. lia.
Qed.

(** Every word is packed from its own fields. *)
Lemma pack_fget fs w :
  Forall (fun f => 0 <= f.1) fs -> 0 <= w < 2 ^ width fs ->
  exists vs, w = pack vs /\ fits vs /\ map fst vs = map fst fs.
Proof.
  intros Hfs. revert w. induction Hfs as [|[n v] fs Hn Hfs IH]; simpl; intros w Hw.
  - exists []. simpl. split; [lia|]. by split; [constructor|].
  - assert (0 <= width fs) by (clear -Hfs; induction Hfs as [|[]]; simpl in *; lia).
    rewrite Z.pow_add_r in Hw by done.
    destruct (IH (w / 2 ^ n)) as (vs & E & Hfit & Hm).
    { split; [apply Z.div_pos; lia|]. apply Z.div_lt_upper_bound; lia. }
    exists ((n, w mod 2 ^ n) :: vs). simpl. rewrite <- E, Hm. split.
    + pose proof (Z.div_mod w (2 ^ n)). lia.
    + split; [|done]. constructor; [|done]. simpl. split; [done|]. apply Z.mod_pos_bound. lia.
Qed.
