(* ===== verification/Prog.v ===== *)
(** * Programs over a shared memory

    The semantics every component uses.  A method of the crate is a [prog]: a tree
    whose nodes are atomic actions on the shared state (one atomic load, store,
    compare-exchange, ...) and whose leaves return or stop.  The same term is run
    alone by [run] (executable), interleaved with other threads by [pstep], and
    verified against an interfering environment by [wp], a rely-guarantee
    predicate defined by recursion on the program.

    An unbounded loop of the code is [loop] with fuel: running out of fuel is the
    outcome [OutOfFuel], which stands for a thread that is still in the loop.  The
    safety theorems hold for every fuel; that a method returns is proved with [run]. *)
From S2P Require Import Prelude.

(** Why a method stops without a value: a Rust panic, an access the code does not
    check (undefined behaviour), or the loop bound of the model. *)
Inductive stop :=
  | Panic (msg : string)
  | UB (what : string)
  | OutOfFuel.

#[export] Instance stop_eq_dec : EqDecision stop.
Proof. solve_decision. Defined.

Inductive res (A : Type) :=
  | Ok (a : A)
  | Stopped (e : stop).
Arguments Ok {A} a.
Arguments Stopped {A} e.

Section prog.
Context {S : Type}.

(** [Act f k]: one atomic step.  [f] reads and writes the whole shared state; a
    [Stopped] result is a fault of the step. *)
Inductive prog (A : Type) : Type :=
  | Ret (a : A)
  | Stop (e : stop)
  | Act {B : Type} (f : S -> res (B * S)) (k : B -> prog A).
Arguments Ret {A} a.
Arguments Stop {A} e.
Arguments Act {A B} f k.

Fixpoint bind {A B} (p : prog A) (h : A -> prog B) : prog B :=
  match p with
  | Ret a => h a
  | Stop e => Stop e
  | Act f k => Act f (fun b => bind (k b) h)
  end.

Definition atomic {A} (f : S -> res (A * S)) : prog A := Act f Ret.
Definition gets {A} (f : S -> A) : prog A := atomic (fun s => Ok (f s, s)).
Definition modify (f : S -> S) : prog unit := atomic (fun s => Ok (tt, f s)).
(** [assert!] and [debug_assert!]: the latter is checked in debug builds only; the
    theorems that exclude [Panic] make both builds agree. *)
Definition assert_ (b : bool) (msg : string) : prog unit :=
  if b then Ret tt else Stop (Panic msg).
Definition unwrap {A} (o : option A) (msg : string) : prog A :=
  match o with Some a => Ret a | None => Stop (Panic msg) end.
(** [unwrap_unchecked], [get_unchecked], a raw dereference. *)
Definition unchecked {A} (o : option A) (msg : string) : prog A :=
  match o with Some a => Ret a | None => Stop (UB msg) end.

Fixpoint loop {L R} (fuel : nat) (body : L -> prog (L + R)) (l : L) : prog R :=
  match fuel with
  | O => Stop OutOfFuel
  | Datatypes.S n => bind (body l) (fun x =>
      match x with inl l' => loop n body l' | inr r => Ret r end)
  end.

(** [for x in xs { body }] *)
Fixpoint foreach {X} (xs : list X) (body : X -> prog unit) : prog unit :=
  match xs with
  | [] => Ret tt
  | x :: xs' => bind (body x) (fun _ => foreach xs' body)
  end.

(** A thread whose panic ends the thread and not the process: what [join] of the
    thread returns.  Running out of fuel is not a panic, the thread is still busy. *)
Fixpoint catch {A} (p : prog A) : prog (res A) :=
  match p with
  | Ret a => Ret (Ok a)
  | Stop OutOfFuel => Stop OutOfFuel
  | Stop e => Ret (Stopped e)
  | Act f k => Act (fun s => match f s with
                             | Ok (b, s') => Ok (inl b, s')
                             | Stopped OutOfFuel => Stopped OutOfFuel
                             | Stopped e => Ok (inr e, s)
                             end)
                   (fun x => match x with inl b => catch (k b) | inr e => Ret (Stopped e) end)
  end.

(** [for x in xs] with an accumulator and an early exit ([inr]). *)
Fixpoint for_each {X L R} (xs : list X) (body : X -> L -> prog (L + R)) (a : L) : prog (L + R) :=
  match xs with
  | [] => Ret (inl a)
  | x :: xs' => bind (body x a) (fun r =>
      match r with inl a' => for_each xs' body a' | inr r => Ret (inr r) end)
  end.

(** ** Running alone *)
Fixpoint run {A} (p : prog A) (s : S) : res (A * S) :=
  match p with
  | Ret a => Ok (a, s)
  | Stop e => Stopped e
  | Act f k => match f s with
               | Ok (b, s') => run (k b) s'
               | Stopped e => Stopped e
               end
  end.

Lemma run_bind {A B} (p : prog A) (h : A -> prog B) s :
  run (bind p h) s =
    match run p s with Ok (a, s') => run (h a) s' | Stopped e => Stopped e end.
Proof.
  revert s. induction p as [a|e|C f k IH]; intros s; simpl; [done|done|].
  destruct (f s) as [[b s']|]; auto.
Qed.

Lemma run_bind_ok {A B} (p : prog A) (h : A -> prog B) s a s' :
  run p s = Ok (a, s') -> run (bind p h) s = run (h a) s'.
Proof. intros E. by rewrite run_bind, E. Qed.

Lemma bind_assoc {A B C} (p : prog A) (h : A -> prog B) (g : B -> prog C) s :
  run (bind (bind p h) g) s = run (bind p (fun a => bind (h a) g)) s.
Proof.
  rewrite !run_bind. destruct (run p s) as [[a s']|]; [|done].
  by rewrite run_bind.
Qed.

(** A loop that finishes in [n] iterations finishes with any larger fuel. *)
Lemma loop_mono {L R} n m (body : L -> prog (L + R)) l s r :
  (n <= m)%nat -> run (loop n body l) s = Ok r -> run (loop m body l) s = Ok r.
Proof.
  revert m l s. induction n as [|n IH]; intros m l s Hle; simpl; [done|].
  destruct m as [|m]; [lia|]. simpl. rewrite !run_bind.
  destruct (run (body l) s) as [[[l'|r'] s']|]; auto with lia.
Qed.

(** Loop with a variant: each iteration either exits or decreases [V]. *)
Lemma loop_variant {L R} (I : L -> S -> Prop) (Q : R -> S -> Prop) (V : L -> S -> nat)
    (body : L -> prog (L + R)) :
  (forall l s, I l s -> exists x s', run (body l) s = Ok (x, s') /\
     match x with
     | inl l' => I l' s' /\ (V l' s' < V l s)%nat
     | inr r => Q r s'
     end) ->
  forall fuel l s, I l s -> (V l s < fuel)%nat ->
  exists r s', run (loop fuel body l) s = Ok (r, s') /\ Q r s'.
Proof.
  intros Hb fuel. induction fuel as [|n IH]; intros l s HI HV; [lia|]. simpl.
  destruct (Hb l s HI) as (x & s' & E & Hx). rewrite run_bind, E.
  destruct x as [l'|r]; [|by eauto].
  destruct Hx as [HI' HV']. apply IH; [done|lia].
Qed.

(** ** Verification against an environment

    [wp R G p tr Q s]: from [s], and whatever the environment does between two
    atomic steps as long as its moves are in the preorder [R], every step of [p]
    succeeds, is in the guarantee [G], and [p] ends with a value and a state in
    [Q].  A step may perform an abstract event, [G (Some e)], at which point the
    operation takes effect ([G None] is a silent step); [tr] is the trace of the
    events performed so far, which [Q] relates to the returned value. *)
Section wp.
Context {Ev : Type}.
Implicit Types (R : S -> S -> Prop) (G : option Ev -> S -> S -> Prop) (tr : list Ev).

Fixpoint wp {A} R G (p : prog A) tr (Q : A -> list Ev -> S -> Prop) (s : S) : Prop :=
  match p with
  | Ret a => forall s', R s s' -> Q a tr s'
  | Stop e => e = OutOfFuel
  | Act f k => forall s', R s s' ->
      match f s' with
      | Ok (b, s'') => exists o, G o s' s'' /\ wp R G (k b) (tr ++ option_list o) Q s''
      | Stopped e => e = OutOfFuel
      end
  end.

Lemma wp_mono {A} R G (p : prog A) tr (Q Q' : A -> list Ev -> S -> Prop) s :
  (forall a tr' s', Q a tr' s' -> Q' a tr' s') -> wp R G p tr Q s -> wp R G p tr Q' s.
Proof.
  intros HQ. revert tr s. induction p as [a|e|B f k IH]; simpl; intros tr s H; [by eauto|done|].
  intros s' Hs. specialize (H s' Hs). destruct (f s') as [[b s'']|]; [|done].
  destruct H as (o & HG & H). eauto.
Qed.

Lemma wp_guar {A} R G G' (p : prog A) tr Q s :
  (forall o x y, G o x y -> G' o x y : Prop) -> wp R G p tr Q s -> wp R G' p tr Q s.
Proof.
  intros HG. revert tr s. induction p as [a|e|B f k IH]; simpl; intros tr s H; [done|done|].
  intros s' Hs. specialize (H s' Hs). destruct (f s') as [[b s'']|]; [|done].
  destruct H as (o & ? & H). eauto.
Qed.

Lemma wp_env {A} R `{!Transitive R} G (p : prog A) tr Q s s' :
  R s s' -> wp R G p tr Q s -> wp R G p tr Q s'.
Proof.
  destruct p as [a|e|B f k]; simpl; intros Hr H; [|done|];
    intros s'' ?; apply H; by transitivity s'.
Qed.

Lemma wp_bind {A B} R `{!PreOrder R} G (p : prog A) (h : A -> prog B) tr Q s :
  wp R G p tr (fun a tr' s' => wp R G (h a) tr' Q s') s -> wp R G (bind p h) tr Q s.
Proof.
  revert tr s. induction p as [a|e|C f k IH]; simpl; intros tr s H.
  - apply H. reflexivity.
  - done.
  - intros s' Hs. specialize (H s' Hs). destruct (f s') as [[b s'']|]; [|done].
    destruct H as (o & HG & H). eauto.
Qed.

(** A caught program: a panic reaches the postcondition. *)
Lemma wp_catch_bind {A B} R `{!PreOrder R} G (p : prog A) (h : A -> prog B) tr Q s :
  wp R G (catch p) tr (fun r tr' s' =>
    match r with
    | Ok a => wp R G (catch (h a)) tr' Q s'
    | Stopped e => forall s'', R s' s'' -> Q (Stopped e) tr' s''
    end) s ->
  wp R G (catch (bind p h)) tr Q s.
Proof.
  revert tr s. induction p as [a|e|C f k IH]; simpl; intros tr s H.
  - apply H. reflexivity.
  - destruct e; try exact H; intros s' Hs; apply (H s' Hs); reflexivity.
  - intros s' Hs. specialize (H s' Hs). destruct (f s') as [[b s'']|[]]; try done.
    + destruct H as (o & HG & H). eauto.
    + destruct H as (o & HG & H). exists o. split; [done|]. intros s2 H2. apply (H s2 H2). reflexivity.
    + destruct H as (o & HG & H). exists o. split; [done|]. intros s2 H2. apply (H s2 H2). reflexivity.
Qed.

Lemma wp_catch_loop {L X} R `{!PreOrder R} G (I : L -> list Ev -> S -> Prop)
    (body : L -> prog (L + X)) Q :
  (forall l tr s, I l tr s -> wp R G (catch (body l)) tr
     (fun x tr' s' => match x with
                      | Ok (inl l') => I l' tr' s'
                      | Ok (inr r) => wp R G (Ret (Ok r)) tr' Q s'
                      | Stopped e => forall s'', R s' s'' -> Q (Stopped e) tr' s''
                      end) s) ->
  forall fuel l tr s, I l tr s -> wp R G (catch (loop fuel body l)) tr Q s.
Proof.
  intros Hb fuel. induction fuel as [|n IH]; intros l tr s HI; [done|]. cbn [loop].
  apply wp_catch_bind; [done|]. eapply wp_mono; [|by apply Hb].
  intros [[l'|r]|e] tr' s' H; auto.
Qed.

Lemma wp_catch_gets {A B} R G (f : S -> B) (k : B -> prog A) tr Q s :
  (forall s', R s s' -> G None s' s') ->
  (forall s', R s s' -> wp R G (catch (k (f s'))) tr Q s') ->
  wp R G (catch (bind (gets f) k)) tr Q s.
Proof.
  simpl. intros HG H s' Hs. exists None. split; [by apply HG|].
  simpl. rewrite app_nil_r. by apply H.
Qed.

Lemma wp_ret_env {A} R G (a : A) tr (Q : A -> list Ev -> S -> Prop) s :
  (forall s', R s s' -> Q a tr s') -> wp R G (Ret a) tr Q s.
Proof. done. Qed.

(** One atomic step, with its event. *)
Lemma wp_act {A B} R G (f : S -> res (B * S)) (k : B -> prog A) tr Q s :
  (forall s', R s s' -> exists b s'' o, f s' = Ok (b, s'') /\ G o s' s'' /\
     wp R G (k b) (tr ++ option_list o) Q s'') ->
  wp R G (Act f k) tr Q s.
Proof.
  simpl. intros H s' Hs. destruct (H s' Hs) as (b & s'' & o & -> & HG & Hw). eauto.
Qed.

Lemma wp_atomic {A B} R G (f : S -> res (B * S)) (k : B -> prog A) tr Q s :
  (forall s', R s s' -> exists b s'' o, run (atomic f) s' = Ok (b, s'') /\ G o s' s'' /\
     wp R G (k b) (tr ++ option_list o) Q s'') ->
  wp R G (bind (atomic f) k) tr Q s.
Proof.
  intros H. apply wp_act. intros s' Hs. destruct (H s' Hs) as (b & s'' & o & E & HG & Hw).
  exists b, s'', o. split; [|done]. cbn in E. by destruct (f s') as [[b' x]|]; simplify_eq.
Qed.
(** A read does not change the state: a silent step. *)
Lemma wp_gets {A B} R G (f : S -> B) (k : B -> prog A) tr Q s :
  (forall s', R s s' -> G None s' s') ->
  (forall s', R s s' -> wp R G (k (f s')) tr Q s') ->
  wp R G (bind (gets f) k) tr Q s.
Proof.
  simpl. intros HG H s' Hs. exists None. split; [by apply HG|].
  simpl. rewrite app_nil_r. by apply H.
Qed.

(** A loop under interference: [I] holds at each iteration. *)
Lemma wp_loop {L X} R `{!PreOrder R} G (I : L -> list Ev -> S -> Prop)
    (body : L -> prog (L + X)) Q :
  (forall l tr s, I l tr s -> wp R G (body l) tr
     (fun x tr' s' => match x with
                      | inl l' => I l' tr' s'
                      | inr r => wp R G (Ret r) tr' Q s'
                      end) s) ->
  forall fuel l tr s, I l tr s -> wp R G (loop fuel body l) tr Q s.
Proof.
  intros Hb fuel. induction fuel as [|n IH]; intros l tr s HI; [done|]. simpl.
  apply wp_bind; [done|]. eapply wp_mono; [|by apply Hb].
  intros [l'|r] tr' s' H; auto.
Qed.

(** ** Interleaving

    A pool of threads over one shared state; a step picks a thread and performs
    its next atomic action. *)
Inductive pstep {A} : list (prog A) * S -> list (prog A) * S -> Prop :=
  | PStep i (ps : list (prog A)) B (f : S -> res (B * S)) k s b s' :
      ps !! i = Some (Act f k) -> f s = Ok (b, s') ->
      pstep (ps, s) (<[i := k b]> ps, s').

(** The interleaving a schedule names, thread by thread; a thread that cannot move
    loses its turn. *)
Fixpoint pool_run {A} (sched : list nat) (c : list (prog A) * S) : list (prog A) * S :=
  match sched with
  | [] => c
  | i :: sched' =>
      pool_run sched'
        match c.1 !! i with
        | Some (Act f k) => match f c.2 with
                            | Ok (b, s') => (<[i := k b]> c.1, s')
                            | Stopped _ => c
                            end
        | _ => c
        end
  end.
(** The values of the threads that have returned. *)
Definition results {A} (ps : list (prog A)) : list (option A) :=
  (fun p => match p with Ret a => Some a | _ => None end) <$> ps.

(** Guarantee steps of the threads, with the events they perform. *)
Inductive gsteps (G : nat -> option Ev -> S -> S -> Prop) : S -> list (nat * Ev) -> S -> Prop :=
  | gsteps_nil s : gsteps G s [] s
  | gsteps_cons i o s1 s2 t s3 :
      G i o s1 s2 -> gsteps G s2 t s3 ->
      gsteps G s1 (option_list ((i,.) <$> o) ++ t) s3.

(** An uninterrupted run is one of the interleavings [wp] covers: it stops only for
    lack of fuel, and its steps are guarantee steps whose events extend the trace. *)
Lemma wp_run {A} R `{!Reflexive R} G (p : prog A) tr Q s i :
  wp R G p tr Q s ->
  match run p s with
  | Ok (a, s') => exists t, gsteps (fun _ => G) s (map (i,.) t) s' /\ Q a (tr ++ t) s'
  | Stopped e => e = OutOfFuel
  end.
Proof.
  revert tr s. induction p as [a|e|B f k IH]; simpl; intros tr s H; [|done|].
  - exists []. rewrite app_nil_r. split; [constructor|auto].
  - specialize (H s (reflexivity s)). destruct (f s) as [[b s']|]; [|done].
    destruct H as (o & HG & H). specialize (IH _ _ _ H).
    destruct (run (k b) s') as [[a s'']|]; [|done].
    destruct IH as (t & Ht & HQ). exists (option_list o ++ t).
    rewrite app_assoc. split; [|done].
    replace (map (i,.) (option_list o ++ t)) with (option_list ((i,.) <$> o) ++ map (i,.) t)
      by (by destruct o).
    by econstructor.
Qed.

Lemma results_lookup {A} (ps : list (prog A)) i a : results ps !! i = Some (Some a) -> ps !! i = Some (Ret a).
Proof. unfold results. rewrite list_lookup_fmap. destruct (ps !! i) as [[]|]; naive_solver. Qed.
Lemma pool_run_rtc {A} sched (c : list (prog A) * S) :
  rtc pstep c ((pool_run sched c).1, (pool_run sched c).2).
Proof.
  rewrite <- surjective_pairing. revert c. induction sched as [|i sched IH]; intros [ps s]; [reflexivity|].
  cbn [pool_run fst snd]. destruct (ps !! i) as [[a|e|B f k]|] eqn:Ei; try apply IH.
  destruct (f s) as [[b s']|e] eqn:Ef; [|apply IH]. eapply rtc_l; [by econstructor|apply IH].
Qed.

(** The events of thread [i]. *)
Definition proj (i : nat) (t : list (nat * Ev)) : list Ev :=
  (filter (fun x => x.1 = i) t).*2.

Lemma proj_app i t1 t2 : proj i (t1 ++ t2) = proj i t1 ++ proj i t2.
Proof. unfold proj. by rewrite filter_app, fmap_app. Qed.
Lemma proj_self i o : proj i (option_list ((i,.) <$> o)) = option_list o.
Proof. destruct o; simpl; [|done]. unfold proj. by rewrite filter_cons, decide_True. Qed.
Lemma proj_other i j o : i <> j -> proj i (option_list ((j,.) <$> o)) = [].
Proof. intros. destruct o; simpl; [|done]. unfold proj. by rewrite filter_cons, decide_False. Qed.

Lemma pool_step {A} (R : nat -> S -> S -> Prop) (G : nat -> option Ev -> S -> S -> Prop)
    (Q : nat -> A -> list Ev -> S -> Prop) ps s ps' s' (tr : nat -> list Ev) :
  (forall i, PreOrder (R i)) -> (forall i j o x y, i <> j -> G j o x y -> R i x y) ->
  (forall i p, ps !! i = Some p -> wp (R i) (G i) p (tr i) (Q i) s) ->
  pstep (ps, s) (ps', s') ->
  exists i o, G i o s s' /\ forall j p, ps' !! j = Some p ->
    wp (R j) (G j) p (tr j ++ proj j (option_list ((i,.) <$> o))) (Q j) s'.
Proof.
  intros HR HGR Hps Hst. inversion Hst as [i ps0 B f k s0 b s1 Hi Hf]; subst.
  pose proof (Hps i _ Hi) as Hw. simpl in Hw.
  specialize (Hw s ltac:(reflexivity)). rewrite Hf in Hw. destruct Hw as (o & HG & Hw).
  exists i, o. split; [done|]. intros j p Hj.
  destruct (decide (i = j)) as [<-|Hne].
  - rewrite list_lookup_insert_eq in Hj by eauto using lookup_lt_Some.
    simplify_eq. by rewrite proj_self.
  - rewrite list_lookup_insert_ne in Hj by done. rewrite proj_other, app_nil_r by done.
    eapply wp_env; [apply HR| |by apply Hps]. eauto.
Qed.

(** Soundness.  Threads verified separately stay verified under every interleaving:
    no thread faults, the state evolves by guarantee steps, the local trace of each
    thread is its part of the global one, a finished thread satisfies its
    postcondition, and every event of the trace was performed by a step of the
    interleaving. *)
Lemma pool_trace {A} (R : nat -> S -> S -> Prop) (G : nat -> option Ev -> S -> S -> Prop)
    (Q : nat -> A -> list Ev -> S -> Prop) ps s ps' s' (tr : nat -> list Ev) :
  (forall i, PreOrder (R i)) -> (forall i j o x y, i <> j -> G j o x y -> R i x y) ->
  (forall i p, ps !! i = Some p -> wp (R i) (G i) p (tr i) (Q i) s) ->
  rtc pstep (ps, s) (ps', s') ->
  exists t, gsteps G s t s' /\
    (forall i p, ps' !! i = Some p -> wp (R i) (G i) p (tr i ++ proj i t) (Q i) s') /\
    (forall i e, (i, e) ∈ t -> exists ps1 s1 ps2 s2, rtc pstep (ps, s) (ps1, s1) /\
       pstep (ps1, s1) (ps2, s2) /\ G i (Some e) s1 s2 /\ rtc pstep (ps2, s2) (ps', s')).
Proof.
  intros HR HGR Hps Hst.
  remember (ps, s) as x eqn:Ex. remember (ps', s') as y eqn:Ey.
  revert ps s tr Ex Hps ps' s' Ey.
  induction Hst as [z|x [ps1 s1] z Hstep Hrtc IH]; intros ps s tr Ex Hps ps' s' Ey.
  - subst. simplify_eq. exists []. split; [constructor|]. split.
    + intros i p Hi. simpl. rewrite app_nil_r. auto.
    + intros i e H. by apply not_elem_of_nil in H.
  - subst. destruct (pool_step R G Q _ _ _ _ tr HR HGR Hps Hstep) as (i & o & HG & Hps1).
    destruct (IH ps1 s1 _ eq_refl Hps1 ps' s' eq_refl) as (t & Ht & Hend & Hev).
    exists (option_list ((i,.) <$> o) ++ t). split; [by econstructor|]. split.
    + intros j p Hj. rewrite proj_app, app_assoc. auto.
    + intros j e [H|H]%elem_of_app.
      * destruct o as [e'|]; [|by apply not_elem_of_nil in H].
        apply list_elem_of_singleton in H. simplify_eq. exists ps, s, ps1, s1. done.
      * destruct (Hev j e H) as (qs1 & x1 & qs2 & x2 & H1 & H2 & H3 & H4).
        exists qs1, x1, qs2, x2. split; [by eapply rtc_l|done].
Qed.
Lemma pool_sound {A} (R : nat -> S -> S -> Prop) (G : nat -> option Ev -> S -> S -> Prop)
    (Q : nat -> A -> list Ev -> S -> Prop) ps s ps' s' (tr : nat -> list Ev) :
  (forall i, PreOrder (R i)) -> (forall i j o x y, i <> j -> G j o x y -> R i x y) ->
  (forall i p, ps !! i = Some p -> wp (R i) (G i) p (tr i) (Q i) s) ->
  rtc pstep (ps, s) (ps', s') ->
  exists t, gsteps G s t s' /\ forall i p, ps' !! i = Some p ->
    wp (R i) (G i) p (tr i ++ proj i t) (Q i) s'.
Proof.
  intros HR HGR Hps Hst. destruct (pool_trace R G Q _ _ _ _ tr HR HGR Hps Hst) as (t & Ht & Hend & _).
  by exists t.
Qed.

(** A fact about the state that was lost was lost in a step of some thread. *)
Lemma pool_transition {A} (R : nat -> S -> S -> Prop) (G : nat -> option Ev -> S -> S -> Prop)
    (Q : nat -> A -> list Ev -> S -> Prop) (P : S -> Prop) `{!forall s, Decision (P s)} ps s ps' s' (tr : nat -> list Ev) :
  (forall i, PreOrder (R i)) -> (forall i j o x y, i <> j -> G j o x y -> R i x y) ->
  (forall i p, ps !! i = Some p -> wp (R i) (G i) p (tr i) (Q i) s) ->
  rtc pstep (ps, s) (ps', s') -> P s -> ~ P s' ->
  exists ps1 s1 i o ps2 s2, rtc pstep (ps, s) (ps1, s1) /\ pstep (ps1, s1) (ps2, s2) /\ G i o s1 s2 /\
    P s1 /\ ~ P s2 /\ rtc pstep (ps2, s2) (ps', s').
Proof.
  intros HR HGR Hps Hst. remember (ps, s) as x eqn:Ex. remember (ps', s') as y eqn:Ey.
  revert ps s tr Ex Hps Ey. induction Hst as [z|x [ps1 s1] z Hstep Hrtc IH]; intros ps s tr Ex Hps Ey HP HN.
  - subst. by simplify_eq.
  - subst. destruct (pool_step R G Q _ _ _ _ tr HR HGR Hps Hstep) as (i & o & HG & Hps1).
    destruct (decide (P s1)) as [HP1|HN1].
    + destruct (IH ps1 s1 _ eq_refl Hps1 eq_refl HP1 HN) as (ps2 & s2 & j & o' & ps3 & s3 & H1 & H2 & H3 & H4 & H5 & H6).
      exists ps2, s2, j, o', ps3, s3. split; [by eapply rtc_l|done].
    + exists ps, s, i, o, ps1, s1. split; [reflexivity|]. done.
Qed.

(** What [pool_sound] says of a thread that has returned, and of one that is stuck. *)
Lemma wp_ret_now {A} R `{!Reflexive R} G (a : A) tr Q s : wp R G (Ret a) tr Q s -> Q a tr s.
Proof. simpl. auto. Qed.
Lemma wp_stop {A} R G e tr (Q : A -> list Ev -> S -> Prop) s :
  wp R G (Stop e) tr Q s -> e = OutOfFuel.
Proof. done. Qed.

(** A thread that has not faulted and whose next step does not. *)
Definition faultless {A} (p : prog A) (s : S) : Prop :=
  match p with
  | Ret _ => True
  | Stop e => e = OutOfFuel
  | Act f _ => match f s with Ok _ => True | Stopped e => e = OutOfFuel end
  end.
Lemma wp_faultless {A} R `{!Reflexive R} G (p : prog A) tr Q s : wp R G p tr Q s -> faultless p s.
Proof. destruct p as [a|e|B f k]; [done|done|]. simpl. intros H. specialize (H s (reflexivity s)). by destruct (f s) as [[b s']|]. Qed.

(** ** Linearizability

    When every silent step keeps the abstract state and every event step is a step
    of the sequential specification, the global trace is a linearization: running
    the specification along it leads from the abstract initial to the abstract
    final state. *)
Section linearize.
Context {T : Type} (abs : S -> T) (spec : Ev -> T -> T -> Prop).

Inductive runs : T -> list Ev -> T -> Prop :=
  | runs_nil x : runs x [] x
  | runs_cons e x y t z : spec e x y -> runs y t z -> runs x (e :: t) z.

Lemma gsteps_runs (G : nat -> option Ev -> S -> S -> Prop) s t s' :
  (forall i s1 s2, G i None s1 s2 -> abs s2 = abs s1) ->
  (forall i e s1 s2, G i (Some e) s1 s2 -> spec e (abs s1) (abs s2)) ->
  gsteps G s t s' -> runs (abs s) (t.*2) (abs s').
Proof.
  intros H0 H1. induction 1 as [s|i [e|] s1 s2 t s3 HG _ IH]; simpl; [constructor| |].
  - econstructor; eauto.
  - by rewrite <- (H0 _ _ _ HG).
Qed.

(** The same with an abstraction relation. *)
Lemma gsteps_sim (A : S -> T -> Prop) (G : nat -> option Ev -> S -> S -> Prop) s t s' x :
  (forall i s1 s2 x, G i None s1 s2 -> A s1 x -> A s2 x) ->
  (forall i e s1 s2 x, G i (Some e) s1 s2 -> A s1 x -> exists y, spec e x y /\ A s2 y) ->
  gsteps G s t s' -> A s x -> exists y, runs x (t.*2) y /\ A s' y.
Proof.
  intros H0 H1 Ht. revert x. induction Ht as [s|i [e|] s1 s2 t s3 HG _ IH]; intros x Hx.
  - exists x. split; [constructor|done].
  - destruct (H1 _ _ _ _ _ HG Hx) as (y & Hs & Hy). destruct (IH y Hy) as (z & Hr & Hz).
    exists z. split; [|done]. by econstructor.
  - apply IH. eauto.
Qed.
End linearize.
End wp.

End prog.

Arguments prog : clear implicits.
Arguments Ret {S A} a.
Arguments Stop {S A} e.
Arguments Act {S A B} f k.

(** ** Components of a larger state

    A method of a component runs on the part of the state the component owns. *)
Section lift.
Context {S1 S2 : Type} (get : S2 -> S1) (put : S1 -> S2 -> S2).

Fixpoint lift {A} (p : prog S1 A) : prog S2 A :=
  match p with
  | Ret a => Ret a
  | Stop e => Stop e
  | Act f k => Act (fun s => match f (get s) with
                             | Ok (b, x) => Ok (b, put x s)
                             | Stopped e => Stopped e
                             end) (fun b => lift (k b))
  end.

Context (get_put : forall x s, get (put x s) = x)
        (put_put : forall x y s, put x (put y s) = put x s)
        (put_get : forall s, put (get s) s = s).

Lemma run_lift {A} (p : prog S1 A) s :
  run (lift p) s =
    match run p (get s) with Ok (a, x) => Ok (a, put x s) | Stopped e => Stopped e end.
Proof using get_put put_put put_get.
  revert s. induction p as [a|e|B f k IH]; intros s; simpl; [by rewrite put_get|done|].
  destruct (f (get s)) as [[b x]|]; [|done]. rewrite IH, get_put.
  destruct (run (k b) x) as [[a y]|]; [|done]. by rewrite put_put.
Qed.

(** Verified in the component, with a fact [J] about the whole state that the
    environment and the component's own steps keep. *)
Lemma wp_catch_lift {A Ev} (R1 : S1 -> S1 -> Prop) (G1 : option Ev -> S1 -> S1 -> Prop)
    (R2 : S2 -> S2 -> Prop) (G2 : option Ev -> S2 -> S2 -> Prop) (J : S2 -> Prop)
    (p : prog S1 A) tr Q s :
  (forall s s', R2 s s' -> R1 (get s) (get s')) ->
  (forall s s', J s -> R2 s s' -> J s') ->
  (forall o s x, J s -> G1 o (get s) x -> G2 o s (put x s) /\ J (put x s)) ->
  wp R1 G1 (catch p) tr Q (get s) -> J s ->
  wp R2 G2 (catch (lift p)) tr (fun r tr' s' => Q r tr' (get s') /\ J s') s.
Proof using get_put put_get.
  intros HR HJR HJG. revert tr s. induction p as [a|e|B f k IH]; simpl; intros tr s H HJ.
  - intros s' Hs. split; [apply H; by apply HR|eauto].
  - destruct e; simpl in *; [| |done]; intros s' Hs; (split; [apply H; by apply HR|eauto]).
  - intros s' Hs. specialize (H (get s') (HR _ _ Hs)). assert (HJ' : J s') by eauto.
    destruct (f (get s')) as [[b x]|[]]; [| | |done].
    + destruct H as (o & HG & H). destruct (HJG _ _ _ HJ' HG) as [? ?].
      exists o. split; [done|]. apply IH; [|done]. by rewrite get_put.
    + destruct H as (o & HG & H). destruct (HJG _ _ _ HJ' HG) as [HG2 ?].
      rewrite put_get in HG2. exists o. split; [done|]. simpl. intros s2 Hs2.
      split; [apply H; by apply HR|eauto].
    + destruct H as (o & HG & H). destruct (HJG _ _ _ HJ' HG) as [HG2 ?].
      rewrite put_get in HG2. exists o. split; [done|]. simpl. intros s2 Hs2.
      split; [apply H; by apply HR|eauto].
Qed.
End lift.

Declare Scope prog_scope.
Delimit Scope prog_scope with prog.
Bind Scope prog_scope with prog.
Notation "x <- p ; q" := (bind p (fun x => q))
  (at level 100, p at next level, q at level 200, right associativity) : prog_scope.
Notation "p ;; q" := (bind p (fun _ => q))
  (at level 100, q at level 200, right associativity) : prog_scope.

(** [usize] arithmetic with overflow checks, as a build with debug assertions has
    it; a theorem that excludes the panic holds of the wrapping build as well.  The
    periodic counters, byte counts and timestamps of the collector use the wrapping
    [wadd] of a release build: they overflow only after 2^60 steps. *)
Definition checked_add {S} (a b : Z) : prog S Z :=
  if (a + b <? wmod)%Z then Ret (a + b)%Z else Stop (Panic "attempt to add with overflow").
Definition checked_sub {S} (a b : Z) : prog S Z :=
  if (b <=? a)%Z then Ret (a - b)%Z else Stop (Panic "attempt to subtract with overflow").
Definition checked_mul {S} (a b : Z) : prog S Z :=
  if (a * b <? wmod)%Z then Ret (a * b)%Z else Stop (Panic "attempt to multiply with overflow").
