(* ===== verification/Linear.v ===== *)
(** * Linearizability

    Threads call the methods of a shared object, one atomic step at a time, and may begin any
    call in any state.  An object is right when every execution is one of an atomic object: each
    call takes effect between its beginning and its return, in the order of the steps, so a call
    that returns before another begins takes effect before it. *)
From S2P Require Import Prelude Prog.
#[local] Open Scope nat_scope.

Inductive label {C R : Type} :=
  | LCall (i : nat) (c : C)  (** thread [i] begins a call *)
  | LAct (i : nat)  (** its next atomic step *)
  | LRet (i : nat) (r : R).  (** it returns *)
Arguments label : clear implicits.

(** ** Executions *)
Section executions.
Context {S C R : Type} (code : nat -> C -> prog S R).

(** The calls under way, by thread, and the shared state. *)
Inductive hstep : label C R -> gmap nat (C * prog S R) * S -> gmap nat (C * prog S R) * S -> Prop :=
  | HCall i c (P : gmap nat (C * prog S R)) s : P !! i = None -> hstep (LCall i c) (P, s) (<[i := (c, code i c)]> P, s)
  | HAct i c B (f : S -> res (B * S)) k b (P : gmap nat (C * prog S R)) s s' : P !! i = Some (c, Act f k) -> f s = Ok (b, s') ->
      hstep (LAct i) (P, s) (<[i := (c, k b)]> P, s')
  | HRet i c r (P : gmap nat (C * prog S R)) s : P !! i = Some (c, Ret r) -> hstep (LRet i r) (P, s) (delete i P, s).
Inductive hrun : list (label C R) -> gmap nat (C * prog S R) * S -> gmap nat (C * prog S R) * S -> Prop :=
  | hrun_nil x : hrun [] x x
  | hrun_cons l ls x y z : hstep l x y -> hrun ls y z -> hrun (l :: ls) x z.

(** The execution a schedule names; what cannot be done is left out. *)
Inductive move := MCall (i : nat) (c : C) | MGo (i : nat).
Definition hmove (mv : move) (x : gmap nat (C * prog S R) * S) : option (label C R * (gmap nat (C * prog S R) * S)) :=
  match mv with
  | MCall i c => match x.1 !! i with None => Some (LCall i c, (<[i := (c, code i c)]> x.1, x.2)) | Some _ => None end
  | MGo i =>
      match x.1 !! i with
      | Some (c, Act f k) => match f x.2 with Ok (b, s') => Some (LAct i, (<[i := (c, k b)]> x.1, s')) | Stopped _ => None end
      | Some (c, Ret r) => Some (LRet i r, (delete i x.1, x.2))
      | _ => None
      end
  end.
Fixpoint hplay (mvs : list move) (x : gmap nat (C * prog S R) * S) : list (label C R) * (gmap nat (C * prog S R) * S) :=
  match mvs with
  | [] => ([], x)
  | mv :: mvs => match hmove mv x with
                 | Some (l, y) => let r := hplay mvs y in (l :: r.1, r.2)
                 | None => hplay mvs x
                 end
  end.
Lemma hplay_hrun mvs x : hrun (hplay mvs x).1 x (hplay mvs x).2.
Proof.
  revert x. induction mvs as [|mv mvs IH]; intros x; [constructor|]. cbn [hplay].
  destruct (hmove mv x) as [[l y]|] eqn:E; [|apply IH]. cbn. econstructor; [|apply IH].
  destruct x as [P s], mv as [i c|i]; cbn in E.
  - destruct (P !! i) as [?|] eqn:Ei; [done|]. injection E as <- <-. by constructor.
  - destruct (P !! i) as [[c [r|e|B f k]]|] eqn:Ei; try done.
    + injection E as <- <-. by econstructor.
    + destruct (f s) as [[b s']|] eqn:Ef; [|done]. injection E as <- <-. by econstructor.
Qed.
(** What was called and returned, in order. *)
Definition history (ls : list (label C R)) : list (label C R) :=
  omap (fun l => match l with LAct _ => None | _ => Some l end) ls.
End executions.

(** ** The atomic object *)
Section object.
Context {C R Ev T : Type} (spec : Ev -> T -> T -> Prop).
(** What a call may return that has had these effects, and in whose course the object was in
    these states. *)
Context (outcome : C -> R -> list Ev -> list T -> Prop).
#[local] Abbreviation pending := (gmap nat (C * list Ev * list T)).

Definition effect (o : option Ev) (x x' : T) : Prop := match o with Some e => spec e x x' | None => x' = x end.
(** Every call under way sees the state. *)
Definition visit (x : T) (X : pending) : pending := (fun q => (q.1.1, q.1.2, q.2 ++ [x])) <$> X.
Inductive ostep : label C R -> pending * T -> pending * T -> Prop :=
  | OCall i c (X : pending) x : X !! i = None -> ostep (LCall i c) (X, x) (<[i := (c, [], [x])]> X, x)
  | OAct i c tr xs o (X : pending) x x' : X !! i = Some (c, tr, xs) -> effect o x x' ->
      ostep (LAct i) (X, x) (visit x' (<[i := (c, tr ++ option_list o, xs)]> X), x')
  | ORet i c r tr xs (X : pending) x : X !! i = Some (c, tr, xs) -> outcome c r tr xs -> ostep (LRet i r) (X, x) (delete i X, x).
Inductive orun : list (label C R) -> pending * T -> pending * T -> Prop :=
  | orun_nil x : orun [] x x
  | orun_cons l ls x y z : ostep l x y -> orun ls y z -> orun (l :: ls) x z.
End object.

(** ** From the methods to the object

    [wp] of every method on its own, a relation [A] between states and the object's, and what
    the course of a call and its postcondition say about its result. *)
Section sound.
Context {S C R Ev T : Type} (code : nat -> C -> prog S R) (spec : Ev -> T -> T -> Prop) (outcome : C -> R -> list Ev -> list T -> Prop).
Context (Rl : nat -> S -> S -> Prop) (G : nat -> option Ev -> S -> S -> Prop) (A : S -> T -> Prop).
Context (Q : nat -> C -> S -> R -> list Ev -> S -> Prop).
#[local] Abbreviation effect := (effect spec).

(** The steps of all threads in the course of a call, with their effects and the states. *)
Inductive course : S -> T -> list (nat * Ev) -> list T -> S -> T -> Prop :=
  | course_nil s x : A s x -> course s x [] [x] s x
  | course_step j o s0 x0 t xs s x s' x' : course s0 x0 t xs s x -> G j o s s' -> effect o x x' -> A s' x' ->
      course s0 x0 (t ++ option_list ((j,.) <$> o)) (xs ++ [x']) s' x'.
Lemma course_now s0 x0 t xs s x : course s0 x0 t xs s x -> A s x /\ x ∈ xs.
Proof. intros [|]; (split; [done|]); [by left|]. apply elem_of_app. right. by left. Qed.

Lemma course_start s0 x0 t xs s x : course s0 x0 t xs s x -> A s0 x0 /\ x0 ∈ xs.
Proof. induction 1 as [|j o s0 x0 t xs s x s' x' Hc [IH Hin]]; (split; [done|]); [by left|]. apply elem_of_app. by left. Qed.

Context (HR : forall i, PreOrder (Rl i)) (HGR : forall i j o s s', i <> j -> G j o s s' -> Rl i s s').
Context (Hsim : forall i o s s' x, G i o s s' -> A s x -> exists x', effect o x x' /\ A s' x').
Context (Hwp : forall i c s x, A s x -> wp (Rl i) (G i) (code i c) [] (Q i c s) s).
Context (Hout : forall i c s0 x0 r t xs s x, course s0 x0 t xs s x -> Q i c s0 r (proj i t) s -> outcome c r (proj i t) xs).

Definition matches s x i (p : option (C * prog S R)) (q : option (C * list Ev * list T)) : Prop :=
  match p, q with
  | None, None => True
  | Some (c, p), Some (c', tr, xs) => c' = c /\ exists s0 x0 t, course s0 x0 t xs s x /\ tr = proj i t /\
      wp (Rl i) (G i) p tr (Q i c s0) s
  | _, _ => False
  end.
Definition simulates (P : gmap nat (C * prog S R)) s (X : gmap nat (C * list Ev * list T)) x : Prop :=
  A s x /\ forall i, matches s x i (P !! i) (X !! i).
Lemma matches_other s x s' x' i j o p q : i <> j -> G j o s s' -> effect o x x' -> A s' x' ->
  matches s x i p q -> matches s' x' i p ((fun q => (q.1.1, q.1.2, q.2 ++ [x'])) <$> q).
Proof using HGR HR.
  intros Hij HG He HA. destruct p as [[c p]|], q as [[[c' tr] xs]|]; cbn; try done.
  intros (-> & s0 & x0 & t & Hc & -> & Hw). split; [done|]. exists s0, x0, (t ++ option_list ((j,.) <$> o)).
  split; [by eapply course_step|]. split; [by rewrite proj_app, proj_other, app_nil_r|]. eapply wp_env; [apply HR| |exact Hw]. by eapply HGR.
Qed.
Lemma step_simulated l P s P' s' X x : hstep code l (P, s) (P', s') -> simulates P s X x ->
  exists X' x', ostep spec outcome l (X, x) (X', x') /\ simulates P' s' X' x'.
Proof using All.
  intros Hst [HA HM]. inversion Hst; subst.
  - pose proof (HM i) as Hi. match goal with H : P !! i = None |- _ => rewrite H in Hi end. destruct (X !! i) eqn:EX; [done|].
    exists (<[i := (c, [], [x])]> X), x. split; [by constructor|]. split; [done|]. intros j. destruct (decide (i = j)) as [->|Hij].
    + rewrite !lookup_insert_eq. split; [done|]. exists s', x, []. split; [by constructor|]. split; [done|by eapply Hwp].
    + rewrite !lookup_insert_ne by done. apply HM.
  - pose proof (HM i) as Hi. match goal with H : P !! i = _ |- _ => rewrite H in Hi end. destruct (X !! i) as [[[c' tr] xs]|] eqn:EX; [|done].
    destruct Hi as (-> & s0 & x0 & t & Hc & -> & Hw). pose proof (Hw s ltac:(apply HR)) as Hw'.
    match goal with H : f s = _ |- _ => rewrite H in Hw' end. destruct Hw' as (o & HG & Hk). destruct (Hsim _ _ _ _ x HG HA) as (x' & He & HA').
    exists (visit x' (<[i := (c, proj i t ++ option_list o, xs)]> X)), x'. split; [by econstructor|]. split; [done|].
    intros j. unfold visit. rewrite lookup_fmap. destruct (decide (i = j)) as [->|Hij].
    + rewrite !lookup_insert_eq. cbn. split; [done|]. exists s0, x0, (t ++ option_list ((j,.) <$> o)). split; [by eapply course_step|].
      by rewrite proj_app, proj_self.
    + rewrite !lookup_insert_ne by done. eapply matches_other; [|done..|apply HM]. by intros ->.
  - pose proof (HM i) as Hi. match goal with H : P !! i = _ |- _ => rewrite H in Hi end. destruct (X !! i) as [[[c' tr] xs]|] eqn:EX; [|done].
    destruct Hi as (-> & s0 & x0 & t & Hc & -> & Hw). exists (delete i X), x. split.
    + econstructor; [exact EX|]. eapply Hout; [exact Hc|]. apply Hw. apply HR.
    + split; [done|]. intros j. destruct (decide (i = j)) as [->|Hij]; [by rewrite !lookup_delete_eq|]. rewrite !lookup_delete_ne by done. apply HM.
Qed.
Lemma run_simulated ls P s P' s' X x : hrun code ls (P, s) (P', s') -> simulates P s X x ->
  exists X' x', orun spec outcome ls (X, x) (X', x') /\ simulates P' s' X' x'.
Proof using All.
  intros Hr. remember (P, s) as y eqn:Ey. remember (P', s') as z eqn:Ez. revert P s X x Ey.
  induction Hr as [y|l ls y [P1 s1] z Hst Hr IH]; intros P s X x Ey HS.
  - rewrite Ey in Ez. injection Ez as -> ->. exists X, x. split; [constructor|done].
  - subst. destruct (step_simulated _ _ _ _ _ _ _ Hst HS) as (X1 & x1 & Ho & HS1).
    destruct (IH eq_refl _ _ _ _ eq_refl HS1) as (X' & x' & Hor & HS'). exists X', x'. split; [by econstructor|done].
Qed.
(** Every execution from a state of the object is one of the atomic object, and no thread is
    at a fault. *)
Lemma linear_sound ls s x P' s' : A s x -> hrun code ls (∅, s) (P', s') ->
  exists X' x', orun spec outcome ls (∅, x) (X', x') /\ A s' x' /\ forall i c p, P' !! i = Some (c, p) -> faultless p s'.
Proof using All.
  intros HA Hr. destruct (run_simulated ls ∅ s P' s' ∅ x Hr) as (X' & x' & Ho & HA' & HM); [split; [done|]; intros i; by rewrite !lookup_empty|].
  exists X', x'. split; [done|]. split; [done|]. intros i c p Hi. specialize (HM i). rewrite Hi in HM.
  destruct (X' !! i) as [[[c' tr] xs]|]; [|done]. destruct HM as (_ & s0 & x0 & t & _ & _ & Hw). pose proof (HR i). exact (wp_faultless (Rl i) _ _ _ _ _ Hw).
Qed.
(** An effect on one's own course happened in one of its states. *)
Lemma course_event i e s0 x0 t xs s x : course s0 x0 t xs s x -> e ∈ proj i t -> exists y y', y ∈ xs /\ spec e y y' /\ y' ∈ xs.
Proof using Type.
  induction 1 as [s x HA|j o s0 x0 t xs s x s' x' Hc IH HG He HA]; [by intros ?%not_elem_of_nil|].
  rewrite proj_app, elem_of_app. intros [Hin|Hin].
  - destruct (IH Hin) as (y & y' & Hy & Hs & Hy'). exists y, y'. rewrite !elem_of_app. auto.
  - destruct o as [e'|]; [|by apply not_elem_of_nil in Hin]. destruct (decide (i = j)) as [->|Hij].
    + rewrite proj_self in Hin. apply list_elem_of_singleton in Hin as ->. exists x, x'. rewrite !elem_of_app.
      split; [left; by eapply course_now|]. split; [done|right; by left].
    + rewrite proj_other in Hin by done. by apply not_elem_of_nil in Hin.
Qed.
End sound.
