(* ===== verification/Epoch.v ===== *)
(** * Epochs ([src/epoch.rs])

    The packed epoch word: pin flag (bit 0), phase number (bits 1-2), white colour
    (bit 3) and timestamp (bits 4-63), its accessors as the code writes them, the
    atomic cell, and the abstract record it refines. *)
From S2P Require Import Prelude Prog.
#[local] Open Scope Z_scope.
#[local] Open Scope word_scope.
#[local] Open Scope prog_scope.

(** ** Phases and colours *)
Inductive Phase := N | RT | CT.
Inductive Color := C0 | C1.

#[export] Instance Phase_eq_dec : EqDecision Phase.
Proof. solve_decision. Defined.
#[export] Instance Color_eq_dec : EqDecision Color.
Proof. solve_decision. Defined.

Definition phase_num (p : Phase) : Z := match p with N => 0 | RT => 1 | CT => 2 end.
Definition color_num (c : Color) : Z := match c with C0 => 0 | C1 => 1 end.

(** [impl From<usize> for Phase]: any other number panics. *)
Definition phase_from (value : Z) : res Phase :=
  if value =? 0 then Ok N
  else if value =? 1 then Ok RT
  else if value =? 2 then Ok CT
  else Stopped (Panic "Invalid phase number").

Definition color_from (value : Z) : Color := if value =? 0 then C0 else C1.

Definition flip (c : Color) : Color := match c with C0 => C1 | C1 => C0 end.

(** ** The packed word *)
Definition PINNED_POS : Z := 0.
Definition PHASE_NUMBER_POS : Z := PINNED_POS + 1.
Definition COLOR_POS : Z := PHASE_NUMBER_POS + 2.
Definition TIMESTAMP_POS : Z := COLOR_POS + 1.

Definition PINNED_BIT : Z := 1 .<< PINNED_POS.
Definition PHASE_NUMBER_BITS : Z := 3 .<< PHASE_NUMBER_POS.
Definition COLOR_BIT : Z := 1 .<< COLOR_POS.
Definition TIMESTAMP_BITS : Z := wmax .<< TIMESTAMP_POS.

(** [struct Epoch { data: usize }] *)
Record Epoch := mkEpoch { data : Z }.

#[export] Instance Epoch_eq_dec : EqDecision Epoch.
Proof. solve_decision. Defined.

Definition starting : Epoch := mkEpoch 0.
Definition is_pinned (e : Epoch) : bool := 0 <? data e .& PINNED_BIT.
Definition pinned (e : Epoch) : Epoch := mkEpoch (data e .| PINNED_BIT).
Definition unpinned (e : Epoch) : Epoch := mkEpoch (data e .& wnot PINNED_BIT).
Definition phase (e : Epoch) : res Phase :=
  phase_from ((data e .& PHASE_NUMBER_BITS) .>> PHASE_NUMBER_POS).
Definition with_phase (e : Epoch) (p : Phase) : Epoch :=
  mkEpoch (data e .& wnot PHASE_NUMBER_BITS .| phase_num p .<< PHASE_NUMBER_POS).
Definition color (e : Epoch) : Color := color_from ((data e .& COLOR_BIT) .>> COLOR_POS).
Definition with_color (e : Epoch) (c : Color) : Epoch :=
  mkEpoch (data e .& wnot COLOR_BIT .| color_num c .<< COLOR_POS).
Definition timestamp (e : Epoch) : Z := (data e .& TIMESTAMP_BITS) .>> TIMESTAMP_POS.
Definition with_timestamp (e : Epoch) (value : Z) : Epoch :=
  mkEpoch (data e .& wnot TIMESTAMP_BITS .| value .<< TIMESTAMP_POS).

(** ** The atomic cell: [AtomicEpoch] *)
Record AtomicEpoch := mkAtomicEpoch { adata : Z }.

Definition new (epoch : Epoch) : AtomicEpoch := mkAtomicEpoch (data epoch).
Definition load (a : AtomicEpoch) : Epoch := mkEpoch (adata a).
Definition store (a : AtomicEpoch) (epoch : Epoch) : AtomicEpoch := mkAtomicEpoch (data epoch).
(** The result is [inl] ([Ok]) of the previous value on success and [inr] ([Err]) of
    the current one on failure. *)
Definition compare_exchange (a : AtomicEpoch) (current new : Epoch)
    : (Epoch + Epoch) * AtomicEpoch :=
  if adata a =? data current then (inl (mkEpoch (adata a)), mkAtomicEpoch (data new))
  else (inr (mkEpoch (adata a)), a).
Definition load_non_atomic (a : AtomicEpoch) : Epoch := mkEpoch (adata a).

(** ** The fields as bit ranges *)
Lemma timestamp_fget e : timestamp e = fget 4 60 (data e).
Proof. reflexivity. Qed.
Lemma with_timestamp_fset e v : data (with_timestamp e v) = fset 4 60 (data e) v.
Proof. reflexivity. Qed.
Lemma phase_fget e : phase e = phase_from (fget 1 2 (data e)).
Proof. reflexivity. Qed.
Lemma with_phase_fset e p : data (with_phase e p) = fset 1 2 (data e) (phase_num p).
Proof. reflexivity. Qed.
Lemma color_fget e : color e = color_from (fget 3 1 (data e)).
Proof. reflexivity. Qed.
Lemma with_color_fset e c : data (with_color e c) = fset 3 1 (data e) (color_num c).
Proof. reflexivity. Qed.

Lemma pinned_fset e : is_word (data e) -> data (pinned e) = fset 0 1 (data e) 1.
Proof.
  intros Hw. simpl. replace PINNED_BIT with (mask 0 1) by reflexivity. unfold fset.
  replace (wshl 1 0) with (mask 0 1) by reflexivity. zbit.
  rewrite (testbit_word (data e)) by done. btauto.
Qed.
Lemma unpinned_fset e : data (unpinned e) = fset 0 1 (data e) 0.
Proof. unfold fset. simpl. by rewrite Z.lor_0_r. Qed.
Lemma is_pinned_fget e : is_pinned e = (0 <? fget 0 1 (data e)).
Proof. unfold is_pinned, fget, wshr. by rewrite Z.shiftr_0_r. Qed.

(** ** Abstract specification: a record of four independent fields *)
Record aepoch := mkA { a_pinned : bool; a_phase : Phase; a_color : Color; a_ts : Z }.

Definition ts_ok (a : aepoch) : Prop := 0 <= a_ts a < 2 ^ 60.
Definition fields (a : aepoch) : list (Z * Z) :=
  [(1, Z.b2z (a_pinned a)); (2, phase_num (a_phase a)); (1, color_num (a_color a));
   (60, a_ts a)].
Definition encode (a : aepoch) : Epoch := mkEpoch (pack (fields a)).

Lemma epoch_fields_fit a : ts_ok a -> fits (fields a).
Proof.
  unfold ts_ok. destruct a as [[] [] [] t]; intros Ht; repeat constructor; simpl in *; lia.
Qed.

Lemma epoch_word a : ts_ok a -> is_word (data (encode a)).
Proof. intros. apply pack_word; [by apply epoch_fields_fit|]. simpl. lia. Qed.

Lemma phase_from_num p : phase_from (phase_num p) = Ok p.
Proof. by destruct p. Qed.
Lemma color_from_num c : color_from (color_num c) = c.
Proof. by destruct c. Qed.
Lemma phase_num_range p : 0 <= phase_num p < 2 ^ 2.
Proof. destruct p; simpl; lia. Qed.
Lemma color_num_range c : 0 <= color_num c < 2 ^ 1.
Proof. destruct c; simpl; lia. Qed.
Lemma flip_flip c : flip (flip c) = c.
Proof. by destruct c. Qed.
Lemma flip_ne c : flip c <> c.
Proof. by destruct c. Qed.
Create Rewrite HintDb epoch.
#[export] Hint Rewrite phase_from_num color_from_num flip_flip : epoch.

Lemma b2z_range b : 0 <= Z.b2z b < 2 ^ 1.
Proof. destruct b; simpl; lia. Qed.

Section encoded.
Context (a : aepoch) (Ht : ts_ok a).
Let f0 := (1, Z.b2z (a_pinned a)).
Let f1 := (2, phase_num (a_phase a)).
Let f2 := (1, color_num (a_color a)).
Let f3 := (60, a_ts a).

Lemma epoch_encode_fields :
  fget 0 1 (data (encode a)) = Z.b2z (a_pinned a) /\
  fget 1 2 (data (encode a)) = phase_num (a_phase a) /\
  fget 3 1 (data (encode a)) = color_num (a_color a) /\
  fget 4 60 (data (encode a)) = a_ts a.
Proof.
  pose proof (epoch_fields_fit a Ht) as Hf.
  repeat split; [apply (fget_pack [])|apply (fget_pack [f0])|apply (fget_pack [f0; f1])
                |apply (fget_pack [f0; f1; f2])]; exact Hf.
Qed.
Lemma fset_encode_pinned b :
  fset 0 1 (data (encode a)) (Z.b2z b) = data (encode (mkA b (a_phase a) (a_color a) (a_ts a))).
Proof. apply (fset_pack [] _ _ _ [f1; f2; f3]); [by apply epoch_fields_fit|done|apply b2z_range]. Qed.
Lemma fset_encode_phase p :
  fset 1 2 (data (encode a)) (phase_num p) = data (encode (mkA (a_pinned a) p (a_color a) (a_ts a))).
Proof. apply (fset_pack [f0] _ _ _ [f2; f3]); [by apply epoch_fields_fit|done|apply phase_num_range]. Qed.
Lemma fset_encode_color c :
  fset 3 1 (data (encode a)) (color_num c) = data (encode (mkA (a_pinned a) (a_phase a) c (a_ts a))).
Proof. apply (fset_pack [f0; f1] _ _ _ [f3]); [by apply epoch_fields_fit|done|apply color_num_range]. Qed.
Lemma fset_encode_ts v : 0 <= v < 2 ^ 60 ->
  fset 4 60 (data (encode a)) v = data (encode (mkA (a_pinned a) (a_phase a) (a_color a) v)).
Proof. intros. apply (fset_pack [f0; f1; f2] _ _ _ []); [by apply epoch_fields_fit|done|done]. Qed.
End encoded.

Lemma Epoch_data_inj (e1 e2 : Epoch) : data e1 = data e2 -> e1 = e2.
Proof. destruct e1, e2; simpl; congruence. Qed.

Lemma encode_accessors a : ts_ok a ->
  is_pinned (encode a) = a_pinned a /\ phase (encode a) = Ok (a_phase a) /\
  color (encode a) = a_color a /\ timestamp (encode a) = a_ts a /\
  pinned (encode a) = encode (mkA true (a_phase a) (a_color a) (a_ts a)) /\
  unpinned (encode a) = encode (mkA false (a_phase a) (a_color a) (a_ts a)) /\
  (forall p, with_phase (encode a) p = encode (mkA (a_pinned a) p (a_color a) (a_ts a))) /\
  (forall c, with_color (encode a) c = encode (mkA (a_pinned a) (a_phase a) c (a_ts a))) /\
  (forall v, with_timestamp (encode a) v =
     encode (mkA (a_pinned a) (a_phase a) (a_color a) (v mod 2 ^ 60))).
Proof.
  intros Ht. destruct (epoch_encode_fields a Ht) as (E0 & E1 & E3 & E4).
  repeat split; intros; try apply Epoch_data_inj.
  - rewrite is_pinned_fget, E0. by destruct (a_pinned a).
  - by rewrite phase_fget, E1, phase_from_num.
  - by rewrite color_fget, E3, color_from_num.
  - by rewrite timestamp_fget, E4.
  - rewrite pinned_fset by by apply epoch_word. by apply (fset_encode_pinned a Ht true).
  - rewrite unpinned_fset. by apply (fset_encode_pinned a Ht false).
  - rewrite with_phase_fset. by apply fset_encode_phase.
  - rewrite with_color_fset. by apply fset_encode_color.
  - rewrite with_timestamp_fset, fset_mod by lia. apply fset_encode_ts; [done|].
    apply Z.mod_pos_bound. lia.
Qed.
(** C31. every accessor and update of the packed word is the accessor or update of
    the corresponding field of the record, the other fields being kept; a timestamp
    that does not fit is taken modulo [2^60]. *)
Theorem epoch_refines a : ts_ok a ->
  is_pinned (encode a) = a_pinned a /\ phase (encode a) = Ok (a_phase a) /\
  color (encode a) = a_color a /\ timestamp (encode a) = a_ts a /\
  pinned (encode a) = encode (mkA true (a_phase a) (a_color a) (a_ts a)) /\
  unpinned (encode a) = encode (mkA false (a_phase a) (a_color a) (a_ts a)) /\
  (forall p, with_phase (encode a) p = encode (mkA (a_pinned a) p (a_color a) (a_ts a))) /\
  (forall c, with_color (encode a) c = encode (mkA (a_pinned a) (a_phase a) c (a_ts a))) /\
  (forall v, with_timestamp (encode a) v =
     encode (mkA (a_pinned a) (a_phase a) (a_color a) (v mod 2 ^ 60))).
Proof. apply encode_accessors. Qed.

(** ** Decoding *)
Definition decode (e : Epoch) : option aepoch :=
  match phase e with
  | Ok p => Some (mkA (is_pinned e) p (color e) (timestamp e))
  | Stopped _ => None
  end.

Lemma decode_encode a : ts_ok a -> decode (encode a) = Some a.
Proof.
  intros Ht. destruct (encode_accessors a Ht) as (E1 & E2 & E3 & E4 & _).
  unfold decode. rewrite E1, E2, E3, E4. by destruct a.
Qed.

(** The words that decode are exactly the encodings: the other words have the
    phase number [0b11], on which [phase] panics. *)
Theorem decode_complete e : is_word (data e) ->
  match decode e with
  | Some a => ts_ok a /\ encode a = e
  | None => phase e = Stopped (Panic "Invalid phase number") /\ fget 1 2 (data e) = 3
  end.
Proof.
  intros [Hw0 Hw]. destruct e as [w]. simpl in *.
  destruct (pack_fget [(1, 0); (2, 0); (1, 0); (60, 0)] w)
    as (vs & -> & Hfit & Hm); [by repeat constructor|by simpl|].
  destruct vs as [|[? p] [|[? q] [|[? c] [|[? t] []]]]]; try done.
  simpl in Hm. injection Hm as -> -> -> ->.
  assert (Eq : fget 1 2 (pack [(1, p); (2, q); (1, c); (60, t)]) = q)
    by exact (fget_pack [(1, p)] 2 q _ Hfit).
  unfold fits in Hfit. rewrite !Forall_cons in Hfit.
  destruct Hfit as ([_ Hp] & [_ Hq] & [_ Hc] & [_ Htt] & _).
  cbn [fst snd] in *.
  assert (q = 3 \/ exists a, ts_ok a /\ encode a = mkEpoch (pack [(1, p); (2, q); (1, c); (60, t)]))
    as [->|(a & Ha & E)].
  { assert (q = 0 \/ q = 1 \/ q = 2 \/ q = 3) as Hcase by lia.
    destruct Hcase as [-> | [-> | [-> | ->]]]; [| | |by left]; right;
      [exists (mkA (p =? 1) N (if c =? 0 then C0 else C1) t)
      |exists (mkA (p =? 1) RT (if c =? 0 then C0 else C1) t)
      |exists (mkA (p =? 1) CT (if c =? 0 then C0 else C1) t)];
      (split; [done|]); unfold encode, fields; simpl;
      (assert (p = 0 \/ p = 1) as [->| ->] by lia);
      (assert (c = 0 \/ c = 1) as [->| ->] by lia); done. }
  - unfold decode. rewrite phase_fget. cbn [data]. rewrite Eq. done.
  - rewrite <- E, decode_encode by done. done.
Qed.

(** ** Concrete instances *)
Definition sample_epoch : aepoch := mkA true CT C1 (2 ^ 60 - 1).
Lemma epoch_refines_witness :
  ts_ok sample_epoch /\ data (encode sample_epoch) = wmax - 2 /\
  with_timestamp (encode sample_epoch) (2 ^ 60) = encode (mkA true CT C1 0).
Proof.
  assert (H : ts_ok sample_epoch) by (split; vm_compute; congruence).
  split; [exact H|]. split; [reflexivity|].
  destruct (epoch_refines sample_epoch H) as (_ & _ & _ & _ & _ & _ & _ & _ & E). exact (E (2 ^ 60)).
Defined.
Lemma decode_complete_witness :
  (exists a, decode (mkEpoch 13) = Some a /\ encode a = mkEpoch 13) /\
  phase (mkEpoch 6) = Stopped (Panic "Invalid phase number").
Proof.
  split.
  - pose proof (decode_complete (mkEpoch 13) ltac:(split; vm_compute; congruence)) as H.
    change (decode (mkEpoch 13)) with (Some (mkA true CT C1 0)) in H. destruct H as [_ H].
    eexists. split; [reflexivity|exact H].
  - pose proof (decode_complete (mkEpoch 6) ltac:(split; vm_compute; congruence)) as H.
    change (decode (mkEpoch 6)) with (@None aepoch) in H. exact (proj1 H).
Defined.
