(* ===== verification/Meta.v ===== *)
(** * Packed metadata ([src/pointers.rs])

    The object header [ObjMeta] (root count in bits 0-54, type id in bits 55-62,
    colour in bit 63) and the managed pointer [ManPtr] (tag in the alignment bits,
    address, and [PtrMeta] in the top two bits). *)
From S2P Require Import Prelude Prog Epoch.
#[local] Open Scope Z_scope.
#[local] Open Scope word_scope.

(** ** Object headers *)
Definition TYPE_ID_BITS : Z := 8.
Definition MAX_TYPE_ID : Z := 1 .<< TYPE_ID_BITS.

Module ObjMeta.
Definition COLOR_SHIFT : Z := 63.
Definition TYPE_ID_SHIFT : Z := COLOR_SHIFT - TYPE_ID_BITS.
Definition TYPE_ID_MASK : Z := wsub (1 .<< TYPE_ID_BITS) 1 .<< TYPE_ID_SHIFT.
Definition ROOT_COUNT_BITS : Z := TYPE_ID_SHIFT.
Definition ROOT_COUNT_MASK : Z := wsub (1 .<< ROOT_COUNT_BITS) 1.

(** The [debug_assert!] of the two constructors is the [Panic]. *)
Definition new (marked : Color) (root_count : Z) : res Z :=
  if root_count <=? ROOT_COUNT_MASK then
    Ok (color_num marked .<< COLOR_SHIFT .| (root_count .& ROOT_COUNT_MASK))
  else Stopped (Panic "root_count <= ROOT_COUNT_MASK").

Definition new_with_type_id (marked : Color) (root_count type_id : Z) : res Z :=
  if root_count <=? ROOT_COUNT_MASK then
    Ok (color_num marked .<< COLOR_SHIFT .| type_id .<< TYPE_ID_SHIFT
        .| (root_count .& ROOT_COUNT_MASK))
  else Stopped (Panic "root_count <= ROOT_COUNT_MASK").

(** [as u8] keeps the low eight bits. *)
Definition type_id (m : Z) : Z := ((m .& TYPE_ID_MASK) .>> TYPE_ID_SHIFT) .& 255.
Definition marked (m : Z) : Color := color_from (m .>> COLOR_SHIFT).
Definition with_marked (m : Z) (color : Color) : Z :=
  m .& wnot (1 .<< COLOR_SHIFT) .| color_num color .<< COLOR_SHIFT.
Definition root_count (m : Z) : Z := m .& ROOT_COUNT_MASK.

(** [AtomicObjMeta]: the read-modify-write operations return the previous root
    count and the new word.  [fetch_add] and [fetch_sub] wrap on the whole word. *)
Definition increment_root_count (m : Z) : res (Z * Z) :=
  let prev := root_count m in
  if prev <? ROOT_COUNT_MASK then Ok (prev, wadd m 1)
  else Stopped (Panic "prev < ROOT_COUNT_MASK").
Definition decrement_root_count (m : Z) : res (Z * Z) :=
  let prev := root_count m in
  if 0 <? prev then Ok (prev, wsub m 1)
  else Stopped (Panic "prev > 0").

(** *** Specification: a header is a colour, a type id and a root count. *)
Record hdr := mkHdr { h_color : Color; h_tid : Z; h_rc : Z }.
Definition hdr_ok (h : hdr) : Prop := 0 <= h_tid h < 2 ^ 8 /\ 0 <= h_rc h < 2 ^ 55.
Definition fields (h : hdr) : list (Z * Z) :=
  [(55, h_rc h); (8, h_tid h); (1, color_num (h_color h))].
Definition encode (h : hdr) : Z := pack (fields h).

Lemma hdr_fields_fit h : hdr_ok h -> fits (fields h).
Proof.
  intros [Ht Hr]. pose proof (color_num_range (h_color h)).
  repeat constructor; simpl in *; lia.
Qed.
Lemma hdr_word h : hdr_ok h -> is_word (encode h).
Proof. intros. apply pack_word; [by apply hdr_fields_fit|done]. Qed.

Lemma marked_shift m : is_word m -> marked m = color_from (fget 63 1 m).
Proof.
  intros Hm. unfold marked. f_equal. unfold COLOR_SHIFT.
  apply Z.bits_inj'. intros i Hi. rewrite wshr_spec, fget_spec by lia.
  destruct (Z.ltb_spec i 1); [btauto|]. by rewrite testbit_word by (done || lia).
Qed.
Lemma with_marked_fset m c : with_marked m c = fset 63 1 m (color_num c).
Proof. reflexivity. Qed.
Lemma root_count_fget m : root_count m = fget 0 55 m.
Proof. unfold root_count, fget, wshr. by rewrite Z.shiftr_0_r. Qed.
Lemma type_id_fget m : type_id m = fget 55 8 m.
Proof.
  unfold type_id. change ((m .& TYPE_ID_MASK) .>> TYPE_ID_SHIFT) with (fget 55 8 m).
  change 255 with (Z.ones 8). rewrite Z.land_ones by lia.
  apply Z.mod_small, fget_range; lia.
Qed.

Lemma hdr_encode_fields h : hdr_ok h ->
  fget 0 55 (encode h) = h_rc h /\ fget 55 8 (encode h) = h_tid h /\
  fget 63 1 (encode h) = color_num (h_color h).
Proof.
  intros Hh. pose proof (hdr_fields_fit h Hh) as Hf.
  repeat split; [apply (fget_pack [])|apply (fget_pack [(55, h_rc h)])
                |apply (fget_pack [(55, h_rc h); (8, h_tid h)])]; exact Hf.
Qed.

Lemma encode_root_count h : hdr_ok h -> root_count (encode h) = h_rc h.
Proof. intros Hh. by destruct (hdr_encode_fields h Hh) as (E & _). Qed.
Lemma encode_type_id h : hdr_ok h -> type_id (encode h) = h_tid h.
Proof. intros Hh. rewrite type_id_fget. by destruct (hdr_encode_fields h Hh) as (_ & E & _). Qed.
Lemma encode_marked h : hdr_ok h -> marked (encode h) = h_color h.
Proof.
  intros Hh. rewrite marked_shift by by apply hdr_word.
  destruct (hdr_encode_fields h Hh) as (_ & _ & ->). apply color_from_num.
Qed.
Lemma encode_with_marked h c : hdr_ok h ->
  with_marked (encode h) c = encode (mkHdr c (h_tid h) (h_rc h)).
Proof.
  intros Hh. apply (fset_pack [(55, h_rc h); (8, h_tid h)] 1 _ _ []);
    [by apply hdr_fields_fit|done|apply color_num_range].
Qed.
Lemma encode_arith h : encode h = h_rc h + 2 ^ 55 * (h_tid h + 2 ^ 8 * color_num (h_color h)).
Proof. unfold encode, fields, pack. lia. Qed.
#[export] Hint Resolve hdr_word : core.

Lemma new_with_type_id_encode c rc tid : 0 <= tid < 2 ^ 8 -> 0 <= rc < 2 ^ 55 ->
  new_with_type_id c rc tid = Ok (encode (mkHdr c tid rc)).
Proof.
  intros Ht Hr. unfold new_with_type_id.
  replace ROOT_COUNT_MASK with (Z.ones 55) by reflexivity.
  rewrite (proj2 (Z.leb_le rc (Z.ones 55))) by (rewrite Z.ones_equiv; lia).
  rewrite land_mask_small by lia. f_equal.
  pose proof (color_num_range c) as Hc.
  assert (hdr_ok (mkHdr c tid rc)) as Hok by done.
  apply Z.bits_inj'. intros i Hi.
  autorewrite with zbits. unfold encode, fields. cbn [pack h_color h_tid h_rc].
  rewrite !testbit_add_high by lia. unfold COLOR_SHIFT, TYPE_ID_SHIFT, COLOR_SHIFT, TYPE_ID_BITS.
  replace (63 - 8) with 55 by lia.
  destruct (Z.ltb_spec i 55).
  { rewrite (Z.testbit_neg_r (color_num c)), (Z.testbit_neg_r tid) by lia. btauto. }
  rewrite (testbit_small rc 55), testbit_add_high by lia.
  destruct (Z.ltb_spec (i - 55) 8).
  { rewrite (Z.testbit_neg_r (color_num c)) by lia. replace (i <? 64) with true by lia. btauto. }
  rewrite (testbit_small tid 8), testbit_add_high by lia.
  replace (i - 55 - 8) with (i - 63) by lia.
  destruct (Z.ltb_spec (i - 63) 1).
  - replace (i <? 64) with true by lia. btauto.
  - rewrite (testbit_small (color_num c) 1), Z.testbit_0_l by lia. btauto.
Qed.

Lemma increment_encode h : hdr_ok h -> h_rc h + 1 < 2 ^ 55 ->
  increment_root_count (encode h) = Ok (h_rc h, encode (mkHdr (h_color h) (h_tid h) (h_rc h + 1))).
Proof.
  intros Hh Hr. unfold increment_root_count. rewrite encode_root_count by done.
  replace ROOT_COUNT_MASK with (2 ^ 55 - 1) by reflexivity.
  replace (h_rc h <? 2 ^ 55 - 1) with true by lia. do 2 f_equal.
  assert (hdr_ok (mkHdr (h_color h) (h_tid h) (h_rc h + 1))) as Hh'.
  { destruct Hh. split; simpl; lia. }
  pose proof (hdr_word _ Hh') as Hw. unfold wadd. rewrite !encode_arith in *.
  unfold is_word in Hw. cbn [h_rc h_tid h_color] in *. unfold wmod in *.
  rewrite Z.mod_small; lia.
Qed.

Lemma decrement_encode h : hdr_ok h -> 0 < h_rc h ->
  decrement_root_count (encode h) = Ok (h_rc h, encode (mkHdr (h_color h) (h_tid h) (h_rc h - 1))).
Proof.
  intros Hh Hr. unfold decrement_root_count. rewrite encode_root_count by done.
  replace (0 <? h_rc h) with true by lia. do 2 f_equal.
  assert (hdr_ok (mkHdr (h_color h) (h_tid h) (h_rc h - 1))) as Hh'.
  { destruct Hh. split; simpl; lia. }
  pose proof (hdr_word _ Hh') as Hw. unfold wsub. rewrite !encode_arith in *.
  unfold is_word in Hw. cbn [h_rc h_tid h_color] in *. unfold wmod in *.
  rewrite Z.mod_small; lia.
Qed.

(** C32. The packed header refines the record of its fields: accessors read a field,
    updates change one field, and the two counter updates panic exactly when the
    count would leave its 55 bits. *)
Theorem objmeta_refines h : hdr_ok h ->
  new_with_type_id (h_color h) (h_rc h) (h_tid h) = Ok (encode h) /\
  root_count (encode h) = h_rc h /\ type_id (encode h) = h_tid h /\
  marked (encode h) = h_color h /\
  (forall c, with_marked (encode h) c = encode (mkHdr c (h_tid h) (h_rc h))) /\
  increment_root_count (encode h) =
    (if h_rc h =? 2 ^ 55 - 1 then Stopped (Panic "prev < ROOT_COUNT_MASK")
     else Ok (h_rc h, encode (mkHdr (h_color h) (h_tid h) (h_rc h + 1)))) /\
  decrement_root_count (encode h) =
    (if h_rc h =? 0 then Stopped (Panic "prev > 0")
     else Ok (h_rc h, encode (mkHdr (h_color h) (h_tid h) (h_rc h - 1)))).
Proof.
  intros Hh. pose proof Hh as [Ht Hr]. repeat split.
  - rewrite new_with_type_id_encode by done. by destruct h.
  - by apply encode_root_count.
  - by apply encode_type_id.
  - by apply encode_marked.
  - intros. by apply encode_with_marked.
  - destruct (Z.eqb_spec (h_rc h) (2 ^ 55 - 1)) as [E|].
    + unfold increment_root_count. rewrite encode_root_count, E by done. done.
    + apply increment_encode; [done|lia].
  - destruct (Z.eqb_spec (h_rc h) 0) as [E|].
    + unfold decrement_root_count. rewrite encode_root_count, E by done. done.
    + apply decrement_encode; [done|lia].
Qed.
End ObjMeta.

(** ** Managed pointers *)
Inductive PtrMeta := Rooted | Unrooted (c : Color).
#[export] Instance PtrMeta_eq_dec : EqDecision PtrMeta.
Proof. solve_decision. Defined.

(** [align_of::<ManObj<T>>()] is fixed by the compiler: a power of two, at least the
    word size because the header is an [AtomicUsize], at most Rust's limit [2^29].
    The class carries its logarithm. *)
Class Layout := { align_log : Z; align_log_ok : 3 <= align_log <= 29 }.

Module ManPtr.
Section layout.
Context `{!Layout}.

Definition META_WIDTH : Z := 2.
Definition META_BITS : Z := wsub (1 .<< META_WIDTH) 1 .<< (wbits - META_WIDTH).
Definition LOW_BITS : Z := wsub (1 .<< align_log) 1.
Definition ADDR_BITS : Z := wmax .& wnot META_BITS .& wnot LOW_BITS.

Definition null_base : Z := 0.
Definition null_rooted_with_tag (tag : Z) : Z := tag .& LOW_BITS.
Definition null_rooted : Z := null_rooted_with_tag 0.

Definition meta (p : Z) : PtrMeta :=
  if p .& (1 .<< (wbits - 1)) =? 0 then Rooted
  else Unrooted (color_from (p .& (1 .<< (wbits - 2)))).

Definition meta_num (m : PtrMeta) : Z :=
  match m with Rooted => 0 | Unrooted C0 => 2 | Unrooted C1 => 3 end.

Definition with_meta (p : Z) (m : PtrMeta) : Z :=
  let wo_meta := p .& wnot META_BITS in
  meta_num m .<< (wbits - META_WIDTH) .| wo_meta.
Definition without_meta (p : Z) : Z := p .& wnot META_BITS.
Definition as_ptr (p : Z) : Z := p .& ADDR_BITS.
Definition tag (p : Z) : Z := p .& LOW_BITS.
Definition with_tag (p t : Z) : Z := p .& wnot LOW_BITS .| (t .& LOW_BITS).
Definition is_null (p : Z) : bool := as_ptr p =? 0.
(** Meaningful only on an unrooted pointer. *)
Definition unrooted_color_unchecked (p : Z) : Color := color_from (p .& (1 .<< (wbits - 2))).

(** *** Specification: a pointer is a [PtrMeta], an address (a multiple of the
    alignment below [2^62], stored divided by the alignment) and a tag. *)
Record ptr := mkP { p_meta : PtrMeta; p_addr : Z; p_tag : Z }.
Definition ptr_ok (p : ptr) : Prop :=
  0 <= p_addr p < 2 ^ (62 - align_log) /\ 0 <= p_tag p < 2 ^ align_log.
Definition fields (p : ptr) : list (Z * Z) :=
  [(align_log, p_tag p); (62 - align_log, p_addr p); (2, meta_num (p_meta p))].
Definition encode (p : ptr) : Z := pack (fields p).

Lemma meta_num_range m : 0 <= meta_num m < 2 ^ 2.
Proof. destruct m as [|[]]; simpl; lia. Qed.
Lemma ptr_fields_fit p : ptr_ok p -> fits (fields p).
Proof.
  intros [Ha Ht]. pose proof align_log_ok. pose proof (meta_num_range (p_meta p)).
  repeat constructor; simpl in *; lia.
Qed.
Lemma fields_width p : width (fields p) = 64.
Proof. simpl. lia. Qed.
Lemma ptr_word p : ptr_ok p -> is_word (encode p).
Proof. intros. apply pack_word; [by apply ptr_fields_fit|by rewrite fields_width]. Qed.

Lemma LOW_BITS_mask : LOW_BITS = mask 0 align_log.
Proof.
  pose proof align_log_ok as Ha. unfold LOW_BITS, mask, wshl, wsub, wmax.
  rewrite Z.shiftl_0_r, Z.shiftl_1_l, (Z.ones_equiv align_log).
  assert (2 ^ 0 < 2 ^ align_log < 2 ^ 64) by (split; apply Z.pow_lt_mono_r; lia).
  rewrite Z.land_ones by lia. rewrite (Z.mod_small (2 ^ align_log)) by lia.
  rewrite Z.mod_small by (unfold wmod; lia). lia.
Qed.
Lemma ADDR_BITS_mask : ADDR_BITS = mask align_log (62 - align_log).
Proof.
  pose proof align_log_ok as Ha. unfold ADDR_BITS. rewrite LOW_BITS_mask, wmax_mask.
  replace META_BITS with (mask 62 2) by reflexivity. zbit.
Qed.
Lemma bit_test p n : 0 <= n < 64 -> (p .& (1 .<< n) =? 0) = negb (Z.testbit p n).
Proof.
  intros Hn. destruct (Z.testbit p n) eqn:E; simpl.
  - apply Z.eqb_neq. intros H0. apply (f_equal (fun z => Z.testbit z n)) in H0.
    rewrite Z.land_spec, wshl_spec, E, Z.testbit_0_l, Z.sub_diag in H0 by lia.
    replace (n <? 64) with true in H0 by lia. done.
  - apply Z.eqb_eq. apply Z.bits_inj'. intros i Hi.
    rewrite Z.land_spec, wshl_spec, Z.testbit_0_l by lia.
    destruct (decide (i = n)) as [->|]; [by rewrite E|].
    destruct (Z.lt_ge_cases i n); [by rewrite (Z.testbit_neg_r 1), andb_comm by lia|].
    replace (Z.testbit 1 (i - n)) with false; [btauto|].
    symmetry. apply (testbit_small 1 1); lia.
Qed.

Section encoded.
Context (p : ptr) (Hp : ptr_ok p).
Let f0 := (align_log, p_tag p).
Let f1 := (62 - align_log, p_addr p).
Let f2 := (2, meta_num (p_meta p)).

Lemma encode_tag : tag (encode p) = p_tag p.
Proof.
  pose proof (fget_pack [] _ _ _ (ptr_fields_fit p Hp)) as E.
  unfold tag. rewrite LOW_BITS_mask. unfold fget, wshr in E. by rewrite Z.shiftr_0_r in E.
Qed.
Lemma encode_as_ptr : as_ptr (encode p) = p_addr p * 2 ^ align_log.
Proof.
  pose proof align_log_ok. pose proof Hp as [Ha Ht].
  unfold as_ptr. rewrite ADDR_BITS_mask. apply Z.bits_inj'. intros i Hi.
  rewrite Z.land_spec, testbit_mask by lia. rewrite Z.mul_pow2_bits by lia.
  unfold encode, fields. simpl. rewrite testbit_add_high by lia.
  destruct (Z.ltb_spec i align_log).
  { rewrite (Z.testbit_neg_r (p_addr p)) by lia. split_ranges; btauto. }
  rewrite testbit_add_high by lia. destruct (Z.ltb_spec (i - align_log) (62 - align_log)).
  - split_ranges; btauto.
  - rewrite (testbit_small (p_addr p) (62 - align_log)) by lia. split_ranges; btauto.
Qed.
Lemma encode_bit_high i : 0 <= i < 2 -> Z.testbit (encode p) (62 + i) = Z.testbit (meta_num (p_meta p)) i.
Proof.
  intros Hi. pose proof align_log_ok. pose proof Hp as [Ha Ht].
  unfold encode, fields. simpl pack. rewrite !testbit_add_high by lia.
  replace (62 + i <? align_log) with false by lia.
  replace (62 + i - align_log <? 62 - align_log) with false by lia.
  replace (62 + i - align_log - (62 - align_log)) with i by lia.
  by rewrite Z.mul_0_r, Z.add_0_r.
Qed.
Lemma encode_meta : meta (encode p) = p_meta p.
Proof.
  pose proof (encode_bit_high 0 ltac:(lia)) as E0. pose proof (encode_bit_high 1 ltac:(lia)) as E1.
  unfold meta, color_from. unfold wbits. rewrite !bit_test by lia.
  replace (64 - 1) with (62 + 1) by lia. replace (64 - 2) with (62 + 0) by lia.
  rewrite E0, E1. by destruct (p_meta p) as [|[]].
Qed.
Lemma encode_color c : p_meta p = Unrooted c -> unrooted_color_unchecked (encode p) = c.
Proof.
  intros E. pose proof (encode_bit_high 0 ltac:(lia)) as E0.
  unfold unrooted_color_unchecked, color_from, wbits. rewrite bit_test by lia.
  replace (64 - 2) with (62 + 0) by lia. rewrite E0, E. by destruct c.
Qed.
Lemma encode_with_meta m : with_meta (encode p) m = encode (mkP m (p_addr p) (p_tag p)).
Proof.
  pose proof (fset_pack [f0; f1] 2 (meta_num (p_meta p)) (meta_num m) []
    (ptr_fields_fit p Hp)) as E.
  unfold with_meta. rewrite Z.lor_comm. 
  specialize (E ltac:(cbn; lia) (meta_num_range m)).
  replace (width [f0; f1]) with 62 in E by (simpl; lia). exact E.
Qed.
Lemma encode_without_meta : without_meta (encode p) = encode (mkP Rooted (p_addr p) (p_tag p)).
Proof. rewrite <- encode_with_meta. unfold with_meta. simpl. by rewrite Z.lor_0_l. Qed.
Lemma encode_with_tag t : with_tag (encode p) t = encode (mkP (p_meta p) (p_addr p) (t mod 2 ^ align_log)).
Proof.
  pose proof align_log_ok. assert (0 <= t mod 2 ^ align_log < 2 ^ align_log) by (apply Z.mod_pos_bound; lia).
  pose proof (fset_pack [] align_log (p_tag p) (t mod 2 ^ align_log) [f1; f2] (ptr_fields_fit p Hp)) as E.
  specialize (E ltac:(cbn; lia) ltac:(done)). cbn [app width] in E.
  change (encode p) with (pack [(align_log, p_tag p); f1; f2]).
  change (encode _) with (pack [(align_log, t mod 2 ^ align_log); f1; f2]).
  rewrite <- E. unfold with_tag, fset. rewrite LOW_BITS_mask. f_equal.
  unfold mask. rewrite Z.shiftl_0_r, Z.land_ones by lia. unfold wshl, wmax.
  rewrite Z.shiftl_0_r, land_mask_small; [done|lia|].
  pose proof (Z.pow_le_mono_r 2 align_log 64). lia.
Qed.
Lemma encode_is_null : is_null (encode p) = (p_addr p =? 0).
Proof.
  unfold is_null. rewrite encode_as_ptr. pose proof align_log_ok.
  assert (0 < 2 ^ align_log) by lia.
  destruct (Z.eqb_spec (p_addr p) 0) as [->|]; [done|]. apply Z.eqb_neq. nia.
Qed.
End encoded.

(** Bitwise operations confined to the tag bits. *)
Lemma low_range v k : 0 <= k -> 0 <= v -> (forall i, k <= i -> Z.testbit v i = false) -> 0 <= v < 2 ^ k.
Proof.
  intros Hk Hv Hbit. split; [done|].
  enough (v mod 2 ^ k = v) by (pose proof (Z.mod_pos_bound v (2 ^ k)); lia).
  apply Z.bits_inj'. intros i Hi. destruct (Z.lt_ge_cases i k).
  - by rewrite Z.mod_pow2_bits_low.
  - rewrite Z.mod_pow2_bits_high by lia. by rewrite Hbit.
Qed.
Lemma tag_low t : t .& LOW_BITS = t mod 2 ^ align_log.
Proof.
  pose proof align_log_ok. rewrite LOW_BITS_mask. unfold mask.
  by rewrite Z.shiftl_0_r, Z.land_ones by lia.
Qed.
Lemma high_bit t i : 0 <= t < 2 ^ align_log -> align_log <= i -> Z.testbit t i = false.
Proof. intros. apply (testbit_small t align_log); [done|lia]. Qed.
Section tag_ops.
Context (p : ptr) (Hp : ptr_ok p) (t : Z) (Ht : 0 <= t < 2 ^ align_log).
Let high := pack [(62 - align_log, p_addr p); (2, meta_num (p_meta p))].

Lemma encode_high : encode p = p_tag p + 2 ^ align_log * high.
Proof. reflexivity. Qed.
Lemma encode_bits i : 0 <= i ->
  Z.testbit (encode p) i = if i <? align_log then Z.testbit (p_tag p) i else Z.testbit high (i - align_log).
Proof using Hp.
  intros. pose proof align_log_ok. destruct Hp. rewrite encode_high. apply testbit_add_high; lia || done.
Qed.
Lemma encode_tag_bits v i : 0 <= v < 2 ^ align_log -> 0 <= i ->
  Z.testbit (encode (mkP (p_meta p) (p_addr p) v)) i =
    if i <? align_log then Z.testbit v i else Z.testbit high (i - align_log).
Proof.
  intros. pose proof align_log_ok.
  change (encode (mkP (p_meta p) (p_addr p) v)) with (v + 2 ^ align_log * high).
  apply testbit_add_high; lia || done.
Qed.
Lemma tag_high_bit i : align_log <= i -> Z.testbit (p_tag p) i = false.
Proof using Hp. intros. apply (testbit_small _ align_log); [apply Hp|lia]. Qed.

Lemma lor_range : 0 <= Z.lor (p_tag p) t < 2 ^ align_log.
Proof using Hp Ht.
  pose proof align_log_ok. destruct Hp. apply low_range; [lia|apply Z.lor_nonneg; lia|].
  intros i Hi. by rewrite Z.lor_spec, tag_high_bit, (high_bit t).
Qed.
Lemma lxor_range : 0 <= Z.lxor (p_tag p) t < 2 ^ align_log.
Proof using Hp Ht.
  pose proof align_log_ok. destruct Hp. apply low_range; [lia|apply Z.lxor_nonneg; lia|].
  intros i Hi. by rewrite Z.lxor_spec, tag_high_bit, (high_bit t).
Qed.
Lemma encode_lor : encode p .| t = encode (mkP (p_meta p) (p_addr p) (p_tag p .| t)).
Proof using Hp Ht.
  apply Z.bits_inj'. intros i Hi. rewrite encode_tag_bits by (done || apply lor_range).
  rewrite !Z.lor_spec, encode_bits by done. destruct (Z.ltb_spec i align_log); [done|].
  rewrite (high_bit t) by done. btauto.
Qed.
Lemma encode_lxor : encode p .^ t = encode (mkP (p_meta p) (p_addr p) (p_tag p .^ t)).
Proof using Hp Ht.
  apply Z.bits_inj'. intros i Hi. rewrite encode_tag_bits by (done || apply lxor_range).
  rewrite !Z.lxor_spec, encode_bits by done. destruct (Z.ltb_spec i align_log); [done|].
  rewrite (high_bit t) by done. btauto.
Qed.
(** An [and] with a mask below the alignment keeps nothing of the address. *)
Lemma encode_land : encode p .& t = encode (mkP Rooted 0 (p_tag p .& t)).
Proof using Hp Ht.
  transitivity (p_tag p .& t).
  - apply Z.bits_inj'. intros i Hi. rewrite !Z.land_spec, encode_bits by done.
    destruct (Z.ltb_spec i align_log); [done|]. rewrite (high_bit t) by done. btauto.
  - unfold encode, fields. cbn [pack p_meta p_addr p_tag meta_num]. lia.
Qed.
End tag_ops.

Lemma null_rooted_encode t : null_rooted_with_tag t = encode (mkP Rooted 0 (t mod 2 ^ align_log)).
Proof.
  pose proof align_log_ok. unfold null_rooted_with_tag. rewrite LOW_BITS_mask. unfold mask.
  rewrite Z.shiftl_0_r, Z.land_ones by lia. unfold encode, fields. simpl. lia.
Qed.

(** C33. The packed pointer refines the record of its fields, for every alignment:
    accessors read a field, updates change one field, and a tag is cut to the bits
    the alignment leaves free. *)
Theorem manptr_refines p : ptr_ok p ->
  meta (encode p) = p_meta p /\ tag (encode p) = p_tag p /\
  as_ptr (encode p) = p_addr p * 2 ^ align_log /\
  is_null (encode p) = (p_addr p =? 0) /\
  (forall c, p_meta p = Unrooted c -> unrooted_color_unchecked (encode p) = c) /\
  (forall m, with_meta (encode p) m = encode (mkP m (p_addr p) (p_tag p))) /\
  without_meta (encode p) = encode (mkP Rooted (p_addr p) (p_tag p)) /\
  (forall t, with_tag (encode p) t = encode (mkP (p_meta p) (p_addr p) (t mod 2 ^ align_log))) /\
  null_base = encode (mkP Rooted 0 0) /\
  (forall t, null_rooted_with_tag t = encode (mkP Rooted 0 (t mod 2 ^ align_log))).
Proof.
  intros Hp. pose proof align_log_ok. repeat split; intros.
  - by apply encode_meta.
  - by apply encode_tag.
  - by apply encode_as_ptr.
  - by apply encode_is_null.
  - by apply encode_color.
  - by apply encode_with_meta.
  - by apply encode_without_meta.
  - by apply encode_with_tag.
  - unfold null_base, encode, fields. simpl. lia.
  - apply null_rooted_encode.
Qed.
End layout.
End ManPtr.

(** ** Concrete instances: a saturated header, and a tagged pointer to an object
    aligned to 16 bytes *)
#[local] Instance align16 : Layout := {| align_log := 4; align_log_ok := ltac:(lia) |}.
Lemma objmeta_refines_witness :
  ObjMeta.hdr_ok (ObjMeta.mkHdr C1 200 (2 ^ 55 - 1)) /\
  ObjMeta.increment_root_count (ObjMeta.encode (ObjMeta.mkHdr C1 200 (2 ^ 55 - 1))) =
    Stopped (Panic "prev < ROOT_COUNT_MASK") /\
  ObjMeta.type_id (ObjMeta.encode (ObjMeta.mkHdr C1 200 (2 ^ 55 - 1))) = 200.
Proof.
  assert (H : ObjMeta.hdr_ok (ObjMeta.mkHdr C1 200 (2 ^ 55 - 1))) by (repeat split; vm_compute; congruence).
  split; [exact H|].
  destruct (ObjMeta.objmeta_refines _ H) as (_ & _ & Ht & _ & _ & Hi & _). exact (conj Hi Ht).
Defined.
Lemma manptr_refines_witness :
  let p := ManPtr.mkP (Unrooted C1) 4096 5 in
  ManPtr.ptr_ok p /\ ManPtr.as_ptr (ManPtr.encode p) = 65536 /\
  ManPtr.with_tag (ManPtr.encode p) 23 = ManPtr.encode (ManPtr.mkP (Unrooted C1) 4096 7).
Proof.
  intros p. assert (H : ManPtr.ptr_ok p) by (repeat split; vm_compute; congruence).
  split; [exact H|].
  destruct (ManPtr.manptr_refines p H) as (_ & _ & Ha & _ & _ & _ & _ & Ht & _).
  exact (conj Ha (Ht 23)).
Defined.
