(* ===== verification/Queue.v ===== *)
(** * The Michael-Scott queue ([src/sync/queue.rs])

    The shared state is the node memory, the [head] and [tail] pointers and the
    nodes handed to [defer_destroy].  A node address names the thread whose
    allocator returned it; crossbeam's epoch reclamation frees a retired node only
    after every guard that could see it is gone, so memory is never reused while
    the methods below (all of which hold a guard) run. *)
From S2P Require Import Prelude Prog Linear.
#[local] Open Scope prog_scope.
#[local] Open Scope nat_scope.

(** An address: the allocating thread and a serial number; [None] is null. *)
Abbreviation loc := (nat * nat)%type.

Section queue.
Context {T : Type}.

(** [struct Node<T>]: [data] is a [MaybeUninit<T>]. *)
Record node := mkNode { n_data : option T; n_next : option loc }.

(** [struct Queue<T>], with its nodes. *)
Record queue := mkQueue {
  q_mem : gmap loc node;
  q_head : loc;
  q_tail : loc;
  q_retired : list loc
}.

Definition set_next (next : option loc) (n : node) : node := mkNode (n_data n) next.
Definition with_mem (m : gmap loc node) (s : queue) : queue :=
  mkQueue m (q_head s) (q_tail s) (q_retired s).
Definition with_head (l : loc) (s : queue) : queue :=
  mkQueue (q_mem s) l (q_tail s) (q_retired s).
Definition with_tail (l : loc) (s : queue) : queue :=
  mkQueue (q_mem s) (q_head s) l (q_retired s).
Definition with_retired (r : list loc) (s : queue) : queue :=
  mkQueue (q_mem s) (q_head s) (q_tail s) r.

(** [Queue::new]: one sentinel, without data. *)
Definition sentinel : loc := (0, 0).
Definition new : queue := mkQueue {[sentinel := mkNode None None]} sentinel sentinel [].

(** ** Atomic accesses *)
Definition fresh_loc (i : nat) (m : gmap loc node) : loc :=
  (i, fresh (set_map (C := gset loc) snd (dom m) : gset nat)).

(** [Owned::new(node).into_shared(guard)] *)
Definition alloc (i : nat) (n : node) : prog queue loc :=
  atomic (fun s => let l := fresh_loc i (q_mem s) in Ok (l, with_mem (<[l := n]> (q_mem s)) s)).
Definition load_head : prog queue loc := gets q_head.
Definition load_tail : prog queue loc := gets q_tail.
(** A dereference of an unallocated node is undefined behaviour. *)
Definition load_next (l : loc) : prog queue (option loc) :=
  atomic (fun s => match q_mem s !! l with
                   | Some n => Ok (n_next n, s)
                   | None => Stopped (UB "dangling node")
                   end).
Definition cas_head (cur new : loc) : prog queue bool :=
  atomic (fun s => if decide (q_head s = cur) then Ok (true, with_head new s) else Ok (false, s)).
Definition cas_tail (cur new : loc) : prog queue bool :=
  atomic (fun s => if decide (q_tail s = cur) then Ok (true, with_tail new s) else Ok (false, s)).
Definition cas_next (l : loc) (cur : option loc) (new : loc) : prog queue bool :=
  atomic (fun s => match q_mem s !! l with
                   | Some n => if decide (n_next n = cur)
                               then Ok (true, with_mem (<[l := set_next (Some new) n]> (q_mem s)) s)
                               else Ok (false, s)
                   | None => Stopped (UB "dangling node")
                   end).
Definition defer_destroy (l : loc) : prog queue unit :=
  modify (fun s => with_retired (l :: q_retired s) s).
(** [data.assume_init_read()], [&*data.as_ptr()] *)
Definition read_data (l : loc) : prog queue T :=
  atomic (fun s => match q_mem s !! l with
                   | Some n => match n_data n with
                               | Some x => Ok (x, s)
                               | None => Stopped (UB "uninitialised data")
                               end
                   | None => Stopped (UB "dangling node")
                   end).

(** ** Operations *)
Definition push_internal (onto new : loc) : prog queue bool :=
  next <- load_next onto;
  match next with
  | Some next => _ <- cas_tail onto next; Ret false
  | None =>
      result <- cas_next onto None new;
      if (result : bool) then _ <- cas_tail onto new; Ret result else Ret result
  end.

Definition push (i fuel : nat) (t : T) : prog queue unit :=
  new <- alloc i (mkNode (Some t) None);
  loop fuel (fun _ : unit =>
    tail <- load_tail;
    r <- push_internal tail new;
    Ret (if (r : bool) then inr tt else inl tt)) tt.

(** The step shared by the two pops, after the head was swung from [head] to [next]. *)
Definition pop_finish (head next : loc) : prog queue T :=
  tail <- load_tail;
  (if decide (head = tail) then _ <- cas_tail tail next; Ret tt else Ret tt) ;;
  defer_destroy head ;;
  read_data next.

(** [inl]: [Ok]; [inr tt]: [Err(())], a lost race. *)
Definition pop_internal : prog queue (option T + unit) :=
  head <- load_head;
  next <- load_next head;
  match next with
  | Some n =>
      r <- cas_head head n;
      if (r : bool) then x <- pop_finish head n; Ret (inl (Some x)) else Ret (inr tt)
  | None => Ret (inl None)
  end.

Definition pop_if_internal (condition : T -> bool) : prog queue (option T + unit) :=
  head <- load_head;
  next <- load_next head;
  match next with
  | Some n =>
      d <- read_data n;
      if condition d then
        r <- cas_head head n;
        if (r : bool) then x <- pop_finish head n; Ret (inl (Some x)) else Ret (inr tt)
      else Ret (inl None)
  | None => Ret (inl None)
  end.

Definition retry {R} (fuel : nat) (p : prog queue (R + unit)) : prog queue R :=
  loop fuel (fun _ : unit =>
    r <- p; Ret (match r with inl x => inr x | inr _ => inl tt end)) tt.

Definition try_pop (fuel : nat) : prog queue (option T) := retry fuel pop_internal.
Definition try_pop_if (fuel : nat) (condition : T -> bool) : prog queue (option T) :=
  retry fuel (pop_if_internal condition).

(** [impl Drop]: pop until empty. The remaining sentinel is then freed. *)
Definition drop_queue (fuel : nat) : prog queue unit :=
  loop fuel (fun _ : unit =>
    r <- try_pop 1; Ret (match r with Some _ => inl tt | None => inr tt end)) tt.

(** ** Abstract state: the data after the head *)
Fixpoint walk (fuel : nat) (m : gmap loc node) (l : loc) : list T :=
  match fuel with
  | O => []
  | S k => match m !! l ≫= n_next with
           | Some l' => option_list (m !! l' ≫= n_data) ++ walk k m l'
           | None => []
           end
  end.
Definition contents (s : queue) : list T := walk (size (q_mem s)) (q_mem s) (q_head s).

(** The sequential queue. *)
Inductive event := EPush (x : T) | EPop (r : option T).
Inductive spec : event -> list T -> list T -> Prop :=
  | spec_push x q : spec (EPush x) q (q ++ [x])
  | spec_pop x q : spec (EPop (Some x)) (x :: q) q
  | spec_empty : spec (EPop None) [] [].

(** ** Invariant

    [ls] lists every node ever linked, from the first sentinel on; [h] and [t] are
    the positions of head and tail.  The tail may lag, but never by more than one
    node, and a retired node is before both. *)
Record chain (s : queue) (ls : list loc) (h t : nat) : Prop := {
  ch_nodup : NoDup ls;
  ch_first : ls !! 0 = Some sentinel;
  ch_next : forall i l, ls !! i = Some l ->
    exists n, q_mem s !! l = Some n /\ n_next n = ls !! (S i);
  ch_head : ls !! h = Some (q_head s);
  ch_tail : ls !! t = Some (q_tail s);
  ch_lag : length ls <= t + 2;
  ch_data : forall i l n, 0 < i -> ls !! i = Some l -> q_mem s !! l = Some n -> is_Some (n_data n);
  ch_retired : forall l, l ∈ q_retired s -> exists i, ls !! i = Some l /\ i < h /\ i < t
}.

Lemma fresh_loc_not_in i m : m !! fresh_loc i m = None.
Proof.
  apply not_elem_of_dom. intros Hin.
  pose proof (is_fresh (set_map (C := gset loc) snd (dom m) : gset nat)) as Hf.
  apply Hf. apply elem_of_map. by exists (fresh_loc i m).
Qed.

Definition datas (m : gmap loc node) (ls : list loc) : list T := omap (fun l => m !! l ≫= n_data) ls.

Lemma chain_mem s ls h t l : chain s ls h t -> l ∈ ls -> is_Some (q_mem s !! l).
Proof.
  intros Hc [i Hi]%list_elem_of_lookup. destruct (ch_next _ _ _ _ Hc i l Hi) as (n & -> & _). eauto.
Qed.

Lemma chain_length s ls h t : chain s ls h t -> length ls <= size (q_mem s).
Proof.
  intros Hc. rewrite <- size_dom, <- (size_list_to_set (C := gset loc)) by apply Hc.
  apply subseteq_size. intros l Hl%elem_of_list_to_set. apply elem_of_dom. by eapply chain_mem.
Qed.

Lemma walk_chain s ls h t : chain s ls h t ->
  forall k i l, ls !! i = Some l -> length ls <= k + i + 1 ->
  walk k (q_mem s) l = datas (q_mem s) (drop (S i) ls).
Proof.
  intros Hc k. induction k as [|k IH]; intros i l Hi Hk; simpl.
  - apply lookup_lt_Some in Hi as Hlt. by rewrite drop_ge by lia.
  - destruct (ch_next _ _ _ _ Hc i l Hi) as (n & -> & Hn). simpl.
    destruct (n_next n) as [l'|].
    + rewrite (drop_S _ l' (S i)) by done. simpl.
      rewrite (IH (S i) l') by (done || lia).
      by destruct (q_mem s !! l' ≫= n_data).
    + symmetry in Hn. apply lookup_ge_None in Hn. by rewrite drop_ge by lia.
Qed.

Lemma contents_chain s ls h t : chain s ls h t ->
  contents s = datas (q_mem s) (drop (S h) ls).
Proof.
  intros Hc. eapply walk_chain; [done|by apply Hc|].
  pose proof (chain_length _ _ _ _ Hc). lia.
Qed.

Lemma datas_ext m m' ls :
  (forall l, l ∈ ls -> m' !! l ≫= n_data = m !! l ≫= n_data) -> datas m' ls = datas m ls.
Proof.
  induction ls as [|l ls IH]; intros H; simpl; [done|].
  rewrite H, IH by set_solver. done.
Qed.

Lemma chain_lookup_inj s ls h t i j l :
  chain s ls h t -> ls !! i = Some l -> ls !! j = Some l -> i = j.
Proof. intros Hc. eapply NoDup_lookup. apply Hc. Qed.

(** The chain is determined by the state. *)
Lemma chain_unique s ls h t ls2 h2 t2 :
  chain s ls h t -> chain s ls2 h2 t2 -> ls2 = ls /\ h2 = h /\ t2 = t.
Proof.
  intros Hc Hc2. assert (ls2 = ls) as ->.
  { apply list_eq. intros k. induction k as [|k IH].
    - by rewrite (ch_first _ _ _ _ Hc), (ch_first _ _ _ _ Hc2).
    - destruct (ls !! k) as [l|] eqn:E.
      + destruct (ch_next _ _ _ _ Hc k l E) as (n & En & Hn).
        destruct (ch_next _ _ _ _ Hc2 k l IH) as (n' & En' & Hn'). congruence.
      + apply lookup_ge_None in E, IH. rewrite !(proj2 (lookup_ge_None _ _)); (done || lia). }
  split_and!; [done| |]; eapply chain_lookup_inj; eauto using ch_head, ch_tail.
Qed.

(** ** Each atomic update keeps the invariant *)
Lemma chain_alloc s ls h t l n : chain s ls h t -> q_mem s !! l = None ->
  chain (with_mem (<[l := n]> (q_mem s)) s) ls h t /\ l ∉ ls.
Proof.
  intros Hc Hl. assert (l ∉ ls) as Hni.
  { intros Hin. destruct (chain_mem _ _ _ _ _ Hc Hin). congruence. }
  split; [|done]. destruct Hc as [H1 H0 H2 H3 H4 H5 H6 H7]. constructor; try done; simpl.
  - intros i l' Hi. destruct (H2 i l' Hi) as (n' & E & Hn').
    exists n'. rewrite lookup_insert_ne by congruence. done.
  - intros i l' n' Hi0 Hi. rewrite lookup_insert_ne; [by eauto|].
    intros ->. by apply Hni, list_elem_of_lookup_2 with i.
Qed.

Lemma chain_tail s ls h t l' : chain s ls h t -> ls !! (S t) = Some l' ->
  chain (with_tail l' s) ls h (S t).
Proof.
  intros [H1 H0 H2 H3 H4 H5 H6 H7] Hl. constructor; simpl; try done; [lia|].
  intros l Hin. destruct (H7 l Hin) as (i & ? & ? & ?). exists i. split_and!; [done|lia|lia].
Qed.

Lemma chain_head s ls h t l' : chain s ls h t -> ls !! (S h) = Some l' ->
  chain (with_head l' s) ls (S h) t.
Proof.
  intros [H1 H0 H2 H3 H4 H5 H6 H7] Hl. constructor; simpl; try done.
  intros l Hin. destruct (H7 l Hin) as (i & ? & ? & ?). exists i. split_and!; [done|lia|lia].
Qed.

Lemma chain_retire s ls h t i l : chain s ls h t -> ls !! i = Some l -> i < h -> i < t ->
  chain (with_retired (l :: q_retired s) s) ls h t.
Proof.
  intros [H1 H0 H2 H3 H4 H5 H6 H7] Hl ??. constructor; simpl; try done.
  intros l' [->|Hin]%elem_of_cons; [by exists i|]. auto.
Qed.

Lemma chain_link s ls h t l n new x :
  chain s ls h t -> ls !! t = Some l -> q_mem s !! l = Some n -> n_next n = None ->
  new ∉ ls -> q_mem s !! new = Some (mkNode (Some x) None) ->
  chain (with_mem (<[l := set_next (Some new) n]> (q_mem s)) s) (ls ++ [new]) h t.
Proof.
  intros Hc Hl Hm Hn Hnew Hmn. pose proof Hc as [H1 H0 H2 H3 H4 H5 H6 H7].
  assert (S t = length ls) as Hlen.
  { destruct (H2 t l Hl) as (n' & E & Hn'). simplify_eq. rewrite Hn in Hn'.
    symmetry in Hn'. apply lookup_ge_None in Hn'. apply lookup_lt_Some in Hl. lia. }
  assert (new <> l) as Hne by (intros ->; by apply Hnew, list_elem_of_lookup_2 with t).
  constructor; simpl.
  - apply NoDup_app. split_and!; [done| |apply NoDup_singleton].
    intros l' Hl' ->%list_elem_of_singleton. done.
  - by apply lookup_app_l_Some.
  - intros i l' [Hi|(Hge & Hi)]%lookup_app_Some.
    + destruct (decide (l' = l)) as [->|Hll].
      * exists (set_next (Some new) n). rewrite lookup_insert_eq. split; [done|].
        assert (i = t) as -> by (by eapply chain_lookup_inj).
        rewrite lookup_app_r, Hlen, Nat.sub_diag by lia. done.
      * destruct (H2 i l' Hi) as (n' & E & Hn'). exists n'.
        rewrite lookup_insert_ne by done. split; [done|]. rewrite Hn'.
        apply lookup_lt_Some in Hi as Hlt.
        destruct (decide (S i = length ls)) as [Heq|].
        { exfalso. apply Hll. assert (i = t) as -> by lia. congruence. }
        by rewrite lookup_app_l by lia.
    + apply list_lookup_singleton_Some in Hi as [Hi ->].
      exists (mkNode (Some x) None). rewrite lookup_insert_ne by done. split; [done|].
      symmetry. apply lookup_ge_None. rewrite length_app. simpl. lia.
  - by apply lookup_app_l_Some.
  - by apply lookup_app_l_Some.
  - rewrite length_app. simpl. lia.
  - intros i l' n' Hi0 [Hi|(Hge & Hi)]%lookup_app_Some.
    + destruct (decide (l' = l)) as [->|Hll].
      * rewrite lookup_insert_eq. intros ?; simplify_eq. simpl. by eapply H6.
      * rewrite lookup_insert_ne by done. by eapply H6.
    + apply list_lookup_singleton_Some in Hi as [Hi ->].
      rewrite lookup_insert_ne by done. intros ?; simplify_eq. simpl. eauto.
  - intros l' Hin. destruct (H7 l' Hin) as (i & ? & ? & ?). exists i.
    split_and!; [by apply lookup_app_l_Some|lia|lia].
Qed.

(** ** Rely and guarantee

    [grow P]: the chain only grows, head and tail only move forward, node data is
    immutable, and the unlinked nodes of the threads in [P] are left alone.  Thread
    [i] relies on [grow (eq i)] and guarantees [grow (fun j => j <> i)]. *)
Definition grow (P : nat -> Prop) (s s' : queue) : Prop :=
  forall ls h t, chain s ls h t -> exists ls' h' t',
    chain s' ls' h' t' /\ ls `prefix_of` ls' /\ h <= h' /\ t <= t' /\
    (forall l n, q_mem s !! l = Some n ->
       exists n', q_mem s' !! l = Some n' /\ n_data n' = n_data n) /\
    (forall l, P l.1 -> l ∉ ls -> is_Some (q_mem s !! l) ->
       q_mem s' !! l = q_mem s !! l /\ l ∉ ls').

Definition rely (i : nat) : queue -> queue -> Prop := grow (eq i).
Definition guar (i : nat) (o : option event) (s s' : queue) : Prop :=
  grow (fun j => j <> i) s s' /\
  match o with
  | None => contents s' = contents s
  | Some e => spec e (contents s) (contents s')
  end.

#[local] Instance grow_refl P : Reflexive (grow P).
Proof.
  intros s ls h t Hc. exists ls, h, t. split_and!; eauto.
Qed.
#[local] Instance grow_trans P : Transitive (grow P).
Proof.
  intros s1 s2 s3 H12 H23 ls h t Hc.
  destruct (H12 _ _ _ Hc) as (ls2 & h2 & t2 & Hc2 & Hp2 & Hh2 & Ht2 & Hk2 & Ho2).
  destruct (H23 _ _ _ Hc2) as (ls3 & h3 & t3 & Hc3 & Hp3 & Hh3 & Ht3 & Hk3 & Ho3).
  exists ls3, h3, t3. split_and!; [done|by transitivity ls2|lia|lia| |].
  - intros l n Hl. destruct (Hk2 l n Hl) as (n' & Hl' & <-). by apply Hk3.
  - intros l HP Hl Hs. destruct (Ho2 l HP Hl Hs) as [E2 Hl2].
    destruct (Ho3 l HP Hl2) as [E3 Hl3]; [by rewrite E2|]. by rewrite E3.
Qed.
#[local] Instance rely_preorder i : PreOrder (rely i).
Proof. split; apply _. Qed.

Lemma guar_rely i j o s s' : i <> j -> guar j o s s' -> rely i s s'.
Proof.
  intros Hij [Hg _] ls h t Hc.
  destruct (Hg _ _ _ Hc) as (ls' & h' & t' & ? & ? & ? & ? & ? & Ho).
  exists ls', h', t'. split_and!; try done. intros l Hl. apply Ho. congruence.
Qed.

(** To show a growth it suffices to consider the one chain at hand. *)
Lemma grow_intro P s s' ls h t ls' h' t' :
  chain s ls h t -> chain s' ls' h' t' -> ls `prefix_of` ls' -> h <= h' -> t <= t' ->
  (forall l n, q_mem s !! l = Some n ->
     exists n', q_mem s' !! l = Some n' /\ n_data n' = n_data n) ->
  (forall l, P l.1 -> l ∉ ls -> is_Some (q_mem s !! l) ->
     q_mem s' !! l = q_mem s !! l /\ l ∉ ls') ->
  grow P s s'.
Proof.
  intros Hc Hc' ?????  ls2 h2 t2 Hc2.
  destruct (chain_unique _ _ _ _ _ _ _ Hc Hc2) as (-> & -> & ->). exists ls', h', t'. split_and!; auto.
Qed.

Lemma grow_same P s s' ls h t h' t' :
  chain s ls h t -> chain s' ls h' t' -> h <= h' -> t <= t' -> q_mem s' = q_mem s ->
  grow P s s'.
Proof.
  intros Hc Hc' ?? Hm. eapply (grow_intro P s s' ls h t); eauto; rewrite Hm; eauto.
Qed.

Lemma guar_refl i s : guar i None s s.
Proof. split; [apply grow_refl|done]. Qed.

Section updates.
Context (i : nat) (s : queue) (ls : list loc) (h t : nat) (Hc : chain s ls h t).

Lemma guar_alloc n :
  guar i None s (with_mem (<[fresh_loc i (q_mem s) := n]> (q_mem s)) s).
Proof.
  pose proof (fresh_loc_not_in i (q_mem s)) as Hf.
  destruct (chain_alloc _ _ _ _ _ n Hc Hf) as [Hc' Hni]. split.
  - eapply grow_intro; eauto; simpl.
    + intros l n' Hl. exists n'. rewrite lookup_insert_ne by congruence. done.
    + intros l Hl Hnl _. rewrite lookup_insert_ne; [done|]. intros <-. by apply Hl.
  - rewrite (contents_chain _ _ _ _ Hc), (contents_chain _ _ _ _ Hc'). simpl.
    apply datas_ext. intros l [k Hk]%list_elem_of_lookup. rewrite lookup_insert_ne; [done|].
    intros <-. apply Hni. rewrite lookup_drop in Hk. by eapply list_elem_of_lookup_2.
Qed.

Lemma guar_tail l' : ls !! (S t) = Some l' -> guar i None s (with_tail l' s).
Proof.
  intros Hl. pose proof (chain_tail _ _ _ _ _ Hc Hl) as Hc'.
  split; [|done]. eapply grow_same; eauto.
Qed.

Lemma guar_retire k l : ls !! k = Some l -> k < h -> k < t ->
  guar i None s (with_retired (l :: q_retired s) s).
Proof.
  intros Hk Hh Ht. pose proof (chain_retire _ _ _ _ _ _ Hc Hk Hh Ht) as Hc'.
  split; [|done]. eapply grow_same; eauto.
Qed.

Lemma guar_head l' n x : ls !! (S h) = Some l' -> q_mem s !! l' = Some n -> n_data n = Some x ->
  guar i (Some (EPop (Some x))) s (with_head l' s).
Proof.
  intros Hl Hn Hx. pose proof (chain_head _ _ _ _ _ Hc Hl) as Hc'. split.
  - eapply grow_same; eauto.
  - rewrite (contents_chain _ _ _ _ Hc), (contents_chain _ _ _ _ Hc'). simpl.
    rewrite (drop_S _ l' (S h)) by done. simpl. rewrite Hn. simpl. rewrite Hx. constructor.
Qed.

Lemma guar_empty : ls !! (S h) = None -> guar i (Some (EPop None)) s s.
Proof.
  intros Hn%lookup_ge_None. split; [apply grow_refl|].
  rewrite (contents_chain _ _ _ _ Hc), drop_ge by done. constructor.
Qed.

Lemma guar_link l n new x :
  ls !! t = Some l -> q_mem s !! l = Some n -> n_next n = None ->
  new.1 = i -> new ∉ ls -> q_mem s !! new = Some (mkNode (Some x) None) ->
  guar i (Some (EPush x)) s (with_mem (<[l := set_next (Some new) n]> (q_mem s)) s).
Proof.
  intros Hl Hm Hn Hi Hnew Hmn.
  pose proof (chain_link _ _ _ _ _ _ _ _ Hc Hl Hm Hn Hnew Hmn) as Hc'. split.
  - eapply grow_intro; eauto; simpl; [by apply prefix_app_r| |].
    + intros l' n' Hl'. destruct (decide (l' = l)) as [->|].
      * simplify_eq. rewrite lookup_insert_eq. by eexists.
      * exists n'. by rewrite lookup_insert_ne.
    + intros l' Hl' Hnl _. rewrite lookup_insert_ne; [split; [done|]|].
      * intros [? | ->%list_elem_of_singleton]%elem_of_app; done.
      * intros <-. apply Hnl. by eapply list_elem_of_lookup_2.
  - assert (new <> l) as Hne by (intros ->; by apply Hnew, list_elem_of_lookup_2 with t).
    rewrite (contents_chain _ _ _ _ Hc), (contents_chain _ _ _ _ Hc'). simpl.
    pose proof (ch_head _ _ _ _ Hc) as Hh%lookup_lt_Some.
    rewrite drop_app_le by lia. unfold datas. rewrite omap_app. simpl.
    rewrite lookup_insert_ne, Hmn by done. simpl.
    match goal with |- spec _ ?a (?b ++ _) => replace b with a; [constructor|] end.
    symmetry. apply datas_ext. intros l' _. destruct (decide (l' = l)) as [->|].
    + rewrite lookup_insert_eq, Hm. done.
    + by rewrite lookup_insert_ne.
Qed.
End updates.

(** ** The methods under interference *)
Definition inv (s : queue) : Prop := exists ls h t, chain s ls h t.

Definition owns (i : nat) (new : loc) (x : T) (s : queue) (ls : list loc) : Prop :=
  new.1 = i /\ (new ∉ ls) /\ q_mem s !! new = Some (mkNode (Some x) None).

(** The datum of a node. *)
Definition datum (l : loc) (x : T) (s : queue) : Prop :=
  exists n, q_mem s !! l = Some n /\ n_data n = Some x.

(** What a thread keeps while others run: its unlinked node, and node data. *)
Definition pres (i : nat) (s : queue) (ls : list loc) (s' : queue) (ls' : list loc) : Prop :=
  (forall new x, owns i new x s ls -> owns i new x s' ls') /\
  (forall l x, datum l x s -> datum l x s').

(** A thread that knows the chain before the environment moves knows it after. *)
Lemma rely_chain i s s' ls h t : rely i s s' -> chain s ls h t ->
  exists ls' h' t', chain s' ls' h' t' /\ ls `prefix_of` ls' /\ h <= h' /\ t <= t' /\
    pres i s ls s' ls'.
Proof.
  intros Hr Hc. destruct (Hr _ _ _ Hc) as (ls' & h' & t' & ? & ? & ? & ? & Hk & Ho).
  exists ls', h', t'. split_and!; try done. split.
  - intros new x (Hi & Hn & Hm).
    destruct (Ho new) as [E ?]; [done|done|by rewrite Hm|]. split_and!; [done|done|congruence].
  - intros l x (n & Hn & Hx). destruct (Hk l n Hn) as (n' & ? & ?). exists n'. split; congruence.
Qed.
Ltac env Hc :=
  let Hr := fresh "Hr" in intros ?s Hr;
  destruct (rely_chain _ _ _ _ _ _ Hr Hc) as (?ls & ?h & ?t & ?Hc & ?Hpre & ?Hh & ?Ht & ?Ho).

Lemma chain_lt_h s ls h t : chain s ls h t -> h < length ls.
Proof. intros Hc. by eapply lookup_lt_Some, ch_head. Qed.
Lemma chain_lt_t s ls h t : chain s ls h t -> t < length ls.
Proof. intros Hc. by eapply lookup_lt_Some, ch_tail. Qed.

Lemma load_head_wp {A} i (p : loc -> prog queue A) tr Q s ls h t :
  chain s ls h t ->
  (forall s' ls' h' t' l, chain s' ls' h' t' -> ls' !! h' = Some l ->
     pres i s ls s' ls' ->
     wp (rely i) (guar i) (p l) tr Q s') ->
  wp (rely i) (guar i) (bind load_head p) tr Q s.
Proof.
  intros Hc Hp. apply wp_gets; [intros; apply guar_refl|]. env Hc. eauto using ch_head.
Qed.
Lemma load_tail_wp {A} i (p : loc -> prog queue A) tr Q s ls h t :
  chain s ls h t ->
  (forall s' ls' h' t' l, chain s' ls' h' t' -> ls `prefix_of` ls' -> h <= h' -> t <= t' ->
     ls' !! t' = Some l ->
     pres i s ls s' ls' ->
     wp (rely i) (guar i) (p l) tr Q s') ->
  wp (rely i) (guar i) (bind load_tail p) tr Q s.
Proof.
  intros Hc Hp. apply wp_gets; [intros; apply guar_refl|]. env Hc. eauto using ch_tail.
Qed.

(** Following the [next] pointer of a chain node: the event is chosen by the
    continuation. *)
Lemma load_next_wp {A} i l k (p : option loc -> prog queue A) tr Q s ls h t :
  chain s ls h t -> ls !! k = Some l ->
  (forall s' ls' h' t', chain s' ls' h' t' -> ls `prefix_of` ls' -> h <= h' -> t <= t' ->
     pres i s ls s' ls' ->
     exists o, guar i o s' s' /\
       wp (rely i) (guar i) (p (ls' !! S k)) (tr ++ option_list o) Q s') ->
  wp (rely i) (guar i) (bind (load_next l) p) tr Q s.
Proof.
  intros Hc Hl Hp. simpl. env Hc.
  pose proof (prefix_lookup_Some _ _ _ _ Hl Hpre) as Hl'.
  destruct (ch_next _ _ _ _ Hc0 k l Hl') as (n & -> & ->). eauto.
Qed.

(** Helping the tail from one chain node to the next is always silent. *)
Lemma cas_tail_wp {A} i l l' k (p : bool -> prog queue A) tr Q s ls h t :
  chain s ls h t -> ls !! k = Some l -> ls !! S k = Some l' ->
  (forall b s' ls' h' t', chain s' ls' h' t' -> ls `prefix_of` ls' -> h <= h' -> t <= t' -> k < t' ->
     pres i s ls s' ls' ->
     wp (rely i) (guar i) (p b) tr Q s') ->
  k <= t ->
  wp (rely i) (guar i) (bind (cas_tail l l') p) tr Q s.
Proof.
  intros Hc Hl Hl' Hp Hkt. simpl. env Hc.
  pose proof (prefix_lookup_Some _ _ _ _ Hl Hpre) as Hk.
  pose proof (prefix_lookup_Some _ _ _ _ Hl' Hpre) as Hk'.
  destruct (decide (q_tail s0 = l)) as [E|E]; exists None; simpl; rewrite app_nil_r.
  - assert (t0 = k) as -> by (eapply chain_lookup_inj; eauto; rewrite <- E; by apply Hc0).
    split; [by eapply guar_tail|]. eapply Hp; eauto using chain_tail; lia.
  - split; [apply guar_refl|]. eapply Hp; eauto.
    assert (t0 <> k) by (intros ->; apply E; pose proof (ch_tail _ _ _ _ Hc0); congruence). lia.
Qed.

Lemma push_internal_wp i onto k new x tr s ls h t :
  chain s ls h t -> ls !! k = Some onto -> k <= t -> owns i new x s ls ->
  wp (rely i) (guar i) (push_internal onto new) tr
    (fun b tr' s' => if b then tr' = tr ++ [EPush x] else
       tr' = tr /\ exists ls' h' t', chain s' ls' h' t' /\ owns i new x s' ls') s.
Proof.
  intros Hc Hl Hkt Hown. unfold push_internal.
  eapply load_next_wp; [done..|]. intros s1 ls1 h1 t1 Hc1 Hp1 ?? Ho1.
  exists None. split; [apply guar_refl|]. simpl option_list. rewrite app_nil_r.
  pose proof (prefix_lookup_Some _ _ _ _ Hl Hp1) as Hl1. apply (proj1 Ho1) in Hown.
  destruct (ls1 !! S k) as [next|] eqn:En.
  - eapply cas_tail_wp; [done..| |lia]. intros b s2 ls2 h2 t2 Hc2 ???? Ho2.
    apply wp_ret_env. env Hc2. split; [done|]. do 3 eexists. split; [done|].
    by apply (proj1 Ho), (proj1 Ho2).
  - simpl. env Hc1. pose proof (prefix_lookup_Some _ _ _ _ Hl1 Hpre) as Hl2.
    apply (proj1 Ho) in Hown. destruct Hown as (Hi & Hni & Hmn).
    destruct (ch_next _ _ _ _ Hc0 k onto Hl2) as (n & Em & Hn). rewrite Em.
    destruct (decide (n_next n = None)) as [E|E].
    + rewrite E in Hn. symmetry in Hn. apply lookup_ge_None in Hn.
      pose proof (chain_lt_t _ _ _ _ Hc0). assert (k = t0) as -> by lia.
      exists (Some (EPush x)). split; [by eapply guar_link|].
      eapply (cas_tail_wp i onto new t0) with (ls := ls0 ++ [new]);
        [by eapply chain_link|by apply lookup_app_l_Some| | |done].
      * rewrite lookup_app_r by lia. by replace (S t0 - length ls0) with 0 by lia.
      * intros b s3 ls3 h3 t3 Hc3 ?????. by intros s4 _.
    + exists None. split; [apply guar_refl|]. simpl. rewrite app_nil_r.
      env Hc0. split; [done|]. do 3 eexists. split; [done|]. by apply (proj1 Ho0).
Qed.

Lemma alloc_wp {A} i x (p : loc -> prog queue A) tr Q s ls h t :
  chain s ls h t ->
  (forall new s' ls' h' t', chain s' ls' h' t' -> owns i new x s' ls' ->
     wp (rely i) (guar i) (p new) tr Q s') ->
  wp (rely i) (guar i) (bind (alloc i (mkNode (Some x) None)) p) tr Q s.
Proof.
  intros Hc Hp. simpl. env Hc.
  exists None. split; [by eapply guar_alloc|]. simpl. rewrite app_nil_r.
  destruct (chain_alloc _ _ _ _ _ (mkNode (Some x) None) Hc0 (fresh_loc_not_in i (q_mem s0)))
    as [Hc1 Hni].
  eapply Hp; [done|]. split_and!; [done|done|]. simpl. by rewrite lookup_insert_eq.
Qed.

Lemma push_wp i fuel x tr s : inv s ->
  wp (rely i) (guar i) (push i fuel x) tr (fun _ tr' _ => tr' = tr ++ [EPush x]) s.
Proof.
  intros (ls & h & t & Hc). eapply alloc_wp; [done|].
  intros new s1 ls1 h1 t1 Hc1 Hown1.
  apply (wp_loop (rely i) (guar i) (fun _ tr' s' =>
    tr' = tr /\ exists ls h t, chain s' ls h t /\ owns i new x s' ls)); [|eauto 10].
  clear. intros [] tr' s (-> & ls & h & t & Hc & Hown).
  eapply load_tail_wp; [done|]. intros s1 ls1 h1 t1 l Hc1 _ _ _ Hl Ho.
  apply wp_bind; [apply _|].
  eapply wp_mono; [|by eapply push_internal_wp; eauto; apply (proj1 Ho)].
  intros [] tr' s2 H; simpl; [by intros ????|].
  destruct H as (-> & ls' & h' & t' & Hc' & Hown'). env Hc'.
  split; [done|]. do 3 eexists. split; [done|]. by apply (proj1 Ho0).
Qed.

Lemma read_data_wp {A} i l x (p : T -> prog queue A) tr Q s ls h t :
  chain s ls h t -> datum l x s ->
  (forall s' ls' h' t', chain s' ls' h' t' -> ls `prefix_of` ls' -> h <= h' -> t <= t' ->
     pres i s ls s' ls' -> wp (rely i) (guar i) (p x) tr Q s') ->
  wp (rely i) (guar i) (bind (read_data l) p) tr Q s.
Proof.
  intros Hc Hd Hp. simpl. env Hc. apply (proj2 Ho) in Hd. destruct Hd as (n & -> & ->).
  exists None. split; [apply guar_refl|]. simpl. rewrite app_nil_r. eauto.
Qed.

Lemma retire_wp {A} i l k (p : unit -> prog queue A) tr Q s ls h t :
  chain s ls h t -> ls !! k = Some l -> k < h -> k < t ->
  (forall s' ls' h' t', chain s' ls' h' t' -> pres i s ls s' ls' ->
     wp (rely i) (guar i) (p tt) tr Q s') ->
  wp (rely i) (guar i) (bind (defer_destroy l) p) tr Q s.
Proof.
  intros Hc Hl ?? Hp. simpl. env Hc.
  pose proof (prefix_lookup_Some _ _ _ _ Hl Hpre) as Hl'.
  exists None. split; [eapply guar_retire; eauto; lia|]. simpl. rewrite app_nil_r.
  eapply Hp; [eapply chain_retire; eauto; lia|]. split; apply Ho.
Qed.

Lemma rely_inv i s s' : rely i s s' -> inv s -> inv s'.
Proof.
  intros Hr (ls & h & t & Hc).
  destruct (rely_chain _ _ _ _ _ _ Hr Hc) as (ls' & h' & t' & Hc' & _). by exists ls', h', t'.
Qed.

(** After winning the race for the head: the tail is moved off the old sentinel
    before it is retired, and the datum read is the one of the event. *)
Lemma pop_finish_wp {A} i head next k x (p : T -> prog queue A) tr Q s ls h t :
  chain s ls h t -> ls !! k = Some head -> ls !! S k = Some next -> k < h -> k <= t ->
  datum next x s ->
  (forall s', inv s' -> wp (rely i) (guar i) (p x) tr Q s') ->
  wp (rely i) (guar i) (bind (pop_finish head next) p) tr Q s.
Proof.
  intros Hc Hl Hl' Hh Ht Hd Hp. unfold pop_finish.
  assert (Hfin : forall s ls h t, chain s ls h t -> ls !! k = Some head -> k < h -> k < t ->
    datum next x s ->
    wp (rely i) (guar i) (bind (defer_destroy head ;; read_data next) p) tr Q s).
  { clear -Hp. intros s ls h t Hc Hl Hh Ht Hd.
    eapply retire_wp; [done..|]. intros s1 ls1 h1 t1 Hc1 Ho1.
    eapply read_data_wp; [done|by apply (proj2 Ho1)|].
    intros s2 ls2 h2 t2 Hc2 ????. apply Hp. by do 3 eexists. }
  eapply load_tail_wp; [done|]. intros s1 ls1 h1 t1 l Hc1 Hp1 ?? Ht1 Ho1.
  pose proof (prefix_lookup_Some _ _ _ _ Hl Hp1) as Hl1.
  pose proof (prefix_lookup_Some _ _ _ _ Hl' Hp1) as Hl1'.
  apply (proj2 Ho1) in Hd. destruct (decide (head = l)) as [->|Hne].
  - eapply (cas_tail_wp i l next k); [done..| |lia]. intros b s2 ls2 h2 t2 Hc2 Hp2 ??? Ho2.
    eapply Hfin; eauto using prefix_lookup_Some; [lia|]. by apply (proj2 Ho2).
  - eapply Hfin; eauto; [lia|].
    assert (t1 <> k) by congruence. lia.
Qed.

Lemma pop_internal_wp i tr s : inv s ->
  wp (rely i) (guar i) pop_internal tr (fun r tr' s' => inv s' /\
    match r with inl x => tr' = tr ++ [EPop x] | inr _ => tr' = tr end) s.
Proof.
  intros (ls & h & t & Hc). unfold pop_internal.
  eapply load_head_wp; [done|]. intros s1 ls1 h1 t1 head Hc1 Hh1 _.
  eapply load_next_wp; [done..|]. intros s2 ls2 h2 t2 Hc2 Hp2 ?? _.
  pose proof (prefix_lookup_Some _ _ _ _ Hh1 Hp2) as Hh2.
  pose proof (chain_lt_h _ _ _ _ Hc2) as Hlt.
  destruct (ls2 !! S h1) as [n|] eqn:En.
  2: { apply lookup_ge_None in En. assert (h2 = h1) as -> by lia.
    exists (Some (EPop None)). split; [eapply guar_empty; [done|]; by apply lookup_ge_None|].
    simpl. intros s3 Hr3. split; [|done]. eapply rely_inv; [done|]. by do 3 eexists. }
  exists None. split; [apply guar_refl|]. simpl option_list. rewrite app_nil_r.
  intros s3 Hr3. destruct (rely_chain _ _ _ _ _ _ Hr3 Hc2) as (ls3 & h3 & t3 & Hc3 & Hp3 & ?&?&Ho3).
  pose proof (prefix_lookup_Some _ _ _ _ Hh2 Hp3) as Hh3.
  pose proof (prefix_lookup_Some _ _ _ _ En Hp3) as En3.
  destruct (decide (q_head s3 = head)) as [E|E].
  - assert (h3 = h1) as -> by (eapply chain_lookup_inj; eauto; rewrite <- E; by apply Hc3).
    destruct (ch_next _ _ _ _ Hc3 _ _ En3) as (nd & Hnd & _).
    destruct (ch_data _ _ _ _ Hc3 (S h1) n nd ltac:(lia) En3 Hnd) as [x Hx].
    exists (Some (EPop (Some x))). split; [by eapply guar_head|].
    pose proof (chain_head _ _ _ _ _ Hc3 En3) as Hc4.
    pose proof (ch_lag _ _ _ _ Hc3). apply lookup_lt_Some in En3 as ?.
    eapply (pop_finish_wp i head n h1 x); eauto; [lia|by exists nd|].
    intros s4 Hi4 s5 Hr5. split; [|done]. by eapply rely_inv.
  - exists None. split; [apply guar_refl|]. simpl. rewrite app_nil_r.
    intros s4 Hr4. split; [|done]. eapply rely_inv; [done|]. by do 3 eexists.
Qed.

Lemma try_pop_wp i fuel tr s : inv s ->
  wp (rely i) (guar i) (try_pop fuel) tr (fun r tr' _ => tr' = tr ++ [EPop r]) s.
Proof.
  intros Hi. apply (wp_loop (rely i) (guar i) (fun _ tr' s' => tr' = tr /\ inv s')); [|done].
  clear. intros [] tr' s [-> Hi]. apply wp_bind; [apply _|].
  eapply wp_mono; [|by apply pop_internal_wp].
  intros [r|[]] tr' s' [Hi' ->]; simpl; intros s'' Hr.
  - by intros ??.
  - split; [done|]. by eapply rely_inv.
Qed.

(** ** Clients: threads that call the queue in any order *)
Inductive call := CPush (x : T) | CPop.
Definition exec (i fuel : nat) (c : call) : prog queue event :=
  match c with
  | CPush x => _ <- push i fuel x; Ret (EPush x)
  | CPop => r <- try_pop fuel; Ret (EPop r)
  end.
(** What a call that did this returns; [exec] returns it. *)
Definition answers (c : call) (e : event) : Prop :=
  match c, e with CPush x, EPush y => y = x | CPop, EPop _ => True | _, _ => False end.
(** A call has exactly one effect, the one it reports. *)
Definition returned (c : call) (e : event) (tr : list event) (_ : list (list T)) : Prop := answers c e /\ tr = [e].

Lemma inv_new : inv new.
Proof.
  exists [sentinel], 0, 0. constructor; simpl; try (done || lia).
  - apply NoDup_singleton.
  - intros [|i] l; simpl; [|done]. intros [= <-]. exists (mkNode None None).
    by rewrite lookup_singleton_eq.
  - intros [|i] l n ?; [lia|done].
  - intros l Hl. by apply not_elem_of_nil in Hl.
Qed.

(** The invariant can be added to any postcondition. *)
Lemma wp_inv {A} i (p : prog queue A) tr (Q : A -> list event -> queue -> Prop) s :
  inv s -> wp (rely i) (guar i) p tr Q s ->
  wp (rely i) (guar i) p tr (fun a tr' s' => Q a tr' s' /\ inv s') s.
Proof.
  revert tr s. induction p as [a|e|B f k IH]; simpl; intros tr s Hi H; [|done|].
  - intros s' Hr. split; [auto|]. by eapply rely_inv.
  - intros s' Hr. specialize (H s' Hr). destruct (f s') as [[b s'']|]; [|done].
    destruct H as (o & HG & H). exists o. split; [done|]. apply IH; [|done].
    destruct HG as [Hg _]. pose proof (rely_inv _ _ _ Hr Hi) as (ls & h & t & Hc).
    destruct (Hg _ _ _ Hc) as (ls' & h' & t' & Hc' & _). by exists ls', h', t'.
Qed.

Lemma exec_wp i fuel c tr s : inv s ->
  wp (rely i) (guar i) (exec i fuel c) tr (fun e tr' _ => answers c e /\ tr' = tr ++ [e]) s.
Proof.
  intros Hi. destruct c as [x|]; cbn [exec]; apply wp_bind; try apply _;
    (eapply wp_mono; [|first [by apply push_wp|by apply try_pop_wp]]).
  all: by intros r tr' s' -> s'' Hr.
Qed.

Definition next_of (s : queue) (l l' : loc) : Prop := q_mem s !! l ≫= n_next = Some l'.

Lemma chain_reach s ls h t k l l' :
  chain s ls h t -> ls !! k = Some l -> rtc (next_of s) l l' ->
  exists j, k <= j /\ ls !! j = Some l'.
Proof.
  intros Hc Hk Hr. revert k Hk. induction Hr as [l|l l1 l' Hn _ IH]; intros k Hk; [by exists k|].
  destruct (ch_next _ _ _ _ Hc k l Hk) as (n & E & Hnx).
  unfold next_of in Hn. rewrite E in Hn. simpl in Hn. rewrite Hn in Hnx.
  destruct (IH (S k)) as (j & ? & ?); [done|]. exists j. split; [lia|done].
Qed.

(** A step of a thread is a step of the sequential queue, or none. *)
Lemma guar_contents i o s s' x : guar i o s s' -> inv s /\ x = contents s -> exists x', effect spec o x x' /\ (inv s' /\ x' = contents s').
Proof.
  intros [Hg Ho] [(ls & h & t & Hc) ->]. destruct (Hg _ _ _ Hc) as (ls' & h' & t' & Hc' & _).
  exists (contents s'). split; [by destruct o|]. split; [by exists ls', h', t'|done].
Qed.

(** C9. The queue is linearizable: every execution of any number of threads that call [push] and [try_pop]
    whenever they like is one of an atomic queue, in which each call takes effect once, between its
    beginning and its return, as the sequential queue does, and returns what that effect gives; the
    contents of the queue are those of the atomic one.  No thread dereferences a dangling or
    uninitialised node, and a node handed to [defer_destroy] is reachable neither from the head
    nor from the tail. *)
Theorem queue_linearizable fuel ls P s : hrun (fun i c => exec i fuel c) ls (∅, new) (P, s) ->
  (exists X, orun spec returned ls (∅, []) (X, contents s)) /\
  (forall i c p, P !! i = Some (c, p) -> faultless p s) /\
  (forall l, l ∈ q_retired s -> ~ rtc (next_of s) (q_head s) l /\ ~ rtc (next_of s) (q_tail s) l).
Proof.
  intros Hr. set (A := fun s x => inv s /\ x = contents s). set (Q := fun (_ : nat) c (_ : queue) e tr (_ : queue) => answers c e /\ tr = [] ++ [e]).
  destruct (linear_sound (fun i c => exec i fuel c) spec returned rely guar A Q _ guar_rely guar_contents) with (ls := ls) (s := new) (x := @nil T) (P' := P) (s' := s)
    as (X & x & Ho & [(ns & h & t & Hc) ->] & Hf); [|by intros ????????? _ [? ?]|by split; [apply inv_new|]|done|].
  - intros i c s0 x [Hi _]. by apply exec_wp.
  - split; [by exists X|]. split; [done|]. intros l (j & Hj & ? & ?)%(ch_retired _ _ _ _ Hc). split; intros Hl.
    + destruct (chain_reach _ _ _ _ _ _ _ Hc (ch_head _ _ _ _ Hc) Hl) as (j' & ? & Hj').
      pose proof (chain_lookup_inj _ _ _ _ _ _ _ Hc Hj Hj'). lia.
    + destruct (chain_reach _ _ _ _ _ _ _ Hc (ch_tail _ _ _ _ Hc) Hl) as (j' & ? & Hj').
      pose proof (chain_lookup_inj _ _ _ _ _ _ _ Hc Hj Hj'). lia.
Qed.

(** ** Running alone

    Without interference a push needs at most two rounds (one to help a lagging
    tail), a pop needs one. *)
Lemma run_push_ok i x s : inv s -> exists s', run (push i 2 x) s = Ok (tt, s').
Proof.
  intros (ls & h & t & Hc). unfold push. simpl.
  pose proof (fresh_loc_not_in i (q_mem s)) as Hf.
  destruct (chain_alloc _ _ _ _ _ (mkNode (Some x) None) Hc Hf) as [Hc1 Hni].
  set (new := fresh_loc i (q_mem s)) in *. set (s1 := with_mem _ s) in *.
  destruct (ch_next _ _ _ _ Hc1 t _ (ch_tail _ _ _ _ Hc1)) as (n & E & Hn).
  change (q_tail s1) with (q_tail s) in E. change (q_mem s1) with (<[new:=mkNode (Some x) None]> (q_mem s)) in E.
  rewrite E. destruct (n_next n) as [l|] eqn:En; simpl.
  - rewrite decide_True by done. simpl.
    pose proof (chain_tail _ _ _ _ _ Hc1 (eq_sym Hn)) as Hc2.
    destruct (ch_next _ _ _ _ Hc2 (S t) l ltac:(done)) as (n2 & E2 & Hn2).
    simpl in E2. rewrite E2. pose proof (ch_lag _ _ _ _ Hc1).
    rewrite lookup_ge_None_2 in Hn2 by lia. rewrite Hn2. simpl. rewrite E2, Hn2. simpl.
    rewrite decide_True by done. eauto.
  - rewrite E, En. simpl. rewrite decide_True by done. eauto.
Qed.

Lemma run_pop_ok s : inv s -> exists r s', run (try_pop 1) s = Ok (r, s').
Proof.
  intros Hi. pose proof (wp_run _ _ _ _ _ _ 0 (try_pop_wp 0 1 [] s Hi)) as Hw.
  destruct (run (try_pop 1) s) as [[r s']|e] eqn:E; [by eauto|]. subst e. exfalso.
  destruct Hi as (ls & h & t & Hc). revert E.
  unfold try_pop, retry. simpl. destruct (ch_next _ _ _ _ Hc h _ (ch_head _ _ _ _ Hc)) as (n & E & Hn).
  rewrite E. destruct (n_next n) as [l|]; simpl; [|done]. rewrite decide_True by done. simpl.
  destruct (decide (q_head s = q_tail s)) as [Ht|Ht]; simpl;
    destruct (ch_next _ _ _ _ Hc (S h) l ltac:(done)) as (nd & End & _);
    destruct (ch_data _ _ _ _ Hc (S h) l nd ltac:(lia) ltac:(done) End) as [x Hx].
  - rewrite decide_True by done. simpl. by rewrite End, Hx.
  - by rewrite End, Hx.
Qed.

Lemma queue_gsteps i s t s' : gsteps (fun _ => guar i) s t s' ->
  runs spec (contents s) (t.*2) (contents s').
Proof. apply gsteps_runs; [by intros ??? [_ H]|by intros ???? [_ H]]. Qed.

Lemma runs_one e x y : runs spec x [e] y -> spec e x y.
Proof. intros H. inversion H as [|? ? z ? ? Hs Hr]; subst. inversion Hr; by subst. Qed.

(** Functional behaviour without interference: a push appends, a pop returns and
    removes the front and returns [None] exactly on the empty queue; both return. *)
Theorem queue_sequential i x s : inv s ->
  (exists s', run (push i 2 x) s = Ok (tt, s') /\ contents s' = contents s ++ [x] /\ inv s') /\
  (exists s', run (try_pop 1) s = Ok (head (contents s), s') /\ contents s' = tail (contents s)
              /\ inv s').
Proof.
  intros Hi. split.
  - destruct (run_push_ok i x s Hi) as [s' E]. exists s'. split; [done|].
    pose proof (wp_run _ _ _ _ _ _ i (wp_inv _ _ _ _ _ Hi (push_wp i 2 x [] s Hi))) as Hw.
    rewrite E in Hw. destruct Hw as (t & Ht & Et & Hi'). simpl in Et. subst t. split; [|done].
    apply queue_gsteps, runs_one in Ht. simpl in Ht. by inversion Ht.
  - destruct (run_pop_ok s Hi) as (r & s' & E). exists s'.
    pose proof (wp_run _ _ _ _ _ _ i (wp_inv _ _ _ _ _ Hi (try_pop_wp i 1 [] s Hi))) as Hw.
    rewrite E in Hw. destruct Hw as (t & Ht & Et & Hi'). simpl in Et. subst t.
    apply queue_gsteps, runs_one in Ht. simpl in Ht. rewrite E.
    remember (contents s) as c eqn:Ec. remember (contents s') as c' eqn:Ec'.
    by inversion Ht; subst.
Qed.
End queue.

Arguments node T : clear implicits.
Arguments queue T : clear implicits.
Arguments event T : clear implicits.

(** ** A concrete execution: thread 2 pops while thread 0 has linked its node and not yet swung
    the tail, and helps it; thread 1 has found the queue empty before, in a call that returns later *)
Definition sample_moves : list (move (C := call (T := nat))) :=
  [MCall 1 CPop; MCall 0 (CPush 7); MGo 1; MGo 1] ++ replicate 4 (MGo 0) ++ MCall 2 CPop :: replicate 8 (MGo 2) ++
  [MGo 1; MGo 0; MGo 0; MGo 0].
Definition sample_execution := hplay (fun i c => exec i 9 c) sample_moves (∅, new).
Lemma queue_execution_history : history sample_execution.1 =
  [LCall 1 CPop; LCall 0 (CPush 7); LCall 2 CPop; LRet 2 (EPop (Some 7)); LRet 1 (EPop None); LRet 0 (EPush 7)].
Proof. vm_compute. reflexivity. Qed.
Lemma queue_linearizable_witness : exists X, orun spec returned sample_execution.1 (∅, []) (X, contents sample_execution.2.2).
Proof.
  refine (proj1 (queue_linearizable 9 sample_execution.1 sample_execution.2.1 sample_execution.2.2 _)).
  rewrite <- surjective_pairing. apply hplay_hrun.
Defined.
Lemma queue_sequential_witness :
  inv (new (T := nat)) /\ exists s', run (push 0 2 7) new = Ok (tt, s') /\ contents s' = [7].
Proof.
  split; [exact inv_new|].
  destruct (queue_sequential 0 7 new inv_new) as [(s' & E & Ec & _) _]. exists s'. exact (conj E Ec).
Defined.
