(* ===== verification/HashSet.v ===== *)
(** * The fixed-capacity hash set ([src/sync/hash_set.rs])

    [FixedHashSet<T, N>]: open addressing with linear probing over [N] atomic
    pointers that go from null to an entry once.  Entries are never moved, so the
    reference the code returns is the index of the slot.  [T]'s [Eq] and [Hash] look
    at a key of the entry only, as those of [TypeReg] do.

    [hash + i] is [checked_add]: it panics on overflow, which hashes near the top of
    [usize] reach. *)
From S2P Require Import Prelude Prog.
#[local] Open Scope nat_scope.
#[local] Open Scope prog_scope.

Definition is_full_panic (e : stop) : Prop := e = Panic "FixedHashSet is full".
Definition is_overflow_panic (e : stop) : Prop := e = Panic "attempt to add with overflow".

Section hashset.
Context {T K : Type} `{!EqDecision K} (key_of : T -> K) (hash_key : K -> Z) (N : nat).

(** [slots: [AtomicPtr<T>; N]], a null pointer is [None]. *)
#[local] Abbreviation hset := (list (option T)).

(** [const fn new]: the two assertions on the capacity. *)
Definition new : res hset :=
  if (0 <? N)%nat then
    if (Z.land (Z.of_nat N) (Z.of_nat N - 1) =? 0)%Z then Ok (replicate N None)
    else Stopped (Panic "FixedHashSet capacity must be a power of two")
  else Stopped (Panic "FixedHashSet capacity must be positive").

Definition mask : Z := (Z.of_nat N - 1)%Z.
Definition load (idx : nat) : prog hset (option T) :=
  atomic (fun s => match s !! idx with
                   | Some p => Ok (p, s)
                   | None => Stopped (Panic "index out of bounds")
                   end).
(** [compare_exchange(null, allocated)]: [None] on success, [Some winner] otherwise. *)
Definition cas_null (idx : nat) (allocated : T) : prog hset (option T) :=
  atomic (fun s => match s !! idx with
                   | Some None => Ok (None, <[idx := Some allocated]> s)
                   | Some (Some winner) => Ok (Some winner, s)
                   | None => Stopped (Panic "index out of bounds")
                   end).

Inductive probed := Found (idx : nat) | NullAt (idx : nat) | NoNull.

(** The hot path: [for i in 0..N]. *)
Definition probe (key : T) : prog hset probed :=
  let hash := hash_key (key_of key) in
  loop (S N) (fun i =>
    if (N <=? i)%nat then Ret (inr NoNull) else
    a <- checked_add hash (Z.of_nat i) ;
    let idx := Z.to_nat (Z.land a mask) in
    ptr <- load idx ;
    match ptr with
    | None => Ret (inr (NullAt idx))
    | Some existing =>
        if decide (key_of existing = key_of key) then Ret (inr (Found idx)) else Ret (inl (S i))
    end) 0.

Definition next_idx (idx : nat) : nat := Z.to_nat (Z.land (Z.of_nat idx + 1) mask).

(** The cold path: an unbounded loop, [fuel] rounds of it. *)
Definition claim (fuel : nat) (allocated : T) (idx : nat) : prog hset (nat * bool) :=
  loop fuel (fun idx =>
    ptr <- load idx ;
    match ptr with
    | None =>
        r <- cas_null idx allocated ;
        match r with
        | None => Ret (inr (idx, true))
        | Some winner =>
            if decide (key_of winner = key_of allocated) then Ret (inr (idx, false))
            else Ret (inl (next_idx idx))
        end
    | Some existing =>
        if decide (key_of existing = key_of allocated) then Ret (inr (idx, false))
        else Ret (inl (next_idx idx))
    end) idx.

Definition get_or_insert (fuel : nat) (key : T) : prog hset (nat * bool) :=
  p <- probe key ;
  match p with
  | Found idx => Ret (idx, false)
  | NullAt idx => claim fuel key idx
  | NoNull => Stop (Panic "FixedHashSet is full")
  end.

(** The test-only [insert] and [contains]. *)
Definition insert (fuel : nat) (key : T) : prog hset bool :=
  r <- get_or_insert fuel key ; Ret (snd r).
Definition contains (key : T) : prog hset bool :=
  p <- probe key ; Ret (match p with Found _ => true | _ => false end).

(** ** Invariant

    An entry with key [k] sits [d] places after the home of [k], and all places
    before are taken by entries with other keys. *)
Definition home (k : K) : nat := Z.to_nat (hash_key k mod Z.of_nat N).
Definition pos (k : K) (d : nat) : nat := (home k + d) mod N.
Definition covered (s : hset) (k : K) (d : nat) : Prop :=
  forall d', d' < d -> exists e, s !! pos k d' = Some (Some e) /\ key_of e <> k.
Definition inv (s : hset) : Prop :=
  length s = N /\
  forall j e, s !! j = Some (Some e) ->
    exists d, d < N /\ j = pos (key_of e) d /\ covered s (key_of e) d.
Definition has (s : hset) (k : K) : Prop := exists j e, s !! j = Some (Some e) /\ key_of e = k.
(** Probing for [k] goes over taken slots until [hash + d] does not fit in [usize]. *)
Definition overflows (s : hset) (k : K) : Prop := exists d, d < N /\ (wmod <= hash_key k + Z.of_nat d)%Z /\ covered s k d.
(** The two panics of a call, and what the table is then. *)
Definition panics (s : hset) (k : K) (x : stop) : Prop :=
  (is_full_panic x /\ covered s k N) \/ (is_overflow_panic x /\ overflows s k).
Definition ext (s s' : hset) : Prop :=
  length s' = length s /\ forall j e, s !! j = Some (Some e) -> s' !! j = Some (Some e).

Context (n : nat) (HN : N = 2 ^ n).
(** Hashes are of type [usize]. *)
Context (hash_ok : forall k, (0 <= hash_key k < wmod)%Z).

Lemma N_pos : 0 < N.
Proof using HN. rewrite HN. apply Nat.neq_0_lt_0, Nat.pow_nonzero. lia. Qed.
Lemma land_mask x : (0 <= x)%Z -> Z.land x mask = (x mod Z.of_nat N)%Z.
Proof using HN.
  intros. unfold mask. rewrite HN, Nat2Z.inj_pow. change (Z.of_nat 2) with 2%Z.
  rewrite <- (Z.land_ones x (Z.of_nat n)) by lia. f_equal. rewrite Z.ones_equiv. lia.
Qed.
Lemma idx_pos k d : Z.to_nat (Z.land (hash_key k + Z.of_nat d) mask) = pos k d.
Proof using HN hash_ok.
  pose proof N_pos. destruct (hash_ok k). rewrite land_mask by lia.
  unfold pos, home. rewrite <- Zplus_mod_idemp_l.
  assert (0 <= hash_key k mod Z.of_nat N)%Z by (apply Z.mod_pos_bound; lia).
  rewrite <- (Z2Nat.id (hash_key k mod Z.of_nat N)) at 1 by done.
  by rewrite <- Nat2Z.inj_add, <- Nat2Z.inj_mod, Nat2Z.id.
Qed.
Lemma next_pos k d : next_idx (pos k d) = pos k (S d).
Proof using HN.
  pose proof N_pos. unfold next_idx. rewrite land_mask by lia.
  replace (Z.of_nat (pos k d) + 1)%Z with (Z.of_nat (pos k d + 1)) by lia.
  rewrite <- Nat2Z.inj_mod, Nat2Z.id. unfold pos.
  rewrite Nat.Div0.add_mod_idemp_l. f_equal. lia.
Qed.
Lemma pos_lt k d : pos k d < N.
Proof using HN. pose proof N_pos. apply Nat.mod_upper_bound. lia. Qed.
Lemma pos_wrap k d : N <= d -> pos k d = pos k (d - N).
Proof using HN.
  intros. pose proof N_pos. unfold pos. replace (home k + d) with (home k + (d - N) + 1 * N) by lia.
  by rewrite Nat.Div0.mod_add.
Qed.
Lemma pos_all k j : j < N -> exists d, d < N /\ j = pos k d.
Proof using HN.
  intros. pose proof N_pos. exists ((j + (N - home k mod N)) mod N).
  assert (home k mod N < N) by (apply Nat.mod_upper_bound; lia).
  split; [apply Nat.mod_upper_bound; lia|]. unfold pos.
  rewrite Nat.Div0.add_mod_idemp_r.
  rewrite <- Nat.Div0.add_mod_idemp_l.
  replace (home k mod N + (j + (N - home k mod N))) with (j + 1 * N) by lia.
  rewrite Nat.Div0.mod_add. by rewrite Nat.mod_small.
Qed.

Lemma ext_covered s s' k d : ext s s' -> covered s k d -> covered s' k d.
Proof. intros [_ He] Hc d' Hd. destruct (Hc d' Hd) as (e & ? & ?). eauto. Qed.
Lemma covered_S s k d e : covered s k d -> s !! pos k d = Some (Some e) -> key_of e <> k ->
  covered s k (S d).
Proof.
  intros Hc He Hk d' Hd. destruct (decide (d' = d)) as [->|]; [by eauto|]. apply Hc. lia.
Qed.
Lemma ext_panics s s' k x : ext s s' -> panics s k x -> panics s' k x.
Proof.
  intros He [[Hx Hc]|[Hx (d & Hd & Hw & Hc)]]; [left; split; [done|by eapply ext_covered]|].
  right. split; [done|]. exists d. split; [done|]. split; [done|by eapply ext_covered].
Qed.
(** The table of a call that found it full. *)
Lemma covered_full s k : covered s k N -> forall j, j < N -> exists e', s !! j = Some (Some e') /\ key_of e' <> k.
Proof using HN. intros Hc j Hj. destruct (pos_all k j Hj) as (d & Hd & ->). by apply Hc. Qed.

(** A key has one entry. *)
Lemma inv_unique s j1 j2 e1 e2 : inv s ->
  s !! j1 = Some (Some e1) -> s !! j2 = Some (Some e2) -> key_of e1 = key_of e2 -> j1 = j2.
Proof.
  intros [_ Hs] H1 H2 Hk.
  destruct (Hs _ _ H1) as (d1 & _ & -> & C1). destruct (Hs _ _ H2) as (d2 & _ & -> & C2).
  rewrite Hk in *. f_equal. destruct (Nat.lt_trichotomy d1 d2) as [Hlt|[E|Hlt]]; [|done|].
  - destruct (C2 d1 Hlt) as (e & E & Hne). congruence.
  - destruct (C1 d2 Hlt) as (e & E & Hne). congruence.
Qed.

(** At a null slot that ends the probe sequence the key is absent, and writing the
    entry there keeps the invariant. *)
Lemma covered_null s k d : inv s -> covered s k d -> s !! pos k d = Some None -> d < N /\ ~ has s k.
Proof using HN.
  intros [_ Hs] Hc Hnull. split.
  - destruct (Nat.lt_ge_cases d N) as [|Hge]; [done|]. exfalso.
    pose proof N_pos. rewrite pos_wrap in Hnull by done.
    destruct (Hc (d - N)) as (e & E & _); [lia|]. congruence.
  - intros (j & e & Hj & <-). destruct (Hs _ _ Hj) as (d' & _ & -> & C).
    destruct (Nat.lt_trichotomy d d') as [Hlt|[E|Hlt]].
    + destruct (C d Hlt) as (e' & E & _). congruence.
    + congruence.
    + destruct (Hc d' Hlt) as (e' & E & Hne). congruence.
Qed.
Lemma insert_ext s j e : s !! j = Some None -> ext s (<[j := Some e]> s).
Proof.
  intros Hj. split; [by rewrite length_insert|]. intros j' e' Hj'.
  rewrite list_lookup_insert_ne; [done|congruence].
Qed.
Lemma insert_inv s d e : inv s -> covered s (key_of e) d ->
  s !! pos (key_of e) d = Some None -> inv (<[pos (key_of e) d := Some e]> s).
Proof using HN.
  intros Hi Hc Hnull. pose proof (insert_ext _ _ e Hnull) as Hext.
  destruct (covered_null _ _ _ Hi Hc Hnull) as [Hd _]. destruct Hi as [Hlen Hs].
  split; [by rewrite length_insert|]. intros j e' Hj.
  apply list_lookup_insert_Some in Hj as [(Ej & E & _)|[_ Hj]].
  - injection E as E. subst e' j. exists d. split; [done|]. split; [done|]. by eapply ext_covered.
  - destruct (Hs _ _ Hj) as (d' & ? & ? & ?). exists d'.
    split; [done|]. split; [done|]. by eapply ext_covered.
Qed.

(** ** Rely and guarantee; the events are the insertions.  [own] restricts the entries
    a thread may insert. *)
Definition rely (s s' : hset) : Prop := ext s s' /\ (inv s -> inv s').
Definition guar (own : T -> Prop) (o : option (T * nat)) (s s' : hset) : Prop :=
  match o with
  | None => s' = s
  | Some (e, j) => own e /\ s !! j = Some None /\ s' = <[j := Some e]> s /\
      (inv s -> inv s' /\ ~ has s (key_of e))
  end.
#[export] Instance rely_preorder : PreOrder rely.
Proof.
  split; [by intros s|]. intros s1 s2 s3 [[L1 E1] I1] [[L2 E2] I2].
  split; [split; [congruence|]|]; eauto.
Qed.
Lemma hset_guar_rely own o s s' : guar own o s s' -> rely s s'.
Proof.
  destruct o as [[e j]|]; simpl.
  - intros (_ & Hj & -> & Hi). split; [by apply insert_ext|]. intros H. by apply Hi.
  - intros ->. reflexivity.
Qed.

Lemma load_wp {A} own idx (k : option T -> prog hset A) tr Q s :
  inv s -> idx < N ->
  (forall p s', rely s s' -> inv s' -> s' !! idx = Some p -> wp rely (guar own) (catch (k p)) tr Q s') ->
  wp rely (guar own) (catch (bind (load idx) k)) tr Q s.
Proof.
  intros Hi Hlt Hk. simpl. intros s' [He Hi']. specialize (Hi' Hi).
  destruct (s' !! idx) as [p|] eqn:E; [|apply lookup_ge_None in E; destruct Hi'; lia].
  exists None. split; [done|]. simpl. rewrite app_nil_r. apply Hk; [|done..]. by split.
Qed.

Lemma rely_covered s s' k d : rely s s' -> covered s k d -> covered s' k d.
Proof. intros [He _]. by apply ext_covered. Qed.

(** What a call returns. *)
Definition got (e : T) (r : res (nat * bool)) (tr : list (T * nat)) (s : hset) : Prop :=
  match r with
  | Ok (j, b) => inv s /\ if b then s !! j = Some (Some e) /\ tr = [(e, j)]
                 else tr = [] /\ exists e', s !! j = Some (Some e') /\ key_of e' = key_of e
  | Stopped x => tr = [] /\ inv s /\ panics s (key_of e) x
  end.
Lemma got_stable e r tr s s' : rely s s' -> got e r tr s -> got e r tr s'.
Proof.
  intros [Hext Hi]. destruct r as [[j []]|x]; simpl.
  - intros (? & ? & ?). split; [auto|]. split; [|done]. by apply Hext.
  - intros (? & ? & e' & ? & ?). split; [auto|]. split; [done|]. exists e'. split; [|done]. by apply Hext.
  - intros (? & ? & ?). split_and!; [done|auto|by eapply ext_panics].
Qed.

Lemma claim_wp own fuel e d s : own e -> inv s -> covered s (key_of e) d ->
  wp rely (guar own) (catch (claim fuel e (pos (key_of e) d))) [] (got e) s.
Proof using HN.
  intros Ho Hi Hc.
  apply (wp_catch_loop rely (guar own) (fun idx tr s => tr = [] /\ inv s /\
    exists d, idx = pos (key_of e) d /\ covered s (key_of e) d)); [|by eauto 10].
  clear d s Hi Hc. intros idx tr s (-> & Hi & d & -> & Hc).
  assert (Hnext : forall s e', inv s -> covered s (key_of e) d -> s !! pos (key_of e) d = Some (Some e') ->
    forall s', rely s s' -> 
    match (if decide (key_of e' = key_of e) then inr (pos (key_of e) d, false)
           else inl (next_idx (pos (key_of e) d))) with
    | inl idx => @nil (T * nat) = [] /\ inv s' /\ exists d, idx = pos (key_of e) d /\ covered s' (key_of e) d
    | inr r => wp rely (guar own) (Ret (Ok r)) [] (got e) s'
    end).
  { clear s Hi Hc. intros s e' Hi Hc E s' Hr.
    assert (Hi' : inv s') by by apply Hr.
    destruct (decide (key_of e' = key_of e)) as [Ek|Ek].
    - intros s'' Hr'. eapply got_stable; [done|]. split; [done|]. split; [done|].
      exists e'. split; [by apply Hr|done].
    - split; [done|]. split; [done|]. exists (S d). split; [apply next_pos|].
      eapply ext_covered; [apply Hr|]. by eapply covered_S. }
  apply load_wp; [done|apply pos_lt|]. intros [e'|] s1 Hr1 Hi1 E.
  - pose proof (Hnext s1 e' Hi1 (ext_covered _ _ _ _ (proj1 Hr1) Hc) E) as Hn.
    by destruct (decide (key_of e' = key_of e)).
  - apply wp_catch_bind; [apply _|]. simpl. intros s2 Hr2.
    assert (Hi2 : inv s2) by by apply Hr2.
    assert (Hc2 : covered s2 (key_of e) d) by eauto using rely_covered.
    assert (Hlt : pos (key_of e) d < length s2) by (destruct Hi2 as [-> _]; apply pos_lt).
    apply lookup_lt_is_Some in Hlt as [[e'|] E2]; rewrite E2.
    + exists None. split; [done|]. simpl. intros s3 Hr3.
      pose proof (Hnext s2 e' Hi2 Hc2 E2) as Hn.
      destruct (decide (key_of e' = key_of e)); intros s4 Hr4; apply Hn; by etransitivity.
    + pose proof (insert_inv _ _ _ Hi2 Hc2 E2) as Hi3.
      exists (Some (e, pos (key_of e) d)). split.
      { split; [done|]. split; [done|]. split; [done|]. intros _. split; [done|]. by eapply covered_null. }
      simpl. intros s3 Hr3 s4 Hr4 s5 Hr5.
      apply (got_stable e (Ok (pos (key_of e) d, true)) _ (<[pos (key_of e) d:=Some e]> s2)).
      { do 2 (etransitivity; [eassumption|]). done. }
      split; [done|]. split; [|done]. rewrite list_lookup_insert_eq; [done|]. by eapply lookup_lt_Some.
Qed.

Lemma probe_wp own e s : inv s ->
  wp rely (guar own) (catch (probe e)) [] (fun r tr s' => tr = [] /\ inv s' /\
    match r with
    | Ok (Found j) => exists e', s' !! j = Some (Some e') /\ key_of e' = key_of e
    | Ok (NullAt j) => exists d, j = pos (key_of e) d /\ covered s' (key_of e) d
    | Ok NoNull => covered s' (key_of e) N
    | Stopped x => is_overflow_panic x /\ overflows s' (key_of e)
    end) s.
Proof using HN hash_ok.
  intros Hi.
  apply (wp_catch_loop rely (guar own) (fun i tr s => tr = [] /\ inv s /\ i <= N /\ covered s (key_of e) i)).
  2: { split; [done|]. split; [done|]. split; [lia|]. intros d Hd. lia. }
  clear s Hi. intros i tr s (-> & Hi & Hle & Hc).
  destruct (Nat.leb_spec N i).
  { simpl. intros s1 Hr1 s2 Hr2. assert (i = N) as -> by lia. split; [done|].
    split; [by apply Hr2, Hr1|]. eauto using rely_covered. }
  unfold checked_add. destruct (Z.ltb_spec (hash_key (key_of e) + Z.of_nat i) wmod) as [Hlt|Hge].
  2: { simpl. intros s1 Hr1 s2 Hr2. split; [done|]. split; [by apply Hr2, Hr1|]. split; [done|]. exists i.
       split; [lia|]. split; [done|]. eauto using rely_covered. }
  cbn [bind]. rewrite idx_pos. apply load_wp; [done|apply pos_lt|].
  intros [e'|] s1 Hr1 Hi1 E; [destruct (decide (key_of e' = key_of e))|]; simpl; intros s2 Hr2.
  - intros s3 Hr3. split; [done|]. split; [by apply Hr3, Hr2|]. exists e'.
    split; [by apply Hr3, Hr2|done].
  - split; [done|]. split; [by apply Hr2|]. split; [lia|]. eapply ext_covered; [apply Hr2|].
    eapply covered_S; eauto using rely_covered.
  - intros s3 Hr3. split; [done|]. split; [by apply Hr3, Hr2|]. exists i. split; [done|].
    eauto using rely_covered.
Qed.

Lemma get_or_insert_wp own fuel e s : own e -> inv s ->
  wp rely (guar own) (catch (get_or_insert fuel e)) [] (got e) s.
Proof using HN hash_ok.
  intros Ho Hi. apply wp_catch_bind; [apply _|]. eapply wp_mono; [|by apply probe_wp].
  intros [[j|j|]|x] tr s' (-> & Hi' & H).
  - intros s2 Hr. by apply (got_stable e (Ok (j, false)) [] s').
  - destruct H as (d & -> & Hc). by apply claim_wp.
  - intros s2 Hr. apply (got_stable e (Stopped (Panic "FixedHashSet is full")) [] s'); [done|]. split; [done|]. split; [done|by left].
  - intros s2 Hr. apply (got_stable e (Stopped x) [] s'); [done|]. split; [done|]. split; [done|by right].
Qed.

(** ** Every interleaving *)
Lemma gsteps_inv own s t s' : gsteps (fun _ => guar own) s t s' -> inv s ->
  inv s' /\ ext s s' /\ NoDup ((fun x => key_of x.2.1) <$> t) /\
  (forall x, x ∈ t -> ~ has s (key_of x.2.1) /\ s' !! x.2.2 = Some (Some x.2.1)) /\
  (forall j e, s' !! j = Some (Some e) -> s !! j = Some (Some e) \/ exists i, (i, (e, j)) ∈ t).
Proof.
  induction 1 as [s|i o s1 s2 t s3 HG _ IH]; intros Hi.
  - split; [done|]. split; [done|]. split; [constructor|]. split; [|by left].
    intros x Hx. by apply not_elem_of_nil in Hx.
  - pose proof (hset_guar_rely _ _ _ _ HG) as Hr.
    destruct (IH (proj2 Hr Hi)) as (Hi' & He & Hnd & Hin & Hout). destruct Hr as [He12 _].
    assert (He13 : ext s1 s3).
    { split; [destruct He, He12; congruence|]. intros. by apply He, He12. }
    split; [done|]. split; [done|]. destruct o as [[e j]|]; simpl in HG |- *.
    2: { subst s2. split; [done|]. split; [apply Hin|apply Hout]. }
    destruct HG as (_ & Hj & -> & HG). destruct (HG Hi) as [Hi2 Hnew].
    assert (Hlt : j < length s1) by by eapply lookup_lt_Some.
    assert (Hhas : has (<[j:=Some e]> s1) (key_of e)).
    { exists j, e. by rewrite list_lookup_insert_eq. }
    split; [constructor; [|done]|split].
    + rewrite list_elem_of_fmap. intros (x & Ex & Hx).
      destruct (Hin x Hx) as [Hno _]. by rewrite <- Ex in Hno.
    + intros x [->|Hx]%elem_of_cons; simpl.
      * split; [done|]. apply He. by rewrite list_lookup_insert_eq.
      * destruct (Hin x Hx) as [Hno ?]. split; [|done]. intros (j' & e' & Hj' & E). apply Hno.
        exists j', e'. split; [by apply He12|done].
    + intros j' e' Hj'. destruct (Hout j' e' Hj') as [H|[i' H]].
      * apply list_lookup_insert_Some in H as [(-> & [= ->] & _)|[_ H]]; [|by left].
        right. exists i. by left.
      * right. exists i'. by right.
Qed.

Lemma proj_elem {Ev} i (t : list (nat * Ev)) x : x ∈ proj i t <-> (i, x) ∈ t.
Proof.
  unfold proj. rewrite list_elem_of_fmap. split.
  - intros ([i' y] & -> & [E ?]%list_elem_of_filter). simpl in *. by subst.
  - intros H. exists (i, x). split; [done|]. by apply list_elem_of_filter.
Qed.

(** C20. Threads that each insert one key, interleaved in any way.  The table stays a
    valid probing table without duplicates; a call returns a slot that holds its
    key, callers of one key get the same slot, at most one of them is told that it
    inserted, and only a key that was absent is inserted.  A call panics in two cases only:
    the table is full of other keys, or probing for the key goes over slots of other keys
    until [hash + d] overflows [usize]. *)
Theorem hashset_unique fuel (es : list T) s ps' s' : inv s ->
  rtc pstep (imap (fun _ e => catch (get_or_insert fuel e)) es, s) (ps', s') ->
  inv s' /\ ext s s' /\
  (forall i e, ps' !! i = Some (Stop e) -> e = OutOfFuel) /\
  (forall i e r, es !! i = Some e -> ps' !! i = Some (Ret r) ->
     match r with
     | Ok (j, b) => (exists e', s' !! j = Some (Some e') /\ key_of e' = key_of e) /\
                    (b = true -> s' !! j = Some (Some e) /\ ~ has s (key_of e))
     | Stopped x =>
         (is_full_panic x /\ forall j, j < N -> exists e', s' !! j = Some (Some e') /\ key_of e' <> key_of e) \/
         (is_overflow_panic x /\ overflows s' (key_of e))
     end) /\
  (forall i1 i2 e1 e2 j1 j2 b1 b2,
     es !! i1 = Some e1 -> ps' !! i1 = Some (Ret (Ok (j1, b1))) ->
     es !! i2 = Some e2 -> ps' !! i2 = Some (Ret (Ok (j2, b2))) -> key_of e1 = key_of e2 ->
     j1 = j2 /\ (b1 = true -> b2 = true -> i1 = i2)).
Proof using HN hash_ok.
  intros Hi Hrtc.
  apply (pool_sound (fun _ => rely) (fun _ => guar (fun _ => True))
    (fun i r tr s => forall e, es !! i = Some e -> got e r tr s) _ _ _ _ (fun _ => []))
    in Hrtc as (t & Ht & Hend); [|apply _|by intros; eapply hset_guar_rely|].
  2: { intros i p Hp. rewrite list_lookup_imap in Hp. destruct (es !! i) as [e|] eqn:Ee; simplify_eq/=.
    eapply wp_mono; [|by apply get_or_insert_wp]. intros r tr s1 Hg e' ?. by simplify_eq. }
  destruct (gsteps_inv _ _ _ _ Ht Hi) as (Hi' & He & Hnd & Hin & _).
  assert (Hgot : forall i e r, es !! i = Some e -> ps' !! i = Some (Ret r) -> got e r (proj i t) s').
  { intros i e r Hes Hp. apply Hend, wp_ret_now in Hp; [|apply _]. by apply Hp. }
  split; [done|]. split; [done|]. split; [|split].
  - intros i e Hp. by eapply Hend, wp_stop in Hp.
  - intros i e [[j b]|x] Hes Hp; apply (Hgot _ _ _ Hes) in Hp.
    + destruct Hp as [_ Hp]. destruct b.
      * destruct Hp as [Hj Hpr]. split; [by exists e|]. intros _. split; [done|].
        assert ((i, (e, j)) ∈ t) as Hx by (apply proj_elem; rewrite Hpr; by left).
        by apply Hin in Hx as [? _].
      * by destruct Hp.
    + destruct Hp as (_ & _ & [[? Hc]|?]); [left|by right]. split; [done|by apply covered_full].
  - intros i1 i2 e1 e2 j1 j2 b1 b2 Hes1 Hp1 Hes2 Hp2 Hk.
    apply (Hgot _ _ _ Hes1) in Hp1. apply (Hgot _ _ _ Hes2) in Hp2. split.
    + assert (forall e j b tr, got e (Ok (j, b)) tr s' -> exists e', s' !! j = Some (Some e') /\ key_of e' = key_of e)
        as Hx by (intros e j [] tr [_ Hg]; [exists e|]; tauto).
      destruct (Hx _ _ _ _ Hp1) as (x1 & H1 & K1). destruct (Hx _ _ _ _ Hp2) as (x2 & H2 & K2).
      eapply inv_unique; eauto. congruence.
    + intros -> ->. destruct Hp1 as (_ & _ & T1), Hp2 as (_ & _ & T2).
      assert ((i1, (e1, j1)) ∈ t) as M1 by (apply proj_elem; rewrite T1; by left).
      assert ((i2, (e2, j2)) ∈ t) as M2 by (apply proj_elem; rewrite T2; by left).
      apply list_elem_of_lookup in M1 as [p1 M1], M2 as [p2 M2].
      enough (p1 = p2) by congruence.
      eapply NoDup_lookup; [exact Hnd|by rewrite list_lookup_fmap, M1|].
      rewrite list_lookup_fmap, M2. simpl. by rewrite Hk.
Qed.

(** ** Without interference *)
Definition probe_result (e : T) (s : hset) (x : res (probed * hset)) : Prop :=
  match x with
  | Ok (Found j, s') => s' = s /\ exists e', s !! j = Some (Some e') /\ key_of e' = key_of e
  | Ok (NullAt j, s') => s' = s /\ exists d, j = pos (key_of e) d /\ covered s (key_of e) d /\ s !! j = Some None
  | Ok (NoNull, s') => s' = s /\ covered s (key_of e) N
  | Stopped x => is_overflow_panic x /\ overflows s (key_of e)
  end.
Lemma run_probe e s : inv s -> probe_result e s (run (probe e) s).
Proof using HN hash_ok.
  intros Hi. unfold probe. set (body := fun i : nat => _).
  enough (forall m i, i + m = N -> covered s (key_of e) i -> probe_result e s (run (loop (S m) body i) s))
    as H by (apply H; [lia|]; intros ??; lia).
  induction m as [|m IH]; intros i Him Hc; cbn [loop]; rewrite run_bind; unfold body at 1.
  - assert (i = N) as -> by lia. rewrite Nat.leb_refl. done.
  - destruct (Nat.leb_spec N i); [lia|].
    unfold checked_add. destruct (Z.ltb_spec (hash_key (key_of e) + Z.of_nat i) wmod) as [Hlt|Hge].
    2: { split; [done|]. exists i. split; [lia|done]. }
    cbn [bind]. rewrite idx_pos. cbn [load atomic bind run].
    destruct (s !! pos (key_of e) i) as [[e'|]|] eqn:E.
    + destruct (decide (key_of e' = key_of e)); simpl; [split; [done|by exists e']|].
      apply IH; [lia|]. by eapply covered_S.
    + simpl. split; [done|]. by exists i.
    + apply lookup_ge_None in E. destruct Hi. pose proof (pos_lt (key_of e) i). lia.
Qed.
Lemma run_probe_overflow e s : overflows s (key_of e) -> run (probe e) s = Stopped (Panic "attempt to add with overflow").
Proof using HN hash_ok.
  intros (d & Hd & Hw & Hc). unfold probe. set (body := fun i : nat => _).
  enough (forall m i, i + m = N -> i <= d -> run (loop (S m) body i) s = Stopped (Panic "attempt to add with overflow"))
    as H by (apply H; lia).
  induction m as [|m IH]; intros i Him Hle; [lia|]. cbn [loop]. rewrite run_bind. unfold body at 1.
  destruct (Nat.leb_spec N i); [lia|]. unfold checked_add.
  destruct (Z.ltb_spec (hash_key (key_of e) + Z.of_nat i) wmod) as [Hlt|Hge]; [|done].
  cbn [bind]. rewrite idx_pos. cbn [load atomic bind run].
  destruct (Hc i) as (e' & E & Hne); [destruct (decide (i = d)) as [->|]; lia|]. rewrite E.
  rewrite decide_False by done. simpl. apply IH; [lia|]. destruct (decide (i = d)) as [->|]; lia.
Qed.

Lemma run_get_or_insert fuel e s : inv s ->
  (exists j e', run (get_or_insert (S fuel) e) s = Ok ((j, false), s) /\
     s !! j = Some (Some e') /\ key_of e' = key_of e) \/
  (exists j, run (get_or_insert (S fuel) e) s = Ok ((j, true), <[j := Some e]> s) /\
     s !! j = Some None /\ ~ has s (key_of e) /\ inv (<[j := Some e]> s)) \/
  (run (get_or_insert (S fuel) e) s = Stopped (Panic "FixedHashSet is full") /\
     forall j, j < N -> exists e', s !! j = Some (Some e') /\ key_of e' <> key_of e) \/
  (run (get_or_insert (S fuel) e) s = Stopped (Panic "attempt to add with overflow") /\ overflows s (key_of e)).
Proof using HN hash_ok.
  intros Hi. pose proof (run_probe e s Hi) as Hp. unfold get_or_insert. rewrite run_bind.
  destruct (run (probe e) s) as [[[j|j|] s']|x]; cbn [probe_result] in Hp.
  - destruct Hp as (-> & e' & ? & ?). left. by exists j, e'.
  - destruct Hp as (-> & d & -> & Hc & Hnull). right. left. exists (pos (key_of e) d).
    split; [|split; [done|split; [by eapply covered_null|by apply insert_inv]]].
    unfold claim. simpl. rewrite Hnull. simpl. by rewrite Hnull.
  - destruct Hp as [-> Hc]. right. right. left. split; [done|by apply covered_full].
  - destruct Hp as [-> Ho]. by right; right; right.
Qed.
(** Without interference one round of the cold path is enough, and the call does
    what its documentation says: it finds the entry of the key, or it inserts one in
    a null slot, or the table is full and it panics; or [hash + i] overflows. *)
Theorem hashset_sequential fuel e s : inv s ->
  (exists j e', run (get_or_insert (S fuel) e) s = Ok ((j, false), s) /\
     s !! j = Some (Some e') /\ key_of e' = key_of e) \/
  (exists j, run (get_or_insert (S fuel) e) s = Ok ((j, true), <[j := Some e]> s) /\
     s !! j = Some None /\ ~ has s (key_of e) /\ inv (<[j := Some e]> s)) \/
  (run (get_or_insert (S fuel) e) s = Stopped (Panic "FixedHashSet is full") /\
     forall j, j < N -> exists e', s !! j = Some (Some e') /\ key_of e' <> key_of e) \/
  (run (get_or_insert (S fuel) e) s = Stopped (Panic "attempt to add with overflow") /\ overflows s (key_of e)).
Proof using HN hash_ok. apply run_get_or_insert. Qed.

(** C38. [hash + i] is an unchecked addition.  In a build with overflow checks a call that runs alone panics on
    it exactly when probing for its key goes over slots taken by other keys until [hash + d] does not fit in
    [usize], for some [d] below the capacity, whether or not the key or a null slot comes later. *)
Theorem probe_overflows fuel e s : inv s ->
  (run (get_or_insert (S fuel) e) s = Stopped (Panic "attempt to add with overflow") <->
   exists d, d < N /\ (wmod <= hash_key (key_of e) + Z.of_nat d)%Z /\ covered s (key_of e) d).
Proof using HN hash_ok.
  intros Hi. split.
  - intros E. destruct (run_get_or_insert fuel e s Hi) as [(j & e' & E' & _)|[(j & E' & _)|[[E' _]|[_ H]]]]; [congruence..|done].
  - intros H. unfold get_or_insert. by rewrite run_bind, run_probe_overflow.
Qed.

(** The cold path never returns on a table that others have filled. *)
Lemma claim_spins fuel e idx s : length s = N ->
  (forall j, j < N -> exists e', s !! j = Some (Some e') /\ key_of e' <> key_of e) ->
  idx < N -> run (claim fuel e idx) s = Stopped OutOfFuel.
Proof using HN.
  intros Hlen Hfull. revert idx. unfold claim. induction fuel as [|fuel IH]; intros idx Hidx; [done|].
  cbn [loop]. rewrite run_bind. destruct (Hfull idx Hidx) as (e' & E & Hne). simpl. rewrite E.
  destruct (decide (key_of e' = key_of e)); [done|]. simpl. apply IH.
  unfold next_idx. pose proof N_pos. rewrite land_mask by lia.
  assert (0 <= (Z.of_nat idx + 1) mod Z.of_nat N < Z.of_nat N)%Z by (apply Z.mod_pos_bound; lia). lia.
Qed.
End hashset.

(** [new] accepts exactly the positive powers of two. *)
Lemma land_pred_pow2 x : (0 < x)%Z -> Z.land x (x - 1) = 0%Z -> exists n, (0 <= n)%Z /\ x = (2 ^ n)%Z.
Proof.
  intros Hx H. exists (Z.log2 x). pose proof (Z.log2_nonneg x). split; [done|].
  destruct (Z.log2_spec x Hx) as [Hlo Hhi].
  destruct (Z.lt_trichotomy x (2 ^ Z.log2 x)) as [?|[?|Hgt]]; [lia|done|exfalso].
  apply (f_equal (fun z => Z.testbit z (Z.log2 x))) in H.
  rewrite Z.land_spec, Z.bit_log2, Z.testbit_0_l in H by lia. simpl in H.
  assert (Z.log2 (x - 1) = Z.log2 x) as E by (apply Z.log2_unique; lia).
  rewrite <- E, Z.bit_log2 in H by lia. done.
Qed.

(** [new] accepts exactly the powers of two, and gives the empty table. *)
Theorem new_spec {T} N :
  match @new T N with
  | Ok s => (exists n, N = 2 ^ n) /\ s = replicate N None
  | Stopped _ => N = 0 \/ ~ exists n, N = 2 ^ n
  end.
Proof.
  unfold new. destruct (Nat.ltb_spec 0 N); [|left; lia].
  destruct (Z.eqb_spec (Z.land (Z.of_nat N) (Z.of_nat N - 1)) 0) as [E|E].
  - split; [|done]. apply land_pred_pow2 in E as (n & Hn & E); [|lia]. exists (Z.to_nat n).
    apply Nat2Z.inj. rewrite Nat2Z.inj_pow, Z2Nat.id; done.
  - right. intros [n ->]. apply E. rewrite Nat2Z.inj_pow. change (Z.of_nat 2) with 2%Z.
    replace (2 ^ Z.of_nat n - 1)%Z with (Z.ones (Z.of_nat n)) by (rewrite Z.ones_equiv; lia).
    rewrite Z.land_ones by lia. apply Z.mod_same. lia.
Qed.

#[local] Ltac step i := eapply rtc_l; [eapply (PStep i); reflexivity|]; simpl.

(** C37. The documentation promises a panic when the table is full.  A thread that found
    the last null slot in the hot path and lost it to another key scans the full
    table forever instead. *)
Theorem full_table_spins fuel : 0 < fuel ->
  rtc pstep ([get_or_insert (fun k : nat => k) (fun _ => 0%Z) 1 fuel 1;
              get_or_insert (fun k : nat => k) (fun _ => 0%Z) 1 fuel 2], [None])
            ([Ret (0, true); Stop OutOfFuel], [Some 1]).
Proof.
  intros Hf. destruct fuel as [|fuel]; [lia|].
  step 0. step 1. step 0. step 0. clear Hf.
  generalize (S fuel). clear fuel. intros fuel. change (Z.to_nat _) with 0.
  induction fuel as [|fuel IH]; [reflexivity|]. step 1. exact IH.
Qed.

(** ** Concrete instances: four slots, keys 1 and 5 collide *)
Definition sample_table : list (option nat) := replicate 4 None.
Definition sample_hash (k : nat) : Z := Z.of_nat (k mod 4).
Lemma sample_hash_ok k : (0 <= sample_hash k < wmod)%Z.
Proof.
  unfold sample_hash. pose proof (Nat.mod_upper_bound k 4 ltac:(lia)).
  assert (wmod = 18446744073709551616%Z) as -> by reflexivity. lia.
Qed.
Lemma sample_table_inv : inv (fun k : nat => k) sample_hash 4 sample_table.
Proof.
  split; [reflexivity|]. intros j e H. unfold sample_table in H.
  apply lookup_replicate in H as [H _]. discriminate.
Qed.
Definition sample_inserts : list (prog (list (option nat)) (res (nat * bool))) * list (option nat) :=
  pool_run (concat (replicate 9 [2; 0; 1; 0]))
    (imap (fun _ e => catch (get_or_insert (fun k => k) sample_hash 4 9 e)) [1; 5; 1], sample_table).
Lemma hashset_unique_witness :
  results sample_inserts.1 = [Some (Ok (1, true)); Some (Ok (2, true)); Some (Ok (1, false))] /\
  sample_inserts.2 = [None; Some 1; Some 5; None] /\
  inv (fun k : nat => k) sample_hash 4 sample_inserts.2.
Proof.
  split; [vm_compute; reflexivity|]. split; [vm_compute; reflexivity|].
  exact (proj1 (hashset_unique (fun k : nat => k) sample_hash 4 2 eq_refl sample_hash_ok 9 [1; 5; 1]
    sample_table sample_inserts.1 sample_inserts.2 sample_table_inv (pool_run_rtc _ _))).
Defined.
Lemma hashset_sequential_witness :
  exists j, run (get_or_insert (fun k : nat => k) sample_hash 4 1 7) sample_table =
              Ok ((j, true), <[j := Some 7]> sample_table).
Proof.
  destruct (hashset_sequential (fun k : nat => k) sample_hash 4 2 eq_refl sample_hash_ok 0 7
    sample_table sample_table_inv) as [(j & e & _ & H & _)|[(j & E & _)|[[E _]|[E _]]]].
  - unfold sample_table in H. apply lookup_replicate in H as [H _]. discriminate.
  - exists j. exact E.
  - vm_compute in E. discriminate.
  - vm_compute in E. discriminate.
Defined.
(** Two slots, and one key after another whose hash is the greatest. *)
Definition top_table : list (option nat) := [None; Some 1].
Lemma top_hash_ok (k : nat) : (0 <= wmod - 1 < wmod)%Z.
Proof. assert (wmod = 18446744073709551616%Z) as -> by reflexivity. lia. Qed.
Lemma top_table_inv : inv (fun k : nat => k) (fun _ => wmod - 1)%Z 2 top_table.
Proof.
  split; [reflexivity|]. intros [|[|j]] e; cbn; intros H; [discriminate| |discriminate].
  exists 0. split; [lia|]. split; [reflexivity|]. intros d Hd. lia.
Qed.
Lemma probe_overflows_witness :
  run (get_or_insert (fun k : nat => k) (fun _ => wmod - 1)%Z 2 1 2) top_table = Stopped (Panic "attempt to add with overflow").
Proof.
  refine (proj2 (probe_overflows (fun k : nat => k) (fun _ => wmod - 1)%Z 2 1 eq_refl top_hash_ok 0 2 top_table top_table_inv) _).
  exists 1. split; [lia|]. split; [rewrite Z.sub_add; reflexivity|]. intros d Hd. exists 1.
  assert (d = 0) as -> by lia. split; [reflexivity|lia].
Defined.
Lemma full_table_spins_witness :
  rtc pstep ([get_or_insert (fun k : nat => k) (fun _ => 0%Z) 1 100 1;
              get_or_insert (fun k : nat => k) (fun _ => 0%Z) 1 100 2], [None])
            ([Ret (0, true); Stop OutOfFuel], [Some 1]).
Proof. exact (full_table_spins 100 ltac:(lia)). Defined.
