(* ===== verification/Registry.v ===== *)
(** * The type registry ([src/pointers.rs], lines 118-210)

    [register_type] gives every managed type a small id, kept in the header of its
    objects, and publishes the type's shade function under it.  [TYPE_SET] is the
    hash set of [HashSet]; an entry's id is an atomic of the entry, so it lives beside
    the table, indexed by the entry's slot.

    Two history variables: an entry remembers the call that allocated it, and
    [NEXT_TYPE_ID], a counter, is the list of the types that have drawn an id. *)
From S2P Require Import Prelude Prog Meta HashSet.
#[local] Open Scope nat_scope.
#[local] Open Scope prog_scope.

Definition ID_UNSET : Z := 2 ^ 32 - 1.
Definition capacity : nat := 2 ^ 8.

Section registry.
(** [TypeId]s, and the hash of a [TypeReg]: that of its [type_id]. *)
Context {K : Type} `{!EqDecision K} (hash_key : K -> Z).
Context (hash_ok : forall k, (0 <= hash_key k < wmod)%Z).

Record TypeReg := mkTypeReg { type_id : K; tr_by : nat }.

Record registry := mkRegistry {
  r_set : list (option TypeReg);  (** [TYPE_SET] *)
  r_ids : gmap nat Z;  (** the [id] of each entry, absent when [ID_UNSET] *)
  r_drawn : list K;  (** [NEXT_TYPE_ID] is its length *)
  r_table : gmap nat K  (** [SHADE_FN_TABLE]: the type whose [shade_erased] is stored *)
}.
Definition set_r_set (x : list (option TypeReg)) (s : registry) : registry :=
  mkRegistry x (r_ids s) (r_drawn s) (r_table s).
Definition registry_new : registry := mkRegistry (replicate capacity None) ∅ [] ∅.

Definition fetch_add_next (T : K) : prog registry nat :=
  atomic (fun s => Ok (length (r_drawn s),
                       mkRegistry (r_set s) (r_ids s) (r_drawn s ++ [T]) (r_table s))).
Definition store_shade_fn (id : nat) (T : K) : prog registry unit :=
  modify (fun s => mkRegistry (r_set s) (r_ids s) (r_drawn s) (<[id := T]> (r_table s))).
Definition load_id (entry : nat) : prog registry Z :=
  gets (fun s => default ID_UNSET (r_ids s !! entry)).
Definition store_id (entry : nat) (id : Z) : prog registry unit :=
  modify (fun s => mkRegistry (r_set s) (<[entry := id]> (r_ids s)) (r_drawn s) (r_table s)).

(** [as u32] and [as u8] of an id. *)
Definition as_u32 (x : Z) : Z := (x mod 2 ^ 32)%Z.
Definition as_u8 (x : Z) : Z := (x mod 2 ^ 8)%Z.

(** [register_type::<T>()] called by call number [by_]; [fuel] bounds the two
    unbounded loops. *)
Definition register_type (by_ fuel : nat) (T : K) : prog registry Z :=
  r <- lift r_set set_r_set
         (get_or_insert type_id hash_key capacity fuel (mkTypeReg T by_)) ;
  let '(entry, inserted) := r in
  if inserted : bool then
    new_id <- fetch_add_next T ;
    assert_ (new_id <? Z.to_nat MAX_TYPE_ID) "type registry overflow" ;;
    store_shade_fn new_id T ;;
    store_id entry (as_u32 (Z.of_nat new_id)) ;;
    Ret (as_u8 (Z.of_nat new_id))
  else
    id <- load_id entry ;
    if (id =? ID_UNSET)%Z then
      loop fuel (fun _ =>
        id <- load_id entry ;
        if negb (id =? ID_UNSET)%Z then Ret (inr (as_u8 id)) else Ret (inl tt)) tt
    else Ret (as_u8 id).

(** [get_shade_fn]: the pointer is dereferenced, so it must not be null. *)
Definition get_shade_fn (type_id : Z) (s : registry) : option K := r_table s !! Z.to_nat type_id.

(** ** Invariant *)
#[local] Abbreviation hinv := (inv type_id hash_key capacity).
#[local] Abbreviation has_type := (has type_id).
Record rinv (s : registry) : Prop := {
  ri_set : hinv (r_set s);
  ri_nodup : NoDup (r_drawn s);
  ri_drawn : forall T, T ∈ r_drawn s -> has_type (r_set s) T;
  ri_table : forall n T, r_table s !! n = Some T -> r_drawn s !! n = Some T;
  ri_ids : forall j v, r_ids s !! j = Some v -> exists e n,
    r_set s !! j = Some (Some e) /\ v = Z.of_nat n /\ r_drawn s !! n = Some (type_id e) /\
    r_table s !! n = Some (type_id e)
}.

Lemma capacity_pow : capacity = 2 ^ 8.
Proof. reflexivity. Qed.

(** Ids stay below 256: every type that drew one owns a slot of the table. *)
Lemma drawn_le s : rinv s -> length (r_drawn s) <= capacity.
Proof.
  intros Hi. destruct (ri_set _ Hi) as [Hlen _]. rewrite <- Hlen.
  transitivity (length (omap (fmap type_id) (r_set s))).
  - apply submseteq_length, NoDup_submseteq; [apply Hi|]. intros T HT.
    destruct (ri_drawn _ Hi T HT) as (j & e & Hj & <-). apply list_elem_of_omap.
    exists (Some e). split; [by eapply list_elem_of_lookup_2|done].
  - clear. induction (r_set s) as [|[e|] l IH]; csimpl; lia.
Qed.

(** ** Rely and guarantee of call [i] *)
Definition mine (i : nat) (e : TypeReg) : Prop := tr_by e = i.
Definition rrely (i : nat) (s s' : registry) : Prop :=
  rely type_id hash_key capacity (r_set s) (r_set s') /\
  (rinv s -> rinv s' /\ r_drawn s `prefix_of` r_drawn s' /\
    (forall n T, r_table s !! n = Some T -> r_table s' !! n = Some T) /\
    (forall j v, r_ids s !! j = Some v -> r_ids s' !! j = Some v) /\
    (forall j e, r_set s' !! j = Some (Some e) -> mine i e -> r_set s !! j = Some (Some e) /\
       (type_id e ∉ r_drawn s -> type_id e ∉ r_drawn s'))).
Definition rguar (i : nat) (_ : option (TypeReg * nat)) (s s' : registry) : Prop :=
  forall k, k <> i -> rrely k s s'.

#[local] Instance rrely_preorder i : PreOrder (rrely i).
Proof.
  split.
  - intros s. split; [reflexivity|]. intros Hi. split_and!; auto.
  - intros s1 s2 s3 [S1 H1] [S2 H2]. split; [by etransitivity|]. intros Hi.
    destruct (H1 Hi) as (Hi2 & P1 & T1 & D1 & M1). destruct (H2 Hi2) as (Hi3 & P2 & T2 & D2 & M2).
    split_and!; [done|by etransitivity|auto|auto|].
    intros j e Hj He. destruct (M2 j e Hj He) as [Hj2 N2]. destruct (M1 j e Hj2 He) as [Hj1 N1]. auto.
Qed.
Lemma rguar_rrely i j o s s' : i <> j -> rguar j o s s' -> rrely i s s'.
Proof. intros Hne H. by apply H. Qed.

(** Call [i] owns at most entries whose type has not drawn an id yet. *)
Definition undrawn (i : nat) (s : registry) : Prop :=
  rinv s /\ forall j e, r_set s !! j = Some (Some e) -> mine i e -> type_id e ∉ r_drawn s.

Lemma undrawn_stable i s s' : undrawn i s -> rrely i s s' -> undrawn i s'.
Proof.
  intros [Hi Hm] [_ H]. destruct (H Hi) as (Hi' & _ & _ & _ & M). split; [done|].
  intros j e Hj He. destruct (M j e Hj He) as [Hj0 N]. apply N. by eapply Hm.
Qed.

(** An insertion into the set is a guarantee step. *)
Lemma insert_guar i o s x : undrawn i s -> guar type_id hash_key capacity (mine i) o (r_set s) x ->
  rguar i o s (set_r_set x s) /\ undrawn i (set_r_set x s).
Proof.
  intros [Hi Hm] HG. pose proof (hset_guar_rely _ _ _ _ _ _ _ HG) as Hr.
  pose proof (proj2 Hr (ri_set _ Hi)) as Hx. pose proof (proj1 Hr) as [_ He].
  assert (Hi' : rinv (set_r_set x s)).
  { constructor; simpl; try apply Hi; [done|..].
    - intros T HT. destruct (ri_drawn _ Hi T HT) as (j & e & Hj & ?). exists j, e. auto.
    - intros j v Hj. destruct (ri_ids _ Hi j v Hj) as (e & n & ? & ?). exists e, n. split; [by apply He|done]. }
  split.
  - intros k Hk. split; [done|]. intros _. split_and!; auto.
    intros j e Hj Hk'. split; [|done]. destruct o as [[e' j']|]; simpl in HG; [|by subst x].
    destruct HG as (Hown & Hnull & Ex & _). simpl in Hj. rewrite Ex in Hj.
    apply list_lookup_insert_Some in Hj as [(_ & E & _)|[_ Hj]]; [|done].
    injection E as ->. unfold mine in *. congruence.
  - split; [done|]. simpl. intros j e Hj He'. destruct o as [[e' j']|]; simpl in HG; [|subst x; by eapply Hm].
    destruct HG as (Hown & Hnull & Ex & Hnew). rewrite Ex in Hj.
    apply list_lookup_insert_Some in Hj as [(_ & E & _)|[_ Hj]]; [|by eapply Hm].
    injection E as ->. intros HT. destruct (Hnew (ri_set _ Hi)) as [_ []]. by apply (ri_drawn _ Hi).
Qed.

(** The three steps of the call that inserted the entry. *)
Lemma draw_guar i j e s : undrawn i s -> r_set s !! j = Some (Some e) -> mine i e ->
  let s' := mkRegistry (r_set s) (r_ids s) (r_drawn s ++ [type_id e]) (r_table s) in
  rinv s' /\ rguar i None s s'.
Proof.
  intros [Hi Hm] Hj He s'. pose proof (Hm _ _ Hj He) as Hnew.
  assert (Hi' : rinv s').
  { constructor; simpl; try apply Hi.
    - apply NoDup_app. split; [apply Hi|]. split; [|apply NoDup_singleton].
      intros T HT ->%list_elem_of_singleton. done.
    - intros T [HT| ->%list_elem_of_singleton]%elem_of_app; [by apply (ri_drawn _ Hi)|]. by exists j, e.
    - intros n T Hn. apply lookup_app_l_Some. by apply (ri_table _ Hi).
    - intros j' v Hj'. destruct (ri_ids _ Hi _ _ Hj') as (e' & n & ? & ? & ? & ?). exists e', n.
      split_and!; [done|done|by apply lookup_app_l_Some|done]. }
  split; [done|]. intros k Hk. split; [reflexivity|]. intros _.
  split_and!; [done|by apply prefix_app_r|auto|auto|]. simpl. intros j' e' Hj' He'. split; [done|].
  intros Hn [HT|HT%list_elem_of_singleton]%elem_of_app; [done|].
  pose proof (inv_unique _ _ _ _ _ _ _ _ (ri_set _ Hi) Hj' Hj HT). subst j'.
  rewrite Hj in Hj'. injection Hj' as <-. unfold mine in *. congruence.
Qed.

Lemma shade_guar i n T s : rinv s -> r_drawn s !! n = Some T ->
  let s' := mkRegistry (r_set s) (r_ids s) (r_drawn s) (<[n := T]> (r_table s)) in
  rinv s' /\ rguar i None s s'.
Proof.
  intros Hi Hn s'.
  assert (Ht : forall n' T', r_table s !! n' = Some T' -> <[n := T]> (r_table s) !! n' = Some T').
  { intros n' T' H. destruct (decide (n = n')) as [<-|]; [|by rewrite lookup_insert_ne].
    rewrite lookup_insert_eq. apply (ri_table _ Hi) in H. congruence. }
  assert (Hi' : rinv s').
  { constructor; simpl; try apply Hi.
    - intros n' T' [(<- & <-)|[_ H]]%lookup_insert_Some; [done|by apply (ri_table _ Hi)].
    - intros j v Hj. destruct (ri_ids _ Hi _ _ Hj) as (e' & n' & ? & ? & ? & ?). exists e', n'. auto. }
  split; [done|]. intros k Hk. split; [reflexivity|]. intros _. split_and!; auto.
Qed.

Lemma id_guar i j e n s : rinv s -> r_set s !! j = Some (Some e) -> r_drawn s !! n = Some (type_id e) ->
  r_table s !! n = Some (type_id e) ->
  let s' := mkRegistry (r_set s) (<[j := Z.of_nat n]> (r_ids s)) (r_drawn s) (r_table s) in
  rinv s' /\ rguar i None s s'.
Proof.
  intros Hi Hj Hn Ht s'.
  assert (Hids : forall j' v, r_ids s !! j' = Some v -> <[j := Z.of_nat n]> (r_ids s) !! j' = Some v).
  { intros j' v H. destruct (decide (j = j')) as [<-|]; [|by rewrite lookup_insert_ne].
    rewrite lookup_insert_eq. destruct (ri_ids _ Hi _ _ H) as (e' & n' & Hj' & -> & Hn' & _).
    rewrite Hj in Hj'. injection Hj' as <-.
    by rewrite (NoDup_lookup _ _ _ _ (ri_nodup _ Hi) Hn Hn'). }
  assert (Hi' : rinv s').
  { constructor; simpl; try apply Hi. intros j' v [(<- & <-)|[_ H]]%lookup_insert_Some.
    - exists e, n. auto.
    - by apply (ri_ids _ Hi). }
  split; [done|]. intros k Hk. split; [reflexivity|]. intros _. split_and!; auto.
Qed.

(** What a call returns. *)
Definition registered (T : K) (r : res Z) (s : registry) : Prop :=
  match r with
  | Ok id => rinv s /\ exists j e, r_set s !! j = Some (Some e) /\ type_id e = T /\
      r_ids s !! j = Some id /\ (0 <= id < 256)%Z
  | Stopped x => is_full_panic x \/ (is_overflow_panic x /\ (wmod < hash_key T + 256)%Z)
  end.
Lemma registered_stable i T r s s' : rrely i s s' -> registered T r s -> registered T r s'.
Proof.
  intros [[[_ He] _] H]. destruct r as [id|x]; [|done]. intros (Hi & j & e & ? & ? & ? & ?).
  destruct (H Hi) as (? & _ & _ & ? & _). split; [done|]. exists j, e. auto.
Qed.

Lemma ids_range s j v : rinv s -> r_ids s !! j = Some v -> (0 <= v < 256)%Z.
Proof.
  intros Hi Hj. destruct (ri_ids _ Hi _ _ Hj) as (e & n & _ & -> & Hn & _).
  apply lookup_lt_Some in Hn. pose proof (drawn_le _ Hi) as H. change capacity with 256 in H. lia.
Qed.

(** ** One call *)
Lemma rrely_facts i s s' j e n : rrely i s s' -> rinv s -> r_set s !! j = Some (Some e) ->
  r_drawn s !! n = Some (type_id e) ->
  rinv s' /\ r_set s' !! j = Some (Some e) /\ r_drawn s' !! n = Some (type_id e) /\
  (forall T, r_table s !! n = Some T -> r_table s' !! n = Some T) /\
  (forall v, r_ids s !! j = Some v -> r_ids s' !! j = Some v).
Proof.
  intros [[[_ He] _] H] Hi Hj Hn. destruct (H Hi) as (Hi' & Hp & Ht & Hd & _).
  split_and!; auto. by eapply prefix_lookup_Some.
Qed.

Lemma publish_wp i j e tr s : undrawn i s -> r_set s !! j = Some (Some e) -> mine i e ->
  wp (rrely i) (rguar i) (catch (
      new_id <- fetch_add_next (type_id e) ;
      assert_ (new_id <? Z.to_nat MAX_TYPE_ID) "type registry overflow" ;;
      store_shade_fn new_id (type_id e) ;;
      store_id j (as_u32 (Z.of_nat new_id)) ;;
      Ret (as_u8 (Z.of_nat new_id)))) tr
    (fun r _ s' => registered (type_id e) r s') s.
Proof.
  intros Hu Hj He. simpl. intros s1 Hr1. assert (Hu1 : undrawn i s1) by by eapply undrawn_stable.
  assert (Hj1 : r_set s1 !! j = Some (Some e)) by by apply (proj1 (proj1 Hr1)).
  destruct (draw_guar i j e s1 Hu1 Hj1 He) as [Hi1 HG1].
  exists None. split; [done|]. set (s1' := mkRegistry _ _ (r_drawn s1 ++ _) _) in *.
  pose proof (drawn_le _ Hi1) as Hle. simpl in Hle. rewrite length_app in Hle. simpl in Hle.
  change capacity with 256 in Hle. change (Z.to_nat MAX_TYPE_ID) with 256.
  set (n := length (r_drawn s1)) in *.
  replace (n <? 256) with true by (symmetry; apply Nat.ltb_lt; lia). cbn [assert_ bind catch].
  assert (Hn1 : r_drawn s1' !! n = Some (type_id e)) by by apply list_lookup_middle.
  assert (Hj1' : r_set s1' !! j = Some (Some e)) by done. clearbody s1' n.
  intros s2 Hr2. destruct (rrely_facts _ _ _ _ _ _ Hr2 Hi1 Hj1' Hn1) as (Hi2 & Hj2 & Hn2 & _ & _).
  destruct (shade_guar i n (type_id e) s2 Hi2 Hn2) as [Hi2' HG2].
  exists None. split; [done|]. set (s2' := mkRegistry _ _ _ (<[n:=_]> _)) in *.
  assert (Ht2 : r_table s2' !! n = Some (type_id e)) by apply lookup_insert_eq.
  intros s3 Hr3. destruct (rrely_facts i s2' s3 j e n Hr3 Hi2' Hj2 Hn2) as (Hi3 & Hj3 & Hn3 & Ht3 & _).
  apply Ht3 in Ht2. destruct (id_guar i j e n s3 Hi3 Hj3 Hn3 Ht2) as [Hi3' HG3].
  unfold as_u32, as_u8. rewrite !Z.mod_small by lia.
  exists None. split; [done|]. intros s4 Hr4. eapply registered_stable; [exact Hr4|].
  split; [done|]. exists j, e. split_and!; [done|done| |lia|lia]. apply lookup_insert_eq.
Qed.

(** Reading the id of an entry that another call inserted. *)
Lemma await_wp i fuel j e tr s : rinv s -> r_set s !! j = Some (Some e) ->
  wp (rrely i) (rguar i) (catch (
      id <- load_id j ;
      if (id =? ID_UNSET)%Z then
        loop fuel (fun _ =>
          id <- load_id j ;
          if negb (id =? ID_UNSET)%Z then Ret (inr (as_u8 id)) else Ret (inl tt)) tt
      else Ret (as_u8 id))) tr
    (fun r _ s' => registered (type_id e) r s') s.
Proof.
  intros Hi Hj.
  assert (Hstep : forall s s', rinv s /\ r_set s !! j = Some (Some e) -> rrely i s s' ->
    rinv s' /\ r_set s' !! j = Some (Some e)).
  { intros s0 s' [Hi0 Hj0] [[[_ He] _] H]. split; [by apply H|auto]. }
  assert (Hid : forall s, rinv s -> r_set s !! j = Some (Some e) ->
    default ID_UNSET (r_ids s !! j) <> ID_UNSET ->
    registered (type_id e) (Ok (as_u8 (default ID_UNSET (r_ids s !! j)))) s).
  { intros s0 Hi0 Hj0 Hne. destruct (r_ids s0 !! j) as [v|] eqn:E; [|done]. simpl.
    pose proof (ids_range _ _ _ Hi0 E). unfold as_u8. rewrite Z.mod_small by lia.
    split; [done|]. exists j, e. auto. }
  assert (HG : forall s s', rrely i s s' -> rguar i None s' s') by (intros ? ? _ k _; reflexivity).
  apply wp_catch_gets; [apply HG|]. intros s1 Hr1. destruct (Hstep s s1) as [Hi1 Hj1]; [done..|].
  destruct (Z.eqb_spec (default ID_UNSET (r_ids s1 !! j)) ID_UNSET) as [E|E].
  - apply (wp_catch_loop (rrely i) (rguar i) (fun _ _ s => rinv s /\ r_set s !! j = Some (Some e)));
      [|done]. clear s s1 Hi Hj Hr1 Hi1 Hj1 E. intros [] tr' s [Hi Hj].
    apply wp_catch_gets; [apply HG|]. intros s1 Hr1. destruct (Hstep s s1) as [Hi1 Hj1]; [done..|].
    destruct (Z.eqb_spec (default ID_UNSET (r_ids s1 !! j)) ID_UNSET) as [E|E]; intros s2 Hr2.
    + by apply (Hstep s1).
    + intros s3 Hr3. eapply registered_stable; [etransitivity; [exact Hr2|exact Hr3]|]. by apply Hid.
  - intros s2 Hr2. eapply registered_stable; [exact Hr2|]. by apply Hid.
Qed.

Lemma register_type_wp i fuel T s : rinv s ->
  (forall j e, r_set s !! j = Some (Some e) -> ~ mine i e) ->
  wp (rrely i) (rguar i) (catch (register_type i fuel T)) [] (fun r _ s' => registered T r s') s.
Proof using hash_ok.
  intros Hi Hnone. apply wp_catch_bind; [apply _|]. eapply wp_mono.
  2: { apply (wp_catch_lift r_set set_r_set ltac:(by intros ? []) ltac:(by intros [])
      (rely type_id hash_key capacity) (guar type_id hash_key capacity (mine i))
      (rrely i) (rguar i) (undrawn i) _ [] (got type_id hash_key capacity (mkTypeReg T i))).
    - by intros ? ? [].
    - intros ? ?. apply undrawn_stable.
    - intros o s1 x Hu HG. by apply insert_guar.
    - apply (get_or_insert_wp _ _ _ 8 capacity_pow hash_ok); [done|apply Hi].
    - split; [done|]. intros j e Hj He. by destruct (Hnone _ _ Hj). }
  intros [[j [|]]|x] tr s1 [Hg Hu].
  - destruct Hg as (_ & Hj & _). by apply (publish_wp i j (mkTypeReg T i)).
  - destruct Hg as (_ & _ & e & Hj & E). simpl in E. subst T. apply await_wp; [apply Hu|done].
  - intros s2 _. destruct Hg as (_ & _ & [[Hx _]|[Hx (d & Hd & Hw & _)]]); [by left|right]. split; [done|].
    change capacity with 256 in Hd. cbn [type_id] in Hw. lia.
Qed.

(** ** Without interference *)
(** Between two calls every entry has its id. *)
Definition complete (s : registry) : Prop := rinv s /\ forall j e, r_set s !! j = Some (Some e) -> is_Some (r_ids s !! j).
(** The type is known, or there is room for it. *)
Definition room (T : K) (s : registry) : Prop := has_type (r_set s) T \/ exists j, r_set s !! j = Some None.
(** The registry once a new type has its entry, its id and its shade function. *)
Definition published j (e : TypeReg) (s : registry) : registry :=
  let n := length (r_drawn s) in
  mkRegistry (<[j := Some e]> (r_set s)) (<[j := Z.of_nat n]> (r_ids s)) (r_drawn s ++ [type_id e]) (<[n := type_id e]> (r_table s)).
Lemma published_complete j e s : complete s -> r_set s !! j = Some None -> ~ has_type (r_set s) (type_id e) ->
  hinv (<[j := Some e]> (r_set s)) -> complete (published j e s) /\ length (r_drawn s) < 256 /\
  forall T, has_type (r_set (published j e s)) T <-> has_type (r_set s) T \/ T = type_id e.
Proof using hash_ok.
  intros [Hi Hid] Hj Hn Hinv. set (n := length (r_drawn s)).
  assert (Hnew : type_id e ∉ r_drawn s) by (intros HT; by apply Hn, (ri_drawn _ Hi)).
  assert (Hlt : j < length (r_set s)) by by eapply lookup_lt_Some.
  assert (Hj1 : <[j := Some e]> (r_set s) !! j = Some (Some e)) by by apply list_lookup_insert_eq.
  assert (Hat : forall j' x, <[j := Some e]> (r_set s) !! j' = Some (Some x) <-> r_set s !! j' = Some (Some x) \/ (j' = j /\ x = e)).
  { intros j' x. rewrite list_lookup_insert_Some. naive_solver. }
  assert (Hn' : (r_drawn s ++ [type_id e]) !! n = Some (type_id e)) by by apply list_lookup_middle.
  assert (H2 : rinv (published j e s)).
  { constructor; cbn [published r_set r_ids r_drawn r_table]; fold n.
    - done.
    - apply NoDup_app. split; [apply Hi|]. split; [by intros x Hx ->%list_elem_of_singleton|apply NoDup_singleton].
    - intros T' [HT| ->%list_elem_of_singleton]%elem_of_app; [|by exists j, e].
      destruct (ri_drawn _ Hi T' HT) as (j' & x & Hx & Ex). exists j', x. split; [apply Hat; by left|done].
    - intros m T' [[<- <-]|[_ Hm]]%lookup_insert_Some; [done|]. by apply lookup_app_l_Some, (ri_table _ Hi).
    - intros j' v [[<- <-]|[Hne Hv]]%lookup_insert_Some; [by exists e, n; rewrite lookup_insert_eq|].
      destruct (ri_ids _ Hi j' v Hv) as (x & m & Hx & -> & Hm & Ht). exists x, m. split; [apply Hat; by left|]. split; [done|].
      split; [by apply lookup_app_l_Some|]. rewrite lookup_insert_ne; [done|]. intros <-. apply lookup_lt_Some in Hm. lia. }
  pose proof (drawn_le _ H2) as Hle. cbn [published r_drawn] in Hle. rewrite length_app in Hle. cbn [length] in Hle.
  change capacity with 256 in Hle. split; [split; [done|]|split; [lia|]].
  - intros j' x [Hx|[-> ->]]%Hat; cbn [published r_ids]; [|rewrite lookup_insert_eq; by eexists].
    rewrite lookup_insert_ne; [by apply (Hid j' x)|]. intros <-. by rewrite Hj in Hx.
  - intros T'. split; [intros (j' & x & [Hx|[-> ->]]%Hat & <-); [left; by exists j', x|by right]|].
    intros [(j' & x & Hx & <-)| ->]; [|by exists j, e]. exists j', x. split; [apply Hat; by left|done].
Qed.
Lemma run_register_type i fuel T s : (hash_key T + 256 <= wmod)%Z -> complete s -> room T s -> exists id s',
  run (register_type i (S fuel) T) s = Ok (id, s') /\ complete s' /\ (0 <= id < 256)%Z /\
  forall T', has_type (r_set s') T' <-> has_type (r_set s) T' \/ T' = T.
Proof using hash_ok.
  intros HT Hc Hroom. pose proof Hc as [Hi Hid]. set (e := mkTypeReg T i). unfold register_type. fold e. rewrite run_bind.
  rewrite (run_lift r_set set_r_set) by (by intros [] || by intros []).
  destruct (run_get_or_insert type_id hash_key capacity 8 capacity_pow hash_ok fuel e (r_set s) (ri_set _ Hi))
    as [(j & e' & E & Hj & Ee)|[(j & E & Hj & Hn & Hinv)|[[E Hfull]|[_ (d & Hd & Hw & _)]]]].
  - rewrite E. replace (set_r_set (r_set s) s) with s by by destruct s.
    destruct (Hid j e' Hj) as [v Hv]. pose proof (ids_range _ _ _ Hi Hv) as Hr. cbn [load_id gets atomic bind run]. rewrite Hv. cbn [default].
    assert (Hne : v <> ID_UNSET) by (change ID_UNSET with 4294967295%Z; lia).
    change (Datatypes.id v) with v. rewrite (proj2 (Z.eqb_neq v ID_UNSET) Hne). unfold as_u8. rewrite Z.mod_small by lia.
    exists v, s. split; [done|]. split; [done|]. split; [done|]. intros T'. split; [by left|]. intros [?| ->]; [done|]. by exists j, e'.
  - rewrite E. destruct (published_complete j e s Hc Hj Hn Hinv) as (Hc2 & Hlt & Hh). set (n := length (r_drawn s)) in *.
    exists (Z.of_nat n), (published j e s). split; [|split; [done|split; [lia|done]]].
    cbn [fetch_add_next atomic bind run r_drawn set_r_set]. fold n. change (Z.to_nat MAX_TYPE_ID) with 256.
    replace (n <? 256) with true by (symmetry; by apply Nat.ltb_lt). cbn [assert_ bind store_shade_fn store_id modify atomic run].
    unfold as_u32, as_u8. by rewrite !Z.mod_small by lia.
  - exfalso. destruct (ri_set _ Hi) as [Hlen _]. destruct Hroom as [(j & x & Hx & Ex)|[j Hj]];
      (destruct (Hfull j) as (x' & Hx' & Hne); [rewrite <- Hlen; by eapply lookup_lt_Some|]; by simplify_eq).
  - exfalso. change capacity with 256 in Hd. cbn [type_id e] in Hw. lia.
Qed.

Lemma rinv_new : rinv registry_new.
Proof.
  constructor; cbn [registry_new r_set r_ids r_drawn r_table].
  - split; [apply length_replicate|]. intros j e Hj. apply lookup_replicate in Hj as [? _]. done.
  - constructor.
  - intros T HT. by apply not_elem_of_nil in HT.
  - intros n T. by rewrite lookup_empty.
  - intros j v. by rewrite lookup_empty.
Qed.

(** C19. Any number of threads registering types, in any interleaving: equal types get
    equal ids and different types different ones, every id fits in the header's
    eight bits (so [as u8] loses nothing and the registry's own overflow assertion
    never fires), and the id a caller holds leads to its type's shade function.  A call
    panics only if the hash set is full, or if its type's hash is within 256 of the top
    of [usize] and probing for it overflows. *)
Theorem registry_correct fuel (Ts : list K) ps' s' :
  rtc pstep (imap (fun i T => catch (register_type i fuel T)) Ts, registry_new) (ps', s') ->
  (forall i e, ps' !! i = Some (Stop e) -> e = OutOfFuel) /\
  (forall i T r, Ts !! i = Some T -> ps' !! i = Some (Ret r) ->
     match r with
     | Ok id => (0 <= id < 256)%Z /\ get_shade_fn id s' = Some T
     | Stopped x => is_full_panic x \/ (is_overflow_panic x /\ (wmod < hash_key T + 256)%Z)
     end) /\
  (forall i1 i2 T1 T2 id1 id2,
     Ts !! i1 = Some T1 -> ps' !! i1 = Some (Ret (Ok id1)) ->
     Ts !! i2 = Some T2 -> ps' !! i2 = Some (Ret (Ok id2)) -> (id1 = id2 <-> T1 = T2)).
Proof using hash_ok.
  intros Hrtc.
  apply (pool_sound rrely rguar (fun i r _ s => forall T, Ts !! i = Some T -> registered T r s)
    _ _ _ _ (fun _ => [])) in Hrtc as (t & _ & Hend); [|apply _|by intros; eapply rguar_rrely|].
  2: { intros i p Hp. rewrite list_lookup_imap in Hp. destruct (Ts !! i) as [T|] eqn:ET; simplify_eq/=.
    eapply wp_mono; [|apply register_type_wp; [apply rinv_new|]].
    - intros r tr s1 Hg T' ?. by simplify_eq.
    - intros j e Hj. cbn [registry_new r_set] in Hj. apply lookup_replicate in Hj as [? _]. done. }
  assert (Hreg : forall i T r, Ts !! i = Some T -> ps' !! i = Some (Ret r) -> registered T r s').
  { intros i T r HT Hp. apply Hend, wp_ret_now in Hp; [|apply _]. by apply Hp. }
  split; [|split].
  - intros i e Hp. by eapply Hend, wp_stop in Hp.
  - intros i T [id|x] HT Hp; apply (Hreg _ _ _ HT) in Hp; [|done].
    destruct Hp as (Hi & j & e & Hje & <- & Hj & ?). split; [done|].
    destruct (ri_ids _ Hi _ _ Hj) as (e' & n & He' & -> & _ & Ht).
    unfold get_shade_fn. rewrite Nat2Z.id. by simplify_eq.
  - intros i1 i2 T1 T2 id1 id2 HT1 Hp1 HT2 Hp2.
    apply (Hreg _ _ _ HT1) in Hp1 as (Hi & j1 & e1 & Hj1 & <- & Hd1 & _).
    apply (Hreg _ _ _ HT2) in Hp2 as (_ & j2 & e2 & Hj2 & <- & Hd2 & _). split.
    + intros ->. destruct (ri_ids _ Hi _ _ Hd1) as (e1' & n1 & E1 & En1 & D1 & _).
      destruct (ri_ids _ Hi _ _ Hd2) as (e2' & n2 & E2 & En2 & D2 & _).
      assert (n1 = n2) as -> by lia. by simplify_eq.
    + intros E. pose proof (inv_unique _ _ _ _ _ _ _ _ (ri_set _ Hi) Hj1 Hj2 E). by simplify_eq.
Qed.
End registry.

Arguments TypeReg K : clear implicits.
Arguments registry K : clear implicits.

(** ** Concrete instance: three threads, two of them registering the same type *)
Definition type_mod4 (k : nat) : Z := Z.of_nat (k mod 4).
Lemma type_mod4_ok k : (0 <= type_mod4 k < wmod)%Z.
Proof.
  unfold type_mod4. pose proof (Nat.mod_upper_bound k 4 ltac:(lia)).
  assert (wmod = 18446744073709551616%Z) as -> by reflexivity. lia.
Qed.
Definition sample_registrations : list (prog (registry nat) (res Z)) * registry nat :=
  pool_run (concat (replicate 20 [0; 1; 2]))
    (imap (fun i T => catch (register_type type_mod4 i 20 T)) [7; 7; 11], registry_new).
Lemma registry_correct_witness :
  results sample_registrations.1 = [Some (Ok 0%Z); Some (Ok 0%Z); Some (Ok 1%Z)] /\
  get_shade_fn 1 sample_registrations.2 = Some 11.
Proof.
  split; [vm_compute; reflexivity|].
  destruct (registry_correct type_mod4 type_mod4_ok 20 [7; 7; 11]
    sample_registrations.1 sample_registrations.2 (pool_run_rtc _ _)) as (_ & H & _).
  refine (proj2 (H 2 11 (Ok 1%Z) eq_refl _)). vm_compute. reflexivity.
Defined.
