(* ===== verification/Slots.v ===== *)
(** * Reusable slots ([src/sync/reusable_slots.rs])

    The list of thread records: a singly linked list that only grows, whose nodes
    are taken and given back through a [using] flag.  Nodes never move, so a pointer
    to a node is its position; [prev] is the position whose pointer is read, null
    when it is the length of the list.

    The flag carries two history variables: the thread that set it, and whether the
    slot is counted in [active_count]. *)
From S2P Require Import Prelude Prog.
#[local] Open Scope nat_scope.
#[local] Open Scope prog_scope.

Section slots.
Context {T : Type} (dflt : T).

Record node := mkNode {
  n_using : option (nat * bool);  (** [using], with its holder and the counted mark *)
  n_item : T
}.
Record ReusableSlots := mkSlots { nodes : list node; active : Z }.
Definition default_slots : ReusableSlots := mkSlots [] 0.

Definition is_using (nd : node) : bool := match n_using nd with Some _ => true | None => false end.
Definition new_using (i : nat) : node := mkNode (Some (i, false)) dflt.
Definition set_using (u : option (nat * bool)) (nd : node) : node := mkNode u (n_item nd).
Definition with_nodes (l : list node) (s : ReusableSlots) : ReusableSlots := mkSlots l (active s).

(** [prev.load(Acquire)]: is there a node at this position? *)
Definition load_ptr (k : nat) : prog ReusableSlots bool :=
  gets (fun s => (k <? length (nodes s))%nat).
(** [prev.compare_exchange(null, new_node)] by thread [i]. *)
Definition cas_append (i k : nat) : prog ReusableSlots bool :=
  atomic (fun s => if decide (length (nodes s) = k)
                   then Ok (true, with_nodes (nodes s ++ [new_using i]) s) else Ok (false, s)).
Definition load_using (k : nat) : prog ReusableSlots bool :=
  atomic (fun s => match nodes s !! k with
                   | Some nd => Ok (is_using nd, s)
                   | None => Stopped (UB "dangling node")
                   end).
(** [using.compare_exchange(false, true)]. *)
Definition cas_using (i k : nat) : prog ReusableSlots bool :=
  atomic (fun s => match nodes s !! k with
                   | Some nd => if is_using nd then Ok (false, s)
                                else Ok (true, with_nodes (<[k := set_using (Some (i, false)) nd]> (nodes s)) s)
                   | None => Stopped (UB "dangling node")
                   end).
(** [active_count.fetch_add(1)] and [fetch_sub(1)], for the slot [k] of thread [i]. *)
Definition count_slot (i k : nat) : prog ReusableSlots unit :=
  modify (fun s => mkSlots (alter (set_using (Some (i, true))) k (nodes s)) (wadd (active s) 1)).
Definition uncount_slot (i k : nat) : prog ReusableSlots unit :=
  modify (fun s => mkSlots (alter (set_using (Some (i, false))) k (nodes s)) (wsub (active s) 1)).
Definition store_unused (k : nat) : prog ReusableSlots unit :=
  modify (fun s => with_nodes (alter (set_using None) k (nodes s)) s).

(** One round of the search at position [k]. *)
Definition acquire_step (i k : nat) : prog ReusableSlots (nat + nat) :=
  nonnull <- load_ptr k ;
  if negb nonnull then
    ok <- cas_append i k ;
    if ok : bool then count_slot i k ;; Ret (inr k) else Ret (inl k)
  else
    u <- load_using k ;
    if negb u then
      ok <- cas_using i k ;
      if ok : bool then count_slot i k ;; Ret (inr k) else Ret (inl (S k))
    else Ret (inl (S k)).
Definition acquire_or_default (i fuel : nat) : prog ReusableSlots nat :=
  loop fuel (acquire_step i) 0.

(** [Drop for Entry]. *)
Definition drop_entry (i k : nat) : prog ReusableSlots unit :=
  uncount_slot i k ;; store_unused k.

Definition active_count : prog ReusableSlots Z := gets active.

(** [SlotIter]: [curr] is [None] when the pointer is null. *)
Definition load_next (k : nat) : prog ReusableSlots (option nat) :=
  gets (fun s => if (k <? length (nodes s))%nat then Some k else None).
Definition iter_next (fuel : nat) (cond : nat -> prog ReusableSlots bool) (curr : option nat) :
    prog ReusableSlots (option (nat * option nat)) :=
  loop fuel (fun curr =>
    match curr with
    | None => Ret (inr None)
    | Some k =>
        next <- load_next (S k) ;
        c <- cond k ;
        if c : bool then Ret (inr (Some (k, next))) else Ret (inl next)
    end) curr.
Definition iter_all_cond (_ : nat) : prog ReusableSlots bool := Ret true.
Definition iter_using_cond : nat -> prog ReusableSlots bool := load_using.

(** ** Invariant, rely and guarantee *)
Definition counted (nd : node) : bool := match n_using nd with Some (_, true) => true | _ => false end.
Fixpoint count (l : list node) : Z :=
  match l with [] => 0 | nd :: l => Z.b2z (counted nd) + count l end%Z.
Definition sinv (s : ReusableSlots) : Prop := active s = (count (nodes s) mod wmod)%Z.

Lemma count_app l1 l2 : count (l1 ++ l2) = (count l1 + count l2)%Z.
Proof. induction l1; simpl; lia. Qed.
Lemma count_insert l k nd nd' : l !! k = Some nd ->
  count (<[k := nd']> l) = (count l - Z.b2z (counted nd) + Z.b2z (counted nd'))%Z.
Proof.
  revert k. induction l as [|x l IH]; intros [|k] E; simplify_eq/=; [lia|]. rewrite (IH k E). lia.
Qed.
Lemma alter_insert (f : node -> node) (k : nat) (l : list node) nd : l !! k = Some nd -> alter f k l = <[k := f nd]> l.
Proof. revert k. induction l as [|x l IH]; intros [|k] E; simplify_eq/=; [done|]. f_equal. auto. Qed.

Definition user (nd : node) : option nat := fst <$> n_using nd.
Definition holds (i : nat) (b : bool) (s : ReusableSlots) (k : nat) : Prop :=
  exists nd, nodes s !! k = Some nd /\ n_using nd = Some (i, b).
Definition held (i : nat) (s : ReusableSlots) (k : nat) : Prop := exists b, holds i b s k.

Inductive event := EAcq (i k : nat) | ERel (i k : nat).

(** The abstract state: who uses each slot. *)
Definition users (s : ReusableSlots) : list (option nat) := user <$> nodes s.
Inductive spec : event -> list (option nat) -> list (option nat) -> Prop :=
  | SReuse i k l : l !! k = Some None -> spec (EAcq i k) l (<[k := Some i]> l)
  | SNew i l : spec (EAcq i (length l)) l (l ++ [Some i])
  | SRelease i k l : l !! k = Some (Some i) -> spec (ERel i k) l (<[k := None]> l).

(** Other threads keep the slots of thread [i], and take none in its name. *)
Definition rely (i : nat) (s s' : ReusableSlots) : Prop :=
  length (nodes s) <= length (nodes s') /\
  (forall k b, holds i b s k <-> holds i b s' k) /\ (sinv s -> sinv s').
Definition guar (i : nat) (o : option event) (s s' : ReusableSlots) : Prop :=
  (forall j, j <> i -> rely j s s') /\ (sinv s -> sinv s') /\
  match o with None => users s' = users s | Some e => spec e (users s) (users s') end.

#[local] Instance rely_preorder i : PreOrder (rely i).
Proof.
  split; [by intros s|]. intros s1 s2 s3 (L1 & H1 & I1) (L2 & H2 & I2).
  split; [lia|]. split; [|auto]. intros k b. by rewrite H1.
Qed.
Lemma slots_guar_rely i j o s s' : i <> j -> guar j o s s' -> rely i s s'.
Proof. intros Hne [H _]. by apply H. Qed.
Lemma slots_guar_refl i s : guar i None s s.
Proof. split; [|done]. intros j _. reflexivity. Qed.

(** Updating slot [k] is allowed when it is free or held by the thread itself. *)
Lemma update_guar i o s k nd u a :
  nodes s !! k = Some nd -> (forall j, j <> i -> user nd <> Some j) ->
  (forall j, j <> i -> fst <$> u <> Some j) ->
  (sinv s -> sinv (mkSlots (<[k := set_using u nd]> (nodes s)) a)) ->
  match o with
  | None => fst <$> u = user nd
  | Some e => spec e (users s) (<[k := fst <$> u]> (users s))
  end ->
  guar i o s (mkSlots (<[k := set_using u nd]> (nodes s)) a).
Proof.
  intros Hk Hown Hu Hsi Ho. split; [|split; [done|]].
  - intros j Hj. split; [simpl; by rewrite length_insert|]. split; [|done]. intros k' b.
    unfold holds. simpl. destruct (decide (k = k')) as [<-|Hne].
    + rewrite list_lookup_insert_eq, Hk by (by eapply lookup_lt_Some). split.
      * intros (nd' & [= <-] & E). destruct (Hown j Hj). unfold user. by rewrite E.
      * intros (nd' & [= <-] & E). simpl in E. destruct (Hu j Hj). by rewrite E.
    + by rewrite list_lookup_insert_ne.
  - assert (E : users (mkSlots (<[k:=set_using u nd]> (nodes s)) a) = <[k := fst <$> u]> (users s)).
    { unfold users. simpl. by rewrite list_fmap_insert. }
    rewrite E. destruct o as [e|]; [done|]. apply list_insert_id. unfold users.
    by rewrite list_lookup_fmap, Hk, Ho.
Qed.

(** ** The slots of a thread, with their counted marks *)
Definition owns (i : nat) (H : gmap nat bool) (s : ReusableSlots) : Prop :=
  sinv s /\ forall k b, holds i b s k <-> H !! k = Some b.

Lemma owns_rely i H s s' : rely i s s' -> owns i H s -> owns i H s'.
Proof. intros (_ & Hh & Hi) [Hs Ho]. split; [auto|]. intros k b. by rewrite <- Hh. Qed.

Lemma owns_update i H s k nd u a : owns i H s -> nodes s !! k = Some nd ->
  sinv (mkSlots (<[k := set_using u nd]> (nodes s)) a) ->
  (forall j b, u = Some (j, b) -> j = i) ->
  owns i (partial_alter (fun _ => snd <$> u) k H) (mkSlots (<[k := set_using u nd]> (nodes s)) a).
Proof.
  intros [Hs Ho] Hk Hsi Hu. split; [done|]. intros k' b. unfold holds. simpl.
  destruct (decide (k = k')) as [<-|Hne].
  - rewrite lookup_partial_alter, list_lookup_insert_eq by (by eapply lookup_lt_Some).
    rewrite decide_True by done. split.
    + intros (nd' & [= <-] & E). simpl in E. by rewrite E.
    + intros E. eexists. split; [done|]. simpl. destruct u as [[j b']|]; [|done].
      simplify_eq/=. by rewrite (Hu j b eq_refl).
  - rewrite lookup_partial_alter_ne, list_lookup_insert_ne by done. apply Ho.
Qed.

Lemma owns_holds i H s k b : owns i H s -> H !! k = Some b ->
  exists nd, nodes s !! k = Some nd /\ n_using nd = Some (i, b).
Proof. intros [_ Ho] Hk. by apply Ho. Qed.

Ltac slot_env Hown s' :=
  let Hr := fresh "Hr" in
  intros s' Hr; pose proof (owns_rely _ _ _ _ Hr Hown); clear Hr.

(** Counting the slot that was just taken, and returning it. *)
Lemma count_wp i H k tr s : owns i H s -> H !! k = Some false ->
  wp (rely i) (guar i) (count_slot i k ;; Ret (@inr nat nat k)) tr
     (fun x tr' s' => x = inr k /\ tr' = tr /\ owns i (<[k := true]> H) s') s.
Proof.
  intros Ho Hk. simpl. slot_env Ho s1. destruct (owns_holds _ _ _ _ _ H0 Hk) as (nd & Hnd & Hu).
  rewrite (alter_insert _ _ _ _ Hnd).
  assert (Hsi : sinv (mkSlots (<[k := set_using (Some (i, true)) nd]> (nodes s1)) (wadd (active s1) 1))).
  { destruct H0 as [Hs _]. unfold sinv in *. simpl. rewrite Hs. unfold wadd.
    rewrite (count_insert _ _ _ _ Hnd). replace (counted nd) with false by (unfold counted; by rewrite Hu). simpl.
    rewrite Zplus_mod_idemp_l. f_equal. lia. }
  exists None. split.
  - apply update_guar; try done.
    + intros j Hj. unfold user. rewrite Hu. simpl. congruence.
    + simpl. congruence.
    + unfold user. by rewrite Hu.
  - simpl. intros s2 Hr2. split; [done|]. split; [by rewrite app_nil_r|].
    eapply owns_rely; [done|]. eapply (owns_update i H s1 k nd (Some (i, true))); try done.
    by intros ? ? [= <- _].
Qed.

(** Taking a free slot, and appending one. *)
Lemma take_guar i H s k nd : owns i H s -> nodes s !! k = Some nd -> n_using nd = None ->
  let s' := with_nodes (<[k := set_using (Some (i, false)) nd]> (nodes s)) s in
  guar i (Some (EAcq i k)) s s' /\ H !! k = None /\ owns i (<[k := false]> H) s'.
Proof.
  intros Ho Hnd En s'.
  assert (Hsi : sinv s').
  { destruct Ho as [Hs _]. unfold sinv in *. simpl. rewrite Hs, (count_insert _ _ _ _ Hnd).
    replace (counted nd) with false by (unfold counted; by rewrite En). simpl. f_equal. lia. }
  split; [|split].
  - apply update_guar; try done.
    + intros j _. unfold user. by rewrite En.
    + simpl. congruence.
    + apply SReuse. unfold users. rewrite list_lookup_fmap, Hnd. simpl. unfold user. by rewrite En.
  - destruct (H !! k) as [b|] eqn:EH; [|done].
    destruct (owns_holds _ _ _ _ _ Ho EH) as (? & ? & ?). by simplify_eq.
  - apply (owns_update i H s k nd (Some (i, false))); try done. by intros ? ? [= <- _].
Qed.

Lemma append_guar i H s : owns i H s ->
  let k := length (nodes s) in let s' := with_nodes (nodes s ++ [new_using i]) s in
  guar i (Some (EAcq i k)) s s' /\ H !! k = None /\ owns i (<[k := false]> H) s'.
Proof.
  intros Ho k s'.
  assert (Hsi : sinv s -> sinv s').
  { unfold sinv. simpl. intros ->. rewrite count_app. simpl. f_equal. lia. }
  assert (Hlk : forall j b k', holds j b s' k' <-> holds j b s k' \/ j = i /\ b = false /\ k' = k).
  { intros j b k'. unfold holds. simpl. split.
    - intros (nd & [Hnd|[? Hnd]]%lookup_app_Some & Eu); [left; by exists nd|].
      apply list_lookup_singleton_Some in Hnd as [? <-]. injection Eu as <- <-. right. split; [done|]. lia.
    - intros [(nd & Hnd & Eu)|(-> & -> & ->)].
      + exists nd. split; [by apply lookup_app_l_Some|done].
      + exists (new_using i). split; [|done]. by apply list_lookup_middle. }
  assert (Hno : H !! k = None).
  { destruct (H !! k) as [b|] eqn:EH; [|done].
    destruct (owns_holds _ _ _ _ _ Ho EH) as (nd & Hnd & _). apply lookup_lt_Some in Hnd. lia. }
  split; [|split; [done|]].
  - split; [|split; [done|]].
    + intros j Hj. split; [simpl; rewrite length_app; simpl; lia|]. split; [|done].
      intros k' b. rewrite Hlk. split; [by left|]. by intros [?|[-> _]].
    + unfold users. simpl. rewrite fmap_app. simpl.
      unfold k. rewrite <- (length_fmap user (nodes s)). apply SNew.
  - split; [by apply Hsi, Ho|]. intros k' b. rewrite Hlk.
    rewrite lookup_insert_Some. destruct Ho as [_ Ho]. rewrite Ho. split.
    + intros [Hk|(_ & -> & ->)]; [|by left]. right. split; [congruence|done].
    + intros [[-> <-]|[_ ?]]; auto.
Qed.

(** The invariant of the search loop, and its last step. *)
Definition searching (i : nat) (H : gmap nat bool) (tr : list event) (k : nat) (tr' : list event) s : Prop :=
  tr' = tr /\ owns i H s /\ k <= length (nodes s).
Definition acquired (i : nat) (H : gmap nat bool) (tr : list event) (k : nat) (tr' : list event) s : Prop :=
  tr' = tr ++ [EAcq i k] /\ H !! k = None /\ owns i (<[k := true]> H) s.

Lemma searching_rely i H tr k s s' : rely i s s' -> searching i H tr k tr s -> searching i H tr k tr s'.
Proof.
  intros Hr (_ & Ho & ?). split; [done|]. split; [by eapply owns_rely|]. destruct Hr. lia.
Qed.

Lemma finish_wp i H tr k s : owns i (<[k := false]> H) s -> H !! k = None ->
  wp (rely i) (guar i) (count_slot i k ;; Ret (@inr nat nat k)) (tr ++ [EAcq i k])
    (fun x tr' s' => match x with
      | inl l => searching i H tr l tr' s'
      | inr r => wp (rely i) (guar i) (Ret r) tr' (acquired i H tr) s'
      end) s.
Proof.
  intros Ho Hk. eapply wp_mono; [|apply (count_wp i (<[k := false]> H)); [done|apply lookup_insert_eq]].
  intros x tr' s' (-> & -> & Ho') s3 Hr3. split; [done|]. split; [done|].
  rewrite insert_insert_eq in Ho'. by eapply owns_rely.
Qed.

Lemma acquire_wp i fuel H tr s : owns i H s ->
  wp (rely i) (guar i) (acquire_or_default i fuel) tr (acquired i H tr) s.
Proof.
  intros Ho. apply (wp_loop (rely i) (guar i) (searching i H tr));
    [|split; [done|]; split; [done|lia]].
  clear s Ho. intros k tr' s Hs. assert (tr' = tr) as -> by apply Hs.
  unfold acquire_step. apply wp_gets; [intros; apply slots_guar_refl|]. intros s1 Hr1.
  pose proof (searching_rely _ _ _ _ _ _ Hr1 Hs) as (_ & Ho1 & Hle1). clear s Hs Hr1.
  destruct (Nat.ltb_spec k (length (nodes s1))) as [Hlt|Hge]; cbn [negb].
  - unfold load_using, cas_using. simpl. intros s2 Hr2.
    pose proof (searching_rely i H tr (S k) _ _ Hr2 ltac:(done)) as Hs2. clear s1 Ho1 Hle1 Hlt Hr2.
    pose proof Hs2 as (_ & Ho2 & [nd2 Hnd2]%lookup_lt_is_Some_2). rewrite Hnd2. exists None.
    split; [apply slots_guar_refl|]. simpl. rewrite app_nil_r.
    destruct (is_using nd2) eqn:Eu2; cbn [negb]; simpl; intros s3 Hr3;
      pose proof (searching_rely _ _ _ _ _ _ Hr3 Hs2) as Hs3; [done|].
    pose proof Hs3 as (_ & Ho3 & [nd3 Hnd3]%lookup_lt_is_Some_2). rewrite Hnd3.
    destruct (is_using nd3) eqn:Eu3; simpl.
    + exists None. split; [apply slots_guar_refl|]. simpl. rewrite app_nil_r. intros s4 Hr4.
      by eapply searching_rely.
    + unfold is_using in Eu3. destruct (n_using nd3) as [?|] eqn:En; [done|].
      destruct (take_guar i H s3 k nd3 Ho3 Hnd3 En) as (HG & Hk & Ho').
      exists (Some (EAcq i k)). split; [done|]. by apply finish_wp.
  - unfold cas_append. simpl. intros s2 Hr2.
    pose proof (searching_rely i H tr k _ _ Hr2 ltac:(done)) as Hs2.
    destruct (decide (length (nodes s2) = k)) as [<-|E].
    + destruct (append_guar i H s2 ltac:(apply Hs2)) as (HG & Hk & Ho').
      exists (Some (EAcq i (length (nodes s2)))). split; [done|]. by apply finish_wp.
    + exists None. split; [apply slots_guar_refl|]. simpl. rewrite app_nil_r. intros s3 Hr3.
      by eapply searching_rely.
Qed.

Lemma drop_wp i H k tr s : owns i H s -> H !! k = Some true ->
  wp (rely i) (guar i) (drop_entry i k) tr
     (fun _ tr' s' => tr' = tr ++ [ERel i k] /\ owns i (delete k H) s') s.
Proof.
  intros Ho Hk. simpl. intros s1 Hr1. pose proof (owns_rely _ _ _ _ Hr1 Ho) as Ho1.
  destruct (owns_holds _ _ _ _ _ Ho1 Hk) as (nd & Hnd & Hu). rewrite (alter_insert _ _ _ _ Hnd).
  assert (Hsi : sinv (mkSlots (<[k := set_using (Some (i, false)) nd]> (nodes s1)) (wsub (active s1) 1))).
  { destruct Ho1 as [Hs _]. unfold sinv in *. simpl. rewrite Hs. unfold wsub.
    rewrite (count_insert _ _ _ _ Hnd).
    replace (counted nd) with true by (unfold counted; by rewrite Hu). simpl.
    rewrite Zminus_mod_idemp_l. f_equal. lia. }
  exists None. split.
  { apply update_guar; try done; [intros j ?; unfold user; rewrite Hu; simpl; congruence
      |simpl; congruence|unfold user; by rewrite Hu]. }
  simpl. intros s2 Hr2.
  pose proof (owns_rely _ _ _ _ Hr2 (owns_update i H s1 k nd (Some (i, false)) _ Ho1 Hnd Hsi
    ltac:(by intros ? ? [= <- _]))) as Ho2. simpl in Ho2.
  destruct (owns_holds _ _ _ k false Ho2) as (nd2 & Hnd2 & Hu2); [by rewrite lookup_partial_alter, decide_True|].
  rewrite (alter_insert _ _ _ _ Hnd2).
  assert (Hsi2 : sinv (with_nodes (<[k := set_using None nd2]> (nodes s2)) s2)).
  { destruct Ho2 as [Hs _]. unfold sinv in *. simpl. rewrite Hs, (count_insert _ _ _ _ Hnd2).
    replace (counted nd2) with false by (unfold counted; by rewrite Hu2). simpl. f_equal. lia. }
  exists (Some (ERel i k)). split.
  { apply update_guar; try done; [intros j ?; unfold user; rewrite Hu2; simpl; congruence|].
    apply SRelease. unfold users. rewrite list_lookup_fmap, Hnd2. simpl. unfold user. by rewrite Hu2. }
  simpl. intros s3 Hr3. split; [by rewrite app_nil_r|]. eapply owns_rely; [done|].
  pose proof (owns_update i _ s2 k nd2 None (active s2) Ho2 Hnd2 Hsi2 ltac:(done)) as Ho3. simpl in Ho3.
  change (owns i (delete k (partial_alter (fun _ => Some false) k H)) (with_nodes
    (<[k := set_using None nd2]> (nodes s2)) s2)) in Ho3.
  by rewrite delete_partial_alter_eq in Ho3.
Qed.

Definition owned (hs : list nat) : gmap nat bool := list_to_map ((fun k => (k, true)) <$> hs).
Lemma owned_cons h hs : owned (h :: hs) = <[h := true]> (owned hs).
Proof. reflexivity. Qed.

(** ** Clients: threads that take and give back slots in any nested order *)
Fixpoint client (i fuel : nat) (script : list bool) (hs : list nat) : prog ReusableSlots (list nat) :=
  match script with
  | [] => Ret hs
  | true :: sc => k <- acquire_or_default i fuel ; client i fuel sc (k :: hs)
  | false :: sc =>
      match hs with
      | [] => client i fuel sc []
      | k :: hs' => drop_entry i k ;; client i fuel sc hs'
      end
  end.

Lemma owned_lookup hs k b : owned hs !! k = Some b <-> b = true /\ k ∈ hs.
Proof.
  induction hs as [|h hs IH].
  - split; [done|]. intros [_ H]. by apply not_elem_of_nil in H.
  - rewrite owned_cons, lookup_insert_Some, IH, elem_of_cons.
    destruct (decide (h = k)); naive_solver.
Qed.

Lemma slots_client_wp i fuel sc hs tr s : owns i (owned hs) s -> NoDup hs ->
  wp (rely i) (guar i) (client i fuel sc hs) tr (fun hs' _ s' => owns i (owned hs') s' /\ NoDup hs') s.
Proof.
  revert hs tr s. induction sc as [|[] sc IH]; intros hs tr s Ho Hnd.
  - simpl. intros s' Hr. split; [by eapply owns_rely|done].
  - cbn [client]. apply wp_bind; [apply _|]. eapply wp_mono; [|by apply acquire_wp].
    intros k tr' s' (_ & Hk & Ho'). apply IH; [done|]. constructor; [|done].
    intros Hin. assert (owned hs !! k = Some true) by by apply owned_lookup. congruence.
  - cbn [client]. destruct hs as [|k hs]; [by apply IH|].
    apply NoDup_cons in Hnd as [Hk Hnd]. apply wp_bind; [apply _|].
    eapply wp_mono; [|apply (drop_wp i (owned (k :: hs))); [done|apply lookup_insert_eq]].
    intros _ tr' s' [_ Ho']. apply IH; [|done]. rewrite owned_cons, delete_insert_id in Ho'; [done|].
    destruct (owned hs !! k) as [b|] eqn:E; [|done]. by apply owned_lookup in E as [_ ?].
Qed.

Lemma count_users l : (forall nd j b, nd ∈ l -> n_using nd = Some (j, b) -> b = true) ->
  count l = Z.of_nat (length (filter is_Some (user <$> l))).
Proof.
  induction l as [|nd l IH]; intros Hb; [done|]. csimpl.
  rewrite IH by (intros; eapply Hb; [by right|done]).
  pose proof (Hb nd) as Hn. unfold counted, user in *. destruct (n_using nd) as [[j b]|]; simpl.
  - rewrite (Hn j b) by (done || by left). simpl. lia.
  - rewrite filter_cons_False by (by intros [? ?]). lia.
Qed.

Lemma gsteps_own n s t s' : gsteps (fun i o x y => i < n /\ guar i o x y) s t s' ->
  (sinv s -> sinv s') /\ (forall j b k, n <= j -> holds j b s k <-> holds j b s' k).
Proof.
  induction 1 as [s|i o s1 s2 t s3 (Hi & Hr & Hs & _) _ [IH1 IH2]]; [done|].
  split; [auto|]. intros j b k Hj. rewrite <- IH2 by done. apply Hr. lia.
Qed.

(** C17. Any number of threads taking and giving back slots, in any interleaving.  The
    order of the winning compare-exchanges and of the releasing stores is a run of
    the abstract allocator, in which a slot is acquired only when free and released
    only by the thread that acquired it: no slot ever has two users.  A thread ends
    with exactly the slots it has not given back, no node is dangling, and once all
    threads are done [active_count] is the number of slots in use. *)
Theorem slots_exclusive fuel (scripts : list (list bool)) ps' s' :
  rtc pstep (imap (fun i sc => client i fuel sc []) scripts, default_slots) (ps', s') ->
  (exists t : list (nat * event), runs spec [] (t.*2) (users s')) /\
  (forall i e, ps' !! i = Some (Stop e) -> e = OutOfFuel) /\
  (forall i hs, ps' !! i = Some (Ret hs) ->
     NoDup hs /\ forall k, users s' !! k = Some (Some i) <-> k ∈ hs) /\
  ((forall i, i < length scripts -> exists hs, ps' !! i = Some (Ret hs)) ->
     active s' = (Z.of_nat (length (filter is_Some (users s'))) mod wmod)%Z).
Proof.
  intros Hrtc.
  apply (pool_sound rely (fun i o x y => i < length scripts /\ guar i o x y)
    (fun i hs _ s => owns i (owned hs) s /\ NoDup hs) _ _ _ _ (fun _ => []))
    in Hrtc as (t & Ht & Hend); [|apply _|by intros i j o x y ? [_ ?]; eapply slots_guar_rely|].
  2: { intros i p Hp. rewrite list_lookup_imap in Hp. destruct (scripts !! i) as [sc|] eqn:Es; simplify_eq/=.
    eapply wp_guar; [|apply slots_client_wp; [|constructor]].
    - intros o x y HG. split; [by eapply lookup_lt_Some|done].
    - split; [done|]. intros k b. unfold holds. simpl. rewrite lookup_nil. by split; [intros (? & ? & _)|]. }
  assert (Hret : forall i hs, ps' !! i = Some (Ret hs) -> owns i (owned hs) s' /\ NoDup hs).
  { intros i hs Hp. apply Hend, wp_ret_now in Hp; [done|apply _]. }
  destruct (gsteps_own _ _ _ _ Ht) as [Hs Hno]. specialize (Hs eq_refl).
  split; [exists t|split; [|split]].
  - change [] with (users default_slots). eapply gsteps_runs; [| |exact Ht].
    + by intros ??? (_ & _ & _ & H).
    + by intros ???? (_ & _ & _ & H).
  - intros i e Hp. by eapply Hend, wp_stop in Hp.
  - intros i hs Hp. destruct (Hret i hs Hp) as [[_ Ho] Hnd]. split; [done|]. intros k.
    unfold users. rewrite list_lookup_fmap, fmap_Some. split.
    + intros (nd & Hnd' & Eu). unfold user in Eu. destruct (n_using nd) as [[j b]|] eqn:En; [|done].
      simpl in Eu. injection Eu as <-. apply (owned_lookup hs k b), Ho. by exists nd.
    + intros Hk. destruct (Ho k true) as [_ [nd [Hnd' En]]]; [by apply owned_lookup|].
      exists nd. split; [done|]. unfold user. by rewrite En.
  - intros Hall. rewrite Hs. f_equal. apply count_users. intros nd j b [k Hk]%list_elem_of_lookup En.
    assert (Hh : holds j b s' k) by by exists nd.
    destruct (Nat.lt_ge_cases j (length scripts)) as [Hj|Hj].
    + destruct (Hall j Hj) as [hs Hp]. destruct (Hret _ _ Hp) as [[_ Ho] _].
      apply Ho in Hh. by apply owned_lookup in Hh as [-> _].
    + apply Hno in Hh as (nd' & Hnd' & _); [|done]. simpl in Hnd'. by rewrite lookup_nil in Hnd'.
Qed.

(** ** Without interference *)
Definition taken (i : nat) (s : ReusableSlots) (j : nat) (s' : ReusableSlots) : Prop :=
  nodes s' = match nodes s !! j with
             | Some nd => <[j := set_using (Some (i, true)) nd]> (nodes s)
             | None => nodes s ++ [mkNode (Some (i, true)) dflt]
             end /\
  users s' = match users s !! j with
             | Some _ => <[j := Some i]> (users s)
             | None => users s ++ [Some i]
             end /\
  active s' = wadd (active s) 1 /\ j <= length (nodes s) /\
  (forall j' nd, j' < j -> nodes s !! j' = Some nd -> is_using nd = true) /\
  (forall nd, nodes s !! j = Some nd -> is_using nd = false).

Lemma run_acquire_step i s k : k <= length (nodes s) ->
  (forall j nd, j < k -> nodes s !! j = Some nd -> is_using nd = true) ->
  (exists nd, nodes s !! k = Some nd /\ is_using nd = true /\
     run (acquire_step i k) s = Ok (inl (S k), s)) \/
  (exists s', run (acquire_step i k) s = Ok (inr k, s') /\ taken i s k s').
Proof.
  intros Hle Hbefore. destruct (decide (k = length (nodes s))) as [Ek|Ek].
  - right. unfold acquire_step. simpl. destruct (Nat.ltb_spec k (length (nodes s))); [lia|]. simpl.
    rewrite decide_True by done. simpl. eexists. split; [done|].
    assert (Hnone : nodes s !! k = None) by by (apply lookup_ge_None; lia).
    rewrite (alter_insert _ _ _ (new_using i)) by (subst k; by apply list_lookup_middle).
    unfold taken, users. simpl. rewrite list_lookup_fmap, Hnone. simpl. rewrite list_fmap_insert, fmap_app. simpl.
    split_and!; [| |done|done|done|by intros ? ?].
    + subst k. by rewrite insert_app_r_alt, Nat.sub_diag by lia.
    + rewrite list_insert_id; [done|]. subst k. rewrite <- (length_fmap user). by apply list_lookup_middle.
  - assert (Hlt : k < length (nodes s)) by lia. apply lookup_lt_is_Some in Hlt as [nd Hnd].
    assert (E : (k <? length (nodes s)) = true) by (apply Nat.ltb_lt; by eapply lookup_lt_Some).
    unfold acquire_step. simpl. rewrite E. simpl. rewrite Hnd. destruct (is_using nd) eqn:Eu; simpl.
    + left. by exists nd.
    + right. rewrite Hnd, Eu. simpl. eexists. split; [done|].
      unfold taken, users. simpl. rewrite list_lookup_fmap, Hnd. simpl.
      erewrite alter_insert by (apply list_lookup_insert_eq; by eapply lookup_lt_Some).
      rewrite list_insert_insert_eq, list_fmap_insert. simpl.
      split_and!; [done|done|done|done|done|]. intros ? [= <-]. done.
Qed.

Lemma run_search i fuel s k : length (nodes s) - k < fuel -> k <= length (nodes s) ->
  (forall j nd, j < k -> nodes s !! j = Some nd -> is_using nd = true) ->
  exists j s', run (loop fuel (acquire_step i) k) s = Ok (j, s') /\ taken i s j s'.
Proof.
  revert k. induction fuel as [|fuel IH]; intros k Hf Hle Hk; [lia|]. cbn [loop].
  destruct (run_acquire_step i s k Hle Hk) as [(nd & Hnd & Hu & E)|(s' & E & Ht)];
    rewrite (run_bind_ok _ _ _ _ _ E); [|by exists k, s'].
  apply lookup_lt_Some in Hnd as Hlt. apply IH; [lia|lia|].
  intros j nd' Hj Hnd'. destruct (decide (j = k)) as [->|]; [congruence|]. apply (Hk j); [lia|done].
Qed.

(** Without interference the search ends after visiting each slot at most once; it
    takes the first free slot, and grows the list only when there is none. *)
Theorem acquire_sequential i s :
  exists j s', run (acquire_or_default i (S (length (nodes s)))) s = Ok (j, s') /\
    users s' = match users s !! j with
               | Some _ => <[j := Some i]> (users s)
               | None => users s ++ [Some i]
               end /\
    active s' = wadd (active s) 1 /\ j <= length (nodes s) /\
    (forall j' nd, j' < j -> nodes s !! j' = Some nd -> is_using nd = true) /\
    (forall nd, nodes s !! j = Some nd -> is_using nd = false).
Proof.
  destruct (run_search i (S (length (nodes s))) s 0) as (j & s' & E & _ & H); [lia|lia|intros; lia|]. by exists j, s'.
Qed.
End slots.

Arguments node T : clear implicits.
Arguments ReusableSlots T : clear implicits.

(** ** Concrete instance: three threads, one of which gives a slot back *)
Definition sample_users : list (prog (ReusableSlots nat) (list nat)) * ReusableSlots nat :=
  pool_run (concat (replicate 20 [0; 1; 2]))
    (imap (fun i sc => client 0 i 20 sc []) [[true; false]; [true]; [true; true]], default_slots).
Lemma slots_exclusive_witness :
  results sample_users.1 = [Some []; Some [1]; Some [0; 2]] /\
  exists t : list (nat * event), runs spec [] (t.*2) (users sample_users.2).
Proof.
  split; [vm_compute; reflexivity|].
  exact (proj1 (slots_exclusive 0 20 _ sample_users.1 sample_users.2 (pool_run_rtc _ _))).
Defined.
