(* ===== verification/State.v ===== *)
(** * The collector state ([src/internal.rs])

    The managed heap, the per-thread [Local] records and the [Global] record, each
    with its field updates.  A managed object is a header word and an item; the
    item is its payload and the cells ([AtomicSharedOption] links) the traversal
    methods of its type visit, in order.  Cells have an identity of their own, so
    that the same operations apply to a link inside an object and to one owned by
    the program. *)
From S2P Require Import Prelude Prog Epoch Meta Slots Registry.
From Stdlib Require Import Permutation.
#[local] Open Scope Z_scope.

Definition OBJ_BATCHES_SHARD : nat := 8.
Definition OBJ_BATCH_SIZE : nat := 64.
Definition HAZARDS_INIT_COUNT : nat := 8.
Definition ALLOC_HELPING_PERIOD : Z := 64.
Definition SCHED_HELPING_PERIOD : Z := 32.

(** ** What the crate takes from outside

    [fastrand] picks shards, crossbeam's work-stealing deque moves tasks between
    threads, and the allocator returns addresses. *)
Inductive steal_result (X : Type) :=
  | SEmpty
  | SRetry
  | SSuccess (x : X) (src dest : list X).
Arguments SEmpty {X}.
Arguments SRetry {X}.
Arguments SSuccess {X} x src dest.

Class Extern := {
  ext_layout :: Layout;
  (** [fastrand::Rng]: [usize(0..n)] and [shuffle]. *)
  Rng : Type;
  rng_new : Rng;
  rng_usize : Rng -> nat -> nat * Rng;
  rng_usize_lt : forall r n, (0 < n)%nat -> ((rng_usize r n).1 < n)%nat;
  rng_shuffle : Rng -> list nat -> list nat * Rng;
  rng_shuffle_perm : forall r l, Permutation (rng_shuffle r l).1 l;
  (** [Stealer::steal_batch_with_limit_and_pop(dest, limit)]: some tasks move from
      the source to the destination queue, and one of them is returned. *)
  steal_batch : forall {X}, list X -> list X -> nat -> steal_result X;
  steal_empty : forall X (dest : list X) n, steal_batch [] dest n = SEmpty;
  steal_not_empty : forall X (src dest : list X) n, src <> [] -> steal_batch src dest n <> SEmpty;
  steal_perm : forall X (src dest : list X) n x src' dest',
    steal_batch src dest n = SSuccess x src' dest' ->
    Permutation (src ++ dest) (x :: src' ++ dest');
  (** The hash of a [TypeId] by [DefaultHasher], a [usize]. *)
  type_hash : nat -> Z;
  type_hash_ok : forall t, 0 <= type_hash t < wmod;
  (** The allocator: an unused, aligned, non-null address that fits in a pointer. *)
  alloc_addr : gset Z -> option Z;
  alloc_addr_ok : forall used a, alloc_addr used = Some a ->
    (a ∉ used) /\ exists q, a = q * 2 ^ align_log /\ 0 < q < 2 ^ (62 - align_log)
}.

Section state.
Context {EX : Extern} {V : Type}.

(** ** The managed heap *)
Definition cell : Type := nat.
(** [ManObj<T>]: [header] and [item]; [o_size] is [size_of_val], [o_type] the type. *)
Record obj := mkObj {
  o_hdr : Z;  (** the header word *)
  o_type : nat;
  o_size : Z;
  o_val : V;  (** the payload of the item *)
  o_links : list cell  (** its managed links, in traversal order *)
}.
Definition set_o_hdr (h : Z -> Z) (r : obj) : obj :=
  mkObj (h (o_hdr r)) (o_type r) (o_size r) (o_val r) (o_links r).
Definition set_o_type (h : nat -> nat) (r : obj) : obj :=
  mkObj (o_hdr r) (h (o_type r)) (o_size r) (o_val r) (o_links r).
Definition set_o_size (h : Z -> Z) (r : obj) : obj :=
  mkObj (o_hdr r) (o_type r) (h (o_size r)) (o_val r) (o_links r).
Definition set_o_val (h : V -> V) (r : obj) : obj :=
  mkObj (o_hdr r) (o_type r) (o_size r) (h (o_val r)) (o_links r).
Definition set_o_links (h : list cell -> list cell) (r : obj) : obj :=
  mkObj (o_hdr r) (o_type r) (o_size r) (o_val r) (h (o_links r)).

(** [ObjBatch(Vec<Box<dyn MarkObj>>)]: the boxed objects by address. *)
Record ObjBatch := mkBatch { b_items : list Z; b_cap : nat }.
Definition batch_with_capacity (capacity : nat) : ObjBatch := mkBatch [] capacity.
Definition batch_default : ObjBatch := batch_with_capacity OBJ_BATCH_SIZE.
(** [inl]: [Ok], the batch with the item; [inr]: [Err], the item handed back. *)
Definition push_within_capacity (b : ObjBatch) (item : Z) : ObjBatch + Z :=
  if (length (b_items b) <? b_cap b)%nat then inl (mkBatch (b_items b ++ [item]) (b_cap b))
  else inr item.
Definition batch_is_empty (b : ObjBatch) : bool :=
  match b_items b with [] => true | _ => false end.

(** ** Per-thread records: [struct Local] *)
Record local := mkLocal {
  l_guard_count : Z;  (** guards keeping this participant pinned *)
  l_last_observed : Epoch;
  l_alloc_count : Z;
  l_sched_count : Z;
  l_helping_normal : bool;
  l_helping_root_tracing : bool;
  l_helping_draining : bool;
  l_hazards : list Z;  (** the hazard slots *)
  l_markers : list (option nat);  (** [hazards_marker]: the type of each protected object *)
  l_epoch : Epoch;  (** the local epoch *)
  l_mt_modified_ts : Z;
  l_hids : list nat;  (** [available_hids], the last one on top *)
  l_rng : Rng;
  l_objs : list (ObjBatch * Z);  (** one batch and byte count per allocation colour *)
  l_tasks : list Z;  (** [mark_tasks]: the objects to mark, oldest first *)
  l_cached : option (gset Z * Epoch)  (** [cached_hazards] *)
}.
Definition set_l_guard_count (h : Z -> Z) (r : local) : local :=
  mkLocal (h (l_guard_count r)) (l_last_observed r) (l_alloc_count r) (l_sched_count r)
    (l_helping_normal r) (l_helping_root_tracing r) (l_helping_draining r) (l_hazards r)
    (l_markers r) (l_epoch r) (l_mt_modified_ts r) (l_hids r) (l_rng r) (l_objs r)
    (l_tasks r) (l_cached r).
Definition set_l_last_observed (h : Epoch -> Epoch) (r : local) : local :=
  mkLocal (l_guard_count r) (h (l_last_observed r)) (l_alloc_count r) (l_sched_count r)
    (l_helping_normal r) (l_helping_root_tracing r) (l_helping_draining r) (l_hazards r)
    (l_markers r) (l_epoch r) (l_mt_modified_ts r) (l_hids r) (l_rng r) (l_objs r)
    (l_tasks r) (l_cached r).
Definition set_l_alloc_count (h : Z -> Z) (r : local) : local :=
  mkLocal (l_guard_count r) (l_last_observed r) (h (l_alloc_count r)) (l_sched_count r)
    (l_helping_normal r) (l_helping_root_tracing r) (l_helping_draining r) (l_hazards r)
    (l_markers r) (l_epoch r) (l_mt_modified_ts r) (l_hids r) (l_rng r) (l_objs r)
    (l_tasks r) (l_cached r).
Definition set_l_sched_count (h : Z -> Z) (r : local) : local :=
  mkLocal (l_guard_count r) (l_last_observed r) (l_alloc_count r) (h (l_sched_count r))
    (l_helping_normal r) (l_helping_root_tracing r) (l_helping_draining r) (l_hazards r)
    (l_markers r) (l_epoch r) (l_mt_modified_ts r) (l_hids r) (l_rng r) (l_objs r)
    (l_tasks r) (l_cached r).
Definition set_l_helping_normal (h : bool -> bool) (r : local) : local :=
  mkLocal (l_guard_count r) (l_last_observed r) (l_alloc_count r) (l_sched_count r) (h
    (l_helping_normal r)) (l_helping_root_tracing r) (l_helping_draining r) (l_hazards
    r) (l_markers r) (l_epoch r) (l_mt_modified_ts r) (l_hids r) (l_rng r) (l_objs r)
    (l_tasks r) (l_cached r).
Definition set_l_helping_root_tracing (h : bool -> bool) (r : local) : local :=
  mkLocal (l_guard_count r) (l_last_observed r) (l_alloc_count r) (l_sched_count r)
    (l_helping_normal r) (h (l_helping_root_tracing r)) (l_helping_draining r)
    (l_hazards r) (l_markers r) (l_epoch r) (l_mt_modified_ts r) (l_hids r) (l_rng r)
    (l_objs r) (l_tasks r) (l_cached r).
Definition set_l_helping_draining (h : bool -> bool) (r : local) : local :=
  mkLocal (l_guard_count r) (l_last_observed r) (l_alloc_count r) (l_sched_count r)
    (l_helping_normal r) (l_helping_root_tracing r) (h (l_helping_draining r))
    (l_hazards r) (l_markers r) (l_epoch r) (l_mt_modified_ts r) (l_hids r) (l_rng r)
    (l_objs r) (l_tasks r) (l_cached r).
Definition set_l_hazards (h : list Z -> list Z) (r : local) : local :=
  mkLocal (l_guard_count r) (l_last_observed r) (l_alloc_count r) (l_sched_count r)
    (l_helping_normal r) (l_helping_root_tracing r) (l_helping_draining r) (h (l_hazards
    r)) (l_markers r) (l_epoch r) (l_mt_modified_ts r) (l_hids r) (l_rng r) (l_objs r)
    (l_tasks r) (l_cached r).
Definition set_l_markers (h : list (option nat) -> list (option nat)) (r : local) : local :=
  mkLocal (l_guard_count r) (l_last_observed r) (l_alloc_count r) (l_sched_count r)
    (l_helping_normal r) (l_helping_root_tracing r) (l_helping_draining r) (l_hazards r)
    (h (l_markers r)) (l_epoch r) (l_mt_modified_ts r) (l_hids r) (l_rng r) (l_objs r)
    (l_tasks r) (l_cached r).
Definition set_l_epoch (h : Epoch -> Epoch) (r : local) : local :=
  mkLocal (l_guard_count r) (l_last_observed r) (l_alloc_count r) (l_sched_count r)
    (l_helping_normal r) (l_helping_root_tracing r) (l_helping_draining r) (l_hazards r)
    (l_markers r) (h (l_epoch r)) (l_mt_modified_ts r) (l_hids r) (l_rng r) (l_objs r)
    (l_tasks r) (l_cached r).
Definition set_l_mt_modified_ts (h : Z -> Z) (r : local) : local :=
  mkLocal (l_guard_count r) (l_last_observed r) (l_alloc_count r) (l_sched_count r)
    (l_helping_normal r) (l_helping_root_tracing r) (l_helping_draining r) (l_hazards r)
    (l_markers r) (l_epoch r) (h (l_mt_modified_ts r)) (l_hids r) (l_rng r) (l_objs r)
    (l_tasks r) (l_cached r).
Definition set_l_hids (h : list nat -> list nat) (r : local) : local :=
  mkLocal (l_guard_count r) (l_last_observed r) (l_alloc_count r) (l_sched_count r)
    (l_helping_normal r) (l_helping_root_tracing r) (l_helping_draining r) (l_hazards r)
    (l_markers r) (l_epoch r) (l_mt_modified_ts r) (h (l_hids r)) (l_rng r) (l_objs r)
    (l_tasks r) (l_cached r).
Definition set_l_rng (h : Rng -> Rng) (r : local) : local :=
  mkLocal (l_guard_count r) (l_last_observed r) (l_alloc_count r) (l_sched_count r)
    (l_helping_normal r) (l_helping_root_tracing r) (l_helping_draining r) (l_hazards r)
    (l_markers r) (l_epoch r) (l_mt_modified_ts r) (l_hids r) (h (l_rng r)) (l_objs r)
    (l_tasks r) (l_cached r).
Definition set_l_objs (h : list (ObjBatch * Z) -> list (ObjBatch * Z)) (r : local) : local :=
  mkLocal (l_guard_count r) (l_last_observed r) (l_alloc_count r) (l_sched_count r)
    (l_helping_normal r) (l_helping_root_tracing r) (l_helping_draining r) (l_hazards r)
    (l_markers r) (l_epoch r) (l_mt_modified_ts r) (l_hids r) (l_rng r) (h (l_objs r))
    (l_tasks r) (l_cached r).
Definition set_l_tasks (h : list Z -> list Z) (r : local) : local :=
  mkLocal (l_guard_count r) (l_last_observed r) (l_alloc_count r) (l_sched_count r)
    (l_helping_normal r) (l_helping_root_tracing r) (l_helping_draining r) (l_hazards r)
    (l_markers r) (l_epoch r) (l_mt_modified_ts r) (l_hids r) (l_rng r) (l_objs r) (h
    (l_tasks r)) (l_cached r).
Definition set_l_cached (h : option (gset Z * Epoch) -> option (gset Z * Epoch)) (r : local) : local :=
  mkLocal (l_guard_count r) (l_last_observed r) (l_alloc_count r) (l_sched_count r)
    (l_helping_normal r) (l_helping_root_tracing r) (l_helping_draining r) (l_hazards r)
    (l_markers r) (l_epoch r) (l_mt_modified_ts r) (l_hids r) (l_rng r) (l_objs r)
    (l_tasks r) (h (l_cached r)).

(** [impl Default for Local] *)
Definition local_default : local :=
  mkLocal 0 starting 0 0 false false false
    (replicate HAZARDS_INIT_COUNT 0) (replicate HAZARDS_INIT_COUNT None)
    starting 0 (seq 0 HAZARDS_INIT_COUNT) rng_new
    [(batch_default, 0); (batch_default, 0)] [] None.

(** [struct Guard]: the participant it pins; its [should_help] cell lives in the
    state under [gd_id], because the guard is passed around by reference. *)
Record guard := mkGuard { gd_id : nat; gd_local : nat }.

(** ** [struct Global], with the heap and the live guards *)
Record gstate := mkG {
  g_objs : gmap Z obj;  (** allocated objects by address *)
  g_cells : gmap cell Z;  (** every live [AtomicSharedOption] link *)
  g_help : gmap nat bool;  (** [should_help] of the live guards *)
  g_locals : ReusableSlots local;  (** [locals] *)
  g_epoch : Epoch;  (** [epoch] *)
  g_fresh : list (list (list ObjBatch));  (** [fresh_objs\[color\]\[shard\]] *)
  g_marked : list (list (list ObjBatch));  (** [marked_objs] *)
  g_allocated : Z;  (** [stats.total_allocated] *)
  g_reclaimed : Z;  (** [stats.total_reclaimed] *)
  g_collector_init : bool;
  g_enabled : bool;  (** [collection_enabled] *)
  g_requested : bool;  (** [collection_requested] *)
  g_headroom : Z;  (** packed [HeapHeadroom] *)
  g_threads : Z;  (** [collector_threads] *)
  g_reg : registry nat  (** the type registry *)
}.
Definition set_g_objs (h : gmap Z obj -> gmap Z obj) (r : gstate) : gstate :=
  mkG (h (g_objs r)) (g_cells r) (g_help r) (g_locals r) (g_epoch r) (g_fresh r)
    (g_marked r) (g_allocated r) (g_reclaimed r) (g_collector_init r) (g_enabled r)
    (g_requested r) (g_headroom r) (g_threads r) (g_reg r).
Definition set_g_cells (h : gmap cell Z -> gmap cell Z) (r : gstate) : gstate :=
  mkG (g_objs r) (h (g_cells r)) (g_help r) (g_locals r) (g_epoch r) (g_fresh r)
    (g_marked r) (g_allocated r) (g_reclaimed r) (g_collector_init r) (g_enabled r)
    (g_requested r) (g_headroom r) (g_threads r) (g_reg r).
Definition set_g_help (h : gmap nat bool -> gmap nat bool) (r : gstate) : gstate :=
  mkG (g_objs r) (g_cells r) (h (g_help r)) (g_locals r) (g_epoch r) (g_fresh r)
    (g_marked r) (g_allocated r) (g_reclaimed r) (g_collector_init r) (g_enabled r)
    (g_requested r) (g_headroom r) (g_threads r) (g_reg r).
Definition set_g_locals (h : ReusableSlots local -> ReusableSlots local) (r : gstate) : gstate :=
  mkG (g_objs r) (g_cells r) (g_help r) (h (g_locals r)) (g_epoch r) (g_fresh r)
    (g_marked r) (g_allocated r) (g_reclaimed r) (g_collector_init r) (g_enabled r)
    (g_requested r) (g_headroom r) (g_threads r) (g_reg r).
Definition set_g_epoch (h : Epoch -> Epoch) (r : gstate) : gstate :=
  mkG (g_objs r) (g_cells r) (g_help r) (g_locals r) (h (g_epoch r)) (g_fresh r)
    (g_marked r) (g_allocated r) (g_reclaimed r) (g_collector_init r) (g_enabled r)
    (g_requested r) (g_headroom r) (g_threads r) (g_reg r).
Definition set_g_fresh (h : list (list (list ObjBatch)) -> list (list (list ObjBatch))) (r : gstate) : gstate :=
  mkG (g_objs r) (g_cells r) (g_help r) (g_locals r) (g_epoch r) (h (g_fresh r))
    (g_marked r) (g_allocated r) (g_reclaimed r) (g_collector_init r) (g_enabled r)
    (g_requested r) (g_headroom r) (g_threads r) (g_reg r).
Definition set_g_marked (h : list (list (list ObjBatch)) -> list (list (list ObjBatch))) (r : gstate) : gstate :=
  mkG (g_objs r) (g_cells r) (g_help r) (g_locals r) (g_epoch r) (g_fresh r) (h
    (g_marked r)) (g_allocated r) (g_reclaimed r) (g_collector_init r) (g_enabled r)
    (g_requested r) (g_headroom r) (g_threads r) (g_reg r).
Definition set_g_allocated (h : Z -> Z) (r : gstate) : gstate :=
  mkG (g_objs r) (g_cells r) (g_help r) (g_locals r) (g_epoch r) (g_fresh r) (g_marked
    r) (h (g_allocated r)) (g_reclaimed r) (g_collector_init r) (g_enabled r)
    (g_requested r) (g_headroom r) (g_threads r) (g_reg r).
Definition set_g_reclaimed (h : Z -> Z) (r : gstate) : gstate :=
  mkG (g_objs r) (g_cells r) (g_help r) (g_locals r) (g_epoch r) (g_fresh r) (g_marked
    r) (g_allocated r) (h (g_reclaimed r)) (g_collector_init r) (g_enabled r)
    (g_requested r) (g_headroom r) (g_threads r) (g_reg r).
Definition set_g_collector_init (h : bool -> bool) (r : gstate) : gstate :=
  mkG (g_objs r) (g_cells r) (g_help r) (g_locals r) (g_epoch r) (g_fresh r) (g_marked
    r) (g_allocated r) (g_reclaimed r) (h (g_collector_init r)) (g_enabled r)
    (g_requested r) (g_headroom r) (g_threads r) (g_reg r).
Definition set_g_enabled (h : bool -> bool) (r : gstate) : gstate :=
  mkG (g_objs r) (g_cells r) (g_help r) (g_locals r) (g_epoch r) (g_fresh r) (g_marked
    r) (g_allocated r) (g_reclaimed r) (g_collector_init r) (h (g_enabled r))
    (g_requested r) (g_headroom r) (g_threads r) (g_reg r).
Definition set_g_requested (h : bool -> bool) (r : gstate) : gstate :=
  mkG (g_objs r) (g_cells r) (g_help r) (g_locals r) (g_epoch r) (g_fresh r) (g_marked
    r) (g_allocated r) (g_reclaimed r) (g_collector_init r) (g_enabled r) (h
    (g_requested r)) (g_headroom r) (g_threads r) (g_reg r).
Definition set_g_headroom (h : Z -> Z) (r : gstate) : gstate :=
  mkG (g_objs r) (g_cells r) (g_help r) (g_locals r) (g_epoch r) (g_fresh r) (g_marked
    r) (g_allocated r) (g_reclaimed r) (g_collector_init r) (g_enabled r) (g_requested
    r) (h (g_headroom r)) (g_threads r) (g_reg r).
Definition set_g_threads (h : Z -> Z) (r : gstate) : gstate :=
  mkG (g_objs r) (g_cells r) (g_help r) (g_locals r) (g_epoch r) (g_fresh r) (g_marked
    r) (g_allocated r) (g_reclaimed r) (g_collector_init r) (g_enabled r) (g_requested
    r) (g_headroom r) (h (g_threads r)) (g_reg r).
Definition set_g_reg (h : registry nat -> registry nat) (r : gstate) : gstate :=
  mkG (g_objs r) (g_cells r) (g_help r) (g_locals r) (g_epoch r) (g_fresh r) (g_marked
    r) (g_allocated r) (g_reclaimed r) (g_collector_init r) (g_enabled r) (g_requested
    r) (g_headroom r) (g_threads r) (h (g_reg r)).
End state.

Arguments obj V : clear implicits.
Arguments gstate {_} V.
