(* ===== verification/Heap.v ===== *)
(** * The managed heap and marking ([src/pointers.rs], [src/internal.rs])

    The atomic accesses to cells, headers, thread records and the global record,
    and what the collector and the barriers do with them: marking an object, shading
    a link or a pointee, scheduling a mark task.

    [fuel] bounds every retry loop.  Memory orderings do not appear: the model is
    sequentially consistent, so the fences of the code are no-ops. *)
From S2P Require Import Prelude Prog Epoch Meta Slots Registry State.
#[local] Open Scope Z_scope.
#[local] Open Scope prog_scope.

Definition of_res {S A} (r : res A) : prog S A :=
  match r with Ok a => Ret a | Stopped e => Stop e end.

Section heap.
Context {EX : Extern} {V : Type} (fuel : nat).
#[local] Abbreviation M := (prog (gstate V)).

(** ** Cells: [AtomicPtr] links *)
Definition load_cell (c : cell) : M Z :=
  atomic (fun s => match g_cells s !! c with
                   | Some p => Ok (p, s)
                   | None => Stopped (UB "use of a dead link")
                   end).
Definition update_cell (c : cell) (h : Z -> Z) : M Z :=
  atomic (fun s => match g_cells s !! c with
                   | Some p => Ok (p, set_g_cells <[c := h p]> s)
                   | None => Stopped (UB "use of a dead link")
                   end).
Definition store_cell (c : cell) (p : Z) : M unit := _ <- update_cell c (fun _ => p) ; Ret tt.
(** [inl]: success with the previous word, [inr]: the current word. *)
Definition cas_cell (c : cell) (old new : Z) : M (Z + Z) :=
  atomic (fun s => match g_cells s !! c with
                   | Some p => if p =? old then Ok (inl p, set_g_cells <[c := new]> s) else Ok (inr p, s)
                   | None => Stopped (UB "use of a dead link")
                   end).
(** A fresh link: the owner moves an [AtomicSharedOption] out. *)
Definition new_cell (p : Z) : M cell :=
  atomic (fun s => let c := fresh (dom (g_cells s)) in Ok (c, set_g_cells <[c := p]> s)).
Definition free_cell (c : cell) : M unit := modify (set_g_cells (delete c)).

(** ** Objects *)
Definition deref (a : Z) : M (obj V) :=
  atomic (fun s => match g_objs s !! a with
                   | Some o => Ok (o, s)
                   | None => Stopped (UB "use after free")
                   end).
(** A read-modify-write of a header; [h] may panic. *)
Definition rmw_header {A} (a : Z) (h : Z -> res (A * Z)) : M A :=
  atomic (fun s => match g_objs s !! a with
                   | Some o => match h (o_hdr o) with
                               | Ok (x, w) => Ok (x, set_g_objs <[a := set_o_hdr (fun _ => w) o]> s)
                               | Stopped e => Stopped e
                               end
                   | None => Stopped (UB "use after free")
                   end).
Definition load_header (a : Z) : M Z := rmw_header a (fun w => Ok (w, w)).
Definition increment_root_count (a : Z) : M Z := rmw_header a ObjMeta.increment_root_count.
Definition decrement_root_count (a : Z) : M Z := rmw_header a ObjMeta.decrement_root_count.
Definition cas_header (a old new : Z) : M (Z + Z) :=
  rmw_header a (fun w => Ok (if w =? old then (inl w, new) else (inr w, w))).

(** ** Thread records and guards *)
Definition get_local {A} (l : nat) (f : local -> A) : M A :=
  atomic (fun s => match nodes (g_locals s) !! l with
                   | Some nd => Ok (f (n_item nd), s)
                   | None => Stopped (UB "dangling Local")
                   end).
Definition upd_item (f : local -> local) (nd : node local) : node local :=
  mkNode (n_using nd) (f (n_item nd)).
Definition upd_local (l : nat) (f : local -> local) : M unit :=
  modify (set_g_locals (fun r => mkSlots (alter (upd_item f) l (nodes r)) (active r))).

Definition phase_of (e : Epoch) : M Phase := of_res (phase e).
Definition load_epoch : M Epoch := gets g_epoch.
Definition pinned_epoch (l : nat) : M Epoch := get_local l l_epoch.

(** [impl Guard]: what a guard sees of its participant's pinned epoch. *)
Definition local_epoch (g : guard) : M Epoch := pinned_epoch (gd_local g).
Definition guard_phase (g : guard) : M Phase := e <- local_epoch g ; phase_of e.
Definition white_color (g : guard) : M Color := e <- local_epoch g ; Ret (color e).
Definition black_color (g : guard) : M Color := c <- white_color g ; Ret (flip c).
Definition pinned_alloc_color (l : nat) : M Color :=
  e <- pinned_epoch l ;
  p <- phase_of e ;
  match p with N => Ret (color e) | _ => Ret (flip (color e)) end.
Definition alloc_color (g : guard) : M Color := pinned_alloc_color (gd_local g).
Definition global_phase_with_fence : M Phase := e <- load_epoch ; phase_of e.
Definition schedule_helping_collect (g : guard) : M unit :=
  modify (set_g_help <[gd_id g := true]>).

(** ** Marking *)
Definition is_marked (a : Z) (g : guard) : M bool :=
  w <- load_header a ;
  black <- black_color g ;
  Ret (bool_decide (ObjMeta.marked w = black)).

(** [AtomicObjMeta::mark]. *)
Definition header_mark (a : Z) (g : guard) : M unit :=
  w <- load_header a ;
  loop fuel (fun w =>
    black <- black_color g ;
    if decide (ObjMeta.marked w = black) then Ret (inr tt) else
    black' <- black_color g ;
    r <- cas_header a w (ObjMeta.with_marked w black') ;
    match r with inl _ => Ret (inr tt) | inr current => Ret (inl current) end) w.

Definition record_mt_modification (l : nat) : M unit :=
  e <- pinned_epoch l ;
  last_modified <- get_local l l_mt_modified_ts ;
  if last_modified =? timestamp e then Ret tt else
  upd_local l (set_l_mt_modified_ts (fun _ => timestamp e)) ;;
  e' <- pinned_epoch l ;
  _ <- phase_of e' ;
  Ret tt.

(** [Local::schedule_mark]; a [Task] is the object whose [mark] it calls. *)
Definition schedule_mark (a : Z) (g : guard) : M unit :=
  let l := gd_local g in
  record_mt_modification l ;;
  upd_local l (set_l_tasks (fun ts => ts ++ [a])) ;;
  n <- get_local l l_sched_count ;
  let sched_count := wadd n 1 in
  upd_local l (set_l_sched_count (fun _ => sched_count)) ;;
  if sched_count mod SCHED_HELPING_PERIOD =? 0 then schedule_helping_collect g else Ret tt.

(** [ManPtr::shade_pointee] *)
Definition shade_pointee (p : Z) (g : guard) : M bool :=
  if ManPtr.is_null p then Ret false else
  m <- is_marked (ManPtr.as_ptr p) g ;
  if m : bool then Ret false else
  schedule_mark (ManPtr.as_ptr p) g ;;
  Ret true.

(** [shade_erased]: what the registry calls for an object it knows by address only. *)
Definition shade_erased (a : Z) (g : guard) : M unit :=
  m <- is_marked a g ;
  if m : bool then Ret tt else schedule_mark a g.

(** [TracePtr::shade] of a link: colour it black, its pointee first. *)
Definition shade (c : cell) (g : guard) : M unit :=
  p <- load_cell c ;
  loop fuel (fun p =>
    assert_ (bool_decide (ManPtr.meta p <> Rooted)) "matches!(ptr.meta(), PtrMeta::Unrooted(_))" ;;
    black <- black_color g ;
    if decide (ManPtr.meta p = Unrooted black) then Ret (inr tt) else
    _ <- shade_pointee p g ;
    black' <- black_color g ;
    r <- cas_cell c p (ManPtr.with_meta p (Unrooted black')) ;
    match r with inl _ => Ret (inr tt) | inr current => Ret (inl current) end) p.

(** [TraceObj] of a managed object: every link, in order. *)
Definition shade_outgoings (a : Z) (g : guard) : M unit :=
  o <- deref a ; foreach (o_links o) (fun c => shade c g).

(** [ManObj::mark], what tasks and hazard markers call: conditional. *)
Definition obj_mark (a : Z) (g : guard) : M unit :=
  m <- is_marked a g ;
  if negb m then shade_outgoings a g ;; header_mark a g else Ret tt.
(** [MarkObj::mark], what the scans call: unconditional. *)
Definition mark_obj_mark (a : Z) (g : guard) : M unit :=
  shade_outgoings a g ;; header_mark a g.
Definition obj_color (a : Z) : M Color := w <- load_header a ; Ret (ObjMeta.marked w).
Definition obj_root_count (a : Z) : M Z := w <- load_header a ; Ret (ObjMeta.root_count w).

(** [TracePtr::unroot] of a link of an object under construction. *)
Definition unroot (c : cell) (g : guard) : M unit :=
  p <- load_cell c ;
  assert_ (bool_decide (ManPtr.meta p = Rooted)) "ptr.meta() == PtrMeta::Rooted" ;;
  (if ManPtr.is_null p then Ret tt else
   count <- decrement_root_count (ManPtr.as_ptr p) ;
   if count =? 1 then
     ph <- global_phase_with_fence ;
     if decide (ph = N) then Ret tt else _ <- shade_pointee p g ; Ret tt
   else Ret tt) ;;
  ac <- alloc_color g ;
  store_cell c (ManPtr.with_meta p (Unrooted ac)).
Definition unroot_outgoings (a : Z) (g : guard) : M unit :=
  o <- deref a ; foreach (o_links o) (fun c => unroot c g).

(** ** Symbolic execution of the accesses to a thread record *)
Definition local_of (s : gstate V) (l : nat) : option local := n_item <$> nodes (g_locals s) !! l.
Definition put_local (l : nat) (r : local) (s : gstate V) : gstate V :=
  set_g_locals (fun R => mkSlots (alter (upd_item (fun _ => r)) l (nodes R)) (active R)) s.

Lemma run_get_local {A} l (f : local -> A) s r :
  local_of s l = Some r -> run (get_local l f) s = Ok (f r, s).
Proof. unfold local_of. intros H. simpl. destruct (nodes (g_locals s) !! l); by simplify_eq/=. Qed.
Lemma run_upd_local l f s r : local_of s l = Some r ->
  run (upd_local l f) s = Ok (tt, put_local l (f r) s).
Proof.
  unfold local_of, upd_local, put_local. intros (nd & Hnd & ->)%fmap_Some. simpl.
  do 2 f_equal. destruct s; unfold set_g_locals; simpl in *. do 2 f_equal.
  apply list_eq. intros j. destruct (decide (j = l)) as [->|].
  - by rewrite !list_lookup_alter_eq, Hnd.
  - by rewrite !list_lookup_alter_ne.
Qed.
Lemma local_of_put l r s : is_Some (local_of s l) -> local_of (put_local l r s) l = Some r.
Proof.
  unfold local_of. intros [x (nd & Hnd & _)%fmap_Some]. simpl.
  by rewrite list_lookup_alter_eq, Hnd.
Qed.
Lemma local_of_put_ne l l' r s : l <> l' -> local_of (put_local l r s) l' = local_of s l'.
Proof. intros. unfold local_of. simpl. by rewrite list_lookup_alter_ne. Qed.
Lemma put_put_local l r r' s : put_local l r (put_local l r' s) = put_local l r s.
Proof.
  unfold put_local, set_g_locals. simpl. do 2 f_equal.
  apply list_eq. intros j. destruct (decide (j = l)) as [->|].
  - rewrite !list_lookup_alter_eq. by destruct (nodes (g_locals s) !! l).
  - by rewrite !list_lookup_alter_ne.
Qed.
Lemma put_local_id l r s : local_of s l = Some r -> put_local l r s = s.
Proof.
  unfold local_of. intros (nd & Hnd & ->)%fmap_Some. destruct s. unfold put_local, set_g_locals. simpl in *.
  f_equal. destruct g_locals as [ns a]. simpl in *. f_equal. apply list_eq. intros j.
  destruct (decide (j = l)) as [->|].
  - rewrite list_lookup_alter_eq, Hnd. by destruct nd.
  - by rewrite list_lookup_alter_ne.
Qed.

(** ** Symbolic execution of headers and cells *)
Lemma set_objs_id (s : gstate V) a o : g_objs s !! a = Some o -> set_g_objs <[a := o]> s = s.
Proof. intros H. destruct s. unfold set_g_objs. simpl in *. by rewrite insert_id. Qed.
Lemma run_load_header a s o : g_objs s !! a = Some o -> run (load_header a) s = Ok (o_hdr o, s).
Proof.
  intros H. unfold load_header, rmw_header. simpl. rewrite H. do 2 f_equal.
  replace (set_o_hdr (fun _ => o_hdr o) o) with o by by destruct o. by apply set_objs_id.
Qed.
Lemma run_deref a s o : g_objs s !! a = Some o -> run (deref a) s = Ok (o, s).
Proof. intros H. simpl. by rewrite H. Qed.
Lemma run_load_cell c s p : g_cells s !! c = Some p -> run (load_cell c) s = Ok (p, s).
Proof. intros H. simpl. by rewrite H. Qed.

Lemma run_black g s r : local_of s (gd_local g) = Some r ->
  run (black_color g) s = Ok (flip (color (l_epoch r)), s).
Proof.
  intros H. unfold black_color, white_color, local_epoch, pinned_epoch.
  rewrite !run_bind, (run_get_local _ _ _ _ H). done.
Qed.
Lemma run_white g s r : local_of s (gd_local g) = Some r ->
  run (white_color g) s = Ok (color (l_epoch r), s).
Proof.
  intros H. unfold white_color, local_epoch, pinned_epoch. by rewrite run_bind, (run_get_local _ _ _ _ H).
Qed.

(** *** Marked objects *)
Definition black_of (r : local) : Color := flip (color (l_epoch r)).
Definition is_black (r : local) (o : obj V) : bool := bool_decide (ObjMeta.marked (o_hdr o) = black_of r).
Lemma run_is_marked a g s r o : local_of s (gd_local g) = Some r -> g_objs s !! a = Some o ->
  run (is_marked a g) s = Ok (is_black r o, s).
Proof.
  intros Hl Ho. unfold is_marked. rewrite !run_bind, (run_load_header _ _ _ Ho).
  by rewrite run_bind, (run_black _ _ _ Hl).
Qed.

(** *** Scheduling

    What [schedule_mark] does to the state: it appends to the task queue of the
    guard's participant, whose bookkeeping fields move along, and may raise the
    guard's [should_help]. *)
Definition pushed (ts : list Z) (n : Z) (r : local) : local :=
  set_l_sched_count (fun _ => n)
    (set_l_mt_modified_ts (fun t => if ts is [] then t else timestamp (l_epoch r))
      (set_l_tasks (fun x => x ++ ts) r)).
Definition pushes (g : guard) (ts : list Z) (s s' : gstate V) : Prop :=
  exists r n h, local_of s (gd_local g) = Some r /\
    s' = set_g_help (fun _ => h) (put_local (gd_local g) (pushed ts n r) s).

Lemma pushed_nil r : pushed [] (l_sched_count r) r = r.
Proof. destruct r. cbv -[app timestamp]. by rewrite app_nil_r. Qed.
Lemma pushed_pushed ts1 ts2 n1 n2 r : pushed ts2 n2 (pushed ts1 n1 r) = pushed (ts1 ++ ts2) n2 r.
Proof.
  destruct r. cbv -[app timestamp]. rewrite <- app_assoc. by destruct ts1, ts2.
Qed.
Lemma pushes_refl g s r : local_of s (gd_local g) = Some r -> pushes g [] s s.
Proof.
  intros H. exists r, (l_sched_count r), (g_help s). split; [done|].
  rewrite pushed_nil, put_local_id by done. by destruct s.
Qed.
Lemma local_of_pushed g r r' h s : local_of s (gd_local g) = Some r ->
  local_of (set_g_help (fun _ => h) (put_local (gd_local g) r' s)) (gd_local g) = Some r'.
Proof. intros H. apply (local_of_put (gd_local g) r' s). eauto. Qed.
Lemma pushes_trans g ts1 ts2 s1 s2 s3 : pushes g ts1 s1 s2 -> pushes g ts2 s2 s3 -> pushes g (ts1 ++ ts2) s1 s3.
Proof.
  intros (r1 & n1 & h1 & L1 & ->) (r2 & n2 & h2 & L2 & ->).
  rewrite (local_of_pushed g r1) in L2 by done. injection L2 as <-.
  exists r1, n2, h2. split; [done|]. rewrite <- (pushed_pushed ts1 ts2 n1).
  by rewrite <- (put_put_local (gd_local g) (pushed ts2 n2 (pushed ts1 n1 r1)) (pushed ts1 n1 r1) s1).
Qed.
Lemma pushes_local g ts s s' r : pushes g ts s s' -> local_of s (gd_local g) = Some r ->
  exists n, local_of s' (gd_local g) = Some (pushed ts n r).
Proof.
  intros (r' & n & h & H & ->) Hr. simplify_eq. exists n. by eapply local_of_pushed.
Qed.
(** Everything else is untouched. *)
Lemma pushes_frame g ts s s' : pushes g ts s s' ->
  g_objs s' = g_objs s /\ g_cells s' = g_cells s /\ g_epoch s' = g_epoch s /\
  g_fresh s' = g_fresh s /\ g_marked s' = g_marked s /\ g_reg s' = g_reg s /\
  (forall l, l <> gd_local g -> local_of s' l = local_of s l).
Proof.
  intros (r & n & h & H & ->). split_and!; try done. intros l Hl.
  apply (local_of_put_ne (gd_local g) l _ s). done.
Qed.

(** A well-formed epoch has a phase. *)
Definition phase_ok (r : local) : Prop := exists ph, phase (l_epoch r) = Ok ph.

Lemma run_record_mt l s r : local_of s l = Some r -> phase_ok r ->
  run (record_mt_modification l) s =
    Ok (tt, put_local l (set_l_mt_modified_ts (fun _ => timestamp (l_epoch r)) r) s).
Proof.
  intros Hl [ph Hph]. unfold record_mt_modification, pinned_epoch.
  rewrite run_bind, (run_get_local _ _ _ _ Hl), run_bind, (run_get_local _ _ _ _ Hl).
  destruct (Z.eqb_spec (l_mt_modified_ts r) (timestamp (l_epoch r))) as [E|E].
  - rewrite put_local_id; [done|]. rewrite Hl. f_equal. destruct r. unfold set_l_mt_modified_ts.
    simpl in *. by rewrite E.
  - rewrite run_bind, (run_upd_local _ _ _ _ Hl), run_bind.
    erewrite run_get_local by (apply local_of_put; eauto).
    unfold phase_of. simpl. by rewrite Hph.
Qed.

Lemma run_schedule_mark a g s r : local_of s (gd_local g) = Some r -> phase_ok r ->
  exists s', run (schedule_mark a g) s = Ok (tt, s') /\ pushes g [a] s s'.
Proof.
  intros Hl Hph. unfold schedule_mark. rewrite run_bind, (run_record_mt _ _ _ Hl Hph).
  rewrite run_bind. erewrite run_upd_local by (apply local_of_put; eauto). rewrite put_put_local.
  rewrite run_bind. erewrite run_get_local by (apply local_of_put; eauto).
  rewrite run_bind. erewrite run_upd_local by (apply local_of_put; eauto). rewrite put_put_local.
  set (n := wadd _ 1). eexists. split.
  - instantiate (1 := set_g_help (fun h => if n mod SCHED_HELPING_PERIOD =? 0 then <[gd_id g := true]> h else h)
      (put_local (gd_local g) (pushed [a] n r) s)).
    by destruct (n mod SCHED_HELPING_PERIOD =? 0).
  - exists r, n. eexists. split; [done|]. done.
Qed.

(** [shade_pointee] schedules the object unless the pointer is null or the object
    marked. *)
Lemma run_shade_null p g s : ManPtr.is_null p = true -> run (shade_pointee p g) s = Ok (false, s).
Proof. intros H. unfold shade_pointee. by rewrite H. Qed.
Lemma run_shade_pointee p g s r o : local_of s (gd_local g) = Some r -> phase_ok r ->
  ManPtr.is_null p = false -> g_objs s !! ManPtr.as_ptr p = Some o ->
  exists s', run (shade_pointee p g) s = Ok (negb (is_black r o), s') /\
    pushes g (if is_black r o then [] else [ManPtr.as_ptr p]) s s'.
Proof.
  intros Hl Hph En Ho. unfold shade_pointee. rewrite En.
  rewrite run_bind, (run_is_marked _ _ _ _ _ Hl Ho).
  destruct (is_black r o); cbn [negb].
  { exists s. split; [reflexivity|]. by eapply pushes_refl. }
  destruct (run_schedule_mark (ManPtr.as_ptr p) g s r Hl Hph) as (s' & E & Hp).
  exists s'. rewrite run_bind, E. split; [reflexivity|done].
Qed.
End heap.

(** Runs the next step of a program whose access to a thread record is known. *)
Ltac run_local :=
  match goal with
  | |- context [run (bind (get_local ?l ?f) ?k) ?s] =>
      rewrite (run_bind_ok (get_local l f) k s _ _ (run_get_local l f s _ ltac:(eassumption)))
  | |- context [run (bind (upd_local ?l ?f) ?k) ?s] =>
      rewrite (run_bind_ok (upd_local l f) k s _ _ (run_upd_local l f s _ ltac:(eassumption)))
  | |- context [run (get_local ?l ?f) ?s] => rewrite (run_get_local l f s _ ltac:(eassumption))
  | |- context [run (upd_local ?l ?f) ?s] => rewrite (run_upd_local l f s _ ltac:(eassumption))
  end.
