(* ===== verification/Marking.v ===== *)
(** * What marking and shading do ([src/pointers.rs])

    The operations of [Heap] run without interference: shading a link, marking an
    object.  They only recolour links and headers and push mark tasks; [traced] says
    exactly that of two states. *)
From S2P Require Import Prelude Prog Epoch Meta Slots Registry State Heap.
#[local] Open Scope Z_scope.

Section marking.
Context {EX : Extern} {V : Type}.

(** [s'] is [s] with these cells and objects, the tasks [ts] pushed by guard [g]. *)
Definition traced (g : guard) (ts : list Z) (cells : gmap cell Z) (objs : gmap Z (obj V))
    (s s' : gstate V) : Prop :=
  exists r n h, local_of s (gd_local g) = Some r /\
    s' = set_g_objs (fun _ => objs) (set_g_cells (fun _ => cells)
           (set_g_help (fun _ => h) (put_local (gd_local g) (pushed ts n r) s))).

Lemma pushes_traced g ts s s' : pushes g ts s s' -> traced g ts (g_cells s) (g_objs s) s s'.
Proof. intros (r & n & h & Hl & ->). exists r, n, h. split; [done|]. by destruct s. Qed.
Lemma traced_local g ts cells objs s s' r : traced g ts cells objs s s' ->
  local_of s (gd_local g) = Some r -> exists n, local_of s' (gd_local g) = Some (pushed ts n r).
Proof.
  intros (r' & n & h & Hl & ->) Hr. simplify_eq. exists n. by eapply (local_of_put (gd_local g) _ s).
Qed.
Lemma traced_trans g ts1 ts2 c1 c2 o1 o2 s1 s2 s3 :
  traced g ts1 c1 o1 s1 s2 -> traced g ts2 c2 o2 s2 s3 -> traced g (ts1 ++ ts2) c2 o2 s1 s3.
Proof.
  intros T1 T2. pose proof T1 as (r1 & n1 & h1 & L1 & ->).
  destruct (traced_local _ _ _ _ _ _ _ T1 L1) as [n1' L1'].
  destruct T2 as (r2 & n2 & h2 & L2 & ->).
  assert (r2 = pushed ts1 n1 r1) as ->.
  { unfold local_of in L2. simpl in L2. apply (f_equal Some) in L1. unfold local_of in L1.
    destruct (nodes (g_locals s1) !! gd_local g) as [nd|] eqn:E; [|done].
    rewrite list_lookup_alter_eq, E in L2. simpl in L2. congruence. }
  exists r1, n2, h2. split; [done|]. rewrite <- (pushed_pushed ts1 ts2 n1).
  by rewrite <- (put_put_local (gd_local g) (pushed ts2 n2 (pushed ts1 n1 r1)) (pushed ts1 n1 r1) s1).
Qed.
Lemma traced_cells g ts cells objs s s' : traced g ts cells objs s s' ->
  g_cells s' = cells /\ g_objs s' = objs.
Proof. by intros (r & n & h & _ & ->). Qed.
Lemma traced_set_cells g ts cells objs s s' cells' : traced g ts cells objs s s' ->
  traced g ts cells' objs s (set_g_cells (fun _ => cells') s').
Proof. intros (r & n & h & Hl & ->). by exists r, n, h. Qed.
Lemma traced_set_objs g ts cells objs s s' objs' : traced g ts cells objs s s' ->
  traced g ts cells objs' s (set_g_objs (fun _ => objs') s').
Proof. intros (r & n & h & Hl & ->). by exists r, n, h. Qed.
Lemma traced_refl g s r : local_of s (gd_local g) = Some r -> traced g [] (g_cells s) (g_objs s) s s.
Proof. intros H. by eapply pushes_traced, pushes_refl. Qed.

(** The colours a participant sees do not depend on its task queue. *)
Lemma black_pushed ts n r : black_of (pushed ts n r) = black_of r.
Proof. done. Qed.
Lemma phase_ok_pushed ts n r : phase_ok r -> phase_ok (pushed ts n r).
Proof. done. Qed.

(** ** Links: a cell that holds an encoded pointer to null or to a live object *)
Definition target (p : ManPtr.ptr) : Z := ManPtr.p_addr p * 2 ^ align_log.
Definition points (s : gstate V) (p : ManPtr.ptr) : Prop :=
  ManPtr.ptr_ok p /\ (ManPtr.p_addr p <> 0 -> is_Some (g_objs s !! target p)).
Definition with_color (c : Color) (p : ManPtr.ptr) : ManPtr.ptr :=
  ManPtr.mkP (Unrooted c) (ManPtr.p_addr p) (ManPtr.p_tag p).
(** The pointee of a link still has to be traced. *)
Definition white_target (r : local) (objs : gmap Z (obj V)) (p : ManPtr.ptr) : bool :=
  negb (ManPtr.p_addr p =? 0) &&
  match objs !! target p with Some o => negb (is_black r o) | None => false end.
Definition to_push (r : local) (objs : gmap Z (obj V)) (p : ManPtr.ptr) : list Z :=
  if white_target r objs p then [target p] else [].

Lemma run_shade_ptr p g s r : local_of s (gd_local g) = Some r -> phase_ok r -> points s p ->
  exists b s', run (shade_pointee (ManPtr.encode p) g) s = Ok (b, s') /\
    pushes g (to_push r (g_objs s) p) s s'.
Proof.
  intros Hl Hph [Hp Ht]. unfold to_push, white_target.
  pose proof (ManPtr.encode_is_null p Hp) as En. pose proof (ManPtr.encode_as_ptr p Hp) as Ea.
  fold (target p) in Ea. destruct (Z.eqb_spec (ManPtr.p_addr p) 0) as [E|E]; cbn [negb andb].
  - exists false, s. rewrite run_shade_null by done. split; [done|]. by eapply pushes_refl.
  - destruct (Ht E) as [o Ho]. rewrite Ho. rewrite <- Ea in Ho.
    destruct (run_shade_pointee _ _ _ _ _ Hl Hph En Ho) as (s' & E' & Hs).
    exists (negb (is_black r o)), s'. split; [done|]. rewrite Ea in Hs. by destruct (is_black r o).
Qed.

Lemma encode_inj p q : ManPtr.ptr_ok p -> ManPtr.ptr_ok q -> ManPtr.encode p = ManPtr.encode q -> p = q.
Proof.
  intros Hp Hq E.
  pose proof (f_equal ManPtr.meta E) as E1. pose proof (f_equal ManPtr.tag E) as E2.
  pose proof (f_equal ManPtr.as_ptr E) as E3.
  rewrite !ManPtr.encode_meta in E1 by done. rewrite !ManPtr.encode_tag in E2 by done.
  rewrite !ManPtr.encode_as_ptr in E3 by done. pose proof align_log_ok.
  apply Z.mul_reg_r in E3; [|lia]. destruct p, q; simpl in *; congruence.
Qed.
Lemma with_color_ok c p : ManPtr.ptr_ok p -> ManPtr.ptr_ok (with_color c p).
Proof. done. Qed.

(** *** [shade]: colour the link black, its pointee queued first unless marked. *)
Lemma run_shade f c p col g s r : local_of s (gd_local g) = Some r -> phase_ok r ->
  g_cells s !! c = Some (ManPtr.encode p) -> points s p -> ManPtr.p_meta p = Unrooted col ->
  exists ts s', run (shade (S f) c g) s = Ok (tt, s') /\
    traced g ts (<[c := ManPtr.encode (with_color (black_of r) p)]> (g_cells s)) (g_objs s) s s' /\
    ts = (if decide (col = black_of r) then [] else to_push r (g_objs s) p).
Proof.
  intros Hl Hph Hc Hpt Hm. pose proof Hpt as [Hp _]. unfold shade.
  rewrite run_bind, (run_load_cell _ _ _ Hc). cbn [loop]. rewrite run_bind.
  rewrite ManPtr.encode_meta, Hm by done. rewrite bool_decide_true by done. cbn [assert_ bind].
  rewrite run_bind, (run_black _ _ _ Hl). fold (black_of r).
  destruct (decide (col = black_of r)) as [->|Hne].
  - rewrite decide_True by done. exists [], s. split; [done|]. split; [|done].
    replace (with_color (black_of r) p) with p by (destruct p; simpl in *; by subst).
    rewrite insert_id by done. by eapply traced_refl.
  - rewrite decide_False by congruence.
    destruct (run_shade_ptr p g s r Hl Hph Hpt) as (b & s1 & E & Hs).
    rewrite run_bind, E. pose proof (pushes_frame _ _ _ _ Hs) as (Ho & Hcs & _).
    destruct (pushes_local _ _ _ _ _ Hs Hl) as [n Hl1].
    rewrite run_bind, (run_black _ _ _ Hl1). fold (black_of (pushed (to_push r (g_objs s) p) n r)).
    rewrite black_pushed, ManPtr.encode_with_meta by done. rewrite run_bind.
    unfold cas_cell, atomic. cbn [run]. rewrite Hcs, Hc, Z.eqb_refl. cbn [run].
    eexists _, _. split; [done|]. split; [|done].
    replace (set_g_cells <[c:=_]> s1) with
      (set_g_cells (fun _ => <[c:=ManPtr.encode (with_color (black_of r) p)]> (g_cells s)) s1)
      by (unfold set_g_cells; by rewrite <- Hcs).
    eapply traced_set_cells. by apply pushes_traced.
Qed.

(** ** All the links of an object *)
Definition link_ok (s : gstate V) (c : cell) : Prop :=
  exists p col, g_cells s !! c = Some (ManPtr.encode p) /\ points s p /\ ManPtr.p_meta p = Unrooted col.
(** Only the colours of the links [ls] differ, and they are black. *)
Definition blackened (r : local) (ls : list cell) (cells cells' : gmap cell Z) : Prop :=
  (forall c, c ∉ ls -> cells' !! c = cells !! c) /\
  (forall c p, c ∈ ls -> cells !! c = Some (ManPtr.encode p) -> ManPtr.ptr_ok p ->
     cells' !! c = Some (ManPtr.encode (with_color (black_of r) p))).
(** The tasks queued for them: the unmarked pointees of the links that were white. *)
Definition queued (r : local) (objs : gmap Z (obj V)) (ls : list cell) (cells : gmap cell Z)
    (ts : list Z) : Prop :=
  (forall c p, c ∈ ls -> cells !! c = Some (ManPtr.encode p) -> ManPtr.ptr_ok p ->
     ManPtr.p_meta p <> Unrooted (black_of r) -> white_target r objs p = true -> target p ∈ ts) /\
  (forall a, a ∈ ts -> exists c p, c ∈ ls /\ cells !! c = Some (ManPtr.encode p) /\ ManPtr.ptr_ok p /\
     ManPtr.p_meta p <> Unrooted (black_of r) /\ white_target r objs p = true /\ a = target p) /\
  (length ts <= length ls)%nat.

Lemma points_mono s s' p : g_objs s' = g_objs s -> points s p -> points s' p.
Proof. unfold points. by intros ->. Qed.
Lemma to_push_elem r objs p a : a ∈ to_push r objs p <-> white_target r objs p = true /\ a = target p.
Proof.
  unfold to_push. destruct (white_target r objs p); rewrite ?list_elem_of_singleton, ?elem_of_nil;
    naive_solver.
Qed.

Lemma run_shade_links f g ls s r : local_of s (gd_local g) = Some r -> phase_ok r ->
  (forall c, c ∈ ls -> link_ok s c) ->
  exists ts cells' s', run (foreach ls (fun c => shade (S f) c g)) s = Ok (tt, s') /\
    traced g ts cells' (g_objs s) s s' /\ blackened r ls (g_cells s) cells' /\
    queued r (g_objs s) ls (g_cells s) ts.
Proof.
  revert s r. induction ls as [|c ls IH]; intros s r Hl Hph Hls.
  { exists [], (g_cells s), s. split; [done|]. split; [by eapply traced_refl|]. split; [|split].
    - split; [done|]. intros c p Hc. by apply not_elem_of_nil in Hc.
    - intros c p Hc. by apply not_elem_of_nil in Hc.
    - split; [|done]. intros a Ha. by apply not_elem_of_nil in Ha. }
  destruct (Hls c ltac:(by left)) as (p & col & Hc & Hpt & Hm). pose proof Hpt as [Hp _].
  destruct (run_shade f c p col g s r Hl Hph Hc Hpt Hm) as (ts1 & s1 & E & Htr & Ets).
  destruct (traced_local _ _ _ _ _ _ _ Htr Hl) as [n1 Hl1].
  destruct (traced_cells _ _ _ _ _ _ Htr) as [Hcs Hos].
  destruct (IH s1 _ Hl1 (phase_ok_pushed _ _ _ Hph)) as (ts2 & cells' & s' & E' & Htr' & Hbl & Hq).
  { intros c' Hc'. destruct (Hls c' ltac:(by right)) as (p' & col' & Hcc & Hpt' & Hm').
    unfold link_ok. rewrite Hcs. destruct (decide (c' = c)) as [->|Hne].
    - rewrite Hc in Hcc. injection Hcc as Ecc. exists (with_color (black_of r) p), (black_of r).
      rewrite lookup_insert_eq. split; [done|]. split; [|done]. by apply (points_mono s).
    - exists p', col'. rewrite lookup_insert_ne by done. split; [done|]. split; [|done].
      by apply (points_mono s). }
  rewrite Hcs in Hbl, Hq. rewrite Hos in Htr', Hq.
  change (blackened (pushed ts1 n1 r)) with (blackened r) in Hbl.
  change (queued (pushed ts1 n1 r)) with (queued r) in Hq.
  exists (ts1 ++ ts2), cells', s'. cbn [foreach]. rewrite run_bind, E. split; [done|].
  split; [by eapply traced_trans|]. destruct Hbl as [Hb1 Hb2], Hq as (Hq1 & Hq2 & Hq3).
  split; [split|split; [|split]].
  - intros c' Hc'. apply not_elem_of_cons in Hc' as [Hne Hc'].
    rewrite Hb1 by done. by rewrite lookup_insert_ne.
  - intros c' p' Hc' Hcc Hp'. destruct (decide (c' = c)) as [->|Hne].
    + rewrite Hc in Hcc. injection Hcc as Ecc. apply encode_inj in Ecc as <-; [|done..].
      destruct (decide (c ∈ ls)) as [Hin|Hin].
      * apply (Hb2 c (with_color (black_of r) p)); [done|by rewrite lookup_insert_eq|done].
      * rewrite Hb1 by done. by rewrite lookup_insert_eq.
    + apply elem_of_cons in Hc' as [|Hc']; [done|].
      apply (Hb2 c' p'); [done|by rewrite lookup_insert_ne|done].
  - intros c' p' Hc' Hcc Hp' Hnb Hw. apply elem_of_app. destruct (decide (c' = c)) as [->|Hne].
    + rewrite Hc in Hcc. injection Hcc as Ecc. apply encode_inj in Ecc as <-; [|done..].
      left. subst ts1. rewrite decide_False by congruence. by apply to_push_elem.
    + right. apply elem_of_cons in Hc' as [|Hc']; [done|].
      apply (Hq1 c' p'); [done|by rewrite lookup_insert_ne|done..].
  - intros a [Ha|Ha]%elem_of_app.
    + subst ts1. destruct (decide (col = black_of r)) as [|Hne]; [by apply not_elem_of_nil in Ha|].
      apply to_push_elem in Ha as [Hw ->]. exists c, p. split_and!; [by left|done|done|congruence|done|done].
    + destruct (Hq2 a Ha) as (c' & p' & Hc' & Hcc & Hp' & Hnb & Hw & ->).
      destruct (decide (c' = c)) as [->|Hne].
      * rewrite lookup_insert_eq in Hcc. injection Hcc as Ecc. apply encode_inj in Ecc; [|done..].
        by subst p'.
      * rewrite lookup_insert_ne in Hcc by done. exists c', p'. split_and!; [by right|done..].
  - rewrite length_app. simpl.
    assert (length ts1 <= 1)%nat; [|lia]. subst ts1. unfold to_push.
    destruct (decide (col = black_of r)), (white_target r (g_objs s) p); simpl; lia.
Qed.

(** ** The header *)
Definition blacken_obj (r : local) (o : obj V) : obj V :=
  set_o_hdr (fun w => ObjMeta.with_marked w (black_of r)) o.

Lemma run_header_mark f a g s r o h : local_of s (gd_local g) = Some r -> g_objs s !! a = Some o ->
  ObjMeta.hdr_ok h -> o_hdr o = ObjMeta.encode h ->
  run (header_mark (S f) a g) s = Ok (tt, set_g_objs (fun _ => <[a := blacken_obj r o]> (g_objs s)) s).
Proof.
  intros Hl Ho Hh Eh. unfold header_mark. rewrite run_bind, (run_load_header _ _ _ Ho).
  cbn [loop]. rewrite !run_bind, (run_black _ _ _ Hl). fold (black_of r).
  destruct (decide (ObjMeta.marked (o_hdr o) = black_of r)) as [E|E].
  - cbn [run]. do 2 f_equal. replace (blacken_obj r o) with o.
    + rewrite insert_id by done. by destruct s.
    + assert (ObjMeta.with_marked (o_hdr o) (black_of r) = o_hdr o) as Ew.
      { rewrite Eh, ObjMeta.encode_with_marked by done.
        rewrite Eh, ObjMeta.encode_marked in E by done. rewrite <- E. by destruct h. }
      unfold blacken_obj, set_o_hdr. rewrite Ew. by destruct o.
  - rewrite run_bind, (run_black _ _ _ Hl). fold (black_of r).
    rewrite run_bind. unfold cas_header, rmw_header, atomic. cbn [run]. rewrite Ho, Z.eqb_refl. cbn [run].
    done.
Qed.

(** ** Marking an object *)

(** Shading the links, then the header: what [MarkObj::mark] does, and [ManObj::mark] when
    the object is not marked. *)
Lemma run_mark_obj f a g s r o h :
  local_of s (gd_local g) = Some r -> phase_ok r -> g_objs s !! a = Some o ->
  ObjMeta.hdr_ok h -> o_hdr o = ObjMeta.encode h ->
  (forall c, c ∈ o_links o -> link_ok s c) ->
  exists ts cells' s', run (mark_obj_mark (S f) a g) s = Ok (tt, s') /\
    traced g ts cells' (<[a := blacken_obj r o]> (g_objs s)) s s' /\
    blackened r (o_links o) (g_cells s) cells' /\
    queued r (g_objs s) (o_links o) (g_cells s) ts.
Proof.
  intros Hl Hph Ho Hh Eh Hls. unfold mark_obj_mark, shade_outgoings.
  rewrite run_bind, run_bind, (run_deref _ _ _ Ho).
  destruct (run_shade_links f g (o_links o) s r Hl Hph Hls) as (ts & cells' & s1 & E & Htr & Hbl & Hq).
  rewrite E. destruct (traced_local _ _ _ _ _ _ _ Htr Hl) as [n Hl1].
  destruct (traced_cells _ _ _ _ _ _ Htr) as [Hcs Hos]. rewrite <- Hos in Ho.
  rewrite (run_header_mark f a g s1 _ o h Hl1 Ho Hh Eh), Hos.
  exists ts, cells'. eexists. split; [done|]. split; [|done].
  change (blacken_obj (pushed ts n r) o) with (blacken_obj r o). by eapply traced_set_objs.
Qed.
Lemma run_obj_mark f a g s r o h :
  local_of s (gd_local g) = Some r -> phase_ok r -> g_objs s !! a = Some o ->
  ObjMeta.hdr_ok h -> o_hdr o = ObjMeta.encode h ->
  (forall c, c ∈ o_links o -> link_ok s c) ->
  if is_black r o then run (obj_mark (S f) a g) s = Ok (tt, s)
  else exists ts cells' s', run (obj_mark (S f) a g) s = Ok (tt, s') /\
    traced g ts cells' (<[a := blacken_obj r o]> (g_objs s)) s s' /\
    blackened r (o_links o) (g_cells s) cells' /\
    queued r (g_objs s) (o_links o) (g_cells s) ts /\
    is_black r (blacken_obj r o) = true /\
    ObjMeta.root_count (o_hdr (blacken_obj r o)) = ObjMeta.root_count (o_hdr o) /\
    ObjMeta.type_id (o_hdr (blacken_obj r o)) = ObjMeta.type_id (o_hdr o).
Proof.
  intros Hl Hph Ho Hh Eh Hls. unfold obj_mark.
  destruct (is_black r o) eqn:Eb; rewrite run_bind, (run_is_marked _ _ _ _ _ Hl Ho), Eb; cbn [negb]; [done|].
  destruct (run_mark_obj f a g s r o h Hl Hph Ho Hh Eh Hls) as (ts & cells' & s' & E & Htr & Hbl & Hq).
  exists ts, cells', s'. split; [exact E|]. split; [done|]. split; [done|]. split; [done|].
  unfold blacken_obj, is_black, set_o_hdr. cbn [o_hdr]. rewrite Eh.
  rewrite ObjMeta.encode_with_marked by done. set (h' := ObjMeta.mkHdr _ _ _).
  assert (ObjMeta.hdr_ok h') as Hh' by done.
  rewrite ObjMeta.encode_marked, !ObjMeta.encode_root_count, !ObjMeta.encode_type_id by done.
  split; [by apply bool_decide_true|done].
Qed.

(** C23. A task, or a hazard marker, on a live object.  If the object is already marked
    nothing happens.  Otherwise the call returns with the object marked, all its
    links coloured black, the unmarked pointees of the links that were white queued,
    and nothing else changed: the address, the tag, the payload and the root counts
    are the ones before. *)
Theorem obj_mark_spec f a g s r o h :
  local_of s (gd_local g) = Some r -> phase_ok r -> g_objs s !! a = Some o ->
  ObjMeta.hdr_ok h -> o_hdr o = ObjMeta.encode h ->
  (forall c, c ∈ o_links o -> link_ok s c) ->
  if is_black r o then run (obj_mark (S f) a g) s = Ok (tt, s)
  else exists ts cells' s', run (obj_mark (S f) a g) s = Ok (tt, s') /\
    traced g ts cells' (<[a := blacken_obj r o]> (g_objs s)) s s' /\
    blackened r (o_links o) (g_cells s) cells' /\
    queued r (g_objs s) (o_links o) (g_cells s) ts /\
    is_black r (blacken_obj r o) = true /\
    ObjMeta.root_count (o_hdr (blacken_obj r o)) = ObjMeta.root_count (o_hdr o) /\
    ObjMeta.type_id (o_hdr (blacken_obj r o)) = ObjMeta.type_id (o_hdr o).
Proof. apply run_obj_mark. Qed.
End marking.
