(* ===== verification/Participant.v ===== *)
(** * Participants and guards ([src/internal.rs], [src/guards.rs])

    Pinning, hazard slots, allocation batches and the collection work a mutator
    helps with.  Dropping a guard may run collection work, which may drop objects
    and pin again: the recursion goes through [recs], which [tie] closes with fuel. *)
From S2P Require Import Prelude Prog Epoch Meta Slots HashSet Registry State Heap.
#[local] Open Scope Z_scope.
#[local] Open Scope prog_scope.

Definition HELP_NORMAL_MAX_TRIAL : nat := 2.
Definition HELP_TRACING_MAX_TRIAL : nat := 4.

(** [Vec::pop]: the last element. *)
Definition vec_pop {X} (l : list X) : option (X * list X) :=
  match rev l with [] => None | x :: r => Some (x, rev r) end.
Definition color_index (c : Color) : nat := match c with C0 => 0 | C1 => 1 end.

(** A value before it is moved into a managed object: type, size of its [ManObj],
    payload, links. *)
Record item {V : Type} := mkItem { it_type : nat; it_size : Z; it_val : V; it_links : list cell }.
Arguments item V : clear implicits.

(** [struct HazardPointer] *)
Record HazardPointer := mkHP { hp_hid : nat; hp_local : nat }.

Section participant.
Context {EX : Extern} {V : Type} (fuel : nat).
#[local] Abbreviation M := (prog (gstate V)).

(** ** The global queues and statistics *)
Definition upd_queue (f : list ObjBatch -> list ObjBatch) (c : Color) (shard : nat)
    (qs : list (list (list ObjBatch))) : list (list (list ObjBatch)) :=
  alter (alter f shard) (color_index c) qs.
Definition queue_at (qs : list (list (list ObjBatch))) (c : Color) (shard : nat) :
    option (list ObjBatch) := qs !! color_index c ≫= fun row => row !! shard.
(** The Michael-Scott queue of [Queue], used through its linearized operations. *)
Definition push_fresh_q (c : Color) (shard : nat) (b : ObjBatch) : M unit :=
  modify (set_g_fresh (upd_queue (fun q => q ++ [b]) c shard)).
Definition push_marked_q (c : Color) (shard : nat) (b : ObjBatch) : M unit :=
  modify (set_g_marked (upd_queue (fun q => q ++ [b]) c shard)).
Definition try_pop_fresh_q (c : Color) (shard : nat) : M (option ObjBatch) :=
  atomic (fun s => match queue_at (g_fresh s) c shard with
                   | Some (b :: _) => Ok (Some b, set_g_fresh (upd_queue tail c shard) s)
                   | Some [] => Ok (None, s)
                   | None => Stopped (Panic "index out of bounds")
                   end).
Definition try_pop_marked_q (c : Color) (shard : nat) : M (option ObjBatch) :=
  atomic (fun s => match queue_at (g_marked s) c shard with
                   | Some (b :: _) => Ok (Some b, set_g_marked (upd_queue tail c shard) s)
                   | Some [] => Ok (None, s)
                   | None => Stopped (Panic "index out of bounds")
                   end).
Definition add_allocated (n : Z) : M unit := modify (set_g_allocated (fun x => wadd x n)).
Definition add_reclaimed (n : Z) : M unit := modify (set_g_reclaimed (fun x => wadd x n)).

(** [Global::push_fresh_objs] *)
Definition push_fresh_objs (batch : ObjBatch) (size_bytes : Z) (alloc_color : Color)
    (shard_index : nat) : M unit :=
  push_fresh_q alloc_color shard_index batch ;; add_allocated size_bytes.

(** ** Iterating over the participants *)
Definition on_slots {A} (p : prog (ReusableSlots local) A) : M A :=
  lift g_locals (fun r => set_g_locals (fun _ => r)) p.
Definition iter_slots {A R} (cond : nat -> prog (ReusableSlots local) bool)
    (body : nat -> A -> M (A + R)) (a : A) : M (A + R) :=
  head <- on_slots (load_next 0) ;
  loop fuel (fun '(curr, a) =>
    r <- on_slots (iter_next fuel cond curr) ;
    match r with
    | None => Ret (inr (inl a))
    | Some (k, next) =>
        x <- body k a ;
        match x with inl a' => Ret (inl (next, a')) | inr r => Ret (inr (inr r)) end
    end) (head, a).
(** [any] and [all] stop at the first witness. *)
Definition any_slot (cond : nat -> prog (ReusableSlots local) bool) (p : nat -> M bool) : M bool :=
  r <- iter_slots cond (fun k _ => b <- p k ; Ret (if b : bool then inr tt else inl tt)) tt ;
  Ret (match r with inl _ => false | inr _ => true end).

(** [Global::collect_hps]: every word of every hazard array in use.  The array is
    the one current when each word is read. *)
Definition collect_hps : M (gset Z) :=
  r <- iter_slots iter_using_cond (fun k acc =>
         n <- get_local k (fun l => length (l_hazards l)) ;
         for_each (R := unit) (seq 0 n) (fun i acc =>
           p <- get_local k (fun l => l_hazards l !! i) ;
           p <- unchecked p "hazard slot" ;
           Ret (inl ({[p]} ∪ acc))) acc) ∅ ;
  Ret (match r with inl hps => hps | inr _ => ∅ end).

(** ** Hazard slots *)
Definition pop_hid (l : nat) : M (option nat) :=
  atomic (fun s => match nodes (g_locals s) !! l with
    | Some nd => match vec_pop (l_hids (n_item nd)) with
        | Some (h, rest) => Ok (Some h, set_g_locals (fun r => mkSlots
            (alter (upd_item (set_l_hids (fun _ => rest))) l (nodes r)) (active r)) s)
        | None => Ok (None, s)
        end
    | None => Stopped (UB "dangling Local")
    end).
Definition grow_hazards (l : nat) : M unit :=
  old <- get_local l l_hazards ;
  let half := length old in
  (if decide (half = 0)%nat then Stop (UB "uninitialised hazard slots") else Ret tt) ;;
  upd_local l (set_l_hazards (fun hz => hz ++ replicate half 0)) ;;
  upd_local l (set_l_markers (fun ms => take (half * 2) ms ++ replicate (half * 2 - length ms) None)) ;;
  upd_local l (set_l_hids (fun hids => hids ++ seq half half)).
Definition acquire_hp (l : nat) : M nat :=
  hid <- pop_hid l ;
  match hid with
  | Some hid => Ret hid
  | None => grow_hazards l ;; hid <- pop_hid l ; unwrap hid "called `Option::unwrap()` on a `None` value"
  end.
Definition release_hp (l hid : nat) : M unit := upd_local l (set_l_hids (fun hids => hids ++ [hid])).

Definition hp_new (l : nat) : M HazardPointer := hid <- acquire_hp l ; Ret (mkHP hid l).
Definition store_hazard (hp : HazardPointer) (p : Z) : M unit :=
  n <- get_local (hp_local hp) (fun l => length (l_hazards l)) ;
  if (hp_hid hp <? n)%nat then upd_local (hp_local hp) (set_l_hazards <[hp_hid hp := p]>)
  else Stop (UB "hazard slot").
Definition store_marker (hp : HazardPointer) (m : option nat) : M unit :=
  n <- get_local (hp_local hp) (fun l => length (l_markers l)) ;
  if (hp_hid hp <? n)%nat then upd_local (hp_local hp) (set_l_markers <[hp_hid hp := m]>)
  else Stop (UB "hazard marker").
(** [protect::<T>] *)
Definition hp_protect (hp : HazardPointer) (T : nat) (addr : Z) : M unit :=
  store_hazard hp (ManPtr.as_ptr addr) ;;
  store_marker hp (if ManPtr.is_null addr then None else Some T).
Definition hp_clear (hp : HazardPointer) : M unit := store_hazard hp 0 ;; store_marker hp None.
Definition hp_drop (hp : HazardPointer) : M unit :=
  hp_clear hp ;; release_hp (hp_local hp) (hp_hid hp).

(** ** Object batches *)
Definition select_obj_shard (l : nat) : M nat :=
  n <- get_local l (fun r => rng_usize (l_rng r) OBJ_BATCHES_SHARD) ;
  upd_local l (set_l_rng (fun _ => n.2)) ;; Ret n.1.
Definition generate_shard_permut (l : nat) : M (list nat) :=
  n <- get_local l (fun r => rng_shuffle (l_rng r) (seq 0 OBJ_BATCHES_SHARD)) ;
  upd_local l (set_l_rng (fun _ => n.2)) ;; Ret n.1.

Definition take_obj_batch (l index : nat) : M (option (ObjBatch * Z)) :=
  b <- get_local l (fun r => l_objs r !! index) ;
  b <- unwrap b "index out of bounds" ;
  if batch_is_empty b.1 then Ret None else
  upd_local l (set_l_objs <[index := (batch_default, 0)]>) ;; Ret (Some b).
Definition flush_objs (l : nat) : M unit :=
  alloc_color <- pinned_alloc_color l ;
  r <- take_obj_batch l (color_index alloc_color) ;
  match r with
  | None => Ret tt
  | Some (batch, size_bytes) =>
      shard <- select_obj_shard l ;
      push_fresh_objs batch size_bytes alloc_color shard
  end.
Definition push_fresh_obj (l : nat) (a : Z) (newly_allocated : bool) : M unit :=
  o <- deref a ;
  ac <- pinned_alloc_color l ;
  let index := color_index ac in
  loop fuel (fun _ =>
    b <- get_local l (fun r => l_objs r !! index) ;
    b <- unwrap b "index out of bounds" ;
    match push_within_capacity b.1 a with
    | inl batch =>
        let size := if newly_allocated then wadd b.2 (o_size o) else b.2 in
        upd_local l (set_l_objs <[index := (batch, size)]>) ;; Ret (inr tt)
    | inr _ => flush_objs l ;; Ret (inl tt)
    end) tt.

(** [ManObj::new], then [Guard::alloc]: the box goes to the batch of its colour. *)
Definition on_reg {A} (p : prog (registry nat) A) : M A := lift g_reg (fun r => set_g_reg (fun _ => r)) p.
Definition man_obj_new (it : item V) (color : Color) (root_count : Z) (g : guard) : M (obj V) :=
  type_id <- on_reg (register_type type_hash (gd_local g) fuel (it_type it)) ;
  hdr <- of_res (ObjMeta.new_with_type_id color root_count type_id) ;
  Ret (mkObj hdr (it_type it) (it_size it) (it_val it) (it_links it)).
Definition box_new (o : obj V) : M Z :=
  atomic (fun s => match alloc_addr (dom (g_objs s)) with
                   | Some a => Ok (a, set_g_objs <[a := o]> s)
                   | None => Stopped (Panic "memory allocation failed")
                   end).
Definition alloc (o : obj V) (g : guard) : M Z :=
  let l := gd_local g in
  ptr <- box_new o ;
  push_fresh_obj l ptr true ;;
  n <- get_local l l_alloc_count ;
  let alloc_count := wadd n 1 in
  upd_local l (set_l_alloc_count (fun _ => alloc_count)) ;;
  (if alloc_count mod ALLOC_HELPING_PERIOD =? 0 then schedule_helping_collect g else Ret tt) ;;
  Ret ptr.

(** ** Mark tasks *)
Definition pop_task (l : nat) : M (option Z) :=
  atomic (fun s => match nodes (g_locals s) !! l with
    | Some nd => match l_tasks (n_item nd) with
        | t :: ts => Ok (Some t, set_g_locals (fun r => mkSlots
            (alter (upd_item (set_l_tasks (fun _ => ts))) l (nodes r)) (active r)) s)
        | [] => Ok (None, s)
        end
    | None => Stopped (UB "dangling Local")
    end).
Definition try_pop_mark_task (l : nat) : M (option Z) :=
  empty <- get_local l (fun r => bool_decide (l_tasks r = [])) ;
  if empty : bool then Ret None else record_mt_modification l ;; pop_task l.
(** [Task::call]: the closure marks its object. *)
Definition task_call (task : Z) (g : guard) : M unit := obj_mark fuel task g.

Definition scan_or_reuse_hazards (l : nat) (g : guard) : M (gset Z) :=
  cached <- get_local l l_cached ;
  e <- local_epoch g ;
  let fresh :=
    new_hazards <- collect_hps ;
    e' <- local_epoch g ;
    upd_local l (set_l_cached (fun _ => Some (new_hazards, e'))) ;; Ret new_hazards in
  match cached with
  | Some (hazards, prev_epoch) => if decide (data prev_epoch = data e) then Ret hazards else fresh
  | None => fresh
  end.

(** ** Hazard slots: every index is free or held by one hazard pointer *)
Record hz_inv (r : local) (held : list nat) : Prop := {
  hz_len : length (l_markers r) = length (l_hazards r);
  hz_pos : (0 < length (l_hazards r))%nat;
  hz_perm : l_hids r ++ held ≡ₚ seq 0 (length (l_hazards r));
  hz_free : forall h, h ∈ l_hids r -> l_hazards r !! h = Some 0 /\ l_markers r !! h = Some None;
  hz_mark : forall i p, l_hazards r !! i = Some p -> p <> 0 -> exists T, l_markers r !! i = Some (Some T)
}.

Lemma vec_pop_Some {X} (l : list X) x rest : vec_pop l = Some (x, rest) -> l = rest ++ [x].
Proof.
  unfold vec_pop. destruct (rev l) as [|y r] eqn:E; [done|]. intros [= <- <-].
  rewrite <- (rev_involutive l), E. done.
Qed.
Lemma vec_pop_None {X} (l : list X) : vec_pop l = None -> l = [].
Proof.
  unfold vec_pop. destruct (rev l) eqn:E; [|done]. intros _.
  rewrite <- (rev_involutive l), E. done.
Qed.
Lemma vec_pop_app {X} (l : list X) x : vec_pop (l ++ [x]) = Some (x, l).
Proof. unfold vec_pop. rewrite rev_app_distr. simpl. by rewrite rev_involutive. Qed.

Lemma run_pop_hid l s r : local_of s l = Some r ->
  run (pop_hid l) s =
    match vec_pop (l_hids r) with
    | Some (h, rest) => Ok (Some h, put_local l (set_l_hids (fun _ => rest) r) s)
    | None => Ok (None, s)
    end.
Proof.
  intros Hl. pose proof Hl as (nd & Hnd & ->)%fmap_Some. unfold pop_hid. simpl. rewrite Hnd.
  destruct (vec_pop (l_hids (n_item nd))) as [[h rest]|]; [|done].
  pose proof (run_upd_local l (set_l_hids (fun _ => rest)) s _ Hl) as E.
  apply (f_equal (fun x => match x with Ok (_, s') => s' | _ => s end)) in E. simpl in E.
  by rewrite <- E.
Qed.

Lemma hz_held_lt r held h : hz_inv r held -> h ∈ held -> (h < length (l_hazards r))%nat.
Proof.
  intros Hi Hh. assert (h ∈ seq 0 (length (l_hazards r))) as Hx.
  { rewrite <- (hz_perm _ _ Hi). apply elem_of_app. by right. }
  apply elem_of_seq in Hx. lia.
Qed.
Lemma hz_inv_default : hz_inv local_default [].
Proof.
  split; [done|cbn; lia|done|..]; cbn [local_default l_hids l_hazards l_markers].
  - intros h Hh%elem_of_seq. split; (apply lookup_replicate; split; [done|lia]).
  - intros i p Hp Hn. by apply lookup_replicate in Hp as [-> _].
Qed.
(** Nothing held, nothing published. *)
Lemma hz_idle r p : hz_inv r [] -> p ∈ l_hazards r -> p = 0.
Proof.
  intros Hz (h & Hh)%list_elem_of_lookup. assert (Hin : h ∈ l_hids r ++ []) by (rewrite (hz_perm _ _ Hz), elem_of_seq; apply lookup_lt_Some in Hh; lia).
  rewrite app_nil_r in Hin. destruct (hz_free _ _ Hz h Hin) as [E _]. congruence.
Qed.
Lemma hz_disjoint r held h : hz_inv r held -> h ∈ l_hids r -> h ∈ held -> False.
Proof.
  intros Hi H1 H2. assert (NoDup (l_hids r ++ held)) as (_ & Hd & _)%NoDup_app.
  { rewrite (hz_perm _ _ Hi). apply NoDup_seq. }
  by eapply Hd.
Qed.

Lemma hz_pop r held h rest : hz_inv r held -> l_hids r = rest ++ [h] ->
  hz_inv (set_l_hids (fun _ => rest) r) (h :: held) /\ h ∉ held.
Proof.
  intros Hi E. split.
  - constructor; simpl; try apply Hi.
    + rewrite <- (hz_perm _ _ Hi), E. by rewrite <- app_assoc.
    + intros h' Hh'. apply (hz_free _ _ Hi). rewrite E. apply elem_of_app. by left.
  - intros Hh. eapply hz_disjoint; [done| |exact Hh]. rewrite E. apply elem_of_app. right. by left.
Qed.
Definition grown (r : local) : local :=
  let half := length (l_hazards r) in
  set_l_hids (fun hids => hids ++ seq half half)
    (set_l_markers (fun ms => take (half * 2) ms ++ replicate (half * 2 - length ms) None)
      (set_l_hazards (fun hz => hz ++ replicate half 0) r)).
Lemma hz_grow r held : hz_inv r held -> hz_inv (grown r) held.
Proof.
  intros Hi. pose proof (hz_len _ _ Hi) as Hlen. pose proof (hz_pos _ _ Hi).
  set (n := length (l_hazards r)) in *.
  assert (Ht : take (n * 2) (l_markers r) = l_markers r) by (apply take_ge; lia).
  constructor; cbn [grown set_l_hids set_l_markers set_l_hazards l_markers l_hazards l_hids];
    fold n; rewrite ?Ht, ?length_app, ?length_replicate, ?Hlen; fold n.
  - lia.
  - lia.
  - rewrite <- app_assoc, (Permutation_app_comm (seq n n)), app_assoc, (hz_perm _ _ Hi). fold n.
    by rewrite seq_app.
  - intros h [Hh|Hh]%elem_of_app.
    + destruct (hz_free _ _ Hi h Hh). split; by apply lookup_app_l_Some.
    + apply elem_of_seq in Hh. split.
      * rewrite lookup_app_r by (fold n; lia). apply lookup_replicate. fold n. split; [done|lia].
      * rewrite lookup_app_r by lia. apply lookup_replicate. split; [done|lia].
  - intros i p [Hp|[Hn Hp]]%lookup_app_Some Hne.
    + destruct (hz_mark _ _ Hi i p Hp Hne) as [T HT]. exists T. by apply lookup_app_l_Some.
    + apply lookup_replicate in Hp as [-> _]. done.
Qed.

Lemma run_grow l s r held : local_of s l = Some r -> hz_inv r held ->
  run (grow_hazards l) s = Ok (tt, put_local l (grown r) s).
Proof.
  intros Hl Hi. unfold grow_hazards. run_local. pose proof (hz_pos _ _ Hi).
  destruct (decide (length (l_hazards r) = 0)%nat); [lia|]. cbn [bind].
  assert (Hs : forall r', is_Some (local_of (put_local l r' s) l)) by (intros; rewrite local_of_put; eauto).
  pose proof (local_of_put l (set_l_hazards (fun hz => hz ++ replicate (length (l_hazards r)) 0) r) s
    ltac:(eauto)) as H1.
  run_local. rewrite run_bind. erewrite run_upd_local by exact H1. rewrite put_put_local.
  erewrite run_upd_local by (apply local_of_put; eauto). by rewrite put_put_local.
Qed.

(** Only the hazard slots and their free indices change. *)
Definition slots_only (r r' : local) : Prop :=
  r' = set_l_hids (fun _ => l_hids r') (set_l_markers (fun _ => l_markers r') (set_l_hazards (fun _ => l_hazards r') r)).
Lemma run_hp_new l s r held : local_of s l = Some r -> hz_inv r held ->
  exists hid r', run (hp_new l) s = Ok (mkHP hid l, put_local l r' s) /\
    hz_inv r' (hid :: held) /\ (hid ∉ held) /\
    (l_hazards r `prefix_of` l_hazards r') /\ l_hazards r' !! hid = Some 0 /\ slots_only r r'.
Proof.
  intros Hl Hi. unfold hp_new, acquire_hp. rewrite !run_bind, (run_pop_hid _ _ _ Hl).
  destruct (vec_pop (l_hids r)) as [[h rest]|] eqn:E.
  - apply vec_pop_Some in E. destruct (hz_pop _ _ _ _ Hi E) as [Hi' Hh].
    exists h, (set_l_hids (fun _ => rest) r). split; [done|].
    split; [done|]. split; [done|]. split; [done|]. split; [|by destruct r]. simpl.
    apply (hz_free _ _ Hi). rewrite E. apply elem_of_app. right. by left.
  - apply vec_pop_None in E. rewrite run_bind, (run_grow _ _ _ _ Hl Hi).
    pose proof (hz_grow _ _ Hi) as Hg. pose proof (hz_pos _ _ Hi).
    assert (exists rest, l_hids (grown r) = rest ++ [(length (l_hazards r) * 2 - 1)%nat]) as [rest Eg].
    { exists (seq (length (l_hazards r)) (length (l_hazards r) - 1)). simpl. rewrite E. simpl.
      replace (length (l_hazards r)) with (length (l_hazards r) - 1 + 1)%nat at 2 by lia.
      rewrite seq_app. simpl. do 2 f_equal. lia. }
    rewrite run_bind, (run_pop_hid l _ (grown r)) by (apply local_of_put; eauto).
    rewrite Eg, vec_pop_app. simpl. rewrite put_put_local.
    destruct (hz_pop _ _ _ _ Hg Eg) as [Hi' Hh].
    eexists _, _. split; [done|]. split; [done|]. split; [done|].
    split; [simpl; by apply prefix_app_r|]. split; [|by destruct r]. simpl.
    apply (hz_free _ _ Hg). rewrite Eg. apply elem_of_app. right. by left.
Qed.
(** C29. Acquiring a hazard pointer always succeeds, growing the array when every slot is
    held; the slot was held by nobody, and no existing protection is lost. *)
Theorem hazard_acquire l s r held : local_of s l = Some r -> hz_inv r held ->
  exists hid r', run (hp_new l) s = Ok (mkHP hid l, put_local l r' s) /\
    hz_inv r' (hid :: held) /\ (hid ∉ held) /\
    (l_hazards r `prefix_of` l_hazards r') /\ l_hazards r' !! hid = Some 0.
Proof.
  intros Hl Hi. destruct (run_hp_new _ _ _ _ Hl Hi) as (hid & r' & E & H1 & H2 & H3 & H4 & _). by exists hid, r'.
Qed.

Lemma run_store_hazard hid l p s r : local_of s l = Some r -> (hid < length (l_hazards r))%nat ->
  run (store_hazard (mkHP hid l) p) s = Ok (tt, put_local l (set_l_hazards <[hid := p]> r) s).
Proof.
  intros Hl Hlt. unfold store_hazard. simpl hp_local. simpl hp_hid. run_local.
  apply Nat.ltb_lt in Hlt. rewrite Hlt. by run_local.
Qed.
Lemma run_store_marker hid l m s r : local_of s l = Some r -> (hid < length (l_markers r))%nat ->
  run (store_marker (mkHP hid l) m) s = Ok (tt, put_local l (set_l_markers <[hid := m]> r) s).
Proof.
  intros Hl Hlt. unfold store_marker. simpl hp_local. simpl hp_hid. run_local.
  apply Nat.ltb_lt in Hlt. rewrite Hlt. by run_local.
Qed.
Definition with_hazard (hid : nat) (p : Z) (m : option nat) (r : local) : local :=
  set_l_markers <[hid := m]> (set_l_hazards <[hid := p]> r).
Lemma run_set_hazard hid l p m s r : local_of s l = Some r -> (hid < length (l_hazards r))%nat ->
  length (l_markers r) = length (l_hazards r) ->
  run (store_hazard (mkHP hid l) p ;; store_marker (mkHP hid l) m) s =
    Ok (tt, put_local l (with_hazard hid p m r) s).
Proof.
  intros Hl Hlt Hlen. rewrite run_bind, (run_store_hazard _ _ _ _ _ Hl Hlt).
  erewrite run_store_marker; [by rewrite put_put_local|apply local_of_put; eauto|simpl; lia].
Qed.
Lemma hz_with_hazard hid p m r held : hz_inv r held -> hid ∈ held -> (p <> 0 -> is_Some m) ->
  hz_inv (with_hazard hid p m r) held.
Proof.
  intros Hi Hh Hm. pose proof (hz_held_lt _ _ _ Hi Hh).
  assert (Hne : forall h, h ∈ l_hids r -> h <> hid) by (intros h ? ->; by eapply hz_disjoint).
  constructor; simpl; rewrite ?length_insert; try apply Hi.
  - intros h Hf. pose proof (Hne h Hf). rewrite !list_lookup_insert_ne by done. by apply (hz_free _ _ Hi).
  - intros i q Hq Hq0. destruct (decide (hid = i)) as [<-|].
    + rewrite list_lookup_insert_eq in Hq by done. injection Hq as ->.
      destruct (Hm Hq0) as [T ->]. exists T. rewrite list_lookup_insert_eq; [done|].
      by rewrite (hz_len _ _ Hi).
    + rewrite list_lookup_insert_ne in Hq by done. rewrite list_lookup_insert_ne by done.
      by apply (hz_mark _ _ Hi i q).
Qed.

Lemma run_hp_protect_drop l s r hid held T addr : local_of s l = Some r -> hz_inv r (hid :: held) ->
  (exists r', run (hp_protect (mkHP hid l) T addr) s = Ok (tt, put_local l r' s) /\
     hz_inv r' (hid :: held) /\ l_hazards r' = <[hid := ManPtr.as_ptr addr]> (l_hazards r) /\ slots_only r r') /\
  (exists r', run (hp_drop (mkHP hid l)) s = Ok (tt, put_local l r' s) /\
     hz_inv r' held /\ l_hazards r' = <[hid := 0]> (l_hazards r) /\ slots_only r r').
Proof.
  intros Hl Hi. assert (Hin : hid ∈ hid :: held) by by left.
  pose proof (hz_held_lt _ _ _ Hi Hin) as Hlt. pose proof (hz_len _ _ Hi) as Hlen. split.
  - eexists. unfold hp_protect. rewrite (run_set_hazard _ _ _ _ _ _ Hl Hlt Hlen).
    split; [done|]. split; [|by destruct r]. apply hz_with_hazard; [done..|].
    unfold ManPtr.is_null. destruct (Z.eqb_spec (ManPtr.as_ptr addr) 0); [done|eauto].
  - unfold hp_drop, hp_clear, release_hp. rewrite run_bind, (run_set_hazard _ _ _ _ _ _ Hl Hlt Hlen).
    simpl hp_local. simpl hp_hid. erewrite run_upd_local by (apply local_of_put; eauto).
    rewrite put_put_local. eexists. split; [done|]. split; [|by destruct r].
    pose proof (hz_with_hazard hid 0 None r _ Hi Hin ltac:(done)) as Hc.
    constructor; simpl; rewrite ?length_insert; try apply Hi.
    + rewrite <- app_assoc. apply Hi.
    + intros h [Hh| ->%list_elem_of_singleton]%elem_of_app; [by apply (hz_free _ _ Hc)|].
      rewrite !list_lookup_insert_eq by (done || by rewrite Hlen). done.
    + apply (hz_mark _ _ Hc).
Qed.
(** C30. Protecting publishes the address (and the marker its phase barrier needs) in the
    pointer's own slot only; dropping the hazard pointer clears the slot and frees
    its index. *)
Theorem hazard_protect_drop l s r hid held T addr : local_of s l = Some r -> hz_inv r (hid :: held) ->
  (exists r', run (hp_protect (mkHP hid l) T addr) s = Ok (tt, put_local l r' s) /\
     hz_inv r' (hid :: held) /\ l_hazards r' = <[hid := ManPtr.as_ptr addr]> (l_hazards r)) /\
  (exists r', run (hp_drop (mkHP hid l)) s = Ok (tt, put_local l r' s) /\
     hz_inv r' held /\ l_hazards r' = <[hid := 0]> (l_hazards r)).
Proof.
  intros Hl Hi. destruct (run_hp_protect_drop l s r hid held T addr Hl Hi) as [(r1 & E1 & H1 & H2 & _) (r2 & E2 & H3 & H4 & _)].
  split; [by exists r1|by exists r2].
Qed.
End participant.
