(* ===== verification/TaskCell.v ===== *)
(** * Deferred closures ([src/task.rs])

    A [Task] is a closure moved, byte for byte, into a word of its own, next to the function
    that moves it out again and runs it.  What a closure type is made of (its size, its
    alignment, its bytes) is the compiler's: [FnOnce].  The rest of the development writes a
    mark task as the object it marks; [mark_task] is why. *)
From S2P Require Import Prelude Prog Epoch Meta Slots Registry State Heap Participant.
#[local] Open Scope Z_scope.
#[local] Open Scope prog_scope.

(** A byte of memory; [None]: never written. *)
Definition mbyte : Type := option Z.
Definition USIZE_BYTES : nat := 8.
Definition DATA_WORDS : nat := 1.
(** [size_of::<Data>()] and [align_of::<Data>()], [Data] being [[usize; DATA_WORDS]]. *)
Definition DATA_SIZE : nat := DATA_WORDS * USIZE_BYTES.
Definition DATA_ALIGN : nat := USIZE_BYTES.

(** ** Words in memory, least significant byte first *)
Fixpoint le_bytes (n : nat) (w : Z) : list mbyte :=
  match n with O => [] | S n => Some (w mod 2 ^ 8) :: le_bytes n (w / 2 ^ 8) end.
Fixpoint le_word (l : list mbyte) : option Z :=
  match l with
  | [] => Some 0
  | None :: _ => None
  | Some b :: l => (fun w => b + 2 ^ 8 * w) <$> le_word l
  end.
Lemma le_bytes_length n w : length (le_bytes n w) = n.
Proof. revert w. induction n; intros w; cbn [le_bytes length]; auto. Qed.
Lemma le_word_bytes n w : 0 <= w < 2 ^ (8 * Z.of_nat n) -> le_word (le_bytes n w) = Some w.
Proof.
  revert w. induction n as [|n IH]; intros w Hw; cbn [le_bytes le_word]; [f_equal; lia|].
  replace (8 * Z.of_nat (S n)) with (8 + 8 * Z.of_nat n) in Hw by lia. rewrite Z.pow_add_r in Hw by lia.
  rewrite IH.
  - cbn [fmap option_fmap option_map]. f_equal. pose proof (Z.div_mod w (2 ^ 8)). lia.
  - split; [apply Z.div_pos; lia|apply Z.div_lt_upper_bound; lia].
Qed.

Section task.
Context {EX : Extern} {V : Type}.
#[local] Abbreviation M := (prog (gstate V)).

(** A type of closures. *)
Class FnOnce (F : Type) := {
  size_of : nat;
  align_of : nat;
  repr : F -> list mbyte;
  abst : list mbyte -> option F;
  call_once : F -> guard -> M unit
}.
#[local] Arguments size_of F {_}.
#[local] Arguments align_of F {_}.
(** What holds of every type, and of the values [ok] the code makes of it. *)
Class Representable (F : Type) `{!FnOnce F} (ok : F -> Prop) := {
  align_pow2 : exists i, align_of F = (2 ^ i)%nat;
  repr_length : forall f, length (repr f) = size_of F;
  abst_repr : forall f, ok f -> abst (repr f) = Some f
}.

Section closure.
Context {F : Type} `{!FnOnce F}.
(** [ptr::write] and [ptr::read] at the start of a piece of [Data]: within bounds, aligned,
    and, for a read, of the bytes of a value. *)
Definition in_data (data : list mbyte) : bool :=
  (size_of F <=? length data)%nat && (DATA_ALIGN mod align_of F =? 0)%nat.
Definition ptr_write (data : list mbyte) (f : F) : M (list mbyte) :=
  if in_data data then Ret (repr f ++ drop (size_of F) data) else Stop (UB "write out of bounds or unaligned").
Definition ptr_read (data : list mbyte) : M F :=
  if in_data data then unchecked (abst (take (size_of F) data)) "not a value of the type"
  else Stop (UB "read out of bounds or unaligned").
(** [unsafe fn call<F>], the function of [Task::new]. *)
Definition call_fn (raw : list mbyte) (g : guard) : M unit := f <- ptr_read raw ; call_once f g.
Definition fits : bool := (size_of F <=? DATA_SIZE)%nat && (align_of F <=? DATA_ALIGN)%nat.
End closure.
#[local] Arguments fits F {_}.

(** ** [struct Task] *)
Record Task := mkTask { task_fn : list mbyte -> guard -> M unit; task_data : list mbyte }.
Definition task_new {F} `{!FnOnce F} (f : F) : M Task :=
  assert_ (fits F) "Increase `DATA_WORDS`" ;;
  let data := replicate DATA_SIZE None in
  data <- ptr_write data f ;
  Ret (mkTask (call_fn (F := F)) data).
(** [Task::call]; the task is forgotten, not dropped. *)
Definition task_run (t : Task) (g : guard) : M unit := task_fn t (task_data t) g.
(** [Drop for Task] *)
Definition task_drop (t : Task) : M unit := Stop (Panic "`Task` is dropped without being executed").

(** ** The closure of [Local::schedule_mark]: a reference to the object *)
Record mark_fn := mkMarkFn { mf_obj : Z }.
#[export] Instance mark_closure (fuel : nat) : FnOnce mark_fn := {
  size_of := USIZE_BYTES;
  align_of := USIZE_BYTES;
  repr f := le_bytes USIZE_BYTES (mf_obj f);
  abst l := mkMarkFn <$> le_word l;
  call_once f g := obj_mark fuel (mf_obj f) g
}.
#[export] Instance mark_representable fuel : Representable (FnOnce0 := mark_closure fuel) mark_fn (fun f => is_word (mf_obj f)).
Proof.
  split.
  - by exists 3%nat.
  - intros f. apply le_bytes_length.
  - intros [a] Ha. cbn [repr abst mark_closure mf_obj]. by rewrite le_word_bytes.
Qed.

(** ** What a task does *)
Lemma pow2_divides i : (2 ^ i <= DATA_ALIGN)%nat -> (DATA_ALIGN mod 2 ^ i)%nat = 0%nat.
Proof.
  destruct i as [|[|[|[|i]]]]; [done..|]. intros H. exfalso. cbn [Nat.pow] in H.
  pose proof (Nat.pow_nonzero 2 i). unfold DATA_ALIGN, USIZE_BYTES in H. lia.
Qed.
Section laws.
Context {F : Type} `{!FnOnce F} {ok : F -> Prop} `{!Representable F ok}.
Lemma fits_in_data data : fits F = true -> length data = DATA_SIZE -> in_data (F := F) data = true.
Proof.
  unfold fits, in_data. intros [Hs%Nat.leb_le Ha%Nat.leb_le]%andb_true_iff ->. destruct (align_pow2 (F := F)) as [i E].
  rewrite E in *. rewrite pow2_divides by done. by rewrite (proj2 (Nat.leb_le _ _) Hs).
Qed.
Lemma run_closure (f : F) g s : ok f ->
  run (t <- task_new f ; task_run t g) s =
    if fits F then run (call_once f g) s else Stopped (Panic "Increase `DATA_WORDS`").
Proof.
  intros Hf. unfold task_new. destruct (fits F) eqn:E; [|done]. cbn [assert_ bind]. unfold ptr_write.
  rewrite (fits_in_data (replicate DATA_SIZE None)) by (done || by apply length_replicate). cbn [bind task_run task_fn task_data].
  unfold task_run, call_fn, ptr_read. cbn [task_fn task_data]. rewrite fits_in_data; [|done|].
  - rewrite take_app_length' by (by rewrite repr_length). by rewrite abst_repr.
  - rewrite length_app, length_drop, length_replicate, repr_length. unfold fits in E.
    apply andb_true_iff in E as [E%Nat.leb_le _]. lia.
Qed.
(** C34. A closure that fits in the task's storage comes out of it unchanged: making a task and
    calling it does exactly what calling the closure does; one that does not fit, by its size
    or its alignment, panics when the task is made, before anything is written. *)
Theorem task_roundtrip (f : F) g s : ok f ->
  run (t <- task_new f ; task_run t g) s =
    if fits F then run (call_once f g) s else Stopped (Panic "Increase `DATA_WORDS`").
Proof. apply run_closure. Qed.
End laws.

(** The task [schedule_mark] makes is the call that marks the object. *)
Lemma mark_task fuel a g s : is_word a ->
  run (t <- task_new (FnOnce0 := mark_closure fuel) (mkMarkFn a) ; task_run t g) s = run (task_call fuel a g) s.
Proof. intros Ha. exact (run_closure (FnOnce0 := mark_closure fuel) (mkMarkFn a) g s Ha). Qed.
End task.
