(* ===== verification/Guards.v ===== *)
(** * Guards ([src/guards.rs]) and pinning ([src/internal.rs])

    Dropping a guard may help the collector, helping may drop objects, dropping a
    rooted link pins, and pinning for the first time in a tracing phase marks the
    protected objects under a guard of its own.  [recs] is that recursion left open;
    [tie] closes it to a given depth. *)
From S2P Require Import Prelude Prog Epoch Meta Slots Registry State Heap Participant.
#[local] Open Scope Z_scope.
#[local] Open Scope prog_scope.

Section guards.
Context {EX : Extern} {V : Type} (fuel : nat).
#[local] Abbreviation M := (prog (gstate V)).

Record recs := mkRecs {
  r_pin : nat -> M guard;  (** [pin()] of the thread that owns the participant *)
  r_drop : guard -> M unit  (** [Drop for Guard] *)
}.

Section open_rec.
Context (R : recs).

(** [get_shade_fn(type_id)] applied to the object: the table must lead to the shade
    function of the object's own type. *)
Definition call_shade_fn (type_id a : Z) (g : guard) : M unit :=
  T <- gets (fun s => get_shade_fn type_id (g_reg s)) ;
  T <- unwrap T "!ptr.is_null()" ;
  o <- deref a ;
  if decide (o_type o = T) then shade_erased a g else Stop (UB "shade function of another type").

(** [Drop for AtomicSharedOption], by the thread that owns participant [l]. *)
Definition aso_drop (l : nat) (c : cell) : M unit :=
  p <- load_cell c ;
  if decide (ManPtr.meta p <> Rooted) then Ret tt else
  if ManPtr.is_null p then Ret tt else
  g <- r_pin R l ;
  let a := ManPtr.as_ptr p in
  rc <- decrement_root_count a ;
  (if rc =? 1 then
     ph <- global_phase_with_fence ;
     if decide (ph = N) then Ret tt else
     meta <- load_header a ;
     call_shade_fn (ObjMeta.type_id meta) a g
   else Ret tt) ;;
  r_drop R g.

(** [drop(Box<dyn MarkObj>)]: the links, then the memory. *)
Definition drop_obj (l : nat) (a : Z) : M unit :=
  o <- deref a ;
  foreach (o_links o) (fun c => aso_drop l c ;; free_cell c) ;;
  modify (set_g_objs (delete a)).

Definition call_without_recursion (l : nat) (get : local -> bool)
    (set : (bool -> bool) -> local -> local) (f : M unit) : M unit :=
  flag <- get_local l get ;
  if flag : bool then Ret tt else
  upd_local l (set (fun _ => true)) ;; f ;; upd_local l (set (fun _ => false)).

(** *** Helping in a Normal phase: sweeping *)
Definition sweep_item (g : guard) (prev_white : Color) (a : Z) (reclaimed_bytes : Z) : M Z :=
  c <- obj_color a ;
  if decide (prev_white = c) then
    o <- deref a ;
    drop_obj (gd_local g) a ;; Ret (wadd reclaimed_bytes (o_size o))
  else push_fresh_obj fuel (gd_local g) a false ;; Ret reclaimed_bytes.

Definition help_normal_inner (g : guard) : M unit :=
  perm <- generate_shard_permut (gd_local g) ;
  _ <- for_each (R := unit) perm (fun q_idx trial =>
    prev_white <- black_color g ;
    loop fuel (fun trial =>
      batch <- try_pop_marked_q prev_white q_idx ;
      match batch with
      | None => Ret (inr (inl trial))
      | Some batch =>
          r <- for_each (R := Empty_set) (b_items batch)
                 (fun a n => n' <- sweep_item g prev_white a n ; Ret (inl n')) 0 ;
          add_reclaimed (match r with inl n => n | inr e => match e with end end) ;;
          let trial := S trial in
          if (HELP_NORMAL_MAX_TRIAL <=? trial)%nat then Ret (inr (inr tt)) else Ret (inl trial)
      end) trial) 0%nat ;
  Ret tt.

Definition help_normal (g : guard) : M unit :=
  ph <- guard_phase g ;
  if decide (ph <> N) then Ret tt else
  call_without_recursion (gd_local g) l_helping_normal set_l_helping_normal (help_normal_inner g).

(** *** Helping in a tracing phase *)
Definition is_tracing_synced : M bool :=
  behind <- any_slot fuel iter_using_cond (fun k =>
    other_epoch <- get_local k l_epoch ;
    if is_pinned other_epoch then ph <- phase_of other_epoch ; Ret (bool_decide (ph = N))
    else Ret false) ;
  Ret (negb behind).

(** [LazyCell]: the hazards are collected when the first unrooted object asks. *)
Definition force_hazards (g : guard) (hz : option (gset Z)) : M (gset Z) :=
  match hz with Some h => Ret h | None => scan_or_reuse_hazards fuel (gd_local g) g end.
Definition trace_item (g : guard) (a : Z) (hz : option (gset Z)) : M (option (gset Z)) :=
  rc <- obj_root_count a ;
  if 0 <? rc then mark_obj_mark fuel a g ;; Ret hz else
  h <- force_hazards g hz ;
  (if decide (a ∈ h) then mark_obj_mark fuel a g else Ret tt) ;; Ret (Some h).

Definition help_root_tracing (g : guard) : M unit :=
  ph <- guard_phase g ;
  if decide (ph <> RT) then Ret tt else
  perm <- generate_shard_permut (gd_local g) ;
  _ <- for_each (R := unit) perm (fun q_idx st =>
    white <- white_color g ;
    loop fuel (fun '(trial, hz) =>
      batch <- try_pop_fresh_q white q_idx ;
      match batch with
      | None => Ret (inr (inl (trial, hz)))
      | Some batch =>
          r <- for_each (R := Empty_set) (b_items batch)
                 (fun a hz => hz' <- trace_item g a hz ; Ret (inl hz')) hz ;
          let hz := match r with inl hz => hz | inr e => match e with end end in
          marked_q_idx <- select_obj_shard (gd_local g) ;
          white' <- white_color g ;
          push_marked_q white' marked_q_idx batch ;;
          let trial := S trial in
          if (HELP_TRACING_MAX_TRIAL <=? trial)%nat then Ret (inr (inr tt))
          else Ret (inl (trial, hz))
      end) st) (0%nat, None) ;
  Ret tt.

Definition help_draining_mark_tasks_inner (g : guard) : M unit :=
  mt_len <- get_local (gd_local g) (fun r => length (l_tasks r)) ;
  _ <- for_each (R := unit) (seq 0 (Nat.max (mt_len / 2) (OBJ_BATCH_SIZE / 2))) (fun _ _ =>
    task <- try_pop_mark_task (gd_local g) ;
    match task with
    | Some task => task_call fuel task g ;; Ret (inl tt)
    | None => Ret (inr tt)
    end) tt ;
  Ret tt.

Definition help_tracing (g : guard) : M unit :=
  ph <- guard_phase g ;
  tracing <- (if decide (ph = RT) then Ret true else
              ph' <- guard_phase g ; Ret (bool_decide (ph' = CT))) ;
  if negb tracing then Ret tt else
  synced <- is_tracing_synced ;
  if negb synced then Ret tt else
  call_without_recursion (gd_local g) l_helping_root_tracing set_l_helping_root_tracing
    (help_root_tracing g) ;;
  call_without_recursion (gd_local g) l_helping_draining set_l_helping_draining
    (help_draining_mark_tasks_inner g).

Definition help_collect (g : guard) : M unit :=
  ph <- guard_phase g ;
  match ph with N => help_normal g | RT | CT => help_tracing g end.
Definition help_collect_if_scheduled (g : guard) : M unit :=
  h <- gets (fun s => default false (g_help s !! gd_id g)) ;
  if h : bool then modify (set_g_help <[gd_id g := false]>) ;; help_collect g else Ret tt.

(** *** Pinning *)
(** The marker stored beside a hazard: [ptr.deref().mark(&pin())]. *)
Definition hazard_mark (l T : nat) (p : Z) : M unit :=
  let a := ManPtr.as_ptr p in
  o <- deref a ;
  (if decide (o_type o = T) then Ret tt else Stop (UB "hazard marker of another type")) ;;
  g <- r_pin R l ;
  obj_mark fuel a g ;;
  r_drop R g.
Definition phase_barrier (l : nat) : M unit :=
  n <- get_local l (fun r => Nat.min (length (l_hazards r)) (length (l_markers r))) ;
  foreach (seq 0 n) (fun i =>
    p <- get_local l (fun r => l_hazards r !! i) ;
    p <- unchecked p "hazard slot" ;
    if p =? 0 then Ret tt else
    m <- get_local l (fun r => l_markers r !! i) ;
    m <- unchecked m "hazard marker" ;
    m <- unwrap m "called `Option::unwrap()` on a `None` value" ;
    hazard_mark l m p).

Definition pin_freshly (l : nat) : M unit :=
  curr_epoch <- load_epoch ;
  curr_epoch <- loop fuel (fun curr_epoch =>
    upd_local l (set_l_epoch (fun _ => pinned curr_epoch)) ;;
    new_epoch <- load_epoch ;
    if data curr_epoch =? data new_epoch then Ret (inr curr_epoch) else Ret (inl new_epoch)) curr_epoch ;
  last <- get_local l l_last_observed ;
  (if timestamp last =? timestamp curr_epoch then Ret tt else
   ph <- phase_of curr_epoch ;
   if decide (ph = RT) then phase_barrier l else Ret tt) ;;
  upd_local l (set_l_last_observed (fun _ => curr_epoch)).
Definition pin_inner (l : nat) : M unit :=
  guard_count <- get_local l l_guard_count ;
  n <- unwrap (if guard_count + 1 <? wmod then Some (guard_count + 1) else None)
         "called `Option::unwrap()` on a `None` value" ;
  upd_local l (set_l_guard_count (fun _ => n)) ;;
  if guard_count =? 0 then pin_freshly l else Ret tt.
Definition unpin_inner (l : nat) : M unit :=
  guard_count <- get_local l l_guard_count ;
  n <- checked_sub guard_count 1 ;
  upd_local l (set_l_guard_count (fun _ => n)) ;;
  if guard_count =? 1 then upd_local l (set_l_epoch (fun _ => starting)) else Ret tt.
Definition repin_inner (l : nat) : M unit := unpin_inner l ;; pin_inner l.

(** [Handle::pin] and [Drop for Guard]. *)
Definition guard_new (l : nat) : M guard :=
  atomic (fun s => let i := fresh (dom (g_help s)) in
                   Ok (mkGuard i l, set_g_help <[i := false]> s)).
Definition pin_body (l : nat) : M guard := g <- guard_new l ; pin_inner l ;; Ret g.
Definition drop_body (g : guard) : M unit :=
  help_collect_if_scheduled g ;;
  unpin_inner (gd_local g) ;;
  modify (set_g_help (delete (gd_id g))).
Definition is_pinned_local (l : nat) : M bool := n <- get_local l l_guard_count ; Ret (0 <? n).
End open_rec.

Fixpoint tie (depth : nat) : recs :=
  match depth with
  | O => mkRecs (fun _ => Stop OutOfFuel) (fun _ => Stop OutOfFuel)
  | Datatypes.S n => mkRecs (pin_body (tie n)) (drop_body (tie n))
  end.

(** The public operations, at recursion depth [fuel]. *)
Definition pin : nat -> M guard := r_pin (tie fuel).
Definition guard_drop : guard -> M unit := r_drop (tie fuel).
Definition guard_repin (g : guard) : M unit :=
  help_collect_if_scheduled (tie fuel) g ;; repin_inner (tie fuel) (gd_local g).
Definition guard_help_collect (g : guard) : M unit := help_collect (tie fuel) g.
Definition handle_help_collect (l : nat) : M unit :=
  g <- pin l ; guard_help_collect g ;; guard_drop g.

(** [Local::register]: a slot of the participants' list, which starts from
    [Local::default()] or keeps what its previous user left. *)
Definition try_deploy_collector : M bool :=
  atomic (fun s => if g_collector_init s then Ok (false, s)
                   else Ok (true, set_g_collector_init (fun _ => true) s)).
Definition initialize_if_necessary : M bool :=
  init <- gets g_collector_init ;
  if init : bool then Ret false else try_deploy_collector.
Definition register (thread : nat) : M nat :=
  _ <- initialize_if_necessary ;
  on_slots (acquire_or_default local_default thread fuel).
Definition unregister (thread l : nat) : M unit := on_slots (drop_entry thread l).
End guards.
