(* ===== verification/Pointers.v ===== *)
(** * The pointer types ([src/pointers.rs])

    [AtomicSharedOption], [AtomicShared] and [Shared] are links: cells of the heap
    holding a [ManPtr] word.  A [Local] protected by a guard is the address of its
    object; one protected by a handle also owns a hazard pointer.  [Option<&Local>]
    is [option Z].  A compare-exchange that may fail spuriously takes the outcome of
    that race as an argument. *)
From S2P Require Import Prelude Prog Epoch Meta Slots Registry State Heap Participant Guards.
#[local] Open Scope Z_scope.
#[local] Open Scope prog_scope.

Section pointers.
Context {EX : Extern} {V : Type} (fuel : nat).
#[local] Abbreviation M := (prog (gstate V)).

(** ** [ManPtr] conversions *)
Definition WithTag (L : Type) : Type := L * Z.
(** [From<Option<&Local>>] and [From<WithTag<Option<&Local>>>]. *)
Definition ptr_of (value : option Z) : Z := default ManPtr.null_base value.
Definition ptr_of_tag (value : WithTag (option Z)) : Z := ManPtr.with_tag (ptr_of value.1) value.2.
Definition as_local_with_tag (p : Z) : WithTag (option Z) :=
  (if ManPtr.is_null p then None
   else Some (ManPtr.as_ptr (ManPtr.with_tag (ManPtr.without_meta p) 0)),
   ManPtr.tag p).

Definition alloc_rooted (it : item V) (color : Color) (root_count : Z) (g : guard) : M Z :=
  assert_ (0 <? root_count) "root_count > 0" ;;
  obj <- man_obj_new fuel it color root_count g ;
  addr <- alloc fuel obj g ;
  Ret (ManPtr.with_meta addr Rooted).
Definition alloc_unrooted (it : item V) (color : Color) (g : guard) : M Z :=
  obj <- man_obj_new fuel it color 0 g ;
  addr <- alloc fuel obj g ;
  Ret (ManPtr.with_meta addr (Unrooted color)).

(** ** [AtomicSharedOption] *)
Definition none : M cell := new_cell 0.
Definition none_with_tag (tag : Z) : M cell := new_cell (ManPtr.null_rooted_with_tag tag).
Definition from_raw (p : Z) : M cell := new_cell p.

Definition some_with_tag (it : item V) (tag : Z) (g : guard) : M cell :=
  ac <- alloc_color g ;
  ptr <- alloc_rooted it ac 1 g ;
  unroot_outgoings (ManPtr.as_ptr ptr) g ;;
  from_raw (ManPtr.with_tag ptr tag).
Definition some (it : item V) (g : guard) : M cell :=
  ac <- alloc_color g ;
  ptr <- alloc_rooted it ac 1 g ;
  unroot_outgoings (ManPtr.as_ptr ptr) g ;;
  from_raw ptr.

Definition load_with_tag (c : cell) (g : guard) : M (WithTag (option Z)) :=
  p <- load_cell c ; Ret (as_local_with_tag p).
Definition load (c : cell) (g : guard) : M (option Z) := r <- load_with_tag c g ; Ret r.1.

(** [Shared::try_inc_raw]: the temporary [Shared] is a cell of its own; [forget]
    abandons it without its destructor. *)
Definition try_inc_raw (p : Z) : M (option cell) :=
  if ManPtr.is_null p then Ret None else
  _ <- increment_root_count (ManPtr.as_ptr p) ;
  c <- new_cell (ManPtr.with_meta p Rooted) ; Ret (Some c).
Definition forget (sh : option cell) : M unit :=
  match sh with Some c => free_cell c | None => Ret tt end.
Definition drop_link (l : nat) (c : cell) : M unit := aso_drop (tie fuel fuel) l c ;; free_cell c.
Definition drop_shared (g : guard) (sh : option cell) : M unit :=
  match sh with Some c => drop_link (gd_local g) c | None => Ret tt end.

(** A compare-exchange on the link; the weak one may fail although the word is the
    expected one. *)
Definition cas_link (spurious : bool) (c : cell) (old new : Z) : M (Z + Z) :=
  if spurious then p <- load_cell c ; Ret (inr p) else cas_cell c old new.

Definition internal_cmpxchg_rooted (spurious : bool) (c : cell) (old new_rooted : Z) (g : guard) :
    M (Z + Z) :=
  assert_ (bool_decide (ManPtr.meta old = Rooted)) "old.meta() == PtrMeta::Rooted" ;;
  assert_ (bool_decide (ManPtr.meta new_rooted = Rooted)) "new_rooted.meta() == PtrMeta::Rooted" ;;
  cas <- cas_link spurious c old new_rooted ;
  match cas with
  | inl _ =>
      if ManPtr.is_null old then Ret (inl old) else
      rc <- decrement_root_count (ManPtr.as_ptr old) ;
      (if rc =? 1 then
         ph <- global_phase_with_fence ;
         if decide (ph = N) then Ret tt else _ <- shade_pointee old g ; Ret tt
       else Ret tt) ;;
      Ret (inl old)
  | inr current => Ret (inr current)
  end.

Definition dijkstra_insertion_barrier (new : Z) (g : guard) : M unit := _ <- shade_pointee new g ; Ret tt.
Definition yuasa_deletion_barrier (old : Z) (g : guard) : M unit := _ <- shade_pointee old g ; Ret tt.

Definition internal_cmpxchg_unrooted_once (spurious : bool) (c : cell) (old new : Z) (g : guard) :
    M (Z + Z) :=
  assert_ (bool_decide (ManPtr.meta old <> Rooted)) "old.meta() != PtrMeta::Rooted" ;;
  let old_color := ManPtr.unrooted_color_unchecked old in
  let ptrs_differ := negb (ManPtr.as_ptr old =? ManPtr.as_ptr new) in
  (if ptrs_differ then
     black <- black_color g ;
     if decide (old_color = black) then dijkstra_insertion_barrier new g else Ret tt
   else Ret tt) ;;
  let new := ManPtr.with_meta new (Unrooted old_color) in
  cas <- cas_link spurious c old new ;
  match cas with
  | inl _ =>
      (if ptrs_differ then
         white <- white_color g ;
         if decide (old_color = white) then
           ph <- global_phase_with_fence ;
           if decide (ph = N) then Ret tt else yuasa_deletion_barrier old g
         else Ret tt
       else Ret tt) ;;
      Ret (inl old)
  | inr current => Ret (inr current)
  end.

Definition internal_cmpxchg_unrooted (c : cell) (old new : Z) (g : guard) : M (Z + Z) :=
  loop fuel (fun old =>
    r <- internal_cmpxchg_unrooted_once false c old new g ;
    match r with
    | inl o => Ret (inr (inl o))
    | inr current =>
        if ManPtr.without_meta current =? ManPtr.without_meta old then Ret (inl current)
        else Ret (inr (inr current))
    end) old.

Definition internal_swap (c : cell) (new : Z) (g : guard) : M Z :=
  old <- load_cell c ;
  r <- (if decide (ManPtr.meta old = Rooted) then
    new_shared <- try_inc_raw new ;
    let new_rooted := ManPtr.with_meta new Rooted in
    loop fuel (fun old =>
      if decide (ManPtr.meta old = Rooted) then
        x <- internal_cmpxchg_rooted false c old new_rooted g ;
        match x with
        | inl current => forget new_shared ;; Ret (inr (inl current))
        | inr current => Ret (inl current)
        end
      else drop_shared g new_shared ;; Ret (inr (inr old))) old
  else Ret (inr old)) ;
  match r with
  | inl current => Ret current
  | inr old =>
      loop fuel (fun old =>
        x <- internal_cmpxchg_unrooted c old new g ;
        match x with inl current => Ret (inr current) | inr current => Ret (inl current) end) old
  end.

Definition swap_with_tag (c : cell) (new : option Z) (tag : Z) (g : guard) : M (WithTag (option Z)) :=
  ptr <- internal_swap c (ManPtr.with_tag (ptr_of new) tag) g ; Ret (as_local_with_tag ptr).
Definition swap (c : cell) (new : option Z) (g : guard) : M (option Z) :=
  r <- swap_with_tag c new 0 g ; Ret r.1.
Definition store_with_tag (c : cell) (new : option Z) (tag : Z) (g : guard) : M unit :=
  _ <- swap_with_tag c new tag g ; Ret tt.
Definition store (c : cell) (new : option Z) (g : guard) : M unit := store_with_tag c new 0 g.
Definition take_with_tag (c : cell) (g : guard) : M (WithTag (option Z)) := swap_with_tag c None 0 g.
Definition take (c : cell) (g : guard) : M (option Z) := r <- take_with_tag c g ; Ret r.1.

(** [CasResult]: [inl] is [Ok], [inr] is [Err]. *)
Definition CasResult (L : Type) : Type := (L + L)%type.
Definition map_cas {A B} (f : A -> B) (r : A + A) : CasResult B :=
  match r with inl a => inl (f a) | inr a => inr (f a) end.

(** [ControlFlow]: [inl] is [Break]. *)
Definition internal_cmpxchg_strong_rooted (c : cell) (old : Z)
    (current_tag new_tag : WithTag (option Z)) (g : guard) :
    M (CasResult (WithTag (option Z)) + Z) :=
  new_shared <- try_inc_raw (ptr_of new_tag.1) ;
  let new_rooted := ManPtr.with_meta (ptr_of_tag new_tag) Rooted in
  x <- internal_cmpxchg_rooted false c old new_rooted g ;
  match x with
  | inl current => forget new_shared ;; Ret (inl (inl (as_local_with_tag current)))
  | inr current =>
      let r := match ManPtr.meta current with
               | Rooted => inl (inr (as_local_with_tag current))
               | Unrooted _ =>
                   if ManPtr.without_meta current =? ptr_of_tag current_tag then inr current
                   else inl (inr (as_local_with_tag current))
               end in
      drop_shared g new_shared ;; Ret r
  end.

Definition compare_exchange_with_tag (c : cell) (current_tag new_tag : WithTag (option Z)) (g : guard) :
    M (CasResult (WithTag (option Z))) :=
  old <- load_cell c ;
  if negb (ManPtr.without_meta old =? ptr_of_tag current_tag) then
    Ret (inr (as_local_with_tag old))
  else
    r <- (if decide (ManPtr.meta old = Rooted)
          then internal_cmpxchg_strong_rooted c old current_tag new_tag g else Ret (inr old)) ;
    match r with
    | inl result => Ret result
    | inr old =>
        x <- internal_cmpxchg_unrooted c old (ptr_of_tag new_tag) g ;
        Ret (map_cas as_local_with_tag x)
    end.
Definition compare_exchange (c : cell) (current new : option Z) (g : guard) : M (CasResult (option Z)) :=
  r <- compare_exchange_with_tag c (current, 0) (new, 0) g ; Ret (map_cas fst r).

Definition internal_cmpxchg_weak_rooted (spurious : bool) (c : cell) (old : Z)
    (new_tag : WithTag (option Z)) (g : guard) : M (CasResult (WithTag (option Z))) :=
  new_shared <- try_inc_raw (ptr_of new_tag.1) ;
  let new_rooted := ManPtr.with_meta (ptr_of_tag new_tag) Rooted in
  x <- internal_cmpxchg_rooted spurious c old new_rooted g ;
  match x with
  | inl current => forget new_shared ;; Ret (inl (as_local_with_tag current))
  | inr current => drop_shared g new_shared ;; Ret (inr (as_local_with_tag current))
  end.
Definition compare_exchange_weak_with_tag (spurious : bool) (c : cell)
    (current_tag new_tag : WithTag (option Z)) (g : guard) : M (CasResult (WithTag (option Z))) :=
  old <- load_cell c ;
  if negb (ManPtr.without_meta old =? ptr_of_tag current_tag) then
    Ret (inr (as_local_with_tag old))
  else if decide (ManPtr.meta old = Rooted) then
    internal_cmpxchg_weak_rooted spurious c old new_tag g
  else
    x <- internal_cmpxchg_unrooted_once spurious c old (ptr_of_tag new_tag) g ;
    Ret (map_cas as_local_with_tag x).
Definition compare_exchange_weak (spurious : bool) (c : cell) (current new : option Z) (g : guard) :
    M (CasResult (option Z)) :=
  r <- compare_exchange_weak_with_tag spurious c (current, 0) (new, 0) g ; Ret (map_cas fst r).

Definition fetch_tag_and (c : cell) (tag : Z) (g : guard) : M (WithTag (option Z)) :=
  p <- update_cell c (fun p => Z.land p (Z.land tag ManPtr.LOW_BITS)) ; Ret (as_local_with_tag p).
Definition fetch_tag_or (c : cell) (tag : Z) (g : guard) : M (WithTag (option Z)) :=
  p <- update_cell c (fun p => Z.lor p (Z.land tag ManPtr.LOW_BITS)) ; Ret (as_local_with_tag p).
Definition fetch_tag_xor (c : cell) (tag : Z) (g : guard) : M (WithTag (option Z)) :=
  p <- update_cell c (fun p => Z.lxor p (Z.land tag ManPtr.LOW_BITS)) ; Ret (as_local_with_tag p).

(** [From] conversions into [AtomicSharedOption]: moving a [Shared] or an
    [AtomicShared] keeps its cell. *)
Definition aso_from_shared (sh : cell) : cell := sh.
Definition aso_from_opt_shared (value : option cell) : M cell :=
  match value with Some sh => Ret sh | None => none end.

(** ** [AtomicShared]: a link that is never null *)
Definition non_null {L} (r : option L) : M L :=
  assert_ (bool_decide (is_Some r)) "r.is_some()" ;; unchecked r "unwrap_unchecked".
Definition non_null_tag (r : WithTag (option Z)) : M (WithTag Z) :=
  p <- non_null r.1 ; Ret (p, r.2).
Definition non_null_cas (r : CasResult (option Z)) : M (CasResult Z) :=
  match r with
  | inl l => l <- non_null l ; Ret (inl l)
  | inr l => l <- non_null l ; Ret (inr l)
  end.
Definition non_null_cas_tag (r : CasResult (WithTag (option Z))) : M (CasResult (WithTag Z)) :=
  match r with
  | inl l => l <- non_null_tag l ; Ret (inl l)
  | inr l => l <- non_null_tag l ; Ret (inr l)
  end.

Definition as_new (it : item V) (g : guard) : M cell := some it g.
Definition as_new_with_tag (it : item V) (tag : Z) (g : guard) : M cell := some_with_tag it tag g.
Definition as_load (c : cell) (g : guard) : M Z := r <- load c g ; non_null r.
Definition as_load_with_tag (c : cell) (g : guard) : M (WithTag Z) :=
  r <- load_with_tag c g ; non_null_tag r.
Definition as_store (c : cell) (new : Z) (g : guard) : M unit := store c (Some new) g.
Definition as_store_with_tag (c : cell) (new tag : Z) (g : guard) : M unit :=
  store_with_tag c (Some new) tag g.
Definition as_swap (c : cell) (new : Z) (g : guard) : M Z := r <- swap c (Some new) g ; non_null r.
Definition as_swap_with_tag (c : cell) (new tag : Z) (g : guard) : M (WithTag Z) :=
  r <- swap_with_tag c (Some new) tag g ; non_null_tag r.
Definition as_compare_exchange (c : cell) (current new : Z) (g : guard) : M (CasResult Z) :=
  r <- compare_exchange c (Some current) (Some new) g ; non_null_cas r.
Definition as_compare_exchange_with_tag (c : cell) (current_tag new_tag : WithTag Z) (g : guard) :
    M (CasResult (WithTag Z)) :=
  r <- compare_exchange_with_tag c (Some current_tag.1, current_tag.2) (Some new_tag.1, new_tag.2) g ;
  non_null_cas_tag r.
Definition as_compare_exchange_weak (spurious : bool) (c : cell) (current new : Z) (g : guard) :
    M (CasResult Z) :=
  r <- compare_exchange_weak spurious c (Some current) (Some new) g ; non_null_cas r.
Definition as_compare_exchange_weak_with_tag (spurious : bool) (c : cell)
    (current_tag new_tag : WithTag Z) (g : guard) : M (CasResult (WithTag Z)) :=
  r <- compare_exchange_weak_with_tag spurious c (Some current_tag.1, current_tag.2)
         (Some new_tag.1, new_tag.2) g ;
  non_null_cas_tag r.
Definition as_fetch_tag_and (c : cell) (tag : Z) (g : guard) : M (WithTag Z) :=
  r <- fetch_tag_and c tag g ; non_null_tag r.
Definition as_fetch_tag_or (c : cell) (tag : Z) (g : guard) : M (WithTag Z) :=
  r <- fetch_tag_or c tag g ; non_null_tag r.
Definition as_fetch_tag_xor (c : cell) (tag : Z) (g : guard) : M (WithTag Z) :=
  r <- fetch_tag_xor c tag g ; non_null_tag r.

(** ** [Local] *)
Definition local_new (it : item V) (g : guard) : M Z :=
  ac <- alloc_color g ;
  p <- alloc_unrooted it ac g ;
  let ptr := ManPtr.without_meta p in
  unroot_outgoings (ManPtr.as_ptr ptr) g ;;
  Ret (ManPtr.as_ptr ptr).
Definition local_as_man_ptr (a : Z) : M Z :=
  assert_ (a =? ManPtr.without_meta a) "ptr == ptr.without_meta()" ;; Ret a.
Definition local_as_atomic_shared (a : Z) : M cell :=
  ptr <- local_as_man_ptr a ;
  assert_ (negb (ManPtr.is_null ptr)) "!ptr.is_null()" ;;
  _ <- increment_root_count (ManPtr.as_ptr ptr) ;
  from_raw (ManPtr.with_meta ptr Rooted).
Definition local_as_shared (a : Z) : M cell := local_as_atomic_shared a.
Definition local_ptr_eq (this other : Z) : bool := this =? other.
Definition local_opt_ptr_eq (this other : option Z) : bool :=
  match this, other with
  | None, None => true
  | Some l1, Some l2 => local_ptr_eq l1 l2
  | _, _ => false
  end.
Definition local_from_raw (p : Z) : M Z :=
  assert_ (negb (ManPtr.is_null p)) "!ptr.is_null()" ;; Ret (ManPtr.as_ptr p).
Definition local_deref (a : Z) : M V :=
  ptr <- local_as_man_ptr a ;
  if ManPtr.is_null ptr then Stop (Panic "r.is_some()") else
  o <- deref (ManPtr.as_ptr ptr) ; Ret (o_val o).
Definition aso_from_local (value : Z) : M cell := local_as_atomic_shared value.
Definition aso_from_opt_local (value : option Z) : M cell :=
  match value with Some a => local_as_atomic_shared a | None => none end.

(** *** [Protector]: a guard protects everything for free, a handle takes a hazard
    slot. *)
Definition guard_protect (T : nat) (p : Z) (g : guard) : M unit := Ret tt.
Definition handle_protect (T : nat) (p : Z) (l : nat) : M HazardPointer :=
  hp <- hp_new l ; hp_protect hp T p ;; Ret hp.
(** [Local<'h, Handle, T>]: the address with its shield, and its drop. *)
Definition local_protect (T : nat) (a : Z) (l : nat) : M (Z * HazardPointer) :=
  p <- local_as_man_ptr a ; hp <- handle_protect T p l ; Ret (a, hp).
Definition local_drop (x : Z * HazardPointer) : M unit := hp_drop x.2.

(** ** [Shared]: an owned link *)
Definition shared_as_man_ptr (sh : cell) : M Z := load_cell sh.
Definition shared_ptr_eq (this other : cell) : M bool :=
  p <- shared_as_man_ptr this ; q <- shared_as_man_ptr other ;
  Ret (ManPtr.without_meta p =? ManPtr.without_meta q).
Definition shared_opt_ptr_eq (this other : option cell) : M bool :=
  match this, other with
  | None, None => Ret true
  | Some l1, Some l2 => shared_ptr_eq l1 l2
  | _, _ => Ret false
  end.
Definition shared_new (it : item V) (g : guard) : M cell := as_new it g.
Definition shared_as_local (sh : cell) (g : guard) : M Z := p <- shared_as_man_ptr sh ; local_from_raw p.
Definition shared_clone (sh : cell) : M cell :=
  ptr <- load_cell sh ;
  assert_ (negb (ManPtr.is_null ptr)) "!ptr.is_null()" ;;
  _ <- increment_root_count (ManPtr.as_ptr ptr) ;
  from_raw (ManPtr.with_meta ptr Rooted).
Definition shared_deref (sh : cell) : M V :=
  p <- shared_as_man_ptr sh ;
  if ManPtr.is_null p then Stop (Panic "r.is_some()") else
  o <- deref (ManPtr.as_ptr p) ; Ret (o_val o).
(** [PartialEq], [PartialOrd], [Ord] and [Hash] of [Shared] and [Local] compare the
    payloads. *)
Definition shared_on {X} (f : V -> V -> X) (this other : cell) : M X :=
  x <- shared_deref this ; y <- shared_deref other ; Ret (f x y).
Definition local_on {X} (f : V -> V -> X) (this other : Z) : M X :=
  x <- local_deref this ; y <- local_deref other ; Ret (f x y).
Definition shared_hash {X} (hash : V -> X) (sh : cell) : M X := x <- shared_deref sh ; Ret (hash x).
Definition aso_from_shared_ref (value : option cell) : M cell :=
  match value with Some sh => shared_clone sh | None => none end.
End pointers.
