(* ===== verification/Collector.v ===== *)
(** * The collector thread ([src/collector.rs], lines 188-457)

    A cycle is root tracing, completion tracing until it is confirmed, and the next
    Normal phase with its sweep.  The collector owns participant [l].  The scoped
    workers of [parallel_shard_work] are programs of their own ([scan_worker],
    [sweep_worker], over disjoint shard ranges); the cycle runs them one after the
    other. *)
From S2P Require Import Prelude Prog Epoch Meta Slots Registry State Heap Participant Guards.
#[local] Open Scope Z_scope.
#[local] Open Scope prog_scope.

Definition LOCAL_MARK_TASKS_BATCH_LIMIT : nat := 2048.

(** [parallel_shard_work]: the range of thread [thread_idx]. *)
Definition shard_range (num_threads thread_idx : nat) : list nat :=
  let base := (OBJ_BATCHES_SHARD / num_threads)%nat in
  let start := (thread_idx * base)%nat in
  let end_ := if (thread_idx =? num_threads - 1)%nat then OBJ_BATCHES_SHARD else (start + base)%nat in
  seq start (end_ - start).

Lemma shard_ranges_cover num_threads : (1 <= num_threads <= OBJ_BATCHES_SHARD)%nat ->
  concat (map (shard_range num_threads) (seq 0 num_threads)) = seq 0 OBJ_BATCHES_SHARD.
Proof.
  unfold OBJ_BATCHES_SHARD. intros H.
  do 9 (destruct num_threads as [|num_threads]; [first [lia|reflexivity]|]). lia.
Qed.
(** The ranges of the scoped threads partition the shards: no shard is skipped and
    none is worked on by two threads. *)
Theorem shard_ranges_partition num_threads : (1 <= num_threads <= OBJ_BATCHES_SHARD)%nat ->
  concat (map (shard_range num_threads) (seq 0 num_threads)) = seq 0 OBJ_BATCHES_SHARD.
Proof. apply shard_ranges_cover. Qed.

Section collector.
Context {EX : Extern} {V : Type} (fuel : nat).
#[local] Abbreviation M := (prog (gstate V)).

Definition parallel_shard_work (num_threads : nat) (work : nat -> list nat -> M unit) : M unit :=
  foreach (seq 0 num_threads) (fun thread_idx => work thread_idx (shard_range num_threads thread_idx)).

(** ** Phase transitions *)
Definition wait_all_mutators_unpin (new_ts : Z) : M unit :=
  _ <- iter_slots (R := unit) fuel iter_using_cond (fun k _ =>
    loop fuel (fun _ =>
      local_epoch <- get_local k l_epoch ;
      if negb (is_pinned local_epoch) || (new_ts <=? timestamp local_epoch)
      then Ret (inr (inl tt)) else Ret (inl tt)) tt) tt ;
  Ret tt.
Definition store_epoch (e : Epoch) : M unit := modify (set_g_epoch (fun _ => e)).
Definition phase_trans (new : Phase) : M unit :=
  epoch <- load_epoch ;
  let new_epoch := with_phase (with_timestamp epoch (wadd (timestamp epoch) 1)) new in
  store_epoch new_epoch ;;
  wait_all_mutators_unpin (timestamp new_epoch).

(** ** Mark tasks *)
(** [Stealer::steal_batch_with_limit_and_pop] from participant [k] to [l]; a queue
    that steals from itself just pops. *)
Definition steal_tasks (k l : nat) : M (steal_result Z) :=
  atomic (fun s =>
    match nodes (g_locals s) !! k, nodes (g_locals s) !! l with
    | Some src, Some dest =>
        let put i ts := set_g_locals (fun r =>
          mkSlots (alter (upd_item (set_l_tasks (fun _ => ts))) i (nodes r)) (active r)) in
        if decide (k = l) then
          match l_tasks (n_item src) with
          | [] => Ok (SEmpty, s)
          | t :: ts => Ok (SSuccess t ts ts, put l ts s)
          end
        else
          match steal_batch (l_tasks (n_item src)) (l_tasks (n_item dest)) LOCAL_MARK_TASKS_BATCH_LIMIT with
          | SSuccess t src' dest' => Ok (SSuccess t src' dest', put k src' (put l dest' s))
          | r => Ok (r, s)
          end
    | _, _ => Stopped (UB "dangling Local")
    end).
(** [collect::<Steal<Task>>()]: the first success, or whether any attempt must be
    retried. *)
Definition steal_round (l : nat) : M (bool + Z) :=
  iter_slots fuel iter_all_cond (fun k retry =>
    r <- steal_tasks k l ;
    Ret (match r with
         | SSuccess t _ _ => inr t
         | SRetry => inl true
         | SEmpty => inl retry
         end)) false.
Definition find_task (l : nat) : M (option Z) :=
  t <- pop_task l ;
  match t with
  | Some t => Ret (Some t)
  | None =>
      loop fuel (fun _ =>
        r <- steal_round l ;
        Ret (match r with
             | inr t => inr (Some t)
             | inl true => inl tt
             | inl false => inr None
             end)) tt
  end.
Definition drain_loop (l : nat) (g : guard) : M bool :=
  loop fuel (fun executed =>
    t <- find_task l ;
    match t with
    | Some t => task_call fuel t g ;; Ret (inl true)
    | None => Ret (inr executed)
    end) false.
Definition drain_mark_tasks (l : nat) : M bool :=
  g <- pin fuel l ; executed <- drain_loop l g ; guard_drop fuel g ;; Ret executed.

(** ** Root tracing *)
Definition scan_item (g : guard) (hazards : gset Z) (a : Z) : M unit :=
  rc <- obj_root_count a ;
  if (0 <? rc) || bool_decide (a ∈ hazards) then mark_obj_mark fuel a g else Ret tt.
(** One scoped thread: it registers a participant of its own. *)
Definition scan_worker (hazards : gset Z) (white_color : Color) (thread : nat) (range : list nat) : M unit :=
  l <- register fuel thread ;
  g <- pin fuel l ;
  _ <- for_each (R := unit) range (fun q_idx rng =>
    loop fuel (fun rng =>
      batch <- try_pop_fresh_q white_color q_idx ;
      match batch with
      | None => Ret (inr (inl rng))
      | Some batch =>
          foreach (b_items batch) (scan_item g hazards) ;;
          let r := rng_usize rng OBJ_BATCHES_SHARD in
          push_marked_q white_color r.1 batch ;; Ret (inl r.2)
      end) rng) rng_new ;
  guard_drop fuel g ;;
  unregister thread l.
Definition scan_allocated_objs (l : nat) (worker_thread : nat -> nat) : M unit :=
  g <- pin fuel l ;
  _ <- iter_slots (R := unit) fuel iter_all_cond (fun k _ =>
    white <- white_color g ;
    pending <- take_obj_batch k (color_index white) ;
    match pending with
    | None => Ret (inl tt)
    | Some (batch, size_bytes) =>
        white' <- white_color g ;
        shard <- select_obj_shard l ;
        push_fresh_objs batch size_bytes white' shard ;; Ret (inl tt)
    end) tt ;
  hazards <- collect_hps fuel ;
  white_color <- white_color g ;
  num_threads <- gets g_threads ;
  parallel_shard_work (Z.to_nat num_threads)
    (fun i => scan_worker hazards white_color (worker_thread i)) ;;
  guard_drop fuel g.
Definition root_tracing (l : nat) (worker_thread : nat -> nat) : M unit :=
  e <- load_epoch ; ph <- phase_of e ;
  assert_ (bool_decide (ph = N)) "global().load_epoch().phase() == Phase::N" ;;
  phase_trans RT ;;
  scan_allocated_objs l worker_thread ;;
  _ <- drain_mark_tasks l ; Ret tt.

(** ** Completion tracing *)
Definition any_local (p : local -> bool) : M bool :=
  any_slot fuel iter_all_cond (fun k => get_local k p).
Definition try_confirm_completion : M bool :=
  e <- load_epoch ;
  let curr_ts := timestamp e in
  b <- any_local (fun r => l_mt_modified_ts r =? curr_ts) ;
  if b : bool then Ret false else
  b <- any_local (fun r => bool_decide (l_tasks r <> [])) ;
  if b : bool then Ret false else
  b <- any_local (fun r => l_mt_modified_ts r =? curr_ts) ;
  if b : bool then Ret false else Ret true.
Definition completion_tracing (l : nat) : M bool :=
  e <- load_epoch ; ph <- phase_of e ;
  assert_ (bool_decide (ph <> N)) "curr == Phase::RT || curr == Phase::CT" ;;
  phase_trans CT ;;
  ok <- try_confirm_completion ;
  if ok : bool then Ret true else _ <- drain_mark_tasks l ; Ret false.

(** ** The next Normal phase *)
(** A sweeping thread pins, if it ever has to, under a participant it registers. *)
Definition sweep_recs (thread : nat) : recs (V := V) :=
  mkRecs (fun _ => l <- register fuel thread ; pin fuel l)
         (fun g => guard_drop fuel g ;; unregister thread (gd_local g)).
Record sweep_state := mkSweep { sw_batch : ObjBatch; sw_bytes : Z; sw_rng : Rng }.
Definition sweep_obj (thread : nat) (prev_white : Color) (a : Z) (st : sweep_state) : M sweep_state :=
  c <- obj_color a ;
  if decide (prev_white = c) then
    o <- deref a ;
    drop_obj (sweep_recs thread) 0 a ;;
    Ret (mkSweep (sw_batch st) (wadd (sw_bytes st) (o_size o)) (sw_rng st))
  else
    match push_within_capacity (sw_batch st) a with
    | inl b => Ret (mkSweep b (sw_bytes st) (sw_rng st))
    | inr e =>
        let full := sw_batch st in
        let r := rng_usize (sw_rng st) OBJ_BATCHES_SHARD in
        push_fresh_q (flip prev_white) r.1 full ;;
        match push_within_capacity batch_default e with
        | inl b => Ret (mkSweep b (sw_bytes st) r.2)
        | inr _ => Stop (Panic "survived_batch.push_within_capacity(e).is_ok()")
        end
    end.
Definition sweep_worker (prev_white : Color) (thread : nat) (range : list nat) : M unit :=
  r <- for_each (R := Empty_set) range (fun q_idx st =>
    loop fuel (fun st =>
      batch <- try_pop_marked_q prev_white q_idx ;
      match batch with
      | None => Ret (inr (inl st))
      | Some batch =>
          r <- for_each (R := Empty_set) (b_items batch)
                 (fun a st => st' <- sweep_obj thread prev_white a st ; Ret (inl st')) st ;
          Ret (inl (match r with inl st => st | inr e => match e with end end))
      end) st) (mkSweep batch_default 0 rng_new) ;
  let st := match r with inl st => st | inr e => match e with end end in
  (if batch_is_empty (sw_batch st) then Ret tt else
   push_fresh_q (flip prev_white) (rng_usize (sw_rng st) OBJ_BATCHES_SHARD).1 (sw_batch st)) ;;
  add_reclaimed (sw_bytes st).
Definition sweep (prev_white : Color) (worker_thread : nat -> nat) : M unit :=
  num_threads <- gets g_threads ;
  parallel_shard_work (Z.to_nat num_threads) (fun i => sweep_worker prev_white (worker_thread i)).
Definition next_normal (l : nat) (worker_thread : nat -> nat) : M unit :=
  prev_epoch <- load_epoch ; ph <- phase_of prev_epoch ;
  assert_ (bool_decide (ph = CT)) "prev_epoch.phase() == Phase::CT" ;;
  t <- find_task l ;
  assert_ (bool_decide (t = None)) "find_task(handle).is_none()" ;;
  let new_epoch := with_color (with_phase (with_timestamp prev_epoch
    (wadd (timestamp prev_epoch) 1)) N) (flip (color prev_epoch)) in
  store_epoch new_epoch ;;
  sweep (color prev_epoch) worker_thread ;;
  wait_all_mutators_unpin (timestamp new_epoch).

(** The collection part of one iteration of [collector_loop]. *)
Definition collect_cycle (l : nat) (worker_thread : nat -> nat) : M unit :=
  root_tracing l worker_thread ;;
  loop fuel (fun _ =>
    done <- completion_tracing l ;
    if done : bool then Ret (inr tt) else Ret (inl tt)) tt ;;
  next_normal l worker_thread.
End collector.
