(* ===== verification/Stats.v ===== *)
(** * Configuration, statistics and the collection heuristic
    ([src/internal.rs], [src/collector.rs])

    The setters and getters of [Global], the heartbeat and collection statistics, the
    decision to start a cycle, and the collector's loop.  [f64] is the IEEE double of
    the Standard Library's [SpecFloat] (executable), [as] casts included.  Time is an
    argument: an [Instant] is a number of nanoseconds. *)
From S2P Require Import Prelude Prog Epoch Meta Slots Registry State Heap Participant Guards Collector.
From Stdlib Require Import SpecFloat.
#[local] Open Scope Z_scope.
#[local] Open Scope prog_scope.
#[local] Open Scope word_scope.

Definition clamp (x lo hi : Z) : Z := if x <? lo then lo else if hi <? x then hi else x.

(** ** [HeapHeadroom] *)
Inductive HeapHeadroom := FixedMiB (mib : Z) | Proportional (divisor : Z).
Definition HEADROOM_PROPORTIONAL_BIT : Z := 1 .<< (wbits - 1).
Definition pack (h : HeapHeadroom) : Z :=
  match h with
  | FixedMiB mib => wmul (wmul (clamp mib 1 1024) 1024) 1024
  | Proportional div => clamp div 1 1024 .| HEADROOM_PROPORTIONAL_BIT
  end.
Definition unpack (bits : Z) : HeapHeadroom :=
  if negb (bits .& HEADROOM_PROPORTIONAL_BIT =? 0) then
    Proportional (bits .& wnot HEADROOM_PROPORTIONAL_BIT)
  else FixedMiB (bits / (1024 * 1024)).

Lemma clamp_range x lo hi : lo <= hi -> lo <= clamp x lo hi <= hi.
Proof. unfold clamp. destruct (Z.ltb_spec x lo), (Z.ltb_spec hi x); lia. Qed.

Definition clamped (h : HeapHeadroom) : HeapHeadroom :=
  match h with
  | FixedMiB mib => FixedMiB (clamp mib 1 1024)
  | Proportional div => Proportional (clamp div 1 1024)
  end.

(** C36. What [heap_headroom] reads back after [set_heap_headroom] is the value stored,
    clamped to the documented range: the packing loses nothing and the two modes
    are never confused. *)
Theorem headroom_roundtrip h : unpack (pack h) = clamped h.
Proof.
  assert (Hall : forallb (fun c => match unpack (pack (FixedMiB c)), unpack (pack (Proportional c)) with
    | FixedMiB c1, Proportional c2 => (c1 =? c) && (c2 =? c) | _, _ => false end) (seqZ 1 1024) = true)
    by by vm_compute.
  rewrite forallb_forall in Hall.
  assert (Hc : forall x, clamp (clamp x 1 1024) 1 1024 = clamp x 1 1024).
  { intros x. pose proof (clamp_range x 1 1024 ltac:(lia)). unfold clamp at 1.
    destruct (Z.ltb_spec (clamp x 1 1024) 1), (Z.ltb_spec 1024 (clamp x 1 1024)); lia. }
  destruct h as [x|x]; pose proof (clamp_range x 1 1024 ltac:(lia)) as Hr;
    specialize (Hall (clamp x 1 1024));
    rewrite <- list_elem_of_In, elem_of_seqZ in Hall; specialize (Hall ltac:(lia)); revert Hall;
    unfold pack; rewrite Hc; fold (pack (FixedMiB x)); fold (pack (Proportional x)).
  - destruct (unpack _) as [c1|]; [|done]. destruct (unpack _) as [|c2]; [done|].
    intros [->%Z.eqb_eq _]%andb_true_iff. done.
  - destruct (unpack _) as [c1|]; [|done]. destruct (unpack _) as [|c2]; [done|].
    intros [_ ->%Z.eqb_eq]%andb_true_iff. done.
Qed.

(** ** Doubles *)
Definition f64 : Type := spec_float.
Definition f64_of (x : Z) : f64 := binary_normalize 53 1024 x 0 false.
Definition usize_of (x : f64) : Z :=
  match x with
  | S754_zero _ | S754_nan => 0
  | S754_infinity s => if s then 0 else wmax
  | S754_finite true _ _ => 0
  | S754_finite false m e => Z.min (Z.shiftl (Zpos m) e) wmax
  end.
Definition fadd (x y : f64) : f64 := SFadd 53 1024 x y.
Definition fsub (x y : f64) : f64 := SFsub 53 1024 x y.
Definition fmul (x y : f64) : f64 := SFmul 53 1024 x y.
Definition fdiv (x y : f64) : f64 := SFdiv 53 1024 x y.
Definition fsqrt (x : f64) : f64 := SFsqrt 53 1024 x.
(** [f64::max]: a NaN loses. *)
Definition fmax (x y : f64) : f64 :=
  match x, y with
  | S754_nan, _ => y
  | _, S754_nan => x
  | _, _ => if SFltb x y then y else x
  end.
Definition one : f64 := f64_of 1.
Definition one_half : f64 := fdiv one (f64_of 2).
Definition ALLOC_PER_MS_SMOOTH_FACTOR : f64 := one_half.
Definition RECLM_PER_MS_SMOOTH_FACTOR : f64 := one_half.
Definition COLL_TIME_MS_SMOOTH_FACTOR : f64 := one_half.
Definition EXTRA_TUNING_FACTOR : Z := 10.

Definition smooth (factor : f64) (prev curr : Z) : Z :=
  if prev =? 0 then curr
  else usize_of (fadd (fmul factor (f64_of prev)) (fmul (fsub one factor) (f64_of curr))).

Definition as_isize (x : Z) : Z := if x <? 2 ^ 63 then x else x - 2 ^ 64.
(** [isize] subtraction with overflow checks. *)
Definition checked_isize_sub {S} (x y : Z) : prog S Z :=
  if (- 2 ^ 63 <=? x - y) && (x - y <? 2 ^ 63) then Ret (x - y)
  else Stop (Panic "attempt to subtract with overflow").
Definition as_millis (from to : Z) : Z := Z.max 0 (to - from) / 1000000.

Section stats.
Context {EX : Extern} {V : Type} (fuel : nat).
#[local] Abbreviation M := (prog (gstate V)).

(** ** The public interface of [Global] *)
Definition enable_collection (b : bool) : M unit := modify (set_g_enabled (fun _ => b)).
Definition request_collection : M unit := modify (set_g_requested (fun _ => true)).
Definition estimate_total_alloc : M Z := gets g_allocated.
Definition estimate_total_reclm : M Z := gets g_reclaimed.
Definition estimate_heap_usage : M Z :=
  allocated <- estimate_total_alloc ;
  reclaimed <- estimate_total_reclm ;
  Ret (Z.max 0 (allocated - reclaimed)).
Definition set_heap_headroom (h : HeapHeadroom) : M unit := modify (set_g_headroom (fun _ => pack h)).
Definition heap_headroom : M HeapHeadroom := b <- gets g_headroom ; Ret (unpack b).
Definition set_collector_threads (count : Z) : M unit :=
  modify (set_g_threads (fun _ => clamp count 1 (Z.of_nat OBJ_BATCHES_SHARD))).
Definition collector_threads : M Z := gets g_threads.
(** [available_parallelism] is a fact of the machine. *)
Definition default_collector_threads (available_parallelism : option Z) : Z :=
  clamp (default 1 available_parallelism / 8) 1 (Z.of_nat OBJ_BATCHES_SHARD).
Definition global_new (available_parallelism : option Z) : gstate V :=
  let row := replicate OBJ_BATCHES_SHARD [] in
  mkG ∅ ∅ ∅ default_slots starting [row; row] [row; row] 0 0 false true false
    (pack (FixedMiB 1)) (default_collector_threads available_parallelism) registry_new.

(** ** The statistics of the collector thread *)
Record HeartbeatStats := mkHB {
  measured_time : Z; heap_usage : Z; total_alloc : Z; alloc_per_ms : Z; alloc_per_ms_smooth : Z
}.
Record CollectionStats := mkCS {
  reclm_per_ms_smooth : Z; coll_time_ms_smooth : Z; desired_heap_limit : Z
}.
Record cstate := mkC { c_global : gstate V; HBSTATS : HeartbeatStats; CSTATS : CollectionStats }.
#[local] Abbreviation C := (prog cstate).
Definition on_global {A} (p : M A) : C A :=
  lift c_global (fun x s => mkC x (HBSTATS s) (CSTATS s)) p.
Definition set_hb (h : HeartbeatStats) : C unit := modify (fun s => mkC (c_global s) h (CSTATS s)).
Definition set_cstats (f : CollectionStats -> CollectionStats) : C unit :=
  modify (fun s => mkC (c_global s) (HBSTATS s) (f (CSTATS s))).

Definition heartbeat (now : Z) : C HeartbeatStats :=
  stats <- gets HBSTATS ;
  let dur := as_millis (measured_time stats) now in
  if dur =? 0 then Ret stats else
  new_total_alloc <- on_global estimate_total_alloc ;
  new_total_reclm <- on_global estimate_total_reclm ;
  alloc_diff <- checked_sub new_total_alloc (total_alloc stats) ;
  let new_alloc_per_ms := alloc_diff / dur in
  let new_smooth := smooth ALLOC_PER_MS_SMOOTH_FACTOR (alloc_per_ms_smooth stats) new_alloc_per_ms in
  usage <- checked_sub new_total_alloc new_total_reclm ;
  let stats := mkHB now usage new_total_alloc new_alloc_per_ms new_smooth in
  set_hb stats ;; Ret stats.

Definition headroom_min (h : HeapHeadroom) (heap_usage : Z) : C Z :=
  match h with
  | FixedMiB mib => x <- checked_mul mib 1024 ; checked_mul x 1024
  | Proportional divisor =>
      if divisor =? 0 then Stop (Panic "attempt to divide by zero")
      else Ret (Z.max (heap_usage / divisor) (16 * 1024))
  end.
(** The square-root rule of the heap limit. *)
Definition extra_of (heap_usage alloc_rate reclm_rate headroom_min : Z) : C Z :=
  x <- checked_mul heap_usage alloc_rate ;
  Ret (usize_of (fmax (fsqrt (f64_of (x / reclm_rate / EXTRA_TUNING_FACTOR))) (f64_of headroom_min))).

(** [end_] and [now] are the two clock readings. *)
Definition record_collection_stats (start recl_at_start end_ now : Z) : C unit :=
  alloc_at_end <- on_global estimate_total_alloc ;
  recl_at_end <- on_global estimate_total_reclm ;
  cs <- gets CSTATS ;
  let curr_coll_time_ms := Z.max (as_millis start end_) 1 in
  let new_coll_time_ms :=
    smooth COLL_TIME_MS_SMOOTH_FACTOR (coll_time_ms_smooth cs) curr_coll_time_ms in
  cs' <- gets CSTATS ;
  recl <- checked_sub recl_at_end recl_at_start ;
  let curr_reclm_rate := usize_of (fdiv (f64_of recl) (f64_of curr_coll_time_ms)) in
  let new_reclm_rate := smooth RECLM_PER_MS_SMOOTH_FACTOR (reclm_per_ms_smooth cs') curr_reclm_rate in
  hbstats <- heartbeat now ;
  heap_usage <- checked_sub alloc_at_end recl_at_end ;
  extra <- (if new_reclm_rate =? 0 then
              n <- on_global (on_slots active_count) ;
              x <- checked_mul n 1024 ; checked_mul x 1024
            else
              h <- on_global heap_headroom ;
              m <- headroom_min h heap_usage ;
              extra_of heap_usage (alloc_per_ms_smooth hbstats) new_reclm_rate m) ;
  limit <- checked_add heap_usage extra ;
  set_cstats (fun c => mkCS new_reclm_rate (coll_time_ms_smooth c) (desired_heap_limit c)) ;;
  set_cstats (fun c => mkCS (reclm_per_ms_smooth c) new_coll_time_ms (desired_heap_limit c)) ;;
  set_cstats (fun c => mkCS (reclm_per_ms_smooth c) (coll_time_ms_smooth c) limit).

Definition is_collection_necessary : C bool :=
  enabled <- on_global (gets g_enabled) ;
  if negb enabled then
    set_cstats (fun c => mkCS (reclm_per_ms_smooth c) (coll_time_ms_smooth c) 0) ;; Ret false
  else
  requested <- on_global (gets g_requested) ;
  if requested : bool then on_global (modify (set_g_requested (fun _ => false))) ;; Ret true else
  hbstats <- gets HBSTATS ;
  reclm <- gets (fun s => reclm_per_ms_smooth (CSTATS s)) ;
  heap_usage <- on_global estimate_heap_usage ;
  heap_limit <- gets (fun s => desired_heap_limit (CSTATS s)) ;
  if heap_limit <? heap_usage then Ret true else
  pure_alloc_rate <- checked_isize_sub (as_isize (alloc_per_ms_smooth hbstats)) (as_isize reclm) ;
  if pure_alloc_rate <? 0 then Ret (heap_limit <=? heap_usage) else
  if pure_alloc_rate =? 0 then Ret false else
  room <- checked_sub heap_limit heap_usage ;
  let oom_time_ms := room / pure_alloc_rate in
  coll_time <- gets (fun s => coll_time_ms_smooth (CSTATS s)) ;
  Ret (oom_time_ms <=? coll_time).

(** One iteration of [collector_loop] by participant [l]; [clock] gives the readings
    of the clock. *)
Definition collector_step (l : nat) (worker_thread : nat -> nat) (clock : nat -> Z) : C unit :=
  loop fuel (fun _ => b <- is_collection_necessary ; Ret (if b : bool then inr tt else inl tt)) tt ;;
  recl_at_start <- on_global estimate_total_reclm ;
  on_global (collect_cycle fuel l worker_thread) ;;
  record_collection_stats (clock 0%nat) recl_at_start (clock 1%nat) (clock 2%nat).
Definition collector_start (l : nat) : C unit :=
  n <- on_global estimate_total_alloc ;
  stats <- gets HBSTATS ;
  set_hb (mkHB (measured_time stats) (heap_usage stats) n (alloc_per_ms stats) (alloc_per_ms_smooth stats)).

(** The decision as a function of what it reads. *)
Definition necessary (s : cstate) : bool :=
  let usage := Z.max 0 (g_allocated (c_global s) - g_reclaimed (c_global s)) in
  let limit := desired_heap_limit (CSTATS s) in
  let rate := alloc_per_ms_smooth (HBSTATS s) - reclm_per_ms_smooth (CSTATS s) in
  (limit <? usage) ||
  (if rate <? 0 then usage =? limit
   else negb (rate =? 0) && ((limit - usage) / rate <=? coll_time_ms_smooth (CSTATS s))).

(** C35. The heuristic never panics (the subtractions cannot underflow) and decides as
    documented: disabled collection answers no and resets the limit; a request
    answers yes once; otherwise a cycle starts when the heap is over its limit, or
    when at the current rates it would outgrow the limit before a cycle ends. *)
Theorem is_collection_necessary_spec s :
  0 <= alloc_per_ms_smooth (HBSTATS s) < 2 ^ 63 -> 0 <= reclm_per_ms_smooth (CSTATS s) < 2 ^ 63 ->
  run is_collection_necessary s =
    if negb (g_enabled (c_global s)) then
      Ok (false, mkC (c_global s) (HBSTATS s)
                     (mkCS (reclm_per_ms_smooth (CSTATS s)) (coll_time_ms_smooth (CSTATS s)) 0))
    else if g_requested (c_global s) then
      Ok (true, mkC (set_g_requested (fun _ => false) (c_global s)) (HBSTATS s) (CSTATS s))
    else Ok (necessary s, s).
Proof.
  intros Ha Hr. destruct s as [g hb cs]. unfold is_collection_necessary. simpl in *.
  destruct (g_enabled g); simpl; [|done]. destruct (g_requested g); simpl; [done|].
  unfold necessary. simpl. set (usage := Z.max 0 _). set (limit := desired_heap_limit cs).
  destruct (Z.ltb_spec limit usage) as [|Hle]; simpl; [done|].
  unfold checked_isize_sub, as_isize.
  replace (alloc_per_ms_smooth hb <? 2 ^ 63) with true by lia.
  replace (reclm_per_ms_smooth cs <? 2 ^ 63) with true by lia.
  set (rate := alloc_per_ms_smooth hb - reclm_per_ms_smooth cs).
  replace (- 2 ^ 63 <=? rate) with true by lia. replace (rate <? 2 ^ 63) with true by lia. simpl.
  destruct (Z.ltb_spec rate 0); simpl.
  - do 2 f_equal. destruct (Z.leb_spec limit usage), (Z.eqb_spec usage limit); lia || done.
  - destruct (Z.eqb_spec rate 0); simpl; [done|]. unfold checked_sub.
    replace (usage <=? limit) with true by lia. done.
Qed.
End stats.
