(* ===== verification/Barriers.v ===== *)
(** * What the pointer operations do ([src/pointers.rs])

    Each writing operation of [Pointers] run without interference: the word it
    leaves in the link, the root counts it moves, and the tasks its write barriers
    queue. *)
From S2P Require Import Prelude Prog Epoch Meta Slots Registry State Heap Participant Guards Marking Pointers.
#[local] Open Scope word_scope.
#[local] Open Scope Z_scope.

Section barriers.
Context {EX : Extern} {V : Type}.

Lemma target_eqb p q : (target p =? target q) = (ManPtr.p_addr p =? ManPtr.p_addr q).
Proof.
  unfold target. pose proof align_log_ok. assert (0 < 2 ^ align_log) by lia.
  destruct (Z.eqb_spec (ManPtr.p_addr p) (ManPtr.p_addr q)) as [->|Hne]; [apply Z.eqb_refl|].
  apply Z.eqb_neq. intros E. apply Hne. by apply Z.mul_reg_r in E; [|lia].
Qed.
Lemma not_black r col : col <> black_of r -> col = color (l_epoch r).
Proof. unfold black_of. by destruct col, (color (l_epoch r)). Qed.

(** What the barriers of an unrooted write queue: the new pointee when the link is
    already black (insertion), the old one when it is still white and a cycle is in
    progress (deletion). *)
Definition barrier (r : local) (gph : Phase) (objs : gmap Z (obj V)) (col : Color) (p q : ManPtr.ptr) : list Z :=
  if target p =? target q then [] else
  if decide (col = black_of r) then to_push r objs q else
  if decide (gph = N) then [] else to_push r objs p.

Lemma run_global_phase (s : gstate V) gph : phase (g_epoch s) = Ok gph ->
  run global_phase_with_fence s = Ok (gph, s).
Proof. intros H. unfold global_phase_with_fence, phase_of. simpl. by rewrite H. Qed.

Lemma run_cas_link c w w' (s : gstate V) : g_cells s !! c = Some w ->
  run (cas_link false c w w') s = Ok (inl w, set_g_cells (fun _ => <[c := w']> (g_cells s)) s).
Proof. intros Hc. unfold cas_link, cas_cell, atomic. cbn [run]. by rewrite Hc, Z.eqb_refl. Qed.

(** Shading when [b], otherwise nothing. *)
Lemma run_shade_if (b : bool) (k : prog (gstate V) unit) p g s r :
  local_of s (gd_local g) = Some r -> phase_ok r -> points s p ->
  (k = if b then (_ <- shade_pointee (ManPtr.encode p) g ; Ret tt)%prog else Ret tt) ->
  exists s', run k s = Ok (tt, s') /\ pushes g (if b then to_push r (g_objs s) p else []) s s'.
Proof.
  intros Hl Hph Hp ->. destruct b; [|by exists s; split; [|eapply pushes_refl]].
  destruct (run_shade_ptr p g s r Hl Hph Hp) as (x & s' & E & Hs). exists s'.
  by rewrite run_bind, E.
Qed.

Lemma run_cmpxchg_unrooted_once c p q col g s r gph :
  local_of s (gd_local g) = Some r -> phase_ok r -> phase (g_epoch s) = Ok gph ->
  g_cells s !! c = Some (ManPtr.encode p) -> points s p -> points s q -> ManPtr.p_meta p = Unrooted col ->
  exists s', run (internal_cmpxchg_unrooted_once false c (ManPtr.encode p) (ManPtr.encode q) g) s =
      Ok (inl (ManPtr.encode p), s') /\
    traced g (barrier r gph (g_objs s) col p q)
      (<[c := ManPtr.encode (with_color col q)]> (g_cells s)) (g_objs s) s s'.
Proof.
  intros Hl Hph Hgph Hc Hpp Hpq Hm. pose proof Hpp as [Hp _]. pose proof Hpq as [Hq _].
  unfold internal_cmpxchg_unrooted_once, barrier.
  rewrite ManPtr.encode_meta, Hm, bool_decide_true by done. cbn [assert_ bind].
  rewrite (ManPtr.encode_color p Hp col Hm), !ManPtr.encode_as_ptr by done.
  fold (target p) (target q). rewrite ManPtr.encode_with_meta by done. fold (with_color col q).
  destruct (Z.eqb_spec (target p) (target q)) as [Et|Et]; cbn [negb].
  { cbn [bind]. rewrite run_bind, (run_cas_link _ _ _ _ Hc). cbn [bind]. eexists. split; [reflexivity|].
    eapply traced_set_cells, traced_refl. exact Hl. }
  rewrite run_bind, run_bind, (run_black _ _ _ Hl). fold (black_of r).
  destruct (decide (col = black_of r)) as [Eb|Eb].
  - destruct (run_shade_if true (dijkstra_insertion_barrier (ManPtr.encode q) g) q g s r Hl Hph Hpq eq_refl)
      as (s1 & E & Hs). rewrite E. pose proof (pushes_frame _ _ _ _ Hs) as (Ho & Hcs & _).
    destruct (pushes_local _ _ _ _ _ Hs Hl) as [n Hl1]. rewrite <- Hcs in Hc.
    rewrite run_bind, (run_cas_link _ _ _ _ Hc), run_bind, run_bind.
    erewrite run_white by exact Hl1. rewrite decide_False.
    + eexists. split; [reflexivity|]. rewrite Hcs. eapply traced_set_cells, pushes_traced. exact Hs.
    + change (col <> color (l_epoch r)). rewrite Eb. apply flip_ne.
  - cbn [run]. rewrite run_bind, (run_cas_link _ _ _ _ Hc), run_bind, run_bind.
    set (s1 := set_g_cells _ s). assert (Hl1 : local_of s1 (gd_local g) = Some r) by done.
    rewrite (run_white _ _ _ Hl1), decide_True by by apply not_black.
    rewrite run_bind, (run_global_phase s1 gph Hgph).
    assert (Htr : traced g [] (g_cells s1) (g_objs s) s s1) by by eapply traced_set_cells, traced_refl.
    destruct (decide (gph = N)).
    + eexists. split; [reflexivity|]. exact Htr.
    + destruct (run_shade_if true (yuasa_deletion_barrier (ManPtr.encode p) g) p g s1 r Hl1 Hph Hpp eq_refl)
        as (s2 & E & Hs). rewrite E. exists s2. split; [reflexivity|].
      apply pushes_traced in Hs. exact (traced_trans _ _ _ _ _ _ _ _ _ _ Htr Hs).
Qed.

(** ** Writing an unrooted link *)

Lemma run_swap_unrooted f c p q col g s r gph :
  local_of s (gd_local g) = Some r -> phase_ok r -> phase (g_epoch s) = Ok gph ->
  g_cells s !! c = Some (ManPtr.encode p) -> points s p -> points s q -> ManPtr.p_meta p = Unrooted col ->
  exists s', run (internal_swap (S f) c (ManPtr.encode q) g) s = Ok (ManPtr.encode p, s') /\
    traced g (barrier r gph (g_objs s) col p q)
      (<[c := ManPtr.encode (with_color col q)]> (g_cells s)) (g_objs s) s s'.
Proof.
  intros Hl Hph Hgph Hc Hpp Hpq Hm. pose proof Hpp as [Hp _].
  destruct (run_cmpxchg_unrooted_once c p q col g s r gph Hl Hph Hgph Hc Hpp Hpq Hm) as (s' & E & Htr).
  exists s'. split; [|done]. unfold internal_swap. rewrite run_bind, (run_load_cell _ _ _ Hc), run_bind.
  rewrite ManPtr.encode_meta, Hm, decide_False by done. cbn [run loop]. rewrite run_bind, run_bind.
  unfold internal_cmpxchg_unrooted. cbn [loop]. rewrite run_bind, run_bind, E. reflexivity.
Qed.

(** C25. [swap] on a link of a managed object returns the old word and leaves the new
    address and tag under the link's own colour.  Its barriers queue exactly
    [barrier]; no header, no other link and no root count changes. *)
Theorem swap_unrooted f c p q col g s r gph :
  local_of s (gd_local g) = Some r -> phase_ok r -> phase (g_epoch s) = Ok gph ->
  g_cells s !! c = Some (ManPtr.encode p) -> points s p -> points s q -> ManPtr.p_meta p = Unrooted col ->
  exists s', run (internal_swap (S f) c (ManPtr.encode q) g) s = Ok (ManPtr.encode p, s') /\
    traced g (barrier r gph (g_objs s) col p q)
      (<[c := ManPtr.encode (with_color col q)]> (g_cells s)) (g_objs s) s s'.
Proof. apply run_swap_unrooted. Qed.

(** The word a [Local] with a tag becomes. *)
Definition tagged (q : ManPtr.ptr) (t : Z) : ManPtr.ptr :=
  ManPtr.mkP (ManPtr.p_meta q) (ManPtr.p_addr q) (t mod 2 ^ align_log).
Lemma ptr_of_tag_encode v t q : ManPtr.ptr_ok q -> ptr_of v = ManPtr.encode q ->
  ptr_of_tag (v, t) = ManPtr.encode (tagged q t).
Proof. intros Hq E. unfold ptr_of_tag. cbn [fst snd]. by rewrite E, ManPtr.encode_with_tag. Qed.
Lemma points_tagged (s : gstate V) q t : points s q -> points s (tagged q t).
Proof.
  intros [[Ha _] Ht]. split; [|exact Ht]. split; [exact Ha|]. pose proof align_log_ok. cbn.
  apply Z.mod_pos_bound. lia.
Qed.

Lemma run_cas_unrooted f c p q col cur nv nt g s r gph :
  local_of s (gd_local g) = Some r -> phase_ok r -> phase (g_epoch s) = Ok gph ->
  g_cells s !! c = Some (ManPtr.encode p) -> points s p -> points s q -> ManPtr.p_meta p = Unrooted col ->
  ptr_of nv = ManPtr.encode q ->
  if ManPtr.without_meta (ManPtr.encode p) =? ptr_of_tag cur then
    exists s', run (compare_exchange_with_tag (S f) c cur (nv, nt) g) s =
        Ok (inl (as_local_with_tag (ManPtr.encode p)), s') /\
      traced g (barrier r gph (g_objs s) col p (tagged q nt))
        (<[c := ManPtr.encode (with_color col (tagged q nt))]> (g_cells s)) (g_objs s) s s'
  else run (compare_exchange_with_tag (S f) c cur (nv, nt) g) s =
         Ok (inr (as_local_with_tag (ManPtr.encode p)), s).
Proof.
  intros Hl Hph Hgph Hc Hpp Hpq Hm Hnew. pose proof Hpp as [Hp _]. pose proof Hpq as [Hq _].
  unfold compare_exchange_with_tag. rewrite run_bind, (run_load_cell _ _ _ Hc).
  destruct (_ =? _); cbn [negb]; [|reflexivity].
  destruct (run_cmpxchg_unrooted_once c p (tagged q nt) col g s r gph Hl Hph Hgph Hc Hpp
    (points_tagged _ _ _ Hpq) Hm) as (s' & E & Htr).
  exists s'. split; [|done]. rewrite run_bind, ManPtr.encode_meta, Hm, decide_False by done. cbn [run].
  rewrite (ptr_of_tag_encode _ _ _ Hq Hnew), run_bind. unfold internal_cmpxchg_unrooted. cbn [loop].
  rewrite run_bind, run_bind, E. reflexivity.
Qed.

(** C27. [compare_exchange] on such a link: it fails exactly when the word, colour aside,
    is not the expected one, and then changes nothing; otherwise it does what [swap]
    does. *)
Theorem compare_exchange_unrooted f c p q col cur nv nt g s r gph :
  local_of s (gd_local g) = Some r -> phase_ok r -> phase (g_epoch s) = Ok gph ->
  g_cells s !! c = Some (ManPtr.encode p) -> points s p -> points s q -> ManPtr.p_meta p = Unrooted col ->
  ptr_of nv = ManPtr.encode q ->
  if ManPtr.without_meta (ManPtr.encode p) =? ptr_of_tag cur then
    exists s', run (compare_exchange_with_tag (S f) c cur (nv, nt) g) s =
        Ok (inl (as_local_with_tag (ManPtr.encode p)), s') /\
      traced g (barrier r gph (g_objs s) col p (tagged q nt))
        (<[c := ManPtr.encode (with_color col (tagged q nt))]> (g_cells s)) (g_objs s) s s'
  else run (compare_exchange_with_tag (S f) c cur (nv, nt) g) s =
         Ok (inr (as_local_with_tag (ManPtr.encode p)), s).
Proof. apply run_cas_unrooted. Qed.

(** ** Root counts *)
Definition add_rc (d : Z) (a : Z) (objs : gmap Z (obj V)) : gmap Z (obj V) :=
  alter (set_o_hdr (fun w => w + d)) a objs.
(** The root count of the object at an address, null included. *)
Definition rc_ok (objs : gmap Z (obj V)) (a : Z) (P : Z -> Prop) : Prop :=
  forall o, objs !! a = Some o -> exists h, ObjMeta.hdr_ok h /\ o_hdr o = ObjMeta.encode h /\ P (ObjMeta.h_rc h).
Definition null_free (objs : gmap Z (obj V)) : Prop := objs !! 0 = None.

Lemma encode_add h d : ObjMeta.encode h + d = ObjMeta.encode (ObjMeta.mkHdr (ObjMeta.h_color h) (ObjMeta.h_tid h) (ObjMeta.h_rc h + d)).
Proof. rewrite !ObjMeta.encode_arith. cbn [ObjMeta.h_rc ObjMeta.h_tid ObjMeta.h_color]. lia. Qed.

Lemma run_increment a s o : g_objs s !! a = Some o -> rc_ok (g_objs s) a (fun n => n + 1 < 2 ^ 55) ->
  exists n, run (increment_root_count a) s = Ok (n, set_g_objs (fun _ => add_rc 1 a (g_objs s)) s) /\
    n = ObjMeta.root_count (o_hdr o).
Proof.
  intros Ho Hrc. destruct (Hrc o Ho) as (h & Hh & Eh & Hlt).
  unfold increment_root_count, rmw_header, atomic. cbn [run]. rewrite Ho, Eh.
  rewrite ObjMeta.increment_encode by done. eexists. split; [|by rewrite ObjMeta.encode_root_count].
  do 2 f_equal. unfold add_rc, set_g_objs. f_equal. rewrite <- encode_add, <- Eh.
  apply map_eq. intros k. destruct (decide (k = a)) as [->|].
  - by rewrite lookup_insert_eq, lookup_alter_eq, Ho.
  - by rewrite lookup_insert_ne, lookup_alter_ne.
Qed.
Lemma run_decrement a s o : g_objs s !! a = Some o -> rc_ok (g_objs s) a (fun n => 0 < n) ->
  exists n, run (decrement_root_count a) s = Ok (n, set_g_objs (fun _ => add_rc (-1) a (g_objs s)) s) /\
    n = ObjMeta.root_count (o_hdr o).
Proof.
  intros Ho Hrc. destruct (Hrc o Ho) as (h & Hh & Eh & Hlt).
  unfold decrement_root_count, rmw_header, atomic. cbn [run]. rewrite Ho, Eh.
  rewrite ObjMeta.decrement_encode by done. eexists. split; [|by rewrite ObjMeta.encode_root_count].
  do 2 f_equal. unfold add_rc, set_g_objs. f_equal.
  replace (ObjMeta.h_rc h - 1) with (ObjMeta.h_rc h + -1) by lia. rewrite <- encode_add, <- Eh.
  apply map_eq. intros k. destruct (decide (k = a)) as [->|].
  - by rewrite lookup_insert_eq, lookup_alter_eq, Ho.
  - by rewrite lookup_insert_ne, lookup_alter_ne.
Qed.

Definition rooted (p : ManPtr.ptr) : ManPtr.ptr := ManPtr.mkP Rooted (ManPtr.p_addr p) (ManPtr.p_tag p).
(** The object loses its last root. *)
Definition last_root (objs : gmap Z (obj V)) (p : ManPtr.ptr) : bool :=
  match objs !! target p with Some o => ObjMeta.root_count (o_hdr o) =? 1 | None => false end.
(** The root-count deletion barrier: during a cycle the object that loses its last
    root is queued unless marked. *)
Definition root_barrier (r : local) (gph : Phase) (objs : gmap Z (obj V)) (p : ManPtr.ptr) : list Z :=
  if last_root objs p then if decide (gph = N) then [] else to_push r (add_rc (-1) (target p) objs) p
  else [].

Lemma add_rc_is_Some d a objs x : is_Some (add_rc d a objs !! x) <-> is_Some (objs !! x).
Proof. apply lookup_alter_is_Some. Qed.
Lemma add_rc_null d a (objs : gmap Z (obj V)) : objs !! a = None -> add_rc d a objs = objs.
Proof.
  intros H. apply map_eq. intros k. unfold add_rc. destruct (decide (k = a)) as [->|].
  - by rewrite lookup_alter_eq, H.
  - by rewrite lookup_alter_ne.
Qed.
Lemma target_null p : ManPtr.p_addr p = 0 -> target p = 0.
Proof. unfold target. intros ->. lia. Qed.

Lemma run_cmpxchg_rooted c p q g s r gph :
  local_of s (gd_local g) = Some r -> phase_ok r -> phase (g_epoch s) = Ok gph ->
  g_cells s !! c = Some (ManPtr.encode p) -> points s p -> ManPtr.ptr_ok q -> ManPtr.p_meta p = Rooted ->
  null_free (g_objs s) -> rc_ok (g_objs s) (target p) (fun n => 0 < n) ->
  exists s', run (internal_cmpxchg_rooted false c (ManPtr.encode p) (ManPtr.encode (rooted q)) g) s =
      Ok (inl (ManPtr.encode p), s') /\
    traced g (root_barrier r gph (g_objs s) p) (<[c := ManPtr.encode (rooted q)]> (g_cells s))
      (add_rc (-1) (target p) (g_objs s)) s s'.
Proof.
  intros Hl Hph Hgph Hc Hpp Hq Hm Hnull Hrc. pose proof Hpp as [Hp Ht].
  assert (Hrq : ManPtr.ptr_ok (rooted q)) by done.
  unfold internal_cmpxchg_rooted, root_barrier, last_root.
  rewrite !ManPtr.encode_meta, Hm by done. rewrite !bool_decide_true by done. cbn [assert_ bind].
  rewrite run_bind, (run_cas_link _ _ _ _ Hc). set (s1 := set_g_cells _ s).
  assert (Hl1 : local_of s1 (gd_local g) = Some r) by done.
  assert (Htr1 : traced g [] (g_cells s1) (g_objs s) s s1) by by eapply traced_set_cells, traced_refl.
  rewrite ManPtr.encode_is_null by done. destruct (Z.eqb_spec (ManPtr.p_addr p) 0) as [E0|E0].
  { rewrite (target_null _ E0), Hnull, add_rc_null by done. exists s1. split; [reflexivity|exact Htr1]. }
  destruct (Ht E0) as [o Ho]. rewrite Ho.
  assert (Ea : ManPtr.as_ptr (ManPtr.encode p) = target p) by by apply ManPtr.encode_as_ptr. rewrite Ea.
  destruct (run_decrement (target p) s1 o Ho Hrc) as (n & En & ->). rewrite run_bind, En, run_bind.
  set (s2 := set_g_objs _ s1). assert (Hl2 : local_of s2 (gd_local g) = Some r) by done.
  assert (Htr2 : traced g [] (g_cells s1) (add_rc (-1) (target p) (g_objs s)) s s2).
  { eapply (traced_set_objs _ _ _ _ _ s1). exact Htr1. }
  destruct (ObjMeta.root_count (o_hdr o) =? 1); [|exists s2; split; [reflexivity|exact Htr2]].
  rewrite run_bind, (run_global_phase s2 gph Hgph).
  destruct (decide (gph = N)); [exists s2; split; [reflexivity|exact Htr2]|].
  destruct (run_shade_if true (_ <- shade_pointee (ManPtr.encode p) g ; Ret tt)%prog p g s2 r Hl2 Hph)
    as (s3 & E3 & Hs); [|reflexivity|].
  { split; [done|]. intros _. by apply add_rc_is_Some. }
  rewrite E3. exists s3. split; [reflexivity|]. apply pushes_traced in Hs.
  exact (traced_trans _ _ _ _ _ _ _ _ _ _ Htr2 Hs).
Qed.

Lemma new_cell_fresh (s : gstate V) : fresh (dom (g_cells s)) ∉ dom (g_cells s).
Proof. apply is_fresh. Qed.

(** [try_inc_raw] takes a root on the object, owned by a temporary link; [forget]
    gives the link up and keeps the root. *)
Lemma run_try_inc q g s r : local_of s (gd_local g) = Some r -> points s q ->
  null_free (g_objs s) -> rc_ok (g_objs s) (target q) (fun n => n + 1 < 2 ^ 55) ->
  exists sh s1, run (try_inc_raw (ManPtr.encode q)) s = Ok (sh, s1) /\
    traced g [] (g_cells s1) (add_rc 1 (target q) (g_objs s)) s s1 /\
    (forall c, is_Some (g_cells s !! c) -> g_cells s1 !! c = g_cells s !! c) /\
    (forall c w (s2 : gstate V), is_Some (g_cells s !! c) -> g_cells s2 = <[c := w]> (g_cells s1) ->
       run (forget sh) s2 = Ok (tt, set_g_cells (fun _ => <[c := w]> (g_cells s)) s2)).
Proof.
  intros Hl [Hq Ht] Hnull Hrc. unfold try_inc_raw. rewrite ManPtr.encode_is_null by done.
  destruct (Z.eqb_spec (ManPtr.p_addr q) 0) as [E0|E0].
  - exists None, s. split; [reflexivity|]. rewrite (target_null _ E0), add_rc_null by done.
    split; [by eapply traced_refl|]. split; [done|]. intros c w s2 _ E. cbn [forget run].
    do 2 f_equal. rewrite <- E. by destruct s2.
  - destruct (Ht E0) as [o Ho]. rewrite ManPtr.encode_as_ptr by done. fold (target q).
    destruct (run_increment _ _ _ Ho Hrc) as (n & En & _). rewrite run_bind, En, run_bind.
    unfold new_cell, atomic. cbn [run]. set (c' := fresh _). eexists (Some c'), _. split; [reflexivity|].
    pose proof (new_cell_fresh s) as Hf. change (c' ∉ dom (g_cells s)) in Hf.
    split; [|split].
    + eapply (traced_set_cells g [] (g_cells s)), (traced_set_objs g [] _ (g_objs s)), traced_refl. exact Hl.
    + intros c Hc. cbn. rewrite lookup_insert_ne; [done|]. intros <-. by apply Hf, elem_of_dom.
    + intros c w s2 Hc E. cbn [forget free_cell modify atomic run]. do 2 f_equal.
      unfold set_g_cells. f_equal. rewrite E. cbn.
      assert (c' <> c) by (intros <-; by apply Hf, elem_of_dom).
      rewrite delete_insert_ne, delete_insert_id by (done || by apply not_elem_of_dom). done.
Qed.

(** ** Writing a rooted link *)

(** A root is taken on the new object, the link replaced, and the temporary abandoned. *)
Lemma run_replace_rooted c p q q' g s r gph :
  local_of s (gd_local g) = Some r -> phase_ok r -> phase (g_epoch s) = Ok gph ->
  g_cells s !! c = Some (ManPtr.encode p) -> points s p -> points s q -> ManPtr.p_meta p = Rooted ->
  ManPtr.ptr_ok q' -> null_free (g_objs s) -> rc_ok (g_objs s) (target q) (fun n => n + 1 < 2 ^ 55) ->
  rc_ok (add_rc 1 (target q) (g_objs s)) (target p) (fun n => 0 < n) ->
  exists sh s1 s2 s3, run (try_inc_raw (ManPtr.encode q)) s = Ok (sh, s1) /\
    run (internal_cmpxchg_rooted false c (ManPtr.encode p) (ManPtr.encode (rooted q')) g) s1 = Ok (inl (ManPtr.encode p), s2) /\
    run (forget sh) s2 = Ok (tt, s3) /\
    traced g (root_barrier r gph (add_rc 1 (target q) (g_objs s)) p) (<[c := ManPtr.encode (rooted q')]> (g_cells s))
      (add_rc (-1) (target p) (add_rc 1 (target q) (g_objs s))) s s3.
Proof.
  intros Hl Hph Hgph Hc Hpp Hpq Hm Hq' Hnull Hrq Hrp. pose proof Hpp as [Hp Htp].
  destruct (run_try_inc q g s r Hl Hpq Hnull Hrq) as (sh & s1 & E1 & Htr1 & Hkeep & Hforget).
  pose proof (traced_local _ _ _ _ _ _ _ Htr1 Hl) as [n Hl1].
  pose proof (traced_cells _ _ _ _ _ _ Htr1) as [_ Ho1].
  assert (Hc1 : g_cells s1 !! c = Some (ManPtr.encode p)) by by rewrite Hkeep; [|eauto].
  assert (He1 : g_epoch s1 = g_epoch s) by by destruct Htr1 as (? & ? & ? & _ & ->).
  destruct (run_cmpxchg_rooted c p q' g s1 _ gph Hl1 Hph) as (s2 & E2 & Htr2); try done.
  { by rewrite He1. }
  { split; [done|]. rewrite Ho1. intros E0. by apply add_rc_is_Some, Htp. }
  { unfold null_free. rewrite Ho1. destruct (add_rc _ _ _ !! 0) eqn:E; [|done].
    assert (is_Some (g_objs s !! 0)) as [? ?] by (eapply add_rc_is_Some; eauto). by rewrite Hnull in *. }
  { by rewrite Ho1. }
  pose proof (traced_cells _ _ _ _ _ _ Htr2) as [Hc2 _].
  exists sh, s1, s2. eexists. split; [exact E1|]. split; [exact E2|]. split; [exact (Hforget c _ s2 ltac:(eauto) Hc2)|].
  rewrite Ho1 in Htr2. eapply traced_set_cells. exact (traced_trans _ _ _ _ _ _ _ _ _ _ Htr1 Htr2).
Qed.
Lemma run_swap_rooted f c p q g s r gph :
  local_of s (gd_local g) = Some r -> phase_ok r -> phase (g_epoch s) = Ok gph ->
  g_cells s !! c = Some (ManPtr.encode p) -> points s p -> points s q -> ManPtr.p_meta p = Rooted ->
  null_free (g_objs s) -> rc_ok (g_objs s) (target q) (fun n => n + 1 < 2 ^ 55) ->
  rc_ok (add_rc 1 (target q) (g_objs s)) (target p) (fun n => 0 < n) ->
  exists s', run (internal_swap (S f) c (ManPtr.encode q) g) s = Ok (ManPtr.encode p, s') /\
    traced g (root_barrier r gph (add_rc 1 (target q) (g_objs s)) p)
      (<[c := ManPtr.encode (rooted q)]> (g_cells s))
      (add_rc (-1) (target p) (add_rc 1 (target q) (g_objs s))) s s'.
Proof.
  intros Hl Hph Hgph Hc Hpp Hpq Hm Hnull Hrq Hrp. pose proof Hpp as [Hp Htp]. pose proof Hpq as [Hq _].
  unfold internal_swap. rewrite run_bind, (run_load_cell _ _ _ Hc), run_bind.
  rewrite ManPtr.encode_meta, Hm, decide_True by done.
  destruct (run_replace_rooted c p q q g s r gph) as (sh & s1 & s2 & s3 & E1 & E2 & E3 & Htr); try done.
  rewrite run_bind, E1. rewrite ManPtr.encode_with_meta by done. fold (rooted q).
  cbn [loop]. rewrite run_bind, ManPtr.encode_meta, Hm, decide_True, run_bind, E2 by done.
  rewrite run_bind, E3. by exists s3.
Qed.

(** C24. [swap] on a link owned by the program returns the old word, leaves the new
    address and tag rooted, moves one root from the old object to the new one, and
    during a cycle queues the old object if that was its last root.  No temporary
    link survives. *)
Theorem swap_rooted f c p q g s r gph :
  local_of s (gd_local g) = Some r -> phase_ok r -> phase (g_epoch s) = Ok gph ->
  g_cells s !! c = Some (ManPtr.encode p) -> points s p -> points s q -> ManPtr.p_meta p = Rooted ->
  null_free (g_objs s) -> rc_ok (g_objs s) (target q) (fun n => n + 1 < 2 ^ 55) ->
  rc_ok (add_rc 1 (target q) (g_objs s)) (target p) (fun n => 0 < n) ->
  exists s', run (internal_swap (S f) c (ManPtr.encode q) g) s = Ok (ManPtr.encode p, s') /\
    traced g (root_barrier r gph (add_rc 1 (target q) (g_objs s)) p)
      (<[c := ManPtr.encode (rooted q)]> (g_cells s))
      (add_rc (-1) (target p) (add_rc 1 (target q) (g_objs s))) s s'.
Proof. apply run_swap_rooted. Qed.

Lemma run_cas_rooted f c p q cur nv nt g s r gph :
  local_of s (gd_local g) = Some r -> phase_ok r -> phase (g_epoch s) = Ok gph ->
  g_cells s !! c = Some (ManPtr.encode p) -> points s p -> points s q -> ManPtr.p_meta p = Rooted ->
  ptr_of nv = ManPtr.encode q ->
  null_free (g_objs s) -> rc_ok (g_objs s) (target q) (fun n => n + 1 < 2 ^ 55) ->
  rc_ok (add_rc 1 (target q) (g_objs s)) (target p) (fun n => 0 < n) ->
  if ManPtr.without_meta (ManPtr.encode p) =? ptr_of_tag cur then
    exists s', run (compare_exchange_with_tag (S f) c cur (nv, nt) g) s =
        Ok (inl (as_local_with_tag (ManPtr.encode p)), s') /\
      traced g (root_barrier r gph (add_rc 1 (target q) (g_objs s)) p)
        (<[c := ManPtr.encode (rooted (tagged q nt))]> (g_cells s))
        (add_rc (-1) (target p) (add_rc 1 (target q) (g_objs s))) s s'
  else run (compare_exchange_with_tag (S f) c cur (nv, nt) g) s =
         Ok (inr (as_local_with_tag (ManPtr.encode p)), s).
Proof.
  intros Hl Hph Hgph Hc Hpp Hpq Hm Hnew Hnull Hrq Hrp. pose proof Hpp as [Hp Htp]. pose proof Hpq as [Hq _].
  unfold compare_exchange_with_tag. rewrite run_bind, (run_load_cell _ _ _ Hc).
  destruct (_ =? _); cbn [negb]; [|reflexivity].
  rewrite run_bind, ManPtr.encode_meta, Hm, decide_True by done.
  unfold internal_cmpxchg_strong_rooted. cbn [fst]. rewrite Hnew.
  pose proof (points_tagged s q nt Hpq) as [Htq _].
  destruct (run_replace_rooted c p q (tagged q nt) g s r gph) as (sh & s1 & s2 & s3 & E1 & E2 & E3 & Htr); try done.
  rewrite run_bind, E1, (ptr_of_tag_encode _ _ _ Hq Hnew).
  rewrite ManPtr.encode_with_meta by done. change (ManPtr.mkP Rooted _ _) with (rooted (tagged q nt)).
  rewrite run_bind, E2, run_bind, E3. by exists s3.
Qed.

(** C26. [compare_exchange] on a rooted link: as for [swap], or nothing at all. *)
Theorem compare_exchange_rooted f c p q cur nv nt g s r gph :
  local_of s (gd_local g) = Some r -> phase_ok r -> phase (g_epoch s) = Ok gph ->
  g_cells s !! c = Some (ManPtr.encode p) -> points s p -> points s q -> ManPtr.p_meta p = Rooted ->
  ptr_of nv = ManPtr.encode q ->
  null_free (g_objs s) -> rc_ok (g_objs s) (target q) (fun n => n + 1 < 2 ^ 55) ->
  rc_ok (add_rc 1 (target q) (g_objs s)) (target p) (fun n => 0 < n) ->
  if ManPtr.without_meta (ManPtr.encode p) =? ptr_of_tag cur then
    exists s', run (compare_exchange_with_tag (S f) c cur (nv, nt) g) s =
        Ok (inl (as_local_with_tag (ManPtr.encode p)), s') /\
      traced g (root_barrier r gph (add_rc 1 (target q) (g_objs s)) p)
        (<[c := ManPtr.encode (rooted (tagged q nt))]> (g_cells s))
        (add_rc (-1) (target p) (add_rc 1 (target q) (g_objs s))) s s'
  else run (compare_exchange_with_tag (S f) c cur (nv, nt) g) s =
         Ok (inr (as_local_with_tag (ManPtr.encode p)), s).
Proof. apply run_cas_rooted. Qed.

(** ** The weak compare-exchange *)
(** It does not fail without need: as the strong one, but for the retries. *)
Lemma run_weak_rooted f c p q cur nv nt g s r gph :
  local_of s (gd_local g) = Some r -> phase_ok r -> phase (g_epoch s) = Ok gph ->
  g_cells s !! c = Some (ManPtr.encode p) -> points s p -> points s q -> ManPtr.p_meta p = Rooted ->
  ptr_of nv = ManPtr.encode q ->
  null_free (g_objs s) -> rc_ok (g_objs s) (target q) (fun n => n + 1 < 2 ^ 55) ->
  rc_ok (add_rc 1 (target q) (g_objs s)) (target p) (fun n => 0 < n) ->
  (ManPtr.without_meta (ManPtr.encode p) =? ptr_of_tag cur) = true ->
  exists s', run (compare_exchange_weak_with_tag f false c cur (nv, nt) g) s =
      Ok (inl (as_local_with_tag (ManPtr.encode p)), s') /\
    traced g (root_barrier r gph (add_rc 1 (target q) (g_objs s)) p)
      (<[c := ManPtr.encode (rooted (tagged q nt))]> (g_cells s))
      (add_rc (-1) (target p) (add_rc 1 (target q) (g_objs s))) s s'.
Proof.
  intros Hl Hph Hgph Hc Hpp Hpq Hm Hnew Hnull Hrq Hrp Eb. pose proof Hpp as [Hp Htp]. pose proof Hpq as [Hq _].
  unfold compare_exchange_weak_with_tag. rewrite run_bind, (run_load_cell _ _ _ Hc), Eb. cbn [negb].
  rewrite ManPtr.encode_meta, Hm, decide_True by done. unfold internal_cmpxchg_weak_rooted. cbn [fst]. rewrite Hnew.
  pose proof (points_tagged s q nt Hpq) as [Htq _].
  destruct (run_replace_rooted c p q (tagged q nt) g s r gph) as (sh & s1 & s2 & s3 & E1 & E2 & E3 & Htr); try done.
  rewrite run_bind, E1, (ptr_of_tag_encode _ _ _ Hq Hnew), ManPtr.encode_with_meta by done.
  change (ManPtr.mkP Rooted _ _) with (rooted (tagged q nt)). rewrite run_bind, E2, run_bind, E3. by exists s3.
Qed.
Lemma run_weak_unrooted f c p q col cur nv nt g s r gph :
  local_of s (gd_local g) = Some r -> phase_ok r -> phase (g_epoch s) = Ok gph ->
  g_cells s !! c = Some (ManPtr.encode p) -> points s p -> points s q -> ManPtr.p_meta p = Unrooted col ->
  ptr_of nv = ManPtr.encode q -> (ManPtr.without_meta (ManPtr.encode p) =? ptr_of_tag cur) = true ->
  exists s', run (compare_exchange_weak_with_tag f false c cur (nv, nt) g) s =
      Ok (inl (as_local_with_tag (ManPtr.encode p)), s') /\
    traced g (barrier r gph (g_objs s) col p (tagged q nt))
      (<[c := ManPtr.encode (with_color col (tagged q nt))]> (g_cells s)) (g_objs s) s s'.
Proof.
  intros Hl Hph Hgph Hc Hpp Hpq Hm Hnew Eb. pose proof Hpp as [Hp _]. pose proof Hpq as [Hq _].
  unfold compare_exchange_weak_with_tag. rewrite run_bind, (run_load_cell _ _ _ Hc), Eb. cbn [negb].
  rewrite ManPtr.encode_meta, Hm, decide_False by done. rewrite (ptr_of_tag_encode _ _ _ Hq Hnew).
  destruct (run_cmpxchg_unrooted_once c p (tagged q nt) col g s r gph Hl Hph Hgph Hc Hpp (points_tagged s q nt Hpq) Hm) as (s' & E & Htr).
  rewrite run_bind, E. by exists s'.
Qed.
(** When it fails without need, an unrooted link of the white colour stays as it is. *)
Lemma run_weak_spurious f c p q col cur nv nt g (s : gstate V) r :
  local_of s (gd_local g) = Some r -> g_cells s !! c = Some (ManPtr.encode p) -> ManPtr.ptr_ok p -> ManPtr.ptr_ok q ->
  ManPtr.p_meta p = Unrooted col -> col <> black_of r -> ptr_of nv = ManPtr.encode q ->
  run (compare_exchange_weak_with_tag f true c cur (nv, nt) g) s = Ok (inr (as_local_with_tag (ManPtr.encode p)), s).
Proof.
  intros Hl Hc Hp Hq Hm Hcol Hnew. unfold compare_exchange_weak_with_tag. rewrite run_bind, (run_load_cell _ _ _ Hc).
  destruct (_ =? _); cbn [negb]; [|reflexivity]. rewrite ManPtr.encode_meta, Hm, decide_False by done.
  rewrite (ptr_of_tag_encode _ _ _ Hq Hnew). assert (Hq' : ManPtr.ptr_ok (tagged q nt)) by (split; [apply Hq|]; pose proof align_log_ok; apply Z.mod_pos_bound; lia).
  unfold internal_cmpxchg_unrooted_once. rewrite ManPtr.encode_meta, Hm, bool_decide_true by done. cbn [assert_ bind].
  rewrite (ManPtr.encode_color p Hp col Hm), !ManPtr.encode_as_ptr by done. set (d := negb _). rewrite run_bind.
  rewrite run_bind. destruct d; cbn [bind].
  - rewrite run_bind, (run_black _ _ _ Hl), decide_False by done. cbn [run]. unfold cas_link. by rewrite run_bind, run_bind, (run_load_cell _ _ _ Hc).
  - cbn [run]. unfold cas_link. by rewrite run_bind, run_bind, (run_load_cell _ _ _ Hc).
Qed.

(** ** Reading a link, and its tag *)
(** What a [Local] with its tag shows of a pointer. *)
Definition view (p : ManPtr.ptr) : WithTag (option Z) :=
  (if ManPtr.p_addr p =? 0 then None else Some (target p), ManPtr.p_tag p).
Lemma as_local_encode p : ManPtr.ptr_ok p -> as_local_with_tag (ManPtr.encode p) = view p.
Proof.
  intros Hp. unfold as_local_with_tag, view.
  assert (Hu : ManPtr.ptr_ok (ManPtr.mkP Rooted (ManPtr.p_addr p) 0)).
  { destruct Hp. split; [done|]. cbn. pose proof align_log_ok. lia. }
  rewrite ManPtr.encode_is_null, ManPtr.encode_tag, ManPtr.encode_without_meta, ManPtr.encode_with_tag by done.
  by rewrite Z.mod_0_l, ManPtr.encode_as_ptr by (done || (pose proof align_log_ok; lia)).
Qed.
Lemma run_update_cell c h (s : gstate V) w : g_cells s !! c = Some w ->
  run (update_cell c h) s = Ok (w, set_g_cells (fun _ => <[c := h w]> (g_cells s)) s).
Proof. intros Hc. unfold update_cell, atomic. cbn [run]. by rewrite Hc. Qed.
Lemma low_bits t : t .& ManPtr.LOW_BITS = t mod 2 ^ align_log.
Proof.
  pose proof align_log_ok. rewrite ManPtr.LOW_BITS_mask. unfold mask.
  by rewrite Z.shiftl_0_r, Z.land_ones by lia.
Qed.
Lemma tag_lt t : 0 <= t mod 2 ^ align_log < 2 ^ align_log.
Proof. pose proof align_log_ok. apply Z.mod_pos_bound. lia. Qed.
Definition retag (t : Z) (p : ManPtr.ptr) : ManPtr.ptr := ManPtr.mkP (ManPtr.p_meta p) (ManPtr.p_addr p) t.

Lemma run_fetch_tag c p tag g (s : gstate V) : ManPtr.ptr_ok p ->
  g_cells s !! c = Some (ManPtr.encode p) ->
  let after q := set_g_cells (fun _ => <[c := ManPtr.encode q]> (g_cells s)) s in
  let t := tag mod 2 ^ align_log in
  run (load_with_tag c g) s = Ok (view p, s) /\
  run (fetch_tag_or c tag g) s = Ok (view p, after (retag (ManPtr.p_tag p .| t) p)) /\
  run (fetch_tag_xor c tag g) s = Ok (view p, after (retag (ManPtr.p_tag p .^ t) p)).
Proof.
  intros Hp Hc after t. pose proof (tag_lt tag) as Ht. fold t in Ht. rewrite <- as_local_encode by done.
  unfold load_with_tag, fetch_tag_or, fetch_tag_xor. rewrite low_bits. fold t. split; [|split].
  - by rewrite run_bind, (run_load_cell _ _ _ Hc).
  - rewrite run_bind, (run_update_cell _ _ _ _ Hc). by rewrite ManPtr.encode_lor.
  - rewrite run_bind, (run_update_cell _ _ _ _ Hc). by rewrite ManPtr.encode_lxor.
Qed.

(** [load], [fetch_tag_or] and [fetch_tag_xor] return what the link held; the latter
    two change its tag bits, address and colour kept, and nothing else. *)
Theorem fetch_tag_spec c p tag g (s : gstate V) : ManPtr.ptr_ok p ->
  g_cells s !! c = Some (ManPtr.encode p) ->
  let after q := set_g_cells (fun _ => <[c := ManPtr.encode q]> (g_cells s)) s in
  let t := tag mod 2 ^ align_log in
  run (load_with_tag c g) s = Ok (view p, s) /\
  run (fetch_tag_or c tag g) s = Ok (view p, after (retag (ManPtr.p_tag p .| t) p)) /\
  run (fetch_tag_xor c tag g) s = Ok (view p, after (retag (ManPtr.p_tag p .^ t) p)).
Proof. apply run_fetch_tag. Qed.

(** C28. The documentation of [fetch_tag_and] says that only the tag bits are affected.
    The mask it passes has no address and no colour bit: the link becomes a rooted
    null, whatever it held, so a later load finds nothing, and marking the object
    that owns an unrooted link panics on it. *)
Theorem fetch_tag_and_clears f c p tag g (s : gstate V) : ManPtr.ptr_ok p ->
  g_cells s !! c = Some (ManPtr.encode p) ->
  exists s' t, run (fetch_tag_and c tag g) s = Ok (view p, s') /\
    g_cells s' = <[c := ManPtr.encode (ManPtr.mkP Rooted 0 t)]> (g_cells s) /\
    run (load c g) s' = Ok (None, s') /\
    run (as_load c g) s' = Stopped (Panic "r.is_some()") /\
    run (shade (S f) c g) s' = Stopped (Panic "matches!(ptr.meta(), PtrMeta::Unrooted(_))").
Proof.
  intros Hp Hc. pose proof (tag_lt tag) as Ht. rewrite <- as_local_encode by done.
  set (q := ManPtr.mkP Rooted 0 (ManPtr.p_tag p .& (tag mod 2 ^ align_log))).
  assert (Hq : ManPtr.ptr_ok q).
  { destruct Hp as [Ha Ht']. pose proof align_log_ok. split; cbn; [lia|].
    apply ManPtr.low_range; [lia|apply Z.land_nonneg; lia|]. intros i Hi.
    rewrite Z.land_spec, (testbit_small (ManPtr.p_tag p) align_log) by lia. done. }
  exists (set_g_cells (fun _ => <[c := ManPtr.encode q]> (g_cells s)) s), (ManPtr.p_tag q).
  unfold fetch_tag_and. rewrite low_bits, run_bind, (run_update_cell _ _ _ _ Hc), ManPtr.encode_land by done.
  split; [done|]. split; [done|]. set (s' := set_g_cells _ s).
  assert (Hc' : g_cells s' !! c = Some (ManPtr.encode q)) by apply lookup_insert_eq.
  unfold as_load, load, load_with_tag, shade.
  repeat first [rewrite run_bind | rewrite (run_load_cell _ _ _ Hc') | rewrite as_local_encode by done].
  split; [done|]. split; [done|]. cbn [loop]. by rewrite run_bind, ManPtr.encode_meta by done.
Qed.
End barriers.
