(* ===== verification/Iter.v ===== *)
(** * Running the iterations over the participants ([src/sync/reusable_slots.rs])

    [SlotIter] chases the pointers of a list that others may extend.  Without
    interference an iteration visits the positions of the list in order: the loops of
    [iter_slots] become [for_each] over [seq 0 n]. *)
From S2P Require Import Prelude Prog Epoch Slots State Heap Participant.
#[local] Open Scope nat_scope.
#[local] Open Scope prog_scope.

Section for_each.
Context {S X L R : Type}.

(** A [for_each] whose rounds all continue keeps an invariant that may mention what
    was visited. *)
Lemma run_for_each (I : list X -> L -> S -> Prop) (body : X -> L -> prog S (L + R)) xs a s :
  I [] a s ->
  (forall pre x a s, x ∈ xs -> I pre a s -> exists a' s', run (body x a) s = Ok (inl a', s') /\ I (pre ++ [x]) a' s') ->
  exists a' s', run (for_each xs body a) s = Ok (inl a', s') /\ I xs a' s'.
Proof.
  intros HI Hb. change xs with ([] ++ xs). change (run (for_each ([] ++ xs) body a) s) with (run (for_each xs body a) s).
  revert HI. generalize (@nil X). revert Hb a s.
  induction xs as [|x xs IH]; intros Hb a s pre HI.
  - rewrite app_nil_r. by exists a, s.
  - destruct (Hb pre x a s ltac:(by left) HI) as (a1 & s1 & E & HI1).
    destruct (IH (fun pre x a s Hx => Hb pre x a s ltac:(by right)) a1 s1 (pre ++ [x]) HI1) as (a' & s' & E' & HI').
    exists a', s'. cbn [for_each]. rewrite run_bind, E. split; [done|]. by rewrite <- app_assoc in HI'.
Qed.

(** Bodies that agree wherever an invariant holds. *)
Lemma run_for_each_ext (J : S -> Prop) (b1 b2 : X -> L -> prog S (L + R)) xs a s :
  J s -> (forall x a s, x ∈ xs -> J s -> run (b1 x a) s = run (b2 x a) s) ->
  (forall x a s r s', x ∈ xs -> J s -> run (b1 x a) s = Ok (r, s') -> J s') ->
  run (for_each xs b1 a) s = run (for_each xs b2 a) s.
Proof.
  intros HJ He Hk. revert a s HJ. induction xs as [|x xs IH]; intros a s HJ; [done|].
  cbn [for_each]. rewrite !run_bind, <- (He x a s) by (by left || done).
  destruct (run (b1 x a) s) as [[[a'|r] s']|] eqn:E; [|done|done].
  apply IH; [by intros; apply He; [right|]|intros ????? ?; apply Hk; by right|].
  eapply Hk; [by left|done|done].
Qed.

(** The search for a first witness, when looking changes nothing. *)
Lemma run_for_each_any (p : X -> prog S bool) (b : X -> bool) xs s :
  (forall x, x ∈ xs -> run (p x) s = Ok (b x, s)) ->
  run (for_each xs (fun x (_ : unit) => c <- p x ; Ret (if c : bool then inr tt else inl tt)) tt) s =
    Ok (if existsb b xs then inr tt else inl tt, s).
Proof.
  intros H. induction xs as [|x xs IH]; [done|]. cbn [for_each existsb].
  rewrite !run_bind, (H x) by by left. cbn [run]. destruct (b x); [done|].
  apply IH. intros y Hy. apply H. by right.
Qed.
End for_each.

Section iter.
Context {EX : Extern} {V : Type}.

Lemma run_on_slots {A} (p : prog (ReusableSlots local) A) (s : gstate V) :
  run (on_slots p) s =
    match run p (g_locals s) with Ok (a, x) => Ok (a, set_g_locals (fun _ => x) s) | Stopped e => Stopped e end.
Proof. apply run_lift; [done|done|]. by intros []. Qed.

(** A condition of an iterator only reads the slots. *)
Definition reads (cond : nat -> prog (ReusableSlots local) bool) (b : ReusableSlots local -> nat -> bool) : Prop :=
  forall sl k, k < length (nodes sl) -> run (cond k) sl = Ok (b sl k, sl).
Lemma reads_all : reads iter_all_cond (fun _ _ => true).
Proof. done. Qed.
Definition used (sl : ReusableSlots local) (k : nat) : bool :=
  match nodes sl !! k with Some nd => is_using nd | None => false end.
Lemma reads_using : reads iter_using_cond used.
Proof.
  intros sl k Hk. unfold iter_using_cond, load_using, used, atomic. cbn [run].
  by destruct (lookup_lt_is_Some_2 _ _ Hk) as [nd ->].
Qed.

Context (cond : nat -> prog (ReusableSlots local) bool) (b : ReusableSlots local -> nat -> bool).
Context (Hcond : reads cond b).

Fixpoint seek (sl : ReusableSlots local) (ks : list nat) : option (nat * option nat) :=
  match ks with
  | [] => None
  | k :: ks' => if b sl k then Some (k, head ks') else seek sl ks'
  end.
Lemma head_seq k d : head (seq k d) = if (k <? k + d)%nat then Some k else None.
Proof.
  destruct d as [|d]; [by rewrite (proj2 (Nat.ltb_ge k (k + 0))) by lia|].
  by rewrite (proj2 (Nat.ltb_lt k (k + S d))) by lia.
Qed.
Lemma run_iter_next f sl d k : k + d = length (nodes sl) -> d < f ->
  run (iter_next f cond (head (seq k d))) sl = Ok (seek sl (seq k d), sl).
Proof using Hcond.
  revert d k. induction f as [|f IH]; intros d k Hk Hf; [lia|]. unfold iter_next. cbn [loop].
  destruct d as [|d]; [done|]. cbn [seq head seek]. rewrite !run_bind.
  assert (E : run (load_next (S k)) sl = Ok (head (seq (S k) d), sl)).
  { unfold load_next, gets, atomic. cbn [run]. by rewrite head_seq, <- Hk, Nat.add_succ_comm. }
  rewrite E, run_bind, Hcond by lia. destruct (b sl k); cbn [run]; [done|]. apply IH; lia.
Qed.

(** One position of the list. *)
Definition visit {A R} (body : nat -> A -> prog (gstate V) (A + R)) (k : nat) (a : A) :
    prog (gstate V) (A + R) :=
  c <- gets (fun s => b (g_locals s) k) ; if c : bool then body k a else Ret (inl a).

Lemma run_iter_slots {A R} f n (body : nat -> A -> prog (gstate V) (A + R)) a s :
  n < f -> length (nodes (g_locals s)) = n ->
  (forall k a s r s', length (nodes (g_locals s)) = n -> run (body k a) s = Ok (r, s') ->
     length (nodes (g_locals s')) = n) ->
  run (iter_slots f cond body a) s = run (for_each (seq 0 n) (visit body) a) s.
Proof using Hcond.
  intros Hf Hn Hb. unfold iter_slots.
  assert (E0 : run (on_slots (load_next 0)) s = Ok (head (seq 0 n), s)).
  { rewrite run_on_slots. cbn. rewrite Hn. destruct s; by destruct n. }
  rewrite run_bind, E0. clear E0. match goal with |- run (loop _ ?st _) _ = _ => set (step := st) end.
  assert (H : forall d k m a s, length (nodes (g_locals s)) = n -> d < m -> k + d = n ->
    run (loop m step (head (seq k d), a)) s = run (for_each (seq k d) (visit body) a) s);
    [|by apply H].
  clear a s Hn. induction d as [|d IH]; intros k m a s Hn Hm Hk; (destruct m as [|m]; [lia|]).
  { cbn [loop]. unfold step at 1. rewrite !run_bind, run_on_slots, (run_iter_next f _ 0 k) by lia.
    cbn. by destruct s. }
  assert (Es : set_g_locals (fun _ => g_locals s) s = s) by by destruct s.
  cbn [loop]. unfold step at 1. rewrite !run_bind, run_on_slots, (run_iter_next f _ (S d) k) by lia.
  rewrite Es. cbn [seq seek for_each]. rewrite run_bind. unfold visit at 1. rewrite run_bind. cbn [gets atomic run].
  destruct (b (g_locals s) k) eqn:Ek.
  - rewrite run_bind. destruct (run (body k a) s) as [[[a'|r] s']|] eqn:Eb; cbn [run]; [|done|done].
    apply IH; [by eapply Hb|lia|lia].
  - cbn [run]. rewrite <- (IH (S k) (S m) a s) by lia. cbn [loop]. unfold step at 2.
    by rewrite !run_bind, run_on_slots, (run_iter_next f _ d (S k)), Es by lia.
Qed.
End iter.
