(* ===== verification/Total.v ===== *)
(** * Total correctness of programs run alone

    [yields p s Q]: run alone from [s], the program [p] returns, in a state [Q] holds of
    with the value.  The rules follow the syntax of the programs, so that the theorems
    about a whole collection cycle read like the code it runs. *)
From S2P Require Import Prelude Prog Epoch Slots State Heap Participant Iter.
#[local] Open Scope nat_scope.

Section yields.
Context {S : Type}.

Definition yields {A} (p : prog S A) (s : S) (Q : A -> S -> Prop) : Prop :=
  exists a s', run p s = Ok (a, s') /\ Q a s'.

Lemma yields_run {A} (p : prog S A) s a s' (Q : A -> S -> Prop) : run p s = Ok (a, s') -> Q a s' -> yields p s Q.
Proof. intros E HQ. by exists a, s'. Qed.
Lemma yields_ret {A} (a : A) s (Q : A -> S -> Prop) : Q a s -> yields (Ret a) s Q.
Proof. by apply yields_run. Qed.
Lemma yields_bind {A B} (p : prog S A) (h : A -> prog S B) s (Q : B -> S -> Prop) :
  yields p s (fun a s' => yields (h a) s' Q) -> yields (bind p h) s Q.
Proof. intros (a & s' & E & b & s'' & E' & HQ). exists b, s''. by rewrite (run_bind_ok _ _ _ _ _ E). Qed.
Lemma yields_assoc {A B C} (p : prog S A) (h : A -> prog S B) (q : B -> prog S C) s (Q : C -> S -> Prop) :
  yields (bind (bind p h) q) s Q -> yields (bind p (fun a => bind (h a) q)) s Q.
Proof. unfold yields. by rewrite bind_assoc. Qed.
(** A step whose effect is known. *)
Lemma yields_step {A B} (p : prog S A) (h : A -> prog S B) s a s' (Q : B -> S -> Prop) :
  run p s = Ok (a, s') -> yields (h a) s' Q -> yields (bind p h) s Q.
Proof. intros E HQ. apply yields_bind. by eapply yields_run. Qed.
Lemma yields_mono {A} (p : prog S A) s (Q Q' : A -> S -> Prop) :
  yields p s Q -> (forall a s', Q a s' -> Q' a s') -> yields p s Q'.
Proof. intros (a & s' & E & HQ) H. exists a, s'. auto. Qed.
Lemma yields_then {A B} (p : prog S A) (h : A -> prog S B) s (Q : A -> S -> Prop) (Q' : B -> S -> Prop) :
  yields p s Q -> (forall a s', Q a s' -> yields (h a) s' Q') -> yields (bind p h) s Q'.
Proof. intros H Hh. apply yields_bind. by eapply yields_mono. Qed.
Lemma yields_unmap {A B} (h : A -> B) (p : prog S A) s (Q : B -> S -> Prop) :
  yields (bind p (fun a => Ret (h a))) s Q -> yields p s (fun a => Q (h a)).
Proof.
  intros (b & s' & E & HQ). rewrite run_bind in E. destruct (run p s) as [[a s1]|] eqn:Ep; [|done].
  injection E as <- <-. by exists a, s1.
Qed.

Lemma yields_foreach {X} (I : list X -> S -> Prop) (body : X -> prog S unit) xs s : I [] s ->
  (forall pre x post s, xs = pre ++ x :: post -> I pre s -> yields (body x) s (fun _ => I (pre ++ [x]))) ->
  yields (foreach xs body) s (fun _ => I xs).
Proof.
  intros HI Hb. assert (H : forall post pre s, xs = pre ++ post -> I pre s ->
    yields (foreach post body) s (fun _ => I xs)); [|by apply (H xs [])].
  clear s HI. induction post as [|x post IH]; intros pre s E HI.
  - rewrite app_nil_r in E. subst. by apply yields_ret.
  - cbn [foreach]. eapply yields_then; [by eapply Hb|]. intros ? s1 H1. apply (IH (pre ++ [x])); [by rewrite <- app_assoc|done].
Qed.
(** A loop over a list, left early or not. *)
Lemma yields_for_each {X L R} (I : list X -> L -> S -> Prop) (J : R -> S -> Prop) (body : X -> L -> prog S (L + R)) xs a s :
  I [] a s ->
  (forall pre x post a s, xs = pre ++ x :: post -> I pre a s ->
     yields (body x a) s (fun r s' => match r with inl a' => I (pre ++ [x]) a' s' | inr b => J b s' end)) ->
  yields (for_each xs body a) s (fun r s' => match r with inl a' => I xs a' s' | inr b => J b s' end).
Proof.
  intros HI Hb. assert (H : forall post pre a s, xs = pre ++ post -> I pre a s ->
    yields (for_each post body a) s (fun r s' => match r with inl a' => I xs a' s' | inr b => J b s' end)); [|by apply (H xs [])].
  clear a s HI. induction post as [|x post IH]; intros pre a s E HI.
  - rewrite app_nil_r in E. subst. by apply yields_ret.
  - cbn [for_each]. eapply yields_then; [by eapply Hb|]. intros [a'|b] s1 H1; [|by apply yields_ret].
    apply (IH (pre ++ [x])); [by rewrite <- app_assoc|done].
Qed.
Lemma yields_loop {L R} (I : L -> S -> Prop) (V : L -> S -> nat) (body : L -> prog S (L + R)) (Q : R -> S -> Prop) fuel l s :
  I l s -> V l s < fuel ->
  (forall l s, I l s -> yields (body l) s (fun x s' => match x with inl l' => I l' s' /\ V l' s' < V l s | inr r => Q r s' end)) ->
  yields (loop fuel body l) s Q.
Proof. intros HI HV Hb. by apply (loop_variant I Q V body). Qed.
(** A loop that is left in its first round. *)
Lemma yields_once {L R} (body : L -> prog S (L + R)) (Q : R -> S -> Prop) fuel l s : 0 < fuel ->
  yields (body l) s (fun x s' => exists r, x = inr r /\ Q r s') -> yields (loop fuel body l) s Q.
Proof.
  destruct fuel; [lia|]. intros _ H. cbn [loop]. eapply yields_then; [exact H|]. intros ? s' (r & -> & HQ).
  by apply yields_ret.
Qed.
End yields.

(** Running one step whose effect a lemma or a hypothesis gives. *)
Ltac step_with E := eapply yields_step; [exact E|].

Section over_slots.
Context {EX : Extern} {V : Type}.

(** The iteration over the participants, in the order of the list. *)
Lemma yields_iter_slots {A R} f (cond : nat -> prog (ReusableSlots local) bool) b n (I : nat -> A -> gstate V -> Prop)
    (J : R -> gstate V -> Prop) body a s : reads cond b -> n < f ->
  (forall k a s, I k a s -> length (nodes (g_locals s)) = n) ->
  I 0 a s ->
  (forall k a s, k < n -> I k a s ->
     if b (g_locals s) k
     then yields (body k a) s (fun r s' => match r with inl a' => I (k + 1) a' s' | inr x => J x s' end)
     else I (k + 1) a s) ->
  yields (iter_slots f cond body a) s (fun r s' => match r with inl a' => I n a' s' | inr x => J x s' end).
Proof.
  intros Hc Hf Hlen HI Hb. unfold iter_slots. set (Q := fun _ _ => _).
  assert (Es : forall s : gstate V, set_g_locals (fun _ => g_locals s) s = s) by by intros [].
  apply (yields_step _ _ s (head (seq 0 n)) s); [rewrite run_on_slots; cbn; rewrite (Hlen _ _ _ HI), Es; by destruct n|].
  match goal with |- yields (loop _ ?st _) _ _ => set (step := st) end.
  assert (Hnext : forall d k a s, I k a s -> k + d = n ->
    run (on_slots (iter_next f cond (head (seq k d)))) s = Ok (seek b (g_locals s) (seq k d), s)).
  { intros d k a1 s1 H1 Hk. rewrite run_on_slots, (run_iter_next cond b Hc f (g_locals s1) d k), Es; [done|by rewrite (Hlen _ _ _ H1)|lia]. }
  assert (H : forall d k m a s, I k a s -> d < m -> k + d = n -> yields (loop m step (head (seq k d), a)) s Q);
    [|by apply (H n 0 f)].
  clear a s HI. induction d as [|d IH]; intros k m a s HI Hm Hk; (destruct m as [|m]; [lia|]).
  { cbn [loop]. apply yields_bind. eapply yields_step; [exact (Hnext 0 k a s HI Hk)|]. apply yields_ret, yields_ret. unfold Q.
    by replace n with k by lia. }
  specialize (Hb k a s ltac:(lia) HI). destruct (b (g_locals s) k) eqn:Ek; rewrite Nat.add_1_r in Hb.
  - cbn [loop]. apply yields_bind. eapply yields_step; [exact (Hnext (S d) k a s HI Hk)|]. cbn [seq seek]. rewrite Ek.
    eapply yields_then; [exact Hb|]. intros [a'|x] s1 H1; apply yields_ret; [|by apply yields_ret].
    apply (IH (S k)); [done|lia|lia].
  - destruct (IH (S k) (S m) a s Hb ltac:(lia) ltac:(lia)) as (r & s' & E & HQ). exists r, s'. split; [|done].
    rewrite <- E. cbn [loop]. rewrite !run_bind.
    assert (Estep : run (step (head (seq k (S d)), a)) s = run (step (head (seq (S k) d), a)) s); [|by rewrite Estep].
    unfold step. rewrite !run_bind, (Hnext (S d) k a s HI Hk), (Hnext d (S k) a s Hb) by lia. cbn [seq seek]. by rewrite Ek.
Qed.
End over_slots.
