(* ===== verification/Frame.v ===== *)
(** * What a collection leaves alone

    [stays P p Q]: [p], run alone from a state that satisfies [P], ends in one, if it ends,
    with a value that satisfies [Q]; [ends P p Q], in one that satisfies [Q].  Every operation
    the collector and its workers are made of keeps the type registry, the hazard slots and the
    guards of every participant, and the owners of those that were in use when it began; the
    participants a worker takes for itself, and pins, it unpins and gives back. *)
From S2P Require Import Prelude Prog Epoch Meta Slots Registry State Heap Participant Guards Collector Iter.
#[local] Open Scope Z_scope.
#[local] Open Scope prog_scope.

Section ends.
Context {S : Type}.
Definition ends {A} (P : S -> Prop) (p : prog S A) (Q : A -> S -> Prop) : Prop := forall s a s', P s -> run p s = Ok (a, s') -> Q a s'.
Lemma ends_bind {A B} P (p : prog S A) (h : A -> prog S B) (Q : A -> S -> Prop) (Q' : B -> S -> Prop) :
  ends P p Q -> (forall a, ends (Q a) (h a) Q') -> ends P (bind p h) Q'.
Proof.
  intros Hp Hh s b s' HP. rewrite run_bind. destruct (run p s) as [[a s1]|] eqn:E; [|done]. by apply Hh, (Hp s a s1 HP).
Qed.
End ends.

Section stays.
Context {S : Type} (P : S -> Prop).

Definition stays {A} (p : prog S A) (Q : A -> Prop) : Prop := ends P p (fun a s' => P s' /\ Q a).
Definition keeps {A} (p : prog S A) : Prop := stays p (fun _ => True).

Lemma stays_ret {A} (a : A) (Q : A -> Prop) : Q a -> stays (Ret a) Q.
Proof. intros HQ s a' s' HP. cbn. by intros [= <- <-]. Qed.
Lemma stays_stop {A} e (Q : A -> Prop) : stays (Stop e) Q.
Proof. by intros s a s'. Qed.
Lemma stays_atomic {A} (f : S -> res (A * S)) (Q : A -> Prop) :
  (forall s a s', P s -> f s = Ok (a, s') -> P s' /\ Q a) -> stays (atomic f) Q.
Proof. intros H s a s' HP. cbn. destruct (f s) as [[b s1]|] eqn:E; [|done]. intros [= <- <-]. by apply (H s). Qed.
Lemma stays_bind {A B} (p : prog S A) (h : A -> prog S B) (Q : A -> Prop) (Q' : B -> Prop) :
  stays p Q -> (forall a, Q a -> stays (h a) Q') -> stays (bind p h) Q'.
Proof.
  intros Hp Hh s b s' HP. rewrite run_bind. destruct (run p s) as [[a s1]|] eqn:E; [|done].
  destruct (Hp s a s1 HP E) as [HP1 HQ]. by apply Hh.
Qed.
Lemma stays_mono {A} (p : prog S A) (Q Q' : A -> Prop) : stays p Q -> (forall a, Q a -> Q' a) -> stays p Q'.
Proof. intros Hp HQ s a s' HP E. destruct (Hp s a s' HP E). auto. Qed.

Lemma keeps_stop {A} e : keeps (Stop (A := A) e).
Proof. apply stays_stop. Qed.
Lemma keeps_bind {A B} (p : prog S A) (h : A -> prog S B) : keeps p -> (forall a, keeps (h a)) -> keeps (bind p h).
Proof. intros Hp Hh. eapply stays_bind; [exact Hp|]. intros a _. apply Hh. Qed.
Lemma keeps_gets {A} (f : S -> A) : keeps (gets f).
Proof. apply stays_atomic. by intros s a s' HP [= <- <-]. Qed.
Lemma keeps_modify f : (forall s, P s -> P (f s)) -> keeps (modify f).
Proof. intros Hf. apply stays_atomic. intros s a s' HP [= <- <-]. auto. Qed.
Lemma stays_loop {L R} fuel (body : L -> prog S (L + R)) (Q : R -> Prop) l :
  (forall l, stays (body l) (fun x => match x with inl _ => True | inr r => Q r end)) -> stays (loop fuel body l) Q.
Proof.
  intros Hb. revert l. induction fuel as [|n IH]; intros l; [apply stays_stop|]. cbn [loop].
  eapply stays_bind; [apply Hb|]. intros [l'|r]; [intros _; apply IH|by apply stays_ret].
Qed.
Lemma keeps_loop {L R} fuel (body : L -> prog S (L + R)) l : (forall l, keeps (body l)) -> keeps (loop fuel body l).
Proof. intros Hb. apply stays_loop. intros l'. eapply stays_mono; [apply Hb|]. by intros []. Qed.
Lemma keeps_foreach {X} (body : X -> prog S unit) xs : (forall x, keeps (body x)) -> keeps (foreach xs body).
Proof. intros Hb. induction xs as [|x xs IH]; [by apply stays_ret|]. by apply keeps_bind. Qed.
Lemma keeps_for_each {X L R} (body : X -> L -> prog S (L + R)) xs a : (forall x a, keeps (body x a)) -> keeps (for_each xs body a).
Proof.
  intros Hb. revert a. induction xs as [|x xs IH]; intros a; [by apply stays_ret|]. cbn [for_each].
  apply keeps_bind; [apply Hb|]. intros [a'|r]; [apply IH|by apply stays_ret].
Qed.
Lemma keeps_assert b msg : keeps (assert_ b msg).
Proof. destruct b; [by apply stays_ret|apply stays_stop]. Qed.
Lemma keeps_unwrap {A} (o : option A) msg : keeps (unwrap o msg).
Proof. destruct o; [by apply stays_ret|apply stays_stop]. Qed.
Lemma keeps_unchecked {A} (o : option A) msg : keeps (unchecked o msg).
Proof. destruct o; [by apply stays_ret|apply stays_stop]. Qed.
End stays.

Create HintDb keep.
#[export] Hint Resolve keeps_stop keeps_gets keeps_assert keeps_unwrap keeps_unchecked : keep.
(** Follows the syntax of a program down to operations the database knows. *)
Ltac keep := repeat lazymatch goal with
  | |- forall _, _ => intro
  | |- stays ?P ?p (fun _ => True) => change (keeps P p)
  | |- keeps _ (Ret _) => by apply stays_ret
  | |- keeps _ (bind _ _) => apply keeps_bind
  | |- keeps _ (loop _ _ _) => apply keeps_loop
  | |- keeps _ (foreach _ _) => apply keeps_foreach
  | |- keeps _ (for_each _ _ _) => apply keeps_for_each
  | |- keeps _ (if ?b then _ else _) => destruct b
  | |- keeps _ (match ?x with _ => _ end) => destruct x
  | |- keeps _ (let _ := _ in _) => cbv zeta
  | |- keeps _ _ => solve [eauto with keep]
  end.

Section collection.
Context {EX : Extern} {V : Type} (s0 : gstate V).
Implicit Types (s : gstate V) (r : local).

(** ** The registry and the participants *)
Definition same_slots r r' : Prop :=
  l_hazards r' = l_hazards r /\ l_markers r' = l_markers r /\ l_hids r' = l_hids r.
Lemma hz_inv_same r r' h : same_slots r r' -> hz_inv r h -> hz_inv r' h.
Proof. intros (E1 & E2 & E3) [H1 H2 H3 H4 H5]. by constructor; rewrite ?E1, ?E2, ?E3. Qed.
(** What a participant was at the start; one that was not there, as it starts. *)
Definition base k : local := from_option n_item local_default (nodes (g_locals s0) !! k).
Definition was_used k : Prop := exists nd, nodes (g_locals s0) !! k = Some nd /\ is_using nd = true.
(** In the course of a collection: participant [k] is pinned [d k] times more than at the start,
    and the participants [X] have been taken. *)
Record touched (d : nat -> Z) (X : gset nat) s : Prop := {
  ut_reg : g_reg s = g_reg s0;
  ut_node : forall k nd, nodes (g_locals s0) !! k = Some nd -> is_using nd = true ->
    exists nd', nodes (g_locals s) !! k = Some nd' /\ n_using nd' = n_using nd;
  ut_length : (length (nodes (g_locals s0)) <= length (nodes (g_locals s)))%nat;
  ut_slot : forall k nd', nodes (g_locals s) !! k = Some nd' ->
    same_slots (base k) (n_item nd') /\ l_guard_count (n_item nd') = l_guard_count (base k) + d k;
  ut_none : forall k, nodes (g_locals s) !! k = None -> d k = 0;
  ut_using : forall k nd', nodes (g_locals s) !! k = Some nd' -> is_using nd' = true -> k ∈ X \/ was_used k
}.
Definition untouched : gstate V -> Prop := touched (fun _ => 0) ∅.
Lemma untouched_refl : untouched s0.
Proof.
  split; [done|intros k nd Hk _; by exists nd|done|..].
  - intros k nd' Hk. unfold base, same_slots. rewrite Hk. cbn. by rewrite Z.add_0_r.
  - done.
  - intros k nd' Hk Hu. right. by exists nd'.
Qed.
Lemma touched_frame d X s s' : g_reg s' = g_reg s -> g_locals s' = g_locals s -> touched d X s -> touched d X s'.
Proof. intros Er El [H1 H2 H3 H4 H5 H6]. split; [by rewrite Er|by rewrite El..]. Qed.
Lemma touched_mono d d' X X' s : (forall k, d k = d' k) -> X ⊆ X' -> touched d X s -> touched d' X' s.
Proof.
  intros Hd HX [H1 H2 H3 H4 H5 H6]. split; [done..| | |].
  - intros k nd' Hk. rewrite <- Hd. by apply H4.
  - intros k Hk. rewrite <- Hd. by apply H5.
  - intros k nd' Hk Hu. destruct (H6 k nd' Hk Hu); [left; set_solver|by right].
Qed.
(** Participant [k] was free, or did not exist. *)
Definition spare (k : nat) : Prop := ~ was_used k.

(** One participant changes. *)
Lemma touched_alter_node d d' X X' k f n s : (forall j, j <> k -> d' j = d j) -> X ∖ {[k]} ⊆ X' ->
  (nodes (g_locals s) !! k = None -> d' k = d k) ->
  (forall nd, touched d X s -> nodes (g_locals s) !! k = Some nd -> same_slots (n_item nd) (n_item (f nd)) /\
     l_guard_count (n_item (f nd)) - l_guard_count (n_item nd) = d' k - d k /\
     (n_using (f nd) = n_using nd \/ spare k) /\ (is_using (f nd) = true -> is_using nd = true /\ X ⊆ X' \/ k ∈ X')) ->
  touched d X s -> touched d' X' (set_g_locals (fun R => mkSlots (alter f k (nodes R)) n) s).
Proof.
  intros Hd HX Hk0 Hf H. pose proof H as [H1 H2 H3 H4 H5 H6].
  assert (Hne : forall j, j <> k -> nodes (g_locals (set_g_locals (fun R => mkSlots (alter f k (nodes R)) n) s)) !! j = nodes (g_locals s) !! j)
    by (intros j Hj; cbn; by rewrite list_lookup_alter_ne by done).
  assert (Heq : nodes (g_locals (set_g_locals (fun R => mkSlots (alter f k (nodes R)) n) s)) !! k = f <$> nodes (g_locals s) !! k)
    by (cbn; by rewrite list_lookup_alter_eq).
  split; [done|..].
  - intros j nd Hj Hu. destruct (H2 j nd Hj Hu) as (nd' & Hnd' & Eu). destruct (decide (j = k)) as [->|Hn]; [|exists nd'; by rewrite Hne].
    exists (f nd'). rewrite Heq, Hnd'. split; [done|]. destruct (Hf nd' H Hnd') as (_ & _ & [E|Hs] & _); [congruence|]. destruct Hs. by exists nd.
  - cbn. by rewrite length_alter.
  - intros j nd'. destruct (decide (j = k)) as [->|Hn]; [|rewrite Hne, Hd by done; apply H4]. rewrite Heq. intros (nd & Hnd & ->)%fmap_Some.
    destruct (Hf nd H Hnd) as ((E1 & E2 & E3) & Ec & _). destruct (H4 k nd Hnd) as ((F1 & F2 & F3) & Fc). split; [|lia].
    unfold same_slots. by rewrite E1, E2, E3.
  - intros j. destruct (decide (j = k)) as [->|Hn].
    + rewrite Heq. intros Hk%fmap_None. rewrite (Hk0 Hk). by apply H5.
    + rewrite Hne, Hd by done. apply H5.
  - intros j nd'. destruct (decide (j = k)) as [->|Hn].
    + rewrite Heq. intros (nd & Hnd & ->)%fmap_Some Hu. destruct (Hf nd H Hnd) as (_ & _ & _ & Hx). destruct (Hx Hu) as [[Hu' HX']|]; [|by left].
      destruct (H6 k nd Hnd Hu'); [left; set_solver|by right].
    + rewrite Hne by done. intros Hj Hu. destruct (H6 j nd' Hj Hu); [left; set_solver|by right].
Qed.
(** Every step but pinning, unpinning and taking a slot. *)
Definition quietly (f : local -> local) : Prop := forall r, same_slots r (f r) /\ l_guard_count (f r) = l_guard_count r.
Section steps.
Context (d : nat -> Z) (X : gset nat).
#[local] Abbreviation keeps := (keeps (touched d X)).

Lemma keeps_modify_frame (f : gstate V -> gstate V) :
  (forall s, g_reg (f s) = g_reg s /\ g_locals (f s) = g_locals s) -> keeps (modify f).
Proof. intros Hf. apply keeps_modify. intros s. by apply touched_frame; apply Hf. Qed.
Lemma keeps_read {A} (f : gstate V -> res (A * gstate V)) :
  (forall s a s', f s = Ok (a, s') -> g_reg s' = g_reg s /\ g_locals s' = g_locals s) -> keeps (atomic f).
Proof. intros Hf. apply stays_atomic. intros s a s' HP E. split; [|done]. destruct (Hf s a s' E). by eapply touched_frame. Qed.
Lemma touched_alter k f s : quietly f -> touched d X s ->
  touched d X (set_g_locals (fun R => mkSlots (alter (upd_item f) k (nodes R)) (active R)) s).
Proof.
  intros Hf. apply touched_alter_node; [done|set_solver|done|]. intros nd _ _. destruct (Hf (n_item nd)) as [Hs Hc].
  cbn. split; [done|]. split; [lia|]. split; [by left|]. left. by split.
Qed.
Lemma keeps_upd_local k f : quietly f -> keeps (upd_local k f).
Proof. intros Hf. apply keeps_modify. intros s. by apply touched_alter. Qed.
Lemma keeps_get_local {A} k (f : local -> A) : keeps (get_local k f).
Proof. apply keeps_read. intros s a s'. destruct (nodes _ !! k); [|done]. by intros [= <- <-]. Qed.
#[local] Hint Resolve keeps_get_local : keep.
#[local] Hint Extern 2 (Frame.keeps _ (atomic _)) => apply keeps_read; intros ? ? ?; repeat case_match; intros; simplify_eq/=; done : keep.
#[local] Hint Extern 2 (Frame.keeps _ (modify _)) => apply keeps_modify_frame; done : keep.
#[local] Hint Extern 2 (Frame.keeps _ (upd_local _ _)) => apply keeps_upd_local; by repeat split : keep.

(** ** Marking ([Heap]) *)
Lemma keeps_of_res {A} (x : res A) : keeps (of_res x).
Proof. destruct x; [by apply stays_ret|apply stays_stop]. Qed.
#[local] Hint Resolve keeps_of_res : keep.
Lemma keeps_load_cell c : keeps (load_cell c).
Proof. unfold load_cell. keep. Qed.
Lemma keeps_update_cell c h : keeps (update_cell c h).
Proof. unfold update_cell. keep. Qed.
Lemma keeps_cas_cell c old new : keeps (cas_cell c old new).
Proof. unfold cas_cell. keep. Qed.
Lemma keeps_free_cell c : keeps (free_cell c).
Proof. unfold free_cell. keep. Qed.
Lemma keeps_deref a : keeps (deref a).
Proof. unfold deref. keep. Qed.
Lemma keeps_rmw_header {A} a (h : Z -> res (A * Z)) : keeps (rmw_header a h).
Proof. unfold rmw_header. keep. Qed.
#[local] Hint Resolve keeps_load_cell keeps_update_cell keeps_cas_cell keeps_free_cell keeps_deref keeps_rmw_header : keep.
#[local] Hint Unfold load_header increment_root_count decrement_root_count cas_header phase_of load_epoch pinned_epoch local_epoch : keep.
Lemma keeps_guard_phase g : keeps (guard_phase g).
Proof. unfold guard_phase. keep. Qed.
Lemma keeps_white g : keeps (white_color g).
Proof. unfold white_color. keep. Qed.
#[local] Hint Resolve keeps_guard_phase keeps_white : keep.
Lemma keeps_black g : keeps (black_color g).
Proof. unfold black_color. keep. Qed.
Lemma keeps_pinned_alloc_color l : keeps (pinned_alloc_color l).
Proof. unfold pinned_alloc_color. keep. Qed.
Lemma keeps_global_phase : keeps global_phase_with_fence.
Proof. unfold global_phase_with_fence. keep. Qed.
Lemma keeps_schedule_helping g : keeps (schedule_helping_collect g).
Proof. unfold schedule_helping_collect. keep. Qed.
#[local] Hint Resolve keeps_black keeps_pinned_alloc_color keeps_global_phase keeps_schedule_helping : keep.
Lemma keeps_record_mt l : keeps (record_mt_modification l).
Proof. unfold record_mt_modification. keep. Qed.
Lemma keeps_is_marked a g : keeps (is_marked a g).
Proof. unfold is_marked. keep. Qed.
#[local] Hint Resolve keeps_record_mt keeps_is_marked : keep.
Lemma keeps_schedule_mark a g : keeps (schedule_mark a g).
Proof. unfold schedule_mark. keep. Qed.
#[local] Hint Resolve keeps_schedule_mark : keep.
Lemma keeps_shade_pointee p g : keeps (shade_pointee p g).
Proof. unfold shade_pointee. keep. Qed.
Lemma keeps_shade_erased a g : keeps (shade_erased a g).
Proof. unfold shade_erased. keep. Qed.
#[local] Hint Resolve keeps_shade_pointee keeps_shade_erased : keep.
Lemma keeps_shade_outgoings fuel a g : keeps (shade_outgoings fuel a g).
Proof. unfold shade_outgoings, shade. keep. Qed.
Lemma keeps_header_mark fuel a g : keeps (header_mark fuel a g).
Proof. unfold header_mark. keep. Qed.
#[local] Hint Resolve keeps_shade_outgoings keeps_header_mark : keep.
Lemma keeps_mark_obj_mark fuel a g : keeps (mark_obj_mark fuel a g).
Proof. unfold mark_obj_mark. keep. Qed.
Lemma keeps_obj_mark fuel a g : keeps (obj_mark fuel a g).
Proof. unfold obj_mark. keep. Qed.
Lemma keeps_obj_color a : keeps (obj_color a).
Proof. unfold obj_color. keep. Qed.
Lemma keeps_obj_root_count a : keeps (obj_root_count a).
Proof. unfold obj_root_count. keep. Qed.
#[local] Hint Resolve keeps_mark_obj_mark keeps_obj_mark keeps_obj_color keeps_obj_root_count : keep.

(** ** Participants ([Participant]) *)
Lemma keeps_on_slots {A} (p : prog (ReusableSlots local) A) (Q : A -> Prop) :
  (forall s a sl, touched d X s -> run p (g_locals s) = Ok (a, sl) -> touched d X (set_g_locals (fun _ => sl) s) /\ Q a) ->
  stays (touched d X) (on_slots p) Q.
Proof.
  intros Hp s a s' HP. rewrite run_on_slots. destruct (run p (g_locals s)) as [[a' sl]|] eqn:E; [|done].
  intros [= <- <-]. by apply (Hp s a' sl).
Qed.
Lemma keeps_on_slots_read {A} (p : prog (ReusableSlots local) A) : (forall sl, Frame.keeps (eq sl) p) -> keeps (on_slots p).
Proof.
  intros Hp. apply keeps_on_slots. intros s a sl HP E. destruct (Hp (g_locals s) (g_locals s) a sl eq_refl E) as [<- _].
  split; [|done]. by destruct s.
Qed.
Lemma keeps_iter_next fuel cond curr : (forall sl k, Frame.keeps (eq sl) (cond k)) -> keeps (on_slots (iter_next fuel cond curr)).
Proof. intros Hc. apply keeps_on_slots_read. intros sl. unfold iter_next, load_next. keep. Qed.
Lemma keeps_iter_slots {A R} fuel cond (body : nat -> A -> prog (gstate V) (A + R)) a :
  (forall sl k, Frame.keeps (eq sl) (cond k)) -> (forall k a, keeps (body k a)) -> keeps (iter_slots fuel cond body a).
Proof.
  intros Hc Hb. unfold iter_slots. apply keeps_bind; [apply keeps_on_slots_read; intros sl; unfold load_next; keep|].
  intros head. apply keeps_loop. intros [curr a']. apply keeps_bind; [by apply keeps_iter_next|]. keep.
Qed.
Lemma cond_all sl k : Frame.keeps (eq sl) (iter_all_cond (T := local) k).
Proof. unfold iter_all_cond. keep. Qed.
Lemma cond_using sl k : Frame.keeps (eq sl) (iter_using_cond (T := local) k).
Proof.
  unfold iter_using_cond, load_using. apply stays_atomic. intros s1 b s2 <-. destruct (nodes sl !! k); [|done]. by intros [= _ <-].
Qed.
#[local] Hint Extern 3 (Frame.keeps _ (iter_slots _ _ _ _)) => apply keeps_iter_slots; [first [exact cond_all|exact cond_using]|keep] : keep.
Lemma keeps_any_slot fuel cond p : (forall sl k, Frame.keeps (eq sl) (cond k)) -> (forall k, keeps (p k)) -> keeps (any_slot fuel cond p).
Proof. intros Hc Hp. unfold any_slot. apply keeps_bind; [apply keeps_iter_slots; [done|]|]; keep. Qed.
#[local] Hint Extern 3 (Frame.keeps _ (any_slot _ _ _)) => apply keeps_any_slot; [first [exact cond_all|exact cond_using]|keep] : keep.

Lemma keeps_push_fresh_q c i b : keeps (push_fresh_q c i b).
Proof. unfold push_fresh_q. keep. Qed.
Lemma keeps_push_marked_q c i b : keeps (push_marked_q c i b).
Proof. unfold push_marked_q. keep. Qed.
Lemma keeps_pop_fresh_q c i : keeps (try_pop_fresh_q c i).
Proof. unfold try_pop_fresh_q. keep. Qed.
Lemma keeps_pop_marked_q c i : keeps (try_pop_marked_q c i).
Proof. unfold try_pop_marked_q. keep. Qed.
Lemma keeps_add_allocated n : keeps (add_allocated n).
Proof. unfold add_allocated. keep. Qed.
Lemma keeps_add_reclaimed n : keeps (add_reclaimed n).
Proof. unfold add_reclaimed. keep. Qed.
#[local] Hint Resolve keeps_push_fresh_q keeps_push_marked_q keeps_pop_fresh_q keeps_pop_marked_q keeps_add_allocated keeps_add_reclaimed : keep.
Lemma keeps_push_fresh_objs b n c i : keeps (push_fresh_objs b n c i).
Proof. unfold push_fresh_objs. keep. Qed.
Lemma keeps_collect_hps fuel : keeps (collect_hps fuel).
Proof. unfold collect_hps. keep. Qed.
Lemma keeps_select_shard l : keeps (select_obj_shard l).
Proof. unfold select_obj_shard. keep. Qed.
Lemma keeps_shard_permut l : keeps (generate_shard_permut l).
Proof. unfold generate_shard_permut. keep. Qed.
Lemma keeps_take_batch l i : keeps (take_obj_batch l i).
Proof. unfold take_obj_batch. keep. Qed.
#[local] Hint Resolve keeps_push_fresh_objs keeps_collect_hps keeps_select_shard keeps_shard_permut keeps_take_batch : keep.
Lemma keeps_push_fresh_obj fuel l a b : keeps (push_fresh_obj fuel l a b).
Proof. unfold push_fresh_obj, flush_objs. keep. Qed.
Lemma keeps_pop_task k : keeps (pop_task k).
Proof.
  apply stays_atomic. intros s a s' HP. destruct (nodes (g_locals s) !! k) as [nd|]; [|done].
  destruct (l_tasks (n_item nd)) as [|x ts]; intros [= <- <-]; [done|]. split; [|done]. by apply touched_alter.
Qed.
#[local] Hint Resolve keeps_push_fresh_obj keeps_pop_task : keep.
Lemma keeps_try_pop l : keeps (try_pop_mark_task l).
Proof. unfold try_pop_mark_task. keep. Qed.
Lemma keeps_task_call fuel a g : keeps (task_call fuel a g).
Proof. unfold task_call. keep. Qed.
Lemma keeps_reuse_hazards fuel l g : keeps (scan_or_reuse_hazards fuel l g).
Proof. unfold scan_or_reuse_hazards. keep. Qed.
#[local] Hint Resolve keeps_try_pop keeps_task_call keeps_reuse_hazards : keep.

End steps.
#[local] Abbreviation keeps d X := (keeps (touched d X)).
#[local] Hint Resolve keeps_get_local keeps_of_res keeps_load_cell keeps_update_cell keeps_cas_cell keeps_free_cell keeps_deref keeps_rmw_header keeps_guard_phase keeps_white keeps_black keeps_pinned_alloc_color keeps_global_phase keeps_schedule_helping keeps_record_mt keeps_is_marked keeps_schedule_mark keeps_shade_pointee keeps_shade_erased keeps_shade_outgoings keeps_header_mark keeps_mark_obj_mark keeps_obj_mark keeps_obj_color keeps_obj_root_count keeps_push_fresh_q keeps_push_marked_q keeps_pop_fresh_q keeps_pop_marked_q keeps_add_allocated keeps_add_reclaimed keeps_push_fresh_objs keeps_collect_hps keeps_select_shard keeps_shard_permut keeps_take_batch keeps_push_fresh_obj keeps_pop_task keeps_try_pop keeps_task_call keeps_reuse_hazards : keep.
#[local] Hint Extern 2 (Frame.keeps _ (atomic _)) => apply keeps_read; intros ? ? ?; repeat case_match; intros; simplify_eq/=; done : keep.
#[local] Hint Extern 2 (Frame.keeps _ (modify _)) => apply keeps_modify_frame; done : keep.
#[local] Hint Extern 2 (Frame.keeps _ (upd_local _ _)) => apply keeps_upd_local; by repeat split : keep.
#[local] Hint Extern 3 (Frame.keeps _ (iter_slots _ _ _ _)) => apply keeps_iter_slots; [first [exact cond_all|exact cond_using]|keep] : keep.
#[local] Hint Extern 3 (Frame.keeps _ (any_slot _ _ _)) => apply keeps_any_slot; [first [exact cond_all|exact cond_using]|keep] : keep.
#[local] Hint Unfold load_header increment_root_count decrement_root_count cas_header phase_of load_epoch pinned_epoch local_epoch : keep.

(** ** Guards ([Guards]) *)
(** Participant [l] is pinned [x] times more. *)
Definition bump (l : nat) (x : Z) (d : nat -> Z) : nat -> Z := fun k => if decide (k = l) then d k + x else d k.
Lemma bump_back d X l s : touched (bump l (-1) (bump l 1 d)) X s -> touched d X s.
Proof. apply touched_mono; [|done]. intros k. unfold bump. case_decide; lia. Qed.
Lemma touched_count d X l x n s r : local_of s l = Some r -> n = l_guard_count r + x -> touched d X s ->
  touched (bump l x d) X (put_local l (set_l_guard_count (fun _ => n) r) s).
Proof.
  intros (nd & Hnd & ->)%fmap_Some -> H. unfold put_local. apply (touched_alter_node d _ X); [intros j Hj; unfold bump; by rewrite decide_False|set_solver|by rewrite Hnd| |done].
  intros nd' _ Hnd'. rewrite Hnd in Hnd'. injection Hnd' as <-. cbn. split; [done|]. unfold bump. rewrite decide_True by done.
  split; [lia|]. split; [by left|]. by left.
Qed.
(** What [pin] and the drop of a guard do to it. *)
Definition pins (R : recs (V := V)) (X : gset nat) : Prop := forall d l, ends (touched d X) (r_pin R l) (fun g s => gd_local g = l /\ touched (bump l 1 d) X s).
Definition unpins (R : recs (V := V)) (X : gset nat) : Prop := forall d g, ends (touched d X) (r_drop R g) (fun _ => touched (bump (gd_local g) (-1) d) X).
(** What they bracket. *)
Definition brackets (R : recs (V := V)) (X : gset nat) : Prop := forall d l (p : guard -> prog (gstate V) unit), (forall d X g, keeps d X (p g)) -> keeps d X (g <- r_pin R l ; p g ;; r_drop R g).
Lemma pins_brackets R X : pins R X -> unpins R X -> brackets R X.
Proof.
  intros Hpin Hdrop d l p Hp. apply (ends_bind _ _ _ _ _ (Hpin d l)). intros g. apply (ends_bind _ _ _ (fun _ s => gd_local g = l /\ touched (bump l 1 d) X s)).
  - intros s [] s' [Eg HP] E. destruct (Hp _ _ g s tt s' HP E). done.
  - intros [] s [] s' [Eg HP] E. split; [|done]. apply (bump_back d X l). rewrite <- Eg at 1. by apply (Hdrop _ g s tt s' HP E).
Qed.
Section open_rec.
Context (fuel : nat) (R : recs (V := V)) (X : gset nat) (HR : brackets R X) (d : nat -> Z).
#[local] Abbreviation keeps := (keeps d X).

Lemma keeps_aso_drop l c : keeps (aso_drop R l c).
Proof.
  unfold aso_drop. apply keeps_bind; [keep|]. intros p. destruct (decide _); [keep|]. destruct (ManPtr.is_null p); [keep|].
  intros s a s' HP E. refine (HR d l (fun g => rc <- decrement_root_count (ManPtr.as_ptr p) ; _) _ s a s' HP _); [|rewrite <- E; symmetry].
  2:{ rewrite run_bind, (run_bind (r_pin R l)). destruct (run (r_pin R l) s) as [[g s1]|]; [|done]. by rewrite bind_assoc. }
  intros d' X' g. unfold call_shade_fn. keep.
Qed.
Lemma keeps_hazard_mark l T p : keeps (hazard_mark fuel R l T p).
Proof. unfold hazard_mark. apply keeps_bind; [keep|]. intros o. apply keeps_bind; [keep|]. intros _. apply HR. keep. Qed.
#[local] Hint Resolve keeps_aso_drop keeps_hazard_mark : keep.
Lemma keeps_drop_obj l a : keeps (drop_obj R l a).
Proof. unfold drop_obj. keep. Qed.
#[local] Hint Resolve keeps_drop_obj : keep.
Lemma keeps_help_normal g : keeps (help_normal fuel R g).
Proof. unfold help_normal, call_without_recursion, help_normal_inner, sweep_item. keep. Qed.
Lemma keeps_synced : keeps (is_tracing_synced fuel).
Proof. unfold is_tracing_synced. keep. Qed.
Lemma keeps_help_root g : keeps (help_root_tracing fuel g).
Proof. unfold help_root_tracing, trace_item, force_hazards. keep. Qed.
Lemma keeps_help_draining g : keeps (help_draining_mark_tasks_inner fuel g).
Proof. unfold help_draining_mark_tasks_inner. keep. Qed.
#[local] Hint Resolve keeps_help_normal keeps_synced keeps_help_root keeps_help_draining : keep.
Lemma keeps_help_tracing g : keeps (help_tracing fuel g).
Proof. unfold help_tracing, call_without_recursion. keep. Qed.
#[local] Hint Resolve keeps_help_tracing : keep.
Lemma keeps_help_collect g : keeps (help_collect fuel R g).
Proof. unfold help_collect. keep. Qed.
#[local] Hint Resolve keeps_help_collect : keep.
Lemma keeps_help_scheduled g : keeps (help_collect_if_scheduled fuel R g).
Proof. unfold help_collect_if_scheduled. keep. Qed.
Lemma keeps_pin_freshly l : keeps (pin_freshly fuel R l).
Proof. unfold pin_freshly, phase_barrier. keep. Qed.
End open_rec.
(** A step that reads the participant first. *)
Lemma ends_get_local {A B} P l (f : local -> A) (h : A -> prog (gstate V) B) Q :
  (forall r, ends (fun s => P s /\ local_of s l = Some r) (h (f r)) Q) -> ends P (bind (get_local l f) h) Q.
Proof.
  intros Hh s b s' HP E. destruct (local_of s l) as [r|] eqn:Hl.
  - rewrite (run_bind_ok _ _ _ _ _ (run_get_local l f s r Hl)) in E. by apply (Hh r s b s').
  - unfold local_of in Hl. apply fmap_None in Hl. cbn in E. by rewrite Hl in E.
Qed.
Lemma ends_count {A} X d l r n x (p : prog (gstate V) A) Q : n = l_guard_count r + x -> ends (touched (bump l x d) X) p Q ->
  ends (fun s => touched d X s /\ local_of s l = Some r) (upd_local l (set_l_guard_count (fun _ => n)) ;; p) Q.
Proof.
  intros Hn Hp s a s' [HP Hl] E. rewrite (run_bind_ok _ _ _ _ _ (run_upd_local l (set_l_guard_count (fun _ => n)) s r Hl)) in E.
  by apply (Hp _ a s' (touched_count d X l x n s r Hl Hn HP)).
Qed.
Lemma ends_keeps {A} d X (p : prog (gstate V) A) : keeps d X p -> ends (touched d X) p (fun _ => touched d X).
Proof. intros Hp s a s' HP E. by apply (Hp s a s'). Qed.
Lemma ends_pin_inner fuel R X d l : brackets R X -> ends (touched d X) (pin_inner fuel R l) (fun _ => touched (bump l 1 d) X).
Proof.
  intros HR. unfold pin_inner. apply ends_get_local. intros r. destruct (l_guard_count r + 1 <? wmod); [|by intros ????]. cbn [unwrap bind].
  apply (ends_count X d l r _ 1); [done|]. apply ends_keeps. destruct (_ =? 0); [by apply keeps_pin_freshly|by apply stays_ret].
Qed.
Lemma ends_unpin_inner X d l : ends (touched d X) (unpin_inner l) (fun _ => touched (bump l (-1) d) X).
Proof.
  unfold unpin_inner. apply ends_get_local. intros r. unfold checked_sub. destruct (1 <=? l_guard_count r); [|by intros ????]. cbn [bind].
  apply (ends_count X d l r _ (-1)); [lia|]. apply ends_keeps. destruct (_ =? 1); [keep|by apply stays_ret].
Qed.
Lemma ends_pin_body fuel R X d l : brackets R X -> ends (touched d X) (pin_body fuel R l) (fun g s => gd_local g = l /\ touched (bump l 1 d) X s).
Proof.
  intros HR. unfold pin_body. apply (ends_bind _ _ _ (fun g s => gd_local g = l /\ touched d X s)).
  - intros s g s' HP [= <- <-]. split; [done|by apply (touched_frame d X s)].
  - intros g. apply (ends_bind _ _ _ (fun _ s => gd_local g = l /\ touched (bump l 1 d) X s)).
    + intros s [] s' [Eg HP] E. split; [done|]. by apply (ends_pin_inner fuel R X d l HR s tt s').
    + intros [] s g' s' HP [= <- <-]. done.
Qed.
Lemma ends_drop_body fuel R X d g : brackets R X -> ends (touched d X) (drop_body fuel R g) (fun _ => touched (bump (gd_local g) (-1) d) X).
Proof.
  intros HR. unfold drop_body. apply (ends_bind _ _ _ (fun _ => touched d X)).
  - intros s [] s' HP E. by apply (keeps_help_scheduled fuel R X HR d g s tt s').
  - intros _. apply (ends_bind _ _ _ _ _ (ends_unpin_inner X d (gd_local g))). intros _ s [] s' HP [= <-]. by apply (touched_frame _ X s).
Qed.

Lemma tie_pins fuel X n : pins (tie fuel n) X /\ unpins (tie fuel n) X.
Proof.
  induction n as [|n [IHp IHd]]; [split; by intros ????|]. pose proof (pins_brackets _ _ IHp IHd) as HR.
  split; intros d; cbn [tie r_pin r_drop]; intros; [by apply ends_pin_body|by apply ends_drop_body].
Qed.
Lemma ends_pin fuel d X l : ends (touched d X) (pin fuel l) (fun g s => gd_local g = l /\ touched (bump l 1 d) X s).
Proof. apply tie_pins. Qed.
Lemma ends_drop fuel d X g : ends (touched d X) (guard_drop fuel g) (fun _ => touched (bump (gd_local g) (-1) d) X).
Proof. apply tie_pins. Qed.

Lemma keeps_guard_assist fuel d X g : keeps d X (guard_help_collect fuel g).
Proof. destruct (tie_pins fuel X fuel). by apply keeps_help_collect, pins_brackets. Qed.
Lemma keeps_repin fuel d X g : keeps d X (guard_repin fuel g).
Proof.
  destruct (tie_pins fuel X fuel) as [Hp Hd]. pose proof (pins_brackets _ _ Hp Hd) as HR. unfold guard_repin, repin_inner.
  apply keeps_bind; [by apply keeps_help_scheduled|]. intros _. set (l := gd_local g). apply (ends_bind _ _ _ _ _ (ends_unpin_inner X d l)).
  intros _ s [] s' HP E. split; [|done]. eapply touched_mono; [| |exact (ends_pin_inner fuel _ X _ l HR s tt s' HP E)]; [|done].
  intros k. unfold bump. case_decide; lia.
Qed.

(** *** The participant of a worker *)
Lemma touched_set_using d X X' s k u n : touched d X s -> spare k -> X ∖ {[k]} ⊆ X' -> (is_Some u -> k ∈ X') ->
  touched d X' (set_g_locals (fun R => mkSlots (alter (set_using u) k (nodes R)) n) s).
Proof.
  intros H Hk HX Hu. apply (touched_alter_node d d X); [done|done|done| |done]. intros nd _ _. cbn. split; [done|]. split; [lia|].
  split; [by right|]. intros Hi. right. apply Hu. unfold is_using in Hi. cbn in Hi. by destruct u.
Qed.
(** A search for a slot takes none that is in use. *)
Definition other_slots s d X (sl : ReusableSlots local) : Prop := touched d X (set_g_locals (fun _ => sl) s).
Definition taken s d X (l : nat) (sl : ReusableSlots local) : Prop := spare l /\ other_slots s d ({[l]} ∪ X) sl.
Lemma other_spare s d X sl k : other_slots s d X sl -> (forall nd, nodes sl !! k = Some nd -> is_using nd = false) -> spare k.
Proof.
  intros H Hk (nd & Hnd & Hu). destruct (ut_node _ _ _ H k nd Hnd Hu) as (nd' & Hn & Eu). specialize (Hk nd' Hn).
  unfold is_using in *. rewrite Eu in Hk. congruence.
Qed.
Lemma other_append s d X sl i : other_slots s d X sl -> taken s d X (length (nodes sl)) (with_nodes (nodes sl ++ [new_using local_default i]) sl).
Proof.
  intros H. set (k := length (nodes sl)). assert (Hk : nodes sl !! k = None) by (apply lookup_ge_None; lia).
  split; [apply (other_spare s d X sl); [done|]; by rewrite Hk|]. destruct H as [H1 H2 H3 H4 H5 H6]. cbn in *.
  assert (Hat : forall j nd, (nodes sl ++ [new_using local_default i]) !! j = Some nd -> nodes sl !! j = Some nd \/ j = k /\ nd = new_using local_default i).
  { intros j nd [Hj|[Hj Hn]]%lookup_app_Some; [by left|right]. apply list_lookup_singleton_Some in Hn as [Hn <-]. split; [lia|done]. }
  split; [done|..]; cbn.
  - intros j nd Hj Hu. destruct (H2 j nd Hj Hu) as (nd' & Hnd' & Eu). exists nd'. split; [by apply lookup_app_l_Some|done].
  - rewrite length_app. lia.
  - intros j nd' [Hj|[-> ->]]%Hat; [by apply H4|]. rewrite (H5 k Hk). unfold base.
    rewrite (proj2 (lookup_ge_None (nodes (g_locals s0)) k)) by lia. done.
  - intros j Hj. apply H5, lookup_ge_None. apply lookup_ge_None in Hj. rewrite length_app in Hj. lia.
  - intros j nd' [Hj|[-> ->]]%Hat Hu; [|set_solver]. destruct (H6 j nd' Hj Hu); [set_solver|by right].
Qed.
Lemma ends_count_slot s d X i k : ends (taken s d X k) (count_slot i k ;; Ret (inr k : nat + nat)) (fun x sl => match x with inl _ => other_slots s d X sl | inr l => taken s d X l sl end).
Proof.
  intros sl x sl' [Hs H] [= <- <-]. split; [done|]. apply (touched_set_using d ({[k]} ∪ X) _ (set_g_locals (fun _ => sl) s) k _ _ H); set_solver.
Qed.
Lemma ends_acquire s d X i fuel : ends (other_slots s d X) (acquire_or_default local_default i fuel) (taken s d X).
Proof.
  unfold acquire_or_default. generalize 0%nat. induction fuel as [|f IH]; intros k; [by intros ????|]. cbn [loop].
  apply (ends_bind _ _ _ (fun x sl => match x with inl _ => other_slots s d X sl | inr l => taken s d X l sl end)).
  2:{ intros [k'|l]; [apply IH|]. intros sl l' sl' H [= <- <-]. done. }
  unfold acquire_step. apply (ends_bind _ _ _ (fun _ => other_slots s d X)); [intros sl b sl' H [= _ <-]; done|]. intros nonnull.
  assert (Hret : forall k', ends (other_slots s d X) (Ret (inl k' : nat + nat)) (fun x sl => match x with inl _ => other_slots s d X sl | inr l => taken s d X l sl end)).
  { intros k' sl x sl' H [= <- <-]. done. }
  destruct (negb nonnull).
  - apply (ends_bind _ _ _ (fun ok sl => if ok : bool then taken s d X k sl else other_slots s d X sl)); [|intros [|]; [apply ends_count_slot|apply Hret]].
    intros sl b sl' H. cbn. destruct (decide (length (nodes sl) = k)) as [<-|]; intros [= <- <-]; [by apply other_append|done].
  - apply (ends_bind _ _ _ (fun _ => other_slots s d X)).
    { intros sl b sl' H. cbn. destruct (nodes sl !! k); [|done]. by intros [= _ <-]. }
    intros u. destruct (negb u); [|apply Hret].
    apply (ends_bind _ _ _ (fun ok sl => if ok : bool then taken s d X k sl else other_slots s d X sl)); [|intros [|]; [apply ends_count_slot|apply Hret]].
    intros sl b sl' H. cbn. destruct (nodes sl !! k) as [nd|] eqn:Hnd; [|done]. destruct (is_using nd) eqn:Hu; intros [= <- <-]; [done|].
    assert (Hs : spare k) by (apply (other_spare s d X sl); [done|]; intros nd'; rewrite Hnd; by intros [= <-]). split; [done|].
    unfold with_nodes. rewrite <- (alter_insert (set_using (Some (i, false)))) by done.
    apply (touched_set_using d X _ (set_g_locals (fun _ => sl) s) k _ _ H); [done|set_solver..].
Qed.
Lemma ends_register fuel d X thread : ends (touched d X) (register fuel thread) (fun l s => spare l /\ touched d ({[l]} ∪ X) s).
Proof.
  unfold register. apply (ends_bind _ _ _ (fun _ => touched d X)).
  - intros s b s' HP E. apply (fun H : keeps d X initialize_if_necessary => H s b s' HP E). unfold initialize_if_necessary, try_deploy_collector. keep.
  - intros _ s l s' HP. rewrite run_on_slots. destruct (run _ (g_locals s)) as [[l' sl]|] eqn:E; [|done]. intros [= <- <-].
    apply (ends_acquire s d X thread fuel (g_locals s) l' sl); [|done]. unfold other_slots. by destruct s.
Qed.
Lemma ends_unregister d X thread l : spare l -> ends (touched d ({[l]} ∪ X)) (unregister thread l) (fun _ => touched d X).
Proof.
  intros Hl s [] s' HP E. unfold unregister in E. rewrite run_on_slots in E. injection E as <-. cbn.
  assert (H1 := touched_set_using d _ ({[l]} ∪ X) s l (Some (thread, false)) (wsub (active (g_locals s)) 1) HP Hl ltac:(set_solver) ltac:(set_solver)).
  apply (touched_set_using d _ X _ l None (wsub (active (g_locals s)) 1) H1 Hl); [set_solver|by intros []].
Qed.

(** ** The collector ([Collector]) *)
Section cycle.
Context (fuel : nat).
Lemma keeps_then {A B} d X (p : prog (gstate V) A) (h : A -> prog (gstate V) B) Q :
  keeps d X p -> (forall a, ends (touched d X) (h a) Q) -> ends (touched d X) (bind p h) Q.
Proof. intros Hp Hh. by apply (ends_bind _ _ _ _ _ (ends_keeps d X p Hp)). Qed.
(** What ends with the drop of the guard it begins with. *)
Lemma ends_pinned {A} d X l (h : guard -> prog (gstate V) A) Q :
  (forall g, gd_local g = l -> ends (touched (bump l 1 d) X) (h g) Q) -> ends (touched d X) (g <- pin fuel l ; h g) Q.
Proof. intros Hh. apply (ends_bind _ _ _ _ _ (ends_pin fuel d X l)). intros g s a s' [Eg HP]. by apply (Hh g Eg). Qed.
Lemma ends_unpinned d X l g : gd_local g = l -> ends (touched (bump l 1 d) X) (guard_drop fuel g) (fun _ => touched d X).
Proof. intros <- s [] s' HP E. apply (bump_back d X (gd_local g)). by apply (ends_drop fuel _ _ g s tt s'). Qed.
Lemma ends_taking {A} d X thread (h : nat -> prog (gstate V) A) Q :
  (forall l, spare l -> ends (touched d ({[l]} ∪ X)) (h l) Q) -> ends (touched d X) (l <- register fuel thread ; h l) Q.
Proof. intros Hh. apply (ends_bind _ _ _ _ _ (ends_register fuel d X thread)). intros l s a s' [Hs HP]. by apply (Hh l Hs). Qed.

Lemma keeps_wait d X ts : keeps d X (wait_all_mutators_unpin fuel ts).
Proof. unfold wait_all_mutators_unpin. keep. Qed.
#[local] Hint Resolve keeps_wait : keep.
Lemma keeps_phase_trans d X ph : keeps d X (phase_trans fuel ph).
Proof. unfold phase_trans, store_epoch. keep. Qed.
Lemma keeps_steal d X k l : keeps d X (steal_tasks k l).
Proof.
  apply stays_atomic. intros s a s' HP. destruct (nodes _ !! k) as [src|]; [|done]. destruct (nodes _ !! l) as [dest|]; [|done].
  destruct (decide (k = l)) as [_|_].
  - destruct (l_tasks (n_item src)); intros [= <- <-]; (split; [|done]); [done|by apply touched_alter].
  - destruct (steal_batch _ _ _); intros [= <- <-]; (split; [|done]); [done|done|]. by apply touched_alter, touched_alter.
Qed.
#[local] Hint Resolve keeps_phase_trans keeps_steal : keep.
Lemma keeps_find_task d X l : keeps d X (find_task fuel l).
Proof. unfold find_task, steal_round. keep. Qed.
#[local] Hint Resolve keeps_find_task : keep.
Lemma keeps_drain d X l : keeps d X (drain_mark_tasks fuel l).
Proof.
  unfold drain_mark_tasks. apply ends_pinned. intros g Hg. apply keeps_then; [unfold drain_loop; keep|]. intros b.
  apply (ends_bind _ _ _ _ _ (ends_unpinned d X l g Hg)). intros _ s b' s' HP [= <- <-]. done.
Qed.
Lemma keeps_scan_worker d X h W thread range : keeps d X (scan_worker fuel h W thread range).
Proof.
  unfold scan_worker. apply ends_taking. intros l Hl. apply ends_pinned. intros g Hg. apply keeps_then; [unfold scan_item; keep|]. intros _.
  apply (ends_bind _ _ _ _ _ (ends_unpinned _ _ l g Hg)). intros _ s [] s' HP E. split; [|done]. by apply (ends_unregister d X thread l Hl s tt s').
Qed.
#[local] Hint Resolve keeps_drain keeps_scan_worker : keep.
Lemma keeps_scan_allocated d X l wt : keeps d X (scan_allocated_objs fuel l wt).
Proof.
  unfold scan_allocated_objs. apply ends_pinned. intros g Hg.
  do 5 (apply keeps_then; [unfold parallel_shard_work; keep|]; intros ?).
  intros s [] s' HP E. split; [|done]. by apply (ends_unpinned d X l g Hg s tt s').
Qed.
#[local] Hint Resolve keeps_scan_allocated : keep.
Lemma keeps_root_tracing d X l wt : keeps d X (root_tracing fuel l wt).
Proof. unfold root_tracing. keep. Qed.
Lemma keeps_any_local d X p : keeps d X (any_local fuel p).
Proof. unfold any_local. keep. Qed.
#[local] Hint Resolve keeps_root_tracing keeps_any_local : keep.
Lemma keeps_completion d X l : keeps d X (completion_tracing fuel l).
Proof. unfold completion_tracing, try_confirm_completion. keep. Qed.
Lemma sweep_brackets X thread : brackets (sweep_recs fuel thread) X.
Proof.
  intros d k p Hp s a s' HP E.
  assert (E' : run (l <- register fuel thread ; g <- pin fuel l ; p g ;; guard_drop fuel g ;; unregister thread (gd_local g)) s = Ok (a, s')).
  { rewrite <- E. cbn [sweep_recs r_pin r_drop]. by rewrite bind_assoc. }
  clear E. revert s a s' HP E'. apply ends_taking. intros l Hl. apply ends_pinned. intros g Hg. apply keeps_then; [apply Hp|]. intros [].
  apply (ends_bind _ _ _ _ _ (ends_unpinned d _ l g Hg)). intros _ s [] s' HP E. rewrite Hg in E. split; [|done]. by apply (ends_unregister d X thread l Hl s tt s').
Qed.
Lemma keeps_sweep_drop d X thread a : keeps d X (drop_obj (sweep_recs fuel thread) 0 a).
Proof. apply keeps_drop_obj, sweep_brackets. Qed.
#[local] Hint Resolve keeps_completion keeps_sweep_drop : keep.
Lemma keeps_sweep_obj d X thread W a st : keeps d X (sweep_obj fuel thread W a st).
Proof. unfold sweep_obj. keep. Qed.
#[local] Hint Resolve keeps_sweep_obj : keep.
Lemma keeps_next_normal d X l wt : keeps d X (next_normal fuel l wt).
Proof. unfold next_normal, sweep, parallel_shard_work, sweep_worker, store_epoch. keep. Qed.
#[local] Hint Resolve keeps_next_normal : keep.
Lemma keeps_cycle d X l wt : keeps d X (collect_cycle fuel l wt).
Proof. unfold collect_cycle. keep. Qed.
End cycle.
End collection.

(** A cycle, wherever it starts, leaves the type registry alone, and the owners, the hazard slots
    and the guards of all participants; those its workers took are free again. *)
Lemma cycle_untouched {EX : Extern} {V : Type} fuel l wt (s s' : gstate V) a :
  run (collect_cycle fuel l wt) s = Ok (a, s') -> untouched s s'.
Proof. apply (keeps_cycle s fuel (fun _ => 0) ∅ l wt s a s'), untouched_refl. Qed.
Lemma untouched_node {EX : Extern} {V : Type} (s s' : gstate V) k nd : untouched s s' -> nodes (g_locals s) !! k = Some nd -> is_using nd = true ->
  exists nd', nodes (g_locals s') !! k = Some nd' /\ n_using nd' = n_using nd /\ same_slots (n_item nd) (n_item nd').
Proof.
  intros HU Hk Hu. destruct (ut_node _ _ _ _ HU k nd Hk Hu) as (nd' & Hnd' & Eu). exists nd'. split; [done|]. split; [done|].
  destruct (ut_slot _ _ _ _ HU k nd' Hnd') as [H _]. unfold base in H. by rewrite Hk in H.
Qed.

(** ** Taking a slot and giving it back, in full *)
Section seats.
Context {EX : Extern} {V : Type}.
Implicit Types (s : gstate V).
Lemma run_initialize s : exists b f, run initialize_if_necessary s = Ok (b, set_g_collector_init f s).
Proof.
  unfold initialize_if_necessary, try_deploy_collector. cbn [gets atomic bind run].
  destruct (g_collector_init s) eqn:E; cbn [atomic run]; rewrite ?E; eexists _, _; [|done].
  instantiate (1 := id). by destruct s.
Qed.
Lemma run_register fuel thread s : (length (nodes (g_locals s)) < fuel)%nat -> exists k sl f,
  run (register fuel thread) s = Ok (k, set_g_locals (fun _ => sl) (set_g_collector_init f s)) /\
  (k <= length (nodes (g_locals s)))%nat /\ (forall nd, nodes (g_locals s) !! k = Some nd -> is_using nd = false) /\
  forall j, nodes sl !! j = if decide (j = k) then Some (mkNode (Some (thread, true)) (base s k)) else nodes (g_locals s) !! j.
Proof.
  intros Hf. unfold register. destruct (run_initialize s) as (b & f & Ei).
  destruct (run_search local_default thread fuel (g_locals s) 0) as (k & sl & E & En & _ & _ & Hk & _ & Hfree); [lia|lia|intros; lia|].
  exists k, sl, f. split; [|split; [done|split; [done|]]].
  - rewrite run_bind, Ei, run_on_slots. unfold acquire_or_default. change (g_locals (set_g_collector_init f s)) with (g_locals s). by rewrite E.
  - intros j. rewrite En. unfold base. destruct (nodes (g_locals s) !! k) as [nd|] eqn:Ek.
    + case_decide as Ej; [subst; by apply list_lookup_insert_eq; eapply lookup_lt_Some|by rewrite list_lookup_insert_ne].
    + apply lookup_ge_None in Ek. assert (k = length (nodes (g_locals s))) as -> by lia. case_decide as Ej; [subst; by apply list_lookup_middle|].
      destruct (decide (j < length (nodes (g_locals s)))%nat); [by rewrite lookup_app_l|].
      rewrite !(proj2 (lookup_ge_None _ _)) by (rewrite ?length_app; cbn; lia). done.
Qed.
Lemma run_vacate thread k s : exists sl, run (unregister thread k) s = Ok (tt, set_g_locals (fun _ => sl) s) /\
  forall j, nodes sl !! j = (if decide (j = k) then set_using None else id) <$> nodes (g_locals s) !! j.
Proof.
  eexists. split; [unfold unregister; rewrite run_on_slots; reflexivity|]. intros j. cbn. case_decide as Ej.
  - subst j. rewrite !list_lookup_alter_eq. by destruct (_ !! k).
  - rewrite !list_lookup_alter_ne by done. by destruct (_ !! j).
Qed.
End seats.
