(* ===== verification/Tasks.v ===== *)
(** * Mark tasks ([src/internal.rs], [src/collector.rs])

    The mark queues of all participants, seen as one bag: scheduling adds to it, and
    [find_task] takes from it as long as it is not empty. *)
From S2P Require Import Prelude Prog Epoch Meta Slots Registry State Heap Marking Participant Guards Collector Iter.
#[local] Open Scope Z_scope.

Section tasks.
Context {EX : Extern} {V : Type}.
Implicit Types (s : gstate V).

Definition tasks_of (ns : list (node local)) : list Z := concat ((fun nd => l_tasks (n_item nd)) <$> ns).
Definition all_tasks s : list Z := tasks_of (nodes (g_locals s)).
(** The state apart from the mark queues. *)
Definition untasked s : gstate V :=
  set_g_locals (fun R => mkSlots (upd_item (set_l_tasks (fun _ => [])) <$> nodes R) (active R)) s.
Definition same_but_tasks s s' : Prop := untasked s = untasked s'.
#[global] Instance same_but_tasks_equiv : Equivalence same_but_tasks.
Proof. split; unfold same_but_tasks; repeat intro; congruence. Qed.

Lemma same_tasks_nodes s s' : same_but_tasks s s' ->
  upd_item (set_l_tasks (fun _ => [])) <$> nodes (g_locals s) =
  upd_item (set_l_tasks (fun _ => [])) <$> nodes (g_locals s').
Proof. intros H. exact (f_equal (fun s => nodes (g_locals s)) H). Qed.
Lemma same_tasks_length s s' : same_but_tasks s s' -> length (nodes (g_locals s')) = length (nodes (g_locals s)).
Proof. intros H%same_tasks_nodes%(f_equal length). by rewrite !length_fmap in H. Qed.
Lemma same_tasks_objs s s' : same_but_tasks s s' -> g_objs s' = g_objs s /\ g_cells s' = g_cells s.
Proof. intros H. split; [exact (eq_sym (f_equal g_objs H))|exact (eq_sym (f_equal g_cells H))]. Qed.
Lemma same_tasks_local s s' l r : same_but_tasks s s' -> local_of s l = Some r ->
  exists ts, local_of s' l = Some (set_l_tasks (fun _ => ts) r).
Proof.
  intros H%same_tasks_nodes (nd & Hnd & ->)%fmap_Some. apply (f_equal (fun L => L !! l)) in H.
  rewrite !list_lookup_fmap, Hnd in H. unfold local_of. destruct (nodes (g_locals s') !! l) as [nd'|]; [|done].
  exists (l_tasks (n_item nd')). cbn. f_equal. cbn in H. injection H as _ H.
  destruct (n_item nd), (n_item nd'). cbn in *. by simplify_eq.
Qed.

Lemma tasks_split s l r : local_of s l = Some r -> exists rest,
  all_tasks s ≡ₚ l_tasks r ++ rest /\
  (forall r', all_tasks (put_local l r' s) ≡ₚ l_tasks r' ++ rest).
Proof.
  intros (nd & Hnd & ->)%fmap_Some. apply list_elem_of_split_length in Hnd as (pre & post & E & ->).
  exists (tasks_of pre ++ tasks_of post). unfold all_tasks, put_local, tasks_of. cbn. rewrite E. split.
  - rewrite fmap_app, concat_app. cbn. apply Permutation_app_swap_app.
  - intros r'. assert (E' : alter (upd_item (fun _ => r')) (length pre) (pre ++ nd :: post) =
      pre ++ upd_item (fun _ => r') nd :: post).
    { clear E. induction pre as [|x pre IH]; [done|]. cbn. by rewrite IH. }
    rewrite E', fmap_app, concat_app. cbn. apply Permutation_app_swap_app.
Qed.
Lemma untasked_put s l r ts : local_of s l = Some r ->
  same_but_tasks s (put_local l (set_l_tasks (fun _ => ts) r) s).
Proof.
  intros (nd & Hnd & ->)%fmap_Some. unfold same_but_tasks, untasked, put_local, set_g_locals. cbn. f_equal. f_equal.
  apply list_eq. intros j. rewrite !list_lookup_fmap. destruct (decide (j = l)) as [->|].
  - rewrite list_lookup_alter_eq, Hnd. done.
  - by rewrite list_lookup_alter_ne.
Qed.
(** Scheduled tasks join the bag. *)
Lemma traced_tasks g ts cells objs s s' : traced g ts cells objs s s' -> all_tasks s' ≡ₚ all_tasks s ++ ts.
Proof.
  intros (r & n & h & Hl & ->). destruct (tasks_split _ _ _ Hl) as (rest & E & E').
  change (all_tasks (put_local (gd_local g) (pushed ts n r) s) ≡ₚ all_tasks s ++ ts).
  rewrite E', E. cbn. rewrite <- !app_assoc. apply Permutation_app_head, Permutation_app_comm.
Qed.

Lemma traced_length g ts cells objs s s' : traced g ts cells objs s s' ->
  length (nodes (g_locals s')) = length (nodes (g_locals s)).
Proof. intros (r & n & h & _ & ->). exact (length_alter _ _ _). Qed.

(** ** Finding a task *)
Lemma run_pop_task l s r : local_of s l = Some r ->
  run (pop_task l) s = match l_tasks r with
                       | t :: ts => Ok (Some t, put_local l (set_l_tasks (fun _ => ts) r) s)
                       | [] => Ok (None, s)
                       end.
Proof.
  intros Hl. pose proof Hl as (nd & Hnd & ->)%fmap_Some. unfold pop_task, atomic. cbn [run]. rewrite Hnd.
  destruct (l_tasks (n_item nd)) as [|t ts] eqn:E; [done|].
  pose proof (run_upd_local l (set_l_tasks (fun _ => ts)) s _ Hl) as H.
  apply (f_equal (fun x => match x with Ok (_, s') => s' | _ => s end)) in H. cbn in H. cbn [run]. by rewrite <- H.
Qed.
Lemma take_own l s r t ts : local_of s l = Some r -> l_tasks r = t :: ts ->
  let s' := put_local l (set_l_tasks (fun _ => ts) r) s in
  all_tasks s ≡ₚ t :: all_tasks s' /\ same_but_tasks s s'.
Proof.
  intros Hl E s'. destruct (tasks_split _ _ _ Hl) as (rest & E1 & E2). split; [|by apply untasked_put].
  unfold s'. by rewrite E2, E1, E.
Qed.

(** The deque without interference: an attempt that can succeed does. *)
Definition no_retry : Prop := forall X (src dest : list X) n, steal_batch src dest n <> SRetry.

Lemma run_steal k l s rk rl : no_retry -> local_of s k = Some rk -> local_of s l = Some rl ->
  if decide (l_tasks rk = []) then run (steal_tasks k l) s = Ok (SEmpty, s)
  else exists t a b s', run (steal_tasks k l) s = Ok (SSuccess t a b, s') /\
    all_tasks s ≡ₚ t :: all_tasks s' /\ same_but_tasks s s'.
Proof.
  intros Hnr Hk Hl. pose proof Hk as (nk & Hnk & Ek)%fmap_Some. pose proof Hl as (nl & Hnl & El)%fmap_Some.
  unfold steal_tasks, atomic. cbn [run]. rewrite Hnk, Hnl, <- Ek, <- El.
  assert (Hput : forall i ts x (s : gstate V), local_of s i = Some x ->
    set_g_locals (fun r => mkSlots (alter (upd_item (set_l_tasks (fun _ => ts))) i (nodes r)) (active r)) s =
    put_local i (set_l_tasks (fun _ => ts) x) s).
  { intros i ts x s0 Hi. pose proof (run_upd_local i (set_l_tasks (fun _ => ts)) s0 x Hi) as H.
    apply (f_equal (fun y => match y with Ok (_, s') => s' | _ => s0 end)) in H. exact H. }
  destruct (decide (k = l)) as [->|Hne].
  - rewrite Hk in Hl. injection Hl as ->. destruct (l_tasks rl) as [|t ts] eqn:E; [done|]. cbn [run decide].
    rewrite (Hput _ _ _ _ Hk). destruct (decide _) as [|_]; [done|].
    exists t, ts, ts. eexists. split; [done|]. by eapply take_own.
  - destruct (decide (l_tasks rk = [])) as [E|E]; [by rewrite E, steal_empty|].
    destruct (steal_batch (l_tasks rk) (l_tasks rl) LOCAL_MARK_TASKS_BATCH_LIMIT) as [| |t a b] eqn:Es.
    + by apply steal_not_empty in Es.
    + by apply Hnr in Es.
    + cbn [run]. exists t, a, b. eexists. split; [done|]. apply steal_perm in Es.
      rewrite (Hput _ _ _ _ Hl).
      assert (Hk' : local_of (put_local l (set_l_tasks (fun _ => b) rl) s) k = Some rk) by by rewrite local_of_put_ne.
      rewrite (Hput _ _ _ _ Hk').
      destruct (tasks_split _ _ _ Hk) as (rest & E1 & _). destruct (tasks_split _ _ _ Hk') as (rest' & E3 & E4).
      destruct (tasks_split _ _ _ Hl) as (rest2 & E5 & E6). split.
      * rewrite E4. cbn. rewrite E6 in E3. cbn in E3. apply (Permutation_app_inv_l (l_tasks rk)).
        rewrite E5, app_assoc, Es. cbn. rewrite <- app_assoc, E3, Permutation_app_swap_app.
        apply Permutation_middle.
      * etransitivity; by eapply untasked_put.
Qed.

Lemma tasks_nil s : all_tasks s = [] <-> forall k r, local_of s k = Some r -> l_tasks r = [].
Proof.
  unfold all_tasks, tasks_of. rewrite concat_nil_Forall, Forall_fmap, Forall_lookup. split; intros H k.
  - intros r (nd & Hnd & ->)%fmap_Some. exact (H k nd Hnd).
  - intros nd Hnd. cbn. apply (H k). unfold local_of. by rewrite Hnd.
Qed.
Lemma local_lt s k : (k < length (nodes (g_locals s)))%nat <-> exists r, local_of s k = Some r.
Proof.
  unfold local_of. rewrite <- lookup_lt_is_Some. split; [intros [nd ->]; by eexists|].
  intros [r (nd & -> & _)%fmap_Some]. by eexists.
Qed.
Definition tasks_at s k : list Z := default [] (l_tasks <$> local_of s k).

(** One round of stealing: the first queue that is not empty gives a task. *)
Lemma run_steal_each f l rl s ks : no_retry -> local_of s l = Some rl ->
  (forall k, k ∈ ks -> is_Some (local_of s k)) ->
  let body := visit (fun _ _ => true) (fun k retry =>
      r <- steal_tasks k l ;
      Ret (match r with SSuccess t _ _ => inr t | SRetry => inl true | SEmpty => inl retry end))%prog in
  (run (for_each ks body f) s = Ok (inl f, s) /\ forall k, k ∈ ks -> tasks_at s k = []) \/
  (exists t s', run (for_each ks body f) s = Ok (inr t, s') /\
     all_tasks s ≡ₚ t :: all_tasks s' /\ same_but_tasks s s').
Proof.
  intros Hnr Hl Hks body. induction ks as [|k ks IH].
  { left. split; [done|]. intros k Hk. by apply not_elem_of_nil in Hk. }
  destruct (Hks k ltac:(by left)) as [rk Hk]. cbn [for_each]. unfold body at 1 3, visit.
  rewrite !run_bind. cbn [gets atomic run]. rewrite !run_bind.
  pose proof (run_steal k l s rk rl Hnr Hk Hl) as H. destruct (decide (l_tasks rk = [])) as [E|E].
  - rewrite H. cbn [run]. destruct (IH ltac:(intros; apply Hks; by right)) as [[E' Hn]|Hs]; [left|right; exact Hs].
    split; [exact E'|]. intros j [->|Hj]%elem_of_cons; [|by apply Hn]. unfold tasks_at. by rewrite Hk.
  - right. destruct H as (t & a & b & s' & -> & Hp & Hs). cbn [run]. by exists t, s'.
Qed.

(** [find_task] returns a task of some participant as long as there is one; it
    changes only the mark queues, and loses no task. *)
Lemma run_find_task f l r s : no_retry -> local_of s l = Some r ->
  (length (nodes (g_locals s)) < f)%nat ->
  (run (find_task f l) s = Ok (None, s) /\ all_tasks s = []) \/
  (exists t s', run (find_task f l) s = Ok (Some t, s') /\
     all_tasks s ≡ₚ t :: all_tasks s' /\ same_but_tasks s s').
Proof.
  intros Hnr Hl Hf. unfold find_task. rewrite run_bind, (run_pop_task _ _ _ Hl).
  destruct (l_tasks r) as [|t ts] eqn:E.
  2:{ right. exists t, (put_local l (set_l_tasks (fun _ => ts) r) s). split; [done|]. by eapply take_own. }
  destruct f as [|f]; [lia|]. cbn [loop]. rewrite !run_bind. unfold steal_round.
  rewrite (run_iter_slots _ _ reads_all (S f) _ _ _ s Hf eq_refl).
  - destruct (run_steal_each false l r s (seq 0 (length (nodes (g_locals s)))) Hnr Hl)
      as [[E' Hn]|(t & s' & E' & Hs)].
    + intros k Hk. apply elem_of_seq in Hk. apply local_lt. lia.
    + left. rewrite E'. split; [done|]. apply tasks_nil. intros k rk Hk.
      specialize (Hn k). unfold tasks_at in Hn. rewrite Hk in Hn. apply Hn, elem_of_seq.
      assert (k < length (nodes (g_locals s)))%nat by (apply local_lt; eauto). lia.
    + right. rewrite E'. exists t, s'. split; [done|exact Hs].
  - intros k a s1 x s2 Hn. rewrite run_bind.
    destruct (run (steal_tasks k l) s1) as [[y s3]|] eqn:Es; [|done]. cbn [run]. intros [= _ <-].
    apply (f_equal (fun x => match x with Ok (_, s) => Some s | _ => None end)) in Es.
    cbn in Es. repeat case_match; simplify_eq/=; rewrite ?length_alter; done.
Qed.
End tasks.
