(* ===== verification/Tracing.v ===== *)
(** * What tracing finds ([src/pointers.rs], [src/collector.rs])

    The tri-colour invariant of a marking phase, the set of objects that marking will
    still find, and the theorems about them: the drain loop of the collector marks
    exactly what is reachable from the queued tasks, and the write barriers lose
    nothing of that set. *)
From S2P Require Import Prelude Prog Epoch Meta Slots Registry State Heap Marking Participant Guards Collector Iter Tasks.
#[local] Open Scope Z_scope.

Section tracing.
Context {EX : Extern} {V : Type}.
Implicit Types (s : gstate V) (p : ManPtr.ptr) (Q : list Z).

(** ** The object graph *)
(** A cell holds this pointer. *)
Definition holds_ptr s (c : cell) p : Prop := g_cells s !! c = Some (ManPtr.encode p) /\ ManPtr.ptr_ok p.
Definition edge s (a b : Z) : Prop := exists o c p,
  g_objs s !! a = Some o /\ c ∈ o_links o /\ holds_ptr s c p /\ ManPtr.p_addr p <> 0 /\ b = target p.
Definition reach s : Z -> Z -> Prop := rtc (edge s).

Definition black (B : Color) s (a : Z) : Prop := exists o,
  g_objs s !! a = Some o /\ ObjMeta.marked (o_hdr o) = B.

(** Every header is an encoded one, and every link of an object is unrooted and null
    or leads to a live object. *)
Record wf s : Prop := {
  wf_hdr : forall a o, g_objs s !! a = Some o -> exists h, ObjMeta.hdr_ok h /\ o_hdr o = ObjMeta.encode h;
  wf_link : forall a o c, g_objs s !! a = Some o -> c ∈ o_links o -> link_ok s c
}.

(** The tri-colour invariant for the marking colour [B] and the queued tasks [Q]:
    marked objects have black links only, and a black link leads to an object that is
    marked or queued. *)
Record tri (B : Color) s Q : Prop := {
  tri_links : forall a o c p, g_objs s !! a = Some o -> ObjMeta.marked (o_hdr o) = B -> c ∈ o_links o ->
    holds_ptr s c p -> ManPtr.p_meta p = Unrooted B;
  tri_target : forall c p, holds_ptr s c p -> ManPtr.p_meta p = Unrooted B -> ManPtr.p_addr p <> 0 ->
    black B s (target p) \/ target p ∈ Q;
  tri_queued : forall a, a ∈ Q -> is_Some (g_objs s !! a)
}.

Lemma holds_inj s c p q : holds_ptr s c p -> holds_ptr s c q -> p = q.
Proof. intros [Hp ?] [Hq ?]. rewrite Hp in Hq. injection Hq as Hq. by apply encode_inj in Hq. Qed.
Lemma link_ok_holds s c : link_ok s c <-> exists p col, holds_ptr s c p /\ ManPtr.p_meta p = Unrooted col /\
  (ManPtr.p_addr p <> 0 -> is_Some (g_objs s !! target p)).
Proof. unfold link_ok, points, holds_ptr. naive_solver. Qed.

(** What a marked object leads to is marked, or leads through a queued one. *)
Lemma black_edge B s Q a b : tri B s Q -> black B s a -> edge s a b -> black B s b \/ b ∈ Q.
Proof.
  intros Ht (o & Ho & Hb) (o' & c & p & Ho' & Hc & Hp & Hn & ->). simplify_eq.
  eapply tri_target; eauto using tri_links.
Qed.
Lemma black_reach B s Q a b : tri B s Q -> black B s a -> reach s a b ->
  black B s b \/ exists q, q ∈ Q /\ reach s q b.
Proof.
  intros Ht Ha Hr. induction Hr as [a|a x b Hax Hxb IH]; [by left|].
  destruct (black_edge _ _ _ _ _ Ht Ha Hax) as [Hx|Hx]; [by apply IH|]. right. by exists x.
Qed.

(** ** What marking one object does to the graph *)
(** [s'] has the objects and links of [s], up to mark colours. *)
Definition hdr_same (w w' : Z) : Prop :=
  ObjMeta.root_count w' = ObjMeta.root_count w /\ ObjMeta.type_id w' = ObjMeta.type_id w.
Definition obj_same (o o' : obj V) : Prop :=
  o' = set_o_hdr (fun _ => o_hdr o') o /\ hdr_same (o_hdr o) (o_hdr o').
Definition recolored p p' : Prop := p' = p \/ exists c c', ManPtr.p_meta p = Unrooted c /\ p' = with_color c' p.
Definition recolored_word (w w' : Z) : Prop := w = w' \/ exists p p', ManPtr.ptr_ok p /\ w = ManPtr.encode p /\
  w' = ManPtr.encode p' /\ recolored p p'.
Definition same_shape s s' : Prop :=
  (forall a, match g_objs s !! a, g_objs s' !! a with
             | Some o, Some o' => obj_same o o' | None, None => True | _, _ => False end) /\
  (forall c, match g_cells s !! c, g_cells s' !! c with
             | Some w, Some w' => recolored_word w w'
             | None, None => True | _, _ => False end).

Lemma recolored_ok p p' : recolored p p' -> ManPtr.ptr_ok p -> ManPtr.ptr_ok p'.
Proof. by intros [->|(c & c' & _ & ->)]. Qed.
Lemma recolored_trans p1 p2 p3 : recolored p1 p2 -> recolored p2 p3 -> recolored p1 p3.
Proof.
  intros [->|(c & c' & H & ->)] [->|(d & d' & H' & ->)]; [by left|right|right|right]; eauto.
Qed.
Lemma obj_same_trans o1 o2 o3 : obj_same o1 o2 -> obj_same o2 o3 -> obj_same o1 o3.
Proof.
  intros [E1 [? ?]] [E2 [? ?]]. split; [|split; congruence].
  rewrite E2. rewrite E1 at 1. by destruct o1, o3.
Qed.
Lemma same_shape_refl s : same_shape s s.
Proof.
  split; [intros a; destruct (g_objs s !! a) as [[]|]; done|]. intros c. destruct (g_cells s !! c); [by left|done].
Qed.
Lemma same_shape_trans s1 s2 s3 : same_shape s1 s2 -> same_shape s2 s3 -> same_shape s1 s3.
Proof.
  intros [O1 C1] [O2 C2]. split.
  - intros a. specialize (O1 a). specialize (O2 a).
    destruct (g_objs s1 !! a), (g_objs s2 !! a), (g_objs s3 !! a); try done. by eapply obj_same_trans.
  - intros c. specialize (C1 c). specialize (C2 c).
    destruct (g_cells s1 !! c) as [w1|], (g_cells s2 !! c) as [w2|], (g_cells s3 !! c) as [w3|]; try done.
    destruct C1 as [->|(p1 & p2 & Hp1 & -> & -> & R1)]; [done|].
    destruct C2 as [<-|(q1 & q2 & Hq1 & E & -> & R2)]; right; [by exists p1, p2|].
    apply encode_inj in E as <-; [|by eapply recolored_ok|done].
    exists p1, q2. split_and!; try done. by eapply recolored_trans.
Qed.

Lemma same_shape_holds s s' c p : same_shape s s' -> holds_ptr s c p ->
  exists p', holds_ptr s' c p' /\ recolored p p'.
Proof.
  intros [_ HC] [Hc Hp]. specialize (HC c). rewrite Hc in HC.
  destruct (g_cells s' !! c) as [w'|] eqn:E; [|done].
  destruct HC as [<-|(q & q' & Hq & Eq & -> & R)]; [exists p; split; [done|by left]|].
  apply encode_inj in Eq as <-; [|done|done]. exists q'. split; [|done]. split; [done|by eapply recolored_ok].
Qed.
Lemma same_shape_holds_rev s s' c p' : same_shape s s' -> holds_ptr s' c p' ->
  exists p, holds_ptr s c p /\ recolored p p'.
Proof.
  intros [_ HC] [Hc Hp]. specialize (HC c). rewrite Hc in HC.
  destruct (g_cells s !! c) as [w|] eqn:E; [|done].
  destruct HC as [->|(q & q' & Hq & -> & Eq & R)]; [exists p'; split; [done|by left]|].
  apply encode_inj in Eq as ->; [|done|by eapply recolored_ok]. by exists q.
Qed.
Lemma recolored_addr p p' : recolored p p' -> ManPtr.p_addr p' = ManPtr.p_addr p.
Proof. by intros [->|(c & c' & _ & ->)]. Qed.
Lemma same_shape_obj s s' a o : same_shape s s' -> g_objs s !! a = Some o ->
  exists o', g_objs s' !! a = Some o' /\ obj_same o o'.
Proof.
  intros [HO _] Ho. specialize (HO a). rewrite Ho in HO. destruct (g_objs s' !! a) as [o'|]; [by exists o'|done].
Qed.
Lemma same_shape_obj_rev s s' a o' : same_shape s s' -> g_objs s' !! a = Some o' ->
  exists o, g_objs s !! a = Some o /\ obj_same o o'.
Proof.
  intros [HO _] Ho. specialize (HO a). rewrite Ho in HO. destruct (g_objs s !! a) as [o|]; [by exists o|done].
Qed.
Lemma obj_same_links o o' : obj_same o o' -> o_links o' = o_links o.
Proof. by intros [-> _]. Qed.
Lemma same_shape_edge s s' a b : same_shape s s' -> edge s a b <-> edge s' a b.
Proof.
  intros Hs. split; intros (o & c & p & Ho & Hc & Hp & Hn & ->).
  - destruct (same_shape_obj _ _ _ _ Hs Ho) as (o' & Ho' & E).
    destruct (same_shape_holds _ _ _ _ Hs Hp) as (p' & Hp' & R). apply recolored_addr in R.
    exists o', c, p'. unfold target. rewrite R. apply obj_same_links in E. by rewrite E.
  - destruct (same_shape_obj_rev _ _ _ _ Hs Ho) as (o' & Ho' & E).
    destruct (same_shape_holds_rev _ _ _ _ Hs Hp) as (p' & Hp' & R). apply recolored_addr in R.
    exists o', c, p'. unfold target. rewrite <- R. apply obj_same_links in E. by rewrite <- E.
Qed.
Lemma same_shape_reach s s' a b : same_shape s s' -> reach s a b <-> reach s' a b.
Proof.
  intros Hs. split; (induction 1 as [|a x b Hax _ IH]; [reflexivity|]);
    (eapply rtc_l; [by apply (same_shape_edge _ _ _ _ Hs)|exact IH]).
Qed.

(** Marking one object [a], as [run_obj_mark] describes it. *)
Lemma mark_shape r s s' a o h ls cells' : g_objs s !! a = Some o ->
  ObjMeta.hdr_ok h -> o_hdr o = ObjMeta.encode h -> (forall c, c ∈ ls -> link_ok s c) ->
  blackened r ls (g_cells s) cells' ->
  g_objs s' = <[a := blacken_obj r o]> (g_objs s) -> g_cells s' = cells' -> same_shape s s'.
Proof.
  intros Ho Hh Eh Hls [Hb1 Hb2] Eo Ec. split.
  - intros x. rewrite Eo. destruct (decide (x = a)) as [->|Hne].
    + rewrite Ho, lookup_insert_eq. split; [done|]. unfold blacken_obj, set_o_hdr, hdr_same. cbn [o_hdr].
      rewrite Eh, ObjMeta.encode_with_marked by done.
      by rewrite !ObjMeta.encode_root_count, !ObjMeta.encode_type_id by done.
    + rewrite lookup_insert_ne by done. by destruct (g_objs s !! x) as [[]|].
  - intros c. rewrite Ec. destruct (decide (c ∈ ls)) as [Hin|Hin].
    + destruct (proj1 (link_ok_holds s c) (Hls c Hin)) as (p & col & [Hc Hp] & Hm & _).
      rewrite Hc, (Hb2 c p) by done. right. exists p, (with_color (black_of r) p).
      split_and!; try done. right. by exists col, (black_of r).
    + rewrite (Hb1 c Hin). destruct (g_cells s !! c); [by left|done].
Qed.

Lemma mark_wf s s' : wf s -> same_shape s s' ->
  (forall a o, g_objs s' !! a = Some o -> exists h, ObjMeta.hdr_ok h /\ o_hdr o = ObjMeta.encode h) -> wf s'.
Proof.
  intros Hw Hs Hh. constructor; [done|]. intros a o' c Ho' Hc.
  destruct (same_shape_obj_rev _ _ _ _ Hs Ho') as (o & Ho & E). apply obj_same_links in E. rewrite E in Hc.
  pose proof (wf_link _ Hw _ _ _ Ho Hc) as (p & col & Hp & Hm & Ht)%link_ok_holds.
  destruct (same_shape_holds _ _ _ _ Hs Hp) as (p' & Hp' & R). apply link_ok_holds. exists p'.
  unfold target. rewrite (recolored_addr _ _ R).
  assert (exists col', ManPtr.p_meta p' = Unrooted col') as [col' Hm'].
  { destruct R as [->|(? & c' & _ & ->)]; eauto. }
  exists col'. split_and!; [done|done|]. intros Hn. destruct (Ht Hn) as [t Hto].
  destruct (same_shape_obj _ _ _ _ Hs Hto) as (t' & Ht' & _). by exists t'.
Qed.

Lemma mark_tri r s s' Q a o h ts cells' : wf s -> tri (black_of r) s (a :: Q) -> g_objs s !! a = Some o ->
  ObjMeta.hdr_ok h -> o_hdr o = ObjMeta.encode h ->
  blackened r (o_links o) (g_cells s) cells' -> queued r (g_objs s) (o_links o) (g_cells s) ts ->
  g_objs s' = <[a := blacken_obj r o]> (g_objs s) -> g_cells s' = cells' ->
  wf s' /\ same_shape s s' /\ tri (black_of r) s' (Q ++ ts) /\
  (forall x, black (black_of r) s' x <-> black (black_of r) s x \/ x = a).
Proof.
  intros Hw Ht Ho Hh Eh Hbl Hq Eo Ec.
  assert (Hls : forall c, c ∈ o_links o -> link_ok s c) by (intros; by eapply wf_link).
  assert (Hs : same_shape s s') by by eapply mark_shape.
  assert (Hm : ObjMeta.with_marked (o_hdr o) (black_of r) =
    ObjMeta.encode (ObjMeta.mkHdr (black_of r) (ObjMeta.h_tid h) (ObjMeta.h_rc h))).
  { by rewrite Eh, ObjMeta.encode_with_marked. }
  assert (Hblk : forall x, black (black_of r) s' x <-> black (black_of r) s x \/ x = a).
  { intros x. unfold black. rewrite Eo. destruct (decide (x = a)) as [->|Hne].
    - rewrite lookup_insert_eq. split; [by right|]. intros _. eexists. split; [done|].
      unfold blacken_obj, set_o_hdr. cbn [o_hdr]. rewrite Hm. by apply ObjMeta.encode_marked.
    - rewrite lookup_insert_ne by done. naive_solver. }
  assert (Hw' : wf s').
  { eapply mark_wf; [done|done|]. intros x ox. rewrite Eo. destruct (decide (x = a)) as [->|Hne].
    - rewrite lookup_insert_eq. intros [= <-]. eexists. split; [|exact Hm]. done.
    - rewrite lookup_insert_ne by done. apply (wf_hdr _ Hw). }
  split; [done|]. split; [done|]. split; [|done]. destruct Hbl as [Hb1 Hb2]. constructor.
  - intros x ox c p Hox Hbx Hcx [Hc Hp]. rewrite Ec in Hc. destruct (decide (c ∈ o_links o)) as [Hin|Hin].
    + destruct (proj1 (link_ok_holds _ _) (Hls c Hin)) as (q & col & [Hcq Hqq] & _).
      rewrite (Hb2 c q Hin Hcq Hqq) in Hc. injection Hc as Hc. by apply encode_inj in Hc as <-.
    + rewrite (Hb1 c Hin) in Hc. rewrite Eo in Hox. destruct (decide (x = a)) as [->|Hne].
      * rewrite lookup_insert_eq in Hox. injection Hox as <-. done.
      * rewrite lookup_insert_ne in Hox by done. by eapply (tri_links _ _ _ Ht x ox c p).
  - intros c p [Hc Hp] Hpm Hn. rewrite Ec in Hc. rewrite Hblk.
    assert (H0 : forall q, holds_ptr s c q -> ManPtr.p_meta q = Unrooted (black_of r) -> target q = target p ->
      ManPtr.p_addr q <> 0 -> (black (black_of r) s (target p) \/ target p = a) \/ target p ∈ Q ++ ts).
    { intros q Hq' Hqm Etq Hnq. destruct (tri_target _ _ _ Ht c q Hq' Hqm Hnq) as [Hb|Hb].
      - left. left. by rewrite <- Etq.
      - rewrite Etq in Hb. apply elem_of_cons in Hb as [->|Hb]; [by left; right|]. right. apply elem_of_app. by left. }
    destruct (decide (c ∈ o_links o)) as [Hin|Hin].
    + destruct (proj1 (link_ok_holds _ _) (Hls c Hin)) as (q & col & [Hcq Hqq] & Hqm & Hqt).
      rewrite (Hb2 c q Hin Hcq Hqq) in Hc. injection Hc as Hc. apply encode_inj in Hc as <-; [|done|done].
      change (ManPtr.p_addr q <> 0) in Hn. change (target (with_color (black_of r) q)) with (target q) in *.
      destruct (decide (col = black_of r)) as [->|Hcol]; [by apply (H0 q)|].
      destruct (white_target r (g_objs s) q) eqn:Ew.
      * right. apply elem_of_app. right. apply (proj1 Hq c q); try done. congruence.
      * left. left. unfold white_target in Ew. destruct (Hqt Hn) as [oq Hoq]. rewrite Hoq in Ew.
        apply andb_false_iff in Ew as [Ew|Ew]; apply negb_false_iff in Ew.
        -- by apply Z.eqb_eq in Ew.
        -- exists oq. split; [done|]. by apply bool_decide_eq_true in Ew.
    + rewrite (Hb1 c Hin) in Hc. by apply (H0 p).
  - assert (Hd : forall x, is_Some (g_objs s !! x) -> is_Some (g_objs s' !! x)).
    { intros x [ox Hox]. destruct (same_shape_obj _ _ _ _ Hs Hox) as (o' & Ho' & _). by exists o'. }
    intros x [Hx|Hx]%elem_of_app; apply Hd; [apply (tri_queued _ _ _ Ht); by right|].
    destruct (proj1 (proj2 Hq) x Hx) as (c & p & _ & _ & _ & _ & Hwt & ->). unfold white_target in Hwt.
    destruct (g_objs s !! target p) as [op|] eqn:E; [by exists op|]. by rewrite andb_false_r in Hwt.
Qed.

(** ** Draining the mark queues *)
Lemma black_objs B s s' a : g_objs s' = g_objs s -> black B s' a <-> black B s a.
Proof. unfold black. by intros ->. Qed.
Lemma wf_objs s s' : g_objs s' = g_objs s -> g_cells s' = g_cells s -> wf s -> wf s'.
Proof.
  intros Eo Ec [Hh Hl]. constructor; rewrite Eo; [done|]. intros a o c Ho Hc. specialize (Hl a o c Ho Hc).
  apply link_ok_holds in Hl. apply link_ok_holds. unfold holds_ptr in *. by rewrite Eo, Ec.
Qed.
Lemma shape_objs s s' : g_objs s' = g_objs s -> g_cells s' = g_cells s -> same_shape s s'.
Proof. intros Eo Ec. pose proof (same_shape_refl s) as H. unfold same_shape in *. by rewrite Eo, Ec. Qed.
Lemma tri_objs B s s' Q Q' : g_objs s' = g_objs s -> g_cells s' = g_cells s -> Q ≡ₚ Q' -> tri B s Q -> tri B s' Q'.
Proof.
  intros Eo Ec EQ [H1 H2 H3]. constructor; unfold holds_ptr in *; rewrite ?Eo, ?Ec.
  - done.
  - intros c p Hc Hm Hn. rewrite <- EQ, (black_objs B s s' _ Eo). by eapply H2.
  - intros a. rewrite <- EQ. apply H3.
Qed.
Lemma tri_black B s Q a : tri B s (a :: Q) -> black B s a -> tri B s Q.
Proof.
  intros [H1 H2 H3] Ha. constructor; [done| |intros x Hx; apply H3; by right].
  intros c p Hc Hm Hn. destruct (H2 c p Hc Hm Hn) as [Hb|Hb]; [by left|].
  apply elem_of_cons in Hb as [->|Hb]; [by left|by right].
Qed.

(** The work left: the links of the objects still unmarked. *)
Definition links_left (B : Color) (o : obj V) : nat :=
  if decide (ObjMeta.marked (o_hdr o) = B) then 0%nat else length (o_links o).
Definition work (B : Color) (objs : gmap Z (obj V)) : nat :=
  sum_list ((fun x => links_left B x.2) <$> map_to_list objs).
Lemma work_insert B objs a o o' : objs !! a = Some o ->
  (work B (<[a := o']> objs) + links_left B o = work B objs + links_left B o')%nat.
Proof.
  intros Ho. unfold work.
  assert (H : forall o (m : gmap Z (obj V)), m !! a = Some o ->
    sum_list ((fun x => links_left B x.2) <$> map_to_list m) =
    (links_left B o + sum_list ((fun x => links_left B x.2) <$> map_to_list (delete a m)))%nat).
  { intros x m Hx. rewrite <- (map_to_list_delete m a x Hx). done. }
  rewrite (H o' (<[a:=o']> objs)) by apply lookup_insert_eq. rewrite (H o objs Ho), delete_insert_eq. lia.
Qed.

(** One task: the object it names is marked, its unmarked children are queued. *)
Lemma run_task f g s r Q a : local_of s (gd_local g) = Some r -> phase_ok r -> wf s ->
  tri (black_of r) s (a :: Q) -> all_tasks s ≡ₚ Q ->
  exists s', run (task_call (S f) a g) s = Ok (tt, s') /\ wf s' /\ same_shape s s' /\
    tri (black_of r) s' (all_tasks s') /\
    (exists r', local_of s' (gd_local g) = Some r' /\ l_epoch r' = l_epoch r) /\
    length (nodes (g_locals s')) = length (nodes (g_locals s)) /\
    (forall x, black (black_of r) s' x <-> black (black_of r) s x \/ x = a) /\
    (forall x, x ∈ all_tasks s' -> x ∈ all_tasks s \/ edge s a x) /\
    (forall x, x ∈ all_tasks s -> x ∈ all_tasks s') /\
    (work (black_of r) (g_objs s') + length (all_tasks s') <=
     work (black_of r) (g_objs s) + length (all_tasks s))%nat.
Proof.
  intros Hl Hph Hw Ht HQ. destruct (tri_queued _ _ _ Ht a ltac:(by left)) as [o Ho].
  destruct (wf_hdr _ Hw _ _ Ho) as (h & Hh & Eh).
  pose proof (run_obj_mark f a g s r o h Hl Hph Ho Hh Eh (fun c => wf_link _ Hw _ _ c Ho)) as H.
  destruct (is_black r o) eqn:Eb.
  - apply bool_decide_eq_true in Eb. exists s. split; [exact H|].
    assert (Hb : black (black_of r) s a) by by exists o.
    split; [done|]. split; [apply same_shape_refl|].
    split; [eapply tri_objs; [done..|]; by eapply tri_black|].
    split; [by exists r|]. split; [done|]. split; [intros x; split; [by left|by intros [?| ->]]|]. split_and!; auto.
  - apply bool_decide_eq_false in Eb. destruct H as (ts & cells' & s' & E & Htr & Hbl & Hq & _).
    pose proof (traced_cells _ _ _ _ _ _ Htr) as [Ec Eo]. pose proof (traced_tasks _ _ _ _ _ _ Htr) as Ets.
    destruct (mark_tri r s s' Q a o h ts cells' Hw Ht Ho Hh Eh Hbl Hq Eo Ec) as (Hw' & Hs & Ht' & Hblk).
    exists s'. split; [exact E|]. split; [done|]. split; [done|].
    split; [eapply tri_objs; [done..| |exact Ht']; by rewrite Ets, HQ|].
    split; [destruct (traced_local _ _ _ _ _ _ _ Htr Hl) as [n Hn]; by eexists|].
    split; [by eapply traced_length|].
    split; [done|]. split; [|split].
    + intros x. rewrite Ets. intros [Hx|Hx]%elem_of_app; [by left|right].
      destruct (proj1 (proj2 Hq) x Hx) as (c & p & Hc & Hcp & Hp & _ & Hwt & ->).
      exists o, c, p. split_and!; try done. intros E0. unfold white_target in Hwt. by rewrite E0 in Hwt.
    + intros x Hx. rewrite Ets. apply elem_of_app. by left.
    + pose proof (work_insert (black_of r) (g_objs s) a o (blacken_obj r o) Ho) as Hwk. rewrite <- Eo in Hwk.
      destruct Hq as (_ & _ & Hlen). rewrite Ets, length_app. unfold links_left in Hwk.
      rewrite decide_False in Hwk by done. rewrite decide_True in Hwk; [lia|].
      unfold blacken_obj, set_o_hdr. cbn [o_hdr]. rewrite Eh, ObjMeta.encode_with_marked by done.
      by apply ObjMeta.encode_marked.
Qed.

(** The invariant of the drain loop that started in [s]: [s1] has the shape of [s],
    is tri-coloured, and what is marked or queued in it was marked in [s], or is
    reachable there from a queued task. *)
Definition found s (a : Z) : Prop := exists q, q ∈ all_tasks s /\ reach s q a.
Record draining g (r : local) s s1 : Prop := {
  dr_local : exists r1, local_of s1 (gd_local g) = Some r1 /\ l_epoch r1 = l_epoch r;
  dr_len : length (nodes (g_locals s1)) = length (nodes (g_locals s));
  dr_wf : wf s1;
  dr_tri : tri (black_of r) s1 (all_tasks s1);
  dr_shape : same_shape s s1;
  dr_black : forall a, black (black_of r) s1 a -> black (black_of r) s a \/ found s a;
  dr_tasks : forall a, a ∈ all_tasks s1 -> found s a;
  dr_mono : forall a, black (black_of r) s a -> black (black_of r) s1 a;
  dr_todo : forall a, a ∈ all_tasks s -> black (black_of r) s1 a \/ a ∈ all_tasks s1
}.
Lemma black_of_epoch r r1 : l_epoch r1 = l_epoch r -> black_of r1 = black_of r.
Proof. unfold black_of. by intros ->. Qed.

Lemma drain_step f g r s s1 : no_retry -> phase_ok r -> draining g r s s1 ->
  (length (nodes (g_locals s)) < S f)%nat ->
  let body executed := (t <- find_task (S f) (gd_local g) ;
    match t with Some t => task_call (S f) t g ;; Ret (inl true) | None => Ret (inr executed) end)%prog in
  forall executed : bool, exists x s2, run (body executed) s1 = Ok (x, s2) /\ draining g r s s2 /\
    match x with
    | inl _ => (work (black_of r) (g_objs s2) + length (all_tasks s2) <
                work (black_of r) (g_objs s1) + length (all_tasks s1))%nat
    | inr _ => all_tasks s2 = []
    end.
Proof.
  intros Hnr Hph D Hf body executed. destruct (dr_local _ _ _ _ D) as (r1 & Hl & He).
  pose proof (black_of_epoch _ _ He) as HB. assert (Hlen := dr_len _ _ _ _ D).
  unfold body. destruct (run_find_task (S f) (gd_local g) r1 s1 Hnr Hl ltac:(lia))
    as [[E E0]|(t & s2 & E & Hp & Hs)]; rewrite run_bind, E.
  { exists (inr executed), s1. done. }
  destruct (same_tasks_objs _ _ Hs) as [Eo Ec]. destruct (same_tasks_local _ _ _ _ Hs Hl) as [ts Hl2].
  set (r2 := set_l_tasks (fun _ => ts) r1) in *.
  destruct (run_task f g s2 r2 (all_tasks s2) t Hl2) as
    (s3 & E3 & Hw & Hsh & Ht & (r3 & Hl3 & He3) & Hlen3 & Hb & Hin & Hout & Hwk); try done.
  { destruct Hph as [ph Hph]. exists ph. change (phase (l_epoch r1) = Ok ph). by rewrite He. }
  { eapply wf_objs; [done..|]. apply D. }
  { change (black_of r2) with (black_of r1). rewrite HB. eapply tri_objs; [done..|exact Hp|apply D]. }
  change (black_of r2) with (black_of r1) in *. rewrite HB in *. change (l_epoch r2) with (l_epoch r1) in He3.
  assert (Hb2 : forall x, black (black_of r) s2 x <-> black (black_of r) s1 x) by (intros; by apply black_objs).
  assert (Ht1 : found s t) by (apply (dr_tasks _ _ _ _ D); rewrite Hp; by left).
  exists (inl true), s3. rewrite run_bind, E3. split; [done|].
  pose proof (same_shape_trans _ _ _ (dr_shape _ _ _ _ D) (same_shape_trans _ _ _ (shape_objs _ _ Eo Ec) Hsh)) as Hs3.
  split; [constructor; try done|rewrite Eo in Hwk; rewrite Hp; cbn; lia].
  - exists r3. split; [done|congruence].
  - rewrite Hlen3, (same_tasks_length _ _ Hs). exact Hlen.
  - intros a. rewrite Hb, Hb2. intros [Ha| ->]; [by apply (dr_black _ _ _ _ D)|by right].
  - intros a [Ha|Ha]%Hin; [apply (dr_tasks _ _ _ _ D); rewrite Hp; by right|].
    destruct Ht1 as (q & Hq & Hr). exists q. split; [done|]. eapply rtc_r; [exact Hr|].
    apply (same_shape_edge _ _ _ _ Hs3), (same_shape_edge _ _ _ _ Hsh), Ha.
  - intros a Ha. rewrite Hb, Hb2. left. by apply (dr_mono _ _ _ _ D).
  - intros a Ha. rewrite Hb, Hb2. destruct (dr_todo _ _ _ _ D a Ha) as [Ha'|Ha']; [by left; left|].
    rewrite Hp in Ha'. apply elem_of_cons in Ha' as [->|Ha']; [by left; right|]. right. by apply Hout.
Qed.

(** C4. The collector's drain loop, run without interference from a tri-coloured heap,
    returns with every mark queue empty and the heap tri-coloured; it marks exactly
    the objects reachable from the queued tasks, of whichever participant, and
    changes nothing of the heap but colours.  [f] rounds are enough when they exceed
    the tasks plus the links of the unmarked objects. *)
Theorem drain_exact f g r s : no_retry -> local_of s (gd_local g) = Some r -> phase_ok r ->
  wf s -> tri (black_of r) s (all_tasks s) ->
  (length (nodes (g_locals s)) < f)%nat ->
  (work (black_of r) (g_objs s) + length (all_tasks s) < f)%nat ->
  exists b s', run (drain_loop f (gd_local g) g) s = Ok (b, s') /\ all_tasks s' = [] /\
    wf s' /\ tri (black_of r) s' [] /\ same_shape s s' /\
    (forall a, black (black_of r) s' a <-> black (black_of r) s a \/ found s a).
Proof.
  intros Hnr Hl Hph Hw Ht Hf Hwk. destruct f as [|f]; [lia|].
  destruct (loop_variant (fun _ s1 => draining g r s s1) (fun _ s1 => draining g r s s1 /\ all_tasks s1 = [])
    (fun _ s1 => work (black_of r) (g_objs s1) + length (all_tasks s1))%nat
    (fun executed => (t <- find_task (S f) (gd_local g) ;
       match t with Some t => task_call (S f) t g ;; Ret (inl true) | None => Ret (inr executed) end)%prog))
    with (fuel := S f) (l := false) (s := s) as (b & s' & E & D & E0); [| |done|].
  - intros ex s1 D. destruct (drain_step f g r s s1 Hnr Hph D Hf ex) as (x & s2 & E & D2 & Hx).
    exists x, s2. split; [exact E|]. by destruct x.
  - constructor; try done; [by exists r|apply same_shape_refl|by left| |by right].
    intros a Ha. exists a. split; [done|reflexivity].
  - exists b, s'. split; [exact E|]. split; [done|]. split; [apply D|].
    split; [rewrite <- E0; apply D|]. split; [apply D|]. intros a. split; [apply D|].
    intros [Ha|(q & Hq & Hr)]; [by apply (dr_mono _ _ _ _ D)|].
    destruct (dr_todo _ _ _ _ D q Hq) as [Hb|Hb]; [|rewrite E0 in Hb; by apply not_elem_of_nil in Hb].
    apply (same_shape_reach _ _ _ _ (dr_shape _ _ _ _ D)) in Hr.
    destruct (black_reach _ _ _ _ _ (dr_tri _ _ _ _ D) Hb Hr) as [|(x & Hx & _)]; [done|].
    rewrite E0 in Hx. by apply not_elem_of_nil in Hx.
Qed.
End tracing.
