(* ===== verification/Safety.v ===== *)
(** * What the write barriers keep ([src/pointers.rs])

    During a tracing phase a write may remove the only path to an object that the
    collector has not reached yet.  [live] is the set of objects that marking will
    find: the marked ones and those reachable from a queued task or from an object
    with roots.  No write makes it smaller, and every write keeps the tri-colour
    invariant. *)
From S2P Require Import Prelude Prog Epoch Meta Slots Registry State Heap Marking Participant Guards Pointers.
From S2P Require Import Collector Iter Tasks Tracing Barriers.
#[local] Open Scope Z_scope.

Section safety.
Context {EX : Extern} {V : Type}.
Implicit Types (s : gstate V) (p q : ManPtr.ptr).

Definition has_roots s (a : Z) : Prop := exists o, g_objs s !! a = Some o /\ 0 < ObjMeta.root_count (o_hdr o).
Definition grey s (a : Z) : Prop := a ∈ all_tasks s \/ has_roots s a.
Definition live (B : Color) s (a : Z) : Prop := black B s a \/ exists x, grey s x /\ reach s x a.

(** A set that contains the grey and the black objects of [s] and is closed under its
    edges contains what is live. *)
Lemma live_closed B s Q (P : Z -> Prop) : tri B s Q -> Q ≡ₚ all_tasks s ->
  (forall a, black B s a -> P a) -> (forall a, grey s a -> P a) ->
  (forall a b, P a -> edge s a b -> P b) -> forall a, live B s a -> P a.
Proof.
  intros Ht HQ Hb Hg He a [Ha|(x & Hx & Hr)]; [by apply Hb|]. apply Hg in Hx. clear Hb Hg.
  induction Hr; eauto.
Qed.
Lemma live_edge B s a b : tri B s (all_tasks s) -> live B s a -> edge s a b -> live B s b.
Proof.
  intros Ht [Ha|(x & Hx & Hr)] He.
  - destruct (black_edge _ _ _ _ _ Ht Ha He) as [Hb|Hb]; [by left|]. right. exists b. split; [by left|reflexivity].
  - right. exists x. split; [done|]. by eapply rtc_r.
Qed.
Lemma live_task B s a : a ∈ all_tasks s -> live B s a.
Proof. intros Ha. right. exists a. split; [by left|reflexivity]. Qed.

(** Objects with the same links and the same marks. *)
Definition same_marks s s' : Prop := forall a,
  match g_objs s !! a, g_objs s' !! a with
  | Some o, Some o' => o_links o' = o_links o /\ ObjMeta.marked (o_hdr o') = ObjMeta.marked (o_hdr o)
  | None, None => True
  | _, _ => False
  end.
Lemma same_marks_obj s s' a o : same_marks s s' -> g_objs s !! a = Some o -> exists o',
  g_objs s' !! a = Some o' /\ o_links o' = o_links o /\ ObjMeta.marked (o_hdr o') = ObjMeta.marked (o_hdr o).
Proof. intros H Ho. specialize (H a). rewrite Ho in H. destruct (g_objs s' !! a) as [o'|]; [by exists o'|done]. Qed.
Lemma same_marks_sym s s' : same_marks s s' -> same_marks s' s.
Proof.
  intros H a. specialize (H a). destruct (g_objs s !! a), (g_objs s' !! a); try done. by destruct H as [-> ->].
Qed.
Lemma same_marks_black B s s' a : same_marks s s' -> black B s a <-> black B s' a.
Proof.
  intros H. split; intros (o & Ho & Hm).
  - destruct (same_marks_obj _ _ _ _ H Ho) as (o' & Ho' & _ & E). exists o'. by rewrite E.
  - destruct (same_marks_obj _ _ _ _ (same_marks_sym _ _ H) Ho) as (o' & Ho' & _ & E). exists o'. by rewrite E.
Qed.

Lemma to_push_black r s q a : black (black_of r) s a \/ a ∈ to_push r (g_objs s) q <->
  black (black_of r) s a \/ (white_target r (g_objs s) q = true /\ a = target q).
Proof. by rewrite to_push_elem. Qed.
Lemma points_black_or_pushed r s q : points s q -> ManPtr.p_addr q <> 0 ->
  black (black_of r) s (target q) \/ target q ∈ to_push r (g_objs s) q.
Proof.
  intros [_ Hq] Hn. destruct (Hq Hn) as [o Ho]. rewrite to_push_elem. unfold white_target. rewrite Ho.
  destruct (Z.eqb_spec (ManPtr.p_addr q) 0); [done|]. destruct (is_black r o) eqn:Eb; [left|by right].
  exists o. split; [done|]. by apply bool_decide_eq_true in Eb.
Qed.
Lemma to_push_live r s q a : a ∈ to_push r (g_objs s) q -> is_Some (g_objs s !! a).
Proof.
  rewrite to_push_elem. intros [Hw ->]. unfold white_target in Hw.
  destruct (g_objs s !! target q) as [o|]; [by exists o|]. by rewrite andb_false_r in Hw.
Qed.
Lemma target_inj p q : target p = target q -> ManPtr.p_addr p = ManPtr.p_addr q.
Proof. intros E. pose proof (target_eqb p q) as H. rewrite E, Z.eqb_refl in H. symmetry in H. by apply Z.eqb_eq in H. Qed.

(** ** A write to a link of a managed object *)
Section write.
Context (g : guard) (r : local) (s s' : gstate V) (c : cell) (p q : ManPtr.ptr) (col : Color) (gph : Phase).
Context (Hgph : gph <> N) (Hw : wf s) (Ht : tri (black_of r) s (all_tasks s)).
Context (Hc : holds_ptr s c p) (Hpp : points s p) (Hpq : points s q) (Hm : ManPtr.p_meta p = Unrooted col).
Context (Htr : traced g (barrier r gph (g_objs s) col p q)
  (<[c := ManPtr.encode (Marking.with_color col q)]> (g_cells s)) (g_objs s) s s').

Lemma write_objs : g_objs s' = g_objs s.
Proof using Htr. by destruct (traced_cells _ _ _ _ _ _ Htr). Qed.
Lemma write_marks : same_marks s s'.
Proof using Htr. intros a. rewrite write_objs. by destruct (g_objs s !! a). Qed.
Lemma write_tasks : all_tasks s' ≡ₚ all_tasks s ++ barrier r gph (g_objs s) col p q.
Proof using Htr. by eapply traced_tasks. Qed.
Lemma write_here : holds_ptr s' c (Marking.with_color col q).
Proof using Htr Hpq.
  destruct (traced_cells _ _ _ _ _ _ Htr) as [Ec _]. split; [by rewrite Ec, lookup_insert_eq|].
  apply with_color_ok, Hpq.
Qed.
Lemma write_other c' x : c' <> c -> holds_ptr s' c' x <-> holds_ptr s c' x.
Proof using Htr.
  intros Hne. destruct (traced_cells _ _ _ _ _ _ Htr) as [Ec _]. unfold holds_ptr.
  by rewrite Ec, lookup_insert_ne.
Qed.
(** The new pointee of a black link is marked or queued. *)
Lemma write_new : col = black_of r -> ManPtr.p_addr q <> 0 ->
  black (black_of r) s (target q) \/ target q ∈ all_tasks s'.
Proof using Htr Ht Hc Hpq Hm.
  intros Hcol Hn. rewrite write_tasks, elem_of_app. unfold barrier.
  destruct (Z.eqb_spec (target p) (target q)) as [E|_].
  - apply target_inj in E as Ea. rewrite <- E. rewrite <- Ea in Hn.
    destruct (tri_target _ _ _ Ht c p Hc) as [Hb|Hb]; [congruence|done|by left|by right; left].
  - rewrite decide_True by done. destruct (points_black_or_pushed r s q Hpq Hn); auto.
Qed.
(** The old pointee, when the link no longer leads to it. *)
Lemma write_old : target p <> target q -> ManPtr.p_addr p <> 0 ->
  black (black_of r) s (target p) \/ target p ∈ all_tasks s'.
Proof using Htr Ht Hc Hpp Hm Hgph.
  intros Hne Hn. rewrite write_tasks, elem_of_app. unfold barrier. rewrite (proj2 (Z.eqb_neq _ _) Hne).
  destruct (decide (col = black_of r)) as [Hcol|_].
  - destruct (tri_target _ _ _ Ht c p Hc) as [Hb|Hb]; [congruence|done|by left|by right; left].
  - rewrite decide_False by done. destruct (points_black_or_pushed r s p Hpp Hn); auto.
Qed.

Lemma write_tri : tri (black_of r) s' (all_tasks s').
Proof using Htr Ht Hc Hpq Hm.
  constructor.
  - intros a o c' x Ho Hb Hin Hx. rewrite write_objs in Ho. destruct (decide (c' = c)) as [->|Hne].
    + rewrite (holds_inj _ _ _ _ Hx write_here). cbn.
      pose proof (tri_links _ _ _ Ht a o c p Ho Hb Hin Hc) as E. congruence.
    + apply write_other in Hx; [|done]. by eapply (tri_links _ _ _ Ht).
  - intros c' x Hx Hxm Hn. rewrite <- (same_marks_black _ _ _ _ write_marks). destruct (decide (c' = c)) as [->|Hne].
    + pose proof (holds_inj _ _ _ _ Hx write_here) as ->. apply write_new; [|done]. by injection Hxm.
    + apply write_other in Hx; [|done]. rewrite write_tasks, elem_of_app.
      destruct (tri_target _ _ _ Ht c' x Hx Hxm Hn); auto.
  - intros a. rewrite write_objs, write_tasks. intros [Ha|Ha]%elem_of_app; [by apply (tri_queued _ _ _ Ht)|].
    unfold barrier in Ha. destruct (target p =? target q); [by apply not_elem_of_nil in Ha|].
    destruct (decide (col = black_of r)); [by eapply to_push_live|].
    destruct (decide (gph = N)); [by apply not_elem_of_nil in Ha|by eapply to_push_live].
Qed.
Lemma write_wf : wf s'.
Proof using Htr Hw Hpq.
  constructor; rewrite write_objs; [apply Hw|]. intros a o c' Ho Hin. apply link_ok_holds.
  destruct (decide (c' = c)) as [->|Hne].
  - exists (Marking.with_color col q), col. split; [apply write_here|]. split; [done|]. rewrite write_objs. apply Hpq.
  - destruct (proj1 (link_ok_holds _ _) (wf_link _ Hw a o c' Ho Hin)) as (x & col' & Hx & Hxm & Hxt).
    exists x, col'. rewrite write_objs. split; [by apply write_other|done].
Qed.
Lemma write_live a : live (black_of r) s a -> live (black_of r) s' a.
Proof using Htr Hw Ht Hc Hpp Hpq Hm Hgph.
  assert (Hbl : forall x, black (black_of r) s x \/ x ∈ all_tasks s' -> live (black_of r) s' x).
  { intros x [Hx|Hx]; [left; by apply (same_marks_black _ _ _ _ write_marks)|by apply live_task]. }
  apply (live_closed _ _ _ _ Ht (Permutation_refl _)); [by intros; apply Hbl; left| |].
  - intros x [Hx|Hx]; [apply live_task; rewrite write_tasks; apply elem_of_app; by left|].
    right. exists x. split; [right|reflexivity]. unfold has_roots. by rewrite write_objs.
  - intros x y Hx (o & c' & z & Ho & Hin & Hz & Hn & ->). destruct (decide (c' = c)) as [->|Hne].
    + pose proof (holds_inj _ _ _ _ Hz Hc) as ->. destruct (decide (target p = target q)) as [E|E].
      * apply (live_edge _ _ x); [apply write_tri|done|]. exists o, c, (Marking.with_color col q).
        rewrite write_objs. split_and!; [done|done|apply write_here| |exact E]. cbn.
        by rewrite <- (target_inj _ _ E).
      * by apply Hbl, write_old.
    + apply (live_edge _ _ x); [apply write_tri|done|]. exists o, c', z. rewrite write_objs.
      split_and!; try done. by apply write_other.
Qed.
End write.

(** C5. Swapping a link of a managed object in a tracing phase: the call returns, the
    tri-colour invariant holds after it, and every object that marking would have
    found before is still found. *)
Theorem swap_keeps_live f c p q col g s r gph : gph <> N ->
  local_of s (gd_local g) = Some r -> phase_ok r -> phase (g_epoch s) = Ok gph ->
  wf s -> tri (black_of r) s (all_tasks s) ->
  holds_ptr s c p -> ManPtr.p_meta p = Unrooted col -> points s p -> points s q ->
  exists s', run (internal_swap (S f) c (ManPtr.encode q) g) s = Ok (ManPtr.encode p, s') /\
    wf s' /\ tri (black_of r) s' (all_tasks s') /\
    forall a, live (black_of r) s a -> live (black_of r) s' a.
Proof.
  intros Hgph Hl Hph Hg Hw Ht Hc Hm Hpp Hpq. pose proof Hc as [Hc' _].
  destruct (run_swap_unrooted f c p q col g s r gph Hl Hph Hg Hc' Hpp Hpq Hm) as (s' & E & Htr).
  exists s'. split; [done|]. split; [by eapply write_wf|]. split; [by eapply write_tri|].
  intros a. by eapply write_live.
Qed.

(** ** A write to a rooted link *)
Definition hdrs_ok (objs : gmap Z (obj V)) : Prop :=
  forall a o, objs !! a = Some o -> exists h, ObjMeta.hdr_ok h /\ o_hdr o = ObjMeta.encode h.
Definition marks_eq (o o' : obj V) : Prop :=
  o_links o' = o_links o /\ ObjMeta.marked (o_hdr o') = ObjMeta.marked (o_hdr o).

(** Moving a root count within its range keeps headers, links and marks. *)
Lemma add_rc_obj d a (objs : gmap Z (obj V)) x o : hdrs_ok objs -> rc_ok objs a (fun n => 0 <= n + d < 2 ^ 55) ->
  objs !! x = Some o -> exists o', add_rc d a objs !! x = Some o' /\ marks_eq o o' /\
    ObjMeta.root_count (o_hdr o') = ObjMeta.root_count (o_hdr o) + (if decide (x = a) then d else 0) /\
    exists h, ObjMeta.hdr_ok h /\ o_hdr o' = ObjMeta.encode h.
Proof.
  intros Hh Hrc Ho. unfold add_rc. destruct (decide (x = a)) as [->|Hne].
  - rewrite lookup_alter_eq, Ho. eexists. split; [reflexivity|]. destruct (Hrc o Ho) as (h & [Ht Hr] & Eh & Hd).
    set (h' := ObjMeta.mkHdr (ObjMeta.h_color h) (ObjMeta.h_tid h) (ObjMeta.h_rc h + d)).
    assert (Hh' : ObjMeta.hdr_ok h') by done. assert (E : o_hdr o + d = ObjMeta.encode h') by (rewrite Eh; apply encode_add).
    unfold marks_eq, set_o_hdr. cbn [o_hdr o_links]. rewrite E, Eh, !ObjMeta.encode_marked, !ObjMeta.encode_root_count by done.
    split; [done|]. split; [done|]. by exists h'.
  - rewrite lookup_alter_ne by done. exists o. rewrite Z.add_0_r. split_and!; try done. by eapply Hh.
Qed.
Lemma add_rc_hdrs d a (objs : gmap Z (obj V)) : hdrs_ok objs -> rc_ok objs a (fun n => 0 <= n + d < 2 ^ 55) ->
  hdrs_ok (add_rc d a objs).
Proof.
  intros Hh Hrc x o' Ho'. assert (is_Some (objs !! x)) as [o Ho] by (eapply add_rc_is_Some; eauto).
  destruct (add_rc_obj d a objs x o Hh Hrc Ho) as (o2 & Ho2 & _ & _ & H). rewrite Ho' in Ho2. by injection Ho2 as <-.
Qed.
Lemma rc_ok_mono objs a (P P' : Z -> Prop) : (forall n, 0 <= n < 2 ^ 55 -> P n -> P' n) -> rc_ok (V := V) objs a P -> rc_ok objs a P'.
Proof.
  intros H Hrc o Ho. destruct (Hrc o Ho) as (h & Hh & Eh & HP). exists h. split; [done|]. split; [done|].
  apply H; [apply Hh|done].
Qed.

Section write_rooted.
Context (g : guard) (r : local) (s s' : gstate V) (c : cell) (p q : ManPtr.ptr) (gph : Phase).
Context (Hgph : gph <> N) (Hw : wf s) (Ht : tri (black_of r) s (all_tasks s)).
Context (Hc : holds_ptr s c p) (Hpp : points s p) (Hpq : points s q) (Hm : ManPtr.p_meta p = Rooted).
Let objs1 := add_rc 1 (target q) (g_objs s).
Context (Hrq : rc_ok (g_objs s) (target q) (fun n => n + 1 < 2 ^ 55)).
Context (Hrp : rc_ok objs1 (target p) (fun n => 0 < n)).
Context (Htr : traced g (root_barrier r gph objs1 p) (<[c := ManPtr.encode (rooted q)]> (g_cells s))
  (add_rc (-1) (target p) objs1) s s').

Lemma rooted_obj x o : g_objs s !! x = Some o -> exists o1 o',
  objs1 !! x = Some o1 /\ g_objs s' !! x = Some o' /\ marks_eq o o1 /\ marks_eq o o' /\
  ObjMeta.root_count (o_hdr o) <= ObjMeta.root_count (o_hdr o1) /\
  ObjMeta.root_count (o_hdr o') = ObjMeta.root_count (o_hdr o1) - (if decide (x = target p) then 1 else 0) /\
  exists h, ObjMeta.hdr_ok h /\ o_hdr o' = ObjMeta.encode h.
Proof using Htr Hw Hrq Hrp.
  intros Ho. destruct (traced_cells _ _ _ _ _ _ Htr) as [_ Eo].
  assert (H1 : rc_ok (g_objs s) (target q) (fun n => 0 <= n + 1 < 2 ^ 55)) by (eapply rc_ok_mono; [|exact Hrq]; cbn; lia).
  destruct (add_rc_obj 1 (target q) _ x o (wf_hdr _ Hw) H1 Ho) as (o1 & Ho1 & M1 & R1 & _).
  assert (Hh1 : hdrs_ok objs1) by exact (add_rc_hdrs _ _ _ (wf_hdr _ Hw) H1).
  assert (H2 : rc_ok objs1 (target p) (fun n => 0 <= n + -1 < 2 ^ 55)) by (eapply rc_ok_mono; [|exact Hrp]; cbn; lia).
  destruct (add_rc_obj (-1) (target p) objs1 x o1 Hh1 H2 Ho1) as (o' & Ho' & [L2 M2] & R2 & Hh).
  exists o1, o'. rewrite Eo. split_and!; try done.
  - destruct M1 as [L1 M1]. split; congruence.
  - rewrite R1. destruct (decide (x = target q)); lia.
  - rewrite R2. destruct (decide (x = target p)); lia.
Qed.
Lemma rooted_marks : same_marks s s'.
Proof using Htr Hw Hrq Hrp.
  intros a. destruct (g_objs s !! a) as [o|] eqn:Ho.
  - destruct (rooted_obj a o Ho) as (o1 & o' & _ & -> & _ & M & _). exact M.
  - destruct (traced_cells _ _ _ _ _ _ Htr) as [_ ->]. unfold objs1. 
    destruct (add_rc (-1) (target p) _ !! a) as [o|] eqn:E; [|done].
    assert (is_Some (g_objs s !! a)) as [o' Ho']; [|congruence].
    apply (add_rc_is_Some 1 (target q)), (add_rc_is_Some (-1) (target p)). by exists o.
Qed.
Lemma rooted_not_link a o c' : g_objs s !! a = Some o -> c' ∈ o_links o -> c' <> c.
Proof using Hw Hc Hm.
  intros Ho Hin ->. destruct (proj1 (link_ok_holds _ _) (wf_link _ Hw a o c Ho Hin)) as (x & col & Hx & Hxm & _).
  rewrite (holds_inj _ _ _ _ Hx Hc) in Hxm. congruence.
Qed.
Lemma rooted_other c' x : c' <> c -> holds_ptr s' c' x <-> holds_ptr s c' x.
Proof using Htr.
  intros Hne. destruct (traced_cells _ _ _ _ _ _ Htr) as [Ec _]. unfold holds_ptr. by rewrite Ec, lookup_insert_ne.
Qed.
Lemma rooted_tasks : all_tasks s' ≡ₚ all_tasks s ++ root_barrier r gph objs1 p.
Proof using Htr. by eapply traced_tasks. Qed.
Lemma rooted_mem a : is_Some (g_objs s !! a) <-> is_Some (g_objs s' !! a).
Proof using Htr. destruct (traced_cells _ _ _ _ _ _ Htr) as [_ ->]. unfold objs1. by rewrite !add_rc_is_Some. Qed.
Lemma rooted_back a o' : g_objs s' !! a = Some o' -> exists o, g_objs s !! a = Some o /\ marks_eq o o'.
Proof using Htr Hw Hrq Hrp.
  intros Ho'. destruct (same_marks_obj _ _ _ _ (same_marks_sym _ _ rooted_marks) Ho') as (o & Ho & E1 & E2).
  exists o. split; [done|]. split; congruence.
Qed.

Lemma rooted_tri : tri (black_of r) s' (all_tasks s').
Proof using Htr Hw Ht Hc Hpq Hm Hrq Hrp.
  constructor.
  - intros a o' c' x Ho' Hb Hin Hx. destruct (rooted_back _ _ Ho') as (o & Ho & El & Em). rewrite El in Hin.
    apply rooted_other in Hx; [|by eapply rooted_not_link]. apply (tri_links _ _ _ Ht a o c' x); congruence.
  - intros c' x Hx Hxm Hn. rewrite <- (same_marks_black _ _ _ _ rooted_marks). destruct (decide (c' = c)) as [->|Hne].
    + assert (Hh : holds_ptr s' c (rooted q)).
      { destruct (traced_cells _ _ _ _ _ _ Htr) as [Ec _]. split; [by rewrite Ec, lookup_insert_eq|apply Hpq]. }
      by rewrite (holds_inj _ _ _ _ Hx Hh) in Hxm.
    + apply rooted_other in Hx; [|done]. rewrite rooted_tasks, elem_of_app.
      destruct (tri_target _ _ _ Ht c' x Hx Hxm Hn); auto.
  - intros a. rewrite rooted_tasks, <- rooted_mem. intros [Ha|Ha]%elem_of_app; [by apply (tri_queued _ _ _ Ht)|].
    unfold root_barrier in Ha. destruct (last_root objs1 p); [|by apply not_elem_of_nil in Ha].
    destruct (decide (gph = N)); [by apply not_elem_of_nil in Ha|].
    apply to_push_elem in Ha as [Hwt ->]. unfold white_target in Hwt.
    destruct (add_rc (-1) (target p) objs1 !! target p) as [o|] eqn:E; [|by rewrite andb_false_r in Hwt].
    apply (add_rc_is_Some 1 (target q)), (add_rc_is_Some (-1) (target p)). by exists o.
Qed.
Lemma rooted_wf : wf s'.
Proof using Htr Hw Hc Hm Hrq Hrp.
  constructor.
  - intros a o' Ho'. destruct (rooted_back _ _ Ho') as (o & Ho & _).
    destruct (rooted_obj a o Ho) as (o1 & o2 & _ & Ho2 & _ & _ & _ & _ & H). rewrite Ho' in Ho2. by injection Ho2 as <-.
  - intros a o' c' Ho' Hin. destruct (rooted_back _ _ Ho') as (o & Ho & El & _). rewrite El in Hin. apply link_ok_holds.
    destruct (proj1 (link_ok_holds _ _) (wf_link _ Hw a o c' Ho Hin)) as (x & col' & Hx & Hxm & Hxt).
    exists x, col'. rewrite <- rooted_mem. split; [by apply rooted_other; [eapply rooted_not_link|]|done].
Qed.
(** The object that loses a root keeps one, or is marked, or is queued. *)
Lemma rooted_old o : g_objs s !! target p = Some o -> ManPtr.p_addr p <> 0 -> live (black_of r) s' (target p).
Proof using Htr Hw Hgph Hrq Hrp.
  intros Ho Hn. destruct (rooted_obj _ o Ho) as (o1 & o' & Ho1 & Ho' & M1 & M' & Hle & R & _).
  rewrite decide_True in R by done. destruct (Hrp o1 Ho1) as (h & Hh & Eh & Hpos).
  assert (Hrc : 0 < ObjMeta.root_count (o_hdr o1)) by (rewrite Eh, ObjMeta.encode_root_count by done; exact Hpos).
  destruct (last_root objs1 p) eqn:El.
  - destruct (is_black r o') eqn:Eb.
    + left. exists o'. split; [done|]. by apply bool_decide_eq_true in Eb.
    + apply live_task. rewrite rooted_tasks. apply elem_of_app. right. unfold root_barrier.
      rewrite El, decide_False by done. apply to_push_elem. split; [|done]. unfold white_target.
      destruct (traced_cells _ _ _ _ _ _ Htr) as [_ Eo]. rewrite Eo in Ho'. rewrite Ho', Eb.
      by destruct (Z.eqb_spec (ManPtr.p_addr p) 0).
  - right. exists (target p). split; [|reflexivity]. right. exists o'. split; [done|]. rewrite R.
    unfold last_root in El. rewrite Ho1 in El. apply Z.eqb_neq in El. lia.
Qed.
Lemma rooted_live a : null_free (g_objs s) -> live (black_of r) s a -> live (black_of r) s' a.
Proof using Htr Hw Ht Hc Hpq Hm Hgph Hrq Hrp.
  intros Hnull. apply (live_closed _ _ _ _ Ht (Permutation_refl _)).
  - intros x Hx. left. by apply (same_marks_black _ _ _ _ rooted_marks).
  - intros x [Hx|(o & Ho & Hr)]; [apply live_task; rewrite rooted_tasks; apply elem_of_app; by left|].
    destruct (decide (x = target p)) as [->|Hne].
    + destruct (decide (ManPtr.p_addr p = 0)) as [E|E]; [|by eapply rooted_old].
      rewrite (target_null _ E) in Ho. unfold null_free in Hnull. congruence.
    + destruct (rooted_obj _ o Ho) as (o1 & o' & _ & Ho' & _ & _ & Hle & R & _).
      rewrite decide_False in R by done. right. exists x. split; [right; exists o'; split; [done|lia]|reflexivity].
  - intros x y Hx (o & c' & z & Ho & Hin & Hz & Hn & ->).
    destruct (rooted_obj _ o Ho) as (o1 & o' & _ & Ho' & _ & [El _] & _).
    apply (live_edge _ _ x); [apply rooted_tri|done|]. exists o', c', z. rewrite El. split_and!; try done.
    apply rooted_other; [by eapply rooted_not_link|done].
Qed.
End write_rooted.

(** C7. Swapping a link that the program owns in a tracing phase, with the same
    conclusion. *)
Theorem swap_rooted_keeps_live f c p q g s r gph : gph <> N ->
  local_of s (gd_local g) = Some r -> phase_ok r -> phase (g_epoch s) = Ok gph ->
  wf s -> tri (black_of r) s (all_tasks s) -> null_free (g_objs s) ->
  holds_ptr s c p -> ManPtr.p_meta p = Rooted -> points s p -> points s q ->
  rc_ok (g_objs s) (target q) (fun n => n + 1 < 2 ^ 55) ->
  rc_ok (add_rc 1 (target q) (g_objs s)) (target p) (fun n => 0 < n) ->
  exists s', run (internal_swap (S f) c (ManPtr.encode q) g) s = Ok (ManPtr.encode p, s') /\
    wf s' /\ tri (black_of r) s' (all_tasks s') /\
    forall a, live (black_of r) s a -> live (black_of r) s' a.
Proof.
  intros Hgph Hl Hph Hg Hw Ht Hnull Hc Hm Hpp Hpq Hrq Hrp. pose proof Hc as [Hc' _].
  destruct (run_swap_rooted f c p q g s r gph Hl Hph Hg Hc' Hpp Hpq Hm Hnull Hrq Hrp) as (s' & E & Htr).
  exists s'. split; [done|]. split; [by eapply rooted_wf|]. split; [by eapply rooted_tri|].
  intros a. by eapply rooted_live.
Qed.
End safety.
