(* ===== verification/Completion.v ===== *)
(** * Detecting that tracing is done ([src/collector.rs], [try_confirm_completion])

    The collector decides that no mark task is left by reading, one participant at a
    time and while mutators run, their modification stamps, their mark queues, and
    the stamps again.  A mutator records the current timestamp before it touches its
    queue ([record_mt_modification]).  Under that discipline a positive answer is
    right: at the moment the second reading of the stamps began, every mark queue of
    every participant was empty and nobody was at work on one. *)
From S2P Require Import Prelude Prog Epoch Meta Slots Registry State Heap Marking Participant Guards Collector Iter Tasks.
#[local] Open Scope Z_scope.
#[local] Open Scope prog_scope.

Section completion.
Context {EX : Extern} {V : Type} (T : Z).
Implicit Types (s : gstate V).

Definition len s : nat := length (nodes (g_locals s)).
(** Nothing queued, nobody at work since the epoch with timestamp [T] began. *)
Definition quiescent s : bool :=
  forallb (fun nd => bool_decide (l_tasks (n_item nd) = []) && negb (l_mt_modified_ts (n_item nd) =? T))
    (nodes (g_locals s)).

(** ** What mutators do to the participants' records while the collector looks *)
Definition stamped (r r' : local) : Prop :=
  (l_mt_modified_ts r = T -> l_mt_modified_ts r' = T) /\ (l_tasks r' = l_tasks r \/ l_mt_modified_ts r' = T).
Definition fresh_ok (r' : local) : Prop := l_tasks r' = [] \/ l_mt_modified_ts r' = T.
Definition disciplined s s' : Prop :=
  g_epoch s' = g_epoch s /\
  forall k, match local_of s k, local_of s' k with
            | Some r, Some r' => stamped r r'
            | None, Some r' => fresh_ok r'
            | None, None => True
            | Some _, None => False
            end.

Lemma stamped_trans r1 r2 r3 : stamped r1 r2 -> stamped r2 r3 -> stamped r1 r3.
Proof.
  intros [A1 B1] [A2 B2]. split; [tauto|]. destruct B1, B2; [left; congruence|right; tauto..].
Qed.
#[global] Instance disciplined_preorder : PreOrder disciplined.
Proof.
  split.
  - intros s. split; [done|]. intros k. destruct (local_of s k); [split; auto|done].
  - intros s1 s2 s3 [E1 H1] [E2 H2]. split; [congruence|]. intros k. specialize (H1 k). specialize (H2 k).
    destruct (local_of s1 k), (local_of s2 k), (local_of s3 k); try done; [by eapply stamped_trans|].
    destruct H1 as [H1|H1], H2 as [A [B|B]]; [left; congruence|right; tauto..].
Qed.
Lemma local_of_len s k : (k < len s)%nat <-> exists r, local_of s k = Some r.
Proof.
  unfold local_of, len. rewrite <- lookup_lt_is_Some. split; [intros [nd ->]; by eexists|].
  intros [r (nd & -> & _)%fmap_Some]. by eexists.
Qed.
Lemma disciplined_local s s' k r : disciplined s s' -> local_of s k = Some r ->
  exists r', local_of s' k = Some r' /\ stamped r r'.
Proof. intros [_ H] Hk. specialize (H k). rewrite Hk in H. destruct (local_of s' k) as [r'|]; [by exists r'|done]. Qed.
Lemma disciplined_len s s' : disciplined s s' -> (len s <= len s')%nat.
Proof.
  intros H. destruct (Nat.le_gt_cases (len s) (len s')) as [|Hlt]; [done|].
  apply local_of_len in Hlt as [r Hr]. destruct (disciplined_local _ _ _ _ H Hr) as (r' & Hr' & _).
  assert (len s' < len s')%nat by (apply local_of_len; eauto). lia.
Qed.

(** ** One scan of the participants, under interference

    [ev] is the event of its first step; [Fact k] is what the scan learns at position
    [k] when the condition is false there. *)
Lemma any_local_wp (G : option bool -> gstate V -> gstate V -> Prop) f (p : local -> bool) tr
    (Q : bool -> list bool -> gstate V -> Prop) s (ev : gstate V -> option bool) :
  (forall s1, disciplined s s1 -> G None s1 s1) ->
  (forall s1, disciplined s s1 -> G (ev s1) s1 s1 /\ exists Fact : nat -> gstate V -> Prop,
     (forall k s2 r, disciplined s1 s2 -> local_of s2 k = Some r -> p r = false -> Fact k s2) /\
     (forall k s2 s3, disciplined s1 s2 -> disciplined s2 s3 -> Fact k s2 -> Fact k s3) /\
     (forall s2, disciplined s1 s2 -> Q true (tr ++ option_list (ev s1)) s2) /\
     (forall s2, disciplined s1 s2 -> (forall k, (k < len s1)%nat -> Fact k s2) ->
        Q false (tr ++ option_list (ev s1)) s2)) ->
  wp disciplined G (any_local f p) tr Q s.
Proof.
  intros HN Hev. unfold any_local, any_slot. apply wp_bind; [apply _|]. unfold iter_slots.
  apply wp_bind; [apply _|]. cbn. intros s1 Hs1. destruct (Hev s1 Hs1) as (HG & Fact & Hf & Hst & Ht & Hfa).
  exists (ev s1). split; [by replace (set_g_locals (fun _ => g_locals s1) s1) with s1 by by destruct s1|].
  replace (set_g_locals (fun _ => g_locals s1) s1) with s1 by by destruct s1.
  set (tr1 := tr ++ option_list (ev s1)) in *.
  set (I := fun (x : option nat * unit) (tr' : list bool) s2 =>
    tr' = tr1 /\ disciplined s1 s2 /\
    match x.1 with
    | Some k => (k < len s2)%nat /\ forall k', (k' < k)%nat -> Fact k' s2
    | None => forall k', (k' < len s1)%nat -> Fact k' s2
    end).
  intros s1' H1'. apply (wp_loop disciplined G I).
  - intros [curr []] tr' s2 (-> & H12 & Hc). cbn [fst] in Hc. apply wp_bind; [apply _|].
    destruct f as [|f']; [done|]. destruct curr as [k|]; cbn.
    + intros s3 H23. exists None.
      replace (set_g_locals (fun _ => g_locals s3) s3) with s3 by by destruct s3.
      assert (H13 : disciplined s1 s3) by (by transitivity s2).
      split; [apply HN; by transitivity s1|]. rewrite app_nil_r. intros s3' H3'. cbn. intros s4 H34.
      assert (H34' : disciplined s3 s4) by (by transitivity s3').
      assert (H14 : disciplined s1 s4) by (by transitivity s3).
      destruct Hc as [Hk Hc]. pose proof (disciplined_len _ _ H23). pose proof (disciplined_len _ _ H34').
      destruct (proj1 (local_of_len s4 k) ltac:(lia)) as [r Hr]. pose proof Hr as (nd & Hnd & Er)%fmap_Some.
      rewrite Hnd, <- Er. exists None. split; [apply HN; by transitivity s1|]. rewrite app_nil_r.
      destruct (p r) eqn:Ep.
      { intros s5 H45 s6 H56 s7 H67. apply Ht. transitivity s4; [done|]. transitivity s5; [done|]. by transitivity s6. }
      intros s5 H45. assert (H15 : disciplined s1 s5) by (by transitivity s4).
      assert (Hall : forall k', (k' < S k)%nat -> Fact k' s5).
      { intros k' Hk'. apply (Hst k' s4 s5 H14 H45). destruct (decide (k' = k)) as [->|]; [by eapply Hf|].
        apply (Hst k' s2 s4 H12); [by transitivity s3|]. apply Hc. lia. }
      assert (HI : forall next, next = (if (S k <? len s3)%nat then Some (S k) else None) -> I (next, tt) tr1 s5).
      { intros next ->. split; [done|]. split; [done|]. cbn [fst]. pose proof (disciplined_len _ _ H45).
        destruct (Nat.ltb_spec (S k) (len s3)); [split; [lia|done]|]. intros k' Hk'. apply Hall.
        pose proof (disciplined_len _ _ H13). lia. }
      by apply HI.
    + intros s3 H23. cbn. intros s4 H34 s5 H45 s6 H56. apply Hfa.
      * transitivity s2; [done|]. transitivity s3; [done|]. transitivity s4; [done|]. by transitivity s5.
      * intros k Hk. apply (Hst k s2 s6 H12); [|by apply Hc].
        transitivity s3; [done|]. transitivity s4; [done|]. by transitivity s5.
  - split; [done|]. split; [done|]. cbn [fst]. change (length (nodes (g_locals s1))) with (len s1).
    pose proof (disciplined_len _ _ H1'). destruct (len s1) as [|n] eqn:E; [intros k' Hk'; lia|].
    split; [lia|]. intros k' Hk'. lia.
Qed.

(** ** The collector's side *)
Definition looks (o : option bool) s s' : Prop :=
  s' = s /\ match o with Some b => b = quiescent s | None => True end.
Definition all_fresh s : Prop := forall k r, local_of s k = Some r -> fresh_ok r.
Lemma all_fresh_stable s s' : disciplined s s' -> all_fresh s -> all_fresh s'.
Proof.
  intros [_ H] Hs k r' Hr'. specialize (H k). rewrite Hr' in H. destruct (local_of s k) as [r|] eqn:E; [|done].
  destruct H as [Ha [Hb|Hb]]; [|by right]. destruct (Hs k r E) as [Hx|Hx]; [left; congruence|right; auto].
Qed.
Lemma quiescent_spec s : quiescent s = true <->
  forall k r, local_of s k = Some r -> l_tasks r = [] /\ l_mt_modified_ts r <> T.
Proof.
  unfold quiescent. rewrite forallb_forall. split.
  - intros H k r (nd & Hnd & ->)%fmap_Some. specialize (H nd ltac:(by eapply list_elem_of_In, list_elem_of_lookup_2)).
    apply andb_true_iff in H as [H1 H2]. apply bool_decide_eq_true in H1. apply negb_true_iff, Z.eqb_neq in H2. done.
  - intros H nd Hnd%list_elem_of_In. apply list_elem_of_lookup in Hnd as [k Hk].
    destruct (H k (n_item nd)) as [H1 H2]; [unfold local_of; by rewrite Hk|].
    apply andb_true_iff. split; [by apply bool_decide_eq_true|]. by apply negb_true_iff, Z.eqb_neq.
Qed.
(** What the first two scans establish, and what the third one concludes from it. *)
Lemma scanned_fresh s1 s2 : disciplined s1 s2 ->
  (forall k, (k < len s1)%nat -> forall r, local_of s2 k = Some r -> fresh_ok r) -> all_fresh s2.
Proof.
  intros [_ H] Hk k r Hr. destruct (Nat.lt_ge_cases k (len s1)) as [Hlt|Hge]; [by eapply Hk|].
  specialize (H k). rewrite Hr in H. destruct (local_of s1 k) as [r1|] eqn:E; [|done].
  assert (k < len s1)%nat by (apply local_of_len; eauto). lia.
Qed.
Lemma fresh_quiescent s : all_fresh s ->
  (forall k, (k < len s)%nat -> forall r, local_of s k = Some r -> l_mt_modified_ts r <> T) -> quiescent s = true.
Proof.
  intros Hf Hn. apply quiescent_spec. intros k r Hr.
  assert (l_mt_modified_ts r <> T) by (apply (Hn k); [apply local_of_len; eauto|done]).
  split; [|done]. by destruct (Hf k r Hr).
Qed.

Lemma confirm_wp f tr s : timestamp (g_epoch s) = T ->
  wp disciplined looks (try_confirm_completion f) tr
    (fun b tr' _ => b = true -> true ∈ tr') s.
Proof.
  intros HT. assert (HN : forall s, looks None s s) by done.
  unfold try_confirm_completion, load_epoch. apply wp_gets; [done|]. intros s1 [He _]. rewrite He, HT.
  assert (Hno : forall tr s, wp disciplined looks (Ret false) tr (fun b tr' _ => b = true -> true ∈ tr') s) by done.
  apply wp_bind; [apply _|]. apply (any_local_wp looks _ _ _ _ _ (fun _ => None)); [done|]. intros s2 _.
  split; [done|]. exists (fun _ _ => True). split; [done|]. split; [done|]. split; [intros; apply Hno|].
  intros s3 _ _. apply wp_bind; [apply _|]. apply (any_local_wp looks _ _ _ _ _ (fun _ => None)); [done|].
  intros s4 _. split; [done|]. exists (fun k s => forall r, local_of s k = Some r -> fresh_ok r).
  split; [|split; [|split; [intros; apply Hno|]]].
  { intros k x r _ Hr Ht r' Hr'. simplify_eq. left. apply bool_decide_eq_false in Ht. by apply dec_stable. }
  { intros k x y _ Hxy Hx r' Hr'. pose proof Hxy as [_ H]. specialize (H k). rewrite Hr' in H.
    destruct (local_of x k) as [r|] eqn:E; [|done]. destruct H as [Ha [Hb|Hb]]; [|by right].
    destruct (Hx r eq_refl); [left; congruence|right; auto]. }
  intros s5 H45 Hfr. apply scanned_fresh in Hfr; [|done].
  apply wp_bind; [apply _|]. apply (any_local_wp looks _ _ _ _ _ (fun s => Some (quiescent s))); [done|].
  intros s6 H56. split; [done|].
  exists (fun k _ => forall r, local_of s6 k = Some r -> l_mt_modified_ts r <> T).
  split; [|split; [done|split; [intros; apply Hno|]]].
  { intros k x r' H6x Hr' Hne r Hr E. apply Z.eqb_neq in Hne. apply Hne.
    destruct (disciplined_local _ _ _ _ H6x Hr) as (r2 & Hr2 & Hs & _). simplify_eq. auto. }
  intros s7 H67 Hn. apply wp_ret_env. intros s8 _ _. rewrite !app_nil_r. apply elem_of_app. right.
  cbn. apply list_elem_of_singleton. symmetry. apply fresh_quiescent; [by eapply all_fresh_stable|done].
Qed.

(** ** The mutators' side *)
Definition mine (l : nat) s s' : Prop := forall r, local_of s l = Some r -> local_of s' l = Some r.
#[global] Instance mine_preorder l : PreOrder (mine l).
Proof. split; [intros s r; done|]. intros s1 s2 s3 H1 H2 r Hr. auto. Qed.
(** A step of the mutator that owns participant [l]. *)
Definition works (l : nat) (o : option bool) s s' : Prop :=
  o = None /\ g_epoch s' = g_epoch s /\
  (forall k, k <> l -> local_of s' k = local_of s k) /\
  (s' = s \/ match local_of s l, local_of s' l with
             | Some r, Some r' => stamped r r' /\ l_epoch r' = l_epoch r
             | _, _ => local_of s' l = local_of s l
             end).
Lemma works_refl l s : works l None s s.
Proof. split_and!; auto. Qed.
Lemma works_disciplined l o s s' : works l o s s' -> disciplined s s'.
Proof.
  intros (_ & He & Ho & [->|Hl]); [reflexivity|]. split; [done|]. intros k. destruct (decide (k = l)) as [->|Hne].
  - destruct (local_of s l), (local_of s' l); try done. by destruct Hl.
  - rewrite (Ho k Hne). destruct (local_of s k); [split; auto|done].
Qed.
Lemma works_mine l l' o s s' : l <> l' -> works l o s s' -> mine l' s s'.
Proof. intros Hne (_ & _ & Ho & _) r Hr. by rewrite Ho. Qed.

Lemma wp_read {A B} l (f : local -> B) (k : B -> prog (gstate V) A) tr Q s r : local_of s l = Some r ->
  (forall s', local_of s' l = Some r -> wp (mine l) (works l) (k (f r)) tr Q s') ->
  wp (mine l) (works l) (bind (get_local l f) k) tr Q s.
Proof.
  intros Hr Hk. cbn. intros s' Hs. apply Hs in Hr as Hr'. pose proof Hr' as (nd & Hnd & ->)%fmap_Some.
  rewrite Hnd. exists None. split; [apply works_refl|]. rewrite app_nil_r. by apply Hk.
Qed.
Lemma wp_write {A} l (f : local -> local) (k : unit -> prog (gstate V) A) tr Q s r : local_of s l = Some r ->
  stamped r (f r) -> l_epoch (f r) = l_epoch r ->
  (forall s', local_of s' l = Some (f r) -> wp (mine l) (works l) (k tt) tr Q s') ->
  wp (mine l) (works l) (bind (upd_local l f) k) tr Q s.
Proof.
  intros Hr Hst Hep Hk. cbn. intros s' Hs. apply Hs in Hr.
  pose proof (run_upd_local l f s' r Hr) as E.
  apply (f_equal (fun x => match x with Ok (_, y) => y | _ => s' end)) in E. cbn in E. rewrite E.
  assert (Hr' : local_of (put_local l (f r) s') l = Some (f r)) by (apply local_of_put; eauto).
  exists None. split; [|rewrite app_nil_r; by apply Hk]. split_and!; try done.
  - intros j Hj. by apply local_of_put_ne.
  - right. by rewrite Hr, Hr'.
Qed.

Lemma wp_record {A} l (k : unit -> prog (gstate V) A) tr Q s r : local_of s l = Some r ->
  phase_ok r -> timestamp (l_epoch r) = T ->
  (forall s', local_of s' l = Some (set_l_mt_modified_ts (fun _ => T) r) ->
     wp (mine l) (works l) (k tt) tr Q s') ->
  wp (mine l) (works l) (bind (record_mt_modification l) k) tr Q s.
Proof.
  intros Hr [ph Hph] HT Hk. apply wp_bind; [apply _|]. unfold record_mt_modification, pinned_epoch.
  eapply wp_read; [done|]. intros s1 H1. eapply wp_read; [done|]. intros s2 H2. rewrite HT.
  destruct (Z.eqb_spec (l_mt_modified_ts r) T) as [E|_].
  { apply wp_ret_env. intros s3 H3. apply Hk, H3. rewrite H2. f_equal. destruct r. cbn in *. by rewrite E. }
  eapply wp_write; [done| |done|]; [split; [done|by right]|]. intros s3 H3.
  eapply wp_read; [done|]. intros s4 H4. unfold phase_of. cbn [set_l_mt_modified_ts l_epoch]. rewrite Hph.
  apply wp_ret_env. intros s5 H5. by apply Hk, H5.
Qed.

(** What a mutator does to its queue: schedule a mark task, or pop one to run it. *)
Inductive mop := MSchedule (a : Z) | MPop.
Fixpoint mutator (g : guard) (ops : list mop) : prog (gstate V) bool :=
  match ops with
  | [] => Ret false
  | MSchedule a :: ops' => schedule_mark a g ;; mutator g ops'
  | MPop :: ops' => _ <- try_pop_mark_task (gd_local g) ; mutator g ops'
  end.
(** A record whose owner is pinned in the epoch with timestamp [T]. *)
Definition current (r : local) : Prop := phase_ok r /\ timestamp (l_epoch r) = T.

Lemma wp_schedule {A} a g (k : unit -> prog (gstate V) A) tr Q s r : local_of s (gd_local g) = Some r ->
  current r ->
  (forall s' r', local_of s' (gd_local g) = Some r' -> current r' ->
     wp (mine (gd_local g)) (works (gd_local g)) (k tt) tr Q s') ->
  wp (mine (gd_local g)) (works (gd_local g)) (bind (schedule_mark a g) k) tr Q s.
Proof.
  intros Hr [Hph HT] Hk. apply wp_bind; [apply _|]. unfold schedule_mark.
  eapply wp_record; [done..|]. intros s1 H1.
  eapply wp_write; [done| |done|]; [split; [done|by right]|]. intros s2 H2.
  eapply wp_read; [done|]. intros s3 H3.
  eapply wp_write; [done| |done|]; [split; [done|by left]|]. intros s4 H4.
  assert (Hend : forall s5, local_of s5 (gd_local g) = local_of s4 (gd_local g) ->
    wp (mine (gd_local g)) (works (gd_local g)) (k tt) tr Q s5).
  { intros s5 E. rewrite H4 in E. by eapply Hk. }
  destruct (_ =? 0).
  - cbn. intros s5 H5. exists None. split.
    + split_and!; try done. right. apply H5 in H4.
      change (local_of (set_g_help <[gd_id g := true]> s5) (gd_local g)) with (local_of s5 (gd_local g)).
      rewrite H4. split; [split; [done|by left]|done].
    + intros s6 H6. rewrite app_nil_r. apply Hend. rewrite H4. apply H6. apply H5 in H4. exact H4.
  - apply wp_ret_env. intros s5 H5. apply Hend. rewrite H4. by apply H5.
Qed.
Lemma wp_pop {A} g (k : option Z -> prog (gstate V) A) tr Q s r : local_of s (gd_local g) = Some r ->
  current r ->
  (forall x s' r', local_of s' (gd_local g) = Some r' -> current r' ->
     wp (mine (gd_local g)) (works (gd_local g)) (k x) tr Q s') ->
  wp (mine (gd_local g)) (works (gd_local g)) (bind (try_pop_mark_task (gd_local g)) k) tr Q s.
Proof.
  intros Hr [Hph HT] Hk. apply wp_bind; [apply _|]. unfold try_pop_mark_task.
  eapply wp_read; [done|]. intros s1 H1. destruct (bool_decide _).
  { apply wp_ret_env. intros s2 H2. eapply Hk; [by apply H2|done]. }
  eapply wp_record; [done..|]. intros s2 H2. set (r2 := set_l_mt_modified_ts _ _) in H2.
  apply wp_atomic. intros s3 H3. apply H3 in H2.
  pose proof (run_pop_task _ _ _ H2) as E. unfold pop_task in E. destruct (l_tasks r2) as [|t ts].
  - exists None, s3, None. split; [exact E|]. split; [apply works_refl|]. rewrite app_nil_r. apply wp_ret_env.
    intros s4 H4. eapply Hk; [by apply H4|done].
  - assert (H4 : local_of (put_local (gd_local g) (set_l_tasks (fun _ => ts) r2) s3) (gd_local g) =
      Some (set_l_tasks (fun _ => ts) r2)) by (apply local_of_put; eauto).
    eexists _, _, None. split; [exact E|]. split.
    + split_and!; try done; [intros j Hj; by apply local_of_put_ne|]. right. rewrite H2, H4.
      split; [split; [done|by right]|done].
    + rewrite app_nil_r. apply wp_ret_env. intros s5 H5. eapply Hk; [by apply H5|done].
Qed.
Lemma mutator_wp g ops tr s r : local_of s (gd_local g) = Some r -> current r ->
  wp (mine (gd_local g)) (works (gd_local g)) (mutator g ops) tr (fun b _ _ => b = false) s.
Proof.
  revert s r. induction ops as [|[a|] ops IH]; intros s r Hr Hc; cbn [mutator]; [done|..].
  - eapply wp_schedule; [done..|]. exact IH.
  - eapply wp_pop; [done..|]. intros _. exact IH.
Qed.

(** ** The collector beside any number of mutators *)
Definition sys (f : nat) (ms : list (guard * list mop)) : list (prog (gstate V) bool) :=
  try_confirm_completion f :: ((fun m => mutator m.1 m.2) <$> ms).
Definition rely_of (ms : list (guard * list mop)) (i : nat) s s' : Prop :=
  match i with
  | O => disciplined s s'
  | S i => match ms !! i with Some m => mine (gd_local m.1) s s' | None => True end
  end.
Definition guar_of (ms : list (guard * list mop)) (i : nat) (o : option bool) s s' : Prop :=
  match i with
  | O => looks o s s'
  | S i => match ms !! i with Some m => works (gd_local m.1) o s s' | None => False end
  end.
#[global] Instance rely_of_preorder ms i : PreOrder (rely_of ms i).
Proof.
  destruct i as [|i]; [exact disciplined_preorder|]. unfold rely_of.
  destruct (ms !! i) as [m|]; [exact (mine_preorder (gd_local m.1))|]. split; done.
Qed.
Lemma confirm_guar_rely ms i j o s s' : NoDup (gd_local <$> ms.*1) -> i <> j ->
  guar_of ms j o s s' -> rely_of ms i s s'.
Proof.
  intros Hnd Hij HG. destruct j as [|j]; [destruct HG as [-> _]; reflexivity|]. cbn in HG.
  destruct (ms !! j) as [mj|] eqn:Ej; [|done]. destruct i as [|i]; [by eapply works_disciplined|]. cbn.
  destruct (ms !! i) as [mi|] eqn:Ei; [|done]. eapply works_mine; [|exact HG]. intros E. apply Hij. f_equal.
  eapply (NoDup_lookup _ i j (gd_local mi.1) Hnd); rewrite !list_lookup_fmap, ?Ei, ?Ej; cbn; by rewrite ?E.
Qed.

(** C6. Completion detection is sound under every interleaving.  The collector runs
    [try_confirm_completion] while any number of mutators, pinned in the current epoch, schedule
    mark tasks and pop them from their own queues.  If the collector answers that tracing is done,
    then the execution went through a state in which every mark queue was empty and no participant
    had worked on one in this epoch. *)
Theorem completion_sound f ms s ps' s' :
  timestamp (g_epoch s) = T ->
  NoDup (gd_local <$> ms.*1) ->
  (forall m, m ∈ ms -> exists r, local_of s (gd_local m.1) = Some r /\ current r) ->
  rtc pstep (sys f ms, s) (ps', s') ->
  ps' !! 0%nat = Some (Ret true) ->
  exists ps1 s1, rtc pstep (sys f ms, s) (ps1, s1) /\ rtc pstep (ps1, s1) (ps', s') /\ quiescent s1 = true.
Proof.
  intros HT Hnd Hms Hst Hret.
  destruct (pool_trace (rely_of ms) (guar_of ms)
    (fun i b tr _ => match i with O => b = true -> true ∈ tr | S _ => b = false end)
    (sys f ms) s ps' s' (fun _ => [])) as (t & _ & Hend & Hev); [apply _|by intros; eapply confirm_guar_rely| |done|].
  { intros [|i] p Hp; cbn in Hp; [injection Hp as <-; by apply confirm_wp|].
    apply list_lookup_fmap_Some in Hp as (m & -> & Hm). unfold rely_of, guar_of. rewrite Hm.
    destruct (Hms m ltac:(by eapply list_elem_of_lookup_2)) as (r & Hr & Hc). by eapply mutator_wp. }
  specialize (Hend 0%nat _ Hret). apply wp_ret_now in Hend; [|apply _]. cbn in Hend.
  apply list_elem_of_fmap in Hend as ([j b] & Eb & Hb); [|done]. apply list_elem_of_filter in Hb as [Ej Hb].
  cbn in Eb, Ej. subst. destruct (Hev _ _ Hb) as (ps1 & s1 & ps2 & s2 & H1 & H2 & [-> Hq] & H3).
  exists ps1, s1. split; [done|]. split; [by eapply rtc_l|done].
Qed.
End completion.
