(* ===== verification/Sweep.v ===== *)
(** * Sweeping ([src/collector.rs], [sweep])

    What the scoped workers of a sweep do, run one after the other over their shard
    ranges: every batch of the previous white colour is taken from the marked queues,
    the objects that kept that colour are dropped with their links, and the others are
    put back into fresh batches of the flipped colour. *)
From S2P Require Import Prelude Prog Epoch Meta Slots Registry State Heap Marking Participant Guards Collector Iter.
#[local] Open Scope Z_scope.

(** ** Loops *)
Section loops.
Context {S X : Type}.
Lemma run_foreach (I : list X -> S -> Prop) (body : X -> prog S unit) xs s : I [] s ->
  (forall pre x post s, xs = pre ++ x :: post -> I pre s -> exists s', run (body x) s = Ok (tt, s') /\ I (pre ++ [x]) s') ->
  exists s', run (foreach xs body) s = Ok (tt, s') /\ I xs s'.
Proof.
  intros HI Hb. assert (H : forall post pre s, xs = pre ++ post -> I pre s ->
    exists s', run (foreach post body) s = Ok (tt, s') /\ I xs s'); [|by apply (H xs [])].
  clear s HI. induction post as [|x post IH]; intros pre s E HI.
  - rewrite app_nil_r in E. subst. by exists s.
  - destruct (Hb pre x post s E HI) as (s1 & E1 & H1). destruct (IH (pre ++ [x]) s1) as (s' & E' & H'); [by rewrite <- app_assoc|done|].
    exists s'. cbn [foreach]. by rewrite run_bind, E1.
Qed.
Lemma run_for_each_split {L R} (I : list X -> L -> S -> Prop) (body : X -> L -> prog S (L + R)) xs a s : I [] a s ->
  (forall pre x post a s, xs = pre ++ x :: post -> I pre a s ->
     exists a' s', run (body x a) s = Ok (inl a', s') /\ I (pre ++ [x]) a' s') ->
  exists a' s', run (for_each xs body a) s = Ok (inl a', s') /\ I xs a' s'.
Proof.
  intros HI Hb. assert (H : forall post pre a s, xs = pre ++ post -> I pre a s ->
    exists a' s', run (for_each post body a) s = Ok (inl a', s') /\ I xs a' s'); [|by apply (H xs [])].
  clear a s HI. induction post as [|x post IH]; intros pre a s E HI.
  - rewrite app_nil_r in E. subst. by exists a, s.
  - destruct (Hb pre x post a s E HI) as (a1 & s1 & E1 & H1).
    destruct (IH (pre ++ [x]) a1 s1) as (a' & s' & E' & H'); [by rewrite <- app_assoc|done|].
    exists a', s'. cbn [for_each]. by rewrite run_bind, E1.
Qed.
End loops.

(** ** The global queues of batches *)
Section queues.
Implicit Types (qs : list (list (list ObjBatch))) (c : Color).
(** Every colour has all its shards. *)
Definition shards_ok qs : Prop := forall c i, (i < OBJ_BATCHES_SHARD)%nat -> is_Some (queue_at qs c i).
Definition items qs c i : list Z :=
  match queue_at qs c i with Some bs => concat (map b_items bs) | None => [] end.
Definition all_items qs c : list Z := concat (map (items qs c) (seq 0 OBJ_BATCHES_SHARD)).

Lemma color_index_inj c c' : color_index c = color_index c' -> c = c'.
Proof. by destruct c, c'. Qed.
Lemma queue_at_upd f c i qs c' j :
  queue_at (upd_queue f c i qs) c' j = if decide (c = c' /\ i = j) then f <$> queue_at qs c' j else queue_at qs c' j.
Proof.
  unfold queue_at, upd_queue. destruct (decide (c = c')) as [<-|Hc].
  - rewrite list_lookup_alter_eq. destruct (qs !! color_index c) as [row|]; cbn; [|by destruct (decide _)].
    destruct (decide (i = j)) as [<-|Hi].
    + rewrite decide_True by done. apply list_lookup_alter_eq.
    + rewrite decide_False by (by intros [_ ?]). by apply list_lookup_alter_ne.
  - rewrite decide_False by (by intros [? _]). rewrite list_lookup_alter_ne; [done|].
    intros E. by apply color_index_inj in E.
Qed.
Lemma shards_ok_upd f c i qs : shards_ok qs -> shards_ok (upd_queue f c i qs).
Proof. intros H c' j Hj. rewrite queue_at_upd. destruct (decide _); [apply fmap_is_Some|]; by apply H. Qed.
(** A list grows at one position of a concatenation. *)
Lemma concat_grow {A B} `{!EqDecision A} (f g : A -> list B) x i l : NoDup l -> i ∈ l -> g i = f i ++ x -> (forall j, j <> i -> g j = f j) ->
  concat (map g l) ≡ₚ concat (map f l) ++ x.
Proof.
  intros Hnd Hi Eg Ene. induction l as [|j l IH]; [by apply not_elem_of_nil in Hi|]. apply NoDup_cons in Hnd as [Hj Hnd].
  cbn. destruct (decide (j = i)) as [->|Hne].
  - assert (E : map g l = map f l).
    { apply map_ext_in. intros k Hk%list_elem_of_In. apply Ene. by intros ->. }
    rewrite E, Eg, <- !app_assoc. apply Permutation_app_head, Permutation_app_comm.
  - rewrite (Ene j Hne), IH; [by rewrite app_assoc|done|]. apply elem_of_cons in Hi as [->|]; done.
Qed.
Lemma all_items_push qs c i b : shards_ok qs -> (i < OBJ_BATCHES_SHARD)%nat ->
  all_items (upd_queue (fun q => q ++ [b]) c i qs) c ≡ₚ all_items qs c ++ b_items b.
Proof.
  intros Hok Hi. apply (concat_grow _ _ _ i); [apply NoDup_seq|apply elem_of_seq; lia| |]; unfold items.
  - rewrite queue_at_upd, decide_True by done. destruct (Hok c i Hi) as [bs ->]. cbn.
    rewrite map_app, concat_app. cbn. by rewrite app_nil_r.
  - intros j Hj. rewrite queue_at_upd, decide_False; [done|]. by intros [_ ->].
Qed.
Lemma items_upd_ne f c i qs c' j : (c, i) <> (c', j) -> items (upd_queue f c i qs) c' j = items qs c' j.
Proof. intros Hne. unfold items. rewrite queue_at_upd, decide_False; [done|]. by intros [-> ->]. Qed.
End queues.
#[global] Arguments all_items qs c : simpl never.

Section sweep.
Context {EX : Extern} {V : Type} (fuel : nat) (pw : Color).
Implicit Types (s : gstate V) (a : Z) (xs : list Z).

(** ** The heap before and after *)
(** The links of live objects are not rooted, and no two objects share a link. *)
Record owned s : Prop := {
  ow_link : forall a o c, g_objs s !! a = Some o -> c ∈ o_links o ->
    exists w, g_cells s !! c = Some w /\ ManPtr.meta w <> Rooted;
  ow_nodup : forall a o, g_objs s !! a = Some o -> NoDup (o_links o);
  ow_disj : forall a b o o' c, g_objs s !! a = Some o -> g_objs s !! b = Some o' -> c ∈ o_links o -> c ∈ o_links o' -> a = b
}.
(** The object kept the previous white colour. *)
Definition dead s a : bool :=
  match g_objs s !! a with Some o => bool_decide (ObjMeta.marked (o_hdr o) = pw) | None => false end.
(** [s] is [s0] after the sweep of [xs]. *)
Record swept s0 xs s : Prop := {
  sw_objs : forall a, g_objs s !! a = if decide (a ∈ xs /\ dead s0 a = true) then None else g_objs s0 !! a;
  sw_keep : forall c, (forall a o, a ∈ xs -> dead s0 a = true -> g_objs s0 !! a = Some o -> c ∉ o_links o) ->
    g_cells s !! c = g_cells s0 !! c;
  sw_gone : forall a o c, a ∈ xs -> dead s0 a = true -> g_objs s0 !! a = Some o -> c ∈ o_links o -> g_cells s !! c = None
}.
(** Nothing but objects, links, queues and the statistics changes. *)
Definition sweep_frame s0 s : Prop :=
  s = mkG (g_objs s) (g_cells s) (g_help s0) (g_locals s0) (g_epoch s0) (g_fresh s) (g_marked s) (g_allocated s0)
    (g_reclaimed s) (g_collector_init s0) (g_enabled s0) (g_requested s0) (g_headroom s0) (g_threads s0) (g_reg s0).
Definition survivors s0 xs : list Z := filter (fun a => dead s0 a = false) xs.

Lemma swept_nil s : swept s [] s.
Proof.
  split; [|done|].
  - intros a. rewrite decide_False; [done|]. intros [H _]. by apply not_elem_of_nil in H.
  - intros a o c H. by apply not_elem_of_nil in H.
Qed.
Lemma swept_live s0 xs s a : swept s0 xs s -> a ∉ xs -> g_objs s !! a = g_objs s0 !! a.
Proof. intros H Ha. rewrite (sw_objs _ _ _ H), decide_False; [done|]. by intros [? _]. Qed.
(** A survivor changes nothing. *)
Lemma swept_survivor s0 xs s s' a : swept s0 xs s -> dead s0 a = false -> g_objs s' = g_objs s -> g_cells s' = g_cells s ->
  swept s0 (xs ++ [a]) s'.
Proof.
  intros H Ha Eo Ec. assert (Hin : forall b, b ∈ xs ++ [a] -> dead s0 b = true -> b ∈ xs).
  { intros b [Hb|Hb%list_elem_of_singleton]%elem_of_app Hd; [done|]. subst. congruence. }
  split.
  - intros b. rewrite Eo, (sw_objs _ _ _ H). destruct (decide (b ∈ xs /\ dead s0 b = true)) as [[Hb Hd]|Hn].
    + rewrite decide_True; [done|]. split; [apply elem_of_app; by left|done].
    + rewrite decide_False; [done|]. intros [Hb Hd]. auto.
  - intros c Hc. rewrite Ec. apply (sw_keep _ _ _ H). intros b o Hb. apply Hc, elem_of_app. by left.
  - intros b o c Hb Hd. rewrite Ec. eapply (sw_gone _ _ _ H); eauto.
Qed.

(** ** Dropping one object *)
Definition del_cells (ls : list cell) (m : gmap cell Z) : gmap cell Z := foldl (fun m c => delete c m) m ls.
Lemma del_cells_lookup ls m c : del_cells ls m !! c = if decide (c ∈ ls) then None else m !! c.
Proof.
  revert m. induction ls as [|l ls IH]; intros m; cbn [del_cells foldl].
  - rewrite decide_False; [done|]. apply not_elem_of_nil.
  - fold (del_cells ls (delete l m)). rewrite IH. destruct (decide (c ∈ ls)) as [Hc|Hc].
    + rewrite decide_True; [done|]. by right.
    + destruct (decide (c = l)) as [->|Hne].
      * rewrite decide_True by (by left). apply lookup_delete_eq.
      * rewrite decide_False; [|by intros [?|?]%elem_of_cons]. by apply lookup_delete_ne.
Qed.
Lemma run_drop_links R l ls s : NoDup ls -> (forall c, c ∈ ls -> exists w, g_cells s !! c = Some w /\ ManPtr.meta w <> Rooted) ->
  run (foreach ls (fun c => aso_drop R l c ;; free_cell c))%prog s = Ok (tt, set_g_cells (del_cells ls) s).
Proof.
  revert s. induction ls as [|c ls IH]; intros s Hnd Hls; [by destruct s|]. apply NoDup_cons in Hnd as [Hc Hnd].
  destruct (Hls c ltac:(by left)) as (w & Hw & Hm). cbn [foreach]. rewrite run_bind.
  assert (E : run (aso_drop R l c ;; free_cell c)%prog s = Ok (tt, set_g_cells (delete c) s)).
  { unfold aso_drop. rewrite run_bind, run_bind, (run_load_cell _ _ _ Hw). by rewrite decide_True. }
  rewrite E, IH; [by destruct s|done|]. intros c' Hc'. destruct (Hls c' ltac:(by right)) as (w' & Hw' & Hm').
  exists w'. split; [|done]. cbn. rewrite lookup_delete_ne; [done|]. by intros ->.
Qed.
Lemma run_drop_obj R l a o s : g_objs s !! a = Some o -> NoDup (o_links o) ->
  (forall c, c ∈ o_links o -> exists w, g_cells s !! c = Some w /\ ManPtr.meta w <> Rooted) ->
  run (drop_obj R l a) s = Ok (tt, set_g_objs (delete a) (set_g_cells (del_cells (o_links o)) s)).
Proof.
  intros Ho Hnd Hls. unfold drop_obj. by rewrite run_bind, (run_deref _ _ _ Ho), run_bind, run_drop_links.
Qed.
Lemma swept_dead s0 xs s a o : owned s0 -> swept s0 xs s -> g_objs s0 !! a = Some o -> dead s0 a = true -> a ∉ xs ->
  swept s0 (xs ++ [a]) (set_g_objs (delete a) (set_g_cells (del_cells (o_links o)) s)).
Proof.
  intros Hw H Ho Hd Hx. split.
  - intros b. cbn. destruct (decide (b = a)) as [->|Hne].
    + rewrite lookup_delete_eq, decide_True; [done|]. split; [apply elem_of_app; right; by left|done].
    + rewrite lookup_delete_ne by congruence. rewrite (sw_objs _ _ _ H).
      destruct (decide (b ∈ xs /\ dead s0 b = true)) as [[Hb Hdb]|Hn].
      * rewrite decide_True; [done|]. split; [apply elem_of_app; by left|done].
      * rewrite decide_False; [done|]. intros [[Hb|Hb%list_elem_of_singleton]%elem_of_app Hdb]; auto.
  - intros c Hc. cbn. rewrite del_cells_lookup, decide_False.
    2:{ apply (Hc a o); [apply elem_of_app; right; by left|done..]. }
    apply (sw_keep _ _ _ H). intros b o' Hb. apply Hc, elem_of_app. by left.
  - intros b o' c [Hb|Hb%list_elem_of_singleton]%elem_of_app Hdb Hob Hc; cbn; rewrite del_cells_lookup.
    + destruct (decide _); [done|]. by eapply (sw_gone _ _ _ H).
    + subst b. rewrite Ho in Hob. injection Hob as <-. by rewrite decide_True.
Qed.
Lemma swept_links s0 xs s a o c : owned s0 -> swept s0 xs s -> g_objs s0 !! a = Some o -> a ∉ xs -> c ∈ o_links o ->
  exists w, g_cells s !! c = Some w /\ ManPtr.meta w <> Rooted.
Proof.
  intros Hw H Ho Hx Hc. destruct (ow_link _ Hw a o c Ho Hc) as (w & Hcw & Hm). exists w. split; [|done].
  rewrite (sw_keep _ _ _ H); [done|]. intros b o' Hb Hd Hob Hc'.
  rewrite (ow_disj _ Hw a b o o' c Ho Hob Hc Hc') in Hx. done.
Qed.

(** ** One object *)
(** The invariant of a worker: [xs] are swept, [st] holds the last survivors. *)
Record sweeping s0 xs (st : sweep_state) s : Prop := {
  sg_swept : swept s0 xs s;
  sg_frame : sweep_frame s0 s;
  sg_shards : shards_ok (g_fresh s);
  sg_fresh : all_items (g_fresh s) (flip pw) ++ b_items (sw_batch st) ≡ₚ all_items (g_fresh s0) (flip pw) ++ survivors s0 xs;
  sg_other : forall i, queue_at (g_fresh s) pw i = queue_at (g_fresh s0) pw i;
  sg_cap : b_cap (sw_batch st) = OBJ_BATCH_SIZE
}.
Lemma survivors_snoc s0 xs a : survivors s0 (xs ++ [a]) = survivors s0 xs ++ (if dead s0 a then [] else [a]).
Proof.
  unfold survivors. rewrite filter_app. f_equal. destruct (dead s0 a) eqn:E.
  - by rewrite filter_cons, decide_False by congruence.
  - by rewrite filter_cons, decide_True by congruence.
Qed.
Lemma run_obj_color a s o : g_objs s !! a = Some o -> run (obj_color a) s = Ok (ObjMeta.marked (o_hdr o), s).
Proof. intros Ho. unfold obj_color. by rewrite run_bind, (run_load_header _ _ _ Ho). Qed.
Lemma frame_sets s0 s fo fc ff fm fr : sweep_frame s0 s ->
  sweep_frame s0 (set_g_objs fo (set_g_cells fc (set_g_fresh ff (set_g_marked fm (set_g_reclaimed fr s))))).
Proof. unfold sweep_frame. intros E. rewrite E at 1. done. Qed.
Lemma run_sweep_obj s0 xs st s thread a o : owned s0 -> sweeping s0 xs st s -> g_objs s0 !! a = Some o -> a ∉ xs ->
  exists st' s', run (sweep_obj fuel thread pw a st) s = Ok (st', s') /\ sweeping s0 (xs ++ [a]) st' s' /\ g_marked s' = g_marked s.
Proof.
  intros Hw H Ho Hx. assert (Hos : g_objs s !! a = Some o) by (by rewrite (swept_live _ _ _ _ (sg_swept _ _ _ _ H) Hx)).
  assert (Ed : dead s0 a = bool_decide (ObjMeta.marked (o_hdr o) = pw)) by (unfold dead; by rewrite Ho).
  unfold sweep_obj. rewrite run_bind, (run_obj_color _ _ _ Hos). cbv beta. destruct (decide (pw = ObjMeta.marked (o_hdr o))) as [Em|Em].
  - assert (Hd : dead s0 a = true) by (rewrite Ed; by apply bool_decide_eq_true).
    rewrite run_bind, (run_deref _ _ _ Hos), run_bind, (run_drop_obj _ _ _ o);
      [|done|by eapply ow_nodup|by intros; eapply swept_links; [|apply H|..]].
    eexists _, _. split; [reflexivity|]. split; [|done]. constructor; cbn.
    + by apply swept_dead; [|apply H|..].
    + exact (frame_sets s0 s (delete a) (del_cells (o_links o)) id id id (sg_frame _ _ _ _ H)).
    + apply H.
    + rewrite survivors_snoc, Hd, app_nil_r. apply H.
    + apply H.
    + apply H.
  - assert (Hd : dead s0 a = false) by (rewrite Ed; by apply bool_decide_eq_false).
    unfold push_within_capacity at 1. destruct (Nat.ltb_spec (length (b_items (sw_batch st))) (b_cap (sw_batch st))) as [Hlt|Hge].
    + eexists _, s. split; [reflexivity|]. split; [|done]. constructor; try apply H.
      * by eapply swept_survivor; [apply H|..].
      * rewrite survivors_snoc, Hd. cbn. by rewrite !app_assoc, (sg_fresh _ _ _ _ H).
    + pose proof (rng_usize_lt (sw_rng st) OBJ_BATCHES_SHARD ltac:(unfold OBJ_BATCHES_SHARD; lia)) as Hr.
      eexists _, _. split; [reflexivity|]. split; [|done]. constructor; cbn.
      * by eapply swept_survivor; [apply H|..].
      * exact (frame_sets s0 s id id _ id id (sg_frame _ _ _ _ H)).
      * apply shards_ok_upd, H.
      * rewrite survivors_snoc, Hd, all_items_push by (done || apply H). by rewrite (sg_fresh _ _ _ _ H), <- app_assoc.
      * intros i. rewrite queue_at_upd, decide_False; [apply H|]. intros [E _]. by destruct pw.
      * done.
Qed.

(** ** One shard, one worker, all workers *)
(** The shards [done] are empty and the others as they were. *)
Definition emptied s0 (done : list nat) s : Prop :=
  (forall i, queue_at (g_marked s) pw i = if decide (i ∈ done) then (fun _ => []) <$> queue_at (g_marked s0) pw i else queue_at (g_marked s0) pw i) /\
  (forall c i, c <> pw -> queue_at (g_marked s) c i = queue_at (g_marked s0) c i).
Record sweepable s0 : Prop := {
  sa_owned : owned s0;
  sa_shards : shards_ok (g_marked s0);
  sa_objs : forall a, a ∈ all_items (g_marked s0) pw -> is_Some (g_objs s0 !! a);
  sa_nodup : NoDup (all_items (g_marked s0) pw);
  sa_fuel : forall i bs, (i < OBJ_BATCHES_SHARD)%nat -> queue_at (g_marked s0) pw i = Some bs -> (length bs < fuel)%nat
}.
(** What the shards [is_] hold at the start. *)
Definition shard_items s0 (is_ : list nat) : list Z := concat (map (items (g_marked s0) pw) is_).
Lemma run_sweep_batch s0 xs st s thread bs : owned s0 -> sweeping s0 xs st s -> NoDup (xs ++ bs) ->
  (forall a, a ∈ bs -> is_Some (g_objs s0 !! a)) ->
  exists st' s', run (for_each (R := Empty_set) bs (fun a st => st' <- sweep_obj fuel thread pw a st ; Ret (inl st'))%prog st) s
    = Ok (inl st', s') /\ sweeping s0 (xs ++ bs) st' s' /\ g_marked s' = g_marked s.
Proof.
  intros Hw H Hnd Hob.
  destruct (run_for_each_split (R := Empty_set) (fun pre st s' => sweeping s0 (xs ++ pre) st s' /\ g_marked s' = g_marked s)
    (fun a st => st' <- sweep_obj fuel thread pw a st ; Ret (inl st'))%prog bs st s) as (st' & s' & E & Hs); [by rewrite app_nil_r| |by eauto].
  intros pre a post st1 s1 -> [H1 Em]. destruct (Hob a) as [o Ho]; [apply elem_of_app; right; by left|].
  destruct (run_sweep_obj s0 (xs ++ pre) st1 s1 thread a o) as (st2 & s2 & E & H2 & Em2); try done.
  { rewrite app_assoc in Hnd. apply NoDup_app in Hnd as (_ & Hnd & _). intros Ha. apply (Hnd a Ha). by left. }
  exists st2, s2. rewrite run_bind, E. split; [done|]. rewrite app_assoc. split; [done|congruence].
Qed.
Definition shard_body (thread q : nat) (st : sweep_state) : prog (gstate V) (sweep_state + (sweep_state + Empty_set)) :=
  (batch <- try_pop_marked_q pw q ;
   match batch with
   | None => Ret (inr (inl st))
   | Some batch =>
       r <- for_each (R := Empty_set) (b_items batch)
              (fun a st => st' <- sweep_obj fuel thread pw a st ; Ret (inl st')) st ;
       Ret (inl (match r with inl st => st | inr e => match e with end end))
   end)%prog.
Definition in_shard s0 (done : list nat) q (st : sweep_state) s : Prop := exists bs1 bs2,
  queue_at (g_marked s0) pw q = Some (bs1 ++ bs2) /\ queue_at (g_marked s) pw q = Some bs2 /\
  sweeping s0 (shard_items s0 done ++ concat (map b_items bs1)) st s /\
  forall c i, (c, i) <> (pw, q) -> queue_at (g_marked s) c i =
    if decide (c = pw /\ i ∈ done) then (fun _ => []) <$> queue_at (g_marked s0) c i else queue_at (g_marked s0) c i.
Lemma run_shard_body s0 thread done q rest st s : sweepable s0 -> seq 0 OBJ_BATCHES_SHARD = done ++ q :: rest -> in_shard s0 done q st s ->
  exists x s', run (shard_body thread q st) s = Ok (x, s') /\
  match x with
  | inl st' => in_shard s0 done q st' s' /\ (length (default [] (queue_at (g_marked s') pw q)) < length (default [] (queue_at (g_marked s) pw q)))%nat
  | inr r => exists st', r = inl st' /\ in_shard s0 done q st' s' /\ queue_at (g_marked s') pw q = Some []
  end.
Proof.
  intros Hsa Eq (bs1 & bs2 & E0 & E & H & Hother). unfold shard_body. rewrite run_bind. unfold try_pop_marked_q. cbn [atomic run]. rewrite E.
  destruct bs2 as [|b bs2].
  { exists (inr (inl st)), s. split; [done|]. exists st. split; [done|]. split; [by exists bs1, []|done]. }
  set (s1 := set_g_marked (upd_queue tail pw q) s).
  assert (H1 : sweeping s0 (shard_items s0 done ++ concat (map b_items bs1)) st s1).
  { destruct H as [A B C D F G]. constructor; try done; [destruct A; by constructor|].
    exact (frame_sets s0 s id id id (upd_queue tail pw q) id B). }
  assert (Hall : all_items (g_marked s0) pw = (shard_items s0 done ++ concat (map b_items bs1)) ++ b_items b ++
    (concat (map b_items bs2) ++ shard_items s0 rest)).
  { unfold all_items. rewrite Eq, map_app, concat_app. cbn [map concat]. unfold items at 2. rewrite E0.
    rewrite map_app, concat_app. cbn [map concat]. unfold shard_items. by rewrite <- !app_assoc. }
  destruct (run_sweep_batch s0 _ st s1 thread (b_items b) (sa_owned _ Hsa) H1) as (st' & s' & Eb & H' & Em).
  - pose proof (sa_nodup _ Hsa) as Hnd. rewrite Hall, app_assoc in Hnd. by apply NoDup_app in Hnd as [Hnd _].
  - intros a Ha. apply (sa_objs _ Hsa). rewrite Hall, !elem_of_app. auto.
  - exists (inl st'), s'. cbn [fst snd]. rewrite run_bind, Eb. split; [done|].
    assert (Eq' : queue_at (g_marked s') pw q = Some bs2).
    { rewrite Em. unfold s1. cbn. rewrite queue_at_upd, decide_True by done. by rewrite E. }
    split; [|rewrite Eq'; cbn; lia]. exists (bs1 ++ [b]), bs2. split; [by rewrite <- app_assoc|]. split; [done|]. split.
    + rewrite map_app, concat_app. cbn [map concat]. by rewrite app_nil_r, app_assoc.
    + intros c i Hne. rewrite Em. unfold s1. cbn. rewrite queue_at_upd, decide_False; [by apply Hother|]. by intros [-> ->].
Qed.
Lemma run_sweep_shard s0 thread done q rest st s : sweepable s0 -> seq 0 OBJ_BATCHES_SHARD = done ++ q :: rest ->
  sweeping s0 (shard_items s0 done) st s -> emptied s0 done s ->
  exists st' s', run (loop fuel (shard_body thread q) st) s = Ok (inl st', s') /\
    sweeping s0 (shard_items s0 (done ++ [q])) st' s' /\ emptied s0 (done ++ [q]) s'.
Proof.
  intros Hsa Eq H [He Ho]. assert (Hq : (q < OBJ_BATCHES_SHARD)%nat /\ q ∉ done).
  { split; [assert (Hin : q ∈ seq 0 OBJ_BATCHES_SHARD) by (rewrite Eq; apply elem_of_app; right; by left); apply elem_of_seq in Hin; lia|].
    pose proof (NoDup_seq 0 OBJ_BATCHES_SHARD) as Hnd. rewrite Eq in Hnd. apply NoDup_app in Hnd as (_ & Hnd & _).
    intros Hd. apply (Hnd q Hd). by left. }
  destruct Hq as [Hq Hnd]. destruct (sa_shards _ Hsa pw q Hq) as [bs Ebs].
  assert (Ebs' : queue_at (g_marked s) pw q = Some bs) by by rewrite He, decide_False.
  destruct (loop_variant (in_shard s0 done q)
    (fun r s' => exists st', r = inl st' /\ in_shard s0 done q st' s' /\ queue_at (g_marked s') pw q = Some [])
    (fun _ s => length (default [] (queue_at (g_marked s) pw q))) (shard_body thread q)) with (fuel := fuel) (l := st) (s := s)
    as (r & s' & E & st' & -> & (bs1 & bs2 & E0 & E1 & H' & Hother) & E2).
  - intros st1 s1 H1. by eapply run_shard_body.
  - exists [], bs. rewrite app_nil_r. split; [done|]. split; [done|]. split; [done|]. intros c i Hne.
    destruct (decide (c = pw)) as [->|Hc]; [|by rewrite decide_False by (by intros [? _]); apply Ho].
    rewrite He. destruct (decide (i ∈ done)); [by rewrite decide_True|]. by rewrite decide_False by (by intros [_ ?]).
  - rewrite Ebs'. by eapply sa_fuel.
  - exists st', s'. split; [done|]. rewrite E1 in E2. injection E2 as ->. rewrite app_nil_r in E0. split.
    + unfold shard_items in *. rewrite map_app, concat_app. cbn [map concat]. unfold items at 2. rewrite E0. by rewrite app_nil_r.
    + split.
      * intros i. destruct (decide (i = q)) as [->|Hi].
        -- rewrite E1, decide_True; [by rewrite E0|]. apply elem_of_app. right. by left.
        -- rewrite Hother by congruence. destruct (decide (i ∈ done)) as [Hd|Hd].
           ++ rewrite !decide_True; [done| |done]. apply elem_of_app. by left.
           ++ rewrite !decide_False; [done| |by intros [_ ?]]. by intros [?|?%list_elem_of_singleton]%elem_of_app.
      * intros c i Hc. rewrite Hother by congruence. by rewrite decide_False by (by intros [? _]).
Qed.
(** Between two workers: the shards [done] are swept, and every survivor is in a batch. *)
Definition idle : sweep_state := mkSweep batch_default 0 rng_new.
Definition worked s0 (done : list nat) s : Prop := sweeping s0 (shard_items s0 done) idle s /\ emptied s0 done s.
Lemma run_sweep_worker s0 thread done range rest s : sweepable s0 -> seq 0 OBJ_BATCHES_SHARD = done ++ range ++ rest -> worked s0 done s ->
  exists s', run (sweep_worker fuel pw thread range) s = Ok (tt, s') /\ worked s0 (done ++ range) s'.
Proof.
  intros Hsa Eq [H He]. unfold sweep_worker. rewrite run_bind.
  destruct (run_for_each_split (R := Empty_set)
    (fun pre st s' => sweeping s0 (shard_items s0 (done ++ pre)) st s' /\ emptied s0 (done ++ pre) s')
    (fun q st => loop fuel (shard_body thread q) st) range idle s) as (st & s1 & E & H1 & He1).
  { by rewrite app_nil_r. }
  { intros pre q post st1 s1 -> [H1 He1]. destruct (run_sweep_shard s0 thread (done ++ pre) q (post ++ rest) st1 s1) as (st2 & s2 & E & H2);
      [done|by rewrite Eq, <- !app_assoc|done..|]. exists st2, s2. split; [done|]. by rewrite app_assoc. }
  match goal with |- context [run ?p s] =>
    change p with (for_each (R := Empty_set) range (fun q st => loop fuel (shard_body thread q) st) idle) end.
  rewrite E. clear E. rewrite run_bind. cbn [fst snd].
  assert (Hend : exists s2, run (if batch_is_empty (sw_batch st) then Ret tt else
      push_fresh_q (flip pw) (rng_usize (sw_rng st) OBJ_BATCHES_SHARD).1 (sw_batch st)) s1 = Ok (tt, s2) /\ worked s0 (done ++ range) s2).
  { unfold batch_is_empty. destruct (b_items (sw_batch st)) as [|x l] eqn:Eb.
    - exists s1. split; [done|]. split; [|done]. destruct H1 as [A B C D F G]. constructor; try done. rewrite Eb in D. exact D.
    - pose proof (rng_usize_lt (sw_rng st) OBJ_BATCHES_SHARD ltac:(unfold OBJ_BATCHES_SHARD; lia)) as Hr.
      eexists. split; [reflexivity|]. split; [|done]. destruct H1 as [A B C D F G]. constructor; cbn.
      + destruct A; by constructor.
      + exact (frame_sets s0 s1 id id _ id id B).
      + by apply shards_ok_upd.
      + rewrite all_items_push by done. by rewrite app_nil_r.
      + intros i. rewrite queue_at_upd, decide_False; [done|]. intros [E _]. by destruct pw.
      + done. }
  destruct Hend as (s2 & E2 & H2 & He2). rewrite E2. eexists. split; [reflexivity|]. split; [|done].
  destruct H2 as [A B C D F G]. constructor; try done; [destruct A; by constructor|].
  exact (frame_sets s0 s2 id id id id (fun x => wadd x (sw_bytes st)) B).
Qed.

Lemma emptied_all s0 s : emptied s0 (seq 0 OBJ_BATCHES_SHARD) s -> all_items (g_marked s) pw = [].
Proof.
  intros [He _]. unfold all_items. apply concat_nil_Forall, Forall_fmap, Forall_forall. intros i Hi.
  cbn. unfold items. rewrite He, decide_True by done. by destruct (queue_at (g_marked s0) pw i).
Qed.

Lemma run_sweep worker_thread s : sweepable s -> shards_ok (g_fresh s) -> 1 <= g_threads s <= Z.of_nat OBJ_BATCHES_SHARD ->
  exists s', run (sweep fuel pw worker_thread) s = Ok (tt, s') /\ worked s (seq 0 OBJ_BATCHES_SHARD) s'.
Proof.
  intros Hsa Hok Ht. set (n := Z.to_nat (g_threads s)).
  assert (Hn : (1 <= n <= OBJ_BATCHES_SHARD)%nat) by (unfold n; lia). pose proof (shard_ranges_cover n Hn) as Hcov.
  destruct (run_foreach (fun pre => worked s (concat (map (shard_range n) pre)))
    (fun i => sweep_worker fuel pw (worker_thread i) (shard_range n i)) (seq 0 n) s) as (s' & E & H).
  - split.
    + constructor; try done; [apply swept_nil|by destruct s].
    + split; [intros i; rewrite decide_False; [done|apply not_elem_of_nil]|done].
  - intros pre i post s1 Eq H1. rewrite map_app, concat_app. cbn [map concat]. rewrite app_nil_r.
    eapply (run_sweep_worker s _ _ _ (concat (map (shard_range n) post))); [done| |done].
    by rewrite <- Hcov, Eq, map_app, concat_app.
  - exists s'. split; [exact E|]. by rewrite Hcov in H.
Qed.

(** C8. A sweep, run without interference, reclaims exactly the garbage its batches hold.  From a state whose marked
    batches of the previous white colour hold distinct live objects, with unrooted links that no two objects share, and
    for any permitted number of scoped workers, the sweep ends with those queues empty; of the objects in them, those that
    kept the white colour are freed with their links and every other one is alive, unchanged, and in a fresh batch of the new
    white colour; every other object and link, and the rest of the state but the statistics, is as before.  Each
    shard needs one round more than it has batches. *)
Theorem sweep_exact worker_thread s : sweepable s -> shards_ok (g_fresh s) -> 1 <= g_threads s <= Z.of_nat OBJ_BATCHES_SHARD ->
  exists s', run (sweep fuel pw worker_thread) s = Ok (tt, s') /\ sweep_frame s s' /\
    swept s (all_items (g_marked s) pw) s' /\ all_items (g_marked s') pw = [] /\
    all_items (g_fresh s') (flip pw) ≡ₚ all_items (g_fresh s) (flip pw) ++ survivors s (all_items (g_marked s) pw).
Proof.
  intros Hsa Hok Ht. destruct (run_sweep worker_thread s Hsa Hok Ht) as (s' & E & H & He). exists s'. split; [exact E|].
  change (shard_items s (seq 0 OBJ_BATCHES_SHARD)) with (all_items (g_marked s) pw) in H.
  destruct H as [A B C D F G]. split; [done|]. split; [done|]. split.
  - apply (emptied_all s). exact He.
  - by rewrite app_nil_r in D.
Qed.
End sweep.
