(* ===== verification/TraceInv.v ===== *)
(** * The invariant of a root-tracing phase

    What holds of the whole state while the collector and its scoped workers scan and drain
    ([src/collector.rs], [root_tracing]) and guards help ([src/guards.rs]): the heap is
    tri-coloured and marks only what is reachable from a root, and every participant is
    either at rest or pinned by one guard in the epoch of the phase. *)
From S2P Require Import Prelude Prog Epoch Meta Slots Registry State Heap Marking Participant Guards.
From S2P Require Import Collector Iter Tasks Tracing Total.
#[local] Open Scope Z_scope.
#[local] Open Scope prog_scope.

(** The epoch word of phase [ph], white colour [W] and timestamp [t]. *)
Definition ep (ph : Phase) (W : Color) (t : Z) : Epoch := encode (mkA false ph W t).
Record reads_as (ex : Epoch) (pin : bool) (ph : Phase) (W : Color) (t : Z) : Prop := {
  ra_phase : phase ex = Ok ph;
  ra_color : color ex = W;
  ra_ts : timestamp ex = t;
  ra_pinned : is_pinned ex = pin
}.
Lemma ep_reads ph W t : 0 <= t < 2 ^ 60 -> reads_as (ep ph W t) false ph W t /\ reads_as (pinned (ep ph W t)) true ph W t.
Proof.
  intros Ht. assert (H : forall b, ts_ok (mkA b ph W t)) by done.
  destruct (encode_accessors _ (H false)) as (E1 & E2 & E3 & E4 & E5 & _).
  destruct (encode_accessors _ (H true)) as (F1 & F2 & F3 & F4 & _).
  unfold ep. split; [by constructor|]. rewrite E5. by constructor.
Qed.
(** The next timestamp, and another phase. *)
Lemma ep_next ph ph' W t : 0 <= t -> t + 1 < 2 ^ 60 ->
  with_phase (with_timestamp (ep ph W t) (wadd (timestamp (ep ph W t)) 1)) ph' = ep ph' W (t + 1).
Proof.
  intros H0 H1. assert (Hw : wmod = 2 ^ 64) by done.
  destruct (encode_accessors (mkA false ph W t)) as (_ & _ & _ & E4 & _ & _ & _ & _ & E9); [split; cbn; lia|].
  unfold ep. rewrite E4. cbn [a_ts]. unfold wadd. rewrite (Z.mod_small (t + 1)) by lia. rewrite E9, (Z.mod_small (t + 1)) by lia.
  destruct (encode_accessors (mkA false ph W (t + 1))) as (_ & _ & _ & _ & _ & _ & E7 & _); [split; cbn; lia|]. apply E7.
Qed.

(** A batch of a participant with nothing in it, and room. *)
Definition spent (b : ObjBatch * Z) : Prop := b_items b.1 = [] /\ (0 < b_cap b.1)%nat.
Lemma spent_default : spent (batch_default, 0).
Proof. split; [done|]. apply Nat.lt_0_succ. Qed.

Section inv.
Context {EX : Extern} {V : Type}.
Implicit Types (s : gstate V) (nd : node local).

(** ** Roots *)
(** An address published in a hazard slot of a participant in use. *)
Definition hazard s (a : Z) : Prop := exists k nd,
  nodes (g_locals s) !! k = Some nd /\ is_using nd = true /\ a ∈ l_hazards (n_item nd).
Definition rooted s (a : Z) : Prop := exists o,
  g_objs s !! a = Some o /\ (0 < ObjMeta.root_count (o_hdr o) \/ hazard s a).
(** What a collection has to keep. *)
Definition kept s (a : Z) : Prop := exists q, rooted s q /\ reach s q a.

Lemma kept_edge s a b : kept s a -> edge s a b -> kept s b.
Proof. intros (q & Hq & Hr) He. exists q. split; [done|]. by eapply rtc_r. Qed.

(** ** Participants *)
Context (W : Color) (t : Z) (s0 : gstate V).
Let e := ep RT W t.
Let B := flip W.

(** A participant during the phase: [act] says whether a guard pins it, which only the
    collector and its workers do, who publish no hazard. *)
Record part (act : bool) nd : Prop := {
  pt_count : l_guard_count (n_item nd) = if act then 1 else 0;
  pt_epoch : l_epoch (n_item nd) = if act then pinned e else starting;
  pt_hazard : forall p, p ∈ l_hazards (n_item nd) -> p <> 0 -> n_using nd <> None /\ hazard s0 p;
  pt_len : length (l_objs (n_item nd)) = 2%nat;
  pt_objs : forall b, b ∈ l_objs (n_item nd) -> spent b;
  pt_mt : l_mt_modified_ts (n_item nd) <= t;
  pt_cached : forall h e', l_cached (n_item nd) = Some (h, e') -> timestamp e' <= t /\
    (data e' = data (pinned e) -> forall a, a <> 0 -> a ∈ h <-> hazard s0 a);
  pt_zero : act = true -> forall p, p ∈ l_hazards (n_item nd) -> p = 0
}.
Definition parts (act : gset nat) (ns : list (node local)) : Prop := forall k nd,
  ns !! k = Some nd -> part (bool_decide (k ∈ act)) nd.
(** The collector's participant publishes nothing. *)
Definition self (l : nat) (ns : list (node local)) : Prop := exists nd,
  ns !! l = Some nd /\ is_using nd = true /\ forall p, p ∈ l_hazards (n_item nd) -> p = 0.

(** The links of the unmarked objects and the queued tasks: the work left. *)
Definition todo s : nat := (work B (g_objs s) + length (all_tasks s))%nat.
(** [l] is the collector's participant, [m] bounds the number of participants, [w] the work
    left, and [X] are tasks somebody took and has not finished. *)
Record tracing (l m w : nat) (act : gset nat) (X : list Z) s : Prop := {
  tr_wf : wf s;
  tr_shape : same_shape s0 s;
  tr_tri : tri B s (X ++ all_tasks s);
  tr_sound : forall a, black B s a \/ a ∈ X ++ all_tasks s -> kept s0 a;
  tr_work : (todo s <= w)%nat;
  tr_epoch : g_epoch s = e;
  tr_parts : parts act (nodes (g_locals s));
  tr_hazards : forall a, a <> 0 -> hazard s0 a -> hazard s a;
  tr_self : self l (nodes (g_locals s));
  tr_length : (length (nodes (g_locals s)) <= m)%nat;
  tr_threads : g_threads s = g_threads s0
}.

(** ** What leaves the invariant alone *)
Lemma tracing_frame l m w act X s s' : tracing l m w act X s ->
  g_objs s' = g_objs s -> g_cells s' = g_cells s -> g_locals s' = g_locals s -> g_epoch s' = g_epoch s -> g_threads s' = g_threads s ->
  tracing l m w act X s'.
Proof.
  intros [H1 H2 H3 H4 H5 H6 H7 H8 H9 H10 H11] Eo Ec El Ee Et.
  assert (Ek : all_tasks s' = all_tasks s) by (unfold all_tasks; by rewrite El).
  constructor; unfold hazard, todo; rewrite ?Ek, ?El, ?Ee, ?Et; try done.
  - by apply (wf_objs s).
  - eapply same_shape_trans; [exact H2|]. by apply (shape_objs s).
  - by apply (tri_objs B s s' (X ++ all_tasks s)).
  - intros a. rewrite (black_objs B s s' a Eo). apply H4.
  - by rewrite Eo.
Qed.

(** The record of one participant, its tasks and hazards apart. *)
Lemma put_tasks l s r r' : local_of s l = Some r -> l_tasks r' = l_tasks r -> all_tasks (put_local l r' s) ≡ₚ all_tasks s.
Proof. intros Hl E. destruct (tasks_split _ _ _ Hl) as (rest & E1 & E2). by rewrite E1, E2, E. Qed.
Lemma nodes_put k r s j : nodes (g_locals (put_local k r s)) !! j =
  if decide (j = k) then upd_item (fun _ => r) <$> nodes (g_locals s) !! j else nodes (g_locals s) !! j.
Proof.
  unfold put_local. cbn. destruct (decide (j = k)) as [->|].
  - apply list_lookup_alter_eq.
  - by apply list_lookup_alter_ne.
Qed.
Lemma hazard_put k r r' s a : local_of s k = Some r -> l_hazards r' = l_hazards r -> hazard (put_local k r' s) a <-> hazard s a.
Proof.
  intros (nd0 & Hnd0 & ->)%fmap_Some E. unfold hazard. split; intros (j & nd & Hj & Hu & Ha).
  - rewrite nodes_put in Hj. destruct (decide (j = k)) as [->|]; [|by exists j, nd].
    rewrite Hnd0 in Hj. injection Hj as <-. exists k, nd0. cbn in Ha. rewrite E in Ha. done.
  - exists j. rewrite nodes_put. destruct (decide (j = k)) as [->|]; [|by exists nd].
    rewrite Hnd0. eexists. split; [done|]. rewrite Hnd0 in Hj. injection Hj as <-. cbn. by rewrite E.
Qed.
Lemma self_put l k r r' s : local_of s k = Some r -> l_hazards r' = l_hazards r ->
  self l (nodes (g_locals s)) -> self l (nodes (g_locals (put_local k r' s))).
Proof.
  intros (nd0 & Hnd0 & ->)%fmap_Some E (nd & Hnd & Hu & Hz). unfold self. rewrite nodes_put.
  destruct (decide (l = k)) as [->|]; [|by exists nd]. rewrite Hnd. eexists. split; [done|]. split; [done|].
  rewrite Hnd in Hnd0. injection Hnd0 as <-. cbn. by rewrite E.
Qed.
Lemma tracing_put l m w act act' X s k r r' : tracing l m w act X s -> local_of s k = Some r ->
  l_hazards r' = l_hazards r -> l_tasks r' = l_tasks r -> (forall j, j <> k -> j ∈ act' <-> j ∈ act) ->
  (forall u, part (bool_decide (k ∈ act)) (mkNode u r) -> part (bool_decide (k ∈ act')) (mkNode u r')) ->
  tracing l m w act' X (put_local k r' s).
Proof.
  intros [H1 H2 H3 H4 H5 H6 H7 H8 H9 H10 H11] Hl Eh Et Ha Hp. pose proof (put_tasks _ _ _ _ Hl Et) as Ek.
  constructor; try done.
  - by apply (wf_objs s).
  - apply (tri_objs B s _ (X ++ all_tasks s)); [done|done|by rewrite Ek|done].
  - intros a. rewrite (black_objs B s _ a eq_refl), Ek. apply H4.
  - unfold todo. by rewrite Ek.
  - intros j nd. rewrite nodes_put. destruct (decide (j = k)) as [->|Hne].
    + intros (nd0 & Hnd0 & ->)%fmap_Some. specialize (H7 k nd0 Hnd0).
      unfold local_of in Hl. rewrite Hnd0 in Hl. injection Hl as <-. destruct nd0. by apply Hp.
    + intros Hj. specialize (H7 j nd Hj). by rewrite (bool_decide_ext (j ∈ act') (j ∈ act)) by by apply Ha.
  - intros a Hn Hz. rewrite (hazard_put _ _ _ _ _ Hl Eh). auto.
  - by eapply self_put.
  - unfold put_local. cbn. by rewrite length_alter.
Qed.

(** The list of participants. *)
Lemma tracing_nodes l m m' w act X s s' : tracing l m w act X s ->
  g_objs s' = g_objs s -> g_cells s' = g_cells s -> g_epoch s' = g_epoch s -> g_threads s' = g_threads s -> all_tasks s' = all_tasks s ->
  parts act (nodes (g_locals s')) -> (forall a, a <> 0 -> hazard s a -> hazard s' a) -> self l (nodes (g_locals s')) ->
  (length (nodes (g_locals s')) <= m')%nat -> tracing l m' w act X s'.
Proof.
  intros [H1 H2 H3 H4 H5 H6 H7 H8 H9 H10 H11] Eo Ec Ee Et Ek Hp Hz Hs Hl. constructor; unfold todo; rewrite ?Ek, ?Ee, ?Et; try done.
  - by apply (wf_objs s).
  - eapply same_shape_trans; [exact H2|]. by apply (shape_objs s).
  - by apply (tri_objs B s s' (X ++ all_tasks s)).
  - intros a. rewrite (black_objs B s s' a Eo). apply H4.
  - by rewrite Eo.
  - auto.
Qed.
(** The queues of tasks. *)
Lemma part_tasks act nd ts : part act nd <-> part act (upd_item (set_l_tasks (fun _ => ts)) nd).
Proof. split; intros []; constructor; done. Qed.
Lemma tracing_take l m w act X s s' a : tracing l m w act X s -> same_but_tasks s s' -> all_tasks s ≡ₚ a :: all_tasks s' ->
  tracing l m w act (a :: X) s' /\ todo s = Datatypes.S (todo s').
Proof.
  intros [H1 H2 H3 H4 H5 H6 H7 H8 H9 H10 H11] Hs Hp. pose proof (same_tasks_nodes _ _ Hs) as En.
  assert (Hnd : forall k nd', nodes (g_locals s') !! k = Some nd' -> exists nd ts, nodes (g_locals s) !! k = Some nd /\
    n_using nd' = n_using nd /\ n_item nd' = set_l_tasks (fun _ => ts) (n_item nd)).
  { intros k nd' Hk'. apply (f_equal (fun x => x !! k)) in En. rewrite !list_lookup_fmap, Hk' in En.
    destruct (nodes (g_locals s) !! k) as [nd|]; [|done]. exists nd, (l_tasks (n_item nd')). split; [done|].
    cbn in En. injection En as En1 En2. split; [done|]. destruct (n_item nd), (n_item nd'). cbn in *. by simplify_eq. }
  assert (Hnd' : forall k nd, nodes (g_locals s) !! k = Some nd -> exists nd' ts, nodes (g_locals s') !! k = Some nd' /\
    n_using nd' = n_using nd /\ n_item nd' = set_l_tasks (fun _ => ts) (n_item nd)).
  { intros k nd Hk'. assert (is_Some (nodes (g_locals s') !! k)) as [nd' Hnd2].
    { apply lookup_lt_is_Some. rewrite (same_tasks_length _ _ Hs). by eapply lookup_lt_Some. }
    destruct (Hnd k nd' Hnd2) as (nd1 & ts & E & Eu & Ei). rewrite Hk' in E. injection E as <-. by exists nd', ts. }
  destruct (same_tasks_objs _ _ Hs) as [Eo Ec].
  assert (Ew : todo s = Datatypes.S (todo s')) by (unfold todo; rewrite Hp, Eo; cbn; lia). split; [|done].
  assert (HX : X ++ all_tasks s ≡ₚ (a :: X) ++ all_tasks s') by (rewrite Hp; symmetry; apply Permutation_middle). constructor.
  - by apply (wf_objs s).
  - eapply same_shape_trans; [exact H2|]. by apply (shape_objs s).
  - by apply (tri_objs B s s' (X ++ all_tasks s)).
  - intros x. rewrite (black_objs B s s' x Eo), <- HX. apply H4.
  - lia.
  - etransitivity; [exact (eq_sym (f_equal g_epoch Hs))|exact H6].
  - intros k nd' Hk'. destruct (Hnd k nd' Hk') as (nd & ts & E & Eu & Ei).
    replace nd' with (upd_item (set_l_tasks (fun _ => ts)) nd); [by apply part_tasks, H7|].
    destruct nd'. cbn in Eu, Ei. subst. by destruct nd.
  - intros x Hn Hz. destruct (H8 x Hn Hz) as (k & nd & Hk' & Hu & Ha). destruct (Hnd' k nd Hk') as (nd' & ts & E & Eu & Ei).
    exists k, nd'. split; [done|]. unfold is_using in *. rewrite Eu, Ei. done.
  - destruct H9 as (nd & Hk' & Hu & Hz). destruct (Hnd' l nd Hk') as (nd' & ts & E & Eu & Ei).
    exists nd'. split; [done|]. unfold is_using in *. rewrite Eu, Ei. done.
  - by rewrite (same_tasks_length _ _ Hs).
  - etransitivity; [exact (eq_sym (f_equal g_threads Hs))|exact H11].
Qed.

(** ** Marking *)
(** What every step of tracing promises besides the invariant. *)
Record quiet s s' : Prop := {
  qt_black : forall a, black B s a -> black B s' a;
  qt_fresh : g_fresh s' = g_fresh s;
  qt_marked : g_marked s' = g_marked s;
  qt_length : length (nodes (g_locals s')) = length (nodes (g_locals s))
}.
#[export] Instance quiet_preorder : PreOrder quiet.
Proof. split; [by constructor|]. intros s1 s2 s3 [A1 A2 A3 A4] [B1 B2 B3 B4]. constructor; [auto|congruence..]. Qed.

Context (Ht : 0 <= t < 2 ^ 60).
(** A guard that pins its participant in the phase. *)
Definition guarded (act : gset nat) (g : guard) s : Prop :=
  gd_local g ∈ act /\ (gd_local g < length (nodes (g_locals s)))%nat.
Lemma guarded_quiet act g s s' : quiet s s' -> guarded act g s -> guarded act g s'.
Proof. intros [_ _ _ E] [H1 H2]. split; [done|]. by rewrite E. Qed.
Lemma tracing_local l m w act X s g : tracing l m w act X s -> guarded act g s ->
  exists nd, nodes (g_locals s) !! gd_local g = Some nd /\ part true nd /\
    local_of s (gd_local g) = Some (n_item nd) /\ phase_ok (n_item nd) /\ black_of (n_item nd) = B.
Proof.
  intros H [Ha [nd Hnd]%lookup_lt_is_Some]. pose proof (tr_parts _ _ _ _ _ _ H _ _ Hnd) as Hp.
  rewrite bool_decide_true in Hp by done. exists nd. split; [done|]. split; [done|].
  destruct (proj2 (ep_reads RT W t Ht)) as [E1 E2 _ _]. split; [unfold local_of; by rewrite Hnd|].
  unfold phase_ok, black_of. rewrite (pt_epoch _ _ Hp). split; [by exists RT|]. unfold B. f_equal. exact E2.
Qed.
Lemma tri_cons s Q a : tri B s Q -> is_Some (g_objs s !! a) -> tri B s (a :: Q).
Proof.
  intros [H1 H2 H3] Ha. constructor; [done| |].
  - intros c p Hc Hm Hn. destruct (H2 c p Hc Hm Hn) as [?|?]; [by left|right; by right].
  - intros x [->|Hx]%elem_of_cons; auto.
Qed.
(** Tasks come from white links, of which a marked object has none. *)
Lemma queued_black s Q r a o ts : black_of r = B -> tri B s Q -> g_objs s !! a = Some o ->
  ObjMeta.marked (o_hdr o) = B -> queued r (g_objs s) (o_links o) (g_cells s) ts -> ts = [].
Proof.
  intros HB Htr Ho Hm (_ & Hq & _). destruct ts as [|x ts]; [done|]. exfalso.
  destruct (Hq x ltac:(by left)) as (c & p & Hc & Hcp & Hp & Hne & _). apply Hne. rewrite HB.
  by eapply (tri_links _ _ _ Htr a o c p).
Qed.
Lemma part_pushed nd ts n : part true nd -> part true (mkNode (n_using nd) (pushed ts n (n_item nd))).
Proof.
  intros [H1 H2 H3 H4 H5 H6 H7 H8]. constructor; cbn; try done. destruct ts; [done|]. rewrite H2.
  apply Z.eq_le_incl, (ra_ts _ _ _ _ _ (proj2 (ep_reads RT W t Ht))).
Qed.
(** A root of the heap may be taken as a task at any time. *)
Lemma tracing_hold l m w act X s a : tracing l m w act X s -> is_Some (g_objs s !! a) -> kept s0 a -> tracing l m w act (a :: X) s.
Proof.
  intros [H1 H2 H3 H4 H5 H6 H7 H8 H9 H10 H11] Ha Hk. constructor; try done; [by apply tri_cons|].
  intros x [Hx|[->|Hx]%elem_of_cons]; auto.
Qed.
Lemma tracing_mark f l m w act X s g a : tracing l m w act (a :: X) s -> guarded act g s ->
  yields (mark_obj_mark (S f) a g) s (fun _ s' => tracing l m w act X s' /\ quiet s s' /\ black B s' a /\ (todo s' <= todo s)%nat).
Proof.
  intros H Hg. destruct (tri_queued _ _ _ (tr_tri _ _ _ _ _ _ H) a ltac:(by left)) as [o Ho].
  destruct (tracing_local _ _ _ _ _ _ _ H Hg) as (nd & Hnd & Hp & Hl & Hph & HB).
  set (r := n_item nd) in *. pose proof H as [H1 H2 H3 H4 H5 H6 H7 H8 H9 H10 H11].
  destruct (wf_hdr _ H1 _ _ Ho) as (h & Hh & Eh).
  destruct (run_mark_obj f a g s r o h Hl Hph Ho Hh Eh (fun c => wf_link _ H1 _ _ c Ho)) as (ts & cells' & s' & E & Htr & Hbl & Hq).
  eapply yields_run; [exact E|]. pose proof (traced_cells _ _ _ _ _ _ Htr) as [Ec Eo].
  destruct (mark_tri r s s' (X ++ all_tasks s) a o h ts cells' H1) as (Hw & Hs & Ht' & Hblk); try done.
  { by rewrite HB. }
  rewrite HB in Ht', Hblk. pose proof (traced_tasks _ _ _ _ _ _ Htr) as Ek.
  pose proof Htr as (r1 & n & hp & Hl1 & Es'). rewrite Hl in Hl1. injection Hl1 as <-.
  assert (En : nodes (g_locals s') = nodes (g_locals (put_local (gd_local g) (pushed ts n r) s))) by by rewrite Es'.
  assert (Hwk : (todo s' <= todo s)%nat).
  { unfold todo. rewrite Ek, length_app. pose proof (work_insert B (g_objs s) a o (blacken_obj r o) Ho) as Hwk. rewrite <- Eo in Hwk.
    assert (Hb' : links_left B (blacken_obj r o) = 0%nat).
    { unfold links_left. rewrite decide_True; [done|]. unfold blacken_obj, set_o_hdr. cbn [o_hdr].
      rewrite Eh, ObjMeta.encode_with_marked by done. rewrite HB. by apply ObjMeta.encode_marked. }
    rewrite Hb' in Hwk. unfold links_left in Hwk. destruct (decide (ObjMeta.marked (o_hdr o) = B)) as [Em|Em].
    - rewrite (queued_black s _ r a o ts HB H3 Ho Em Hq). cbn. lia.
    - destruct Hq as (_ & _ & Hlen). lia. }
  split; [|split; [|split; [apply Hblk; by right|done]]].
  - constructor.
    + done.
    + by eapply same_shape_trans.
    + eapply (tri_objs B s' s'); [done|done| |exact Ht']. by rewrite Ek, app_assoc.
    + intros x. rewrite Hblk, Ek, app_assoc, (elem_of_app (X ++ _)). intros [[Hx| ->]|[Hx|Hx]]; [apply H4; by left|apply H4; right; by left|apply H4; right; by right|].
      apply (kept_edge _ a); [apply H4; right; by left|]. apply (same_shape_edge _ _ _ _ H2).
      destruct (proj1 (proj2 Hq) x Hx) as (c & p & Hc & Hcp & Hpp & _ & Hwt & ->). exists o, c, p. split_and!; try done.
      intros E0. unfold white_target in Hwt. by rewrite E0 in Hwt.
    + lia.
    + by rewrite Es'.
    + rewrite En. intros j nd' Hj. rewrite nodes_put in Hj. destruct (decide (j = gd_local g)) as [->|]; [|by apply H7].
      rewrite Hnd in Hj. injection Hj as <-. rewrite bool_decide_true by apply Hg. by apply part_pushed.
    + intros x Hn Hz. unfold hazard. rewrite En. apply (hazard_put _ r); [done|done|]. auto.
    + rewrite En. by apply (self_put _ _ r).
    + rewrite (traced_length _ _ _ _ _ _ Htr). done.
    + by rewrite Es'.
  - constructor; [intros x Hx; apply Hblk; by left|by rewrite Es'|by rewrite Es'|by eapply traced_length].
Qed.
(** A task, or a hazard marker. *)
Lemma tracing_call f l m w act X s g a : tracing l m w act (a :: X) s -> guarded act g s ->
  yields (task_call (S f) a g) s (fun _ s' => tracing l m w act X s' /\ quiet s s' /\ black B s' a /\ (todo s' <= todo s)%nat).
Proof.
  intros H Hg. destruct (tri_queued _ _ _ (tr_tri _ _ _ _ _ _ H) a ltac:(by left)) as [o Ho].
  destruct (tracing_local _ _ _ _ _ _ _ H Hg) as (nd & Hnd & Hp & Hl & Hph & HB).
  unfold task_call, obj_mark. step_with (run_is_marked a g s _ o Hl Ho). destruct (is_black (n_item nd) o) eqn:Eb; cbn [negb].
  - assert (Hb : black B s a) by (exists o; apply bool_decide_eq_true in Eb; by rewrite Eb).
    apply yields_ret. split; [|done]. destruct H as [H1 H2 H3 H4 H5 H6 H7 H8 H9 H10 H11].
    constructor; try done; [by eapply tri_black|]. intros x [Hx|Hx]; apply H4; [by left|right; by right].
  - by apply (tracing_mark f l m w act X).
Qed.
End inv.
