(* ===== verification/Roots.v ===== *)
(** * The scan for roots ([src/collector.rs], [scan_allocated_objs])

    Pinning, publishing the pending batches, collecting the hazards, the scoped workers, and
    the help a guard gives when it is dropped: each keeps the invariant of [TraceInv], and
    after the scan every root is marked. *)
From S2P Require Import Prelude Prog Epoch Meta Slots Registry State Heap Marking Participant Guards.
From S2P Require Import Collector Iter Total Frame Tasks Tracing Sweep TraceInv.
#[local] Open Scope Z_scope.
#[local] Open Scope prog_scope.

Section pinning.
Context {EX : Extern} {V : Type}.
Implicit Types (s : gstate V).

(** ** Pinning *)
Lemma run_no_barrier R l s r f : local_of s l = Some r -> (forall p, p ∈ l_hazards r -> p = 0) ->
  run (phase_barrier f R l) s = Ok (tt, s).
Proof.
  intros Hl Hz. unfold phase_barrier. rewrite run_bind, (run_get_local _ _ _ _ Hl).
  set (xs := seq 0 _). assert (Hxs : forall i, i ∈ xs -> (i < length (l_hazards r))%nat).
  { intros i Hi. apply elem_of_seq in Hi. lia. }
  clearbody xs. induction xs as [|i xs IH]; [done|]. cbn [foreach].
  destruct (lookup_lt_is_Some_2 (l_hazards r) i) as [p Hp]; [apply Hxs; by left|].
  rewrite run_bind, run_bind, (run_get_local _ _ _ _ Hl), Hp. cbn [unchecked bind].
  rewrite (Hz p) by by eapply list_elem_of_lookup_2. apply IH. intros j Hj. apply Hxs. by right.
Qed.
Definition pin_rec (e : Epoch) (r : local) : local :=
  set_l_last_observed (fun _ => e) (set_l_epoch (fun _ => pinned e) (set_l_guard_count (fun _ => 1) r)).
Lemma run_pin_inner f R l s r ph : local_of s l = Some r -> l_guard_count r = 0 -> (ph = RT -> forall p, p ∈ l_hazards r -> p = 0) ->
  phase (g_epoch s) = Ok ph -> run (pin_inner (S f) R l) s = Ok (tt, put_local l (pin_rec (g_epoch s) r) s).
Proof.
  intros Hl Hc Hz Hph. unfold pin_inner. rewrite run_bind, (run_get_local _ _ _ _ Hl), Hc.
  cbn [Z.add]. change (0 + 1) with 1. change (1 <? wmod) with true. cbn [unwrap bind].
  rewrite run_bind, (run_upd_local _ _ _ _ Hl), Z.eqb_refl.
  set (r2 := set_l_guard_count (fun _ => 1) r). set (s2 := put_local l r2 s).
  assert (Hl2 : local_of s2 l = Some r2) by (apply local_of_put; by exists r).
  unfold pin_freshly. rewrite run_bind. cbn [load_epoch gets atomic run].
  change (g_epoch s2) with (g_epoch s). rewrite run_bind. cbn [loop]. rewrite run_bind, run_bind, (run_upd_local _ _ _ _ Hl2).
  set (r3 := set_l_epoch (fun _ => pinned (g_epoch s)) r2). set (s3 := put_local l r3 s2).
  assert (Hl3 : local_of s3 l = Some r3) by (apply local_of_put; by exists r2).
  rewrite run_bind. cbn [load_epoch gets atomic run]. change (g_epoch s3) with (g_epoch s). rewrite Z.eqb_refl. cbn [run].
  rewrite run_bind, (run_get_local _ _ _ _ Hl3). set (r4 := set_l_last_observed (fun _ => g_epoch s) r3).
  assert (Hend : run (upd_local l (set_l_last_observed (fun _ => g_epoch s))) s3 = Ok (tt, put_local l r4 s3)).
  { by rewrite (run_upd_local _ _ _ _ Hl3). }
  assert (Es : put_local l r4 s3 = put_local l (pin_rec (g_epoch s) r) s) by (unfold s3, s2; by rewrite !put_put_local).
  rewrite run_bind. destruct (timestamp (l_last_observed r3) =? timestamp (g_epoch s)).
  - cbn [run]. by rewrite Hend, Es.
  - rewrite run_bind. unfold phase_of. rewrite Hph. cbn [of_res run]. destruct (decide (ph = RT)) as [Ert|].
    + rewrite (run_no_barrier R l s3 r3 (S f) Hl3); [|exact (Hz Ert)]. by rewrite Hend, Es.
    + cbn [run]. by rewrite Hend, Es.
Qed.
Lemma run_pin f l s r ph : local_of s l = Some r -> l_guard_count r = 0 -> (ph = RT -> forall p, p ∈ l_hazards r -> p = 0) ->
  phase (g_epoch s) = Ok ph ->
  exists i, run (pin (S f) l) s = Ok (mkGuard i l, put_local l (pin_rec (g_epoch s) r) (set_g_help <[i := false]> s)).
Proof.
  intros Hl Hc Hz Hph. set (i := fresh (dom (g_help s))). exists i.
  unfold pin. cbn [tie r_pin]. unfold pin_body, guard_new. rewrite run_bind. cbn [atomic run]. fold i. set (s1 := set_g_help <[i := false]> s).
  by rewrite run_bind, (run_pin_inner f _ l s1 r ph Hl Hc Hz Hph).
Qed.

Definition unpin_rec (r : local) : local := set_l_epoch (fun _ => starting) (set_l_guard_count (fun _ => 0) r).
Lemma run_unpin l s r : local_of s l = Some r -> l_guard_count r = 1 ->
  run (unpin_inner l) s = Ok (tt, put_local l (unpin_rec r) s).
Proof.
  intros Hl Hc. unfold unpin_inner. rewrite run_bind, (run_get_local _ _ _ _ Hl), Hc.
  change (checked_sub 1 1) with (@Ret (gstate V) Z 0). cbn [bind]. rewrite run_bind, (run_upd_local _ _ _ _ Hl).
  change (1 =? 1) with true. cbv iota.
  erewrite run_upd_local by (apply local_of_put; by exists r). by rewrite put_put_local.
Qed.
End pinning.

(** ** The batches of the global queues *)
Section batches.
Implicit Types (qs : list (list (list ObjBatch))).
Definition batches qs (c : Color) : list ObjBatch :=
  concat (map (fun i => default [] (queue_at qs c i)) (seq 0 OBJ_BATCHES_SHARD)).
Lemma all_items_batches qs c : all_items qs c = concat (map b_items (batches qs c)).
Proof.
  unfold all_items, batches. induction (seq 0 OBJ_BATCHES_SHARD) as [|i l IH]; [done|]. cbn [map concat].
  rewrite IH, map_app, concat_app. f_equal. unfold items. by destruct (queue_at qs c i).
Qed.
Lemma batches_push qs c i b : shards_ok qs -> (i < OBJ_BATCHES_SHARD)%nat ->
  batches (upd_queue (fun q => q ++ [b]) c i qs) c ≡ₚ batches qs c ++ [b].
Proof.
  intros Hok Hi. unfold batches. apply (concat_grow _ _ _ i); [apply NoDup_seq|apply elem_of_seq; lia| |].
  - rewrite queue_at_upd, decide_True by done. by destruct (Hok c i Hi) as [bs ->].
  - intros j Hj. rewrite queue_at_upd, decide_False; [done|]. by intros [_ ->].
Qed.
Lemma batches_pop qs c i b bs : (i < OBJ_BATCHES_SHARD)%nat -> queue_at qs c i = Some (b :: bs) ->
  batches qs c ≡ₚ batches (upd_queue tail c i qs) c ++ [b].
Proof.
  intros Hi E. unfold batches.
  assert (H : forall l, NoDup l -> i ∈ l -> concat (map (fun i => default [] (queue_at qs c i)) l) ≡ₚ
    concat (map (fun j => default [] (queue_at (upd_queue tail c i qs) c j)) l) ++ [b]);
    [|apply H; [apply NoDup_seq|apply elem_of_seq; lia]].
  assert (Hne : forall j, j <> i -> queue_at (upd_queue tail c i qs) c j = queue_at qs c j).
  { intros j Hj. rewrite queue_at_upd, decide_False; [done|]. by intros [_ ->]. }
  induction l as [|j l IH]; intros Hnd Hin; [by apply not_elem_of_nil in Hin|]. apply NoDup_cons in Hnd as [Hj Hnd].
  cbn [map concat]. destruct (decide (j = i)) as [->|Hji].
  - rewrite E, queue_at_upd, decide_True, E by done. cbn.
    assert (Em : map (fun j => default [] (queue_at (upd_queue tail c i qs) c j)) l = map (fun i => default [] (queue_at qs c i)) l).
    { apply map_ext_in. intros x Hx%list_elem_of_In. rewrite Hne; [done|]. by intros ->. }
    rewrite Em, <- app_assoc. rewrite (Permutation_cons_append _ b), <- app_assoc. done.
  - rewrite (Hne j Hji). apply elem_of_cons in Hin as [|Hin]; [done|]. by rewrite IH, app_assoc.
Qed.
Lemma batches_other f qs c c' i : c <> c' -> batches (upd_queue f c i qs) c' = batches qs c'.
Proof.
  intros Hne. unfold batches. f_equal. apply map_ext. intros j. rewrite queue_at_upd, decide_False; [done|]. by intros [-> _].
Qed.
Lemma batches_at qs c i bs : (i < OBJ_BATCHES_SHARD)%nat -> queue_at qs c i = Some bs -> bs ⊆+ batches qs c.
Proof.
  intros Hi E. unfold batches. assert (Hin : i ∈ seq 0 OBJ_BATCHES_SHARD) by (apply elem_of_seq; lia).
  apply list_elem_of_split in Hin as (l1 & l2 & ->). rewrite map_app, concat_app. cbn [map concat]. rewrite E. cbn.
  etransitivity; [|apply submseteq_inserts_l; reflexivity]. by apply submseteq_inserts_r.
Qed.
Lemma batches_nil qs c : shards_ok qs -> (forall i, (i < OBJ_BATCHES_SHARD)%nat -> queue_at qs c i = Some []) -> batches qs c = [].
Proof.
  intros _ H. unfold batches. apply concat_nil_Forall, Forall_fmap, Forall_forall. intros i Hi%elem_of_seq.
  cbn. rewrite H by lia. done.
Qed.
End batches.
#[global] Arguments batches qs c : simpl never.

Section roots.
Context {EX : Extern} {V : Type} (fuel : nat).
Context (W : Color) (t : Z) (s0 : gstate V) (BS : list ObjBatch).
Implicit Types (s : gstate V).
Let e := ep RT W t.
Let B := flip W.
Context (Ht : 0 <= t < 2 ^ 60).
Context (HBS : forall b a, b ∈ BS -> a ∈ b_items b -> is_Some (g_objs s0 !! a)).
Context (Hnull : g_objs s0 !! 0 = None).
#[local] Abbreviation tracing := (tracing W t s0).

(** The batches of the cycle are in the queues or in somebody's hands, [X]; those in the
    marked queues have been scanned. *)
Record scanning (X : list ObjBatch) s : Prop := {
  sc_fresh : shards_ok (g_fresh s);
  sc_marked : shards_ok (g_marked s);
  sc_all : batches (g_fresh s) W ++ batches (g_marked s) W ++ X ≡ₚ BS;
  sc_fresh_black : batches (g_fresh s) B = [];
  sc_marked_black : batches (g_marked s) B = [];
  sc_roots : forall b a, b ∈ batches (g_marked s) W -> a ∈ b_items b -> rooted s0 a -> black B s a
}.
(** Tracing moves forward: marks stay, and nothing returns to the fresh queues. *)
Record grows s s' : Prop := {
  gr_black : forall a, black B s a -> black B s' a;
  gr_fresh : forall i, queue_at (g_fresh s) W i = Some [] -> queue_at (g_fresh s') W i = Some [];
  gr_length : length (nodes (g_locals s')) = length (nodes (g_locals s))
}.
#[export] Instance grows_preorder : PreOrder grows.
Proof. split; [by constructor|]. intros s1 s2 s3 [A1 A2 A3] [B1 B2 B3]. constructor; [auto|auto|congruence]. Qed.
Lemma quiet_grows s s' : quiet W s s' -> grows s s'.
Proof. intros [A1 A2 A3 A4]. constructor; [done|by rewrite A2|done]. Qed.
Lemma guarded_grows act g s s' : grows s s' -> guarded act g s -> guarded act g s'.
Proof. intros [_ _ E] [H1 H2]. split; [done|]. by rewrite E. Qed.
Lemma scanning_quiet X s s' : quiet W s s' -> scanning X s -> scanning X s'.
Proof.
  intros [A1 A2 A3 A4] [H1 H2 H3 H4 H5 H6]. constructor; rewrite ?A2, ?A3; [done..|]. intros b a Hb Ha Hr. eauto.
Qed.

(** ** Records of participants *)
(** A step that only touches the record of a participant, tasks apart. *)
Definition noop s s' : Prop := quiet W s s' /\ all_tasks s' ≡ₚ all_tasks s.
#[export] Instance noop_preorder : PreOrder noop.
Proof. split; [by split|]. intros s1 s2 s3 [A1 A2] [B1 B2]. split; etransitivity; eassumption. Qed.
(** A step that rewrites the record of the guard's participant. *)
Lemma tracing_upd l m w act X s g (f : local -> local) : tracing l m w act X s -> guarded act g s ->
  (forall r, l_hazards (f r) = l_hazards r /\ l_tasks (f r) = l_tasks r) ->
  (forall u r, part W t s0 true (mkNode u r) -> part W t s0 true (mkNode u (f r))) ->
  yields (upd_local (gd_local g) f) s (fun _ s' => tracing l m w act X s' /\ noop s s').
Proof.
  intros H Hg Hf Hp. destruct (tracing_local _ _ _ Ht _ _ _ _ _ _ _ H Hg) as (nd & Hnd & Hpt & Hl & _).
  eapply yields_run; [by apply run_upd_local|]. split.
  - eapply tracing_put; [done|done|apply Hf|apply Hf|done|]. rewrite bool_decide_true by apply Hg. intros u. apply Hp.
  - split; [constructor; [done..|]; unfold put_local; cbn; by rewrite length_alter|]. apply (put_tasks _ _ _ _ Hl), Hf.
Qed.
(** A flag raised during a call. *)
Lemma tracing_flag (P : gstate V -> Prop) l m w act X s g get set (p : prog (gstate V) unit) :
  tracing l m w act X s -> guarded act g s -> P s ->
  (forall h r, l_hazards (set h r) = l_hazards r /\ l_tasks (set h r) = l_tasks r) ->
  (forall h u r, part W t s0 true (mkNode u r) -> part W t s0 true (mkNode u (set h r))) ->
  (forall s s', noop s s' -> P s -> P s') ->
  (forall s, tracing l m w act X s -> guarded act g s -> P s ->
    yields p s (fun _ s' => tracing l m w act X s' /\ grows s s' /\ P s')) ->
  yields (call_without_recursion (gd_local g) get set p) s (fun _ s' => tracing l m w act X s' /\ grows s s' /\ P s').
Proof.
  intros H Hg HP Hs Hp HPq Hbody. destruct (tracing_local _ _ _ Ht _ _ _ _ _ _ _ H Hg) as (nd & Hnd & _ & Hl & _).
  unfold call_without_recursion. step_with (run_get_local (gd_local g) get s _ Hl). destruct (get (n_item nd)).
  { by apply yields_ret. }
  eapply yields_then; [exact (tracing_upd l m w act X s g _ H Hg (Hs _) (Hp _))|]. intros [] s1 [H1 Hn1]. pose proof (proj1 Hn1) as Hq1.
  eapply yields_then; [apply Hbody; [done|by eapply guarded_quiet|by eapply HPq]|]. intros [] s2 (H2 & Hg2 & HP2).
  assert (Hgs : grows s s2) by (etransitivity; [by apply quiet_grows|done]).
  eapply yields_mono; [exact (tracing_upd l m w act X s2 g _ H2 (guarded_grows _ _ _ _ Hgs Hg) (Hs _) (Hp _))|].
  intros [] s3 [H3 Hn3]. split; [done|]. split; [|by eapply HPq]. etransitivity; [exact Hgs|apply quiet_grows, Hn3].
Qed.

(** ** The hazards *)
Definition hazard_set s (h : gset Z) : Prop := forall a, a <> 0 -> a ∈ h <-> hazard s a.
Lemma yields_collect_hps s : (length (nodes (g_locals s)) < fuel)%nat ->
  yields (collect_hps fuel) s (fun h s' => s' = s /\ hazard_set s h).
Proof.
  clear e B Ht HBS Hnull. intros Hf. unfold collect_hps. set (n := length (nodes (g_locals s))) in *.
  eapply yields_then.
  { apply (yields_iter_slots (R := unit) fuel iter_using_cond used n
      (fun k acc s' => s' = s /\ forall a, a ∈ acc <-> exists j nd, (j < k)%nat /\ nodes (g_locals s) !! j = Some nd /\ is_using nd = true /\ a ∈ l_hazards (n_item nd))
      (fun _ _ => False)); [apply reads_using|done|by intros ??? [-> _]| |].
    { split; [done|]. intros a. split; [by intros ?%not_elem_of_empty|]. intros (j & nd & Hj & _). lia. }
    intros k acc s1 Hk [-> Hacc]. destruct (lookup_lt_is_Some_2 (nodes (g_locals s)) k Hk) as [nd Hnd].
    assert (Hup : forall a, (exists j nd, (j < k + 1)%nat /\ nodes (g_locals s) !! j = Some nd /\ is_using nd = true /\ a ∈ l_hazards (n_item nd)) <->
      a ∈ acc \/ (is_using nd = true /\ a ∈ l_hazards (n_item nd))).
    { intros a. rewrite Hacc. split.
      - intros (j & nd' & Hj & Hj' & Hu & Ha). destruct (decide (j = k)) as [->|]; [right; simplify_eq; done|].
        left. exists j, nd'. split; [lia|done].
      - intros [(j & nd' & Hj & ?)|[Hu Ha]]; [exists j, nd'; split; [lia|done]|]. exists k, nd. split; [lia|done]. }
    unfold used. rewrite Hnd. destruct (is_using nd) eqn:Eu.
    2:{ split; [done|]. intros a. rewrite Hup. naive_solver. }
    assert (Hl : local_of s k = Some (n_item nd)) by (unfold local_of; by rewrite Hnd).
    step_with (run_get_local k (fun l => length (l_hazards l)) s _ Hl).
    eapply yields_mono.
    - apply (yields_for_each (R := unit) (fun pre acc' s' => s' = s /\ forall a, a ∈ acc' <-> a ∈ acc \/
        exists i, i ∈ pre /\ l_hazards (n_item nd) !! i = Some a) (fun _ _ => False)).
      + split; [done|]. intros a. split; [by left|]. intros [?|(i & Hi & _)]; [done|by apply not_elem_of_nil in Hi].
      + intros pre i post acc' s' Eq [-> Ha']. assert (Hi : i ∈ seq 0 (length (l_hazards (n_item nd)))).
        { rewrite Eq. apply elem_of_app. right. by left. }
        apply elem_of_seq in Hi. destruct (lookup_lt_is_Some_2 (l_hazards (n_item nd)) i) as [p Hp]; [lia|].
        step_with (run_get_local k (fun l => l_hazards l !! i) s _ Hl). rewrite Hp. apply yields_ret. split; [done|].
        intros a. rewrite elem_of_union, elem_of_singleton, Ha'. split.
        * intros [->|[?|(j & Hj & ?)]]; [right; exists i|by left|right; exists j]; (split; [apply elem_of_app|done]); [right; by left|by left].
        * intros [?|(j & [Hj|Hj%list_elem_of_singleton]%elem_of_app & Ej)]; [by right; left|right; right; by exists j|]. subst. left. congruence.
    - intros [acc'|[]] s' H; [|done]. destruct H as [-> Ha']. split; [done|]. intros a. rewrite Hup, Ha'.
      split; (intros [?|Hr]; [by left|right]).
      + destruct Hr as (i & _ & Hi). split; [done|]. by eapply list_elem_of_lookup_2.
      + destruct Hr as [_ [i Hi]%list_elem_of_lookup]. exists i. split; [|done]. apply elem_of_seq.
        apply lookup_lt_Some in Hi. lia. }
  intros [acc|[]] s1 H; [|done]. destruct H as [-> Hacc]. apply yields_ret. split; [done|]. intros a _. rewrite Hacc. split.
  - intros (j & nd & _ & ?). by exists j, nd.
  - intros (j & nd & Hj & ?). exists j, nd. split; [by eapply lookup_lt_Some|done].
Qed.
Lemma tracing_hazard l m w act X s a : tracing l m w act X s -> a <> 0 -> hazard s a <-> hazard s0 a.
Proof.
  intros H Hn. split; [|by apply (tr_hazards _ _ _ _ _ _ _ _ _ H)]. intros (k & nd & Hk & Hu & Ha).
  by apply (pt_hazard _ _ _ _ _ (tr_parts _ _ _ _ _ _ _ _ _ H _ _ Hk)).
Qed.

(** ** Scanning one object *)
Lemma tracing_rooted l m w act X s a : tracing l m w act X s ->
  rooted s0 a <-> exists o, g_objs s !! a = Some o /\ (0 < ObjMeta.root_count (o_hdr o) \/ hazard s0 a).
Proof.
  intros H. pose proof (tr_shape _ _ _ _ _ _ _ _ _ H) as Hs. split; intros (o & Ho & Hr).
  - destruct (same_shape_obj _ _ _ _ Hs Ho) as (o' & Ho' & _ & Hrc & _). exists o'. split; [done|]. by rewrite Hrc.
  - destruct (same_shape_obj_rev _ _ _ _ Hs Ho) as (o' & Ho' & _ & Hrc & _). exists o'. split; [done|]. by rewrite <- Hrc.
Qed.
Lemma rooted_kept a : rooted s0 a -> kept s0 a.
Proof. intros H. exists a. by split. Qed.
Lemma tracing_live l m w act X s a : tracing l m w act X s -> is_Some (g_objs s0 !! a) <-> is_Some (g_objs s !! a).
Proof.
  intros H. pose proof (proj1 (tr_shape _ _ _ _ _ _ _ _ _ H) a) as Hs.
  destruct (g_objs s0 !! a), (g_objs s !! a); [split; intros _; by eexists|done..].
Qed.
(** What a scan needs of an object, and what it gives. *)
Definition scanned l m w act s (a : Z) (s' : gstate V) : Prop :=
  tracing l m w act [] s' /\ quiet W s s' /\ (rooted s0 a -> black B s' a).
Lemma yields_mark_root f l m w act s g a : tracing l m w act [] s -> guarded act g s -> rooted s0 a ->
  yields (mark_obj_mark (S f) a g) s (fun _ s' => scanned l m w act s a s').
Proof.
  intros H Hg Hr. eapply yields_mono; [apply (tracing_mark W t s0 Ht f l m w act [] s g a); [|done]|].
  - apply tracing_hold; [done| |by apply rooted_kept]. apply (tracing_live _ _ _ _ _ _ a H). destruct Hr as (o & Ho & _). by exists o.
  - intros ? s' (H1 & H2 & H3 & _). done.
Qed.
Lemma yields_scan_item l m w act s g h a : (0 < fuel)%nat -> tracing l m w act [] s -> guarded act g s ->
  is_Some (g_objs s0 !! a) -> hazard_set s0 h ->
  yields (scan_item fuel g h a) s (fun _ s' => scanned l m w act s a s').
Proof.
  intros Hf H Hg Ha Hh. assert (Hn : a <> 0). { intros ->. destruct Ha. congruence. }
  pose proof (tracing_rooted _ _ _ _ _ _ a H) as Hroot.
  apply (tracing_live _ _ _ _ _ _ a H) in Ha as [o Ho]. unfold scan_item, obj_root_count.
  apply yields_bind. step_with (run_load_header a s o Ho). apply yields_ret. specialize (Hh a Hn).
  destruct (Z.ltb_spec 0 (ObjMeta.root_count (o_hdr o))) as [Hrc|Hrc]; cbn [orb].
  - destruct fuel as [|f]; [lia|]. apply yields_mark_root; [done..|]. apply Hroot. exists o. auto.
  - destruct (bool_decide (a ∈ h)) eqn:E.
    + apply bool_decide_eq_true in E. destruct fuel as [|f]; [lia|]. apply yields_mark_root; [done..|]. apply Hroot. exists o.
      split; [done|]. right. by apply Hh.
    + apply bool_decide_eq_false in E. apply yields_ret. split; [done|]. split; [reflexivity|].
      intros (o' & Ho' & Hr)%Hroot. rewrite Ho in Ho'. injection Ho' as <-. destruct Hr as [?|?%Hh]; [lia|done].
Qed.
Lemma yields_scan_items l m w act s g h xs : (0 < fuel)%nat -> tracing l m w act [] s -> guarded act g s ->
  (forall a, a ∈ xs -> is_Some (g_objs s0 !! a)) -> hazard_set s0 h ->
  yields (foreach xs (scan_item fuel g h)) s (fun _ s' =>
    tracing l m w act [] s' /\ quiet W s s' /\ forall a, a ∈ xs -> rooted s0 a -> black B s' a).
Proof.
  intros Hf H Hg Hx Hh.
  apply (yields_foreach (fun pre s' => tracing l m w act [] s' /\ quiet W s s' /\ forall a, a ∈ pre -> rooted s0 a -> black B s' a)).
  - split; [done|]. split; [reflexivity|]. by intros a ?%not_elem_of_nil.
  - intros pre x post s1 -> (H1 & Hq & Hb). eapply yields_mono.
    + apply (yields_scan_item l m w act s1 g h x); [done|done|by eapply guarded_quiet| |done]. apply Hx, elem_of_app. right. by left.
    + intros [] s2 (H2 & Hq2 & Hb2). split; [done|]. split; [by etransitivity|].
      intros a [Ha|Ha%list_elem_of_singleton]%elem_of_app Hr; [by apply (qt_black _ _ _ Hq2), Hb|]. subst. auto.
Qed.

(** ** Taking a batch and giving it back *)
(** Both invariants, with batches [X] in the thread's hands. *)
Record marking l m w act (X : list ObjBatch) s : Prop := {
  mk_tracing : tracing l m w act [] s;
  mk_scanning : scanning X s
}.
Lemma marking_quiet l m w act X s s' : tracing l m w act [] s' -> quiet W s s' -> marking l m w act X s -> marking l m w act X s'.
Proof. intros H Hq [_ Hs]. split; [done|by eapply scanning_quiet]. Qed.
Lemma marking_in l m w act X s b a : marking l m w act X s -> b ∈ X -> a ∈ b_items b -> is_Some (g_objs s0 !! a).
Proof.
  intros [_ Hs] Hb Ha. eapply HBS; [|done]. rewrite <- (sc_all _ _ Hs), !elem_of_app. auto.
Qed.
Lemma flip_W : B <> W.
Proof. unfold B. apply flip_ne. Qed.
Lemma yields_pop_fresh l m w act X s i : marking l m w act X s -> (i < OBJ_BATCHES_SHARD)%nat ->
  yields (try_pop_fresh_q W i) s (fun r s' => grows s s' /\ match r with
    | None => s' = s /\ queue_at (g_fresh s) W i = Some []
    | Some b => marking l m w act (b :: X) s' /\
        (length (default [] (queue_at (g_fresh s') W i)) < length (default [] (queue_at (g_fresh s) W i)))%nat
    end).
Proof.
  intros [H [H1 H2 H3 H4 H5 H6]] Hi. destruct (H1 W i Hi) as [bs Hbs]. unfold yields, try_pop_fresh_q. cbn [atomic run].
  rewrite Hbs. destruct bs as [|b bs]; eexists _, _; (split; [reflexivity|]); [done|].
  set (s1 := set_g_fresh _ s). assert (Hat : forall j, queue_at (g_fresh s1) W j = if decide (i = j) then Some bs else queue_at (g_fresh s) W j).
  { intros j. unfold s1. cbn. rewrite queue_at_upd. destruct (decide (i = j)) as [<-|]; [|by rewrite decide_False by (by intros [_ ?])].
    by rewrite decide_True, Hbs. }
  split; [constructor; [done| |done]; intros j Hj; rewrite Hat; by destruct (decide (i = j)) as [<-|]; simplify_eq|].
  split; [|rewrite Hat, Hbs, decide_True by done; cbn; lia].
  split; [by apply (tracing_frame W t s0 l m w act [] s)|]. constructor; try done.
  - by apply shards_ok_upd.
  - rewrite <- H3. unfold s1. cbn [g_fresh g_marked set_g_fresh]. rewrite (batches_pop (g_fresh s) W i b bs Hi Hbs), <- app_assoc.
    apply Permutation_app_head. cbn. by rewrite <- Permutation_middle.
  - unfold s1. cbn [g_fresh set_g_fresh]. rewrite batches_other; [done|]. apply not_eq_sym, flip_W.
Qed.
Lemma yields_push_marked l m w act X s i b : marking l m w act (b :: X) s -> (i < OBJ_BATCHES_SHARD)%nat ->
  (forall a, a ∈ b_items b -> rooted s0 a -> black B s a) ->
  yields (push_marked_q W i b) s (fun _ s' => grows s s' /\ marking l m w act X s' /\ g_fresh s' = g_fresh s).
Proof.
  intros [H [H1 H2 H3 H4 H5 H6]] Hi Hb. eapply yields_run; [reflexivity|]. split; [by constructor|]. split; [|done].
  split; [by apply (tracing_frame W t s0 l m w act [] s)|]. pose proof (batches_push (g_marked s) W i b H2 Hi) as Hp.
  constructor; try done; cbn [g_fresh g_marked set_g_marked].
  - by apply shards_ok_upd.
  - by rewrite Hp, <- app_assoc.
  - rewrite batches_other; [done|]. apply not_eq_sym, flip_W.
  - intros b' a. rewrite Hp, elem_of_app, list_elem_of_singleton. intros [Hb'| ->] Ha Hr; [by eapply (H6 b' a)|by apply Hb].
Qed.

(** ** The generator of a participant *)
Lemma yields_rng {A} l m w act X s g (p : local -> A * Rng) : marking l m w act X s -> guarded act g s ->
  yields (n <- get_local (gd_local g) p ; upd_local (gd_local g) (set_l_rng (fun _ => n.2)) ;; Ret n.1) s
    (fun x s' => (exists r, x = (p r).1) /\ marking l m w act X s' /\ noop s s').
Proof.
  intros [H Hs] Hg. destruct (tracing_local _ _ _ Ht _ _ _ _ _ _ _ H Hg) as (nd & Hnd & _ & Hl & _).
  step_with (run_get_local (gd_local g) p s _ Hl). eapply yields_then.
  - apply (tracing_upd l m w act [] s g _ H Hg); [done|]. intros u r []. by constructor.
  - intros [] s1 [H1 Hq]. apply yields_ret. split; [by eexists|]. split; [|done]. split; [done|eapply scanning_quiet; [apply Hq|done]].
Qed.
Lemma yields_select l m w act X s g : marking l m w act X s -> guarded act g s ->
  yields (select_obj_shard (gd_local g)) s (fun i s' => (i < OBJ_BATCHES_SHARD)%nat /\ marking l m w act X s' /\ quiet W s s').
Proof.
  intros H Hg. eapply yields_mono; [exact (yields_rng l m w act X s g (fun r => rng_usize (l_rng r) OBJ_BATCHES_SHARD) H Hg)|].
  intros i s' ((r & ->) & H1 & Hq & _). split; [|done]. apply rng_usize_lt. unfold OBJ_BATCHES_SHARD. lia.
Qed.
Lemma yields_permut l m w act X s g : marking l m w act X s -> guarded act g s ->
  yields (generate_shard_permut (gd_local g)) s (fun ks s' =>
    (forall i, i ∈ ks -> (i < OBJ_BATCHES_SHARD)%nat) /\ marking l m w act X s' /\ noop s s').
Proof.
  intros H Hg. eapply yields_mono; [exact (yields_rng l m w act X s g (fun r => rng_shuffle (l_rng r) (seq 0 OBJ_BATCHES_SHARD)) H Hg)|].
  intros ks s' ((r & ->) & H1). split; [|done]. intros i. rewrite rng_shuffle_perm. intros Hi%elem_of_seq. lia.
Qed.

(** ** The hazards a guard remembers *)
Lemma tracing_epoch l m w act X s g : tracing l m w act X s -> guarded act g s ->
  run (local_epoch g) s = Ok (pinned e, s) /\ run (guard_phase g) s = Ok (RT, s) /\ run (white_color g) s = Ok (W, s).
Proof.
  intros H Hg. destruct (tracing_local _ _ _ Ht _ _ _ _ _ _ _ H Hg) as (nd & Hnd & Hp & Hl & _).
  assert (E : run (local_epoch g) s = Ok (pinned e, s)).
  { unfold local_epoch, pinned_epoch. by rewrite (run_get_local _ _ _ _ Hl), (pt_epoch _ _ _ _ _ Hp). }
  destruct (proj2 (ep_reads RT W t Ht)) as [E1 E2 _ _]. split; [done|]. split.
  - unfold guard_phase. rewrite run_bind, E. unfold phase_of. fold e in E1. by rewrite E1.
  - unfold white_color. rewrite run_bind, E. fold e in E2. by rewrite <- E2.
Qed.
Lemma yields_reuse l m w act X s g : (m < fuel)%nat -> marking l m w act X s -> guarded act g s ->
  yields (scan_or_reuse_hazards fuel (gd_local g) g) s (fun h s' => hazard_set s0 h /\ marking l m w act X s' /\ quiet W s s').
Proof.
  intros Hm [H Hs] Hg. destruct (tracing_local _ _ _ Ht _ _ _ _ _ _ _ H Hg) as (nd & Hnd & Hp & Hl & _).
  destruct (tracing_epoch _ _ _ _ _ _ _ H Hg) as (Ee & _). unfold scan_or_reuse_hazards.
  step_with (run_get_local (gd_local g) l_cached s _ Hl). step_with Ee.
  match goal with |- yields (match _ with Some _ => _ | None => ?f end) _ ?Q => assert (Hfresh : yields f s Q) end.
  { eapply yields_then; [apply yields_collect_hps; pose proof (tr_length _ _ _ _ _ _ _ _ _ H); lia|].
    intros h s' [-> Hh]. assert (Hh0 : hazard_set s0 h) by (intros a Ha; rewrite (Hh a Ha); by eapply tracing_hazard).
    step_with Ee. eapply yields_then.
    - apply (tracing_upd l m w act [] s g _ H Hg); [done|]. intros u r [P1 P2 P3 P4 P5 P6 P7 P8]. constructor; try done.
      intros h' e' [= <- <-]. split; [|intros _ a Ha; by apply Hh0].
      apply Z.eq_le_incl, (ra_ts _ _ _ _ _ (proj2 (ep_reads RT W t Ht))).
    - intros [] s1 [H1 [Hq _]]. apply yields_ret. split; [done|]. split; [|done]. split; [done|by eapply scanning_quiet]. }
  destruct (l_cached (n_item nd)) as [[h e']|] eqn:Ec; [|done]. destruct (decide (data e' = data (pinned e))) as [Ed|]; [|done].
  apply yields_ret. split; [|done]. exact (proj2 (pt_cached _ _ _ _ _ Hp h e' Ec) Ed).
Qed.

(** ** Help in a root-tracing phase *)
Definition hz_ok (hz : option (gset Z)) : Prop := forall h, hz = Some h -> hazard_set s0 h.
Lemma yields_trace_item l m w act X s g a hz : (m < fuel)%nat -> marking l m w act X s -> guarded act g s ->
  is_Some (g_objs s0 !! a) -> hz_ok hz ->
  yields (trace_item fuel g a hz) s (fun hz' s' =>
    hz_ok hz' /\ marking l m w act X s' /\ quiet W s s' /\ (rooted s0 a -> black B s' a)).
Proof.
  intros Hm [H Hsc] Hg Ha Hz. assert (Hn : a <> 0). { intros ->. destruct Ha. congruence. }
  pose proof Ha as Ha'. apply (tracing_live _ _ _ _ _ _ a H) in Ha' as [o Ho]. unfold trace_item, obj_root_count.
  apply yields_bind. step_with (run_load_header a s o Ho). apply yields_ret. pose proof (tracing_rooted _ _ _ _ _ _ a H) as Hroot.
  assert (Hmark : forall s1, marking l m w act X s1 -> guarded act g s1 -> rooted s0 a ->
    yields (mark_obj_mark fuel a g) s1 (fun _ s' => marking l m w act X s' /\ quiet W s1 s' /\ black B s' a)).
  { intros s1 [H1 Hs1] Hg1 Hr. destruct fuel as [|f]; [lia|]. eapply yields_mono; [by apply (yields_mark_root f l m w act s1 g a)|].
    intros [] s2 (H2 & Hq & Hb). split; [split; [done|by eapply scanning_quiet]|]. split; [done|by apply Hb]. }
  destruct (Z.ltb_spec 0 (ObjMeta.root_count (o_hdr o))) as [Hrc|Hrc].
  - eapply yields_then; [apply (Hmark s); [done|done|]; apply Hroot; exists o; auto|].
    intros [] s1 (H1 & Hq & Hb). by apply yields_ret.
  - assert (Hforce : yields (force_hazards fuel g hz) s (fun h s' => hazard_set s0 h /\ marking l m w act X s' /\ quiet W s s')).
    { destruct hz as [h|]; [apply yields_ret; split; [by apply Hz|done]|]. by apply (yields_reuse l m w act X). }
    eapply yields_then; [exact Hforce|]. intros h s1 (Hh & H1 & Hq). cbv beta.
    assert (Hz' : hz_ok (Some h)) by by intros ? [= <-]. destruct (decide (a ∈ h)) as [Hah|Hah].
    + eapply yields_then; [apply (Hmark s1); [done|by eapply guarded_quiet|]; apply Hroot; exists o; split; [done|]; right; by apply Hh|].
      intros [] s2 (H2 & Hq2 & Hb). apply yields_ret. split; [done|]. split; [done|]. split; [by etransitivity|done].
    + apply yields_bind, yields_ret, yields_ret. split; [done|]. split; [done|]. split; [done|].
      intros (o' & Ho' & Hr)%Hroot. rewrite Ho in Ho'. injection Ho' as <-. destruct Hr as [?|Hr]; [lia|].
      by apply Hh in Hr.
Qed.
Lemma yields_trace_items l m w act X s g xs hz : (m < fuel)%nat -> marking l m w act X s -> guarded act g s ->
  (forall a, a ∈ xs -> is_Some (g_objs s0 !! a)) -> hz_ok hz ->
  yields (for_each (R := Empty_set) xs (fun a hz => hz' <- trace_item fuel g a hz ; Ret (inl hz')) hz) s (fun r s' =>
    match r with inl hz' => hz_ok hz' /\ marking l m w act X s' /\ quiet W s s' /\ (forall a, a ∈ xs -> rooted s0 a -> black B s' a)
    | inr _ => False end).
Proof.
  intros Hm H Hg Hx Hz. apply (yields_for_each (fun pre hz' s' => hz_ok hz' /\ marking l m w act X s' /\ quiet W s s' /\
    (forall a, a ∈ pre -> rooted s0 a -> black B s' a)) (fun _ _ => False)).
  - split; [done|]. split; [done|]. split; [reflexivity|]. by intros a ?%not_elem_of_nil.
  - intros pre x post hz1 s1 -> (Hz1 & H1 & Hq1 & Hb1). eapply yields_then.
    + apply (yields_trace_item l m w act X s1 g x hz1); [done|done|by eapply guarded_quiet| |done]. apply Hx, elem_of_app. right. by left.
    + intros hz2 s2 (Hz2 & H2 & Hq2 & Hb2). apply yields_ret. split; [done|]. split; [done|]. split; [by etransitivity|].
      intros a [Ha|Ha%list_elem_of_singleton]%elem_of_app Hr; [by apply (qt_black _ _ _ Hq2), Hb1|]. subst. auto.
Qed.
(** Between two batches of [help_root_tracing]. *)
Definition helping l m w act s (g : guard) s' : Prop := marking l m w act [] s' /\ grows s s' /\ guarded act g s'.
Lemma yields_help_root l m w act s g : (m < fuel)%nat -> (4 < fuel)%nat -> marking l m w act [] s -> guarded act g s ->
  yields (help_root_tracing fuel g) s (fun _ s' => marking l m w act [] s' /\ grows s s').
Proof.
  intros Hm H4 H Hg. unfold help_root_tracing. destruct (tracing_epoch _ _ _ _ _ _ _ (mk_tracing _ _ _ _ _ _ H) Hg) as (_ & Eph & _).
  step_with Eph. cbn [decide]. destruct (decide (RT <> RT)) as [E|_]; [done|].
  eapply yields_then; [exact (yields_permut l m w act [] s g H Hg)|]. intros perm s1 (Hperm & H1 & Hq1 & _).
  eapply yields_then; [|intros r s' Hs'; apply yields_ret; exact Hs'].
  eapply yields_mono.
  - apply (yields_for_each (fun _ st s' => (st.1 < HELP_TRACING_MAX_TRIAL)%nat /\ hz_ok st.2 /\ helping l m w act s g s')
      (fun _ s' => helping l m w act s g s')).
    + split; [unfold HELP_TRACING_MAX_TRIAL; cbn; lia|]. split; [done|]. split; [done|]. split; [by apply quiet_grows|by eapply guarded_quiet].
    + intros pre q post [trial hz] s2 Eq (Htr & Hz & H2 & Hg2 & Hgd2).
      assert (Hq : (q < OBJ_BATCHES_SHARD)%nat) by (apply Hperm; rewrite Eq; apply elem_of_app; right; by left).
      destruct (tracing_epoch _ _ _ _ _ _ _ (mk_tracing _ _ _ _ _ _ H2) Hgd2) as (_ & _ & Ew). step_with Ew.
      apply (yields_loop (fun st s' => (st.1 < HELP_TRACING_MAX_TRIAL)%nat /\ hz_ok st.2 /\ helping l m w act s g s')
        (fun st _ => HELP_TRACING_MAX_TRIAL - st.1)%nat); [done|cbn in *; unfold HELP_TRACING_MAX_TRIAL; lia|].
      clear trial hz s2 Htr Hz H2 Hg2 Hgd2 Ew. intros [trial hz] s2 (Htr & Hz & H2 & Hg2 & Hgd2).
      eapply yields_then; [by apply (yields_pop_fresh l m w act [] s2 q)|]. intros [b|] s3 [Hg3 H3].
      2:{ destruct H3 as [-> _]. by apply yields_ret. }
      destruct H3 as [H3 _]. pose proof (guarded_grows _ _ _ _ Hg3 Hgd2) as Hgd3. eapply yields_then.
      { apply (yields_trace_items l m w act [b] s3 g (b_items b) hz); [done|done|done| |done].
        intros a Ha. apply (marking_in l m w act [b] s3 b a H3); [by left|done]. }
      intros [hz'|[]] s4 Hr. destruct Hr as (Hz' & H5 & Hq4 & Hb). cbv beta zeta iota.
      pose proof (guarded_quiet _ _ _ _ _ Hq4 Hgd3) as Hgd4.
      eapply yields_then; [by apply (yields_select l m w act [b] s4 g)|]. intros i s5 (Hi & H6 & Hq5).
      pose proof (guarded_quiet _ _ _ _ _ Hq5 Hgd4) as Hgd5.
      destruct (tracing_epoch _ _ _ _ _ _ _ (mk_tracing _ _ _ _ _ _ H6) Hgd5) as (_ & _ & Ew). step_with Ew.
      eapply yields_then; [apply (yields_push_marked l m w act [] s5 i b H6 Hi); intros a Ha Hr; by apply (qt_black _ _ _ Hq5), Hb|].
      intros [] s6 (Hg6 & H7 & _).
      assert (Hgr : grows s s6).
      { repeat (etransitivity; [eassumption || (apply quiet_grows; eassumption)|]). done. }
      assert (Hh : helping l m w act s g s6) by (split; [done|]; split; [done|]; by eapply guarded_grows).
      destruct (Nat.leb_spec HELP_TRACING_MAX_TRIAL (S trial)) as [Hle|Hlt]; apply yields_ret; [done|].
      split; [split; [exact Hlt|done]|]. cbn [fst] in *. lia.
  - intros [[]|[]] s' Hs'; [by destruct Hs' as (_ & _ & ? & ? & _)|by destruct Hs' as (? & ? & _)].
Qed.

(** *** Mark tasks *)
Lemma yields_try_pop l m w act X s g : marking l m w act X s -> guarded act g s ->
  yields (try_pop_mark_task (gd_local g)) s (fun r s' => quiet W s s' /\ scanning X s' /\ match r with
    | Some a => tracing l m w act [a] s'
    | None => tracing l m w act [] s'
    end).
Proof.
  intros [H Hs] Hg. destruct (tracing_local _ _ _ Ht _ _ _ _ _ _ _ H Hg) as (nd & Hnd & Hp & Hl & Hph & _).
  unfold try_pop_mark_task. step_with (run_get_local (gd_local g) (fun r => bool_decide (l_tasks r = [])) s _ Hl).
  destruct (bool_decide _) eqn:E; [by apply yields_ret|]. apply bool_decide_eq_false in E.
  set (r1 := set_l_mt_modified_ts (fun _ => timestamp (l_epoch (n_item nd))) (n_item nd)).
  pose proof (run_record_mt _ _ _ Hl Hph) as Emt. fold r1 in Emt. step_with Emt.
  set (s1 := put_local (gd_local g) r1 s) in *.
  assert (H1 : tracing l m w act [] s1).
  { apply (tracing_put W t s0 l m w act act [] s (gd_local g) (n_item nd) r1); [done..|].
    rewrite bool_decide_true by apply Hg. intros u [P1 P2 P3 P4 P5 P6 P7 P8]. constructor; try done.
    cbn in *. rewrite P2. apply Z.eq_le_incl, (ra_ts _ _ _ _ _ (proj2 (ep_reads RT W t Ht))). }
  assert (Hq1 : quiet W s s1) by (constructor; [done..|]; unfold s1, put_local; cbn; by rewrite length_alter).
  assert (Hl1 : local_of s1 (gd_local g) = Some r1) by (apply local_of_put; by exists (n_item nd)).
  pose proof (run_pop_task _ _ _ Hl1) as Ep. change (l_tasks r1) with (l_tasks (n_item nd)) in Ep.
  destruct (l_tasks (n_item nd)) as [|a ts] eqn:Et; [done|]. eapply yields_run; [exact Ep|].
  destruct (take_own (gd_local g) s1 r1 a ts Hl1 Et) as [Hperm Hsame]. set (s2 := put_local _ _ s1) in *.
  assert (Hq2 : quiet W s s2).
  { etransitivity; [exact Hq1|]. constructor; [done..|]. unfold s2, put_local. cbn. by rewrite length_alter. }
  split; [done|]. split; [by eapply scanning_quiet|]. by apply (tracing_take _ _ _ l m w act [] s1 s2 a H1 Hsame Hperm).
Qed.
Lemma yields_help_draining l m w act s g : (0 < fuel)%nat -> marking l m w act [] s -> guarded act g s ->
  yields (help_draining_mark_tasks_inner fuel g) s (fun _ s' => marking l m w act [] s' /\ grows s s').
Proof.
  intros Hf H Hg. destruct (tracing_local _ _ _ Ht _ _ _ _ _ _ _ (mk_tracing _ _ _ _ _ _ H) Hg) as (nd & Hnd & _ & Hl & _).
  unfold help_draining_mark_tasks_inner. step_with (run_get_local (gd_local g) (fun r => length (l_tasks r)) s _ Hl).
  eapply yields_then; [|intros r s' Hs'; apply yields_ret; exact Hs']. eapply yields_mono.
  - apply (yields_for_each (fun _ (_ : unit) s' => helping l m w act s g s') (fun (_ : unit) s' => helping l m w act s g s')).
    + by split.
    + intros pre i post [] s1 _ (H1 & Hgr & Hg1). eapply yields_then; [exact (yields_try_pop l m w act [] s1 g H1 Hg1)|].
      intros [a|] s2 (Hq & Hs2 & H2); pose proof (guarded_quiet _ _ _ _ _ Hq Hg1) as Hg2.
      2:{ apply yields_ret. split; [done|]. split; [|done]. etransitivity; [exact Hgr|by apply quiet_grows]. }
      destruct fuel as [|f]; [lia|]. eapply yields_then; [exact (tracing_call W t s0 Ht f l m w act [] s2 g a H2 Hg2)|].
      intros [] s3 (H3 & Hq3 & _). apply yields_ret. pose proof (quiet_grows _ _ Hq). pose proof (quiet_grows _ _ Hq3).
      split; [split; [done|by eapply scanning_quiet]|]. split; [|by eapply guarded_quiet].
      etransitivity; [exact Hgr|]. by etransitivity.
  - by intros [[]|[]] s' (H1 & H2 & _).
Qed.

(** *** The whole of it *)
Lemma yields_synced l m w act X s : (m < fuel)%nat -> tracing l m w act X s ->
  yields (is_tracing_synced fuel) s (fun _ s' => s' = s).
Proof.
  intros Hm H. pose proof (tr_length _ _ _ _ _ _ _ _ _ H) as Hlen. unfold is_tracing_synced, any_slot.
  apply yields_bind. eapply yields_then.
  - apply (yields_iter_slots fuel iter_using_cond used (length (nodes (g_locals s))) (fun _ (_ : unit) s' => s' = s) (fun (_ : unit) s' => s' = s));
      [apply reads_using|lia|by intros ??? ->|done|]. intros k [] s1 Hk ->. destruct (used _ _); [|done].
    destruct (lookup_lt_is_Some_2 (nodes (g_locals s)) k Hk) as [nd Hnd].
    assert (Hl : local_of s k = Some (n_item nd)) by (unfold local_of; by rewrite Hnd).
    apply yields_bind. step_with (run_get_local k l_epoch s _ Hl).
    pose proof (pt_epoch _ _ _ _ _ (tr_parts _ _ _ _ _ _ _ _ _ H _ _ Hnd)) as Ee.
    destruct (is_pinned (l_epoch (n_item nd))) eqn:Ep; [|by apply yields_ret, yields_ret].
    assert (Eph : run (phase_of (l_epoch (n_item nd))) s = Ok (RT, s)).
    { rewrite Ee in *. destruct (bool_decide (k ∈ act)); [|done]. unfold phase_of.
      by rewrite (ra_phase _ _ _ _ _ (proj2 (ep_reads RT W t Ht))). }
    step_with Eph. apply yields_ret, yields_ret. done.
  - intros [[]|[]] s1 ->; by repeat apply yields_ret.
Qed.
(** What the two kinds of help keep of [P] besides the invariants, a whole call keeps. *)
Definition helps (P : gstate V -> Prop) l m w act g (p : prog (gstate V) unit) : Prop := forall s,
  marking l m w act [] s -> guarded act g s -> P s ->
  yields p s (fun _ s' => marking l m w act [] s' /\ grows s s' /\ P s').
Lemma yields_help (P : gstate V -> Prop) R l m w act g : (m < fuel)%nat -> (forall s s', noop s s' -> P s -> P s') ->
  helps P l m w act g (help_root_tracing fuel g) -> helps P l m w act g (help_draining_mark_tasks_inner fuel g) ->
  helps P l m w act g (help_collect fuel R g).
Proof.
  intros Hm HP Hroot Hdrain s H Hg HPs. pose proof (mk_tracing _ _ _ _ _ _ H) as Htr.
  destruct (tracing_epoch _ _ _ _ _ _ _ Htr Hg) as (_ & Eph & _).
  unfold help_collect. step_with Eph. unfold help_tracing. step_with Eph. apply yields_bind. destruct (decide (RT = RT)) as [_|]; [|done].
  apply yields_ret. cbn [negb]. cbv iota. eapply yields_then; [exact (yields_synced _ _ _ _ _ _ Hm Htr)|].
  intros b s1 ->. destruct b; [|by apply yields_ret]. cbn [negb]. cbv iota.
  assert (Hflag : forall get set p,
    (forall h r, l_hazards (set h r) = l_hazards r /\ l_tasks (set h r) = l_tasks r) ->
    (forall h u r, part W t s0 true (mkNode u r) -> part W t s0 true (mkNode u (set h r))) ->
    helps P l m w act g p -> helps P l m w act g (call_without_recursion (gd_local g) get set p)).
  { clear s H Hg Htr Eph HPs. intros get set p Hset Hpart Hbody s [H Hs] Hg HPs. eapply yields_mono.
    - apply (tracing_flag (fun s => scanning [] s /\ P s) l m w act [] s g get set p H Hg (conj Hs HPs) Hset Hpart).
      + intros s1 s2 Hn [? ?]. split; [eapply scanning_quiet; [apply Hn|done]|by eapply HP].
      + intros s1 H1 Hg1 [Hs1 HP1]. eapply yields_mono; [by apply Hbody|]. by intros [] s2 ([? ?] & ? & ?).
    - by intros [] s1 (? & ? & ? & ?). }
  eapply yields_then; [apply Hflag; [done|by intros h u r []; constructor|exact Hroot|done..]|].
  intros [] s1 (H1 & Hg1 & HP1). eapply yields_mono; [apply Hflag; [done|by intros h u r []; constructor|exact Hdrain|done| |done]; by eapply guarded_grows|].
  intros [] s2 (H2 & Hg2 & HP2). split; [done|]. split; [by etransitivity|done].
Qed.
(** Nothing is queued: such a guard has nothing to help with. *)
Definition settled s : Prop := all_tasks s = [] /\ forall i, (i < OBJ_BATCHES_SHARD)%nat -> queue_at (g_fresh s) W i = Some [].
Lemma settled_noop s s' : noop s s' -> settled s -> settled s'.
Proof.
  intros [Hq Hp] [Ht0 Hf]. split; [rewrite Ht0 in Hp; by apply Permutation_nil_r in Hp|]. by rewrite (qt_fresh _ _ _ Hq).
Qed.
Lemma helps_root_settled l m w act g : (0 < fuel)%nat -> helps settled l m w act g (help_root_tracing fuel g).
Proof.
  intros Hf s H Hg Hset. unfold help_root_tracing. destruct (tracing_epoch _ _ _ _ _ _ _ (mk_tracing _ _ _ _ _ _ H) Hg) as (_ & Eph & _).
  step_with Eph. destruct (decide (RT <> RT)) as [E|_]; [done|].
  eapply yields_then; [exact (yields_permut l m w act [] s g H Hg)|]. intros perm s1 (Hperm & H1 & Hn1).
  pose proof (settled_noop _ _ Hn1 Hset) as Hset1. pose proof (guarded_quiet _ _ _ _ _ (proj1 Hn1) Hg) as Hg1.
  eapply yields_then; [|intros r s' Hs'; apply yields_ret; exact Hs'].
  eapply yields_mono.
  - apply (yields_for_each (fun _ _ s' => s' = s1) (fun _ _ => False)); [done|].
    intros pre q post st s2 Eq ->. destruct (tracing_epoch _ _ _ _ _ _ _ (mk_tracing _ _ _ _ _ _ H1) Hg1) as (_ & _ & Ew). step_with Ew.
    assert (Hq : (q < OBJ_BATCHES_SHARD)%nat) by (apply Hperm; rewrite Eq; apply elem_of_app; right; by left).
    apply yields_once; [done|]. destruct st as [trial hz]. eapply yields_then; [by apply (yields_pop_fresh l m w act [] s1 q)|].
    intros [b|] s3 [_ H3]; [|destruct H3 as [-> _]; apply yields_ret; eexists; split; [reflexivity|done]].
    destruct H3 as [_ H3]. exfalso. rewrite (proj2 Hset1 q Hq) in H3. cbn in H3. lia.
  - intros [st|[]] s' Hs'; [|done]. subst s'. split; [done|]. split; [apply quiet_grows, Hn1|done].
Qed.
Lemma helps_draining_settled l m w act g : helps settled l m w act g (help_draining_mark_tasks_inner fuel g).
Proof.
  intros s H Hg Hset. destruct (tracing_local _ _ _ Ht _ _ _ _ _ _ _ (mk_tracing _ _ _ _ _ _ H) Hg) as (nd & Hnd & _ & Hl & _).
  unfold help_draining_mark_tasks_inner. step_with (run_get_local (gd_local g) (fun r => length (l_tasks r)) s _ Hl).
  eapply yields_then; [|intros r s' Hs'; apply yields_ret; exact Hs']. eapply yields_mono.
  - apply (yields_for_each (fun _ (_ : unit) s' => s' = s) (fun (_ : unit) s' => s' = s)); [done|].
    intros pre i post [] s1 _ ->. unfold try_pop_mark_task. apply yields_bind.
    step_with (run_get_local (gd_local g) (fun r => bool_decide (l_tasks r = [])) s _ Hl).
    rewrite (proj1 (tasks_nil s) (proj1 Hset) _ _ Hl), bool_decide_true by done. by apply yields_ret, yields_ret.
  - by intros [[]|[]] s' ->.
Qed.

(** ** Pinning and unpinning *)
Lemma yields_pin l m w act Y s k nd : (0 < fuel)%nat -> marking l m w act Y s -> k ∉ act ->
  nodes (g_locals s) !! k = Some nd -> (forall p, p ∈ l_hazards (n_item nd) -> p = 0) ->
  yields (pin fuel k) s (fun g s' => gd_local g = k /\ marking l m w ({[k]} ∪ act) Y s' /\ quiet W s s' /\ guarded ({[k]} ∪ act) g s').
Proof.
  intros Hf [H Hs] Hk Hnd Hz. pose proof (tr_parts _ _ _ _ _ _ _ _ _ H _ _ Hnd) as Hp. rewrite bool_decide_false in Hp by done.
  assert (Hl : local_of s k = Some (n_item nd)) by (unfold local_of; by rewrite Hnd).
  pose proof (tr_epoch _ _ _ _ _ _ _ _ _ H) as Ee. destruct (proj1 (ep_reads RT W t Ht)) as [Eph _ Ets _].
  destruct fuel as [|f]; [lia|]. destruct (run_pin f k s _ RT Hl (pt_count _ _ _ _ _ Hp) (fun _ => Hz)) as (i & E); [by rewrite Ee|].
  eapply yields_run; [exact E|]. rewrite Ee. set (s1 := set_g_help _ s). set (s2 := put_local k _ s1).
  assert (H1 : tracing l m w act [] s1) by by apply (tracing_frame W t s0 l m w act [] s).
  assert (Hq : quiet W s s2) by (constructor; [done..|]; unfold s2, put_local; cbn; by rewrite length_alter).
  assert (H2 : tracing l m w ({[k]} ∪ act) [] s2).
  { apply (tracing_put W t s0 l m w act ({[k]} ∪ act) [] s1 k (n_item nd)); [done..| |].
    - intros j Hj. rewrite elem_of_union, elem_of_singleton. naive_solver.
    - rewrite (bool_decide_true (k ∈ {[k]} ∪ act)) by set_solver. rewrite bool_decide_false by done.
      intros u [P1 P2 P3 P4 P5 P6 P7 P8]. constructor; try done. }
  split; [done|]. split; [split; [done|by eapply scanning_quiet]|]. split; [done|]. split; [cbn; set_solver|].
  rewrite (qt_length _ _ _ Hq). by eapply lookup_lt_Some.
Qed.
Lemma drop_keeping (P : gstate V -> Prop) l m w act s g : (m < fuel)%nat -> (forall s s', noop s s' -> P s -> P s') ->
  helps P l m w act g (help_root_tracing fuel g) -> helps P l m w act g (help_draining_mark_tasks_inner fuel g) ->
  marking l m w act [] s -> guarded act g s -> P s ->
  yields (guard_drop fuel g) s (fun _ s' => marking l m w (act ∖ {[gd_local g]}) [] s' /\ grows s s' /\ P s' /\
    exists nd, nodes (g_locals s') !! gd_local g = Some nd /\ forall p, p ∈ l_hazards (n_item nd) -> p = 0).
Proof.
  intros Hm HP Hroot Hdrain H Hg HPs. unfold guard_drop. replace fuel with (S (fuel - 1)) at 2 by lia. cbn [tie r_drop]. unfold drop_body.
  set (R := tie fuel (fuel - 1)).
  assert (Hhelp : yields (help_collect_if_scheduled fuel R g) s (fun _ s' => marking l m w act [] s' /\ grows s s' /\ P s')).
  { unfold help_collect_if_scheduled. eapply yields_step; [reflexivity|]. destruct (default false _); [|by apply yields_ret].
    eapply yields_step; [reflexivity|]. set (s1 := set_g_help _ s).
    assert (Hn1 : noop s s1) by by split; [constructor|]. pose proof (proj1 Hn1) as Hq1.
    assert (H1 : marking l m w act [] s1) by (eapply marking_quiet; [apply (tracing_frame W t s0 l m w act [] s); by try apply H|done..]).
    eapply yields_mono; [apply (yields_help P R l m w act g Hm HP Hroot Hdrain s1 H1); [by eapply guarded_quiet|by eapply HP]|].
    intros [] s2 (H2 & Hg2 & HP2). split; [done|]. split; [|done]. etransitivity; [by apply quiet_grows|done]. }
  eapply yields_then; [exact Hhelp|]. intros [] s1 ([H1 Hs1] & Hg1 & HP1). pose proof (guarded_grows _ _ _ _ Hg1 Hg) as Hgd1.
  destruct (tracing_local _ _ _ Ht _ _ _ _ _ _ _ H1 Hgd1) as (nd & Hnd & Hp & Hl & _).
  step_with (run_unpin _ _ _ Hl (pt_count _ _ _ _ _ Hp)). set (s2 := put_local _ _ s1). eapply yields_run; [reflexivity|].
  set (s3 := set_g_help _ s2).
  assert (H2 : tracing l m w (act ∖ {[gd_local g]}) [] s2).
  { apply (tracing_put W t s0 l m w act (act ∖ {[gd_local g]}) [] s1 (gd_local g) (n_item nd)); [done..| |].
    - intros j Hj. rewrite elem_of_difference, elem_of_singleton. naive_solver.
    - rewrite (bool_decide_false (gd_local g ∈ act ∖ _)) by set_solver. rewrite bool_decide_true by apply Hg.
      intros u [P1 P2 P3 P4 P5 P6 P7 P8]. constructor; try done. }
  assert (Hq : quiet W s1 s3) by (constructor; [done..|]; unfold s3, s2, put_local; cbn; by rewrite length_alter).
  split; [split; [by apply (tracing_frame W t s0 l m w _ [] s2)|by eapply scanning_quiet]|].
  split; [etransitivity; [exact Hg1|by apply quiet_grows]|].
  split; [apply (HP s1); [|done]; split; [done|]; by apply (put_tasks _ _ (n_item nd))|].
  exists (upd_item (fun _ => unpin_rec (n_item nd)) nd). unfold s3. cbn [g_locals set_g_help]. unfold s2. rewrite nodes_put, decide_True, Hnd by done.
  split; [done|]. intros p Hin. by eapply (pt_zero _ _ _ _ _ Hp).
Qed.

Lemma yields_drop l m w act s g : (m < fuel)%nat -> (4 < fuel)%nat -> marking l m w act [] s -> guarded act g s ->
  yields (guard_drop fuel g) s (fun _ s' => marking l m w (act ∖ {[gd_local g]}) [] s' /\ grows s s' /\
    exists nd, nodes (g_locals s') !! gd_local g = Some nd /\ forall p, p ∈ l_hazards (n_item nd) -> p = 0).
Proof.
  intros Hm H4 H Hg. eapply yields_mono; [apply (drop_keeping (fun _ => True) l m w act s g Hm); try done|by intros [] s' (? & ? & _ & ?)].
  - intros s1 H1 Hg1 _. eapply yields_mono; [exact (yields_help_root l m w act s1 g Hm H4 H1 Hg1)|]. by intros [] s2 [? ?].
  - intros s1 H1 Hg1 _. eapply yields_mono; [exact (yields_help_draining l m w act s1 g ltac:(lia) H1 Hg1)|]. by intros [] s2 [? ?].
Qed.

(** ** The participant of a worker *)
Definition onward s s' : Prop :=
  (forall a, black B s a -> black B s' a) /\ forall i, queue_at (g_fresh s) W i = Some [] -> queue_at (g_fresh s') W i = Some [].
#[export] Instance onward_preorder : PreOrder onward.
Proof. split; [by split|]. intros s1 s2 s3 [A1 A2] [B1 B2]. split; auto. Qed.
Lemma grows_onward s s' : grows s s' -> onward s s'.
Proof. by intros [H1 H2 _]. Qed.
(** The list of participants changes, and with it nothing else. *)
Lemma marking_nodes l m m' w act s s' : marking l m w act [] s ->
  g_objs s' = g_objs s -> g_cells s' = g_cells s -> g_epoch s' = g_epoch s -> g_threads s' = g_threads s ->
  g_fresh s' = g_fresh s -> g_marked s' = g_marked s -> all_tasks s' = all_tasks s ->
  parts W t s0 act (nodes (g_locals s')) -> (forall a, a <> 0 -> hazard s a -> hazard s' a) -> self l (nodes (g_locals s')) ->
  (length (nodes (g_locals s')) <= m')%nat -> marking l m' w act [] s' /\ onward s s'.
Proof.
  intros [H Hs] Eo Ec Ee Et Ef Em Ek Hp Hz Hsl Hl.
  assert (Hb : forall a, black B s a -> black B s' a) by (intros a; by rewrite (black_objs B s s' a Eo)).
  split; [split|split; [done|by rewrite Ef]].
  - by apply (tracing_nodes W t s0 l m m' w act [] s s').
  - destruct Hs as [H1 H2 H3 H4 H5 H6]. constructor; rewrite ?Ef, ?Em; [done..|]. intros b a Hb' Ha Hr. eauto.
Qed.
Lemma tasks_items (ns ns' : list (node local)) : n_item <$> ns' = n_item <$> ns -> tasks_of ns' = tasks_of ns.
Proof.
  intros E. unfold tasks_of. f_equal. apply (f_equal (fmap l_tasks)) in E. by rewrite <- !list_fmap_compose in E.
Qed.
Lemma part_using act u nd : (forall p, p ∈ l_hazards (n_item nd) -> p = 0) -> part W t s0 act nd -> part W t s0 act (set_using u nd).
Proof. intros Hz [P1 P2 P3 P4 P5 P6 P7 P8]. constructor; try done. intros p Hp Hn. destruct (Hn (Hz p Hp)). Qed.
Lemma yields_register l m w act s thread : (m < fuel)%nat -> (forall j, j ∈ act -> j = l) -> marking l m w act [] s ->
  yields (register fuel thread) s (fun k s' => marking l (S m) w act [] s' /\ onward s s' /\ k <> l /\
    exists nd, nodes (g_locals s') !! k = Some nd /\ forall p, p ∈ l_hazards (n_item nd) -> p = 0).
Proof.
  intros Hm Hact H. unfold register. destruct (run_initialize s) as (b & f & Ei). step_with Ei. set (s1 := set_g_collector_init f s).
  pose proof (mk_tracing _ _ _ _ _ _ H) as Htr. pose proof (tr_length _ _ _ _ _ _ _ _ _ Htr) as Hlen.
  destruct (run_search local_default thread fuel (g_locals s1) 0) as (k & sl & E & En & _ & _ & Hk & _ & Hfree); [cbn; lia|lia|intros; lia|].
  change (g_locals s1) with (g_locals s) in *. set (ns := nodes (g_locals s)) in *.
  apply (yields_run _ _ k (set_g_locals (fun _ => sl) s1)).
  { rewrite run_on_slots. unfold acquire_or_default. change (g_locals s1) with (g_locals s). by rewrite E. }
  set (s2 := set_g_locals (fun _ => sl) s1).
  destruct (tr_self _ _ _ _ _ _ _ _ _ Htr) as (ndl & Hndl & Hul & Hzl).
  assert (Hkl : k <> l). { intros ->. specialize (Hfree ndl Hndl). congruence. }
  assert (Hka : k ∉ act) by (intros Hin; by apply Hkl, Hact).
  assert (Hnd : exists nd, nodes sl !! k = Some nd /\ part W t s0 false nd /\ (forall p, p ∈ l_hazards (n_item nd) -> p = 0) /\
    tasks_of (nodes sl) = tasks_of ns /\ (length (nodes sl) <= S (length ns))%nat /\ forall j, j <> k -> forall nd', nodes sl !! j = Some nd' <-> ns !! j = Some nd').
  { rewrite En. destruct (ns !! k) as [nd|] eqn:Ek.
    - exists (set_using (Some (thread, true)) nd). specialize (Hfree nd eq_refl).
      pose proof (tr_parts _ _ _ _ _ _ _ _ _ Htr k nd Ek) as Hp. rewrite bool_decide_false in Hp by done.
      assert (Hz : forall p, p ∈ l_hazards (n_item nd) -> p = 0).
      { intros p Hin. destruct (decide (p = 0)) as [|Hn]; [done|]. destruct (pt_hazard _ _ _ _ _ Hp p Hin Hn) as [Hu _].
        unfold is_using in Hfree. by destruct (n_using nd). }
      split; [apply list_lookup_insert_eq; by eapply lookup_lt_Some|]. split; [by apply part_using|]. split; [done|].
      split; [apply tasks_items; rewrite list_fmap_insert; cbn; apply list_insert_id; by rewrite list_lookup_fmap, Ek|].
      split; [rewrite length_insert; lia|]. intros j Hj nd'. by rewrite list_lookup_insert_ne.
    - apply lookup_ge_None in Ek. assert (k = length ns) as -> by lia. eexists. split; [by apply list_lookup_middle|].
      assert (Hz : forall p, p ∈ l_hazards local_default -> p = 0).
      { intros p Hin. unfold local_default in Hin. cbn [l_hazards] in Hin. by apply elem_of_replicate in Hin as [-> _]. }
      split; [constructor; cbn [n_item n_using]; try done|].
      + intros p Hin Hn. destruct (Hn (Hz p Hin)).
      + by intros b' [->|[->|?%not_elem_of_nil]%elem_of_cons]%elem_of_cons; [apply spent_default..|].
      + cbn. lia.
      + split; [done|]. split; [unfold tasks_of; rewrite fmap_app, concat_app; cbn; by rewrite !app_nil_r|].
        split; [rewrite length_app; cbn; lia|]. intros j Hj nd'. rewrite lookup_app_Some. split; [|by left].
        intros [?|[Hge Hx]]; [done|]. apply list_lookup_singleton_Some in Hx as [Hx _]. lia. }
  destruct Hnd as (nd & Hndk & Hpk & Hzk & Hts & Hle & Hrest).
  assert (H2 : marking l (S m) w act [] s2 /\ onward s s2).
  { apply (marking_nodes l m (S m) w act s s2 H); try done.
    - intros j nd' Hj. change (nodes sl !! j = Some nd') in Hj. destruct (decide (j = k)) as [->|Hne].
      + rewrite Hndk in Hj. injection Hj as <-. by rewrite bool_decide_false.
      + apply (Hrest j Hne) in Hj. by apply (tr_parts _ _ _ _ _ _ _ _ _ Htr).
    - intros a Hn (j & nd' & Hj & Hu & Ha). destruct (decide (j = k)) as [->|Hne].
      + specialize (Hfree nd' Hj). congruence.
      + exists j, nd'. split; [by apply Hrest|done].
    - exists ndl. split; [apply Hrest; [congruence|done]|done].
    - change (length (nodes sl) <= S m)%nat. lia. }
  split; [apply H2|]. split; [apply H2|]. split; [done|]. by exists nd.
Qed.
Lemma yields_unregister l m w act s thread k nd : marking l m w act [] s -> k <> l ->
  nodes (g_locals s) !! k = Some nd -> (forall p, p ∈ l_hazards (n_item nd) -> p = 0) ->
  yields (unregister thread k) s (fun _ s' => marking l m w act [] s' /\ onward s s').
Proof.
  intros H Hkl Hnd Hz. pose proof (mk_tracing _ _ _ _ _ _ H) as Htr. set (ns := nodes (g_locals s)) in *.
  set (ns' := alter (set_using None) k (alter (set_using (Some (thread, false))) k ns)).
  set (s2 := set_g_locals (fun R => mkSlots ns' (wsub (active R) 1)) s).
  eapply yields_run; [unfold unregister; rewrite run_on_slots; reflexivity|].
  change (marking l m w act [] s2 /\ onward s s2).
  assert (Hat : forall j, ns' !! j = if decide (j = k) then Some (set_using None nd) else ns !! j).
  { intros j. unfold ns'. destruct (decide (j = k)) as [->|Hne].
    - by rewrite !list_lookup_alter_eq, Hnd.
    - by rewrite !list_lookup_alter_ne. }
  destruct (tr_self _ _ _ _ _ _ _ _ _ Htr) as (ndl & Hndl & Hul & Hzl).
  apply (marking_nodes l m m w act s s2 H); try done.
  - apply tasks_items. apply list_eq. intros j. rewrite !list_lookup_fmap. change (nodes (g_locals s2)) with ns'. rewrite Hat.
    destruct (decide (j = k)) as [->|]; [|done]. change (nodes (g_locals s)) with ns. by rewrite Hnd.
  - intros j nd' Hj. change (ns' !! j = Some nd') in Hj. rewrite Hat in Hj. destruct (decide (j = k)) as [->|]; [|by apply (tr_parts _ _ _ _ _ _ _ _ _ Htr)].
    injection Hj as <-. apply part_using; [done|]. by apply (tr_parts _ _ _ _ _ _ _ _ _ Htr).
  - intros a Hn (j & nd' & Hj & Hu & Ha). exists j, nd'. split; [|done]. change (ns' !! j = Some nd'). rewrite Hat, decide_False; [done|].
    intros ->. change (ns !! k = Some nd') in Hj. rewrite Hnd in Hj. injection Hj as <-. by apply Hn, Hz.
  - exists ndl. split; [change (ns' !! l = Some ndl); by rewrite Hat, decide_False by congruence|done].
  - change (length ns' <= m)%nat. unfold ns'. rewrite !length_alter. apply (tr_length _ _ _ _ _ _ _ _ _ Htr).
Qed.

(** ** One scoped worker *)
Definition cleared (range : list nat) s : Prop := forall i, i ∈ range -> queue_at (g_fresh s) W i = Some [].
Lemma cleared_onward range s s' : onward s s' -> cleared range s -> cleared range s'.
Proof. intros [_ H] Hc i Hi. by apply H, Hc. Qed.
Lemma queue_bound X s i : scanning X s -> (i < OBJ_BATCHES_SHARD)%nat ->
  (length (default [] (queue_at (g_fresh s) W i)) <= length BS)%nat.
Proof.
  intros [H1 _ H3 _ _ _] Hi. destruct (H1 W i Hi) as [bs Hbs]. rewrite Hbs. cbn. rewrite <- (Permutation_length H3), length_app.
  pose proof (submseteq_length _ _ (batches_at _ _ _ _ Hi Hbs)). lia.
Qed.
Definition scan_body (g : guard) (h : gset Z) (q : nat) (rng : Rng) : prog (gstate V) (Rng + (Rng + unit)) :=
  batch <- try_pop_fresh_q W q ;
  match batch with
  | None => Ret (inr (inl rng))
  | Some batch =>
      foreach (b_items batch) (scan_item fuel g h) ;;
      let r := rng_usize rng OBJ_BATCHES_SHARD in
      push_marked_q W r.1 batch ;; Ret (inl r.2)
  end.
Lemma yields_scan_shard l m w act s g h q rng : (0 < fuel)%nat -> (length BS < fuel)%nat -> marking l m w act [] s -> guarded act g s ->
  hazard_set s0 h -> (q < OBJ_BATCHES_SHARD)%nat ->
  yields (loop fuel (scan_body g h q) rng) s (fun r s' => exists rng', r = inl rng' /\
    marking l m w act [] s' /\ grows s s' /\ cleared [q] s').
Proof.
  intros Hf HB H Hg Hh Hq.
  apply (yields_loop (fun _ s' => marking l m w act [] s' /\ grows s s') (fun _ s' => length (default [] (queue_at (g_fresh s') W q)))).
  - split; [done|reflexivity].
  - pose proof (queue_bound [] s q (mk_scanning _ _ _ _ _ _ H) Hq). lia.
  - clear rng. intros rng s1 [H1 Hg1]. eapply yields_then; [exact (yields_pop_fresh l m w act [] s1 q H1 Hq)|].
    intros [b|] s2 [Hg2 H2].
    2:{ destruct H2 as [-> He]. apply yields_ret. exists rng. split; [done|]. split; [done|]. split; [done|].
        intros i ->%list_elem_of_singleton. done. }
    destruct H2 as [H2 Hlt]. eapply yields_then.
    { apply (yields_scan_items l m w act s2 g h (b_items b) Hf); [apply H2|..|done].
      - eapply guarded_grows; [|exact Hg]. by etransitivity.
      - intros a. apply (marking_in l m w act [b] s2 b a H2). by left. }
    intros [] s3 (H3 & Hq3 & Hb). set (r := rng_usize rng OBJ_BATCHES_SHARD).
    assert (Hr : (r.1 < OBJ_BATCHES_SHARD)%nat) by (apply rng_usize_lt; unfold OBJ_BATCHES_SHARD; lia).
    eapply yields_then; [apply (yields_push_marked l m w act [] s3 r.1 b); [by eapply marking_quiet|done|done]|].
    intros [] s4 (Hg4 & H4 & Ef). apply yields_ret. split; [split; [done|]|by rewrite Ef, (qt_fresh _ _ _ Hq3)].
    etransitivity; [exact Hg1|]. etransitivity; [exact Hg2|]. etransitivity; [by apply quiet_grows|done].
Qed.
Lemma yields_scan_worker l m w s h thread range : (S m < fuel)%nat -> (4 < fuel)%nat -> (length BS < fuel)%nat ->
  marking l m w {[l]} [] s -> hazard_set s0 h -> (forall i, i ∈ range -> (i < OBJ_BATCHES_SHARD)%nat) ->
  yields (scan_worker fuel h W thread range) s (fun _ s' => marking l (S m) w {[l]} [] s' /\ onward s s' /\ cleared range s').
Proof.
  intros Hm H4 HB H Hh Hrange. unfold scan_worker.
  eapply yields_then; [apply (yields_register l m w {[l]} s thread); [lia|by intros j ->%elem_of_singleton|done]|].
  intros k s1 (H1 & Ho1 & Hkl & nd & Hnd & Hz).
  eapply yields_then; [apply (yields_pin l (S m) w {[l]} [] s1 k nd); [lia|done|by rewrite elem_of_singleton|done|done]|].
  intros g s2 (Egl & H2 & Hq2 & Hgd2). set (act := {[k]} ∪ {[l]}) in *.
  eapply yields_then.
  { apply (yields_for_each (R := unit) (fun pre _ s' => marking l (S m) w act [] s' /\ grows s2 s' /\ cleared pre s') (fun _ _ => False)
      (fun q_idx rng => loop fuel (scan_body g h q_idx) rng) range).
    - split; [done|]. split; [reflexivity|]. by intros i ?%not_elem_of_nil.
    - intros pre q post rng s3 Eq (H3 & Hg3 & Hc3). eapply yields_mono.
      + apply (yields_scan_shard l (S m) w act s3 g h q rng); [lia|done|done|by eapply guarded_grows|done|].
        apply Hrange. rewrite Eq. apply elem_of_app. right. by left.
      + intros r s4 (rng' & -> & H5 & Hg5 & Hc5). split; [done|]. split; [by etransitivity|].
        intros i [Hi|Hi]%elem_of_app; [|by apply Hc5]. by apply (gr_fresh _ _ Hg5), Hc3. }
  intros [rng|[]] s3 Hs3; [|done]. destruct Hs3 as (H3 & Hg3 & Hc3).
  eapply yields_then; [apply (yields_drop l (S m) w act s3 g); [lia|done|done|by eapply guarded_grows]|].
  intros [] s4 (H5 & Hg4 & nd4 & Hnd4 & Hz4). rewrite Egl in *.
  assert (Eact : act ∖ {[k]} = {[l]}) by (unfold act; set_solver). rewrite Eact in H5.
  eapply yields_mono; [exact (yields_unregister l (S m) w {[l]} s4 thread k nd4 H5 Hkl Hnd4 Hz4)|].
  intros [] s5 [H6 Ho6].
  assert (Ho4 : onward s3 s5) by (etransitivity; [by apply grows_onward|done]).
  split; [done|]. split; [|by eapply cleared_onward].
  etransitivity; [exact Ho1|]. etransitivity; [apply grows_onward, quiet_grows, Hq2|]. etransitivity; [apply grows_onward, Hg3|done].
Qed.
(** All of them, one after the other. *)
Lemma shard_range_lt n i j : (1 <= n <= OBJ_BATCHES_SHARD)%nat -> (i < n)%nat -> j ∈ shard_range n i -> (j < OBJ_BATCHES_SHARD)%nat.
Proof.
  intros Hn Hi Hj. assert (Hin : j ∈ concat (map (shard_range n) (seq 0 n))).
  { apply list_elem_of_In, in_concat. exists (shard_range n i). split; [|by apply list_elem_of_In].
    apply in_map, in_seq. lia. }
  rewrite shard_ranges_cover in Hin by done. apply elem_of_seq in Hin. lia.
Qed.
Lemma yields_scan_workers l m w s h wt : (m + OBJ_BATCHES_SHARD < fuel)%nat -> (length BS < fuel)%nat ->
  1 <= g_threads s <= Z.of_nat OBJ_BATCHES_SHARD -> marking l m w {[l]} [] s -> hazard_set s0 h ->
  yields (parallel_shard_work (Z.to_nat (g_threads s)) (fun i => scan_worker fuel h W (wt i))) s (fun _ s' =>
    marking l (m + OBJ_BATCHES_SHARD) w {[l]} [] s' /\ onward s s' /\ cleared (seq 0 OBJ_BATCHES_SHARD) s').
Proof.
  intros Hm HB Hth H Hh. set (n := Z.to_nat (g_threads s)).
  assert (Hn : (1 <= n <= OBJ_BATCHES_SHARD)%nat) by (unfold n; lia). pose proof (shard_ranges_cover n Hn) as Hcov.
  unfold parallel_shard_work. eapply yields_mono.
  - apply (yields_foreach (fun pre s' => (length pre <= n)%nat /\ marking l (m + length pre) w {[l]} [] s' /\ onward s s' /\
      cleared (concat (map (shard_range n) pre)) s')).
    + rewrite Nat.add_0_r. split; [cbn; lia|]. split; [done|]. split; [reflexivity|]. by intros i ?%not_elem_of_nil.
    + intros pre i post s1 Eq (_ & H1 & Ho1 & Hc1). assert (Hl : (length pre < n)%nat).
      { rewrite <- (length_seq n 0), Eq, length_app. cbn. lia. }
      eapply yields_mono.
      * apply (yields_scan_worker l (m + length pre) w s1 h (wt i) (shard_range n i)); [lia|unfold OBJ_BATCHES_SHARD in *; lia|done|done|done|].
        intros j. apply (shard_range_lt n i j Hn). assert (Hin : i ∈ seq 0 n) by (rewrite Eq; apply elem_of_app; right; by left).
        apply elem_of_seq in Hin. lia.
      * intros [] s2 (H2 & Ho2 & Hc2). rewrite length_app. cbn [length]. rewrite Nat.add_1_r, Nat.add_succ_r.
        split; [lia|]. split; [done|]. split; [by etransitivity|]. rewrite map_app, concat_app. cbn [map concat]. rewrite app_nil_r.
        intros j [Hj|Hj]%elem_of_app; [by apply (proj2 Ho2), Hc1|by apply Hc2].
  - intros [] s' (_ & H1 & Ho & Hc). rewrite length_seq in H1. rewrite Hcov in Hc. split; [|done]. destruct H1 as [Htr Hs]. split; [|done].
    destruct Htr as [T1 T2 T3 T4 T5 T6 T7 T8 T9 T10 T11]. constructor; try done. lia.
Qed.
End roots.
