(* ===== verification/Handles.v ===== *)
(** * Handles ([src/tls.rs], [src/guards.rs], [src/internal.rs])

    Who keeps a participant.  The first use of the crate by a thread registers a participant
    for it; the entry is reference counted, and shared by the thread-local [HANDLE], the
    [Handle]s cloned from it, the [Guard]s and the hazard pointers.  The slot goes back to the
    list when the last of them is dropped, which may be after the thread-local is destroyed. *)
From S2P Require Import Prelude Prog Epoch Meta Slots Registry State Heap Participant Guards Pointers Stats Collector Iter TraceInv Roots Frame.
#[local] Open Scope Z_scope.
#[local] Open Scope prog_scope.

(** The thread-local [HANDLE]: not used yet, holding a handle, or destroyed. *)
Inductive lazy_handle := Lazy | Alive (b : nat) | Destroyed.
(** [RcBox<Entry<Local>>]: the slot of the entry, and the strong count. *)
Record rc_box := mkRc { rc_entry : nat; rc_strong : Z }.
(** [Handle]: its [Rc<Entry<Local>>], the box by its name. *)
Record Handle := mkHandle { h_rc : nat }.

#[export] Instance lazy_handle_eq_dec : EqDecision lazy_handle.
Proof. solve_decision. Defined.

Section handles.
Context {EX : Extern} {V : Type} (fuel : nat) (parallelism : option Z).

(** The process: the [OnceLock] of [GLOBAL], the live boxes, and each thread's [HANDLE]. *)
Record process := mkProc {
  p_init : bool;
  p_g : gstate V;
  p_boxes : gmap nat rc_box;
  p_tls : gmap nat lazy_handle
}.
Definition set_p_g (g : gstate V) (P : process) : process := mkProc (p_init P) g (p_boxes P) (p_tls P).
Definition set_p_boxes (f : gmap nat rc_box -> gmap nat rc_box) (P : process) : process := mkProc (p_init P) (p_g P) (f (p_boxes P)) (p_tls P).
Definition set_p_tls (th : nat) (t : lazy_handle) (P : process) : process := mkProc (p_init P) (p_g P) (p_boxes P) (<[th := t]> (p_tls P)).
Definition tls_of (P : process) (th : nat) : lazy_handle := default Lazy (p_tls P !! th).
#[local] Abbreviation M := (prog process).

(** [global()]: [GLOBAL.get_or_init(Global::new)]. *)
Definition global : M unit :=
  modify (fun P => if p_init P then P else mkProc true (global_new parallelism) (p_boxes P) (p_tls P)).
Definition on_global {A} (p : prog (gstate V) A) : M A := global ;; lift p_g set_p_g p.

(** ** [Rc] *)
Definition rc_new (k : nat) : M nat :=
  atomic (fun P => let b := fresh (dom (p_boxes P)) in Ok (b, set_p_boxes <[b := mkRc k 1]> P)).
Definition rc_get (b : nat) : M nat :=
  atomic (fun P => match p_boxes P !! b with Some r => Ok (rc_entry r, P) | None => Stopped (UB "dangling Rc") end).
(** [Rc::clone] aborts when the count wraps around. *)
Definition rc_clone (b : nat) : M unit :=
  atomic (fun P => match p_boxes P !! b with
                   | Some r => let strong := wadd (rc_strong r) 1 in
                               if strong =? 0 then Stopped (Panic "abort: Rc::clone")
                               else Ok (tt, set_p_boxes <[b := mkRc (rc_entry r) strong]> P)
                   | None => Stopped (UB "dangling Rc")
                   end).
Definition rc_dec (b : nat) : M rc_box :=
  atomic (fun P => match p_boxes P !! b with
                   | Some r => let r := mkRc (rc_entry r) (wsub (rc_strong r) 1) in Ok (r, set_p_boxes <[b := r]> P)
                   | None => Stopped (UB "dangling Rc")
                   end).
(** [Drop for Rc], by thread [th]: the last one drops the entry and frees the box. *)
Definition rc_drop (th b : nat) : M unit :=
  r <- rc_dec b ;
  if rc_strong r =? 0 then on_global (unregister th (rc_entry r)) ;; modify (set_p_boxes (delete b)) else Ret tt.

(** ** [tls.rs] *)
(** [Local::register], by thread [th]. *)
Definition local_register (th : nat) : M Handle := k <- on_global (register fuel th) ; b <- rc_new k ; Ret (mkHandle b).
Definition ACCESS_ERROR : stop := Panic "cannot access a Thread Local Storage value during or after destruction: AccessError".
(** [HANDLE.with]: the thread's own handle, which the first use makes. *)
Definition handle_with (th : nat) : M Handle :=
  t <- gets (fun P => tls_of P th) ;
  match t with
  | Lazy => h <- local_register th ; modify (set_p_tls th (Alive (h_rc h))) ;; Ret h
  | Alive b => Ret (mkHandle b)
  | Destroyed => Stop ACCESS_ERROR
  end.
Definition handle_clone (h : Handle) : M Handle := rc_clone (h_rc h) ;; Ret (mkHandle (h_rc h)).
Definition handle_drop (th : nat) (h : Handle) : M unit := rc_drop th (h_rc h).
(** [handle()] *)
Definition tls_handle (th : nat) : M Handle := primary <- handle_with th ; handle_clone primary.
(** The destructor of [HANDLE], when thread [th] ends. *)
Definition thread_exit (th : nat) : M unit :=
  t <- gets (fun P => tls_of P th) ;
  match t with
  | Alive b => modify (set_p_tls th Destroyed) ;; handle_drop th (mkHandle b)
  | Lazy | Destroyed => Ret tt
  end.

(** ** [impl Handle], [Drop for Guard], and hazard pointers *)
(** [Handle::pin]: [Guard::new] on a clone of the [Rc], and [pin_inner]. *)
Definition handle_pin (h : Handle) : M (guard * nat) :=
  rc_clone (h_rc h) ;; k <- rc_get (h_rc h) ; g <- on_global (pin fuel k) ; Ret (g, h_rc h).
(** [pin()] *)
Definition tls_pin (th : nat) : M (guard * nat) := primary <- handle_with th ; handle_pin primary.
Definition handle_is_pinned (h : Handle) : M bool := k <- rc_get (h_rc h) ; on_global (is_pinned_local k).
(** The guard is dropped first, then its field [local]. *)
Definition guard_release (th : nat) (g : guard * nat) : M unit := on_global (guard_drop fuel g.1) ;; rc_drop th g.2.
Definition handle_assist (th : nat) (h : Handle) : M unit :=
  g <- handle_pin h ; on_global (guard_help_collect fuel g.1) ;; guard_release th g.
(** [<Handle as Protector>::protect] *)
Definition handle_shield (T : nat) (p : Z) (h : Handle) : M (HazardPointer * nat) :=
  rc_clone (h_rc h) ;; k <- rc_get (h_rc h) ; hp <- on_global (handle_protect T p k) ; Ret (hp, h_rc h).
Definition hazard_release (th : nat) (x : HazardPointer * nat) : M unit := on_global (hp_drop x.1) ;; rc_drop th x.2.

(** ** What a program holds *)
(** The values that own a reference to a participant; none of them leaves its thread.
    [KTls] is the thread-local's own handle. *)
Inductive ref_kind := KTls | KHandle | KGuard (g : guard) | KHazard (hp : HazardPointer).
Record ref := mkRef { rf_thread : nat; rf_box : nat; rf_kind : ref_kind }.
#[local] Instance guard_dec : EqDecision guard.
Proof. solve_decision. Defined.
#[local] Instance hp_dec : EqDecision HazardPointer.
Proof. solve_decision. Defined.
#[local] Instance ref_kind_dec : EqDecision ref_kind.
Proof. solve_decision. Defined.
#[local] Instance ref_dec : EqDecision ref.
Proof. solve_decision. Defined.

(** What a thread may do with them, and what it takes and gives. *)
Inductive op :=
  | OHandle (th : nat) | OPinTls (th : nat)
  | OClone (th b : nat) | OPin (th b : nat) | OAssist (th b : nat) | OProtect (th b T : nat) (p : Z)
  | ORepin (th b : nat) (g : guard) | OAssistGuard (th b : nat) (g : guard)
  | ODrop (x : ref) | OExit (th b : nat).
Definition op_thread (o : op) : nat :=
  match o with
  | OHandle th | OPinTls th | OClone th _ | OPin th _ | OAssist th _ | OProtect th _ _ _ | ORepin th _ _ | OAssistGuard th _ _ | OExit th _ => th
  | ODrop x => rf_thread x
  end.
Definition takes (o : op) : list ref :=
  match o with
  | OHandle _ | OPinTls _ => []
  | OClone th b | OPin th b | OAssist th b | OProtect th b _ _ => [mkRef th b KHandle]
  | ORepin th b g | OAssistGuard th b g => [mkRef th b (KGuard g)]
  | ODrop x => [x]
  | OExit th b => [mkRef th b KTls]
  end.
(** The first use also makes the thread-local's own handle. *)
Definition first_use (t : lazy_handle) (th b : nat) : list ref := if decide (t = Lazy) then [mkRef th b KTls] else [].
Definition exec_op (o : op) : M (list ref) :=
  match o with
  | OHandle th =>
      t <- gets (fun P => tls_of P th) ; h <- tls_handle th ; Ret (mkRef th (h_rc h) KHandle :: first_use t th (h_rc h))
  | OPinTls th =>
      t <- gets (fun P => tls_of P th) ; g <- tls_pin th ; Ret (mkRef th g.2 (KGuard g.1) :: first_use t th g.2)
  | OClone th b => h <- handle_clone (mkHandle b) ; Ret [mkRef th (h_rc h) KHandle; mkRef th b KHandle]
  | OPin th b => g <- handle_pin (mkHandle b) ; Ret [mkRef th g.2 (KGuard g.1); mkRef th b KHandle]
  | OAssist th b => handle_assist th (mkHandle b) ;; Ret [mkRef th b KHandle]
  | OProtect th b T p => x <- handle_shield T p (mkHandle b) ; Ret [mkRef th x.2 (KHazard x.1); mkRef th b KHandle]
  | ORepin th b g => on_global (guard_repin fuel g) ;; Ret [mkRef th b (KGuard g)]
  | OAssistGuard th b g => on_global (guard_help_collect fuel g) ;; Ret [mkRef th b (KGuard g)]
  | ODrop x =>
      match rf_kind x with
      | KHandle => handle_drop (rf_thread x) (mkHandle (rf_box x))
      | KGuard g => guard_release (rf_thread x) (g, rf_box x)
      | KHazard hp => hazard_release (rf_thread x) (hp, rf_box x)
      | KTls => Stop (UB "a thread-local is not dropped by the program")
      end ;; Ret []
  | OExit th b => thread_exit th ;; Ret []
  end.
(** Collection work may pin the thread again, through its [HANDLE]; it is modelled as pinning
    the participant at work, which is that of the [HANDLE] as long as this one is alive. *)
Definition ready (P : process) (o : op) : Prop :=
  match o with
  | OPin th _ | OAssist th _ | ORepin th _ _ | OAssistGuard th _ _ => exists b, tls_of P th = Alive b
  | ODrop x => match rf_kind x with
               | KGuard _ => exists b, tls_of P (rf_thread x) = Alive b
               | KTls => False
               | _ => True
               end
  | _ => True
  end.
End handles.

Arguments process {EX} V.
Arguments set_p_boxes {EX V} f P /.
Arguments set_p_tls {EX V} th t P /.

(** ** Running to a value, or to a stop that is accounted for *)
Section safely.
Context {S : Type} (stuck : stop -> Prop).
Definition safely {A} (p : prog S A) (s : S) (Q : A -> S -> Prop) : Prop :=
  match run p s with Ok (a, s') => Q a s' | Stopped e => stuck e end.
Lemma safely_bind {A B} (p : prog S A) (h : A -> prog S B) s Q Q' :
  safely p s Q -> (forall a s', Q a s' -> safely (h a) s' Q') -> safely (bind p h) s Q'.
Proof. unfold safely. intros Hp Hh. rewrite run_bind. destruct (run p s) as [[a s']|e]; [by apply Hh|done]. Qed.
Lemma safely_run {A B} (p : prog S A) (h : A -> prog S B) s a s' Q : run p s = Ok (a, s') -> safely (h a) s' Q -> safely (bind p h) s Q.
Proof. unfold safely. intros E. by rewrite (run_bind_ok _ _ _ _ _ E). Qed.
Lemma safely_mono {A} (p : prog S A) s (Q Q' : A -> S -> Prop) : safely p s Q -> (forall a s', Q a s' -> Q' a s') -> safely p s Q'.
Proof. unfold safely. destruct (run p s) as [[a s']|]; auto. Qed.
Lemma safely_ret {A} (a : A) s (Q : A -> S -> Prop) : Q a s -> safely (Ret a) s Q.
Proof. done. Qed.
End safely.

Section invariant.
Context {EX : Extern} {V : Type} (fuel : nat) (parallelism : option Z).
Implicit Types (P : process V) (g : gstate V) (x : ref) (l refs rest : list ref).

Lemma run_on_global {A} (p : prog (gstate V) A) P : p_init P = true ->
  run (on_global parallelism p) P = match run p (p_g P) with Ok (a, g) => Ok (a, set_p_g g P) | Stopped e => Stopped e end.
Proof.
  intros Hi. unfold on_global, global. rewrite (run_bind_ok _ _ _ tt P) by (cbn; by rewrite Hi).
  apply run_lift; [done|done|by intros []].
Qed.

(** ** The invariant *)
Definition refs_of (b : nat) l : list ref := filter (fun x => rf_box x = b) l.
Definition held_of l : list nat := omap (fun x => match rf_kind x with KHazard hp => Some (hp_hid hp) | _ => None end) l.
Definition guards_of l : list guard := omap (fun x => match rf_kind x with KGuard g => Some g | _ => None end) l.
Definition on_slot (k : nat) x : Prop := match rf_kind x with KGuard g => gd_local g = k | KHazard hp => hp_local hp = k | _ => True end.
Definition is_tls x : Prop := rf_kind x = KTls.
#[local] Instance is_tls_dec x : Decision (is_tls x).
Proof. unfold is_tls. destruct (rf_kind x); [left|right..]; done. Defined.

(** A slot shared by [l]: in use by their thread, pinned once for each guard, and with a hazard
    slot taken for each hazard pointer. *)
Definition slot_ok g (k th : nat) l : Prop := exists nd, nodes (g_locals g) !! k = Some nd /\ n_using nd = Some (th, true) /\
  hz_inv (n_item nd) (held_of l) /\ l_guard_count (n_item nd) = Z.of_nat (length (guards_of l)).
(** A slot nobody has: free, unpinned, and with no hazard pointer. *)
Definition idle (nd : node local) : Prop := is_using nd = false /\ hz_inv (n_item nd) [] /\ l_guard_count (n_item nd) = 0.
Record box_ok P (r : rc_box) l : Prop := {
  bo_init : p_init P = true;
  bo_some : l <> [];
  bo_strong : rc_strong r = Z.of_nat (length l);
  bo_slot : exists th, slot_ok (p_g P) (rc_entry r) th l /\ forall x, x ∈ l -> rf_thread x = th /\ on_slot (rc_entry r) x
}.
(** [refs] are all the values that own a reference. *)
Record inv refs P : Prop := {
  iv_box : forall b r, p_boxes P !! b = Some r -> box_ok P r (refs_of b refs);
  iv_inj : forall b1 b2 r1 r2, p_boxes P !! b1 = Some r1 -> p_boxes P !! b2 = Some r2 -> rc_entry r1 = rc_entry r2 -> b1 = b2;
  iv_ref : forall x, x ∈ refs -> is_Some (p_boxes P !! rf_box x) /\ tls_of P (rf_thread x) <> Lazy /\
    forall b, tls_of P (rf_thread x) = Alive b -> rf_box x = b;
  iv_tls : forall th b, tls_of P th = Alive b <-> mkRef th b KTls ∈ refs;
  iv_once : NoDup (filter is_tls refs);
  iv_idle : p_init P = true -> forall k nd, nodes (g_locals (p_g P)) !! k = Some nd ->
    (forall b r, p_boxes P !! b = Some r -> rc_entry r <> k) -> idle nd
}.
Lemma hz_inv_perm r h h' : h ≡ₚ h' -> hz_inv r h -> hz_inv r h'.
Proof. intros E [H1 H2 H3 H4 H5]. split; try done. by rewrite <- E. Qed.
Lemma slot_ok_perm g k th l l' : l ≡ₚ l' -> slot_ok g k th l -> slot_ok g k th l'.
Proof.
  intros E (nd & Hnd & Hu & Hz & Hc). exists nd. split; [done|]. split; [done|]. split.
  - eapply hz_inv_perm; [|exact Hz]. unfold held_of. by rewrite E.
  - rewrite Hc. unfold guards_of. by rewrite E.
Qed.
Lemma inv_perm refs refs' P : refs ≡ₚ refs' -> inv refs P -> inv refs' P.
Proof.
  intros E [H1 H2 H3 H4 H5 H6]. assert (Ef : forall b, refs_of b refs ≡ₚ refs_of b refs') by (intros b; unfold refs_of; by rewrite E). split; try done.
  - intros b r Hb. destruct (H1 b r Hb) as [B1 B2 B3 (th & B4 & B5)]. specialize (Ef b). split; [done|..].
    + intros E0. rewrite E0 in Ef. by apply Permutation_nil_r in Ef.
    + by rewrite B3, Ef.
    + exists th. split; [by eapply slot_ok_perm|]. intros x Hx. apply B5. by rewrite Ef.
  - intros x Hx. apply H3. by rewrite E.
  - intros th b. rewrite H4. by rewrite E.
  - by rewrite <- E.
Qed.

(** ** What changes one slot leaves the others alone *)
Record others (k : option nat) g g' : Prop := {
  ot_node : forall j nd, Some j <> k -> nodes (g_locals g) !! j = Some nd -> is_using nd = true ->
    exists nd', nodes (g_locals g') !! j = Some nd' /\ n_using nd' = n_using nd;
  ot_slot : forall j nd', Some j <> k -> nodes (g_locals g') !! j = Some nd' ->
    same_slots (base g j) (n_item nd') /\ l_guard_count (n_item nd') = l_guard_count (base g j);
  ot_using : forall j nd', Some j <> k -> nodes (g_locals g') !! j = Some nd' -> is_using nd' = true -> was_used g j
}.
Lemma touched_others g g' d k : (forall j, Some j <> k -> d j = 0) -> touched g d ∅ g' -> others k g g'.
Proof.
  intros Hd [H1 H2 H3 H4 H5 H6]. split.
  - intros j nd _. apply H2.
  - intros j nd' Hj Hnd. destruct (H4 j nd' Hnd) as [Hs Hc]. rewrite Hd in Hc by done. split; [done|lia].
  - intros j nd' _ Hnd Hu. destruct (H6 j nd' Hnd Hu); [set_solver|done].
Qed.
Lemma put_others g k r : others (Some k) g (put_local k r g).
Proof.
  assert (E : forall j, Some j <> Some k -> nodes (g_locals (put_local k r g)) !! j = nodes (g_locals g) !! j).
  { intros j Hj. rewrite nodes_put, decide_False by congruence. done. }
  split; intros j nd Hj; rewrite E by done.
  - intros Hnd _. by exists nd.
  - intros Hnd. unfold base. rewrite Hnd. done.
  - intros Hnd Hu. by exists nd.
Qed.
Lemma others_slot k g g' j th l : others k g g' -> Some j <> k -> slot_ok g j th l -> slot_ok g' j th l.
Proof.
  intros H Hj (nd & Hnd & Hu & Hz & Hc). destruct (ot_node _ _ _ H j nd Hj Hnd) as (nd' & Hnd' & Hu'); [unfold is_using; by rewrite Hu|].
  destruct (ot_slot _ _ _ H j nd' Hj Hnd') as [Hs Hc']. unfold base in *. rewrite Hnd in Hs, Hc'. cbn in Hs, Hc'.
  exists nd'. split; [done|]. split; [congruence|]. split; [by eapply hz_inv_same|congruence].
Qed.
Lemma others_idle k g g' j nd' : others k g g' -> Some j <> k -> (forall nd, nodes (g_locals g) !! j = Some nd -> idle nd) ->
  nodes (g_locals g') !! j = Some nd' -> idle nd'.
Proof.
  intros H Hj Hi Hnd'. destruct (ot_slot _ _ _ H j nd' Hj Hnd') as [Hs Hc]. split.
  - destruct (is_using nd') eqn:Hu; [|done]. destruct (ot_using _ _ _ H j nd' Hj Hnd' Hu) as (nd & Hnd & Hu0).
    destruct (Hi nd Hnd). congruence.
  - unfold base in *. destruct (nodes (g_locals g) !! j) as [nd|] eqn:Hnd; cbn in Hs, Hc.
    + destruct (Hi nd eq_refl) as (_ & Hz & H0). split; [by eapply hz_inv_same|congruence].
    + split; [eapply hz_inv_same; [exact Hs|apply hz_inv_default]|done].
Qed.

(** Pinning and unpinning, [x] times. *)
Lemma touched_slot g g' k (th : nat) l l' (x : Z) : touched g (bump k x (fun _ => 0)) ∅ g' -> slot_ok g k th l -> held_of l' = held_of l ->
  Z.of_nat (length (guards_of l')) = Z.of_nat (length (guards_of l)) + x -> slot_ok g' k th l' /\ others (Some k) g g'.
Proof.
  intros H (nd & Hnd & Hu & Hz & Hc) Eh Eg. split.
  - destruct (ut_node _ _ _ _ H k nd Hnd) as (nd' & Hnd' & Hu'); [unfold is_using; by rewrite Hu|].
    destruct (ut_slot _ _ _ _ H k nd' Hnd') as [Hs Hc']. unfold base in Hs, Hc'. rewrite Hnd in Hs, Hc'. cbn in Hs, Hc'.
    unfold bump in Hc'. rewrite decide_True in Hc' by done. exists nd'. split; [done|]. split; [congruence|]. split; [|lia].
    rewrite Eh. by eapply hz_inv_same.
  - apply (touched_others g g' _ (Some k)) with (2 := H). intros j Hj. unfold bump. by rewrite decide_False by congruence.
Qed.
Lemma slot_local g k th l : slot_ok g k th l -> exists r, local_of g k = Some r /\ hz_inv r (held_of l) /\ l_guard_count r = Z.of_nat (length (guards_of l)).
Proof. intros (nd & Hnd & _ & Hz & Hc). exists (n_item nd). unfold local_of. by rewrite Hnd. Qed.
Lemma put_slot g k th l l' r r' : slot_ok g k th l -> local_of g k = Some r -> slots_only r r' -> hz_inv r' (held_of l') ->
  length (guards_of l') = length (guards_of l) -> slot_ok (put_local k r' g) k th l' /\ others (Some k) g (put_local k r' g).
Proof.
  intros (nd & Hnd & Hu & Hz & Hc) Hl Hs Hz' Eg. split; [|by apply put_others]. unfold local_of in Hl. rewrite Hnd in Hl. injection Hl as <-.
  exists (upd_item (fun _ => r') nd). cbn [put_local set_g_locals g_locals nodes]. rewrite list_lookup_alter_eq, Hnd. split; [done|]. split; [done|].
  split; [done|]. rewrite Eg, <- Hc. cbn. rewrite Hs. by destruct (n_item nd).
Qed.

(** ** One box changes *)
Lemma inv_change refs refs' P P' b r r' : inv refs P -> p_boxes P !! b = Some r -> p_boxes P' = <[b := r']> (p_boxes P) -> rc_entry r' = rc_entry r ->
  p_init P' = p_init P -> p_tls P' = p_tls P -> box_ok P' r' (refs_of b refs') -> others (Some (rc_entry r)) (p_g P) (p_g P') ->
  (forall b', b' <> b -> refs_of b' refs' = refs_of b' refs) -> filter is_tls refs' = filter is_tls refs ->
  (forall x, x ∈ refs' -> exists y, y ∈ refs /\ rf_thread y = rf_thread x /\ rf_box y = rf_box x) -> inv refs' P'.
Proof.
  intros [H1 H2 H3 H4 H5 H6] Hb Eb Ee Ei Et Hok Ho Hne Ef Hx.
  assert (Htls : forall th, tls_of P' th = tls_of P th) by (intros; unfold tls_of; by rewrite Et).
  assert (Hent : forall c rc, p_boxes P' !! c = Some rc -> exists rc0, p_boxes P !! c = Some rc0 /\ rc_entry rc = rc_entry rc0).
  { intros c rc. rewrite Eb. intros [[<- <-]|[Hc Hrc]]%lookup_insert_Some; [by exists r|by exists rc]. }
  split.
  - intros c rc. rewrite Eb. intros [[<- <-]|[Hc Hrc]]%lookup_insert_Some; [done|]. rewrite Hne by done.
    destruct (H1 c rc Hrc) as [B1 B2 B3 (th & B4 & B5)]. split; [by rewrite Ei|done..|]. exists th. split; [|done].
    eapply others_slot; [exact Ho| |done]. intros [= E]. by apply Hc, (H2 b c r rc).
  - intros b1 b2 r1 r2 E1 E2 E. destruct (Hent _ _ E1) as (q1 & F1 & G1), (Hent _ _ E2) as (q2 & F2 & G2). apply (H2 _ _ q1 q2 F1 F2). congruence.
  - intros x Hin. destruct (Hx x Hin) as (y & Hy & Eth & Ebx). destruct (H3 y Hy) as (Hs & Hl & Ha). rewrite !Htls, <- Eth, <- Ebx.
    split; [|split; [done|]]. { rewrite Eb, lookup_insert_is_Some'. by right. } exact Ha.
  - intros th c. rewrite Htls, H4. pose proof (list_elem_of_filter is_tls refs (mkRef th c KTls)) as F1.
    pose proof (list_elem_of_filter is_tls refs' (mkRef th c KTls)) as F2. rewrite Ef, F1 in F2. unfold is_tls in F2. cbn in F2. tauto.
  - by rewrite Ef.
  - rewrite Ei. intros Hi k nd' Hnd' Hk. assert (Hk' : forall c rc, p_boxes P !! c = Some rc -> rc_entry rc <> k).
    { intros c rc Hc. destruct (decide (c = b)) as [->|Hcb].
      - rewrite Hb in Hc. injection Hc as <-. rewrite <- Ee. apply (Hk b). rewrite Eb. by rewrite lookup_insert_eq.
      - apply (Hk c). rewrite Eb. by rewrite lookup_insert_ne by congruence. }
    apply (others_idle _ _ _ k nd' Ho); [|by intros nd Hnd; apply (H6 Hi k)|done]. intros [= ->]. by apply (Hk' b r).
Qed.
(** A value of a thread and a box turns into another: the slot follows. *)
Lemma refs_of_cons b x l : refs_of b (x :: l) = if decide (rf_box x = b) then x :: refs_of b l else refs_of b l.
Proof. unfold refs_of. rewrite filter_cons. done. Qed.
Lemma inv_rekind rest P th b y y' r g' : inv (mkRef th b y :: rest) P -> p_boxes P !! b = Some r -> y <> KTls -> y' <> KTls ->
  (slot_ok (p_g P) (rc_entry r) th (mkRef th b y :: refs_of b rest) ->
    slot_ok g' (rc_entry r) th (mkRef th b y' :: refs_of b rest) /\ others (Some (rc_entry r)) (p_g P) g') ->
  on_slot (rc_entry r) (mkRef th b y') -> inv (mkRef th b y' :: rest) (set_p_g g' P).
Proof.
  intros H Hb Hy Hy' Hg Hon. destruct (iv_box _ _ H b r Hb) as [B1 B2 B3 (th' & B4 & B5)].
  rewrite refs_of_cons, decide_True in B3, B4, B5 by done. assert (th' = th) as ->.
  { symmetry. apply (B5 (mkRef th b y)). by left. }
  destruct (Hg B4) as [G1 G2]. eapply (inv_change _ _ P _ b r r H Hb); try done.
  - symmetry. by apply insert_id.
  - rewrite refs_of_cons, decide_True by done. split; [done|done|by rewrite B3|]. exists th. split; [done|].
    intros x [->|Hx]%elem_of_cons; [done|]. apply B5. by right.
  - intros c Hc. rewrite !refs_of_cons, !decide_False by (by intros <-). done.
  - rewrite !filter_cons, !decide_False by done. done.
  - intros x [->|Hx]%elem_of_cons; [exists (mkRef th b y); split; [by left|done]|exists x; split; [by right|done]].
Qed.

(** ** [Rc] *)
Lemma refs_of_length b l : (length (refs_of b l) <= length l)%nat.
Proof. apply length_filter. Qed.
Lemma inv_has refs P x : inv refs P -> x ∈ refs -> exists r, p_boxes P !! rf_box x = Some r /\ box_ok P r (refs_of (rf_box x) refs) /\
  slot_ok (p_g P) (rc_entry r) (rf_thread x) (refs_of (rf_box x) refs) /\ on_slot (rc_entry r) x.
Proof.
  intros H Hx. destruct (iv_ref _ _ H x Hx) as [[r Hr] _]. exists r. split; [done|]. pose proof (iv_box _ _ H _ r Hr) as Hb. split; [done|].
  destruct Hb as [_ _ _ (th & B4 & B5)]. destruct (B5 x) as [-> Hon]; [|done]. apply list_elem_of_filter. done.
Qed.
Lemma run_rc_get refs P x : inv refs P -> x ∈ refs -> exists r, p_boxes P !! rf_box x = Some r /\ run (rc_get (rf_box x)) P = Ok (rc_entry r, P).
Proof. intros H Hx. destruct (inv_has refs P x H Hx) as (r & Hr & _). exists r. split; [done|]. cbn. by rewrite Hr. Qed.
Lemma run_rc_clone refs P x : inv refs P -> x ∈ refs -> Z.of_nat (length refs) + 1 < wmod ->
  exists r P', run (rc_clone (rf_box x)) P = Ok (tt, P') /\ inv (mkRef (rf_thread x) (rf_box x) KHandle :: refs) P' /\ p_tls P' = p_tls P /\
    p_init P' = true /\ p_g P' = p_g P /\ p_boxes P !! rf_box x = Some r.
Proof.
  intros H Hx Hn. destruct (inv_has refs P x H Hx) as (r & Hr & [B1 B2 B3 _] & Hs & _). pose proof (refs_of_length (rf_box x) refs) as Hl.
  unfold rc_clone. cbn. rewrite Hr. rewrite B3. unfold wadd. rewrite Z.mod_small by lia.
  destruct (Z.eqb_spec (Z.of_nat (length (refs_of (rf_box x) refs)) + 1) 0); [lia|]. exists r. eexists. split; [done|]. split; [|done].
  eapply (inv_change refs _ P _ (rf_box x) r); [done|done|done|done..| | | | |].
  - rewrite refs_of_cons, decide_True by done. split; [done|done|cbn; lia|]. exists (rf_thread x). split; [exact Hs|].
    destruct (iv_box _ _ H _ r Hr) as [_ _ _ (th & _ & B5)]. intros y [->|Hy]%elem_of_cons; [done|].
    destruct (B5 y Hy) as [-> Hon]. split; [|done]. symmetry. apply B5, list_elem_of_filter. done.
  - apply (touched_others _ _ (fun _ => 0)); [done|apply untouched_refl].
  - intros c Hc. rewrite refs_of_cons, decide_False by (by intros <-). done.
  - by rewrite filter_cons, decide_False.
  - intros y [->|Hy]%elem_of_cons; [by exists x|by exists y].
Qed.

(** The last reference gives the slot back, clean. *)
Lemma run_unregister th k g : run (unregister th k) g =
  Ok (tt, set_g_locals (fun R => mkSlots (alter (set_using None) k (alter (set_using (Some (th, false))) k (nodes R))) (wsub (active R) 1)) g).
Proof. unfold unregister. by rewrite run_on_slots. Qed.
Lemma others_unregister th k g n :
  others (Some k) g (set_g_locals (fun R => mkSlots (alter (set_using None) k (alter (set_using (Some (th, false))) k (nodes R))) n) g).
Proof.
  assert (E : forall j, Some j <> Some k -> alter (set_using None) k (alter (set_using (Some (th, false))) k (nodes (g_locals g))) !! j = nodes (g_locals g) !! j).
  { intros j Hj. rewrite !list_lookup_alter_ne by congruence. done. }
  split; intros j nd Hj; cbn; rewrite E by done.
  - intros Hnd _. by exists nd.
  - intros Hnd. unfold base. rewrite Hnd. done.
  - intros Hnd Hu. by exists nd.
Qed.
Lemma run_rc_drop th b rest P : inv (mkRef th b KHandle :: rest) P -> Z.of_nat (length rest) + 1 < wmod ->
  exists P', run (rc_drop parallelism th b) P = Ok (tt, P') /\ inv rest P' /\ p_tls P' = p_tls P.
Proof.
  intros H Hn. destruct (inv_has _ P (mkRef th b KHandle) H) as (r & Hr & [B1 B2 B3 _] & Hs & _); [by left|]. cbn [rf_box rf_thread] in Hr, Hs, B3.
  pose proof (refs_of_length b rest) as Hl. rewrite refs_of_cons, decide_True in B3, Hs by done. cbn [length] in B3. rewrite Nat2Z.inj_succ in B3.
  assert (Hel : forall x, x ∈ refs_of b rest -> rf_thread x = th /\ on_slot (rc_entry r) x).
  { destruct (iv_box _ _ H _ r Hr) as [_ _ _ (th' & _ & B5)]. rewrite refs_of_cons, decide_True in B5 by done. intros x Hx.
    destruct (B5 (mkRef th b KHandle)) as [E _]; [by left|]. cbn in E. subst th'. apply B5. by right. }
  assert (Hs' : slot_ok (p_g P) (rc_entry r) th (refs_of b rest)) by exact Hs.
  unfold rc_drop. set (r' := mkRc (rc_entry r) (wsub (rc_strong r) 1)). rewrite (run_bind_ok _ _ _ r' (set_p_boxes <[b := r']> P)) by (cbn; by rewrite Hr).
  assert (Estr : rc_strong r' = Z.of_nat (length (refs_of b rest))) by (cbn; unfold wsub; rewrite Z.mod_small; lia). rewrite Estr.
  destruct (refs_of b rest) as [|x0 l0] eqn:El; cbn [length].
  - change (Z.of_nat 0 =? 0) with true. cbv iota. rewrite run_bind, run_on_global, run_unregister by done. eexists. split; [done|]. split; [|done].
    set (g' := set_g_locals _ _). pose proof (others_unregister th (rc_entry r) (p_g P) (wsub (active (g_locals (p_g P))) 1) : others (Some (rc_entry r)) (p_g P) g') as Ho.
    destruct H as [H1 H2 H3 H4 H5 H6]. cbn.
    assert (Hbx : forall c rc, delete b (<[b := r']> (p_boxes P)) !! c = Some rc <-> c <> b /\ p_boxes P !! c = Some rc).
    { intros c rc. rewrite lookup_delete_Some. split; intros [Hc Hrc]; (split; [congruence|]); [by rewrite lookup_insert_ne in Hrc|by rewrite lookup_insert_ne by congruence]. }
    split; cbn.
    + intros c rc [Hc Hrc]%Hbx. destruct (H1 c rc Hrc) as [C1 C2 C3 (th' & C4 & C5)]. rewrite refs_of_cons, decide_False in C2, C3, C4, C5 by (by intros <-).
      split; [done..|]. exists th'. split; [|done]. eapply others_slot; [exact Ho| |done]. intros [= E]. by apply Hc, (H2 c b rc r).
    + intros b1 b2 r1 r2 [? E1]%Hbx [? E2]%Hbx. by apply H2.
    + intros x Hx. destruct (H3 x) as ((rc & Hrc) & Ht & Ha); [by right|]. split; [|done]. exists rc. apply Hbx. split; [|done].
      intros E. assert (Hin : x ∈ refs_of b rest) by by apply list_elem_of_filter. rewrite El in Hin. by apply not_elem_of_nil in Hin.
    + intros th' c. unfold tls_of in *. rewrite H4, elem_of_cons. split; [|auto]. by intros [?|].
    + by rewrite filter_cons, decide_False in H5.
    + intros _ k nd' Hnd' Hk. destruct (decide (k = rc_entry r)) as [->|Hne].
      * destruct Hs as (nd & Hnd & Hu & Hz & Hc). cbn in Hnd'. rewrite !list_lookup_alter_eq, Hnd in Hnd'. injection Hnd' as <-. done.
      * apply (others_idle (Some (rc_entry r)) (p_g P) g' k nd' Ho); [congruence| |done]. intros nd Hnd. apply (H6 B1 k nd Hnd). intros c rc Hc E.
        destruct (decide (c = b)) as [->|Hcb]; [rewrite Hr in Hc; by simplify_eq|]. by apply (Hk c rc); [apply Hbx|].
  - eexists. split; [done|]. split; [|done]. eapply (inv_change (mkRef th b KHandle :: rest) rest P _ b r r' H Hr); try done.
    + split; [done|by rewrite El|by rewrite El|]. exists th. rewrite El. done.
    + apply (touched_others _ _ (fun _ => 0)); [done|apply untouched_refl].
    + intros c Hc. rewrite refs_of_cons, decide_False by (by intros <-). done.
    + intros y Hy. exists y. split; [by right|done].
Qed.

(** ** The first use *)
Definition start P : process V := if p_init P then P else mkProc true (global_new parallelism) (p_boxes P) (p_tls P).
Definition slots P : nat := length (nodes (g_locals (p_g (start P)))).
Lemma start_init P : p_init (start P) = true.
Proof. unfold start. by destruct (p_init P) eqn:E. Qed.
Lemma start_id P : p_init P = true -> start P = P.
Proof. unfold start. by intros ->. Qed.
Lemma run_on_start {A} (p : prog (gstate V) A) P : run (on_global parallelism p) P = run (on_global parallelism p) (start P).
Proof. unfold on_global, global, start. rewrite !run_bind. cbn. by destruct (p_init P) eqn:E; rewrite ?E. Qed.
Lemma inv_start refs P : inv refs P -> inv refs (start P).
Proof.
  intros H. unfold start. destruct (p_init P) eqn:Ei; [done|]. destruct H as [H1 H2 H3 H4 H5 H6].
  assert (Hb : forall b r, p_boxes P !! b = Some r -> False) by (intros b r Hr; destruct (H1 b r Hr); congruence).
  split; try done. cbn. intros b r Hr. by destruct (Hb b r).
Qed.
Lemma register_slot th g : (length (nodes (g_locals g)) < fuel)%nat ->
  exists k g', run (register fuel th) g = Ok (k, g') /\ others (Some k) g g' /\ (forall nd, nodes (g_locals g) !! k = Some nd -> is_using nd = false) /\
    exists nd, nodes (g_locals g') !! k = Some nd /\ n_using nd = Some (th, true) /\ n_item nd = base g k.
Proof.
  intros Hf. destruct (run_register fuel th g Hf) as (k & sl & f & E & _ & Hfree & Hat). exists k. eexists. split; [exact E|].
  split; [|split; [done|]].
  - split; intros j nd Hj; cbn; rewrite Hat, decide_False by congruence.
    + intros Hnd _. by exists nd.
    + intros Hnd. unfold base. rewrite Hnd. done.
    + intros Hnd Hu. by exists nd.
  - cbn. rewrite Hat, decide_True by done. by eexists.
Qed.
Lemma inv_new_box refs P th k b g' : inv refs P -> p_init P = true -> tls_of P th = Lazy -> p_boxes P !! b = None -> others (Some k) (p_g P) g' ->
  (forall nd, nodes (g_locals (p_g P)) !! k = Some nd -> is_using nd = false) ->
  (exists nd, nodes (g_locals g') !! k = Some nd /\ n_using nd = Some (th, true) /\ n_item nd = base (p_g P) k) ->
  inv (mkRef th b KTls :: refs) (set_p_tls th (Alive b) (set_p_boxes <[b := mkRc k 1]> (set_p_g g' P))).
Proof.
  intros [H1 H2 H3 H4 H5 H6] Hi Hl Hb Ho Hfree (nd' & Hnd' & Hu' & Ei').
  assert (Hno : refs_of b refs = []).
  { destruct (refs_of b refs) as [|x l] eqn:El; [done|]. assert (Hx : x ∈ refs_of b refs) by (rewrite El; by left).
    apply list_elem_of_filter in Hx as [<- Hx]. destruct (H3 x Hx) as [[r Hr] _]. congruence. }
  assert (Hk : forall c rc, p_boxes P !! c = Some rc -> rc_entry rc <> k).
  { intros c rc Hc <-. destruct (H1 c rc Hc) as [_ _ _ (th' & (nd & Hnd & Hu & _) & _)]. specialize (Hfree nd Hnd).
    unfold is_using in Hfree. by rewrite Hu in Hfree. }
  assert (Hthr : forall x, x ∈ refs -> rf_thread x <> th) by (intros x Hx E; destruct (H3 x Hx) as (_ & Hn & _); by rewrite E in Hn).
  assert (Htls : forall th', tls_of (set_p_tls th (Alive b) (set_p_boxes <[b := mkRc k 1]> (set_p_g g' P))) th' = if decide (th' = th) then Alive b else tls_of P th').
  { intros th'. unfold tls_of. cbn. case_decide as E; [by rewrite E, lookup_insert_eq|by rewrite lookup_insert_ne by congruence]. }
  split.
  - intros c rc. cbn [p_boxes set_p_tls set_p_boxes set_p_g]. intros [[<- <-]|[Hc Hrc]]%lookup_insert_Some.
    + rewrite refs_of_cons, decide_True, Hno by done. split; [done|done|done|]. exists th. split.
      * exists nd'. cbn. split; [done|]. split; [done|]. rewrite Ei'. unfold base.
        destruct (nodes (g_locals (p_g P)) !! k) as [nd|] eqn:Hnd; [by destruct (H6 Hi k nd Hnd Hk)|]. split; [apply hz_inv_default|done].
      * by intros x ->%list_elem_of_singleton.
    + rewrite refs_of_cons, decide_False by done. destruct (H1 c rc Hrc) as [B1 B2 B3 (th' & B4 & B5)]. split; [done..|]. exists th'. split; [|done].
      eapply others_slot; [exact Ho| |done]. intros [= E]. by apply (Hk c rc).
  - cbn. intros b1 b2 r1 r2 [[<- <-]|[? E1]]%lookup_insert_Some [[<- <-]|[? E2]]%lookup_insert_Some E; [done|by destruct (Hk _ _ E2)|by destruct (Hk _ _ E1)|by apply (H2 b1 b2 r1 r2)].
  - intros x [->|Hx]%elem_of_cons; rewrite Htls; cbn [rf_box rf_thread].
    + rewrite decide_True by done. split; [exists (mkRc k 1); apply lookup_insert_eq|]. split; [done|congruence].
    + rewrite decide_False by by apply Hthr. destruct (H3 x Hx) as (Hs & Hlz & Ha). split; [|done]. cbn. rewrite lookup_insert_is_Some'. by right.
  - intros th' c. rewrite Htls, elem_of_cons. case_decide as E.
    + subst th'. split; [intros [= <-]; by left|]. intros [[= ->]|Hin]; [done|]. by destruct (Hthr _ Hin).
    + rewrite H4. split; [by right|]. intros [[=]|]; [done|]. done.
  - rewrite filter_cons, decide_True by done. apply NoDup_cons. split; [|done]. intros [_ Hin]%list_elem_of_filter. by destruct (Hthr _ Hin).
  - cbn. intros _ j nd Hnd Hj. assert (Hjk : k <> j) by (apply (Hj b (mkRc k 1)), lookup_insert_eq).
    apply (others_idle _ _ _ j nd Ho); [congruence| |done]. intros nd0 Hnd0. apply (H6 Hi j nd0 Hnd0). intros c rc Hc. apply (Hj c).
    rewrite lookup_insert_ne; [done|]. intros ->. congruence.
Qed.

(** ** The operations *)
(** Collection work, which a heap that is not well formed can stop. *)
Inductive work : forall A, prog (gstate V) A -> Prop :=
  | WPin k : work _ (pin fuel k)
  | WDrop (g : guard) : work _ (guard_drop fuel g)
  | WAssist (g : guard) : work _ (guard_help_collect fuel g)
  | WRepin (g : guard) : work _ (guard_repin fuel g).
(** The states it runs in: those an operation that begins in [g0] has led to. *)
Inductive leads g0 : gstate V -> Prop :=
  | LStart : leads g0 g0
  | LRegister th k g g' : leads g0 g -> run (register fuel th) g = Ok (k, g') -> leads g0 g'
  | LWork A (q : prog (gstate V) A) a g g' : leads g0 g -> work A q -> run q g = Ok (a, g') -> leads g0 g'.
Lemma inv_exit rest P th b : inv (mkRef th b KTls :: rest) P -> inv (mkRef th b KHandle :: rest) (set_p_tls th Destroyed P).
Proof.
  intros [H1 H2 H3 H4 H5 H6]. assert (Htls : forall th', tls_of (set_p_tls th Destroyed P) th' = if decide (th' = th) then Destroyed else tls_of P th').
  { intros th'. unfold tls_of. cbn. case_decide as E; [by rewrite E, lookup_insert_eq|by rewrite lookup_insert_ne by congruence]. }
  rewrite filter_cons, decide_True in H5 by done. apply NoDup_cons in H5 as [Hn H5].
  assert (Ha : tls_of P th = Alive b) by (apply H4; by left). split; try done.
  - intros c r Hc. destruct (H1 c r Hc) as [B1 B2 B3 (th' & B4 & B5)]. rewrite refs_of_cons in B2, B3, B4, B5 |- *. cbn [rf_box] in *.
    destruct (decide (b = c)); [|by split; [..|exists th']].
    split; [done|done|done|]. exists th'. split; [exact B4|]. intros x [->|Hx]%elem_of_cons; [|apply B5; by right].
    destruct (B5 (mkRef th b KTls)) as [E _]; [by left|]. done.
  - intros x Hx. rewrite Htls. assert (Hx' : exists y, y ∈ mkRef th b KTls :: rest /\ rf_thread y = rf_thread x /\ rf_box y = rf_box x).
    { apply elem_of_cons in Hx as [->|Hx]; [exists (mkRef th b KTls); split; [by left|done]|exists x; split; [by right|done]]. }
    destruct Hx' as (y & Hy & Et & Eb). destruct (H3 y Hy) as (Hs & Hl & Hal). rewrite <- Et, <- Eb. split; [done|]. by case_decide.
  - intros th' c. rewrite Htls, elem_of_cons. case_decide as E.
    + subst th'. split; [done|]. intros [[=]|Hin]. assert (Hc : tls_of P th = Alive c) by (apply H4; by right).
      rewrite Ha in Hc. injection Hc as <-. destruct Hn. by apply list_elem_of_filter.
    + rewrite H4, elem_of_cons. split; (intros [Hx|Hx]; [congruence|by right]).
Qed.

Section ops.
Context (g0 : gstate V) (stuck : stop -> Prop).
Context (Hwork : forall A (q : prog (gstate V) A) g e, leads g0 g -> work A q -> run q g = Stopped e -> stuck e).

(** An operation on the slot, which turns one value into another. *)
Lemma safely_slot {A} (p : prog (gstate V) A) rest P th b y (y' : A -> ref_kind) r : inv (mkRef th b y :: rest) P -> p_boxes P !! b = Some r -> y <> KTls ->
  (forall e, run p (p_g P) = Stopped e -> stuck e) ->
  (forall a g', run p (p_g P) = Ok (a, g') -> slot_ok (p_g P) (rc_entry r) th (mkRef th b y :: refs_of b rest) -> on_slot (rc_entry r) (mkRef th b y) ->
    (slot_ok g' (rc_entry r) th (mkRef th b (y' a) :: refs_of b rest) /\ others (Some (rc_entry r)) (p_g P) g') /\
    y' a <> KTls /\ on_slot (rc_entry r) (mkRef th b (y' a))) ->
  safely stuck (on_global parallelism p) P (fun a P' => inv (mkRef th b (y' a) :: rest) P' /\ p_tls P' = p_tls P /\ run p (p_g P) = Ok (a, p_g P')).
Proof.
  intros H Hb Hy Hstop Hok. destruct (inv_has _ P (mkRef th b y) H) as (r' & Hr' & [B1 _ _ _] & Hs & Hon); [by left|].
  cbn [rf_box rf_thread] in *. rewrite Hb in Hr'. injection Hr' as <-. rewrite refs_of_cons, decide_True in Hs by done.
  unfold safely. rewrite run_on_global by done. destruct (run p (p_g P)) as [[a g']|e] eqn:E; [|by apply Hstop].
  destruct (Hok a g' eq_refl Hs Hon) as (Hg & Hy' & Hon'). split; [|done]. by apply (inv_rekind rest P th b y (y' a) r g').
Qed.
Lemma safely_pin refs P x : leads g0 (p_g P) -> inv refs P -> x ∈ refs -> Z.of_nat (length refs) + 1 < wmod ->
  safely stuck (handle_pin fuel parallelism (mkHandle (rf_box x))) P (fun (g : guard * nat) P' => g.2 = rf_box x /\ p_tls P' = p_tls P /\
    inv (mkRef (rf_thread x) (rf_box x) (KGuard g.1) :: refs) P' /\ leads g0 (p_g P')).
Proof.
  intros HL H Hx Hn. destruct (run_rc_clone refs P x H Hx Hn) as (r & P1 & E1 & H1 & Et & _ & Eg1 & _). rewrite <- Eg1 in HL. unfold handle_pin. eapply safely_run; [exact E1|].
  destruct (run_rc_get _ P1 (mkRef (rf_thread x) (rf_box x) KHandle) H1) as (r1 & Hr1 & E2); [by left|]. eapply safely_run; [exact E2|]. cbn [rf_box] in *.
  eapply safely_bind; [apply (safely_slot _ refs P1 _ _ KHandle KGuard r1 H1 Hr1); [done| |]|].
  - intros e. by apply Hwork; [|constructor].
  - intros g g' E Hs _. destruct (ends_pin (p_g P1) fuel (fun _ => 0) ∅ (rc_entry r1) (p_g P1) g g' (untouched_refl _) E) as [Eg Ht].
    split; [|split; [done|exact Eg]]. apply (touched_slot _ _ _ _ _ _ 1 Ht Hs); [done|]. cbn. lia.
  - intros g P2 (H2 & Et2 & E2'). apply safely_ret. split; [done|]. split; [congruence|]. split; [done|].
    eapply LWork; [exact HL| |exact E2']. constructor.
Qed.
Lemma safely_unpin rest P th b (g : guard) : leads g0 (p_g P) -> inv (mkRef th b (KGuard g) :: rest) P -> Z.of_nat (length rest) + 1 < wmod ->
  safely stuck (guard_release fuel parallelism th (g, b)) P (fun _ P' => inv rest P' /\ p_tls P' = p_tls P).
Proof.
  intros HL H Hn. destruct (inv_has _ P (mkRef th b (KGuard g)) H) as (r & Hr & _); [by left|]. unfold guard_release. cbn [fst snd].
  eapply safely_bind; [apply (safely_slot _ rest P _ _ _ (fun _ => KHandle) r H Hr); [done| |]|].
  - intros e. by apply Hwork; [|constructor].
  - intros [] g' E Hs Hon. cbn in Hon. pose proof (ends_drop (p_g P) fuel (fun _ => 0) ∅ g (p_g P) tt g' (untouched_refl _) E) as Ht. rewrite Hon in Ht.
    split; [|done]. apply (touched_slot _ _ _ _ _ _ (-1) Ht Hs); [done|]. cbn. lia.
  - intros [] P1 (H1 & Et & _). destruct (run_rc_drop th b rest P1 H1 Hn) as (P2 & E2 & H2 & Et2). unfold safely. rewrite E2. split; [done|congruence].
Qed.
(** Work that leaves the guard as it is. *)
Lemma safely_work {A} (q : prog (gstate V) A) rest P th b (g : guard) : work A q -> (forall g1, Frame.keeps (touched g1 (fun _ => 0) ∅) q) ->
  leads g0 (p_g P) -> inv (mkRef th b (KGuard g) :: rest) P ->
  safely stuck (on_global parallelism q) P (fun _ P' => inv (mkRef th b (KGuard g) :: rest) P' /\ leads g0 (p_g P')).
Proof.
  intros Hq Hk HL H. destruct (inv_has _ P (mkRef th b (KGuard g)) H) as (r & Hr & _); [by left|].
  eapply safely_mono; [apply (safely_slot q rest P _ _ _ (fun _ => KGuard g) r H Hr); [done| |]|].
  - intros e. by apply Hwork.
  - intros a g' E Hs Hon. split; [|split; [done|exact Hon]]. destruct (Hk (p_g P) (p_g P) a g' (untouched_refl _) E) as [Ht _].
    refine (touched_slot (p_g P) g' (rc_entry r) th _ _ 0 _ Hs _ _); [|done|lia]. eapply touched_mono; [| |exact Ht]; [|done]. intros j. unfold bump. by case_decide.
  - intros a P' (H' & _ & E). split; [done|]. by eapply LWork.
Qed.
(** Hazard pointers. *)
Lemma run_handle_protect T p k g r held : local_of g k = Some r -> hz_inv r held ->
  exists hid r', run (handle_protect T p k) g = Ok (mkHP hid k, put_local k r' g) /\ hz_inv r' (hid :: held) /\ slots_only r r'.
Proof.
  intros Hl Hz. destruct (run_hp_new k g r held Hl Hz) as (hid & r1 & E1 & Hz1 & _ & _ & _ & Hs1).
  assert (Hl1 : local_of (put_local k r1 g) k = Some r1) by (apply local_of_put; by exists r).
  destruct (run_hp_protect_drop k _ r1 hid held T p Hl1 Hz1) as [(r2 & E2 & Hz2 & _ & Hs2) _].
  exists hid, r2. split; [|split; [done|rewrite Hs2, Hs1; by destruct r]]. unfold handle_protect. by rewrite run_bind, E1, run_bind, E2, put_put_local.
Qed.
Lemma safely_shield refs P x T p : inv refs P -> x ∈ refs -> Z.of_nat (length refs) + 1 < wmod ->
  safely stuck (handle_shield parallelism T p (mkHandle (rf_box x))) P (fun (hp : HazardPointer * nat) P' => hp.2 = rf_box x /\ p_tls P' = p_tls P /\
    inv (mkRef (rf_thread x) (rf_box x) (KHazard hp.1) :: refs) P').
Proof.
  intros H Hx Hn. destruct (run_rc_clone refs P x H Hx Hn) as (r & P1 & E1 & H1 & Et & _). unfold handle_shield. eapply safely_run; [exact E1|].
  destruct (run_rc_get _ P1 (mkRef (rf_thread x) (rf_box x) KHandle) H1) as (r1 & Hr1 & E2); [by left|]. eapply safely_run; [exact E2|]. cbn [rf_box] in *.
  destruct (inv_has _ P1 (mkRef (rf_thread x) (rf_box x) KHandle) H1) as (r1' & Hr1' & _ & Hs1 & _); [by left|]. cbn [rf_box rf_thread] in *.
  rewrite Hr1 in Hr1'. injection Hr1' as <-. destruct (slot_local _ _ _ _ Hs1) as (rl & Hl & Hz & _).
  destruct (run_handle_protect T p _ _ _ _ Hl Hz) as (hid & r' & E3 & Hz' & Hso).
  eapply safely_bind; [apply (safely_slot _ refs P1 _ _ KHandle KHazard r1 H1 Hr1); [done| |]|].
  - intros e. by rewrite E3.
  - intros hp g' E Hs _. rewrite E3 in E. injection E as <- <-. split; [|done]. apply (put_slot _ _ _ _ _ rl r' Hs Hl Hso); [|done].
    rewrite refs_of_cons, decide_True in Hz' by done. exact Hz'.
  - intros hp P2 (H2 & Et2 & _). apply safely_ret. split; [done|]. split; [congruence|done].
Qed.
Lemma safely_hazard_release rest P th b hp : inv (mkRef th b (KHazard hp) :: rest) P -> Z.of_nat (length rest) + 1 < wmod ->
  safely stuck (hazard_release parallelism th (hp, b)) P (fun _ P' => inv rest P' /\ p_tls P' = p_tls P).
Proof.
  intros H Hn. destruct (inv_has _ P (mkRef th b (KHazard hp)) H) as (r & Hr & _ & Hs1 & Hon1); [by left|]. cbn in Hon1. cbn [rf_box rf_thread] in *.
  destruct (slot_local _ _ _ _ Hs1) as (rl & Hl & Hz & _). rewrite refs_of_cons, decide_True in Hz by done.
  destruct hp as [hid k]. cbn in Hon1. subst k.
  destruct (run_hp_protect_drop (rc_entry r) (p_g P) rl hid (held_of (refs_of b rest)) 0%nat 0 Hl Hz) as [_ (r' & E3 & Hz' & _ & Hso)].
  unfold hazard_release. cbn [fst snd]. eapply safely_bind; [apply (safely_slot _ rest P _ _ _ (fun _ => KHandle) r H Hr); [done| |]|].
  - intros e. by rewrite E3.
  - intros [] g' E Hs _. rewrite E3 in E. injection E as <-. split; [|done]. by apply (put_slot _ _ _ _ _ rl r' Hs Hl Hso).
  - intros [] P1 (H1 & Et & _). destruct (run_rc_drop th b rest P1 H1 Hn) as (P2 & E2 & H2 & Et2). unfold safely. rewrite E2. split; [done|congruence].
Qed.
(** [HANDLE.with] *)
Lemma safely_with refs P th : inv refs P -> (slots P < fuel)%nat -> (tls_of P th = Destroyed -> stuck ACCESS_ERROR) ->
  safely stuck (handle_with fuel parallelism th) P (fun h P' => inv (first_use (tls_of P th) th (h_rc h) ++ refs) P' /\ tls_of P' th = Alive (h_rc h) /\ leads (p_g (start P)) (p_g P')).
Proof.
  intros H Hf Hd. unfold handle_with. eapply safely_run; [reflexivity|]. destruct (tls_of P th) as [|b|] eqn:Et; [| |by apply Hd].
  2:{ apply safely_ret. split; [done|]. split; [done|]. assert (Hin : mkRef th b KTls ∈ refs) by by apply (iv_tls _ _ H).
      destruct (inv_has refs P _ H Hin) as (r & _ & [B1 _ _ _] & _). rewrite start_id by done. constructor. }
  pose proof (inv_start refs P H) as H0. pose proof (start_init P) as Hi.
  destruct (register_slot th (p_g (start P)) Hf) as (k & g' & E & Ho & Hfree & Hnd).
  set (b := fresh (dom (p_boxes (start P)))).
  assert (Er : run (local_register fuel parallelism th) P = Ok (mkHandle b, set_p_boxes <[b := mkRc k 1]> (set_p_g g' (start P)))).
  { unfold local_register. rewrite run_bind, run_on_start, run_on_global, E by done. done. }
  eapply safely_run; [exact Er|]. eapply safely_run; [reflexivity|]. apply safely_ret. cbn [h_rc]. split; [|split].
  - apply (inv_new_box refs (start P) th k b g' H0 Hi); [|apply not_elem_of_dom, is_fresh|done..]. rewrite <- Et. unfold start. by destruct (p_init P).
  - unfold tls_of. cbn. by rewrite lookup_insert_eq.
  - by eapply LRegister; [constructor|].
Qed.

(** [handle()] *)
Lemma safely_handle refs P th : inv refs P -> (slots P < fuel)%nat -> Z.of_nat (length refs) + 3 < wmod -> (tls_of P th = Destroyed -> stuck ACCESS_ERROR) ->
  safely stuck (tls_handle fuel parallelism th) P (fun h P' => inv (mkRef th (h_rc h) KHandle :: first_use (tls_of P th) th (h_rc h) ++ refs) P').
Proof.
  intros H Hf Hn Hd. unfold tls_handle. eapply safely_bind; [by apply (safely_with refs)|]. intros [b] P1 (H1 & Ht & _). cbn [h_rc] in *.
  assert (Hin : mkRef th b KTls ∈ first_use (tls_of P th) th b ++ refs) by by apply (iv_tls _ _ H1).
  destruct (run_rc_clone _ P1 _ H1 Hin) as (r & P2 & E2 & H2 & _).
  { rewrite length_app. unfold first_use. case_decide; cbn; lia. }
  unfold handle_clone. cbn [h_rc]. eapply safely_run; [exact E2|]. by apply safely_ret.
Qed.
(** [pin()] *)
Lemma safely_tls_pin refs P th : g0 = p_g (start P) -> inv refs P -> (slots P < fuel)%nat -> Z.of_nat (length refs) + 3 < wmod -> (tls_of P th = Destroyed -> stuck ACCESS_ERROR) ->
  safely stuck (tls_pin fuel parallelism th) P (fun (g : guard * nat) P' => inv (mkRef th g.2 (KGuard g.1) :: first_use (tls_of P th) th g.2 ++ refs) P').
Proof.
  intros Eg H Hf Hn Hd. unfold tls_pin. eapply safely_bind; [by apply (safely_with refs)|]. intros [b] P1 (H1 & Ht & HL). rewrite <- Eg in HL. cbn [h_rc] in *.
  assert (Hin : mkRef th b KTls ∈ first_use (tls_of P th) th b ++ refs) by by apply (iv_tls _ _ H1).
  eapply safely_mono; [apply (safely_pin _ P1 _ HL H1 Hin)|].
  { rewrite length_app. unfold first_use. case_decide; cbn; lia. }
  intros [g b'] P2 (E & _ & H2 & _). cbn in E. subst b'. exact H2.
Qed.
End ops.

(** Why an operation may not return: collection work stops in a heap that is not well formed
    (that it does not in one that is, is the subject of [Safety], [Cycle] and [Transparency]),
    or the thread is past the end of its thread-locals. *)
Definition stuck (o : op) P (e : stop) : Prop :=
  (exists A (q : prog (gstate V) A) g, leads (p_g (start P)) g /\ work A q /\ run q g = Stopped e) \/ (tls_of P (op_thread o) = Destroyed /\ e = ACCESS_ERROR).

(** C18. Whatever the threads do with handles, guards and hazard pointers, one operation after the
    other, their references are counted exactly: a participant's slot is in use by its thread
    as long as one of them, or the thread-local itself, is there, it is pinned once for each
    guard, and every hazard pointer has a slot of its own; a slot nobody refers to is free,
    unpinned and without hazard pointers.  An operation returns unless the collection work
    it may do stops, or its thread has destroyed its thread-locals. *)
Theorem handles_counted o refs rest P : inv refs P -> refs ≡ₚ takes o ++ rest -> ready P o -> (slots P < fuel)%nat ->
  Z.of_nat (length refs) + 3 < wmod ->
  match run (exec_op fuel parallelism o) P with
  | Ok (new, P') => inv (new ++ rest) P'
  | Stopped e => stuck o P e
  end.
Proof.
  intros H Ep Hr Hf Hn. set (g0 := p_g (start P)).
  assert (Hw : forall A (q : prog (gstate V) A) g e, leads g0 g -> work A q -> run q g = Stopped e -> stuck o P e) by (intros A q g e ???; left; by exists A, q, g).
  assert (Hd : forall th, op_thread o = th -> tls_of P th = Destroyed -> stuck o P ACCESS_ERROR) by (intros th <- Ht; by right).
  assert (Hlen : length refs = length (takes o ++ rest)) by by apply Permutation_length. rewrite length_app in Hlen.
  apply (inv_perm _ _ _ Ep) in H. change (safely (stuck o P) (exec_op fuel parallelism o) P (fun new P' => inv (new ++ rest) P')).
  assert (HL : forall x, x ∈ takes o ++ rest -> leads g0 (p_g P)).
  { intros x Hx. destruct (inv_has _ P x H Hx) as (r & _ & [B1 _ _ _] & _). unfold g0. rewrite start_id by done. constructor. }
  destruct o as [th|th|th b|th b|th b|th b T p|th b g|th b g|x|th b]; cbn [exec_op takes app length] in *.
  - eapply safely_run; [reflexivity|]. eapply safely_bind; [apply (safely_handle _ rest P th H Hf ltac:(lia) (Hd th eq_refl))|].
    intros h P' H'. by apply safely_ret.
  - eapply safely_run; [reflexivity|]. eapply safely_bind; [apply (safely_tls_pin g0 _ Hw rest P th eq_refl H Hf ltac:(lia) (Hd th eq_refl))|].
    intros g P' H'. by apply safely_ret.
  - destruct (run_rc_clone _ P (mkRef th b KHandle) H) as (r & P' & E & H' & _); [by left|cbn; lia|]. unfold handle_clone. cbn [h_rc].
    eapply safely_bind; [eapply safely_run; [exact E|]; by apply (safely_ret _ _ _ (fun h P1 => h = mkHandle b /\ P1 = P'))|].
    intros h P1 [-> ->]. by apply safely_ret.
  - eapply safely_bind; [apply (safely_pin g0 _ Hw _ P (mkRef th b KHandle) (HL _ ltac:(by left)) H); [by left|cbn; lia]|]. intros [g b'] P' (E & _ & H' & _). cbn in E. subst b'. by apply safely_ret.
  - apply (safely_bind _ _ _ _ (fun _ => inv (mkRef th b KHandle :: rest))); [|intros [] P' H'; by apply safely_ret]. unfold handle_assist.
    eapply safely_bind; [apply (safely_pin g0 _ Hw _ P (mkRef th b KHandle) (HL _ ltac:(by left)) H); [by left|cbn; lia]|]. intros [g b'] P1 (E & _ & H1 & HL1). cbn [fst snd rf_box rf_thread] in *. subst b'.
    eapply safely_bind; [apply (safely_work g0 _ Hw _ (mkRef th b KHandle :: rest) P1 th b g (WAssist g)); [intros; apply keeps_guard_assist|exact HL1|exact H1]|]. intros [] P2 [H2 HL2].
    eapply safely_mono; [apply (safely_unpin g0 _ Hw (mkRef th b KHandle :: rest) P2 th b g HL2 H2); cbn; lia|]. by intros [] P3 [H3 _].
  - eapply safely_bind; [apply (safely_shield _ _ P (mkRef th b KHandle) T p H); [by left|cbn; lia]|]. intros [hp b'] P' (E & _ & H'). cbn in E. subst b'. by apply safely_ret.
  - eapply safely_bind; [apply (safely_work g0 _ Hw _ rest P th b g (WRepin g)); [intros; apply keeps_repin|apply (HL _ ltac:(by left))|exact H]|]. intros [] P' [H' _]. by apply safely_ret.
  - eapply safely_bind; [apply (safely_work g0 _ Hw _ rest P th b g (WAssist g)); [intros; apply keeps_guard_assist|apply (HL _ ltac:(by left))|exact H]|]. intros [] P' [H' _]. by apply safely_ret.
  - apply (safely_bind _ _ _ _ (fun _ => inv rest)); [|intros [] P' H'; by apply safely_ret]. destruct x as [th b [| |g|hp]]; cbn [rf_kind rf_thread rf_box] in *.
    + by destruct Hr.
    + destruct (run_rc_drop th b rest P H ltac:(lia)) as (P' & E & H' & _). unfold handle_drop, safely. cbn [h_rc]. by rewrite E.
    + eapply safely_mono; [apply (safely_unpin g0 _ Hw rest P th b g (HL _ ltac:(by left)) H ltac:(lia))|]. by intros [] P' [H' _].
    + eapply safely_mono; [apply (safely_hazard_release _ rest P th b hp H ltac:(lia))|]. by intros [] P' [H' _].
  - apply (safely_bind _ _ _ _ (fun _ => inv rest)); [|intros [] P' H'; by apply safely_ret]. unfold thread_exit. eapply safely_run; [reflexivity|].
    assert (Ha : tls_of P th = Alive b) by (apply (iv_tls _ _ H); by left). rewrite Ha. eapply safely_run; [reflexivity|].
    destruct (run_rc_drop th b rest _ (inv_exit rest P th b H) ltac:(lia)) as (P' & E & H' & _). unfold handle_drop, safely. cbn [h_rc]. by rewrite E.
Qed.

(** The program starts with nothing. *)
Lemma inv_none g : inv [] (mkProc false g ∅ ∅).
Proof.
  split; try done.
  - by intros x Hx%not_elem_of_nil.
  - intros th b. split; [done|by intros Hx%not_elem_of_nil].
  - apply NoDup_nil_2.
Qed.
(** Collections, and all else that leaves the participants alone, keep the invariant. *)
Lemma inv_untouched refs P g : inv refs P -> p_init P = true -> untouched (p_g P) g -> inv refs (set_p_g g P).
Proof.
  intros [H1 H2 H3 H4 H5 H6] Hi HU. pose proof (touched_others _ _ (fun _ => 0) None ltac:(done) HU) as Ho. split; try done.
  - intros b r Hb. destruct (H1 b r Hb) as [B1 B2 B3 (th & B4 & B5)]. split; [done..|]. exists th. split; [|done]. by eapply others_slot.
  - intros _ k nd Hnd Hk. apply (others_idle _ _ _ k nd Ho); [done| |done]. intros nd0 Hnd0. by apply (H6 Hi k).
Qed.
End invariant.
