(* ===== verification/Cycle.v ===== *)
(** * A collection cycle ([src/collector.rs], [collector_loop])

    [collect_cycle] from one Normal phase to the next: the change of phase, the scan for
    roots, the drain, the confirmation, and the sweep.  Between cycles the heap is at rest
    ([resting]): the objects are white, every one of them in one batch, and the participants
    unpinned.  A cycle keeps that, frees the objects no root leads to, and nothing else. *)
From S2P Require Import Prelude Prog Epoch Meta Slots Registry State Heap Marking Participant Guards.
From S2P Require Import Collector Iter Total Tasks Tracing Sweep TraceInv Roots.
#[local] Open Scope Z_scope.
#[local] Open Scope prog_scope.

Section resting.
Context {EX : Extern} {V : Type}.
Implicit Types (s : gstate V) (nd : node local).

(** ** The heap at rest *)
(** A participant between two critical sections, in the Normal phase with white colour [W]
    and timestamp [t]. *)
Record parked (W : Color) (t : Z) nd : Prop := {
  pk_count : l_guard_count (n_item nd) = 0;
  pk_epoch : l_epoch (n_item nd) = starting;
  pk_hazard : n_using nd = None -> forall p, p ∈ l_hazards (n_item nd) -> p = 0;
  pk_len : length (l_objs (n_item nd)) = 2%nat;
  pk_black : forall b, l_objs (n_item nd) !! color_index (flip W) = Some b -> b_items b.1 = [];
  pk_cap : forall b, b ∈ l_objs (n_item nd) -> (0 < b_cap b.1)%nat;
  pk_mt : l_mt_modified_ts (n_item nd) <= t;
  pk_cached : forall h e', l_cached (n_item nd) = Some (h, e') -> timestamp e' <= t
}.
(** The batch of fresh objects a participant has not published yet. *)
Definition local_batch (W : Color) nd : list ObjBatch :=
  match l_objs (n_item nd) !! color_index W with
  | Some b => if batch_is_empty b.1 then [] else [b.1]
  | None => []
  end.
Definition heap_batches (W : Color) s : list ObjBatch :=
  batches (g_fresh s) W ++ concat (local_batch W <$> nodes (g_locals s)).
Definition batched (W : Color) s : list Z := concat (map b_items (heap_batches W s)).

Record resting (W : Color) (t : Z) (l : nat) s : Prop := {
  rs_epoch : g_epoch s = ep N W t;
  rs_wf : wf s;
  rs_owned : owned s;
  rs_white : forall a o, g_objs s !! a = Some o -> ObjMeta.marked (o_hdr o) = W;
  rs_links : forall a o c p, g_objs s !! a = Some o -> c ∈ o_links o -> holds_ptr s c p -> ManPtr.p_meta p = Unrooted W;
  rs_cells : forall c p, holds_ptr s c p -> ManPtr.p_meta p = Rooted \/ exists a o, g_objs s !! a = Some o /\ c ∈ o_links o;
  rs_null : g_objs s !! 0 = None;
  rs_fresh : shards_ok (g_fresh s);
  rs_marked : shards_ok (g_marked s);
  rs_fresh_black : batches (g_fresh s) (flip W) = [];
  rs_no_marked : forall c, batches (g_marked s) c = [];
  rs_nodup : NoDup (batched W s);
  rs_objs : forall a, is_Some (g_objs s !! a) <-> a ∈ batched W s;
  rs_tasks : all_tasks s = [];
  rs_parked : forall k nd, nodes (g_locals s) !! k = Some nd -> parked W t nd;
  rs_self : self l (nodes (g_locals s));
  rs_threads : 1 <= g_threads s <= Z.of_nat OBJ_BATCHES_SHARD
}.
(** The rounds that are enough for every loop of a cycle. *)
Definition rounds (W : Color) s : nat :=
  (length (nodes (g_locals s)) + OBJ_BATCHES_SHARD + length (heap_batches W s) + work (flip W) (g_objs s))%nat.

(** ** Changing the phase *)
Context (fuel : nat).
Lemma yields_wait ts s : (length (nodes (g_locals s)) < fuel)%nat ->
  (forall k nd, nodes (g_locals s) !! k = Some nd -> l_epoch (n_item nd) = starting) ->
  yields (wait_all_mutators_unpin fuel ts) s (fun _ s' => s' = s).
Proof.
  intros Hf Hp. unfold wait_all_mutators_unpin. eapply yields_then.
  - apply (yields_iter_slots (R := unit) fuel iter_using_cond used (length (nodes (g_locals s))) (fun _ _ s' => s' = s) (fun _ _ => False));
      [apply reads_using|done|by intros ??? ->|done|]. intros k [] s1 Hk ->. destruct (used _ _); [|done].
    destruct (lookup_lt_is_Some_2 (nodes (g_locals s)) k Hk) as [nd Hnd].
    assert (Hl : local_of s k = Some (n_item nd)) by (unfold local_of; by rewrite Hnd).
    apply yields_once; [lia|]. step_with (run_get_local k l_epoch s _ Hl). rewrite (Hp k nd Hnd).
    apply yields_ret. by exists (inl tt).
  - intros [[]|[]] s1 H1; [|done]. subst. by apply yields_ret.
Qed.
Lemma yields_phase ph ph' W t s : 0 <= t -> t + 1 < 2 ^ 60 -> g_epoch s = ep ph W t -> (length (nodes (g_locals s)) < fuel)%nat ->
  (forall k nd, nodes (g_locals s) !! k = Some nd -> l_epoch (n_item nd) = starting) ->
  yields (phase_trans fuel ph') s (fun _ s' => s' = set_g_epoch (fun _ => ep ph' W (t + 1)) s).
Proof.
  intros H0 H1 Ee Hf Hp. unfold phase_trans. eapply yields_step; [reflexivity|]. rewrite Ee, ep_next by done.
  eapply yields_step; [reflexivity|]. eapply yields_mono; [by apply yields_wait|]. by intros [] s' ->.
Qed.
Lemma yields_assert_phase (P : Phase -> Prop) `{!forall ph, Decision (P ph)} {A} ph W t s msg (p : prog (gstate V) A) Q :
  0 <= t < 2 ^ 60 -> g_epoch s = ep ph W t -> P ph -> yields p s Q ->
  yields (e <- load_epoch ; ph <- phase_of e ; assert_ (bool_decide (P ph)) msg ;; p) s Q.
Proof.
  intros Ht Ee HP HQ. eapply yields_step; [reflexivity|]. rewrite Ee. unfold phase_of.
  rewrite (ra_phase _ _ _ _ _ (proj1 (ep_reads ph W t Ht))). apply yields_bind, yields_ret.
  rewrite bool_decide_true by done. by apply yields_bind, yields_ret.
Qed.

(** ** Publishing the pending batches *)
Lemma flip_other c c' : c <> c' -> c = flip c'.
Proof. by destruct c, c'. Qed.
Lemma color_index_lt c : (color_index c < 2)%nat.
Proof. destruct c; cbn; lia. Qed.
Lemma color_index_flip c j : (j < 2)%nat -> j <> color_index c -> j = color_index (flip c).
Proof. destruct c; cbn; lia. Qed.
Section flush.
Context (W : Color) (s : gstate V) (g : guard).
Let B := flip W.
Context (Hlocal : exists r, local_of s (gd_local g) = Some r /\ color (l_epoch r) = W).
Context (Hnodes : forall k nd, nodes (g_locals s) !! k = Some nd -> length (l_objs (n_item nd)) = 2%nat /\
  (forall b, l_objs (n_item nd) !! color_index B = Some b -> b_items b.1 = []) /\ forall b, b ∈ l_objs (n_item nd) -> (0 < b_cap b.1)%nat).
Context (Hshards : shards_ok (g_fresh s)).
Context (Hfuel : (length (nodes (g_locals s)) < fuel)%nat).

(** The batches of the first [k] participants are in the global queues, but for [X]. *)
Record flushed (k : nat) (X : list ObjBatch) (s' : gstate V) : Prop := {
  fl_frame : exists fq al ns, s' = set_g_locals (fun R => mkSlots ns (active R)) (set_g_fresh (fun _ => fq) (set_g_allocated (fun _ => al) s));
  fl_length : length (nodes (g_locals s')) = length (nodes (g_locals s));
  fl_node : forall j nd', nodes (g_locals s') !! j = Some nd' -> exists nd rg os, nodes (g_locals s) !! j = Some nd /\
    nd' = mkNode (n_using nd) (set_l_rng (fun _ => rg) (set_l_objs (fun _ => os) (n_item nd))) /\
    if decide (j < k)%nat then length os = 2%nat /\ forall b, b ∈ os -> spent b else os = l_objs (n_item nd);
  fl_shards : shards_ok (g_fresh s');
  fl_white : batches (g_fresh s') W ++ X ≡ₚ batches (g_fresh s) W ++ concat (local_batch W <$> take k (nodes (g_locals s)));
  fl_black : batches (g_fresh s') B = batches (g_fresh s) B
}.
Lemma flushed_start : flushed 0 [] s.
Proof.
  constructor; try done.
  - exists (g_fresh s), (g_allocated s), (nodes (g_locals s)). destruct s. unfold set_g_locals. cbn. by destruct g_locals.
  - intros j nd Hj. exists nd, (l_rng (n_item nd)), (l_objs (n_item nd)). split; [done|]. split; [|done].
    destruct nd as [u r]. by destruct r.
Qed.
Lemma flushed_white k X s' : flushed k X s' -> run (white_color g) s' = Ok (W, s').
Proof.
  intros [_ Hlen Hnd _ _ _]. destruct Hlocal as (r & (nd & Hg & ->)%fmap_Some & Hc).
  destruct (lookup_lt_is_Some_2 (nodes (g_locals s')) (gd_local g)) as [nd' Hg']; [rewrite Hlen; by eapply lookup_lt_Some|].
  destruct (Hnd _ _ Hg') as (nd1 & rg & os & Hg1 & -> & _). rewrite Hg in Hg1. injection Hg1 as <-.
  rewrite (run_white g s' _ ltac:(unfold local_of; by rewrite Hg')). cbn. by rewrite Hc.
Qed.
(** The record of one participant, where [flushed] leaves it free. *)
Lemma flushed_put k X s' j nd' (r : local) os : flushed k X s' -> nodes (g_locals s') !! j = Some nd' ->
  (exists rg, r = set_l_rng (fun _ => rg) (set_l_objs (fun _ => os) (n_item nd'))) ->
  (if decide (j < k)%nat then length os = 2%nat /\ forall b, b ∈ os -> spent b else os = l_objs (n_item nd')) ->
  flushed k X (put_local j r s').
Proof.
  intros [F1 F2 F3 F4 F5 F6] Hj (rg & ->) Hos. constructor; try done.
  - destruct F1 as (fq & al & ns & ->). exists fq, al. eexists. reflexivity.
  - unfold put_local. cbn. by rewrite length_alter.
  - intros i nd1. rewrite nodes_put. destruct (decide (i = j)) as [->|]; [|by apply F3]. rewrite Hj. intros [= <-].
    destruct (F3 j nd' Hj) as (nd & rg' & os' & Hnd & -> & Hos'). exists nd, rg, os. split; [done|].
    split; [by destruct nd as [u r]; destruct r|]. destruct (decide (j < k)%nat); [done|]. by rewrite Hos.
Qed.
Lemma flushed_take k s' : flushed k [] s' -> (k < length (nodes (g_locals s)))%nat ->
  yields (take_obj_batch k (color_index W)) s' (fun r s'' => flushed (S k) (match r with Some b => [b.1] | None => [] end) s'').
Proof.
  intros F Hk. destruct (lookup_lt_is_Some_2 (nodes (g_locals s')) k) as [nd' Hnd']; [by rewrite (fl_length _ _ _ F)|].
  destruct (fl_node _ _ _ F k nd' Hnd') as (nd & rg & os & Hnd & End & Hos). rewrite decide_False in Hos by lia.
  destruct (Hnodes k nd Hnd) as (Hlen & Hblack & Hcap). rewrite <- Hos in Hlen, Hblack, Hcap.
  assert (Eos : l_objs (n_item nd') = os) by (subst nd'; done).
  assert (Hl : local_of s' k = Some (n_item nd')) by (unfold local_of; by rewrite Hnd').
  destruct (lookup_lt_is_Some_2 os (color_index W)) as [b Hb]; [rewrite Hlen; apply color_index_lt|].
  assert (Etake : concat (local_batch W <$> take (S k) (nodes (g_locals s))) =
    concat (local_batch W <$> take k (nodes (g_locals s))) ++ (if batch_is_empty b.1 then [] else [b.1])).
  { rewrite (take_S_r _ _ nd Hnd), fmap_app, concat_app. cbn. rewrite app_nil_r. unfold local_batch at 2. by rewrite <- Hos, Hb. }
  assert (Hempty : forall x, spent x -> length (<[color_index W := x]> os) = 2%nat /\ forall b', b' ∈ <[color_index W := x]> os -> spent b').
  { intros x Hx. split; [by rewrite length_insert|]. intros b' (j & Hj)%list_elem_of_lookup.
    destruct (decide (j = color_index W)) as [->|Hne].
    - rewrite list_lookup_insert_eq in Hj by (by eapply lookup_lt_Some). by injection Hj as <-.
    - rewrite list_lookup_insert_ne in Hj by done. split; [|by eapply Hcap, list_elem_of_lookup_2]. apply Hblack. fold B.
      rewrite (color_index_flip W j) in Hj; [done| |done]. apply lookup_lt_Some in Hj. by rewrite Hlen in Hj. }
  assert (Hstep : forall r' os' X, (exists rg, r' = set_l_rng (fun _ => rg) (set_l_objs (fun _ => os') (n_item nd'))) ->
    length os' = 2%nat -> (forall b', b' ∈ os' -> spent b') -> X = (if batch_is_empty b.1 then [] else [b.1]) ->
    flushed (S k) X (put_local k r' s')).
  { intros r' os' X (rg' & ->) Hl' He ->. destruct F as [F1 F2 F3 F4 F5 F6]. constructor; try done.
    - destruct F1 as (fq & al & ns & ->). exists fq, al. eexists. reflexivity.
    - unfold put_local. cbn. by rewrite length_alter.
    - intros i nd1. rewrite nodes_put. destruct (decide (i = k)) as [->|Hne].
      + rewrite Hnd'. intros [= <-]. exists nd, rg', os'. split; [done|]. rewrite decide_True by lia. split; [|done].
        rewrite End. by destruct nd as [u r]; destruct r.
      + intros Hi. destruct (F3 i nd1 Hi) as (nd2 & rg2 & os2 & ? & ? & Hos2'). exists nd2, rg2, os2. split; [done|]. split; [done|].
        destruct (decide (i < k)%nat), (decide (i < S k)%nat); (done || lia).
    - rewrite Etake, app_assoc. apply Permutation_app_tail. change (g_fresh (put_local k _ s')) with (g_fresh s').
      rewrite app_nil_r in F5. exact F5. }
  unfold take_obj_batch. step_with (run_get_local k (fun r => l_objs r !! color_index W) s' _ Hl). rewrite Eos, Hb. cbn [unwrap].
  apply yields_bind, yields_ret. destruct (batch_is_empty b.1) eqn:Eb.
  - apply yields_ret. rewrite <- (put_local_id k (n_item nd') s' Hl).
    assert (Eid : <[color_index W := b]> os = os) by by apply list_insert_id.
    destruct (Hempty b) as [He1 He2]; [split; [unfold batch_is_empty in Eb; by destruct (b_items b.1)|by eapply Hcap, list_elem_of_lookup_2]|]. rewrite Eid in He1, He2.
    apply (Hstep _ os); [|done|done|done]. exists (l_rng (n_item nd')). rewrite <- Eos. by destruct nd' as [u r]; destruct r.
  - step_with (run_upd_local k (set_l_objs <[color_index W := (batch_default, 0)]>) s' _ Hl). apply yields_ret.
    destruct (Hempty _ spent_default) as [He1 He2]. eapply Hstep; [|exact He1|exact He2|done].
    exists (l_rng (n_item nd')). rewrite <- Eos. by destruct nd' as [u r]; destruct r.
Qed.
Lemma flushed_push k s' b n : flushed k [b] s' ->
  yields (shard <- select_obj_shard (gd_local g) ; push_fresh_objs b n W shard) s' (fun _ s'' => flushed k [] s'').
Proof.
  intros F. destruct Hlocal as (r & (nd & Hg & ->)%fmap_Some & _).
  destruct (lookup_lt_is_Some_2 (nodes (g_locals s')) (gd_local g)) as [nd' Hnd']; [rewrite (fl_length _ _ _ F); by eapply lookup_lt_Some|].
  assert (Hl : local_of s' (gd_local g) = Some (n_item nd')) by (unfold local_of; by rewrite Hnd').
  apply yields_bind. unfold select_obj_shard. step_with (run_get_local (gd_local g) (fun r => rng_usize (l_rng r) OBJ_BATCHES_SHARD) s' _ Hl).
  set (x := rng_usize _ _). step_with (run_upd_local (gd_local g) (set_l_rng (fun _ => x.2)) s' _ Hl). apply yields_ret.
  assert (Hx : (x.1 < OBJ_BATCHES_SHARD)%nat) by (apply rng_usize_lt; unfold OBJ_BATCHES_SHARD; lia).
  assert (F1 : flushed k [b] (put_local (gd_local g) (set_l_rng (fun _ => x.2) (n_item nd')) s')).
  { apply (flushed_put k [b] s' (gd_local g) nd' _ (l_objs (n_item nd'))); [done|done|exists x.2; by destruct nd' as [u r]; destruct r|].
    destruct (fl_node _ _ _ F _ nd' Hnd') as (nd0 & rg & os & Hnd0 & -> & Hos). by destruct (decide _). }
  set (s1 := put_local _ _ s') in *. clearbody s1 x. clear F Hnd' Hl nd' s'. eapply yields_step; [reflexivity|]. eapply yields_run; [reflexivity|].
  destruct F1 as [F1 F2 F3 F4 F5 F6]. pose proof (batches_push (g_fresh s1) W x.1 b F4 Hx) as Hp. constructor; try done.
  - destruct F1 as (fq & al & ns & ->). exists (upd_queue (fun q => q ++ [b]) W x.1 fq), (wadd al n), ns. reflexivity.
  - by apply shards_ok_upd.
  - rewrite app_nil_r, <- F5. exact Hp.
  - cbn. rewrite batches_other; [done|]. unfold B. apply not_eq_sym, flip_ne.
Qed.
Lemma yields_flush : yields (iter_slots (R := unit) fuel iter_all_cond (fun k _ =>
    white <- white_color g ;
    pending <- take_obj_batch k (color_index white) ;
    match pending with
    | None => Ret (inl tt)
    | Some (batch, size_bytes) =>
        white' <- white_color g ;
        shard <- select_obj_shard (gd_local g) ;
        push_fresh_objs batch size_bytes white' shard ;; Ret (inl tt)
    end) tt) s (fun _ s' => flushed (length (nodes (g_locals s))) [] s').
Proof.
  eapply yields_mono.
  - apply (yields_iter_slots fuel iter_all_cond (fun _ _ => true) (length (nodes (g_locals s))) (fun k _ s' => flushed k [] s') (fun _ _ => False));
      [apply reads_all|done|by intros k [] s' F; apply F|apply flushed_start|].
    intros k [] s1 Hk F. cbv iota. step_with (flushed_white _ _ _ F). rewrite Nat.add_1_r.
    eapply yields_then; [exact (flushed_take k s1 F Hk)|]. intros [[b n]|] s2 F2; [|by apply yields_ret].
    step_with (flushed_white _ _ _ F2). eapply yields_mono; [|intros r s3 H3; exact H3].
    pose proof (flushed_push (S k) s2 b n F2) as (u & s3 & E & F3). exists (inl tt), s3. split; [|done].
    rewrite run_bind in E. rewrite run_bind. destruct (run (select_obj_shard _) s2) as [[i s4]|]; [|done]. by rewrite run_bind, E.
  - by intros [[]|[]] s1 F.
Qed.
End flush.

(** ** Root tracing, from a heap at rest *)
Section cycle.
Context (W : Color) (t : Z) (l : nat) (s : gstate V).
Let B := flip W.
Let BS := heap_batches W s.
Let n0 := length (nodes (g_locals s)).
Let w := work B (g_objs s).
Context (HR : resting W t l s) (Ht0 : 0 <= t) (Ht3 : t + 3 < 2 ^ 60) (Hf : (rounds W s < fuel)%nat).

Lemma Ht1 : 0 <= t + 1 < 2 ^ 60.
Proof. clear - Ht0 Ht3. lia. Qed.
Lemma fuel_nodes : (n0 + OBJ_BATCHES_SHARD < fuel)%nat.
Proof. unfold rounds in Hf. unfold n0. lia. Qed.
Lemma fuel_batches : (length BS < fuel)%nat.
Proof. unfold rounds in Hf. unfold BS. lia. Qed.
Lemma fuel_work : (w < fuel)%nat.
Proof. unfold rounds in Hf. unfold w, B, OBJ_BATCHES_SHARD in *. lia. Qed.
Lemma batched_live b a : b ∈ BS -> a ∈ b_items b -> is_Some (g_objs s !! a).
Proof.
  intros Hb Ha. apply (rs_objs _ _ _ _ HR). unfold batched. apply list_elem_of_In, in_concat. exists (b_items b).
  split; [by apply in_map, list_elem_of_In|by apply list_elem_of_In].
Qed.
Lemma rest_tri : tri B s [].
Proof.
  constructor; [| |by intros a ?%not_elem_of_nil].
  - intros a o c p Ho Hm. rewrite (rs_white _ _ _ _ HR a o Ho) in Hm. unfold B in Hm. by destruct (flip_ne W).
  - intros c p Hc Hm Hn. destruct (rs_cells _ _ _ _ HR c p Hc) as [E|(a & o & Ho & Hin)]; [congruence|].
    pose proof (rs_links _ _ _ _ HR a o c p Ho Hin Hc) as E. rewrite Hm in E. injection E as E. unfold B in E. by destruct (flip_ne W).
Qed.
(** A parked participant is one of the new phase, once its batch is published. *)
Lemma parked_part nd : parked W t nd -> (n_using nd <> None -> forall p, p ∈ l_hazards (n_item nd) -> p <> 0 -> hazard s p) ->
  (forall b, b ∈ l_objs (n_item nd) -> spent b) -> part W (t + 1) s false nd.
Proof.
  intros [P1 P2 P3 P4 P5 P6 P7 P8] Hz Hb. constructor; try done.
  - intros p Hp Hn. assert (Hu : n_using nd <> None). { intros Hu. by apply Hn, P3. } auto.
  - lia.
  - intros h e' Hc. pose proof (P8 h e' Hc) as Hle. split; [lia|]. intros Ed. exfalso.
    assert (E : timestamp e' = t + 1); [|lia].
    unfold timestamp. rewrite Ed. apply (ra_ts _ _ _ _ _ (proj2 (ep_reads RT W (t + 1) Ht1))).
Qed.
Lemma parked_objs nd rg os : parked W t nd -> length os = 2%nat -> (forall b, b ∈ os -> spent b) ->
  parked W t (mkNode (n_using nd) (set_l_rng (fun _ => rg) (set_l_objs (fun _ => os) (n_item nd)))).
Proof.
  intros [] Hl He. constructor; try done; cbn; intros b Hb; [by eapply He, list_elem_of_lookup_2|by apply He].
Qed.
Lemma part_pin u r : part W (t + 1) s false (mkNode u r) -> (forall p, p ∈ l_hazards r -> p = 0) ->
  part W (t + 1) s true (mkNode u (pin_rec (ep RT W (t + 1)) r)).
Proof. intros [] Hz. by constructor. Qed.
Lemma hazard_of k nd p : nodes (g_locals s) !! k = Some nd -> n_using nd <> None -> p ∈ l_hazards (n_item nd) -> hazard s p.
Proof. intros Hk Hu Hp. exists k, nd. split; [done|]. split; [|done]. unfold is_using. by destruct (n_using nd). Qed.

Section published.
Context (ndl : node local) (i : nat) (s3 : gstate V).
Let e := ep RT W (t + 1).
Let s2 := put_local l (pin_rec e (n_item ndl)) (set_g_help <[i := false]> (set_g_epoch (fun _ => e) s)).
Context (Hndl : nodes (g_locals s) !! l = Some ndl) (Hz : forall p, p ∈ l_hazards (n_item ndl) -> p = 0).
Context (F : flushed W s2 (length (nodes (g_locals s2))) [] s3).

Lemma pinned_nodes j : nodes (g_locals s2) !! j = if decide (j = l) then Some (mkNode (n_using ndl) (pin_rec e (n_item ndl))) else nodes (g_locals s) !! j.
Proof. unfold s2. rewrite nodes_put. destruct (decide (j = l)) as [->|]; [|done]. cbn. by rewrite Hndl. Qed.
Lemma pinned_length : length (nodes (g_locals s2)) = n0.
Proof. unfold s2, put_local. cbn. by rewrite length_alter. Qed.
(** What a participant was, and is. *)
Lemma published_node j nd' : nodes (g_locals s3) !! j = Some nd' -> exists nd r, nodes (g_locals s) !! j = Some nd /\
  l_hazards r = l_hazards (n_item nd) /\ l_tasks r = l_tasks (n_item nd) /\ part W (t + 1) s false (mkNode (n_using nd) r) /\
  nd' = mkNode (n_using nd) (if decide (j = l) then pin_rec e r else r).
Proof.
  intros Hj. destruct (fl_node _ _ _ _ _ F j nd' Hj) as (nd2 & rg & os & Hnd2 & -> & Hos).
  rewrite decide_True in Hos by (by eapply lookup_lt_Some). destruct Hos as [Hlen He].
  assert (Hold : exists nd, nodes (g_locals s) !! j = Some nd /\ nd2 = mkNode (n_using nd) (if decide (j = l) then pin_rec e (n_item nd) else n_item nd)).
  { rewrite pinned_nodes in Hnd2. destruct (decide (j = l)) as [->|]; [exists ndl; split; [done|congruence]|].
    exists nd2. split; [done|]. by destruct nd2. }
  destruct Hold as (nd & Hnd & ->). exists nd, (set_l_rng (fun _ => rg) (set_l_objs (fun _ => os) (n_item nd))).
  split; [done|]. split; [done|]. split; [done|]. split; [|by destruct (decide (j = l))].
  apply parked_part; [apply parked_objs; [by apply (rs_parked _ _ _ _ HR j)|done..]| |done].
  intros Hu p Hp _. by apply (hazard_of j nd p).
Qed.
Lemma published_old j nd : nodes (g_locals s) !! j = Some nd -> exists nd', nodes (g_locals s3) !! j = Some nd'.
Proof. intros Hj%lookup_lt_Some. apply lookup_lt_is_Some. by rewrite (fl_length _ _ _ _ _ F), pinned_length. Qed.
Lemma published_tasks : all_tasks s3 = [].
Proof.
  apply tasks_nil. intros k r (nd' & Hk & ->)%fmap_Some. destruct (published_node k nd' Hk) as (nd & r & Hnd & _ & Et & _ & ->).
  cbn. assert (E : l_tasks (n_item nd) = []).
  { apply (proj1 (tasks_nil s) (rs_tasks _ _ _ _ HR) k). unfold local_of. by rewrite Hnd. }
  destruct (decide (k = l)); cbn; congruence.
Qed.
Lemma published_tracing : tracing W (t + 1) s l n0 w {[l]} [] s3.
Proof.
  destruct (fl_frame _ _ _ _ _ F) as (fq & al & ns & Es). pose proof published_tasks as Ek.
  assert (Eo : g_objs s3 = g_objs s /\ g_cells s3 = g_cells s) by by rewrite Es. destruct Eo as [Eo Ec].
  constructor; rewrite ?Ek, ?app_nil_r.
  - apply (wf_objs s); [done|done|apply HR].
  - by apply (shape_objs s).
  - apply (tri_objs B s s3 []); [done|done|done|apply rest_tri].
  - intros a [(o & Ho & Hm)|?%not_elem_of_nil]; [|done]. rewrite Eo in Ho. rewrite (rs_white _ _ _ _ HR a o Ho) in Hm. by destruct (flip_ne W).
  - unfold todo. rewrite Ek, Eo. cbn. unfold w, B. lia.
  - by rewrite Es.
  - intros k nd' Hk. destruct (published_node k nd' Hk) as (nd & r & Hnd & Ez & _ & Hp & ->).
    destruct (decide (k = l)) as [->|Hne].
    + rewrite bool_decide_true by by apply elem_of_singleton. apply part_pin; [done|]. rewrite Hndl in Hnd. injection Hnd as <-. by rewrite Ez.
    + by rewrite bool_decide_false by by rewrite elem_of_singleton.
  - intros a _ (k & nd & Hk & Hu & Ha). destruct (published_old k nd Hk) as [nd' Hk']. exists k, nd'. split; [done|].
    destruct (published_node k nd' Hk') as (nd1 & r & Hnd & Ez & _ & _ & ->). rewrite Hk in Hnd. injection Hnd as <-.
    split; [done|]. cbn. destruct (decide (k = l)); cbn; by rewrite Ez.
  - destruct (rs_self _ _ _ _ HR) as (nd & Hk & Hu & Hz'). destruct (published_old l nd Hk) as [nd' Hk']. exists nd'. split; [done|].
    destruct (published_node l nd' Hk') as (nd1 & r & Hnd & Ez & _ & _ & ->). rewrite Hk in Hnd. injection Hnd as <-.
    split; [done|]. cbn. rewrite decide_True by done. cbn. by rewrite Ez.
  - by rewrite (fl_length _ _ _ _ _ F), pinned_length.
  - by rewrite Es.
Qed.
Lemma published_scanning : scanning W s BS [] s3.
Proof.
  destruct (fl_frame _ _ _ _ _ F) as (fq & al & ns & Es). assert (Em : g_marked s3 = g_marked s) by by rewrite Es.
  constructor; rewrite ?Em.
  - apply F.
  - apply HR.
  - rewrite (rs_no_marked _ _ _ _ HR). cbn. pose proof (fl_white _ _ _ _ _ F) as Hw. rewrite app_nil_r in *. rewrite Hw.
    change (g_fresh s2) with (g_fresh s). unfold BS, heap_batches. apply Permutation_app_head. rewrite firstn_all.
    assert (El : local_batch W <$> nodes (g_locals s2) = local_batch W <$> nodes (g_locals s)); [|by rewrite El].
    apply list_eq. intros j. rewrite !list_lookup_fmap, pinned_nodes. destruct (decide (j = l)) as [->|]; [|done]. by rewrite Hndl.
  - rewrite (fl_black _ _ _ _ _ F). apply (rs_fresh_black _ _ _ _ HR).
  - apply (rs_no_marked _ _ _ _ HR).
  - intros b a. rewrite (rs_no_marked _ _ _ _ HR). by intros ?%not_elem_of_nil.
Qed.
End published.

#[local] Abbreviation marking := (marking W (t + 1) s BS).
#[local] Abbreviation settled := (settled W).
#[local] Abbreviation quiet := (quiet W).
Let m0 := (n0 + OBJ_BATCHES_SHARD)%nat.
Lemma yields_scan wt s1 : s1 = set_g_epoch (fun _ => ep RT W (t + 1)) s ->
  yields (scan_allocated_objs fuel l wt) s1 (fun _ s' => marking l m0 w ∅ [] s' /\ cleared W (seq 0 OBJ_BATCHES_SHARD) s').
Proof.
  intros ->. set (s1 := set_g_epoch _ s). pose proof Ht1 as Ht. pose proof fuel_nodes as Hfn. pose proof fuel_batches as Hfb.
  destruct (rs_self _ _ _ _ HR) as (ndl & Hndl & Hu & Hz). pose proof (rs_parked _ _ _ _ HR l ndl Hndl) as Hpk.
  assert (Hl : local_of s1 l = Some (n_item ndl)) by (unfold local_of, s1; cbn; by rewrite Hndl).
  destruct (proj1 (ep_reads RT W (t + 1) Ht)) as [Eph Eco _ _].
  assert (Hpin : exists i, run (pin fuel l) s1 = Ok (mkGuard i l, put_local l (pin_rec (ep RT W (t + 1)) (n_item ndl)) (set_g_help <[i := false]> s1))).
  { replace fuel with (S (fuel - 1)) by (unfold OBJ_BATCHES_SHARD in Hfn; lia). by apply (run_pin (fuel - 1) l s1 (n_item ndl) RT Hl (pk_count _ _ _ Hpk) (fun _ => Hz)). }
  destruct Hpin as (i & Epin). unfold scan_allocated_objs. step_with Epin. set (s2 := put_local l _ _). set (g := mkGuard i l).
  eapply yields_then.
  { apply (yields_flush W s2 g).
    - exists (pin_rec (ep RT W (t + 1)) (n_item ndl)). split; [apply local_of_put; by exists (n_item ndl)|].
      apply (ra_color _ _ _ _ _ (proj2 (ep_reads RT W (t + 1) Ht))).
    - intros k nd Hk. unfold s2 in Hk. rewrite nodes_put in Hk. destruct (decide (k = l)) as [->|].
      + cbn in Hk. rewrite Hndl in Hk. injection Hk as <-. split; [apply Hpk|]. split; [apply (pk_black _ _ _ Hpk)|apply (pk_cap _ _ _ Hpk)].
      + pose proof (rs_parked _ _ _ _ HR k nd Hk) as Hp. split; [apply Hp|]. split; [apply (pk_black _ _ _ Hp)|apply (pk_cap _ _ _ Hp)].
    - apply HR.
    - unfold s2, put_local. cbn. rewrite length_alter. unfold n0, OBJ_BATCHES_SHARD in *. lia. }
  intros r s3 F. assert (H3 : marking l n0 w {[l]} [] s3).
  { split; [by apply (published_tracing ndl i s3 Hndl Hz)|by apply (published_scanning ndl i s3)]. }
  assert (Hg3 : guarded {[l]} g s3).
  { split; [by apply elem_of_singleton|]. cbn. rewrite (fl_length _ _ _ _ _ F). unfold s2, put_local. cbn. rewrite length_alter. by eapply lookup_lt_Some. }
  eapply yields_then; [apply (yields_collect_hps fuel s3); pose proof (tr_length _ _ _ _ _ _ _ _ _ (mk_tracing _ _ _ _ _ _ _ _ _ _ H3)); unfold OBJ_BATCHES_SHARD in *; lia|].
  intros h s4 [-> Hh]. assert (Hh0 : hazard_set s h).
  { intros a Ha. rewrite (Hh a Ha). by eapply tracing_hazard; [apply H3|]. }
  destruct (tracing_epoch W (t + 1) s Ht _ _ _ _ _ _ _ (mk_tracing _ _ _ _ _ _ _ _ _ _ H3) Hg3) as (_ & _ & Ew). step_with Ew.
  pose proof (tr_threads _ _ _ _ _ _ _ _ _ (mk_tracing _ _ _ _ _ _ _ _ _ _ H3)) as Eth.
  eapply yields_step; [reflexivity|]. eapply yields_then.
  { apply (yields_scan_workers fuel W (t + 1) s BS Ht batched_live (rs_null _ _ _ _ HR) l n0 w s3 h wt); try done. rewrite Eth. apply HR. }
  intros [] s5 (H5 & Ho5 & Hc5). eapply yields_mono.
  - apply (yields_drop fuel W (t + 1) s BS Ht batched_live (rs_null _ _ _ _ HR) l m0 w {[l]} s5 g); [done|unfold OBJ_BATCHES_SHARD in *; lia|done|].
    split; [by apply elem_of_singleton|]. cbn. destruct (tr_self _ _ _ _ _ _ _ _ _ (mk_tracing _ _ _ _ _ _ _ _ _ _ H5)) as (nd & Hnd & _). by eapply lookup_lt_Some.
  - intros [] s6 (H6 & Hg6 & _). cbn [gd_local g] in H6. rewrite difference_diag_L in H6. split; [done|].
    eapply cleared_onward; [by apply grows_onward|done].
Qed.

(** ** Draining *)
Lemma same_tasks_quiet s1 s2 : same_but_tasks s1 s2 -> quiet s1 s2.
Proof.
  intros Hs. destruct (same_tasks_objs _ _ Hs) as [Eo _]. constructor.
  - intros a. by rewrite (black_objs (flip W) s1 s2 a Eo).
  - exact (eq_sym (f_equal g_fresh Hs)).
  - exact (eq_sym (f_equal g_marked Hs)).
  - by apply same_tasks_length.
Qed.
Lemma yields_drain s1 : no_retry -> marking l m0 w ∅ [] s1 -> cleared W (seq 0 OBJ_BATCHES_SHARD) s1 ->
  yields (drain_mark_tasks fuel l) s1 (fun _ s' => marking l m0 w ∅ [] s' /\ settled s').
Proof.
  intros Hnr H1 Hc1. pose proof Ht1 as Ht. pose proof fuel_nodes as Hfn. pose proof fuel_work as Hfw.
  destruct (tr_self _ _ _ _ _ _ _ _ _ (mk_tracing _ _ _ _ _ _ _ _ _ _ H1)) as (nd & Hnd & _ & Hz). unfold drain_mark_tasks.
  eapply yields_then; [apply (yields_pin fuel W (t + 1) s BS Ht batched_live (rs_null _ _ _ _ HR) l m0 w ∅ [] s1 l nd); [unfold OBJ_BATCHES_SHARD in *; lia|done|apply not_elem_of_empty|done|done]|].
  intros g s2 (Eg & H2 & Hq2 & Hg2). rewrite (right_id_L ∅ (∪)) in H2, Hg2.
  assert (Hloop : yields (drain_loop fuel (gd_local g) g) s2 (fun _ s' => marking l m0 w {[l]} [] s' /\ grows W s2 s' /\ all_tasks s' = [])).
  { unfold drain_loop.
    apply (yields_loop (fun _ s' => marking l m0 w {[l]} [] s' /\ grows W s2 s') (fun _ s' => todo W s') _ (fun _ s' => marking l m0 w {[l]} [] s' /\ grows W s2 s' /\ all_tasks s' = [])).
    - split; [done|reflexivity].
    - pose proof (tr_work _ _ _ _ _ _ _ _ _ (mk_tracing _ _ _ _ _ _ _ _ _ _ H2)). lia.
    - intros ex s3 [H3 Hg3]. pose proof (guarded_grows W _ _ _ _ Hg3 Hg2) as Hgd3. pose proof (mk_tracing _ _ _ _ _ _ _ _ _ _ H3) as Htr.
      destruct (tracing_local W (t + 1) s Ht _ _ _ _ _ _ _ Htr Hgd3) as (ndg & _ & _ & Hl & _).
      destruct (run_find_task fuel (gd_local g) _ s3 Hnr Hl) as [[E E0]|(a & s4 & E & Hp & Hs)];
        [pose proof (tr_length _ _ _ _ _ _ _ _ _ Htr); unfold m0 in *; lia| |]; step_with E; [by apply yields_ret|].
      destruct (tracing_take W (t + 1) s _ _ _ _ _ _ _ _ Htr Hs Hp) as [H4 Ew]. pose proof (same_tasks_quiet _ _ Hs) as Hq4.
      pose proof (guarded_quiet W _ _ _ _ Hq4 Hgd3) as Hgd4.
      replace fuel with (S (fuel - 1)) by (unfold OBJ_BATCHES_SHARD in Hfn; lia).
      eapply yields_then; [exact (tracing_call W (t + 1) s Ht (fuel - 1) l m0 w {[l]} [] s4 g a H4 Hgd4)|].
      intros [] s5 (H5 & Hq5 & _ & Hle). apply yields_ret. split; [split|lia].
      + split; [done|]. eapply scanning_quiet; [exact Hq5|]. by eapply scanning_quiet, H3.
      + etransitivity; [exact Hg3|]. apply quiet_grows. by etransitivity. }
  rewrite Eg in Hloop. eapply yields_then; [exact Hloop|]. intros ex s3 (H3 & Hg3 & E3). assert (Hset : settled s3).
  { split; [done|]. intros i Hi. apply (gr_fresh _ _ _ Hg3). rewrite (qt_fresh _ _ _ Hq2). apply Hc1, elem_of_seq. lia. }
  eapply yields_then.
  - apply (drop_keeping fuel W (t + 1) s BS Ht batched_live (rs_null _ _ _ _ HR) settled l m0 w {[l]} s3 g); [done|by apply settled_noop|..|done|by eapply guarded_grows|done].
    + by apply helps_root_settled; [|unfold OBJ_BATCHES_SHARD in *; lia].
    + by apply helps_draining_settled.
  - intros [] s4 (H4 & _ & Hs4 & _). apply yields_ret. rewrite Eg, difference_diag_L in H4. done.
Qed.
Lemma yields_root_tracing wt : no_retry ->
  yields (root_tracing fuel l wt) s (fun _ s' => marking l m0 w ∅ [] s' /\ settled s').
Proof.
  intros Hnr. pose proof fuel_nodes. unfold root_tracing. apply (yields_assert_phase (fun ph => ph = N) N W t); [lia|apply HR|done|].
  eapply yields_then; [apply (yields_phase N RT W t); [done|lia|apply HR|unfold n0, OBJ_BATCHES_SHARD in *; lia|]|].
  - intros k nd Hk. apply (pk_epoch _ _ _ (rs_parked _ _ _ _ HR k nd Hk)).
  - intros [] s1 E1. eapply yields_then; [by apply yields_scan|]. intros [] s2 [H2 Hc2].
    eapply yields_then; [by apply yields_drain|]. intros b s3 H3. by apply yields_ret.
Qed.

(** ** The end of marking *)
Section marked.
Context (s1 : gstate V) (H1 : marking l m0 w ∅ [] s1) (Hset : settled s1).
Let Htr := mk_tracing _ _ _ _ _ _ _ _ _ _ H1.
Let Hsc := mk_scanning _ _ _ _ _ _ _ _ _ _ H1.

Lemma marked_tri : tri B s1 [].
Proof. pose proof (tr_tri _ _ _ _ _ _ _ _ _ Htr) as H. by rewrite (proj1 Hset) in H. Qed.
Lemma marked_fresh : batches (g_fresh s1) W = [].
Proof. apply batches_nil; [apply Hsc|]. intros i Hi. by apply (proj2 Hset). Qed.
Lemma marked_batches : batches (g_marked s1) W ≡ₚ BS.
Proof. pose proof (sc_all _ _ _ _ _ Hsc) as H. by rewrite marked_fresh, app_nil_r in H. Qed.
Lemma marked_items : all_items (g_marked s1) W ≡ₚ batched W s.
Proof. rewrite all_items_batches. unfold batched. by rewrite marked_batches. Qed.
Lemma marked_in a : a ∈ all_items (g_marked s1) W <-> is_Some (g_objs s1 !! a).
Proof. rewrite marked_items, <- (rs_objs _ _ _ _ HR). by apply (tracing_live W (t + 1) s l m0 w ∅ []). Qed.
(** Exactly what is reachable from a root is marked. *)
Lemma marked_kept a : black B s1 a <-> kept s a.
Proof.
  split; [intros Ha; apply (tr_sound _ _ _ _ _ _ _ _ _ Htr); by left|]. intros (q & Hq & Hr).
  assert (Hb : black B s1 q).
  { destruct Hq as (o & Ho & Hrc). assert (Hin : q ∈ batched W s) by (apply (rs_objs _ _ _ _ HR); by exists o).
    unfold batched in Hin. apply list_elem_of_In, in_concat in Hin as (ls & Hls & Hin). apply in_map_iff in Hls as (b & <- & Hb).
    apply (sc_roots _ _ _ _ _ Hsc b); [|by apply list_elem_of_In|by exists o]. rewrite marked_batches. by apply list_elem_of_In. }
  apply (same_shape_reach _ _ _ _ (tr_shape _ _ _ _ _ _ _ _ _ Htr)) in Hr.
  destruct (black_reach _ _ _ _ _ marked_tri Hb Hr) as [|(x & Hx & _)]; [done|by apply not_elem_of_nil in Hx].
Qed.
Lemma marked_parts k nd : nodes (g_locals s1) !! k = Some nd -> part W (t + 1) s false nd.
Proof. intros Hk. pose proof (tr_parts _ _ _ _ _ _ _ _ _ Htr k nd Hk) as Hp. by rewrite bool_decide_false in Hp by apply not_elem_of_empty. Qed.
Lemma marked_length : (length (nodes (g_locals s1)) < fuel)%nat.
Proof. pose proof (tr_length _ _ _ _ _ _ _ _ _ Htr). pose proof fuel_nodes. unfold m0 in *. lia. Qed.

(** *** Completion *)
Lemma yields_any_local p s2 : g_locals s2 = g_locals s1 -> (forall k nd, nodes (g_locals s1) !! k = Some nd -> p (n_item nd) = false) ->
  yields (any_local fuel p) s2 (fun b s' => b = false /\ s' = s2).
Proof.
  intros El Hp. pose proof marked_length as Hlen. unfold any_local, any_slot. eapply yields_then.
  - apply (yields_iter_slots fuel iter_all_cond (fun _ _ => true) (length (nodes (g_locals s1))) (fun _ (_ : unit) s' => s' = s2) (fun (_ : unit) _ => False));
      [apply reads_all|done|intros ??? ->; by rewrite El|done|]. intros k [] s3 Hk ->. cbv iota.
    destruct (lookup_lt_is_Some_2 (nodes (g_locals s1)) k Hk) as [nd Hnd].
    assert (Hl : local_of s2 k = Some (n_item nd)) by (unfold local_of; by rewrite El, Hnd).
    step_with (run_get_local k p s2 _ Hl). rewrite (Hp k nd Hnd). by apply yields_ret.
  - intros [[]|[]] s3 Hs; [|done]. subst. by apply yields_ret.
Qed.
Lemma yields_completion : yields (completion_tracing fuel l) s1 (fun b s' => b = true /\ s' = set_g_epoch (fun _ => ep CT W (t + 2)) s1).
Proof.
  pose proof Ht1 as Ht. unfold completion_tracing.
  apply (yields_assert_phase (fun ph => ph <> N) RT W (t + 1)); [done|apply Htr|done|].
  eapply yields_then; [apply (yields_phase RT CT W (t + 1)); [lia|lia|apply Htr|apply marked_length|]|].
  { intros k nd Hk. apply (pt_epoch _ _ _ _ _ (marked_parts k nd Hk)). }
  intros [] s2 E2. replace (t + 1 + 1) with (t + 2) in E2 by lia. assert (El : g_locals s2 = g_locals s1) by by rewrite E2.
  assert (Hconf : yields (try_confirm_completion fuel) s2 (fun b s' => b = true /\ s' = s2));
    [|eapply yields_then; [exact Hconf|]; intros b s3 [-> ->]; apply yields_ret; split; [done|exact E2]].
  unfold try_confirm_completion. eapply yields_step; [reflexivity|].
  assert (Ets : timestamp (g_epoch s2) = t + 2).
  { rewrite E2. apply (ra_ts _ _ _ _ _ (proj1 (ep_reads CT W (t + 2) ltac:(lia)))). }
  rewrite Ets.
  assert (Hmt : yields (any_local fuel (fun r => l_mt_modified_ts r =? t + 2)) s2 (fun b s' => b = false /\ s' = s2)).
  { apply (yields_any_local _ s2 El). intros k nd Hk. pose proof (pt_mt _ _ _ _ _ (marked_parts k nd Hk)). apply Z.eqb_neq. lia. }
  eapply yields_then; [exact Hmt|]. intros b s3 [-> ->]. eapply yields_then.
  { apply (yields_any_local (fun r => bool_decide (l_tasks r <> [])) s2 El). intros k nd Hk. apply bool_decide_eq_false. intros Hn. apply Hn.
    apply (proj1 (tasks_nil s1) (proj1 Hset) k). unfold local_of. by rewrite Hk. }
  intros b s3 [-> ->]. eapply yields_then; [exact Hmt|]. intros b s3 [-> ->]. by apply yields_ret.
Qed.

(** ** The sweep *)
Definition normal : gstate V := set_g_epoch (fun _ => ep N B (t + 3)) s1.
Lemma marked_owned : owned s1.
Proof.
  pose proof (tr_shape _ _ _ _ _ _ _ _ _ Htr) as Hs. destruct (rs_owned _ _ _ _ HR) as [O1 O2 O3]. constructor.
  - intros a o c Ho Hc. pose proof (wf_link _ (tr_wf _ _ _ _ _ _ _ _ _ Htr) a o c Ho Hc) as (p & col & Hp & [Hok _] & Hm).
    exists (ManPtr.encode p). split; [done|]. rewrite ManPtr.encode_meta by done. by rewrite Hm.
  - intros a o Ho. destruct (same_shape_obj_rev _ _ _ _ Hs Ho) as (o' & Ho' & E). rewrite (obj_same_links _ _ E). by eapply O2.
  - intros a b o o' c Ho Ho' Hc Hc'. destruct (same_shape_obj_rev _ _ _ _ Hs Ho) as (o1 & Ho1 & E1).
    destruct (same_shape_obj_rev _ _ _ _ Hs Ho') as (o2 & Ho2 & E2). rewrite (obj_same_links _ _ E1) in Hc.
    rewrite (obj_same_links _ _ E2) in Hc'. by eapply O3.
Qed.
Lemma normal_sweepable : sweepable fuel W normal.
Proof.
  pose proof (rs_nodup _ _ _ _ HR) as Hnd. constructor.
  - destruct marked_owned as [O1 O2 O3]. by constructor.
  - apply Hsc.
  - intros a Ha. by apply marked_in.
  - change (NoDup (all_items (g_marked s1) W)). by rewrite marked_items.
  - intros i bs Hi Hbs. change (queue_at (g_marked s1) W i = Some bs) in Hbs. pose proof fuel_batches as Hfb.
    pose proof (submseteq_length _ _ (batches_at _ _ _ _ Hi Hbs)) as Hle. rewrite marked_batches in Hle. lia.
Qed.
(** What the sweep leaves. *)
Context (s2 : gstate V) (Hw2 : worked W normal (seq 0 OBJ_BATCHES_SHARD) s2).
Lemma dead_black a : is_Some (g_objs s1 !! a) -> dead W normal a = false <-> black B s1 a.
Proof.
  intros [o Ho]. unfold dead. change (g_objs normal) with (g_objs s1). rewrite Ho, bool_decide_eq_false. unfold black, B. split.
  - intros Hn. exists o. split; [done|]. by apply flip_other.
  - intros (o' & Ho' & Hm). rewrite Ho in Ho'. injection Ho' as <-. rewrite Hm. apply flip_ne.
Qed.
Lemma after_objs a : g_objs s2 !! a = if decide (dead W normal a = true) then None else g_objs s1 !! a.
Proof.
  pose proof (sw_objs _ _ _ _ (sg_swept _ _ _ _ _ (proj1 Hw2)) a) as E. rewrite E.
  change (shard_items W normal (seq 0 OBJ_BATCHES_SHARD)) with (all_items (g_marked s1) W). change (g_objs normal) with (g_objs s1).
  destruct (decide (dead W normal a = true)) as [Hd|Hd]; [|rewrite decide_False; [done|by intros [_ ?]]].
  rewrite decide_True; [done|]. split; [|done]. apply marked_in. unfold dead in Hd. change (g_objs normal) with (g_objs s1) in Hd.
  destruct (g_objs s1 !! a); [by eexists|done].
Qed.
Lemma after_live a o : g_objs s2 !! a = Some o <-> g_objs s1 !! a = Some o /\ black B s1 a.
Proof.
  rewrite after_objs. split.
  - destruct (decide _) as [|Hd]; [done|]. intros Ho. split; [done|]. apply dead_black; [by exists o|]. by destruct (dead W normal a).
  - intros [Ho Hb]. apply dead_black in Hb; [|by exists o]. by rewrite Hb, decide_False.
Qed.
Lemma after_cell c : (forall a o, g_objs s1 !! a = Some o -> c ∈ o_links o -> black B s1 a) -> g_cells s2 !! c = g_cells s1 !! c.
Proof.
  intros Hc. apply (sw_keep _ _ _ _ (sg_swept _ _ _ _ _ (proj1 Hw2))). intros a o _ Hd Ho Hin.
  change (g_objs s1 !! a = Some o) in Ho. apply (Hc a o Ho), dead_black in Hin; [congruence|by exists o].
Qed.
Lemma after_gone a o c : g_objs s1 !! a = Some o -> c ∈ o_links o -> is_Some (g_cells s2 !! c) -> black B s1 a.
Proof.
  intros Ho Hc [x Hx]. apply dead_black; [by exists o|]. destruct (dead W normal a) eqn:Hd; [|done].
  assert (E : g_cells s2 !! c = None); [|congruence].
  apply (sw_gone _ _ _ _ (sg_swept _ _ _ _ _ (proj1 Hw2)) a o c); [|done|done|done]. apply marked_in. by exists o.
Qed.
Lemma after_holds c p : holds_ptr s2 c p -> holds_ptr s1 c p.
Proof.
  intros [Hc Hp]. split; [|done]. rewrite <- Hc. symmetry. apply after_cell. intros a o Ho Hin. by eapply after_gone.
Qed.
Lemma after_link a o c p : g_objs s2 !! a = Some o -> c ∈ o_links o -> holds_ptr s1 c p -> holds_ptr s2 c p.
Proof.
  intros [Ho Hb]%after_live Hc [Hp Hok]. split; [|done]. rewrite after_cell; [done|]. intros a' o' Ho' Hc'.
  by rewrite (ow_disj _ marked_owned a' a o' o c Ho' Ho Hc' Hc).
Qed.
(** The children of a survivor survive. *)
Lemma after_target a o c p : g_objs s2 !! a = Some o -> c ∈ o_links o -> holds_ptr s1 c p ->
  ManPtr.p_meta p = Unrooted B /\ (ManPtr.p_addr p <> 0 -> is_Some (g_objs s2 !! target p)).
Proof.
  intros [Ho (o' & Ho' & Hm)]%after_live Hc Hp. rewrite Ho in Ho'. injection Ho' as <-. pose proof marked_tri as T.
  pose proof (tri_links _ _ _ T a o c p Ho Hm Hc Hp) as Em. split; [done|]. intros Hn.
  destruct (tri_target _ _ _ T c p Hp Em Hn) as [(x & Hx & Hmx)|?%not_elem_of_nil]; [|done].
  exists x. apply after_live. split; [done|]. by exists x.
Qed.
Lemma after_cells_owned c p : holds_ptr s2 c p -> ManPtr.p_meta p = Rooted \/ exists a o, g_objs s2 !! a = Some o /\ c ∈ o_links o.
Proof.
  intros Hp. pose proof (after_holds c p Hp) as Hp1. pose proof (tr_shape _ _ _ _ _ _ _ _ _ Htr) as Hs.
  destruct (same_shape_holds_rev _ _ _ _ Hs Hp1) as (p0 & Hp0 & R).
  destruct (rs_cells _ _ _ _ HR c p0 Hp0) as [Em|(a & o & Ho & Hin)].
  - left. destruct R as [->|(c1 & c2 & E & ->)]; [done|congruence].
  - right. destruct (same_shape_obj _ _ _ _ Hs Ho) as (o1 & Ho1 & E). exists a, o1. rewrite (obj_same_links _ _ E). split; [|done].
    apply after_live. split; [done|]. apply (after_gone a o1 c Ho1); [by rewrite (obj_same_links _ _ E)|]. exists (ManPtr.encode p). apply Hp.
Qed.
Lemma after_frame : g_locals s2 = g_locals s1 /\ g_epoch s2 = ep N B (t + 3) /\ g_threads s2 = g_threads s1.
Proof. by rewrite (sg_frame _ _ _ _ _ (proj1 Hw2)). Qed.
Lemma after_wf : wf s2.
Proof.
  pose proof (tr_wf _ _ _ _ _ _ _ _ _ Htr) as Hwf. constructor.
  - intros a o [Ho _]%after_live. by apply (wf_hdr _ Hwf a).
  - intros a o c Ho Hc. pose proof Ho as [Ho1 _]%after_live.
    destruct (proj1 (link_ok_holds _ _) (wf_link _ Hwf a o c Ho1 Hc)) as (p & col & Hp & Hm & _). apply link_ok_holds.
    exists p, col. split; [by eapply after_link|]. split; [done|]. by apply (after_target a o c p Ho Hc Hp).
Qed.
Lemma after_owned : owned s2.
Proof.
  destruct marked_owned as [O1 O2 O3]. constructor.
  - intros a o c Ho Hc. pose proof (wf_link _ after_wf a o c Ho Hc) as (p & col & Hp & [Hok _] & Hm).
    exists (ManPtr.encode p). split; [done|]. rewrite ManPtr.encode_meta by done. by rewrite Hm.
  - intros a o [Ho _]%after_live. by eapply O2.
  - intros a b o o' c [Ho _]%after_live [Ho' _]%after_live. by eapply O3.
Qed.
(** The batches of the next cycle: those the sweep made of the survivors. *)
Lemma after_batched : batched B s2 ≡ₚ survivors W normal (all_items (g_marked s1) W).
Proof.
  pose proof (sg_fresh _ _ _ _ _ (proj1 Hw2)) as E. cbn [idle sw_batch batch_default batch_with_capacity b_items] in E.
  rewrite app_nil_r in E. change (shard_items W normal (seq 0 OBJ_BATCHES_SHARD)) with (all_items (g_marked s1) W) in E.
  change (g_fresh normal) with (g_fresh s1) in E. rewrite (all_items_batches (g_fresh s1)) in E.
  fold B in E. assert (Eb : batches (g_fresh s1) B = []) by apply (sc_fresh_black _ _ _ _ _ Hsc). rewrite Eb in E. cbn [map concat app] in E.
  unfold batched, heap_batches. rewrite map_app, concat_app, <- all_items_batches, E.
  assert (El : concat (local_batch B <$> nodes (g_locals s2)) = []).
  { apply concat_nil_Forall, Forall_fmap, Forall_forall. intros nd (k & Hk)%list_elem_of_lookup. rewrite (proj1 after_frame) in Hk.
    pose proof (pt_objs _ _ _ _ _ (marked_parts k nd Hk)) as Hb. cbn. unfold local_batch.
    destruct (l_objs (n_item nd) !! color_index B) as [b|] eqn:Ex; [|done]. apply list_elem_of_lookup_2 in Ex.
    unfold batch_is_empty. by rewrite (proj1 (Hb b Ex)). }
  by rewrite El, app_nil_r.
Qed.
Lemma after_marked c : batches (g_marked s2) c = [].
Proof.
  destruct (proj2 Hw2) as [E1 E2]. destruct (decide (c = W)) as [->|Hne].
  - apply batches_nil; [|intros i Hi].
    + intros c i Hi. destruct (decide (c = W)) as [->|Hne].
      * rewrite E1. destruct (decide _); [apply fmap_is_Some|]; by apply (sc_marked _ _ _ _ _ Hsc).
      * rewrite E2 by done. by apply (sc_marked _ _ _ _ _ Hsc).
    + rewrite E1, decide_True by (apply elem_of_seq; lia). destruct (sc_marked _ _ _ _ _ Hsc W i Hi) as [bs Hbs].
      change (g_marked normal) with (g_marked s1). by rewrite Hbs.
  - transitivity (batches (g_marked s1) c).
    + unfold batches. f_equal. apply map_ext. intros i. by rewrite E2.
    + rewrite (flip_other c W Hne). apply (sc_marked_black _ _ _ _ _ Hsc).
Qed.
Lemma after_fresh : batches (g_fresh s2) W = [].
Proof.
  apply batches_nil; [apply (proj1 Hw2)|]. intros i Hi. rewrite (sg_other _ _ _ _ _ (proj1 Hw2)). by apply (proj2 Hset).
Qed.
Lemma after_resting : resting B (t + 3) l s2.
Proof.
  destruct after_frame as (El & Ee & Et). pose proof (rs_nodup _ _ _ _ HR) as Hnd. rewrite <- marked_items in Hnd.
  assert (EBB : flip B = W) by apply flip_flip. constructor.
  - done.
  - apply after_wf.
  - apply after_owned.
  - intros a o [Ho (o' & Ho' & Hm)]%after_live. rewrite Ho in Ho'. by injection Ho' as <-.
  - intros a o c p Ho Hc Hp. apply (after_target a o c p Ho Hc), after_holds, Hp.
  - apply after_cells_owned.
  - rewrite after_objs. destruct (decide _); [done|]. destruct (g_objs s1 !! 0) as [o|] eqn:E; [|done].
    assert (is_Some (g_objs s !! 0)) as [x Hx]; [apply (tracing_live W (t + 1) s l m0 w ∅ [] s1); [done|by exists o]|].
    by rewrite (rs_null _ _ _ _ HR) in Hx.
  - apply (proj1 Hw2).
  - intros c i Hi. destruct (proj2 Hw2) as [E1 E2]. destruct (decide (c = W)) as [->|Hne].
    + rewrite E1. destruct (decide _); [apply fmap_is_Some|]; by apply (sc_marked _ _ _ _ _ Hsc).
    + rewrite E2 by done. by apply (sc_marked _ _ _ _ _ Hsc).
  - rewrite EBB. apply after_fresh.
  - apply after_marked.
  - rewrite after_batched. unfold survivors. by apply NoDup_filter.
  - intros a. rewrite after_batched. unfold survivors. rewrite list_elem_of_filter, marked_in, after_objs.
    destruct (dead W normal a); [rewrite decide_True by done|rewrite decide_False by done]; naive_solver.
  - unfold all_tasks. rewrite El. apply (proj1 Hset).
  - intros k nd Hk. rewrite El in Hk. destruct (marked_parts k nd Hk) as [P1 P2 P3 P4 P5 P6 P7 P8]. constructor; try done.
    + intros Hu p Hp. destruct (decide (p = 0)) as [|Hn]; [done|]. by destruct (P3 p Hp Hn).
    + intros b Hb%list_elem_of_lookup_2. by apply P5.
    + intros b Hb. by apply P5.
    + lia.
    + intros h e' Hc. destruct (P7 h e' Hc). lia.
  - rewrite El. apply (tr_self _ _ _ _ _ _ _ _ _ Htr).
  - rewrite Et, (tr_threads _ _ _ _ _ _ _ _ _ Htr). apply HR.
Qed.

(** ** What the cycle did *)
Lemma after_hazard a : a <> 0 -> hazard s2 a <-> hazard s a.
Proof. intros Hn. unfold hazard at 1. rewrite (proj1 after_frame). by apply (tracing_hazard W (t + 1) s l m0 w ∅ [] s1). Qed.
Lemma after_same a o' : g_objs s2 !! a = Some o' -> exists o, g_objs s !! a = Some o /\ obj_same o o'.
Proof. intros [Ho _]%after_live. by eapply same_shape_obj_rev, Ho; apply Htr. Qed.
Lemma after_kept a : is_Some (g_objs s2 !! a) <-> kept s a.
Proof.
  rewrite <- marked_kept. split; [intros [o [_ Hb]%after_live]; done|]. intros Hb. pose proof Hb as (o & Ho & _).
  exists o. by apply after_live.
Qed.
Lemma after_rooted a : rooted s2 a <-> rooted s a.
Proof.
  split.
  - intros (o' & Ho' & Hr). destruct (after_same a o' Ho') as (o & Ho & _ & Hrc & _). exists o. split; [done|].
    rewrite Hrc in Hr. destruct Hr as [?|Hz]; [by left|right]. apply after_hazard; [|done]. intros ->. by rewrite (rs_null _ _ _ _ HR) in Ho.
  - intros Hr. destruct (proj2 (after_kept a) (rooted_kept s a Hr)) as [o' Ho']. destruct Hr as (o & Ho & Hr).
    destruct (after_same a o' Ho') as (o1 & Ho1 & _ & Hrc & _). rewrite Ho in Ho1. injection Ho1 as <-. exists o'. split; [done|].
    rewrite Hrc. destruct Hr as [?|Hz]; [by left|right]. apply after_hazard; [|done]. intros ->. by rewrite (rs_null _ _ _ _ HR) in Ho.
Qed.
Lemma after_links c p : holds_ptr s c p ->
  (ManPtr.p_meta p = Rooted \/ exists a o, kept s a /\ g_objs s !! a = Some o /\ c ∈ o_links o) ->
  exists p', holds_ptr s2 c p' /\ recolored p p'.
Proof.
  intros Hp Hc. pose proof (tr_shape _ _ _ _ _ _ _ _ _ Htr) as Hs. destruct (same_shape_holds _ _ _ _ Hs Hp) as (p1 & Hp1 & R).
  exists p1. split; [|done]. split; [|apply Hp1]. rewrite after_cell; [apply Hp1|]. intros b ob Hob Hcb.
  destruct (same_shape_obj_rev _ _ _ _ Hs Hob) as (ob0 & Hob0 & Eob). rewrite (obj_same_links _ _ Eob) in Hcb. destruct Hc as [Hm|(a & o & Hk & Ho & Hca)].
  - pose proof (rs_links _ _ _ _ HR b ob0 c p Hob0 Hcb Hp) as E. congruence.
  - rewrite (ow_disj _ (rs_owned _ _ _ _ HR) b a ob0 o c Hob0 Ho Hcb Hca). by apply marked_kept.
Qed.
Lemma after_origin c w' : g_cells s2 !! c = Some w' -> exists w0, g_cells s !! c = Some w0 /\ recolored_word w0 w'.
Proof.
  intros Hc. rewrite after_cell in Hc by (intros a o Ho Hin; by eapply after_gone).
  pose proof (proj2 (tr_shape _ _ _ _ _ _ _ _ _ Htr) c) as HC. rewrite Hc in HC. destruct (g_cells s !! c) as [w0|]; [by exists w0|done].
Qed.
Lemma after_edge a b : kept s a -> edge s a b -> edge s2 a b.
Proof.
  intros Hk (o & c & p & Ho & Hc & Hp & Hn & ->). destruct (proj2 (after_kept a) Hk) as [o' Ho'].
  destruct (after_same a o' Ho') as (o1 & Ho1 & E). rewrite Ho in Ho1. injection Ho1 as <-.
  destruct (after_links c p Hp) as (p' & Hp' & R); [right; by exists a, o|]. exists o', c, p'.
  unfold target. rewrite (recolored_addr _ _ R), (obj_same_links _ _ E). done.
Qed.
End marked.

(** [s'] is [s] without its garbage: the objects a root leads to, whole, with their links and
    roots; and nothing is left in it that no root leads to. *)
Record collected s' : Prop := {
  co_objs : forall a, is_Some (g_objs s' !! a) <-> kept s a;
  co_same : forall a o', g_objs s' !! a = Some o' -> exists o, g_objs s !! a = Some o /\ obj_same o o';
  co_links : forall c p, holds_ptr s c p ->
    (ManPtr.p_meta p = Rooted \/ exists a o, kept s a /\ g_objs s !! a = Some o /\ c ∈ o_links o) ->
    exists p', holds_ptr s' c p' /\ recolored p p';
  co_roots : forall a, rooted s' a <-> rooted s a;
  co_hazards : forall a, a <> 0 -> hazard s' a <-> hazard s a;
  co_cells : forall c w', g_cells s' !! c = Some w' -> exists w, g_cells s !! c = Some w /\ recolored_word w w';
  co_clean : forall a, is_Some (g_objs s' !! a) -> kept s' a
}.
Lemma yields_next_normal wt s1 : no_retry -> marking l m0 w ∅ [] s1 -> settled s1 ->
  yields (next_normal fuel l wt) (set_g_epoch (fun _ => ep CT W (t + 2)) s1) (fun _ s' => resting B (t + 3) l s' /\ collected s').
Proof.
  intros Hnr H1 Hset. set (s2 := set_g_epoch _ s1). pose proof (mk_tracing _ _ _ _ _ _ _ _ _ _ H1) as Htr.
  pose proof (marked_length s1 H1) as Hlen. unfold next_normal. eapply yields_step; [reflexivity|].
  change (g_epoch s2) with (ep CT W (t + 2)). unfold phase_of.
  destruct (proj1 (ep_reads CT W (t + 2) ltac:(lia))) as [Eph Eco _ _]. rewrite Eph. apply yields_bind, yields_ret.
  rewrite bool_decide_true by done. apply yields_bind, yields_ret.
  destruct (tr_self _ _ _ _ _ _ _ _ _ Htr) as (nd & Hnd & _). assert (Hl : local_of s2 l = Some (n_item nd)).
  { unfold local_of. change (g_locals s2) with (g_locals s1). by rewrite Hnd. }
  destruct (run_find_task fuel l _ s2 Hnr Hl Hlen) as [[E _]|(a & s3 & _ & Hp & _)].
  2:{ change (all_tasks s2) with (all_tasks s1) in Hp. rewrite (proj1 Hset) in Hp. by apply Permutation_nil_cons in Hp. }
  step_with E. rewrite bool_decide_true by done. apply yields_bind, yields_ret. rewrite Eco, ep_next by lia.
  replace (t + 2 + 1) with (t + 3) by lia.
  assert (Enew : Epoch.with_color (ep N W (t + 3)) (flip W) = ep N B (t + 3)).
  { destruct (encode_accessors (mkA false N W (t + 3))) as (_ & _ & _ & _ & _ & _ & _ & E8 & _); [split; cbn; lia|]. apply E8. }
  rewrite Enew. eapply yields_step; [reflexivity|]. change (set_g_epoch (fun _ => ep N B (t + 3)) s2) with (normal s1).
  destruct (run_sweep fuel W wt (normal s1)) as (s3 & Es & Hw); [by apply normal_sweepable|apply H1| |].
  { change (g_threads (normal s1)) with (g_threads s1). rewrite (tr_threads _ _ _ _ _ _ _ _ _ Htr). apply HR. }
  step_with Es. destruct (after_frame s1 s3 Hw) as (El & _).
  eapply yields_mono; [apply yields_wait; rewrite El; [done|]; intros k nd' Hk; by apply (pt_epoch _ _ _ _ _ (marked_parts s1 H1 k nd' Hk))|].
  intros [] s4 ->. split; [by apply (after_resting s1 H1 Hset)|]. constructor.
  - intros a. by apply (after_kept s1 H1 Hset).
  - intros a o'. by apply (after_same s1 H1 Hset).
  - intros c p. by apply (after_links s1 H1 Hset).
  - intros a. by apply (after_rooted s1 H1 Hset).
  - intros a. by apply (after_hazard s1 H1).
  - intros c w'. by apply (after_origin s1 H1 Hset).
  - intros a (q & Hq & Hr)%(after_kept s1 H1 Hset s3 Hw). exists q. split; [by apply (after_rooted s1 H1 Hset s3 Hw)|].
    assert (Hkq : kept s q) by by apply rooted_kept. clear Hq. induction Hr as [|x y z Hxy Hyz IH]; [reflexivity|].
    eapply rtc_l; [by apply (after_edge s1 H1 Hset s3 Hw)|]. apply IH. by eapply kept_edge.
Qed.
Lemma yields_cycle wt : no_retry -> yields (collect_cycle fuel l wt) s (fun _ s' => resting B (t + 3) l s' /\ collected s').
Proof.
  intros Hnr. pose proof fuel_nodes as Hfn. unfold collect_cycle. eapply yields_then; [by apply yields_root_tracing|].
  intros [] s1 [H1 Hset]. eapply yields_then; [|intros r s2 Hs2; exact Hs2]. eapply yields_mono.
  - apply (yields_once _ (fun _ s' => s' = set_g_epoch (fun _ => ep CT W (t + 2)) s1)); [unfold OBJ_BATCHES_SHARD in *; lia|].
    eapply yields_then; [by apply (yields_completion s1 H1 Hset)|]. intros b s2 [-> ->]. apply yields_ret. by exists tt.
  - intros r s2 ->. by apply yields_next_normal.
Qed.
End cycle.
End resting.

(** C3. A whole collection cycle, run without interference, is exact.  From a heap at rest, with at
    least [rounds] of fuel and for any number of scoped workers the crate allows, the cycle
    returns with the heap at rest again, the colours exchanged; it has kept the objects that a
    root count or a hazard pointer leads to, with their types, payloads, root counts and links,
    and freed every other one, cyclic garbage included. *)
Theorem cycle_exact {EX : Extern} {V : Type} fuel W t l (s : gstate V) wt : no_retry -> resting W t l s ->
  0 <= t -> t + 3 < 2 ^ 60 -> (rounds W s < fuel)%nat ->
  exists s', run (collect_cycle fuel l wt) s = Ok (tt, s') /\ resting (flip W) (t + 3) l s' /\ collected s s'.
Proof.
  intros Hnr HR H0 H3 Hf. destruct (yields_cycle fuel W t l s HR H0 H3 Hf wt Hnr) as ([] & s' & E & H). by exists s'.
Qed.
