(* ===== verification/Rest.v ===== *)
(** * The heap between two collections

    What the mutators keep true of the heap while they hold no guard, besides [resting]: the
    root count of an object is the number of rooted links to it, every link, wherever it is,
    is null or leads to a live object, and the links of objects are exactly the unrooted
    ones ([heap_ok]).  A collection cycle keeps this. *)
From S2P Require Import Prelude Prog Epoch Meta Slots Registry State Heap Marking Participant Guards.
From S2P Require Import Pointers Barriers Collector Tasks Tracing Sweep TraceInv Cycle Frame.
#[local] Open Scope Z_scope.

(** ** Counting the rooted links to an object *)
Section counting.
Context {EX : Extern}.
Implicit Types (cells : gmap cell Z) (w a : Z) (p : ManPtr.ptr).

Definition roots w a : Prop := ManPtr.meta w = Rooted /\ ManPtr.as_ptr w = a.
#[export] Instance roots_dec w a : Decision (roots w a).
Proof. unfold roots. apply _. Defined.
Definition weight a w : Z := if decide (roots w a) then 1 else 0.
Definition root_links cells a : Z := Z.of_nat (size (filter (fun cw => roots cw.2 a) cells)).
Definition weight_at cells c a : Z := match cells !! c with Some w => weight a w | None => 0 end.

Lemma root_links_delete cells c a : root_links (delete c cells) a = root_links cells a - weight_at cells c a.
Proof.
  unfold root_links, weight_at, weight. rewrite map_filter_delete, map_size_delete.
  destruct (cells !! c) as [w|] eqn:E; [destruct (decide (roots w a)) as [Hr|Hr]|].
  - rewrite (map_lookup_filter_Some_2 _ _ _ _ E Hr). assert (Hn : filter (fun cw => roots cw.2 a) cells <> ∅).
    { intros H0. pose proof (map_lookup_filter_Some_2 (fun cw => roots cw.2 a) _ _ _ E Hr) as H. by rewrite H0 in H. }
    apply map_size_non_empty_iff in Hn. lia.
  - rewrite (proj2 (map_lookup_filter_None _ _ _)); [cbn; lia|]. right. intros x Hx. rewrite E in Hx. by injection Hx as <-.
  - rewrite (proj2 (map_lookup_filter_None _ _ _)); [cbn; lia|]. by left.
Qed.
Lemma root_links_insert cells c w a : root_links (<[c := w]> cells) a = root_links cells a - weight_at cells c a + weight a w.
Proof.
  rewrite <- root_links_delete, <- insert_delete_eq. unfold root_links, weight.
  rewrite map_filter_insert. cbn [snd]. destruct (decide (roots w a)) as [Hr|Hr].
  - rewrite map_size_insert, map_filter_delete, lookup_delete_eq. lia.
  - by rewrite delete_delete_eq, Z.add_0_r.
Qed.
Lemma root_links_le cells a : root_links cells a <= Z.of_nat (size cells).
Proof. unfold root_links. apply Nat2Z.inj_le, map_subseteq_size, map_filter_subseteq. Qed.
Lemma root_links_pos cells a c w : cells !! c = Some w -> roots w a -> 0 < root_links cells a.
Proof.
  intros Hc Hr. unfold root_links. assert (Hn : filter (fun cw => roots cw.2 a) cells <> ∅).
  { intros H0. pose proof (map_lookup_filter_Some_2 (fun cw => roots cw.2 a) _ _ _ Hc Hr) as H. by rewrite H0 in H. }
  apply map_size_non_empty_iff in Hn. lia.
Qed.
Lemma root_links_inv cells a : 0 < root_links cells a -> exists c w, cells !! c = Some w /\ roots w a.
Proof.
  intros H. unfold root_links in H. destruct (map_choose (filter (fun cw => roots cw.2 a) cells)) as (c & w & Hc).
  { intros H0. rewrite H0, map_size_empty in H. lia. }
  apply map_lookup_filter_Some in Hc as [Hc Hr]. by exists c, w.
Qed.
Lemma roots_encode p a : ManPtr.ptr_ok p -> roots (ManPtr.encode p) a <-> ManPtr.p_meta p = Rooted /\ target p = a.
Proof. intros Hp. unfold roots. by rewrite ManPtr.encode_meta, ManPtr.encode_as_ptr. Qed.
Lemma weight_encode p a : ManPtr.ptr_ok p ->
  weight a (ManPtr.encode p) = if decide (ManPtr.p_meta p = Rooted /\ target p = a) then 1 else 0.
Proof. intros Hp. unfold weight. by rewrite (decide_ext _ _ _ _ (roots_encode p a Hp)). Qed.
End counting.

(** ** The objects and links of a heap in a Normal phase *)
Section heap_ok.
Context {EX : Extern} {V : Type}.
Implicit Types (objs : gmap Z (obj V)) (cells : gmap cell Z) (c : cell) (w a : Z) (p q : ManPtr.ptr) (o : obj V) (X : list cell).

(** A link of a live object. *)
Definition owned_link objs c : Prop := exists a o, objs !! a = Some o /\ c ∈ o_links o.
(** The link [c] holds [p]: rooted unless it belongs to an object, and of the white colour if
    it does.  The links [X] of an object under construction are still rooted. *)
Record cell_ok (W : Color) X objs c p : Prop := {
  ck_ptr : ManPtr.ptr_ok p;
  ck_target : ManPtr.p_addr p <> 0 -> is_Some (objs !! target p);
  ck_meta : (ManPtr.p_meta p = Rooted /\ (owned_link objs c -> c ∈ X)) \/
    (ManPtr.p_meta p = Unrooted W /\ owned_link objs c /\ c ∉ X)
}.
Record heap_ok (W : Color) X (E : Z -> Z) objs cells : Prop := {
  hk_addr : forall a, is_Some (objs !! a) -> exists n, a = n * 2 ^ align_log /\ 0 < n < 2 ^ (62 - align_log);
  hk_hdr : forall a o, objs !! a = Some o -> exists h, ObjMeta.hdr_ok h /\ o_hdr o = ObjMeta.encode h /\
    ObjMeta.h_color h = W /\ ObjMeta.h_rc h = root_links cells a + E a;
  hk_nodup : forall a o, objs !! a = Some o -> NoDup (o_links o);
  hk_disj : forall a b o o' c, objs !! a = Some o -> objs !! b = Some o' -> c ∈ o_links o -> c ∈ o_links o' -> a = b;
  hk_link : forall c, owned_link objs c -> is_Some (cells !! c);
  hk_cell : forall c w, cells !! c = Some w -> exists p, w = ManPtr.encode p /\ cell_ok W X objs c p
}.
Lemma hk_null W X E objs cells : heap_ok W X E objs cells -> objs !! 0 = None.
Proof.
  intros H. destruct (objs !! 0) eqn:Eo; [|done]. destruct (hk_addr _ _ _ _ _ H 0) as (q & E0 & Hq); [by eexists|].
  pose proof align_log_ok. assert (0 < 2 ^ align_log) by lia. nia.
Qed.
(** A live address as a pointer. *)
Definition ptr_to a t : ManPtr.ptr := ManPtr.mkP Rooted (a / 2 ^ align_log) t.
Lemma ptr_to_ok W X E objs cells a t : heap_ok W X E objs cells -> is_Some (objs !! a) -> 0 <= t < 2 ^ align_log ->
  ManPtr.ptr_ok (ptr_to a t) /\ target (ptr_to a t) = a /\ ManPtr.p_addr (ptr_to a t) <> 0.
Proof.
  intros H Ha Ht. destruct (hk_addr _ _ _ _ _ H a Ha) as (q & -> & Hq). unfold ptr_to, target. cbn.
  pose proof align_log_ok. assert (0 < 2 ^ align_log) by lia. rewrite Z.div_mul by lia. split; [split; cbn; lia|]. split; [done|lia].
Qed.
Lemma encode_ptr_to W X E objs cells a : heap_ok W X E objs cells -> is_Some (objs !! a) -> ManPtr.encode (ptr_to a 0) = a.
Proof.
  intros H Ha. destruct (hk_addr _ _ _ _ _ H a Ha) as (n & -> & Hn). unfold ptr_to, ManPtr.encode, ManPtr.fields.
  pose proof align_log_ok. assert (0 < 2 ^ align_log) by lia. cbn [ManPtr.p_tag ManPtr.p_addr ManPtr.p_meta ManPtr.meta_num pack].
  rewrite Z.div_mul by lia. rewrite !Z.mul_0_r, !Z.add_0_r. lia.
Qed.
(** The address of a live object as a word, the way the program holds it. *)
Record plain_word (a : Z) : Prop := {
  pw_ok : ManPtr.ptr_ok (ptr_to a 0);
  pw_target : target (ptr_to a 0) = a;
  pw_addr : ManPtr.p_addr (ptr_to a 0) <> 0;
  pw_word : ManPtr.encode (ptr_to a 0) = a;
  pw_null : ManPtr.is_null a = false;
  pw_ptr : ManPtr.as_ptr a = a;
  pw_meta : ManPtr.with_meta a Rooted = a;
  pw_plain : ManPtr.without_meta a = a;
  pw_view : view (ptr_to a 0) = (Some a, 0)
}.
Lemma plain_live W X E objs cells a : heap_ok W X E objs cells -> is_Some (objs !! a) -> plain_word a.
Proof.
  intros H Ha. pose proof align_log_ok. destruct (ptr_to_ok W X E _ _ a 0 H Ha) as (H1 & H2 & H3); [lia|].
  pose proof (encode_ptr_to _ _ _ _ _ _ H Ha) as Ew. pose proof (ManPtr.encode_is_null _ H1) as E1. pose proof (ManPtr.encode_as_ptr _ H1) as E2.
  pose proof (ManPtr.encode_with_meta _ H1 Rooted) as E3. pose proof (ManPtr.encode_without_meta _ H1) as E4. rewrite Ew in E1, E2, E3, E4.
  constructor; try done.
  - rewrite E1. by apply Z.eqb_neq.
  - by rewrite E2.
  - by rewrite E3.
  - by rewrite E4.
  - unfold view. by rewrite (proj2 (Z.eqb_neq _ _) H3), H2.
Qed.
(** A [Local], or null, as a pointer without a tag. *)
Definition ptr_for (v : option Z) : ManPtr.ptr := match v with Some a => ptr_to a 0 | None => ManPtr.mkP Rooted 0 0 end.
Lemma ptr_for_ok W X E objs cells v t : heap_ok W X E objs cells -> (forall a, v = Some a -> is_Some (objs !! a)) ->
  ManPtr.ptr_ok (ptr_for v) /\ ptr_of v = ManPtr.encode (ptr_for v) /\ (ManPtr.p_addr (ptr_for v) <> 0 -> is_Some (objs !! target (ptr_for v))) /\
  view (tagged (ptr_for v) t) = (v, t mod 2 ^ align_log).
Proof.
  intros H Hv. pose proof align_log_ok. destruct v as [a|]; cbn [ptr_for].
  - destruct (ptr_to_ok _ _ _ _ _ a 0 H (Hv a eq_refl)) as (H1 & H2 & H3); [lia|]. split; [done|].
    split; [symmetry; eapply encode_ptr_to; eauto|]. rewrite H2. split; [auto|]. unfold view.
    change (target (tagged (ptr_to a 0) t)) with (target (ptr_to a 0)). rewrite H2.
    change (ManPtr.p_addr (tagged (ptr_to a 0) t)) with (ManPtr.p_addr (ptr_to a 0)). by rewrite (proj2 (Z.eqb_neq _ _) H3).
  - split; [split; cbn; lia|]. split; [|done]. unfold ptr_of, ManPtr.encode, ManPtr.fields. cbn [pack ManPtr.p_tag ManPtr.p_addr ManPtr.p_meta ManPtr.meta_num default]. change ManPtr.null_base with 0. ring.
Qed.

(** Root counts move by [d]. *)
Definition moved (d : Z -> Z) objs objs' : Prop := forall a, objs' !! a = set_o_hdr (fun w => w + d a) <$> objs !! a.
Lemma moved_refl objs : moved (fun _ => 0) objs objs.
Proof.
  intros a. destruct (objs !! a) as [o|]; [|done]. cbn. f_equal. destruct o. unfold set_o_hdr. cbn. by rewrite Z.add_0_r.
Qed.
Lemma moved_add_rc x b objs : moved (fun a => if decide (a = b) then x else 0) objs (add_rc x b objs).
Proof.
  intros a. unfold add_rc. destruct (decide (a = b)) as [->|Hne].
  - apply lookup_alter_eq.
  - rewrite lookup_alter_ne by done. apply moved_refl.
Qed.
Lemma moved_trans d1 d2 objs objs1 objs2 : moved d1 objs objs1 -> moved d2 objs1 objs2 -> moved (fun a => d1 a + d2 a) objs objs2.
Proof.
  intros H1 H2 a. rewrite (H2 a), (H1 a). destruct (objs !! a) as [[]|]; [|done]. cbn. unfold set_o_hdr. cbn. by rewrite Z.add_assoc.
Qed.
Lemma moved_live d objs objs' a : moved d objs objs' -> is_Some (objs' !! a) <-> is_Some (objs !! a).
Proof. intros H. by rewrite (H a), fmap_is_Some. Qed.
Lemma moved_owned d objs objs' c : moved d objs objs' -> owned_link objs' c <-> owned_link objs c.
Proof.
  intros H. split; intros (a & o & Ho & Hc).
  - rewrite (H a) in Ho. apply fmap_Some in Ho as (o1 & Ho1 & ->). by exists a, o1.
  - exists a, (set_o_hdr (fun w => w + d a) o). by rewrite (H a), Ho.
Qed.
Lemma cell_ok_moved d objs objs' W X c p : moved d objs objs' -> cell_ok W X objs c p -> cell_ok W X objs' c p.
Proof. intros H [C1 C2 C3]. split; [done|..]; by rewrite ?(moved_live _ _ _ _ H), ?(moved_owned _ _ _ _ H). Qed.

(** Links change, and the root counts with them. *)
Lemma heap_ok_move W X E X' E' d objs objs' cells cells' : heap_ok W X E objs cells -> moved d objs objs' ->
  (forall a, a <> 0 -> d a = root_links cells' a + E' a - (root_links cells a + E a)) ->
  (forall a, is_Some (objs !! a) -> 0 <= root_links cells' a + E' a < 2 ^ 55) ->
  (forall c, owned_link objs c -> is_Some (cells' !! c)) ->
  (forall c w, cells' !! c = Some w -> exists p, w = ManPtr.encode p /\ cell_ok W X' objs c p) ->
  heap_ok W X' E' objs' cells'.
Proof.
  intros H Hm Hd Hs Hl Hc. pose proof (hk_null _ _ _ _ _ H) as H0. constructor.
  - intros a Ha. apply (hk_addr _ _ _ _ _ H). by apply (moved_live _ _ _ _ Hm).
  - intros a o Ho. rewrite (Hm a) in Ho. apply fmap_Some in Ho as (o1 & Ho1 & ->). assert (Ha : a <> 0) by congruence.
    destruct (hk_hdr _ _ _ _ _ H a o1 Ho1) as (h & [Ht Hh] & Eh & Ec & Er).
    assert (Erc : ObjMeta.h_rc h + d a = root_links cells' a + E' a) by (rewrite (Hd a Ha); lia).
    eexists (ObjMeta.mkHdr (ObjMeta.h_color h) (ObjMeta.h_tid h) (ObjMeta.h_rc h + d a)). cbn. rewrite Eh, encode_add.
    split; [split; cbn; [done|rewrite Erc; apply Hs; by eexists]|]. done.
  - intros a o Ho. rewrite (Hm a) in Ho. apply fmap_Some in Ho as (o1 & Ho1 & ->). by apply (hk_nodup _ _ _ _ _ H a o1).
  - intros a b o o' c Ho Ho'. rewrite (Hm a) in Ho. rewrite (Hm b) in Ho'.
    apply fmap_Some in Ho as (o1 & Ho1 & ->). apply fmap_Some in Ho' as (o2 & Ho2 & ->). by apply (hk_disj _ _ _ _ _ H a b o1 o2).
  - intros c. rewrite (moved_owned _ _ _ _ Hm). apply Hl.
  - intros c w Hw. destruct (Hc c w Hw) as (p & -> & Hp). exists p. split; [done|]. by eapply cell_ok_moved.
Qed.
Lemma heap_bound W X E objs cells a : heap_ok W X E objs cells -> is_Some (objs !! a) -> root_links cells a + E a < 2 ^ 55.
Proof. intros H [o Ho]. destruct (hk_hdr _ _ _ _ _ H a o Ho) as (h & [_ Hh] & _ & _ & Er). lia. Qed.
Lemma cell_ok_mono W X X' objs c p : (c ∈ X <-> c ∈ X') -> cell_ok W X objs c p -> cell_ok W X' objs c p.
Proof. intros HX [C1 C2 C3]. split; [done|done|]. by rewrite <- HX. Qed.
(** What [c] holds, and what it will hold. *)
Lemma heap_ok_write W X E X' d objs objs' cells c p q : heap_ok W X E objs cells -> moved d objs objs' ->
  (forall a, a <> 0 -> d a = weight a (ManPtr.encode q) - weight a (ManPtr.encode p)) ->
  (forall a, is_Some (objs !! a) -> 0 <= E a /\
     root_links cells a + E a + weight a (ManPtr.encode q) - weight a (ManPtr.encode p) < 2 ^ 55) ->
  cells !! c = Some (ManPtr.encode p) -> cell_ok W X' objs c q -> (forall c', c' <> c -> c' ∈ X <-> c' ∈ X') ->
  heap_ok W X' E objs' (<[c := ManPtr.encode q]> cells).
Proof.
  intros H Hm Hd Hb Hc Hq HX. assert (Hr : forall a, root_links (<[c := ManPtr.encode q]> cells) a =
    root_links cells a - weight a (ManPtr.encode p) + weight a (ManPtr.encode q)).
  { intros a. rewrite root_links_insert. unfold weight_at. by rewrite Hc. }
  eapply (heap_ok_move W X E X' E d); [done|done|..].
  - intros a Ha. rewrite Hr, (Hd a Ha). lia.
  - intros a Ha. destruct (Hb a Ha). split; [unfold root_links; lia|]. rewrite Hr. lia.
  - intros c' Hc'. destruct (decide (c = c')) as [<-|]; [rewrite lookup_insert_eq; by eexists|].
    rewrite lookup_insert_ne by done. by apply (hk_link _ _ _ _ _ H).
  - intros c' w [[<- <-]|[Hne Hw]]%lookup_insert_Some; [by exists q|]. destruct (hk_cell _ _ _ _ _ H c' w Hw) as (p' & -> & Hp').
    exists p'. split; [done|]. eapply cell_ok_mono; [|exact Hp']. apply HX. congruence.
Qed.
(** A link the program makes, and one it drops. *)
Lemma heap_ok_new_link W X E E' d objs objs' cells c p : heap_ok W X E objs cells -> moved d objs objs' ->
  (forall a, a <> 0 -> d a = E' a + weight a (ManPtr.encode p) - E a) ->
  (forall a, is_Some (objs !! a) -> 0 <= E' a /\ root_links cells a + E' a + weight a (ManPtr.encode p) < 2 ^ 55) -> cells !! c = None ->
  ManPtr.ptr_ok p -> ManPtr.p_meta p = Rooted -> (ManPtr.p_addr p <> 0 -> is_Some (objs !! target p)) ->
  heap_ok W X E' objs' (<[c := ManPtr.encode p]> cells).
Proof.
  intros H Hm Hd Hb Hc Hp Em Ht.
  assert (Hr : forall a, root_links (<[c := ManPtr.encode p]> cells) a = root_links cells a + weight a (ManPtr.encode p)).
  { intros a. rewrite root_links_insert. unfold weight_at. rewrite Hc. lia. }
  eapply (heap_ok_move W X E X E' d); [done|done|..].
  - intros a Ha. rewrite Hr, (Hd a Ha). lia.
  - intros a Ha. destruct (Hb a Ha). rewrite Hr. unfold root_links, weight in *. destruct (decide _); lia.
  - intros c' Hc'. apply lookup_insert_is_Some'. right. by apply (hk_link _ _ _ _ _ H).
  - intros c' w [[<- <-]|[Hne Hw]]%lookup_insert_Some; [|by apply (hk_cell _ _ _ _ _ H)]. exists p. split; [done|].
    split; [done|done|]. left. split; [done|]. intros Ho%(hk_link _ _ _ _ _ H). rewrite Hc in Ho. by destruct Ho.
Qed.
Lemma heap_ok_drop_link W X E d objs objs' cells c p : heap_ok W X E objs cells -> moved d objs objs' ->
  (forall a, a <> 0 -> d a = - weight a (ManPtr.encode p)) -> (forall a, 0 <= E a) ->
  cells !! c = Some (ManPtr.encode p) -> ~ owned_link objs c -> heap_ok W X E objs' (delete c cells).
Proof.
  intros H Hm Hd Hb Hc Ho. assert (Hr : forall a, root_links (delete c cells) a = root_links cells a - weight a (ManPtr.encode p)).
  { intros a. rewrite root_links_delete. unfold weight_at. by rewrite Hc. }
  eapply (heap_ok_move W X E X E d); [done|done|..].
  - intros a Ha. rewrite Hr, (Hd a Ha). lia.
  - intros a Ha. pose proof (heap_bound _ _ _ _ _ _ H Ha). split; [specialize (Hb a); unfold root_links; lia|].
    rewrite Hr. unfold weight. destruct (decide _); lia.
  - intros c' Hc'. rewrite lookup_delete_ne; [by apply (hk_link _ _ _ _ _ H)|]. by intros <-.
  - intros c' w [_ Hw]%lookup_delete_Some. by apply (hk_cell _ _ _ _ _ H).
Qed.
(** A new object: its links are still rooted, and it may have a root that is not a link yet. *)
Lemma heap_ok_new_obj W E E' objs cells a o h : heap_ok W [] E objs cells -> objs !! a = None ->
  (exists n, a = n * 2 ^ align_log /\ 0 < n < 2 ^ (62 - align_log)) -> ObjMeta.hdr_ok h -> o_hdr o = ObjMeta.encode h ->
  ObjMeta.h_color h = W -> ObjMeta.h_rc h = E' a -> (forall b, b <> a -> E' b = E b) ->
  NoDup (o_links o) -> (forall c, c ∈ o_links o -> is_Some (cells !! c) /\ ~ owned_link objs c) ->
  heap_ok W (o_links o) E' (<[a := o]> objs) cells.
Proof.
  intros H Ha Han Hh Eh Ec Er HE Hnd Hl.
  assert (Hr : root_links cells a = 0).
  { destruct (Z.lt_total (root_links cells a) 0) as [Hn|[?|Hn%root_links_inv]]; [unfold root_links in Hn; lia|done|].
    destruct Hn as (c & w & Hw & Hra). destruct (hk_cell _ _ _ _ _ H c w Hw) as (p & -> & [C1 C2 _]).
    apply roots_encode in Hra as [_ Et]; [|done]. destruct Han as (n & E0 & Hn). pose proof align_log_ok.
    assert (is_Some (objs !! target p)) as [x Hx]; [apply C2; intros E1; unfold target in Et; nia|]. rewrite Et in Hx. congruence. }
  assert (Hown : forall c, owned_link (<[a := o]> objs) c <-> owned_link objs c \/ c ∈ o_links o).
  { intros c. split.
    - intros (b & o' & [[<- <-]|[_ Hb]]%lookup_insert_Some & Hc); [by right|left; by exists b, o'].
    - intros [(b & o' & Hb & Hc)|Hc]; [|exists a, o; by rewrite lookup_insert_eq].
      exists b, o'. split; [|done]. rewrite lookup_insert_ne; [done|]. intros <-. congruence. }
  constructor.
  - intros b [o' [[<- _]|[_ Hb]]%lookup_insert_Some]; [done|]. apply (hk_addr _ _ _ _ _ H). by eexists.
  - intros b o' [[<- <-]|[Hne Hb]]%lookup_insert_Some.
    + exists h. split; [done|]. split; [done|]. split; [done|]. lia.
    + rewrite HE by done. by apply (hk_hdr _ _ _ _ _ H).
  - intros b o' [[<- <-]|[_ Hb]]%lookup_insert_Some; [done|by apply (hk_nodup _ _ _ _ _ H b)].
  - assert (Hx : forall b o' c, objs !! b = Some o' -> c ∈ o_links o' -> c ∉ o_links o) by (intros b o' c Hb Hc Hc'; apply (Hl c Hc'); by exists b, o').
    intros b b' o1 o2 c [[<- <-]|[_ Hb]]%lookup_insert_Some [[<- <-]|[_ Hb']]%lookup_insert_Some Hc Hc'; [done| | |by eapply (hk_disj _ _ _ _ _ H)].
    + by destruct (Hx b' o2 c).
    + by destruct (Hx b o1 c).
  - intros c [Hc|Hc]%Hown; [by apply (hk_link _ _ _ _ _ H)|by apply Hl].
  - intros c w Hw. destruct (hk_cell _ _ _ _ _ H c w Hw) as (p & -> & [C1 C2 C3]). exists p. split; [done|].
    split; [done|intros Hn; apply lookup_insert_is_Some'; right; auto|]. rewrite Hown.
    destruct C3 as [[Em Hn]|(Em & Ho & _)]; [left|right].
    + split; [done|]. intros [Ho|?]; [|done]. by apply Hn, not_elem_of_nil in Ho.
    + split; [done|]. split; [by left|]. intros Hc. by apply (Hl c Hc).
Qed.
End heap_ok.

(** ** At rest *)
Section at_rest.
Context {EX : Extern} {V : Type} (ks : gset nat).
Implicit Types (s : gstate V) (W : Color).

Definition no_extra (_ : Z) : Z := 0.
(** The participants [ks] of the program's threads; the others publish no hazard. *)
Record mutators l s : Prop := {
  mu_self : l ∉ ks;
  mu_node : forall k, k ∈ ks -> exists nd held, nodes (g_locals s) !! k = Some nd /\ is_using nd = true /\ hz_inv (n_item nd) held;
  mu_idle : forall k nd, nodes (g_locals s) !! k = Some nd -> k ∉ ks -> hz_inv (n_item nd) []
}.
Lemma mu_hazard l s k nd p : mutators l s -> nodes (g_locals s) !! k = Some nd -> p ∈ l_hazards (n_item nd) -> p <> 0 -> k ∈ ks.
Proof. intros H Hk Hp Hn. destruct (decide (k ∈ ks)) as [|Hks]; [done|]. by destruct (Hn (hz_idle _ _ (mu_idle _ _ H k nd Hk Hks) Hp)). Qed.
Record at_rest W t l s : Prop := {
  ar_rest : resting W t l s;
  ar_heap : heap_ok W [] no_extra (g_objs s) (g_cells s);
  ar_reg : complete type_hash (g_reg s);
  ar_mut : mutators l s
}.

Lemma heap_holds W X E s c p : heap_ok W X E (g_objs s) (g_cells s) -> holds_ptr s c p -> cell_ok W X (g_objs s) c p.
Proof. intros H [Hc Hp]. destruct (hk_cell _ _ _ _ _ H c _ Hc) as (q & E1 & Hq). apply encode_inj in E1 as ->; [done|done|apply Hq]. Qed.
(** An object with a rooted link is a root of the collection. *)
Lemma rooted_link_kept W X s c p : heap_ok W X no_extra (g_objs s) (g_cells s) -> holds_ptr s c p -> ManPtr.p_meta p = Rooted ->
  ManPtr.p_addr p <> 0 -> kept s (target p).
Proof.
  intros H Hp Em Hn. pose proof (heap_holds _ _ _ _ _ _ H Hp) as [Hok Ht _]. destruct (Ht Hn) as [o Ho].
  exists (target p). split; [|done]. exists o. split; [done|]. left. destruct (hk_hdr _ _ _ _ _ H _ _ Ho) as (h & Hh & -> & _ & Er).
  rewrite ObjMeta.encode_root_count, Er by done. pose proof (root_links_pos (g_cells s) (target p) c _ (proj1 Hp)) as Hpos.
  unfold no_extra. rewrite Z.add_0_r. by apply Hpos, roots_encode.
Qed.
Lemma recolored_rooted p p' : recolored p p' -> ManPtr.p_meta p = Rooted \/ ManPtr.p_meta p' = Rooted -> p' = p.
Proof. by intros [->|(c & c' & E & ->)] [H|H]; [..|rewrite H in E|]. Qed.

Section cycle.
Context (W : Color) (t : Z) (l : nat) (s s' : gstate V).
Context (HH : heap_ok W [] no_extra (g_objs s) (g_cells s)) (HR : resting (flip W) t l s') (HC : collected s s').

(** The rooted links are those there were. *)
Lemma cycle_origin c p' : holds_ptr s' c p' -> exists p, holds_ptr s c p /\ recolored p p' /\ cell_ok W [] (g_objs s) c p.
Proof.
  intros [Hc Hp']. destruct (co_cells _ _ HC c _ Hc) as (w & Hw & R). destruct (hk_cell _ _ _ _ _ HH c w Hw) as (p & -> & Hp).
  exists p. split; [split; [done|apply Hp]|]. split; [|done]. destruct R as [E|(q & q' & Hq & E & E' & R)].
  - apply encode_inj in E as ->; [by left|apply Hp|done].
  - apply encode_inj in E as ->; [|apply Hp|done]. apply encode_inj in E' as ->; [done|done|by eapply recolored_ok].
Qed.
Lemma cycle_words c w' : g_cells s' !! c = Some w' -> exists p', w' = ManPtr.encode p' /\ holds_ptr s' c p'.
Proof.
  intros Hc. destruct (co_cells _ _ HC c _ Hc) as (w & Hw & R). destruct (hk_cell _ _ _ _ _ HH c w Hw) as (p & -> & Hp).
  destruct R as [<-|(q & q' & Hq & _ & -> & R)]; [exists p|exists q']; (split; [done|]; split; [done|]); [apply Hp|by eapply recolored_ok].
Qed.
Lemma cycle_rooted c w a : roots w a -> g_cells s' !! c = Some w <-> g_cells s !! c = Some w.
Proof.
  intros Hr. split; intros Hc.
  - destruct (cycle_words c w Hc) as (p' & -> & Hp'). destruct (cycle_origin c p' Hp') as (p & [Hp _] & R & _).
    apply roots_encode in Hr as [Em _]; [|apply Hp']. by rewrite (recolored_rooted _ _ R (or_intror Em)).
  - destruct (hk_cell _ _ _ _ _ HH c w Hc) as (p & -> & [Hok _ _]). apply roots_encode in Hr as [Em _]; [|done].
    destruct (co_links _ _ HC c p) as (p' & [Hp' _] & R); [done|by left|]. by rewrite (recolored_rooted _ _ R (or_introl Em)) in Hp'.
Qed.
Lemma cycle_root_links a : root_links (g_cells s') a = root_links (g_cells s) a.
Proof.
  unfold root_links. do 2 f_equal. apply map_eq. intros c. apply option_eq. intros w. rewrite !map_lookup_filter_Some. cbn [snd].
  split; intros [Hc Hr]; (split; [|done]); by apply (cycle_rooted c w a Hr).
Qed.
Lemma cycle_heap : heap_ok (flip W) [] no_extra (g_objs s') (g_cells s').
Proof.
  assert (Hlive : forall a, is_Some (g_objs s' !! a) -> is_Some (g_objs s !! a)).
  { intros a [o' Ho']. destruct (co_same _ _ HC a o' Ho') as (o & Ho & _). by eexists. }
  constructor.
  - intros a Ha. apply (hk_addr _ _ _ _ _ HH). auto.
  - intros a o' Ho'. destruct (co_same _ _ HC a o' Ho') as (o & Ho & _ & Erc & _). destruct (hk_hdr _ _ _ _ _ HH a o Ho) as (h & Hh & Eh & _ & Er).
    destruct (wf_hdr _ (rs_wf _ _ _ _ HR) a o' Ho') as (h' & Hh' & Eh'). exists h'. split; [done|]. split; [done|].
    pose proof (rs_white _ _ _ _ HR a o' Ho') as Em. rewrite Eh', ObjMeta.encode_marked in Em by done. split; [done|].
    rewrite Eh', Eh, !ObjMeta.encode_root_count in Erc by done. by rewrite Erc, Er, cycle_root_links.
  - apply (ow_nodup _ (rs_owned _ _ _ _ HR)).
  - apply (ow_disj _ (rs_owned _ _ _ _ HR)).
  - intros c (a & o & Ho & Hc). destruct (ow_link _ (rs_owned _ _ _ _ HR) a o c Ho Hc) as (w & Hw & _). by eexists.
  - intros c w' Hc. destruct (cycle_words c w' Hc) as (p' & -> & Hp'). exists p'. split; [done|].
    destruct (cycle_origin c p' Hp') as (p & Hp & R & Hck). split; [apply Hp'| |].
    + intros Hn. destruct (rs_cells _ _ _ _ HR c p' Hp') as [Em|(a & o & Ho & Hc')].
      * pose proof (recolored_rooted _ _ R (or_intror Em)). subst p'. apply (co_objs _ _ HC). by apply (rooted_link_kept W [] s c).
      * destruct (wf_link _ (rs_wf _ _ _ _ HR) a o c Ho Hc') as (q & col & Hq & [Hqok Ht] & _).
        assert (q = p') as -> by (eapply holds_inj; [split; [exact Hq|exact Hqok]|exact Hp']). auto.
    + destruct (rs_cells _ _ _ _ HR c p' Hp') as [Em|(a & o & Ho & Hc')].
      * left. split; [done|]. intros (a & o & Ho & Hc'). pose proof (rs_links _ _ _ _ HR a o c p' Ho Hc' Hp'). congruence.
      * right. split; [by apply (rs_links _ _ _ _ HR a o c)|]. split; [by exists a, o|apply not_elem_of_nil].
Qed.
End cycle.

(** A collection cycle keeps all of it. *)
Lemma at_rest_cycle fuel W t l s wt : no_retry -> at_rest W t l s -> 0 <= t -> t + 3 < 2 ^ 60 -> (rounds W s < fuel)%nat ->
  exists s', run (collect_cycle fuel l wt) s = Ok (tt, s') /\ at_rest (flip W) (t + 3) l s' /\ collected s s' /\ untouched s s'.
Proof.
  intros Hnr [HR HH HG [M1 M2 M3]] H0 H3 Hf. destruct (yields_cycle fuel W t l s HR H0 H3 Hf wt Hnr) as ([] & s' & E & HR' & HC).
  pose proof (cycle_untouched _ _ _ _ _ _ E) as HU. exists s'. split; [done|]. split; [|done]. constructor.
  - done.
  - by apply (cycle_heap W (t + 3) l s s').
  - by rewrite (ut_reg _ _ _ _ HU).
  - constructor; [done|..].
    + intros k Hk. destruct (M2 k Hk) as (nd & held & Hnd & Hu & Hz). destruct (untouched_node s s' k nd HU Hnd Hu) as (nd' & Hnd' & Eu & E1 & E2 & E3).
      exists nd', held. split; [done|]. split; [unfold is_using in *; by rewrite Eu|]. eapply hz_inv_same; [by split|done].
    + intros k nd' Hk Hks. destruct (ut_slot _ _ _ _ HU k nd' Hk) as [Hs _]. eapply hz_inv_same; [exact Hs|]. unfold base.
      destruct (nodes (g_locals s) !! k) as [nd|] eqn:Hnd; [by apply (M3 k nd)|apply hz_inv_default].
Qed.
End at_rest.
