(* ===== verification/Memory.v ===== *)
(** * The memory a program of the crate sees

    The contract of the crate towards the code that uses it: a heap of objects with payloads
    and links, links that hold a pointer and a tag, hazard pointers, and nothing else: no root
    counts, no colours, no phases.  Every operation is an atomic change of that heap, a
    collection takes away what cannot be reached, and an object that can be reached stays. *)
From S2P Require Import Prelude Prog Epoch Meta Slots Registry State Heap Participant Guards Pointers Collector.
#[local] Open Scope Z_scope.
#[local] Open Scope prog_scope.

Section memory.
Context {EX : Extern} {V : Type}.

Record aobj := mkAobj { ao_type : nat; ao_size : Z; ao_val : V; ao_links : list cell }.
Record memory := mkMem {
  m_objs : gmap Z aobj;
  m_links : gmap cell (WithTag (option Z));  (** every [AtomicSharedOption], [AtomicShared] and [Shared] *)
  m_types : gset nat;  (** the registered types *)
  m_hazards : gmap nat (gmap nat Z)  (** by participant, the hazard pointers it holds *)
}.
Implicit Types (m : memory) (c : cell) (a : Z) (v : option Z).
Definition set_m_objs f m : memory := mkMem (f (m_objs m)) (m_links m) (m_types m) (m_hazards m).
Definition set_m_links f m : memory := mkMem (m_objs m) (f (m_links m)) (m_types m) (m_hazards m).
Definition set_m_types f m : memory := mkMem (m_objs m) (m_links m) (f (m_types m)) (m_hazards m).
Definition set_m_hazards f m : memory := mkMem (m_objs m) (m_links m) (m_types m) (f (m_hazards m)).

Definition tag_bits (tag : Z) : Z := tag mod 2 ^ align_log.
Definition object_of (it : item V) : aobj := mkAobj (it_type it) (it_size it) (it_val it) (it_links it).
Definition in_object m c : Prop := exists a o, m_objs m !! a = Some o /\ c ∈ ao_links o.

(** ** Operations *)
(** What a thread can do with a guard. *)
Inductive command :=
  | CLoad (c : cell)  (** [AtomicSharedOption::load_with_tag] *)
  | CSwap (c : cell) (new : option Z) (tag : Z)  (** [swap_with_tag] *)
  | CCas (c : cell) (current new : WithTag (option Z))  (** [compare_exchange_with_tag] *)
  | CTagOr (c : cell) (tag : Z)  (** [fetch_tag_or] *)
  | CTagXor (c : cell) (tag : Z)  (** [fetch_tag_xor] *)
  | CNone (tag : Z)  (** [none_with_tag] *)
  | CNew (it : item V)  (** [Local::new] *)
  | CSome (it : item V) (tag : Z)  (** [some_with_tag] *)
  | CClone (c : cell)  (** [Shared::clone] *)
  | CShared (a : Z)  (** [Local::as_shared] *)
  | CDrop (c : cell)  (** the drop of a link the program owns *)
  | CDeref (a : Z)  (** [Local::deref] *)
  | CProtect (T : nat) (a : Z)  (** [Local::protect] with a handle *)
  | CRelease (hp : HazardPointer)  (** the drop of such a [Local] *)
  | CHelp  (** [Guard::help_collect] *)
  | CRepin  (** [Guard::repin] *)
  | CStore (c : cell) (new : option Z) (tag : Z)  (** [store_with_tag] *)
  | CWeak (spurious : bool) (c : cell) (current new : WithTag (option Z))  (** [compare_exchange_weak_with_tag] *)
  | CLoadA (c : cell)  (** [AtomicShared::load_with_tag] *)
  | CSwapA (c : cell) (new tag : Z)  (** [AtomicShared::swap_with_tag] *)
  | CCasA (c : cell) (current new : WithTag Z)  (** [AtomicShared::compare_exchange_with_tag] *)
  | CAsLocal (c : cell)  (** [Shared::as_local] *)
  | CDerefS (c : cell).  (** [Shared::deref] *)
Inductive answer :=
  | AUnit
  | AView (v : WithTag (option Z))
  | ACas (r : CasResult (WithTag (option Z)))
  | ACell (c : cell)
  | AAddr (a : Z)
  | AVal (x : V)
  | ARef (a : Z) (hp : HazardPointer)  (** a [Local] with the hazard pointer that protects it *)
  | ABool (b : bool)  (** what a section of the program finds out *)
  | ASpin.  (** a loop of the program has run out of fuel *)

Definition opt_tag (v : WithTag Z) : WithTag (option Z) := (Some v.1, v.2).
(** The crate's operations. *)
Definition exec (fuel : nat) (g : guard) (x : command) : prog (gstate V) answer :=
  match x with
  | CLoad c => v <- load_with_tag c g ; Ret (AView v)
  | CSwap c new tag => v <- swap_with_tag fuel c new tag g ; Ret (AView v)
  | CCas c current new => r <- compare_exchange_with_tag fuel c current new g ; Ret (ACas r)
  | CTagOr c tag => v <- fetch_tag_or c tag g ; Ret (AView v)
  | CTagXor c tag => v <- fetch_tag_xor c tag g ; Ret (AView v)
  | CNone tag => c <- none_with_tag tag ; Ret (ACell c)
  | CNew it => a <- local_new fuel it g ; Ret (AAddr a)
  | CSome it tag => c <- some_with_tag fuel it tag g ; Ret (ACell c)
  | CClone c => c' <- shared_clone c ; Ret (ACell c')
  | CShared a => c <- local_as_shared a ; Ret (ACell c)
  | CDrop c => drop_link fuel (gd_local g) c ;; Ret AUnit
  | CDeref a => x <- local_deref a ; Ret (AVal x)
  | CProtect T a => x <- local_protect T a (gd_local g) ; Ret (ARef x.1 x.2)
  | CRelease hp => hp_drop hp ;; Ret AUnit
  | CHelp => guard_help_collect fuel g ;; Ret AUnit
  | CRepin => guard_repin fuel g ;; Ret AUnit
  | CStore c new tag => store_with_tag fuel c new tag g ;; Ret AUnit
  | CWeak spurious c current new => r <- compare_exchange_weak_with_tag fuel spurious c current new g ; Ret (ACas r)
  | CLoadA c => v <- as_load_with_tag c g ; Ret (AView (opt_tag v))
  | CSwapA c new tag => v <- as_swap_with_tag fuel c new tag g ; Ret (AView (opt_tag v))
  | CCasA c current new => r <- as_compare_exchange_with_tag fuel c current new g ; Ret (ACas (map_cas opt_tag r))
  | CAsLocal c => a <- shared_as_local c g ; Ret (AAddr a)
  | CDerefS c => x <- shared_deref c ; Ret (AVal x)
  end.

(** What they do to the memory, and answer, for the thread of participant [k]. *)
Definition put_link c x m : memory := set_m_links <[c := x]> m.
Inductive astep (k : nat) m : command -> answer -> memory -> Prop :=
  | ALoad c x : m_links m !! c = Some x -> astep k m (CLoad c) (AView x) m
  | ASwap c x v t : m_links m !! c = Some x -> astep k m (CSwap c v t) (AView x) (put_link c (v, tag_bits t) m)
  | ACasOk c cur v t : m_links m !! c = Some (cur.1, tag_bits cur.2) ->
      astep k m (CCas c cur (v, t)) (ACas (inl (cur.1, tag_bits cur.2))) (put_link c (v, tag_bits t) m)
  | ACasFail c x cur new : m_links m !! c = Some x -> x <> (cur.1, tag_bits cur.2) -> astep k m (CCas c cur new) (ACas (inr x)) m
  | ATagOr c v t t' : m_links m !! c = Some (v, t) -> astep k m (CTagOr c t') (AView (v, t)) (put_link c (v, Z.lor t (tag_bits t')) m)
  | ATagXor c v t t' : m_links m !! c = Some (v, t) -> astep k m (CTagXor c t') (AView (v, t)) (put_link c (v, Z.lxor t (tag_bits t')) m)
  | ANone c t : m_links m !! c = None -> astep k m (CNone t) (ACell c) (put_link c (None, tag_bits t) m)
  | ANew a it : m_objs m !! a = None -> astep k m (CNew it) (AAddr a)
      (set_m_objs <[a := object_of it]> (set_m_types (union {[it_type it]}) m))
  | ASome a c it t : m_objs m !! a = None -> m_links m !! c = None -> astep k m (CSome it t) (ACell c)
      (put_link c (Some a, tag_bits t) (set_m_objs <[a := object_of it]> (set_m_types (union {[it_type it]}) m)))
  | AClone c c' x : m_links m !! c = Some x -> m_links m !! c' = None -> astep k m (CClone c) (ACell c') (put_link c' x m)
  | AShared a c : m_links m !! c = None -> astep k m (CShared a) (ACell c) (put_link c (Some a, 0) m)
  | ADrop c : astep k m (CDrop c) AUnit (set_m_links (delete c) m)
  | ADeref a o : m_objs m !! a = Some o -> astep k m (CDeref a) (AVal (ao_val o)) m
  | AProtect T a h hz : m_hazards m !! k = Some hz -> hz !! h = None ->
      astep k m (CProtect T a) (ARef a (mkHP h k)) (set_m_hazards <[k := <[h := a]> hz]> m)
  | ARelease h hz : m_hazards m !! k = Some hz ->
      astep k m (CRelease (mkHP h k)) AUnit (set_m_hazards <[k := delete h hz]> m)
  | AHelp : astep k m CHelp AUnit m
  | ARepin : astep k m CRepin AUnit m
  | AStore c x v t : m_links m !! c = Some x -> astep k m (CStore c v t) AUnit (put_link c (v, tag_bits t) m)
  | AWeakOk c cur v t : m_links m !! c = Some (cur.1, tag_bits cur.2) ->
      astep k m (CWeak false c cur (v, t)) (ACas (inl (cur.1, tag_bits cur.2))) (put_link c (v, tag_bits t) m)
  | AWeakFail spurious c x cur new : m_links m !! c = Some x -> spurious = true \/ x <> (cur.1, tag_bits cur.2) ->
      astep k m (CWeak spurious c cur new) (ACas (inr x)) m
  | ALoadA c a t : m_links m !! c = Some (Some a, t) -> astep k m (CLoadA c) (AView (Some a, t)) m
  | ASwapA c a t b t' : m_links m !! c = Some (Some a, t) ->
      astep k m (CSwapA c b t') (AView (Some a, t)) (put_link c (Some b, tag_bits t') m)
  | ACasAOk c cur b t : m_links m !! c = Some (Some cur.1, tag_bits cur.2) ->
      astep k m (CCasA c cur (b, t)) (ACas (inl (Some cur.1, tag_bits cur.2))) (put_link c (Some b, tag_bits t) m)
  | ACasAFail c a t cur new : m_links m !! c = Some (Some a, t) -> (a, t) <> (cur.1, tag_bits cur.2) ->
      astep k m (CCasA c cur new) (ACas (inr (Some a, t))) m
  | AAsLocal c a t : m_links m !! c = Some (Some a, t) -> astep k m (CAsLocal c) (AAddr a) m
  | ADerefS c a t o : m_links m !! c = Some (Some a, t) -> m_objs m !! a = Some o -> astep k m (CDerefS c) (AVal (ao_val o)) m.

(** What an answer tells. *)
Lemma load_inv k m c y m' : astep k m (CLoad c) y m' -> exists x, y = AView x /\ m_links m !! c = Some x /\ m' = m.
Proof. inversion 1; subst. by eexists. Qed.
Lemma swap_inv k m c v t y m' : astep k m (CSwap c v t) y m' ->
  exists x, y = AView x /\ m_links m !! c = Some x /\ m' = put_link c (v, tag_bits t) m.
Proof. inversion 1; subst. by eexists. Qed.
Lemma cas_inv k m c cur v t y m' : astep k m (CCas c cur (v, t)) y m' -> exists x, m_links m !! c = Some x /\
  ((x = (cur.1, tag_bits cur.2) /\ y = ACas (inl x) /\ m' = put_link c (v, tag_bits t) m) \/
   (x <> (cur.1, tag_bits cur.2) /\ y = ACas (inr x) /\ m' = m)).
Proof. inversion 1; subst; eexists; (split; [done|]); [by left|by right]. Qed.
Lemma store_inv k m c v t y m' : astep k m (CStore c v t) y m' ->
  y = AUnit /\ is_Some (m_links m !! c) /\ m' = put_link c (v, tag_bits t) m.
Proof. inversion 1; subst. split; [done|]. by split; [eexists|]. Qed.
Lemma none_inv k m t y m' : astep k m (CNone t) y m' -> exists c, y = ACell c /\ m_links m !! c = None /\ m' = put_link c (None, tag_bits t) m.
Proof. inversion 1; subst. by eexists. Qed.
Lemma new_inv k m it y m' : astep k m (CNew it) y m' -> exists a, y = AAddr a /\ m_objs m !! a = None /\
  m' = set_m_objs <[a := object_of it]> (set_m_types (union {[it_type it]}) m).
Proof. inversion 1; subst. by eexists. Qed.
Lemma tag_bits_0 : tag_bits 0 = 0.
Proof. apply Zmod_0_l. Qed.
Lemma protect_inv k m T a y m' : astep k m (CProtect T a) y m' -> exists h hz, y = ARef a (mkHP h k) /\
  m_hazards m !! k = Some hz /\ hz !! h = None /\ m' = set_m_hazards <[k := <[h := a]> hz]> m.
Proof. inversion 1; subst. by eexists _, _. Qed.
Lemma deref_inv k m a y m' : astep k m (CDeref a) y m' -> exists o, m_objs m !! a = Some o /\ y = AVal (ao_val o) /\ m' = m.
Proof. inversion 1; subst. by eexists. Qed.
Lemma release_inv k m hp y m' : astep k m (CRelease hp) y m' -> exists hz, m_hazards m !! k = Some hz /\
  y = AUnit /\ m' = set_m_hazards <[k := delete (hp_hid hp) hz]> m.
Proof. inversion 1; subst. by eexists. Qed.

(** What the type system of Rust, and the capacities of the crate, allow. *)
Definition live m v : Prop := match v with Some a => is_Some (m_objs m !! a) | None => True end.
Definition spare_roots m : Prop := Z.of_nat (size (m_links m)) + 1 < 2 ^ 55.
(** The sums [hash + i] of the type registry do not overflow for the type. *)
Definition hash_fits (T : nat) : Prop := type_hash T + 256 <= wmod.
Definition can_alloc m (it : item V) : Prop :=
  NoDup (it_links it) /\ (forall c, c ∈ it_links it -> is_Some (m_links m !! c) /\ ~ in_object m c) /\
  (it_type it ∈ m_types m \/ (size (m_types m) < capacity)%nat) /\ hash_fits (it_type it) /\ is_Some (alloc_addr (dom (m_objs m))).
Definition points_at m c : Prop := exists a t, m_links m !! c = Some (Some a, t).
Definition allowed (k : nat) m (x : command) : Prop :=
  match x with
  | CLoad c | CTagOr c _ | CTagXor c _ => is_Some (m_links m !! c)
  | CSwap c v _ => is_Some (m_links m !! c) /\ live m v /\ spare_roots m
  | CStore c v _ => is_Some (m_links m !! c) /\ live m v /\ spare_roots m
  | CCas c cur new | CWeak _ c cur new => is_Some (m_links m !! c) /\ live m cur.1 /\ live m new.1 /\ spare_roots m
  | CLoadA c | CAsLocal c | CDerefS c => points_at m c
  | CSwapA c b _ => points_at m c /\ live m (Some b) /\ spare_roots m
  | CCasA c cur new => points_at m c /\ live m (Some cur.1) /\ live m (Some new.1) /\ spare_roots m
  | CNone _ => spare_roots m
  | CHelp | CRepin => True
  | CNew it => can_alloc m it
  | CSome it _ => can_alloc m it /\ spare_roots m
  | CClone c => points_at m c /\ spare_roots m
  | CShared a => live m (Some a) /\ spare_roots m
  | CDrop c => is_Some (m_links m !! c) /\ ~ in_object m c
  | CDeref a => live m (Some a)
  | CProtect T a => exists o, m_objs m !! a = Some o /\ ao_type o = T
  | CRelease hp => hp_local hp = k /\ exists hz, m_hazards m !! k = Some hz /\ is_Some (hz !! hp_hid hp)
  end.

(** ** Collections *)
(** A root: what a link outside the objects leads to, or a hazard pointer. *)
Definition aroot m a : Prop := is_Some (m_objs m !! a) /\
  ((exists c t, m_links m !! c = Some (Some a, t) /\ ~ in_object m c) \/
   exists k hz h, m_hazards m !! k = Some hz /\ hz !! h = Some a).
Definition aedge m a b : Prop := exists o c t,
  m_objs m !! a = Some o /\ c ∈ ao_links o /\ m_links m !! c = Some (Some b, t).
Definition reachable m a : Prop := exists q, aroot m q /\ rtc (aedge m) q a.
(** A collection keeps the objects that can be reached, as they are, and the links outside of
    objects; the rest is gone. *)
Record acollect m m' : Prop := {
  ac_objs : forall a o, m_objs m' !! a = Some o <-> m_objs m !! a = Some o /\ reachable m a;
  ac_links : forall c x, m_links m' !! c = Some x <->
    m_links m !! c = Some x /\ forall a o, m_objs m !! a = Some o -> c ∈ ao_links o -> reachable m a;
  ac_types : m_types m' = m_types m;
  ac_hazards : m_hazards m' = m_hazards m
}.

(** ** Programs and their runs *)
(** A critical section: what the thread does next depends on the answers; it ends with a result. *)
Inductive client := Done (y : answer) | Do (x : command) (next : answer -> client).
Fixpoint interp (fuel : nat) (g : guard) (p : client) : prog (gstate V) answer :=
  match p with Done y => Ret y | Do x next => y <- exec fuel g x ; interp fuel g (next y) end.
Inductive asection (k : nat) : client -> memory -> answer -> memory -> Prop :=
  | ADone y m : asection k (Done y) m y m
  | ADo x next m y m1 z m2 : astep k m x y m1 -> asection k (next y) m1 z m2 -> asection k (Do x next) m z m2.
(** Whatever the memory answers, the section does what it may. *)
Fixpoint sensible (k : nat) (p : client) m : Prop :=
  match p with
  | Done _ => True
  | Do x next => allowed k m x /\ forall y m', astep k m x y m' -> sensible k (next y) m'
  end.
(** A section on its own: [pin], the section, the drop of the guard. *)
Definition critical (fuel k : nat) (p : client) : prog (gstate V) answer :=
  g <- pin fuel k ; y <- interp fuel g p ; guard_drop fuel g ;; Ret y.

(** ** Threads that interleave *)
(** A thread of the program is its participant, and the guard it holds with what is left of
    the section it is in, [nat * option (guard * client)]; [ths] has them by their numbers. *)
Inductive event :=
  | Join (i : nat)  (** thread [i] registers *)
  | Leave (i : nat)  (** it gives its participant up *)
  | Begin (i : nat) (p : client)  (** it pins, to do [p] *)
  | Step (i : nat)  (** its next operation *)
  | End (i : nat)  (** it is done and drops its guard *)
  | Collect (worker_thread : nat -> nat).  (** one cycle of the collector *)
(** What happens next may depend on the answers. *)
Inductive session := Quit | Next (e : event) (next : answer -> session).

Definition play_event (fuel l : nat) (e : event) (ths : gmap nat (nat * option (guard * client))) :
    prog (gstate V) (answer * gmap nat (nat * option (guard * client))) :=
  match e with
  | Join i => k <- register fuel i ; Ret (AUnit, <[i := (k, None)]> ths)
  | Leave i =>
      match ths !! i with
      | Some (k, None) => unregister i k ;; Ret (AUnit, delete i ths)
      | _ => Ret (AUnit, ths)
      end
  | Begin i p =>
      match ths !! i with
      | Some (k, None) => g <- pin fuel k ; Ret (AUnit, <[i := (k, Some (g, p))]> ths)
      | _ => Ret (AUnit, ths)
      end
  | Step i =>
      match ths !! i with
      | Some (k, Some (g, Do x next)) => y <- exec fuel g x ; Ret (y, <[i := (k, Some (g, next y))]> ths)
      | _ => Ret (AUnit, ths)
      end
  | End i =>
      match ths !! i with
      | Some (k, Some (g, Done y)) => guard_drop fuel g ;; Ret (y, <[i := (k, None)]> ths)
      | _ => Ret (AUnit, ths)
      end
  | Collect wt => Collector.collect_cycle fuel l wt ;; Ret (AUnit, ths)
  end.
(** The run of a session, with its history. *)
Definition history : Type := list (event * answer).
Fixpoint play (fuel l : nat) (se : session) (ths : gmap nat (nat * option (guard * client))) :
    prog (gstate V) (history * gmap nat (nat * option (guard * client))) :=
  match se with
  | Quit => Ret ([], ths)
  | Next e next => x <- play_event fuel l e ths ; r <- play fuel l (next x.1) x.2 ; Ret ((e, x.1) :: r.1, r.2)
  end.

(** The same threads on the memory: every operation is one atomic step of it. *)
Definition aconf : Type := gmap nat (nat * option client) * memory.
Inductive aevent : event -> answer -> aconf -> aconf -> Prop :=
  | EJoin i k ths m : m_hazards m !! k = None ->
      aevent (Join i) AUnit (ths, m) (<[i := (k, None)]> ths, set_m_hazards <[k := ∅]> m)
  | ELeave i k ths m : ths !! i = Some (k, None) ->
      aevent (Leave i) AUnit (ths, m) (delete i ths, set_m_hazards (delete k) m)
  | EBegin i k p ths m : ths !! i = Some (k, None) ->
      aevent (Begin i p) AUnit (ths, m) (<[i := (k, Some p)]> ths, m)
  | EDo i k x next y ths m m' : ths !! i = Some (k, Some (Do x next)) -> astep k m x y m' ->
      aevent (Step i) y (ths, m) (<[i := (k, Some (next y))]> ths, m')
  | EEnd i k y ths m : ths !! i = Some (k, Some (Done y)) ->
      aevent (End i) y (ths, m) (<[i := (k, None)]> ths, m)
  | ECollect wt ths m m' : acollect m m' -> aevent (Collect wt) AUnit (ths, m) (ths, m').
Inductive aplay : session -> aconf -> history -> aconf -> Prop :=
  | PQuit x : aplay Quit x [] x
  | PNext e next y x x1 h x2 : aevent e y x x1 -> aplay (next y) x1 h x2 -> aplay (Next e next) x ((e, y) :: h) x2.
(** What the threads may do: a thread has at most one section open and does what it may, it
    leaves without hazard pointers, and a cycle of the collector runs when no section is open. *)
Definition permits (e : event) (x : aconf) : Prop :=
  match e with
  | Join i => x.1 !! i = None
  | Leave i => exists k, x.1 !! i = Some (k, None) /\ m_hazards x.2 !! k = Some ∅
  | Begin i _ => exists k, x.1 !! i = Some (k, None)
  | Step i => exists k y next, x.1 !! i = Some (k, Some (Do y next)) /\ allowed k x.2 y
  | End i => exists k y, x.1 !! i = Some (k, Some (Done y))
  | Collect _ => forall i th, x.1 !! i = Some th -> th.2 = None
  end.
(** Whatever the memory does and answers. *)
Fixpoint permitted (se : session) (x : aconf) : Prop :=
  match se with
  | Quit => True
  | Next e next => permits e x /\ forall y x', aevent e y x x' -> permitted (next y) x'
  end.

(** ** Showing that a session is permitted *)
Section permitted.
Context (ths : gmap nat (nat * option client)) m (i k : nat) (next : answer -> session).
Lemma permitted_join : ths !! i = None ->
  (forall j, m_hazards m !! j = None -> permitted (next AUnit) (<[i := (j, None)]> ths, set_m_hazards <[j := ∅]> m)) ->
  permitted (Next (Join i) next) (ths, m).
Proof. intros Hi Hn. split; [done|]. intros y x' Hs. inversion Hs; subst. by apply Hn. Qed.
Lemma permitted_leave : ths !! i = Some (k, None) -> m_hazards m !! k = Some ∅ ->
  permitted (next AUnit) (delete i ths, set_m_hazards (delete k) m) -> permitted (Next (Leave i) next) (ths, m).
Proof. intros Hi Hk Hn. split; [by exists k|]. intros y x' Hs. inversion Hs; simplify_eq. done. Qed.
Lemma permitted_begin p : ths !! i = Some (k, None) -> permitted (next AUnit) (<[i := (k, Some p)]> ths, m) ->
  permitted (Next (Begin i p) next) (ths, m).
Proof. intros Hi Hn. split; [by exists k|]. intros y x' Hs. inversion Hs; simplify_eq. done. Qed.
Lemma permitted_end z : ths !! i = Some (k, Some (Done z)) -> permitted (next z) (<[i := (k, None)]> ths, m) ->
  permitted (Next (End i) next) (ths, m).
Proof. intros Hi Hn. split; [by exists k, z|]. intros y x' Hs. inversion Hs; simplify_eq. done. Qed.
Lemma permitted_do x cont : ths !! i = Some (k, Some (Do x cont)) -> allowed k m x ->
  (forall y m', astep k m x y m' -> permitted (next y) (<[i := (k, Some (cont y))]> ths, m')) -> permitted (Next (Step i) next) (ths, m).
Proof. intros Hi Hx Hn. split; [by exists k, x, cont|]. intros y x' Hs. inversion Hs; simplify_eq. by apply Hn. Qed.
Lemma permitted_collect wt : (forall j th, ths !! j = Some th -> th.2 = None) ->
  (forall m', acollect m m' -> permitted (next AUnit) (ths, m')) -> permitted (Next (Collect wt) next) (ths, m).
Proof. intros Hi Hn. split; [done|]. intros y x' Hs. inversion Hs; subst. by apply Hn. Qed.
End permitted.
End memory.
