(* ===== verification/Mutator.v ===== *)
(** * Critical sections in a Normal phase

    A thread pins its participant, works on the heap through its guard, and drops the guard
    ([src/guards.rs], [src/pointers.rs]).  Any number of threads may be between the two at once:
    [opened gs] is what holds while the participants [gs] are, the heap is at rest but for their
    guards, and [working] is the same for the thread of participant [k], one of them.  Every operation of a guard returns and keeps it. *)
From S2P Require Import Prelude Prog Epoch Meta Slots Registry State Heap Marking Participant Guards.
From S2P Require Import Pointers Barriers Collector Total Tasks Tracing Sweep TraceInv Roots Cycle Frame Rest Memory.
#[local] Open Scope Z_scope.
#[local] Open Scope prog_scope.

Section mutator.
Context {EX : Extern} {V : Type} (ks gs : gset nat) (W : Color) (t : Z) (l k : nat).
Implicit Types (s : gstate V) (r : local).
#[local] Abbreviation heap_ok := (heap_ok W [] no_extra).

(** ** What is left of [resting] when the heap is well formed *)
(** The books of the collector in a Normal phase: every object is in one batch, but the
    objects [pend]. *)
Record books (pend : list Z) s : Prop := {
  bk_epoch : g_epoch s = ep N W t;
  bk_fresh : shards_ok (g_fresh s);
  bk_marked : shards_ok (g_marked s);
  bk_fresh_black : batches (g_fresh s) (flip W) = [];
  bk_no_marked : forall c, batches (g_marked s) c = [];
  bk_nodup : NoDup (pend ++ batched W s);
  bk_objs : forall a, is_Some (g_objs s !! a) <-> a ∈ pend ++ batched W s;
  bk_tasks : all_tasks s = [];
  bk_parked : forall j nd, nodes (g_locals s) !! j = Some nd -> parked W t nd;
  bk_self : self l (nodes (g_locals s));
  bk_threads : 1 <= g_threads s <= Z.of_nat OBJ_BATCHES_SHARD
}.
Lemma resting_books s : resting W t l s -> books [] s.
Proof. by intros []. Qed.
Lemma heap_resting s : heap_ok (g_objs s) (g_cells s) -> books [] s -> resting W t l s.
Proof.
  intros H []. assert (Hhold : forall c p, holds_ptr s c p -> cell_ok W [] (g_objs s) c p) by (intros c p; by apply (heap_holds W [] no_extra)).
  assert (Hcell : forall c, owned_link (g_objs s) c -> exists p, holds_ptr s c p /\ cell_ok W [] (g_objs s) c p /\ ManPtr.p_meta p = Unrooted W).
  { intros c Hc. destruct (hk_link _ _ _ _ _ H c Hc) as [w Hw]. destruct (hk_cell _ _ _ _ _ H c w Hw) as (p & -> & Hp).
    exists p. split; [split; [done|apply Hp]|]. split; [done|]. destruct (ck_meta _ _ _ _ _ Hp) as [[_ Hn]|[Em _]]; [|done].
    by apply Hn, not_elem_of_nil in Hc. }
  constructor; try done.
  - constructor; [intros a o Ho; destruct (hk_hdr _ _ _ _ _ H a o Ho) as (h & Hh & Eh & _); by exists h|].
    intros a o c Ho Hc. destruct (Hcell c) as (p & Hp & Hck & Em); [by exists a, o|]. apply link_ok_holds. exists p, W.
    split; [done|]. split; [done|]. apply Hck.
  - constructor.
    + intros a o c Ho Hc. destruct (Hcell c) as (p & Hp & Hck & Em); [by exists a, o|]. exists (ManPtr.encode p). split; [apply Hp|].
      rewrite ManPtr.encode_meta by apply Hp. by rewrite Em.
    + apply (hk_nodup _ _ _ _ _ H).
    + apply (hk_disj _ _ _ _ _ H).
  - intros a o Ho. destruct (hk_hdr _ _ _ _ _ H a o Ho) as (h & Hh & -> & Ec & _). by rewrite ObjMeta.encode_marked.
  - intros a o c p Ho Hc Hp. destruct (Hcell c) as (q & Hq & _ & Em); [by exists a, o|]. by rewrite (holds_inj _ _ _ _ Hp Hq).
  - intros c p Hp. destruct (ck_meta _ _ _ _ _ (Hhold c p Hp)) as [[? _]|(_ & ? & _)]; [by left|by right].
  - by eapply hk_null.
Qed.

(** ** The pinned participants *)
(** The state without the guards of [gs]. *)
Definition unguard (j : nat) (nd : node local) : node local := if decide (j ∈ gs) then upd_item unpin_rec nd else nd.
Definition unguarded s : gstate V := set_g_locals (fun q => with_nodes (imap unguard (nodes q)) q) s.
Lemma nodes_unguarded s j : nodes (g_locals (unguarded s)) !! j = unguard j <$> nodes (g_locals s) !! j.
Proof. apply list_lookup_imap. Qed.
Lemma batched_ext s s' : g_fresh s' = g_fresh s -> (forall j, (fun nd => l_objs (n_item nd)) <$> nodes (g_locals s') !! j =
  (fun nd => l_objs (n_item nd)) <$> nodes (g_locals s) !! j) -> batched W s' = batched W s.
Proof.
  intros Ef Hl. unfold batched, heap_batches. rewrite Ef. do 4 f_equal. apply list_eq. intros j. rewrite !list_lookup_fmap.
  specialize (Hl j). destruct (nodes (g_locals s') !! j), (nodes (g_locals s) !! j); cbn in *; try done.
  injection Hl as Hl. f_equal. unfold local_batch. by rewrite Hl.
Qed.
Lemma batched_unguarded s : batched W (unguarded s) = batched W s.
Proof.
  apply batched_ext; [done|]. intros j. rewrite nodes_unguarded. destruct (nodes (g_locals s) !! j) as [nd|]; [|done].
  cbn. unfold unguard. by case_decide.
Qed.
(** A participant in a critical section. *)
Definition holds_guard s (j : nat) : Prop := j ∈ ks /\ exists nd, nodes (g_locals s) !! j = Some nd /\
  l_guard_count (n_item nd) = 1 /\ l_epoch (n_item nd) = pinned (ep N W t).
Record opened s : Prop := {
  op_range : 0 <= t < 2 ^ 60;
  op_guards : forall j, j ∈ gs -> holds_guard s j;
  op_rest : at_rest ks W t l (unguarded s)
}.
Record working_as (nd : node local) s : Prop := {
  wk_opened : opened s;
  wk_in : k ∈ gs;
  wk_node : nodes (g_locals s) !! k = Some nd
}.
Definition working s : Prop := exists nd, working_as nd s.
Lemma guard_node s nd : holds_guard s k -> nodes (g_locals s) !! k = Some nd ->
  k ∈ ks /\ l_guard_count (n_item nd) = 1 /\ l_epoch (n_item nd) = pinned (ep N W t).
Proof. intros (Hk & nd' & Hnd' & ?) Hnd. rewrite Hnd' in Hnd. by injection Hnd as <-. Qed.
Section working.
Context (nd : node local) s (H : working_as nd s).
Lemma wk_range : 0 <= t < 2 ^ 60.
Proof. apply (op_range _ (wk_opened _ _ H)). Qed.
Lemma wk_rest : at_rest ks W t l (unguarded s).
Proof. apply (op_rest _ (wk_opened _ _ H)). Qed.
Lemma wk_guard : k ∈ ks /\ l_guard_count (n_item nd) = 1 /\ l_epoch (n_item nd) = pinned (ep N W t).
Proof. apply (guard_node s); [apply (op_guards _ (wk_opened _ _ H)), (wk_in _ _ H)|apply (wk_node _ _ H)]. Qed.
Lemma wk_mine : k ∈ ks.
Proof. apply wk_guard. Qed.
Lemma wk_count : l_guard_count (n_item nd) = 1.
Proof. apply wk_guard. Qed.
Lemma wk_epoch : l_epoch (n_item nd) = pinned (ep N W t).
Proof. apply wk_guard. Qed.
End working.

(** The fields that say what a participant works on. *)
Record alike r r' : Prop := {
  al_count : l_guard_count r' = l_guard_count r;
  al_epoch : l_epoch r' = l_epoch r;
  al_tasks : l_tasks r' = l_tasks r;
  al_mt : l_mt_modified_ts r' = l_mt_modified_ts r;
  al_cached : l_cached r' = l_cached r
}.
#[export] Instance alike_preorder : PreOrder alike.
Proof. split; [done|]. intros r1 r2 r3 [] []. constructor; congruence. Qed.

(** The same in the middle of an allocation: [pend] is not in a batch yet, the links [X] are
    still rooted, and [E] counts the roots without a link. *)
Record building X (E : Z -> Z) (pend : list Z) (nd : node local) s : Prop := {
  bu_range : 0 <= t < 2 ^ 60;
  bu_guards : forall j, j ∈ gs -> holds_guard s j;
  bu_in : k ∈ gs;
  bu_node : nodes (g_locals s) !! k = Some nd;
  bu_books : books pend (unguarded s);
  bu_heap : Rest.heap_ok W X E (g_objs s) (g_cells s);
  bu_reg : complete type_hash (g_reg s);
  bu_mut : mutators ks l (unguarded s)
}.
Lemma working_building nd s : working_as nd s <-> building [] no_extra [] nd s.
Proof.
  split.
  - intros [[H1 H2 [R1 R2 R3 R4]] H3 H4]. constructor; try done. by apply resting_books.
  - intros []. constructor; try done. constructor; try done. constructor; try done. by apply heap_resting.
Qed.
Section building.
Context X E pend (nd : node local) s (H : building X E pend nd s).
Lemma bu_guard : k ∈ ks /\ l_guard_count (n_item nd) = 1 /\ l_epoch (n_item nd) = pinned (ep N W t).
Proof. apply (guard_node s); [apply (bu_guards _ _ _ _ _ H), (bu_in _ _ _ _ _ H)|apply (bu_node _ _ _ _ _ H)]. Qed.
Lemma bu_mine : k ∈ ks.
Proof. apply bu_guard. Qed.
Lemma bu_epoch : l_epoch (n_item nd) = pinned (ep N W t).
Proof. apply bu_guard. Qed.
Lemma bu_unguarded : nodes (g_locals (unguarded s)) !! k = Some (mkNode (n_using nd) (unpin_rec (n_item nd))).
Proof. rewrite nodes_unguarded, (bu_node _ _ _ _ _ H). cbn. f_equal. unfold unguard. by rewrite decide_True by apply (bu_in _ _ _ _ _ H). Qed.
End building.
(** The pinned participant, the heap, the batches and the registry change. *)
Lemma building_change X E pend X' E' pend' s s' nd r' held : building X E pend nd s -> alike (n_item nd) r' -> hz_inv r' held ->
  g_locals s' = g_locals (put_local k r' s) -> g_epoch s' = g_epoch s -> g_marked s' = g_marked s -> g_threads s' = g_threads s ->
  complete type_hash (g_reg s') -> Rest.heap_ok W X' E' (g_objs s') (g_cells s') ->
  length (l_objs r') = 2%nat -> (forall b, l_objs r' !! color_index (flip W) = Some b -> b_items b.1 = []) ->
  (forall b, b ∈ l_objs r' -> (0 < b_cap b.1)%nat) ->
  shards_ok (g_fresh s') -> batches (g_fresh s') (flip W) = [] -> NoDup (pend' ++ batched W s') ->
  (forall a, is_Some (g_objs s' !! a) <-> a ∈ pend' ++ batched W s') -> building X' E' pend' (mkNode (n_using nd) r') s'.
Proof.
  intros H [A1 A2 A3 A4 A5] Hz El Ee Em Et Hreg Hheap Ho1 Ho2 Ho3 Hf1 Hf2 Hb1 Hb2.
  pose proof (bu_guard _ _ _ _ _ H) as (Hk & H2 & H3). pose proof (bu_unguarded _ _ _ _ _ H) as Hat0. destruct H as [Ht Hg Hin H1 HB HH HG [M1 M2 M3]].
  assert (Hnd : nodes (g_locals s') !! k = Some (mkNode (n_using nd) r')) by by rewrite El, nodes_put, decide_True, H1 by done.
  assert (Hne : k <> l) by by intros ->.
  assert (Hother' : forall j, j <> k -> nodes (g_locals s') !! j = nodes (g_locals s) !! j) by (intros j Hj; by rewrite El, nodes_put, decide_False).
  set (s0 := unguarded s) in *. set (s1 := unguarded s').
  assert (Hat1 : nodes (g_locals s1) !! k = Some (mkNode (n_using nd) (unpin_rec r'))).
  { unfold s1. rewrite nodes_unguarded, Hnd. cbn. f_equal. unfold unguard. by rewrite decide_True. }
  assert (Hother : forall j, j <> k -> nodes (g_locals s1) !! j = nodes (g_locals s0) !! j).
  { intros j Hj. unfold s1, s0. by rewrite !nodes_unguarded, Hother'. }
  destruct (M2 k Hk) as (x & heldx & Hx & Hu & _). rewrite Hat0 in Hx. injection Hx as <-.
  pose proof (batched_unguarded s') as Eb. fold s1 in Eb.
  constructor; try done.
  - intros j Hj. destruct (decide (j = k)) as [->|Hjk]; [split; [done|]; eexists; split; [done|]; cbn; by rewrite A1, A2|].
    unfold holds_guard. rewrite Hother' by done. by apply Hg.
  - change (books pend' s1). constructor; rewrite ?Eb; try done.
    + transitivity (g_epoch s); [done|apply HB].
    + change (shards_ok (g_marked s')). rewrite Em. apply HB.
    + intros c. change (batches (g_marked s') c = []). rewrite Em. apply (bk_no_marked _ _ HB).
    + apply tasks_nil. intros j rj (ndj & Hj & ->)%fmap_Some. pose proof (proj1 (tasks_nil s0) (bk_tasks _ _ HB)) as Hts.
      destruct (decide (j = k)) as [->|Hjk].
      * rewrite Hat1 in Hj. injection Hj as <-. cbn. rewrite A3. apply (Hts k (unpin_rec (n_item nd))). unfold local_of. by rewrite Hat0.
      * rewrite Hother in Hj by done. apply (Hts j). unfold local_of. by rewrite Hj.
    + intros j ndj Hj. destruct (decide (j = k)) as [->|Hjk]; [|rewrite Hother in Hj by done; by apply (bk_parked _ _ HB j)].
      rewrite Hat1 in Hj. injection Hj as <-. destruct (bk_parked _ _ HB k _ Hat0) as [P1 P2 P3 P4 P5 P6 P7 P8]. cbn in *.
      constructor; cbn; rewrite ?A4, ?A5; try done. intros Hun. unfold is_using in Hu. cbn in Hu. by rewrite Hun in Hu.
    + destruct (bk_self _ _ HB) as (ndl & Hl & ?). exists ndl. by rewrite Hother.
    + change (1 <= g_threads s' <= Z.of_nat OBJ_BATCHES_SHARD). rewrite Et. apply HB.
  - change (mutators ks l s1). constructor; [done|..].
    + intros j Hj. destruct (decide (j = k)) as [->|Hjk]; [|rewrite Hother by done; auto].
      rewrite Hat1. eexists _, held. split; [done|]. split; [done|]. by destruct Hz.
    + intros j ndj Hj Hjk. assert (j <> k) by congruence. rewrite Hother in Hj by done. by apply (M3 j).
Qed.

(** ** What the program sees of a state *)
Definition shape_of (o : obj V) : aobj := mkAobj (o_type o) (o_size o) (o_val o) (o_links o).
(** The hazard slots in use by a hazard pointer. *)
Definition slots_held r : gmap nat Z := filter (fun ix => ix.1 ∉ l_hids r) (map_seq 0 (l_hazards r)).
Definition slots_of s (j : nat) : gmap nat Z := match local_of s j with Some r => slots_held r | None => ∅ end.
Definition types_of (reg : registry nat) : gset nat := list_to_set (omap (fmap type_id) (r_set reg)).
Definition visible s : memory := mkMem (shape_of <$> g_objs s) (as_local_with_tag <$> g_cells s) (types_of (g_reg s))
  (set_to_map (fun j => (j, slots_of s j)) ks).

Lemma slots_map_lookup s j : m_hazards (visible s) !! j =
  if decide (j ∈ ks) then Some (slots_of s j) else None.
Proof.
  apply option_eq. intros x. cbn. rewrite lookup_set_to_map by by intros ??? ?. destruct (decide (j ∈ ks)); naive_solver.
Qed.
(** Everything but the heap is as before for the program. *)
Lemma visible_eq s s' : (forall j, j ∈ ks -> slots_of s' j = slots_of s j) -> g_reg s' = g_reg s -> shape_of <$> g_objs s' = shape_of <$> g_objs s ->
  visible s' = set_m_links (fun _ => as_local_with_tag <$> g_cells s') (visible s).
Proof.
  intros Hs Er Eo. unfold visible, set_m_links. cbn. rewrite Er, Eo. f_equal. apply map_eq. intros j.
  change (m_hazards (visible s') !! j = m_hazards (visible s) !! j). rewrite !slots_map_lookup.
  destruct (decide (j ∈ ks)); [|done]. by rewrite Hs.
Qed.
Lemma slots_put s r r' j : local_of s k = Some r -> same_slots r r' -> slots_of (put_local k r' s) j = slots_of s j.
Proof.
  intros Hl (E1 & _ & E3). unfold slots_of. destruct (decide (j = k)) as [->|Hne].
  - rewrite local_of_put by by exists r. unfold slots_held. by rewrite Hl, E1, E3.
  - by rewrite local_of_put_ne.
Qed.
Lemma shape_moved d (objs objs' : gmap Z (obj V)) : moved d objs objs' -> shape_of <$> objs' = shape_of <$> objs.
Proof. intros H. apply map_eq. intros a. rewrite !lookup_fmap, (H a). by destruct (objs !! a) as [[]|]. Qed.

(** ** The participant of the guard *)
Lemma working_local nd s : working_as nd s -> local_of s k = Some (n_item nd).
Proof. intros H. unfold local_of. by rewrite (wk_node _ _ H). Qed.
Lemma working_reads nd s : working_as nd s -> phase_ok (n_item nd) /\ phase (l_epoch (n_item nd)) = Ok N /\ color (l_epoch (n_item nd)) = W /\
  g_epoch s = ep N W t /\ phase (g_epoch s) = Ok N.
Proof.
  intros H. pose proof (wk_range _ _ H) as Ht. destruct (proj1 (ep_reads N W t Ht)) as [E1 _ _ _]. destruct (proj2 (ep_reads N W t Ht)) as [F1 F2 _ _].
  pose proof (rs_epoch _ _ _ _ (ar_rest _ _ _ _ _ (wk_rest _ _ H))) as Ee. change (g_epoch s = ep N W t) in Ee.
  unfold phase_ok. rewrite (wk_epoch _ _ H), Ee. split; [by exists N|]. done.
Qed.
Lemma working_heap nd s : working_as nd s -> heap_ok (g_objs s) (g_cells s).
Proof. intros H. apply (ar_heap _ _ _ _ _ (wk_rest _ _ H)). Qed.
Lemma working_slots nd s : working_as nd s -> exists held, hz_inv (n_item nd) held.
Proof.
  intros H. destruct (mu_node _ _ _ (ar_mut _ _ _ _ _ (wk_rest _ _ H)) k (wk_mine _ _ H)) as (nd' & held & Hnd & _ & Hz).
  rewrite (bu_unguarded _ _ _ _ _ (proj1 (working_building _ _) H)) in Hnd. injection Hnd as <-.
  exists held. by destruct Hz.
Qed.
(** The record of the participant and the heap change, not the batches. *)
Lemma building_put X E pend X' E' s s' nd r' held : building X E pend nd s -> alike (n_item nd) r' -> l_objs r' = l_objs (n_item nd) -> hz_inv r' held ->
  g_locals s' = g_locals (put_local k r' s) -> g_epoch s' = g_epoch s -> g_marked s' = g_marked s -> g_threads s' = g_threads s ->
  g_reg s' = g_reg s -> g_fresh s' = g_fresh s -> Rest.heap_ok W X' E' (g_objs s') (g_cells s') ->
  (forall a, is_Some (g_objs s' !! a) <-> is_Some (g_objs s !! a)) -> building X' E' pend (mkNode (n_using nd) r') s'.
Proof.
  intros H Ha Eo Hz El Ee Em Et Er Ef Hh Hd. pose proof (bu_books _ _ _ _ _ H) as HB. set (s0 := unguarded s) in *.
  pose proof (bu_unguarded _ _ _ _ _ H) as Hat. fold s0 in Hat.
  pose proof (bk_parked _ _ HB k _ Hat) as [_ _ _ P4 P5 P6 _ _].
  assert (Eb : batched W s' = batched W s0).
  { unfold s0. rewrite batched_unguarded. apply batched_ext; [done|]. intros j. rewrite El, nodes_put.
    destruct (decide (j = k)) as [->|]; [|done]. rewrite (bu_node _ _ _ _ _ H). cbn. by rewrite Eo. }
  apply (building_change X E pend X' E' pend s s' nd r' held H); rewrite ?Eb, ?Ef, ?Er, ?Eo; try done; try apply HB; [apply H|].
  intros a. rewrite Hd. apply (bk_objs _ _ HB).
Qed.
Lemma working_put s s' nd r' held : working_as nd s -> alike (n_item nd) r' -> l_objs r' = l_objs (n_item nd) -> hz_inv r' held ->
  g_locals s' = g_locals (put_local k r' s) -> g_epoch s' = g_epoch s -> g_marked s' = g_marked s -> g_threads s' = g_threads s ->
  g_reg s' = g_reg s -> g_fresh s' = g_fresh s -> heap_ok (g_objs s') (g_cells s') ->
  (forall a, is_Some (g_objs s' !! a) <-> is_Some (g_objs s !! a)) -> working_as (mkNode (n_using nd) r') s'.
Proof. rewrite !working_building. apply building_put. Qed.
(** An operation that schedules no mark task. *)
Lemma working_traced nd s s' i cells objs d : working_as nd s -> traced (mkGuard i k) [] cells objs s s' ->
  moved d (g_objs s) objs -> heap_ok objs cells -> working s' /\ visible s' = set_m_links (fun _ => as_local_with_tag <$> cells) (visible s).
Proof.
  intros H (r & n & h & Hl & ->) Hm Hh. cbn [gd_local] in *. rewrite (working_local _ _ H) in Hl. injection Hl as <-.
  destruct (working_slots _ _ H) as [held Hz]. split.
  - eexists. apply (working_put s _ nd (pushed [] n (n_item nd)) held H); try done; [by constructor; try apply app_nil_r|by destruct Hz|]. intros a. by eapply moved_live.
  - apply (visible_eq s); [|done|by eapply shape_moved]. intros j _. by apply (slots_put s (n_item nd)); [apply working_local|].
Qed.

(** An operation on the participant alone. *)
Lemma working_same nd s r' h : working_as nd s -> alike (n_item nd) r' -> l_objs r' = l_objs (n_item nd) -> same_slots (n_item nd) r' ->
  let s' := set_g_help (fun _ => h) (put_local k r' s) in
  working_as (mkNode (n_using nd) r') s' /\ visible s' = visible s.
Proof.
  intros H Ha Eo Es s'. destruct (working_slots _ _ H) as [held Hz]. pose proof Es as (E1 & E2 & E3). split.
  - apply (working_put s s' nd r' held H); try done; [by destruct Hz; constructor; rewrite ?E1, ?E2, ?E3|exact (working_heap nd s H)].
  - rewrite (visible_eq s s'); [done| |done|done]. intros j _. by apply (slots_put s (n_item nd)); [apply (working_local nd)|].
Qed.

(** The slots of the hazard pointers a participant holds. *)
Lemma slots_held_lookup r held h : hz_inv r held -> slots_held r !! h = if decide (h ∈ held) then l_hazards r !! h else None.
Proof.
  intros Hz. assert (Hin : forall j, j ∈ l_hids r \/ j ∈ held <-> (j < length (l_hazards r))%nat).
  { intros j. rewrite <- elem_of_app, (hz_perm _ _ Hz), elem_of_seq. lia. }
  unfold slots_held. apply option_eq. intros x. rewrite map_lookup_filter_Some, lookup_map_seq_0. cbn [fst].
  destruct (decide (h ∈ held)) as [Hh|Hh]; [|split; [|done]].
  - split; [by intros [? _]|]. intros Hx. split; [done|]. intros Hf. by eapply hz_disjoint.
  - intros [Hx Hf]. apply lookup_lt_Some in Hx. by destruct (proj2 (Hin h) Hx).
Qed.
Lemma visible_slots s s' r : k ∈ ks -> local_of s' k = Some r -> (forall j, j <> k -> local_of s' j = local_of s j) ->
  g_reg s' = g_reg s -> g_objs s' = g_objs s -> g_cells s' = g_cells s ->
  visible s' = set_m_hazards <[k := slots_held r]> (visible s).
Proof.
  intros Hk Hl Ho Er Eo Ec. unfold visible, set_m_hazards. cbn [m_objs m_links m_types m_hazards]. rewrite Er, Eo, Ec. f_equal.
  apply map_eq. intros j. change (m_hazards (visible s') !! j = <[k := slots_held r]> (m_hazards (visible s)) !! j).
  destruct (decide (j = k)) as [->|Hj].
  - rewrite lookup_insert_eq, slots_map_lookup, decide_True by done. unfold slots_of. by rewrite Hl.
  - rewrite lookup_insert_ne, !slots_map_lookup by done. unfold slots_of. by rewrite Ho.
Qed.

(** ** Writing a link *)
Lemma rc_links X E (objs : gmap Z (obj V)) cells c p o : Rest.heap_ok W X E objs cells -> (forall a, 0 <= E a) ->
  cells !! c = Some (ManPtr.encode p) -> ManPtr.ptr_ok p -> ManPtr.p_meta p = Rooted -> objs !! target p = Some o ->
  exists h, ObjMeta.hdr_ok h /\ o_hdr o = ObjMeta.encode h /\ 0 < ObjMeta.h_rc h /\ ObjMeta.h_rc h = root_links cells (target p) + E (target p).
Proof.
  intros H HE Hc Hp Em Ho. destruct (hk_hdr _ _ _ _ _ H _ _ Ho) as (h & Hh & Eh & _ & Er). exists h. split; [done|]. split; [done|].
  assert (Hpos : 0 < root_links cells (target p)) by by apply (root_links_pos _ _ c _ Hc), roots_encode.
  specialize (HE (target p)). lia.
Qed.
Section write.
Context (objs : gmap Z (obj V)) (cells : gmap cell Z) (c : cell) (p q : ManPtr.ptr).
Context (H : heap_ok objs cells) (Hc : cells !! c = Some (ManPtr.encode p)).
Context (Hq : ManPtr.ptr_ok q) (Hqt : ManPtr.p_addr q <> 0 -> is_Some (objs !! target q)).

Lemma held_ok : cell_ok W [] objs c p -> ManPtr.ptr_ok p.
Proof. by intros []. Qed.
Lemma heap_write_rooted : cell_ok W [] objs c p -> ManPtr.p_meta p = Rooted -> Z.of_nat (size cells) + 1 < 2 ^ 55 -> exists d,
  moved d objs (add_rc (-1) (target p) (add_rc 1 (target q) objs)) /\
  heap_ok (add_rc (-1) (target p) (add_rc 1 (target q) objs)) (<[c := ManPtr.encode (Barriers.rooted q)]> cells).
Proof.
  intros Hp Em Hs. eexists. split; [eapply moved_trans; apply moved_add_rc|]. assert (Hrq : ManPtr.ptr_ok (Barriers.rooted q)) by done.
  assert (Hn : ~ owned_link objs c).
  { intros Ho. destruct (ck_meta _ _ _ _ _ Hp) as [[_ Hx]|[Em' _]]; [by apply Hx, not_elem_of_nil in Ho|congruence]. }
  eapply (heap_ok_write W [] no_extra [] _ _ _ _ c p); [exact H|eapply moved_trans; apply moved_add_rc| |..]; cbn beta.
  - intros a _. rewrite !weight_encode, Em by (done || apply Hp). change (target (Barriers.rooted q)) with (target q).
    change (ManPtr.p_meta (Barriers.rooted q)) with Rooted. repeat case_decide; naive_solver lia.
  - intros a _. split; [done|]. pose proof (root_links_le cells a). unfold no_extra, weight. do 2 case_decide; lia.
  - done.
  - split; [done|done|]. by left.
  - done.
Qed.
Lemma heap_write_unrooted : cell_ok W [] objs c p -> ManPtr.p_meta p = Unrooted W ->
  heap_ok objs (<[c := ManPtr.encode (Marking.with_color W q)]> cells).
Proof.
  intros Hp Em. assert (Hrq : ManPtr.ptr_ok (Marking.with_color W q)) by by apply with_color_ok.
  assert (Hw : forall a x, ManPtr.p_meta x = Unrooted W -> ManPtr.ptr_ok x -> weight a (ManPtr.encode x) = 0).
  { intros a x Ex Hx. rewrite weight_encode, decide_False by (done || (intros [E _]; congruence)). done. }
  eapply (heap_ok_write W [] no_extra [] _ _ _ _ c p); [exact H|apply moved_refl|..].
  - intros a _. rewrite !Hw by (done || apply Hp). done.
  - intros a Ha. split; [done|]. rewrite !Hw by (done || apply Hp). pose proof (heap_bound _ _ _ _ _ _ H Ha). lia.
  - exact Hc.
  - split; [done|done|]. right. split; [done|]. split; [|apply not_elem_of_nil].
    destruct (ck_meta _ _ _ _ _ Hp) as [[E _]|[_ [Ho _]]]; [congruence|done].
  - done.
Qed.
Lemma rc_room a : Z.of_nat (size cells) + 1 < 2 ^ 55 -> rc_ok objs a (fun n => n + 1 < 2 ^ 55).
Proof.
  intros Hs o Ho. destruct (hk_hdr _ _ _ _ _ H a o Ho) as (h & Hh & Eh & _ & Er). exists h. split; [done|]. split; [done|].
  rewrite Er. pose proof (root_links_le cells a). unfold no_extra. lia.
Qed.
Lemma rc_pos : cell_ok W [] objs c p -> ManPtr.p_meta p = Rooted -> rc_ok objs (target p) (fun n => 0 < n).
Proof.
  intros Hp Em o Ho. destruct (rc_links [] no_extra objs cells c p o H) as (h & Hh & Eh & Hr & _); try done; [apply Hp|]. exists h. by split_and!.
Qed.
Lemma rc_held b : Z.of_nat (size cells) + 1 < 2 ^ 55 -> cell_ok W [] objs c p -> ManPtr.p_meta p = Rooted ->
  rc_ok (add_rc 1 b objs) (target p) (fun n => 0 < n).
Proof.
  intros Hs Hp Em o Ho. rewrite (moved_add_rc 1 b objs (target p)) in Ho. apply fmap_Some in Ho as (o0 & Ho0 & ->).
  destruct (rc_links [] no_extra objs cells c p o0 H) as (h & [Hh1 Hh2] & Eh & Hr & Er); try done; [apply Hp|].
  pose proof (root_links_le cells (target p)). unfold no_extra in Er.
  eexists (ObjMeta.mkHdr (ObjMeta.h_color h) (ObjMeta.h_tid h) (ObjMeta.h_rc h + if decide (target p = b) then 1 else 0)). cbn [o_hdr set_o_hdr].
  rewrite Eh, encode_add. cbn [ObjMeta.h_rc]. case_decide; (split; [split; cbn; lia|]; split; [done|lia]).
Qed.
End write.

Lemma root_barrier_N r objs p : root_barrier (V := V) r N objs p = [].
Proof. unfold root_barrier. by destruct (last_root objs p). Qed.
Lemma barrier_N r objs p q : color (l_epoch r) = W -> barrier (V := V) r N objs W p q = [].
Proof. intros E. unfold barrier. destruct (_ =? _); [done|]. unfold black_of. rewrite E, decide_False by by apply not_eq_sym, flip_ne. done. Qed.

Lemma visible_cell s c p : ManPtr.ptr_ok p -> g_cells s !! c = Some (ManPtr.encode p) -> m_links (visible s) !! c = Some (view p).
Proof. intros Hp Hc. cbn. by rewrite lookup_fmap, Hc, <- as_local_encode. Qed.
Lemma links_write (cells : gmap cell Z) c p (m : memory (V := V)) : ManPtr.ptr_ok p ->
  set_m_links (fun _ => as_local_with_tag <$> <[c := ManPtr.encode p]> cells) m =
  put_link c (view p) (set_m_links (fun _ => as_local_with_tag <$> cells) m).
Proof. intros Hp. rewrite fmap_insert, as_local_encode by done. done. Qed.
Lemma links_same s : set_m_links (fun _ => as_local_with_tag <$> g_cells s) (visible s) = visible s.
Proof. done. Qed.
Lemma spare_visible s : spare_roots (visible s) -> Z.of_nat (size (g_cells s)) + 1 < 2 ^ 55.
Proof. unfold spare_roots. cbn. by rewrite map_size_fmap. Qed.
Lemma live_visible s v : live (visible s) v -> forall a, v = Some a -> is_Some (g_objs s !! a).
Proof. intros H a ->. cbn in H. by rewrite lookup_fmap, fmap_is_Some in H. Qed.
(** What the thread may use of a link. *)
Lemma visible_link nd s c x : working_as nd s -> m_links (visible s) !! c = Some x -> exists p,
  g_cells s !! c = Some (ManPtr.encode p) /\ cell_ok W [] (g_objs s) c p /\ x = view p /\ points s p.
Proof.
  intros H Hx. cbn in Hx. rewrite lookup_fmap in Hx. apply fmap_Some in Hx as (w & Hw & ->).
  destruct (hk_cell _ _ _ _ _ (working_heap _ _ H) c w Hw) as (p & -> & Hp). exists p. split; [done|]. split; [done|].
  split; [apply as_local_encode, Hp|]. split; apply Hp.
Qed.
End mutator.
