(* ===== verification/Alloc.v ===== *)
(** * Allocation in a Normal phase

    [ManObj::new] registers the type, [Guard::alloc] boxes the object and puts it in the
    batch of its colour, which is published when it is full, and [unroot_outgoings] gives up
    the roots of the links moved into it ([src/pointers.rs], [src/internal.rs]).  Each step
    keeps [building]; the last one makes it [working] again. *)
From S2P Require Import Prelude Prog Epoch Meta Slots HashSet Registry State Heap Marking Participant Guards.
From S2P Require Import Pointers Barriers Collector Total Tasks Tracing Sweep TraceInv Roots Cycle Frame Rest Memory Mutator.
#[local] Open Scope Z_scope.
#[local] Open Scope prog_scope.

Section alloc.
Context {EX : Extern} {V : Type} (ks gs : gset nat) (W : Color) (t : Z) (l k i f : nat).
Implicit Types (s : gstate V) (r : local) (X : list cell) (E : Z -> Z) (pend : list Z).
#[local] Abbreviation g := (mkGuard i k).
#[local] Abbreviation fuel := (S (S f)).
#[local] Abbreviation building := (building ks gs W t l k).
#[local] Abbreviation visible := (visible ks).

(** ** What an operation reads of the state *)
Lemma building_local X E pend nd s : building X E pend nd s -> local_of s k = Some (n_item nd).
Proof. intros H. unfold local_of. by rewrite (bu_node _ _ _ _ _ _ _ _ _ _ _ H). Qed.
Lemma building_slots X E pend nd s : building X E pend nd s -> exists held, hz_inv (n_item nd) held.
Proof.
  intros H. destruct (mu_node _ _ _ (bu_mut _ _ _ _ _ _ _ _ _ _ _ H) k (bu_mine _ _ _ _ _ _ _ _ _ _ _ H)) as (nd' & held & Hnd & _ & Hz).
  rewrite (bu_unguarded _ _ _ _ _ _ _ _ _ _ _ H) in Hnd. injection Hnd as <-.
  exists held. by destruct Hz.
Qed.
Lemma building_parked X E pend nd s : building X E pend nd s -> parked W t (mkNode (n_using nd) (unpin_rec (n_item nd))).
Proof.
  intros H. apply (bk_parked _ _ _ _ _ (bu_books _ _ _ _ _ _ _ _ _ _ _ H) k), (bu_unguarded _ _ _ _ _ _ _ _ _ _ _ H).
Qed.
Lemma building_color X E pend nd s : building X E pend nd s -> run (pinned_alloc_color k) s = Ok (W, s) /\ phase (g_epoch s) = Ok N.
Proof.
  intros H. pose proof (bu_range _ _ _ _ _ _ _ _ _ _ _ H) as Ht. destruct (proj1 (ep_reads N W t Ht)) as [E1 _ _ _]. destruct (proj2 (ep_reads N W t Ht)) as [F1 F2 _ _].
  split.
  - unfold pinned_alloc_color, pinned_epoch. rewrite run_bind, (run_get_local _ _ _ _ (building_local _ _ _ _ _ H)), (bu_epoch _ _ _ _ _ _ _ _ _ _ _ H), run_bind.
    unfold phase_of. rewrite F1. cbn [of_res run]. by rewrite F2.
  - pose proof (bk_epoch _ _ _ _ _ (bu_books _ _ _ _ _ _ _ _ _ _ _ H)) as Ee. change (g_epoch s = ep N W t) in Ee. by rewrite Ee.
Qed.
Lemma building_objs X E pend nd s : building X E pend nd s -> NoDup (pend ++ batched W s) /\ forall a, is_Some (g_objs s !! a) <-> a ∈ pend ++ batched W s.
Proof.
  intros H. pose proof (bu_books _ _ _ _ _ _ _ _ _ _ _ H) as HB. rewrite <- (batched_unguarded gs W s). split; [apply HB|].
  intros a. apply (bk_objs _ _ _ _ _ HB).
Qed.
(** Fields of the participant that nothing else depends on. *)
Lemma building_same X E pend nd s r' h : building X E pend nd s -> alike (n_item nd) r' -> l_objs r' = l_objs (n_item nd) -> same_slots (n_item nd) r' ->
  let s' := set_g_help (fun _ => h) (put_local k r' s) in building X E pend (mkNode (n_using nd) r') s' /\ visible s' = visible s.
Proof.
  intros H Ha Eo Es s'. destruct (building_slots _ _ _ _ _ H) as [held Hz]. pose proof Es as (E1 & E2 & E3). split.
  - apply (building_put ks gs W t l k X E pend X E s s' nd r' held H); try done; [by destruct Hz; constructor; rewrite ?E1, ?E2, ?E3|apply H].
  - rewrite (visible_eq ks s s'); [done| |done|done]. intros j _. apply (slots_put k s (n_item nd)); [by eapply building_local|done].
Qed.

(** ** Registering the type *)
Lemma types_has (reg : registry nat) T : T ∈ types_of reg <-> has type_id (r_set reg) T.
Proof.
  unfold types_of. rewrite elem_of_list_to_set, list_elem_of_omap. split.
  - intros ([e|] & He & E1); [|done]. injection E1 as <-. apply list_elem_of_lookup in He as [j Hj]. by exists j, e.
  - intros (j & e & Hj & <-). exists (Some e). split; [by eapply list_elem_of_lookup_2|done].
Qed.
(** The table is full only of distinct types. *)
Lemma types_room (reg : registry nat) T : complete type_hash reg -> T ∈ types_of reg \/ (size (types_of reg) < capacity)%nat -> room T reg.
Proof.
  intros [Hi _] [HT|Hlt]; [left; by apply types_has|]. right.
  destruct (decide (Exists (fun x => ~ is_Some x) (r_set reg))) as [(x & Hx & Hxn)%Exists_exists|Hn0].
  { apply eq_None_not_Some in Hxn as ->. by apply list_elem_of_lookup in Hx. }
  assert (Hn : None ∉ r_set reg) by (intros Hx; apply Hn0, Exists_exists; exists None; split; [done|]; by intros []).
  exfalso. pose proof (ri_set _ _ Hi) as Hinv. destruct Hinv as [Hlen _]. set (ts := omap (fmap type_id) (r_set reg)).
  assert (Hl : length ts = length (r_set reg)).
  { unfold ts. clear - Hn. induction (r_set reg) as [|[e|] q IH]; csimpl; [done| |by destruct Hn; left]. f_equal. apply IH. intros Hx. apply Hn. by right. }
  assert (Hat : forall j T', ts !! j = Some T' -> exists e, r_set reg !! j = Some (Some e) /\ type_id e = T').
  { unfold ts. clear - Hn. induction (r_set reg) as [|[e|] q IH]; intros j T'; csimpl; [done| |by destruct Hn; left].
    destruct j; cbn; [intros [= <-]; by exists e|]. apply IH. intros Hx. apply Hn. by right. }
  assert (Hnd : NoDup ts).
  { apply NoDup_alt. intros j1 j2 T' H1 H2. destruct (Hat _ _ H1) as (e1 & G1 & E1). destruct (Hat _ _ H2) as (e2 & G2 & E2).
    apply (inv_unique type_id type_hash capacity (r_set reg) j1 j2 e1 e2); [exact (ri_set _ _ Hi)|done|done|congruence]. }
  unfold types_of in Hlt. fold ts in Hlt. rewrite size_list_to_set in Hlt by done. lia.
Qed.
Lemma building_reg X E pend nd s reg : building X E pend nd s -> complete type_hash reg -> building X E pend nd (set_g_reg (fun _ => reg) s).
Proof.
  intros H Hc. destruct (building_slots _ _ _ _ _ H) as [held Hz]. destruct (building_parked _ _ _ _ _ H) as [_ _ _ P4 P5 P6 _ _].
  destruct (building_objs _ _ _ _ _ H) as [Hb1 Hb2]. pose proof (bu_books _ _ _ _ _ _ _ _ _ _ _ H) as HB.
  replace nd with (mkNode (n_using nd) (n_item nd)) at 1 by by destruct nd.
  apply (building_change ks gs W t l k X E pend X E pend s _ nd (n_item nd) held H); try done; try apply HB; try apply H.
  by rewrite put_local_id by by eapply building_local.
Qed.
Lemma yields_register_type X E pend nd s T : building X E pend nd s -> T ∈ types_of (g_reg s) \/ (size (types_of (g_reg s)) < capacity)%nat -> hash_fits T ->
  yields (on_reg (register_type type_hash k fuel T)) s (fun id s' => 0 <= id < 2 ^ 8 /\ building X E pend nd s' /\
    visible s' = set_m_types (union {[T]}) (visible s) /\ g_objs s' = g_objs s /\ g_cells s' = g_cells s).
Proof.
  intros H Hroom HT. pose proof (types_room _ _ (bu_reg _ _ _ _ _ _ _ _ _ _ _ H) Hroom) as Hr.
  destruct (run_register_type type_hash type_hash_ok k (S f) T (g_reg s) HT (bu_reg _ _ _ _ _ _ _ _ _ _ _ H) Hr) as (id & reg & E0 & Hc & Hid & Hh).
  exists id, (set_g_reg (fun _ => reg) s). split.
  { unfold on_reg. rewrite (run_lift g_reg (fun x => set_g_reg (fun _ => x))) by (done || by intros []). by rewrite E0. }
  split; [done|]. split; [by apply building_reg|]. split; [|done]. unfold visible, set_m_types. cbn [m_objs m_links m_types m_hazards].
  change (g_reg (set_g_reg (fun _ => reg) s)) with reg. f_equal. apply set_eq. intros T'. rewrite elem_of_union, elem_of_singleton, !types_has, Hh. tauto.
Qed.

(** ** Boxing the object *)
Lemma yields_box E (rts : Z -> Z -> Z) nd s o h : building [] E [] nd s -> is_Some (alloc_addr (dom (g_objs s))) -> ObjMeta.hdr_ok h -> o_hdr o = ObjMeta.encode h ->
  ObjMeta.h_color h = W -> (forall a, g_objs s !! a = None -> ObjMeta.h_rc h = rts a a /\ forall b, b <> a -> rts a b = E b) ->
  NoDup (o_links o) -> (forall c, c ∈ o_links o -> is_Some (g_cells s !! c) /\ ~ owned_link (g_objs s) c) ->
  yields (box_new o) s (fun a s' => g_objs s !! a = None /\ building (o_links o) (rts a) [a] nd s' /\
    visible s' = set_m_objs <[a := shape_of o]> (visible s) /\ g_objs s' = <[a := o]> (g_objs s) /\ g_cells s' = g_cells s).
Proof.
  intros H [a Ea] Hh Eh Ec HE Hnd Hl. destruct (alloc_addr_ok _ _ Ea) as [Hna Hq].
  assert (Ha : g_objs s !! a = None) by by apply not_elem_of_dom. destruct (HE a Ha) as [Er He].
  exists a, (set_g_objs <[a := o]> s). split; [unfold box_new; cbn [atomic run]; by rewrite Ea|]. split; [done|].
  pose proof (heap_ok_new_obj W E (rts a) (g_objs s) (g_cells s) a o h (bu_heap _ _ _ _ _ _ _ _ _ _ _ H) Ha Hq Hh Eh Ec Er He Hnd Hl) as Hheap.
  split; [|split; [|done]].
  - destruct (building_slots _ _ _ _ _ H) as [held Hz]. destruct (building_parked _ _ _ _ _ H) as [_ _ _ P4 P5 P6 _ _].
    destruct (building_objs _ _ _ _ _ H) as [Hb1 Hb2]. pose proof (bu_books _ _ _ _ _ _ _ _ _ _ _ H) as HB.
    assert (Hnew : a ∉ batched W s) by (intros Hin; apply (Hb2 a) in Hin; rewrite Ha in Hin; by destruct Hin).
    replace nd with (mkNode (n_using nd) (n_item nd)) at 1 by by destruct nd.
    apply (building_change ks gs W t l k [] E [] (o_links o) (rts a) [a] s _ nd (n_item nd) held H); try done; try apply HB; try apply H.
    + by rewrite put_local_id by by eapply building_local.
    + by apply NoDup_cons.
    + intros b. change (is_Some (<[a := o]> (g_objs s) !! b) <-> b ∈ a :: batched W s). rewrite elem_of_cons, lookup_insert_is_Some', (Hb2 b). naive_solver.
  - unfold visible, set_m_objs. cbn. by rewrite fmap_insert.
Qed.

(** ** The batches *)
Definition local_items r : list Z := match l_objs r !! color_index W with Some b => b_items b.1 | None => [] end.
Lemma batched_put s nd : nodes (g_locals s) !! k = Some nd -> exists rest : list Z * list Z, forall s' r', g_locals s' = g_locals (put_local k r' s) ->
  batched W s' = concat (map b_items (batches (g_fresh s') W)) ++ rest.1 ++ local_items r' ++ rest.2.
Proof.
  intros Hnd. pose proof Hnd as (ns1 & ns2 & Ens & Ek)%list_elem_of_split_length. set (its := fun ns => concat (map b_items (concat (local_batch W <$> ns)))).
  exists (pair (its ns1) (its ns2)). intros s' r' El. unfold batched, heap_batches.
  rewrite map_app, concat_app. f_equal. rewrite El. cbn [put_local set_g_locals g_locals nodes fst snd]. rewrite Ens, Ek, alter_app_r_alt, Nat.sub_diag by done. cbn [alter list_alter].
  rewrite fmap_app, fmap_cons, concat_app. cbn [concat]. rewrite !map_app, !concat_app. unfold its. do 2 f_equal.
  unfold local_batch, local_items. cbn. destruct (l_objs r' !! _) as [b|]; [|done]. destruct (batch_is_empty b.1) eqn:Eb; cbn; [|by rewrite app_nil_r].
  unfold batch_is_empty in Eb. by destruct (b_items b.1).
Qed.
(** Objects move between the batch of the participant, a global queue and [pend]. *)
Lemma building_move X E pend pend' s s' nd r' : building X E pend nd s -> alike (n_item nd) r' -> same_slots (n_item nd) r' ->
  g_locals s' = g_locals (put_local k r' s) -> g_epoch s' = g_epoch s -> g_marked s' = g_marked s -> g_threads s' = g_threads s ->
  g_reg s' = g_reg s -> g_objs s' = g_objs s -> g_cells s' = g_cells s ->
  length (l_objs r') = 2%nat -> (forall b, l_objs r' !! color_index (flip W) = Some b -> b_items b.1 = []) ->
  (forall b, b ∈ l_objs r' -> (0 < b_cap b.1)%nat) -> shards_ok (g_fresh s') -> batches (g_fresh s') (flip W) = [] ->
  pend' ++ concat (map b_items (batches (g_fresh s') W)) ++ local_items r' ≡ₚ
    pend ++ concat (map b_items (batches (g_fresh s) W)) ++ local_items (n_item nd) ->
  building X E pend' (mkNode (n_using nd) r') s' /\ visible s' = visible s.
Proof.
  intros H Ha Hsl El Ee Em Et Er Eo Ec O1 O2 O3 F1 F2 Hp. pose proof (building_local _ _ _ _ _ H) as Hl.
  destruct (building_slots _ _ _ _ _ H) as [held Hz]. pose proof Hsl as (E1 & E2 & E3). destruct (building_objs _ _ _ _ _ H) as [Hb1 Hb2].
  destruct (batched_put s nd (bu_node _ _ _ _ _ _ _ _ _ _ _ H)) as [rest Hrest].
  assert (Hbp : pend' ++ batched W s' ≡ₚ pend ++ batched W s).
  { rewrite (Hrest s' r' El), (Hrest s (n_item nd)) by by rewrite put_local_id. rewrite (app_assoc rest.1), (Permutation_app_comm rest.1 (local_items r')).
    rewrite (app_assoc rest.1 (local_items (n_item nd))), (Permutation_app_comm rest.1 (local_items (n_item nd))), <- !(app_assoc _ rest.1 rest.2).
    rewrite (app_assoc _ (local_items r')), (app_assoc pend'), Hp. by rewrite <- !app_assoc. }
  split.
  - apply (building_change ks gs W t l k X E pend X E pend' s s' nd r' held H); try done.
    + by destruct Hz; constructor; rewrite ?E1, ?E2, ?E3.
    + rewrite Er. apply H.
    + rewrite Eo, Ec. apply H.
    + by rewrite Hbp.
    + intros a. by rewrite Eo, Hb2, Hbp.
  - rewrite (visible_eq ks s s'); [unfold set_m_links; by rewrite Ec| |done|by rewrite Eo].
    intros j _. rewrite <- (slots_put k s (n_item nd) r' j Hl Hsl). unfold slots_of, local_of. by rewrite El.
Qed.
Lemma color_index_other (c : Color) : color_index (flip c) <> color_index c.
Proof. by destruct c. Qed.
(** Replacing the batch of the participant. *)
Lemma building_batch X E pend pend' nd s b b' : building X E pend nd s -> l_objs (n_item nd) !! color_index W = Some b -> (0 < b_cap b'.1)%nat ->
  pend' ++ b_items b'.1 ≡ₚ pend ++ b_items b.1 ->
  let r' := set_l_objs <[color_index W := b']> (n_item nd) in
  building X E pend' (mkNode (n_using nd) r') (put_local k r' s) /\ visible (put_local k r' s) = visible s.
Proof.
  intros H Hb Hcap Hp r'. destruct (building_parked _ _ _ _ _ H) as [_ _ _ P4 P5 P6 _ _]. cbn in P4, P5, P6.
  pose proof (bu_books _ _ _ _ _ _ _ _ _ _ _ H) as HB. pose proof (color_index_lt W) as Hlt.
  assert (Hb' : l_objs r' !! color_index W = Some b') by (apply list_lookup_insert_eq; by rewrite P4).
  apply (building_move X E pend pend' s _ nd r' H); try done; try apply HB.
  - cbn. by rewrite length_insert.
  - intros x. change (<[color_index W := b']> (l_objs (n_item nd)) !! color_index (flip W) = Some x -> b_items x.1 = []).
    rewrite list_lookup_insert_ne by apply not_eq_sym, color_index_other. apply P5.
  - intros x (j & [(_ & -> & _)|[_ Hj]]%list_lookup_insert_Some)%list_elem_of_lookup; [done|]. apply P6. by eapply list_elem_of_lookup_2.
  - unfold local_items. rewrite Hb', Hb. change (g_fresh (put_local k r' s)) with (g_fresh s). set (q := concat _).
    rewrite (Permutation_app_comm q (b_items b'.1)), (Permutation_app_comm q (b_items b.1)), !app_assoc. by rewrite Hp.
Qed.
Lemma building_batch_at X E pend nd s : building X E pend nd s -> exists b, l_objs (n_item nd) !! color_index W = Some b /\ (0 < b_cap b.1)%nat.
Proof.
  intros H. destruct (building_parked _ _ _ _ _ H) as [_ _ _ P4 _ P6 _ _]. cbn in P4, P6.
  destruct (lookup_lt_is_Some_2 (l_objs (n_item nd)) (color_index W)) as [b Hb]; [rewrite P4; apply color_index_lt|].
  exists b. split; [done|]. by eapply P6, list_elem_of_lookup_2.
Qed.
(** The state but for the heap and what the program sees of it. *)
Definition unseen s s' : Prop := visible s' = visible s /\ g_objs s' = g_objs s /\ g_cells s' = g_cells s.
#[local] Instance unseen_preorder : PreOrder unseen.
Proof. split; [done|]. intros s1 s2 s3 (A1 & A2 & A3) (B1 & B2 & B3). split_and!; congruence. Qed.
Lemma yields_flush_objs X E pend nd s b : building X E pend nd s -> l_objs (n_item nd) !! color_index W = Some b -> b_items b.1 <> [] ->
  yields (flush_objs k) s (fun _ s' => exists nd', building X E pend nd' s' /\ unseen s s' /\
    l_objs (n_item nd') !! color_index W = Some (batch_default, 0)).
Proof.
  intros H Hb Hne. unfold flush_objs. step_with (proj1 (building_color _ _ _ _ _ H)). pose proof (building_local _ _ _ _ _ H) as Hl.
  unfold take_obj_batch. apply yields_bind. step_with (run_get_local k (fun r => l_objs r !! color_index W) s _ Hl). rewrite Hb.
  cbn [unwrap bind]. replace (batch_is_empty b.1) with false by (unfold batch_is_empty; by destruct (b_items b.1)).
  step_with (run_upd_local k (set_l_objs <[color_index W := (batch_default, 0)]>) s _ Hl). apply yields_ret.
  destruct (building_batch X E pend (b_items b.1 ++ pend) nd s b (batch_default, 0) H Hb) as [H1 E1].
  { cbn. unfold OBJ_BATCH_SIZE. lia. }
  { cbn. by rewrite app_nil_r, Permutation_app_comm. }
  assert (Hb1 : l_objs (set_l_objs <[color_index W := (batch_default, 0)]> (n_item nd)) !! color_index W = Some (batch_default, 0)).
  { destruct (building_parked _ _ _ _ _ H) as [_ _ _ P4 _ _ _ _]. apply list_lookup_insert_eq. cbn in P4. rewrite P4. apply color_index_lt. }
  set (nd1 := mkNode _ _) in H1. set (s1 := put_local _ _ _) in *. assert (Hu : unseen s s1) by done. destruct b as [b n]. cbn [fst] in *.
  pose proof (building_local _ _ _ _ _ H1) as Hl1. unfold select_obj_shard. apply yields_bind.
  step_with (run_get_local k (fun r => rng_usize (l_rng r) OBJ_BATCHES_SHARD) s1 _ Hl1). set (x := rng_usize _ _).
  assert (Hx : (x.1 < OBJ_BATCHES_SHARD)%nat) by (apply rng_usize_lt; unfold OBJ_BATCHES_SHARD; lia).
  step_with (run_upd_local k (set_l_rng (fun _ => x.2)) s1 _ Hl1). apply yields_ret.
  destruct (building_same X E _ nd1 s1 (set_l_rng (fun _ => x.2) (n_item nd1)) (g_help s1) H1) as [H2 E2]; try done.
  set (nd2 := mkNode _ _) in H2. replace (set_g_help (fun _ => g_help s1) _) with (put_local k (n_item nd2) s1) in H2, E2 by done.
  change (set_l_rng (fun _ => x.2) (n_item nd1)) with (n_item nd2). set (s2 := put_local k (n_item nd2) s1) in *.
  destruct (building_parked _ _ _ _ _ H2) as [_ _ _ P4 P5 P6 _ _]. cbn in P4, P5, P6. pose proof (bu_books _ _ _ _ _ _ _ _ _ _ _ H2) as HB.
  eapply yields_run; [reflexivity|]. set (s3 := set_g_allocated _ _). pose proof (building_local _ _ _ _ _ H2) as Hl2.
  destruct (building_move X E (b_items b ++ pend) pend s2 s3 nd2 (n_item nd2) H2) as [H3 E3]; try done.
  - by rewrite put_local_id.
  - change (shards_ok (upd_queue (fun q => q ++ [b]) W x.1 (g_fresh s2))). apply shards_ok_upd, HB.
  - change (batches (upd_queue (fun q => q ++ [b]) W x.1 (g_fresh s2)) (flip W) = []). rewrite batches_other by apply not_eq_sym, flip_ne. apply HB.
  - change (g_fresh s3) with (upd_queue (fun q => q ++ [b]) W x.1 (g_fresh s2)). rewrite (batches_push (g_fresh s2) W x.1 b) by (done || apply HB).
    rewrite map_app, concat_app. cbn. rewrite app_nil_r. set (q := concat _).
    rewrite <- !app_assoc, !(app_assoc pend q). apply Permutation_app_swap_app.
  - exists (mkNode (n_using nd2) (n_item nd2)). split; [done|]. split; [|done]. split; [by rewrite E3, E2|done].
Qed.
(** The object goes to the batch, after the batch is published if it is full. *)
Lemma yields_push_within X E nd s a b batch n : building X E [a] nd s -> l_objs (n_item nd) !! color_index W = Some b ->
  push_within_capacity b.1 a = inl batch ->
  yields (upd_local k (set_l_objs <[color_index W := (batch, n)]>)) s (fun _ s' => exists nd', building X E [] nd' s' /\ unseen s s').
Proof.
  intros H Hb Hpush. eapply yields_run; [apply (run_upd_local k _ s _ (building_local _ _ _ _ _ H))|].
  unfold push_within_capacity in Hpush. destruct (Nat.ltb_spec (length (b_items b.1)) (b_cap b.1)); [|done]. injection Hpush as <-.
  destruct (building_batch X E [a] [] nd s b (mkBatch (b_items b.1 ++ [a]) (b_cap b.1), n) H Hb) as [H1 E1]; [cbn; lia|cbn; by rewrite Permutation_app_comm|].
  eexists. split; [exact H1|done].
Qed.
Lemma yields_push_fresh X E nd s a : building X E [a] nd s -> is_Some (g_objs s !! a) ->
  yields (push_fresh_obj fuel k a true) s (fun _ s' => exists nd', building X E [] nd' s' /\ unseen s s').
Proof.
  intros H [o Ho]. unfold push_fresh_obj. step_with (run_deref a s o Ho). step_with (proj1 (building_color _ _ _ _ _ H)).
  destruct (building_batch_at _ _ _ _ _ H) as (b & Hb & Hcap). cbn [loop].
  apply yields_bind. step_with (run_get_local k (fun r => l_objs r !! color_index W) s _ (building_local _ _ _ _ _ H)). rewrite Hb. cbn [unwrap bind].
  destruct (push_within_capacity b.1 a) as [batch|] eqn:Ep.
  { eapply yields_then; [by apply (yields_push_within X E nd s a b)|]. intros [] s1 H1. by apply yields_ret, yields_ret. }
  assert (Hne : b_items b.1 <> []).
  { intros E0. unfold push_within_capacity in Ep. rewrite E0 in Ep. cbn [length] in Ep. by rewrite (proj2 (Nat.ltb_lt 0 _) Hcap) in Ep. }
  eapply yields_then; [by apply (yields_flush_objs X E [a] nd s b)|]. intros [] s1 (nd1 & H1 & Hu1 & Hb1). apply yields_ret.
  apply yields_bind. step_with (run_get_local k (fun r => l_objs r !! color_index W) s1 _ (building_local _ _ _ _ _ H1)). rewrite Hb1. cbn [unwrap bind].
  change (push_within_capacity (batch_default, 0).1 a) with (@inl ObjBatch Z (mkBatch [a] OBJ_BATCH_SIZE)). cbv iota beta.
  eapply yields_then; [by apply (yields_push_within X E nd1 s1 a (batch_default, 0))|]. intros [] s2 (nd2 & H2 & Hu2). apply yields_ret, yields_ret.
  exists nd2. split; [done|]. by etransitivity.
Qed.
(** [Guard::alloc]. *)
Lemma yields_alloc E (rts : Z -> Z -> Z) nd s o h : building [] E [] nd s -> is_Some (alloc_addr (dom (g_objs s))) -> ObjMeta.hdr_ok h -> o_hdr o = ObjMeta.encode h ->
  ObjMeta.h_color h = W -> (forall a, g_objs s !! a = None -> ObjMeta.h_rc h = rts a a /\ forall b, b <> a -> rts a b = E b) ->
  NoDup (o_links o) -> (forall c, c ∈ o_links o -> is_Some (g_cells s !! c) /\ ~ owned_link (g_objs s) c) ->
  yields (alloc fuel o g) s (fun a s' => g_objs s !! a = None /\ (exists nd', building (o_links o) (rts a) [] nd' s') /\
    visible s' = set_m_objs <[a := shape_of o]> (visible s) /\ g_objs s' = <[a := o]> (g_objs s)).
Proof.
  intros H Ha Hh Eh Ec HE Hnd Hl. unfold alloc. eapply yields_then; [by apply (yields_box E rts nd s o h)|].
  intros a s1 (Hna & H1 & E1 & Eo1 & Ec1). assert (Hlive : is_Some (g_objs s1 !! a)) by (rewrite Eo1, lookup_insert_eq; by eexists).
  eapply yields_then; [by apply (yields_push_fresh (o_links o) (rts a) nd)|]. intros [] s2 (nd2 & H2 & Ev2 & Eo2 & _).
  step_with (run_get_local k l_alloc_count s2 _ (building_local _ _ _ _ _ H2)).
  set (n := wadd (l_alloc_count (n_item nd2)) 1). step_with (run_upd_local k (set_l_alloc_count (fun _ => n)) s2 _ (building_local _ _ _ _ _ H2)).
  assert (Hfin : forall hs, yields (Ret a) (set_g_help (fun _ => hs) (put_local k (set_l_alloc_count (fun _ => n) (n_item nd2)) s2)) (fun a s' =>
    g_objs s !! a = None /\ (exists nd', building (o_links o) (rts a) [] nd' s') /\ visible s' = set_m_objs <[a := shape_of o]> (visible s) /\ g_objs s' = <[a := o]> (g_objs s))).
  { intros hs. apply yields_ret. destruct (building_same _ _ _ nd2 s2 (set_l_alloc_count (fun _ => n) (n_item nd2)) hs H2) as [H3 E3]; try done.
    split; [done|]. split; [by eexists|]. rewrite E3, Ev2, E1. split; [done|]. by rewrite <- Eo1, <- Eo2. }
  destruct (n mod ALLOC_HELPING_PERIOD =? 0).
  - eapply yields_step; [reflexivity|]. apply Hfin.
  - apply yields_bind, yields_ret. exact (Hfin (g_help s2)).
Qed.

(** ** Giving up the roots of the links *)
(** A step of it keeps what belongs to an object, and what the program sees. *)
Definition unrooting X E nd s s' : Prop := building X E [] nd s' /\ visible s' = visible s /\
  (forall c, owned_link (g_objs s) c -> owned_link (g_objs s') c) /\ forall a, is_Some (g_objs s !! a) -> is_Some (g_objs s' !! a).
(** The pointee has lost its root: the link becomes unrooted, white. *)
Lemma yields_recolor X E nd s c p : building (c :: X) E [] nd s -> c ∉ X -> owned_link (g_objs s) c -> (forall a, 0 <= E a) ->
  g_cells s !! c = Some (ManPtr.encode p) -> cell_ok W (c :: X) (g_objs s) c p -> ManPtr.p_meta p = Rooted ->
  yields (ac <- alloc_color g ; store_cell c (ManPtr.with_meta (ManPtr.encode p) (Unrooted ac)))
    (set_g_objs (fun _ => add_rc (-1) (target p) (g_objs s)) s) (fun _ s' => unrooting X E nd s s').
Proof.
  intros H Hnc Hown HE Hw [Hok Hpt _] Em. pose proof (bu_heap _ _ _ _ _ _ _ _ _ _ _ H) as Hh.
  set (objs := add_rc (-1) (target p) (g_objs s)). set (s1 := set_g_objs (fun _ => objs) s). assert (Eac : run (alloc_color g) s1 = Ok (W, s1)).
  { unfold alloc_color, pinned_alloc_color, pinned_epoch. assert (Hl1 : local_of s1 k = Some (n_item nd)) by exact (building_local _ _ _ _ _ H).
    cbn [gd_local]. rewrite run_bind, (run_get_local _ _ _ _ Hl1), (bu_epoch _ _ _ _ _ _ _ _ _ _ _ H), run_bind. unfold phase_of.
    pose proof (proj2 (ep_reads N W t (bu_range _ _ _ _ _ _ _ _ _ _ _ H))) as [F1 F2 _ _]. rewrite F1. cbn [of_res run]. by rewrite F2. }
  step_with Eac. rewrite ManPtr.encode_with_meta by done. fold (Marking.with_color W p).
  eapply yields_run; [unfold store_cell; by rewrite run_bind, (run_update_cell c _ s1 _ Hw)|]. cbv beta.
  assert (Hq : ManPtr.ptr_ok (Marking.with_color W p)) by by apply with_color_ok.
  assert (Hw0 : forall a, weight a (ManPtr.encode (Marking.with_color W p)) = 0).
  { intros a. rewrite weight_encode, decide_False; [done|by intros [? _]|done]. }
  pose proof (moved_add_rc (-1) (target p) (g_objs s)) as Hmv. fold objs in Hmv.
  assert (Hheap : Rest.heap_ok W X E objs (<[c := ManPtr.encode (Marking.with_color W p)]> (g_cells s))).
  { eapply (heap_ok_write W (c :: X) E X _ _ _ _ c p); [exact Hh|exact Hmv|..]; cbn beta.
    - intros a _. rewrite Hw0, weight_encode by done. repeat case_decide; naive_solver lia.
    - intros a Ha. split; [apply HE|]. rewrite Hw0. pose proof (heap_bound _ _ _ _ _ _ Hh Ha). unfold weight. case_decide; lia.
    - exact Hw.
    - split; [done|done|]. right. by split_and!.
    - intros c' Hc'. rewrite elem_of_cons. naive_solver. }
  destruct (building_slots _ _ _ _ _ H) as [held Hz]. split; [|split; [|split]].
  - replace nd with (mkNode (n_using nd) (n_item nd)) at 1 by by destruct nd.
    apply (building_put ks gs W t l k (c :: X) E [] X E s _ nd (n_item nd) held H); try done.
    + by rewrite put_local_id by by eapply building_local.
    + intros a. apply (moved_live _ _ _ a Hmv).
  - rewrite (visible_eq ks s); [|done|done|by eapply shape_moved]. unfold set_m_links, visible. cbn [m_objs m_links m_types m_hazards g_cells set_g_cells].
    f_equal. rewrite fmap_insert, as_local_encode by done. change (view (Marking.with_color W p)) with (view p).
    apply insert_id. by rewrite lookup_fmap, Hw, <- as_local_encode.
  - intros c'. apply (moved_owned _ _ _ c' Hmv).
  - intros a. apply (moved_live _ _ _ a Hmv).
Qed.
Lemma yields_unroot X E nd s c : building (c :: X) E [] nd s -> c ∉ X -> owned_link (g_objs s) c -> (forall a, 0 <= E a) ->
  yields (unroot c g) s (fun _ s' => unrooting X E nd s s').
Proof.
  intros H Hnc Hown HE. pose proof (bu_heap _ _ _ _ _ _ _ _ _ _ _ H) as Hh. destruct (hk_link _ _ _ _ _ Hh c Hown) as [w Hw].
  destruct (hk_cell _ _ _ _ _ Hh c w Hw) as (p & -> & Hp). pose proof Hp as [Hok Hpt Hm].
  assert (Em : ManPtr.p_meta p = Rooted) by (destruct Hm as [[? _]|(_ & _ & Hx)]; [done|by destruct Hx; left]).
  destruct (building_color _ _ _ _ _ H) as [_ Hph]. unfold unroot. step_with (run_load_cell _ _ _ Hw).
  rewrite ManPtr.encode_meta, Em, bool_decide_true, ManPtr.encode_is_null by done. apply yields_bind, yields_ret.
  pose proof (yields_recolor X E nd s c p H Hnc Hown HE Hw Hp Em) as Hend.
  apply yields_bind. destruct (Z.eqb_spec (ManPtr.p_addr p) 0) as [E0|E0].
  - apply yields_ret. rewrite target_null, add_rc_null in Hend by (done || by eapply hk_null). by replace s with (set_g_objs (fun _ => g_objs s) s) at 1 by by destruct s.
  - rewrite ManPtr.encode_as_ptr by done. fold (target p). destruct (Hpt E0) as [o Ho].
    destruct (rc_links W (c :: X) E (g_objs s) (g_cells s) c p o Hh HE Hw Hok Em Ho) as (h & Hhh & Eh & Hpos & _).
    destruct (run_decrement (target p) s o Ho) as (n & E1 & _).
    { intros o' Ho'. rewrite Ho in Ho'. injection Ho' as <-. by exists h. }
    step_with E1. destruct (n =? 1); [|by apply yields_ret]. set (s1 := set_g_objs _ s) in *. step_with (run_global_phase s1 N Hph). by apply yields_ret.
Qed.
Lemma yields_unroot_all E nd s a o : building (o_links o) E [] nd s -> (forall a, 0 <= E a) -> g_objs s !! a = Some o ->
  yields (unroot_outgoings a g) s (fun _ s' => unrooting [] E nd s s').
Proof.
  intros H HE Ho. unfold unroot_outgoings. step_with (run_deref a s o Ho). pose proof (hk_nodup _ _ _ _ _ (bu_heap _ _ _ _ _ _ _ _ _ _ _ H) a o Ho) as Hnd.
  eapply yields_mono.
  - apply (yields_foreach (fun pre s' => forall post, o_links o = pre ++ post -> unrooting post E nd s s')).
    + intros post E1. cbn in E1. by rewrite <- E1.
    + intros pre c post s1 E1 H1. destruct (H1 _ E1) as (H2 & Ev & Ho2 & Ha2).
      assert (Hn : c ∉ post) by (rewrite E1 in Hnd; apply NoDup_app in Hnd as (_ & _ & [? _]%NoDup_cons); done).
      eapply yields_mono; [apply (yields_unroot post E nd s1 c H2 Hn); [|done]|].
      * apply Ho2. exists a, o. split; [done|]. rewrite E1. set_solver.
      * intros [] s2 (H3 & Ev3 & Ho3 & Ha3) post' E2. assert (post' = post) as ->.
        { rewrite E1, <- app_assoc in E2. apply app_inv_head in E2. by injection E2 as <-. }
        split; [done|]. split; [by rewrite Ev3|]. split; [auto|auto].
  - intros [] s' Hs'. apply Hs'. by rewrite app_nil_r.
Qed.

(** ** A new object *)
(** [ManObj::new] and [Guard::alloc], the object with [rc] roots that are not links yet. *)
Lemma yields_make (rts : Z -> Z -> Z) nd s it rc : building [] no_extra [] nd s -> can_alloc (visible s) it -> 0 <= rc < 2 ^ 55 ->
  (forall a, rc = rts a a /\ forall b, b <> a -> rts a b = 0) ->
  yields (obj <- man_obj_new fuel it W rc g ; alloc fuel obj g) s (fun a s' => g_objs s !! a = None /\
    (exists nd', building (it_links it) (rts a) [] nd' s') /\ (exists o, g_objs s' !! a = Some o /\ o_links o = it_links it) /\
    visible s' = set_m_objs <[a := object_of it]> (set_m_types (union {[it_type it]}) (visible s))).
Proof.
  intros H (Hnd & Hl & Hroom & Hfit & Ha) Hrc Hrts. unfold man_obj_new. apply yields_bind.
  eapply yields_then; [by apply (yields_register_type [] no_extra [] nd s (it_type it) H Hroom Hfit)|]. intros id s1 (Hid & H1 & E1 & Eo1 & Ec1).
  rewrite (ObjMeta.new_with_type_id_encode W rc id Hid Hrc). apply yields_bind, yields_ret, yields_ret.
  set (h := ObjMeta.mkHdr W id rc). set (o := mkObj _ _ _ _ _).
  eapply yields_mono; [apply (yields_alloc no_extra rts nd s1 o h H1)|]; try done.
  - change (is_Some (alloc_addr (dom (shape_of <$> g_objs s)))) in Ha. by rewrite Eo1, <- (dom_fmap_L shape_of).
  - intros c Hc. destruct (Hl c Hc) as [Hl1 Hl2]. rewrite Eo1, Ec1. cbn in Hl1. rewrite lookup_fmap, fmap_is_Some in Hl1. split; [done|].
    intros (a & o' & Ho' & Hc'). apply Hl2. exists a, (shape_of o'). cbn. by rewrite lookup_fmap, Ho'.
  - intros a s2 (Hna & H2 & E2 & Eo2). rewrite <- Eo1. split; [done|]. split; [done|].
    split; [exists o; by rewrite Eo2, lookup_insert_eq|]. by rewrite E2, E1.
Qed.
(** The root of a new object becomes a link. *)
Lemma yields_link_new nd s a q : building [] (fun b => if decide (b = a) then 1 else 0) [] nd s -> is_Some (g_objs s !! a) -> ManPtr.ptr_ok q ->
  ManPtr.p_meta q = Rooted -> target q = a -> spare_roots (visible s) ->
  yields (from_raw (ManPtr.encode q)) s (fun c s' => building [] no_extra [] nd s' /\ m_links (visible s) !! c = None /\
    visible s' = put_link c (view q) (visible s)).
Proof.
  intros H Ha Hq Em Et Hs%spare_visible. pose proof (bu_heap _ _ _ _ _ _ _ _ _ _ _ H) as Hh. set (E := fun b : Z => if decide (b = a) then 1 else 0) in *.
  set (c := fresh (dom (g_cells s))). pose proof (new_cell_fresh s) as Hf. change (c ∉ dom (g_cells s)) in Hf. apply not_elem_of_dom in Hf.
  eapply yields_run; [reflexivity|]. fold c. set (s' := set_g_cells _ s). assert (Hc : m_links (visible s) !! c = None) by (cbn; by rewrite lookup_fmap, Hf).
  assert (Hheap : Rest.heap_ok W [] no_extra (g_objs s) (<[c := ManPtr.encode q]> (g_cells s))).
  { apply (heap_ok_new_link W [] E no_extra (fun _ => 0) (g_objs s) _ _ c q Hh); try done.
    - apply moved_refl.
    - intros b Hb. rewrite weight_encode by done. unfold no_extra, E. repeat case_decide; naive_solver lia.
    - intros b Hb. split; [done|]. pose proof (root_links_le (g_cells s) b). unfold no_extra, weight. case_decide; lia.
    - by rewrite Et. }
  destruct (building_slots _ _ _ _ _ H) as [held Hz]. split; [|split; [done|]].
  - replace nd with (mkNode (n_using nd) (n_item nd)) at 1 by by destruct nd.
    apply (building_put ks gs W t l k [] E [] [] no_extra s s' nd (n_item nd) held H); try done.
    by rewrite put_local_id by by eapply building_local.
  - rewrite (visible_eq ks s s') by done. by apply links_write.
Qed.
End alloc.
