(* ===== verification/Commands.v ===== *)
(** * The operations of a guard in a Normal phase

    Every command of [Memory] a program is allowed to run returns, answers and changes the
    visible memory as specified, and leaves the thread ready for the next ([does]). *)
From S2P Require Import Prelude Prog Epoch Meta Slots Registry State Heap Marking Participant Guards.
From S2P Require Import Pointers Barriers Collector Total Tasks Tracing Sweep TraceInv Roots Cycle Frame Rest Memory Mutator Alloc.
#[local] Open Scope Z_scope.
#[local] Open Scope prog_scope.

Section commands.
Context {EX : Extern} {V : Type} (ks gs : gset nat) (W : Color) (t : Z) (l k i f : nat).
Implicit Types (s : gstate V) (r : local).
#[local] Abbreviation heap_ok := (heap_ok W [] no_extra).
#[local] Abbreviation g := (mkGuard i k).
#[local] Abbreviation fuel := (S (S f)).
#[local] Abbreviation working_as := (working_as ks gs W t l k).
#[local] Abbreviation working := (working ks gs W t l k).
#[local] Abbreviation visible := (visible ks).

(** What running the command must do. *)
Definition does (x : command) s : Prop :=
  yields (exec fuel g x) s (fun y s' => working s' /\ astep k (visible s) x y (visible s')).

(** ** Reading and writing links *)
Lemma wrote nd s s' c q objs d : working_as nd s -> traced g [] (<[c := ManPtr.encode q]> (g_cells s)) objs s s' ->
  moved d (g_objs s) objs -> heap_ok objs (<[c := ManPtr.encode q]> (g_cells s)) -> ManPtr.ptr_ok q ->
  working s' /\ visible s' = put_link c (view q) (visible s).
Proof.
  intros H Htr Hm Hh Hq. destruct (working_traced ks gs W t l k nd s s' i _ _ d H Htr Hm Hh) as [H1 E].
  split; [done|]. rewrite E. by apply links_write.
Qed.
Lemma wrote_cell nd s c q : working_as nd s -> heap_ok (g_objs s) (<[c := ManPtr.encode q]> (g_cells s)) -> ManPtr.ptr_ok q ->
  let s' := set_g_cells (fun _ => <[c := ManPtr.encode q]> (g_cells s)) s in
  working s' /\ visible s' = put_link c (view q) (visible s).
Proof.
  intros H Hh Hq s'. apply (wrote nd s s' c q (g_objs s) (fun _ => 0)); try done; [|apply moved_refl].
  eapply traced_set_cells, traced_refl. by apply (working_local ks gs W t l).
Qed.

Lemma exec_load nd s c : working_as nd s -> allowed k (visible s) (CLoad c) -> does (CLoad c) s.
Proof.
  intros H [x Hx]. destruct (visible_link _ _ _ _ _ _ _ _ _ _ H Hx) as (p & Hc & Hp & -> & _).
  destruct (run_fetch_tag c p 0 g s (ck_ptr _ _ _ _ _ Hp) Hc) as [E _]. unfold does, exec. step_with E.
  apply yields_ret. split; [by exists nd|]. by constructor.
Qed.
Lemma retag_ok nd s c p tg : working_as nd s -> g_cells s !! c = Some (ManPtr.encode p) -> cell_ok W [] (g_objs s) c p ->
  0 <= tg < 2 ^ align_log -> heap_ok (g_objs s) (<[c := ManPtr.encode (retag tg p)]> (g_cells s)) /\ ManPtr.ptr_ok (retag tg p).
Proof.
  intros H Hc [Hp Ht' Hm] Htg. assert (Hr : ManPtr.ptr_ok (retag tg p)) by by split; [apply Hp|].
  assert (Hw : forall a, weight a (ManPtr.encode (retag tg p)) = weight a (ManPtr.encode p)) by (intros a; by rewrite !weight_encode).
  pose proof (working_heap _ _ _ _ _ _ _ _ H) as Hh. split; [|done].
  eapply (heap_ok_write W [] no_extra [] _ _ _ _ c p); [exact Hh|apply moved_refl|..]; try done.
  - intros a _. rewrite Hw. lia.
  - intros a Ha. rewrite Hw. split; [done|]. pose proof (heap_bound _ _ _ _ _ _ Hh Ha). lia.
Qed.
Lemma exec_tag_or nd s c tg : working_as nd s -> allowed k (visible s) (CTagOr c tg) -> does (CTagOr c tg) s.
Proof.
  intros H [x Hx]. destruct (visible_link _ _ _ _ _ _ _ _ _ _ H Hx) as (p & Hc & Hp & -> & _). pose proof (ck_ptr _ _ _ _ _ Hp) as Hok.
  destruct (run_fetch_tag c p tg g s Hok Hc) as (_ & E & _). unfold does, exec. step_with E.
  destruct (retag_ok nd s c p _ H Hc Hp (ManPtr.lor_range p Hok _ (tag_lt tg))) as [Hh Hq].
  destruct (wrote_cell nd s c _ H Hh Hq) as [H1 E1]. apply yields_ret. split; [done|]. rewrite E1.
  by apply (ATagOr k (visible s) c (view p).1 (view p).2 tg).
Qed.
Lemma exec_tag_xor nd s c tg : working_as nd s -> allowed k (visible s) (CTagXor c tg) -> does (CTagXor c tg) s.
Proof.
  intros H [x Hx]. destruct (visible_link _ _ _ _ _ _ _ _ _ _ H Hx) as (p & Hc & Hp & -> & _). pose proof (ck_ptr _ _ _ _ _ Hp) as Hok.
  destruct (run_fetch_tag c p tg g s Hok Hc) as (_ & _ & E). unfold does, exec. step_with E.
  destruct (retag_ok nd s c p _ H Hc Hp (ManPtr.lxor_range p Hok _ (tag_lt tg))) as [Hh Hq].
  destruct (wrote_cell nd s c _ H Hh Hq) as [H1 E1]. apply yields_ret. split; [done|]. rewrite E1.
  by apply (ATagXor k (visible s) c (view p).1 (view p).2 tg).
Qed.

(** A pointer the program passes, as a word. *)
Lemma given nd s v tg : working_as nd s -> live (visible s) v -> exists q, ManPtr.ptr_ok q /\ ptr_of v = ManPtr.encode q /\
  (ManPtr.p_addr q <> 0 -> is_Some (g_objs s !! target q)) /\ view (tagged q tg) = (v, tag_bits tg) /\ points s q /\
  ManPtr.p_meta q = Rooted /\ points s (tagged q tg).
Proof.
  intros H Hv. destruct (ptr_for_ok W [] no_extra _ _ v tg (working_heap _ _ _ _ _ _ _ _ H) (live_visible _ _ _ Hv)) as (H1 & H2 & H3 & H4).
  exists (ptr_for v). pose proof (points_tagged s (ptr_for v) tg (conj H1 H3)). split_and!; try done. by destruct v.
Qed.
(** A link is overwritten, whatever its owner. *)
Lemma wrote_rooted nd s s' c p q : working_as nd s -> g_cells s !! c = Some (ManPtr.encode p) -> cell_ok W [] (g_objs s) c p ->
  ManPtr.p_meta p = Rooted -> spare_roots (visible s) -> points s q ->
  traced g (root_barrier (n_item nd) N (add_rc 1 (target q) (g_objs s)) p) (<[c := ManPtr.encode (Barriers.rooted q)]> (g_cells s))
    (add_rc (-1) (target p) (add_rc 1 (target q) (g_objs s))) s s' ->
  working s' /\ visible s' = put_link c (view q) (visible s).
Proof.
  intros H Hc Hp Em Hs%spare_visible [Hq Hqt] Htr. rewrite root_barrier_N in Htr.
  destruct (heap_write_rooted W _ _ c p q (working_heap _ _ _ _ _ _ _ _ H) Hc Hq Hqt Hp Em Hs) as (d & Hm & Hh).
  by apply (wrote nd s s' c _ _ _ H Htr Hm Hh).
Qed.
Lemma wrote_unrooted nd s s' c p q : working_as nd s -> g_cells s !! c = Some (ManPtr.encode p) -> cell_ok W [] (g_objs s) c p ->
  ManPtr.p_meta p = Unrooted W -> points s q ->
  traced g (barrier (n_item nd) N (g_objs s) W p q) (<[c := ManPtr.encode (Marking.with_color W q)]> (g_cells s)) (g_objs s) s s' ->
  working s' /\ visible s' = put_link c (view q) (visible s).
Proof.
  intros H Hc Hp Em [Hq Hqt] Htr. destruct (working_reads _ _ _ _ _ _ _ _ H) as (_ & _ & Hcol & _). rewrite barrier_N in Htr by done.
  pose proof (heap_write_unrooted W _ _ c p q (working_heap _ _ _ _ _ _ _ _ H) Hc Hq Hqt Hp Em) as Hh.
  by apply (wrote nd s s' c _ _ _ H Htr (moved_refl _) Hh), with_color_ok.
Qed.
Lemma exec_swap nd s c v tg : working_as nd s -> allowed k (visible s) (CSwap c v tg) -> does (CSwap c v tg) s.
Proof.
  intros H ([x Hx] & Hv & Hs). destruct (visible_link _ _ _ _ _ _ _ _ _ _ H Hx) as (p & Hc & Hp & -> & Hpp).
  pose proof (working_heap _ _ _ _ _ _ _ _ H) as Hh. destruct (given nd s v tg H Hv) as (q & Hq & Eq & _ & Evq & _ & _ & Hpq).
  destruct (working_reads _ _ _ _ _ _ _ _ H) as (Hph & _ & _ & _ & Hgph). pose proof (working_local _ _ _ _ _ _ _ _ H) as Hl.
  unfold does, exec, swap_with_tag. rewrite Eq, ManPtr.encode_with_tag by done. fold (tagged q tg). apply yields_bind.
  destruct (ck_meta _ _ _ _ _ Hp) as [[Em _]|[Em _]].
  - pose proof (spare_visible _ _ Hs) as Hs'.
    destruct (run_swap_rooted (S f) c p (tagged q tg) g s (n_item nd) N Hl Hph Hgph Hc Hpp Hpq Em (hk_null _ _ _ _ _ Hh)
      (rc_room _ _ _ Hh _ Hs') (rc_held _ _ _ _ _ Hh Hc _ Hs' Hp Em)) as (s' & E & Htr).
    step_with E. apply yields_ret, yields_ret. rewrite as_local_encode by apply Hp.
    destruct (wrote_rooted _ _ _ _ _ _ H Hc Hp Em Hs Hpq Htr) as [H1 E1]. split; [done|]. rewrite E1, Evq. by constructor.
  - destruct (run_swap_unrooted (S f) c p (tagged q tg) W g s (n_item nd) N Hl Hph Hgph Hc Hpp Hpq Em) as (s' & E & Htr).
    step_with E. apply yields_ret, yields_ret. rewrite as_local_encode by apply Hp.
    destruct (wrote_unrooted _ _ _ _ _ _ H Hc Hp Em Hpq Htr) as [H1 E1]. split; [done|]. rewrite E1, Evq. by constructor.
Qed.
(** The word matches when the program would say so. *)
Lemma view_inj p q : view p = view q -> ManPtr.p_addr p = ManPtr.p_addr q /\ ManPtr.p_tag p = ManPtr.p_tag q.
Proof.
  unfold view. intros [= E1 E2]. split; [|done]. pose proof (target_eqb p q) as E.
  destruct (Z.eqb_spec (ManPtr.p_addr p) 0) as [E0|], (Z.eqb_spec (ManPtr.p_addr q) 0) as [E0'|]; simplify_eq; [congruence|].
  by rewrite E1, Z.eqb_refl in E; symmetry in E; apply Z.eqb_eq.
Qed.
Lemma expected nd s c p cur : working_as nd s -> cell_ok W [] (g_objs s) c p -> live (visible s) cur.1 ->
  (ManPtr.without_meta (ManPtr.encode p) =? ptr_of_tag cur) = true <-> view p = (cur.1, tag_bits cur.2).
Proof.
  intros H Hp Hv. destruct cur as [v tg]. destruct (given nd s v tg H Hv) as (q & Hq & Eq & _ & Evq & _ & Em & [Hqg _]). cbn [fst snd].
  pose proof (ck_ptr _ _ _ _ _ Hp) as Hok. rewrite (ptr_of_tag_encode v tg q Hq Eq), ManPtr.encode_without_meta, Z.eqb_eq by done.
  rewrite <- Evq. split.
  - intros E. apply encode_inj in E; [|done|done]. by rewrite <- E.
  - intros [E1 E2]%view_inj. unfold tagged. by rewrite Em, E1, E2.
Qed.
Lemma exec_cas nd s c cur new : working_as nd s -> allowed k (visible s) (CCas c cur new) -> does (CCas c cur new) s.
Proof.
  intros H ([x Hx] & Hcur & Hv & Hs). destruct (visible_link _ _ _ _ _ _ _ _ _ _ H Hx) as (p & Hc & Hp & -> & Hpp).
  pose proof (working_heap _ _ _ _ _ _ _ _ H) as Hh. destruct new as [v tg]. destruct (given nd s v tg H Hv) as (q & Hq & Eq & Hqt & Evq & _ & _ & Hpq).
  destruct (working_reads _ _ _ _ _ _ _ _ H) as (Hph & _ & _ & _ & Hgph). pose proof (working_local _ _ _ _ _ _ _ _ H) as Hl.
  pose proof (expected nd s c p cur H Hp Hcur) as Hexp. pose proof (spare_visible _ _ Hs) as Hs'. unfold does, exec.
  assert (Hfail : (ManPtr.without_meta (ManPtr.encode p) =? ptr_of_tag cur) = false ->
    run (compare_exchange_with_tag fuel c cur (v, tg) g) s = Ok (inr (as_local_with_tag (ManPtr.encode p)), s) -> does (CCas c cur (v, tg)) s).
  { intros En E. unfold does, exec. step_with E. apply yields_ret. rewrite as_local_encode by apply Hp. split; [by exists nd|].
    apply ACasFail; [done|]. intros Ev. by rewrite (proj2 Hexp Ev) in En. }
  destruct (ck_meta _ _ _ _ _ Hp) as [[Em _]|[Em _]].
  - pose proof (run_cas_rooted (S f) c p q cur v tg g s (n_item nd) N Hl Hph Hgph Hc Hpp (conj Hq Hqt) Em Eq (hk_null _ _ _ _ _ Hh)
      (rc_room _ _ _ Hh _ Hs') (rc_held _ _ _ _ _ Hh Hc _ Hs' Hp Em)) as E.
    destruct (_ =? _) eqn:Eb; [|by apply Hfail]. destruct E as (s' & E & Htr). step_with E. apply yields_ret.
    rewrite as_local_encode by apply Hp.
    destruct (wrote_rooted _ _ _ _ _ (tagged q tg) H Hc Hp Em Hs Hpq Htr) as [H1 E1]. split; [done|]. rewrite E1, Evq.
    rewrite (proj1 Hexp eq_refl) in *. by constructor.
  - pose proof (run_cas_unrooted (S f) c p q W cur v tg g s (n_item nd) N Hl Hph Hgph Hc Hpp (conj Hq Hqt) Em Eq) as E.
    destruct (_ =? _) eqn:Eb; [|by apply Hfail]. destruct E as (s' & E & Htr). step_with E. apply yields_ret.
    rewrite as_local_encode by apply Hp.
    destruct (wrote_unrooted _ _ _ _ _ (tagged q tg) H Hc Hp Em Hpq Htr) as [H1 E1]. split; [done|]. rewrite E1, Evq.
    rewrite (proj1 Hexp eq_refl) in *. by constructor.
Qed.

(** ** New links *)
Lemma fresh_link s : m_links (visible s) !! fresh (dom (g_cells s)) = None.
Proof. cbn. rewrite lookup_fmap, (proj1 (not_elem_of_dom (g_cells s) _)); [done|]. apply new_cell_fresh. Qed.
Lemma made nd s q : working_as nd s -> ManPtr.ptr_ok q -> ManPtr.p_meta q = Rooted -> (ManPtr.p_addr q <> 0 -> is_Some (g_objs s !! target q)) ->
  spare_roots (visible s) -> exists c s', run (new_cell (ManPtr.encode q)) (set_g_objs (fun _ => add_rc 1 (target q) (g_objs s)) s) = Ok (c, s') /\
    working s' /\ m_links (visible s) !! c = None /\ visible s' = put_link c (view q) (visible s).
Proof.
  intros H Hq Em Hqt Hs%spare_visible. set (c := fresh (dom (g_cells s))). pose proof (working_heap _ _ _ _ _ _ _ _ H) as Hh.
  exists c. eexists. split; [reflexivity|]. cut (forall s', traced g [] (<[c := ManPtr.encode q]> (g_cells s)) (add_rc 1 (target q) (g_objs s)) s s' ->
    working s' /\ visible s' = put_link c (view q) (visible s)).
  { intros Hw. edestruct Hw as [H1 H2]; [|split; [exact H1|]; split; [apply fresh_link|exact H2]].
    eapply (traced_set_cells _ _ (g_cells s)), (traced_set_objs _ _ _ (g_objs s)), traced_refl. by apply (working_local ks gs W t l). }
  intros s' Htr. apply (wrote nd s s' c q _ _ H Htr (moved_add_rc _ _ _)); [|done].
    apply (heap_ok_new_link W [] no_extra no_extra _ _ _ _ c q Hh (moved_add_rc _ _ _)); try done.
    + intros a Ha. rewrite weight_encode by done. unfold no_extra. repeat case_decide; naive_solver lia.
    + intros a Ha. split; [done|]. pose proof (root_links_le (g_cells s) a). unfold no_extra, weight. case_decide; lia.
    + apply not_elem_of_dom, new_cell_fresh.
Qed.
Lemma exec_none nd s tg : working_as nd s -> allowed k (visible s) (CNone tg) -> does (CNone tg) s.
Proof.
  intros H Hs. set (q := ManPtr.mkP Rooted 0 (tag_bits tg)). pose proof align_log_ok as Hal.
  assert (Hq : ManPtr.ptr_ok q) by (split; [cbn; lia|apply tag_lt]).
  destruct (made nd s q H Hq eq_refl ltac:(done) Hs) as (c & s' & E & H1 & Hc & E1). unfold does, exec, none_with_tag.
  rewrite target_null, add_rc_null in E by (done || by eapply hk_null, working_heap).
  rewrite ManPtr.null_rooted_encode. fold (tag_bits tg). fold q. replace s with (set_g_objs (fun _ => g_objs s) s) at 1 by by destruct s.
  step_with E. apply yields_ret. split; [done|]. rewrite E1. by constructor.
Qed.
Lemma exec_clone nd s c : working_as nd s -> allowed k (visible s) (CClone c) -> does (CClone c) s.
Proof.
  intros H [(a & tg & Hx) Hs]. destruct (visible_link _ _ _ _ _ _ _ _ _ _ H Hx) as (p & Hc & [Hp Hpt _] & Ev & _).
  assert (Hn : ManPtr.p_addr p <> 0) by (intros E; unfold view in Ev; by rewrite E in Ev). destruct (Hpt Hn) as [o Ho].
  destruct (run_increment (target p) s o Ho (rc_room _ _ _ (working_heap _ _ _ _ _ _ _ _ H) _ (spare_visible _ _ Hs))) as (n & E & _).
  destruct (made nd s (Barriers.rooted p) H) as (c' & s' & E2 & H1 & Hc' & E1); try done.
  unfold does, exec, shared_clone. apply yields_bind. step_with (run_load_cell _ _ _ Hc).
  rewrite ManPtr.encode_is_null, (proj2 (Z.eqb_neq _ _) Hn), ManPtr.encode_as_ptr, ManPtr.encode_with_meta by done.
  apply yields_bind, yields_ret. step_with E. eapply yields_run; [exact E2|]. apply yields_ret. split; [done|]. rewrite E1.
  apply AClone; [|done]. by rewrite Ev in Hx.
Qed.
Lemma held_object nd s a : working_as nd s -> live (visible s) (Some a) -> exists o, g_objs s !! a = Some o /\ plain_word a.
Proof.
  intros H Ha. destruct (live_visible _ _ _ Ha a eq_refl) as [o Ho]. exists o. split; [done|].
  eapply plain_live; [exact (working_heap _ _ _ _ _ _ _ _ H)|by eexists].
Qed.
Lemma run_as_man_ptr a s : plain_word a -> run (local_as_man_ptr a) s = Ok (a, s).
Proof. intros H. unfold local_as_man_ptr. by rewrite (pw_plain _ H), Z.eqb_refl. Qed.
Lemma exec_shared nd s a : working_as nd s -> allowed k (visible s) (CShared a) -> does (CShared a) s.
Proof.
  intros H [Ha Hs]. destruct (held_object nd s a H Ha) as (o & Ho & Hq).
  destruct (run_increment a s o Ho (rc_room _ _ _ (working_heap _ _ _ _ _ _ _ _ H) _ (spare_visible _ _ Hs))) as (n & E & _).
  destruct (made nd s (ptr_to a 0) H) as (c & s' & E2 & H1 & Hc' & E1); try done; [apply Hq|intros _; rewrite (pw_target _ Hq); by eexists|].
  rewrite (pw_target _ Hq), (pw_word _ Hq) in E2.
  unfold does, exec, local_as_shared, local_as_atomic_shared. apply yields_bind. step_with (run_as_man_ptr a s Hq).
  rewrite (pw_null _ Hq), (pw_ptr _ Hq), (pw_meta _ Hq). apply yields_bind, yields_ret. step_with E. eapply yields_run; [exact E2|]. apply yields_ret. split; [done|].
  rewrite E1, (pw_view _ Hq). by constructor.
Qed.
Lemma exec_deref nd s a : working_as nd s -> allowed k (visible s) (CDeref a) -> does (CDeref a) s.
Proof.
  intros H Ha. destruct (held_object nd s a H Ha) as (o & Ho & Hq). unfold does, exec, local_deref.
  apply yields_bind. step_with (run_as_man_ptr a s Hq).
  rewrite (pw_null _ Hq), (pw_ptr _ Hq). step_with (run_deref a s o Ho). apply yields_ret, yields_ret. split; [by exists nd|].
  change (o_val o) with (ao_val (shape_of o)). constructor. cbn. by rewrite lookup_fmap, Ho.
Qed.

(** ** Hazard pointers *)
(** The slots of the participant change, nothing else. *)
Lemma reslotted nd s r' held : working_as nd s -> slots_only (n_item nd) r' -> hz_inv r' held ->
  working (put_local k r' s) /\ visible (put_local k r' s) = set_m_hazards <[k := slots_held r']> (visible s).
Proof.
  intros H Es Hz. pose proof (working_local _ _ _ _ _ _ _ _ H) as Hl. pose proof (working_heap _ _ _ _ _ _ _ _ H) as Hh. split.
  - exists (mkNode (n_using nd) r'). apply (working_put ks gs W t l k s _ nd r' held H); try done; [|by rewrite Es].
    rewrite Es. by constructor.
  - apply visible_slots; try done; [exact (wk_mine _ _ _ _ _ _ _ _ H)|apply local_of_put; by eexists|]. intros j Hj. by apply local_of_put_ne.
Qed.
Lemma visible_slots_held nd s : working_as nd s -> m_hazards (visible s) !! k = Some (slots_held (n_item nd)).
Proof.
  intros H. rewrite slots_map_lookup, decide_True by exact (wk_mine _ _ _ _ _ _ _ _ H). unfold slots_of. by rewrite (working_local _ _ _ _ _ _ _ _ H).
Qed.
Lemma exec_protect nd s T a : working_as nd s -> allowed k (visible s) (CProtect T a) -> does (CProtect T a) s.
Proof.
  intros H (o & Ho & _). destruct (held_object nd s a H ltac:(by eexists)) as (_ & _ & Hq).
  pose proof (working_local _ _ _ _ _ _ _ _ H) as Hl. destruct (working_slots _ _ _ _ _ _ _ _ H) as [held Hz].
  destruct (run_hp_new k s (n_item nd) held Hl Hz) as (h & r1 & E1 & Hz1 & Hh & Hpre & Hh0 & Es1).
  assert (Hl1 : local_of (put_local k r1 s) k = Some r1) by (apply local_of_put; by eexists).
  destruct (proj1 (run_hp_protect_drop k _ r1 h held T a Hl1 Hz1)) as (r2 & E2 & Hz2 & Eh2 & Es2). rewrite put_put_local in E2.
  assert (Es : slots_only (n_item nd) r2) by (unfold slots_only in *; by rewrite Es2, Es1).
  destruct (reslotted nd s r2 (h :: held) H Es Hz2) as [H1 E].
  unfold does, exec, local_protect, handle_protect. apply yields_bind. step_with (run_as_man_ptr a s Hq). apply yields_bind. step_with E1.
  step_with E2. apply yields_ret, yields_ret, yields_ret. split; [done|]. cbn [snd]. rewrite E.
  rewrite (pw_ptr _ Hq) in Eh2.
  replace (slots_held r2) with (<[h := a]> (slots_held (n_item nd))).
  - apply AProtect; [by apply visible_slots_held|]. rewrite (slots_held_lookup _ held) by done. by rewrite decide_False.
  - apply map_eq. intros j. rewrite (slots_held_lookup r2 (h :: held)), Eh2 by done. destruct (decide (j = h)) as [->|Hj].
    + rewrite lookup_insert_eq, decide_True by by left. symmetry. apply list_lookup_insert_eq, lookup_lt_is_Some. by eexists.
    + rewrite lookup_insert_ne, list_lookup_insert_ne, (slots_held_lookup _ held) by done. repeat case_decide; try set_solver.
      assert (Hlt : (j < length (l_hazards (n_item nd)))%nat) by by eapply hz_held_lt.
      apply lookup_lt_is_Some in Hlt as [x Hx]. rewrite Hx. symmetry. by eapply prefix_lookup_Some.
Qed.
Lemma exec_release nd s hp : working_as nd s -> allowed k (visible s) (CRelease hp) -> does (CRelease hp) s.
Proof.
  intros H [Ehp (hz & Ehz & Hin)]. destruct hp as [h j]. cbn in Ehp, Hin. subst j. rewrite (visible_slots_held nd s H) in Ehz. injection Ehz as <-.
  pose proof (working_local _ _ _ _ _ _ _ _ H) as Hl. destruct (working_slots _ _ _ _ _ _ _ _ H) as [held0 Hz0].
  rewrite (slots_held_lookup _ held0) in Hin by done. destruct (decide (h ∈ held0)) as [Hh|]; [|by destruct Hin].
  apply elem_of_Permutation in Hh as [held Hp]. assert (Hz : hz_inv (n_item nd) (h :: held)) by (destruct Hz0; constructor; try done; by rewrite <- Hp).
  destruct (proj2 (run_hp_protect_drop k s (n_item nd) h held 0%nat 0 Hl Hz)) as (r' & E & Hz' & Eh & Es).
  destruct (reslotted nd s r' held H Es Hz') as [H1 E1]. unfold does, exec. step_with E. apply yields_ret. split; [done|]. rewrite E1.
  replace (slots_held r') with (delete h (slots_held (n_item nd))); [apply ARelease; by apply visible_slots_held|].
  assert (Hnd : h ∉ held).
  { assert (Hn : NoDup (l_hids (n_item nd) ++ h :: held)) by (rewrite (hz_perm _ _ Hz); apply NoDup_seq).
    apply NoDup_app in Hn as (_ & _ & [? _]%NoDup_cons). done. }
  apply map_eq. intros j. rewrite (slots_held_lookup r' held) by done. destruct (decide (j = h)) as [->|Hj].
  - by rewrite lookup_delete_eq, decide_False.
  - rewrite lookup_delete_ne, (slots_held_lookup _ (h :: held)), Eh, list_lookup_insert_ne by done. repeat case_decide; set_solver.
Qed.

(** ** Dropping a link *)
(** A guard taken while the participant is pinned. *)
Lemma run_nested_pin s r : local_of s k = Some r -> l_guard_count r = 1 -> exists j, (j ∉ dom (g_help s)) /\
  run (r_pin (tie fuel fuel) k) s = Ok (mkGuard j k, put_local k (set_l_guard_count (fun _ => 2) r) (set_g_help <[j := false]> s)).
Proof.
  intros Hl Hc. exists (fresh (dom (g_help s))). split; [apply is_fresh|]. cbn [tie r_pin]. unfold pin_body, guard_new, pin_inner.
  rewrite run_bind. cbn [atomic run]. set (s1 := set_g_help _ s). assert (Hl1 : local_of s1 k = Some r) by done.
  rewrite run_bind, run_bind, (run_get_local _ _ _ _ Hl1), Hc. change (1 + 1 <? wmod) with true. cbn [unwrap bind].
  by rewrite run_bind, (run_upd_local _ _ _ _ Hl1).
Qed.
Lemma run_nested_drop j s r : local_of s k = Some r -> l_guard_count r = 2 -> g_help s !! j = Some false ->
  run (r_drop (tie fuel fuel) (mkGuard j k)) s = Ok (tt, set_g_help (delete j) (put_local k (set_l_guard_count (fun _ => 1) r) s)).
Proof.
  intros Hl Hc Hj. cbn [tie r_drop]. unfold drop_body, help_collect_if_scheduled, unpin_inner. rewrite run_bind, run_bind.
  cbn [gets atomic run gd_id]. rewrite Hj. cbn [default]. change (Datatypes.id false) with false. cbn [run gd_local].
  rewrite run_bind, run_bind, (run_get_local _ _ _ _ Hl), Hc. change (checked_sub 2 1) with (@Ret (gstate V) Z 1). cbn [bind].
  by rewrite run_bind, (run_upd_local _ _ _ _ Hl).
Qed.
(** Giving up a root of an object between collections. *)
Lemma run_give_up nd s c p : working_as nd s -> g_cells s !! c = Some (ManPtr.encode p) -> cell_ok W [] (g_objs s) c p ->
  ManPtr.p_meta p = Rooted -> run (aso_drop (tie fuel fuel) k c) s = Ok (tt, set_g_objs (fun _ => add_rc (-1) (target p) (g_objs s)) s).
Proof.
  intros H Hc Hp Em. pose proof Hp as [Hok Hpt _]. pose proof (working_heap _ _ _ _ _ _ _ _ H) as Hh.
  unfold aso_drop. rewrite run_bind, (run_load_cell _ _ _ Hc), ManPtr.encode_meta, decide_False by (done || (rewrite Em; by intros [])).
  rewrite ManPtr.encode_is_null by done. destruct (Z.eqb_spec (ManPtr.p_addr p) 0) as [E0|E0].
  { rewrite (target_null _ E0), add_rc_null by by eapply hk_null. by destruct s. }
  destruct (Hpt E0) as [o Ho]. rewrite ManPtr.encode_as_ptr by done. fold (target p). pose proof (working_local _ _ _ _ _ _ _ _ H) as Hl.
  pose proof (wk_count _ _ _ _ _ _ _ _ H) as Hcount. destruct (run_nested_pin s (n_item nd) Hl Hcount) as (j & Hj & E1). rewrite run_bind, E1.
  set (r2 := set_l_guard_count _ _). set (s1 := put_local k r2 _). assert (Hl1 : local_of s1 k = Some r2) by (apply (local_of_put k r2 _); by eexists).
  destruct (run_decrement (target p) s1 o Ho (rc_pos _ _ _ _ _ Hh Hc Hp Em)) as (n & E2 & _). rewrite run_bind, E2.
  set (s2 := set_g_objs _ s1). assert (Hend : run (r_drop (tie fuel fuel) (mkGuard j k)) s2 = Ok (tt, set_g_objs (fun _ => add_rc (-1) (target p) (g_objs s)) s)).
  { rewrite (run_nested_drop j s2 r2 Hl1 eq_refl) by apply lookup_insert_eq. f_equal. f_equal.
    change (set_g_objs (fun _ => add_rc (-1) (target p) (g_objs s)) (set_g_help (fun _ => delete j (<[j := false]> (g_help s)))
      (put_local k (set_l_guard_count (fun _ => 1) r2) (put_local k r2 s))) = set_g_objs (fun _ => add_rc (-1) (target p) (g_objs s)) s).
    rewrite put_put_local. replace (set_l_guard_count (fun _ => 1) r2) with (n_item nd) by (unfold r2; rewrite <- Hcount; by destruct (n_item nd)).
    rewrite put_local_id, delete_insert_id by (done || by apply not_elem_of_dom). by destruct s. }
  rewrite run_bind. destruct (n =? 1); [|exact Hend]. destruct (working_reads _ _ _ _ _ _ _ _ H) as (_ & _ & _ & _ & Hgph).
  by rewrite run_bind, (run_global_phase s2 N Hgph).
Qed.
Lemma owned_visible s c : in_object (visible s) c <-> owned_link (g_objs s) c.
Proof.
  split; intros (a & o & Ho & Hc).
  - cbn in Ho. rewrite lookup_fmap in Ho. apply fmap_Some in Ho as (o' & Ho' & ->). by exists a, o'.
  - exists a, (shape_of o). cbn. by rewrite lookup_fmap, Ho.
Qed.
Lemma yields_drop_link nd s c : working_as nd s -> is_Some (m_links (visible s) !! c) -> ~ in_object (visible s) c ->
  yields (drop_link fuel k c) s (fun _ s' => working s' /\ visible s' = set_m_links (delete c) (visible s)).
Proof.
  intros H [x Hx] Hn. destruct (visible_link _ _ _ _ _ _ _ _ _ _ H Hx) as (p & Hc & Hp & -> & _). rewrite owned_visible in Hn.
  assert (Em : ManPtr.p_meta p = Rooted) by by destruct (ck_meta _ _ _ _ _ Hp) as [[? _]|(_ & ? & _)].
  pose proof (ck_ptr _ _ _ _ _ Hp) as Hok. pose proof (working_heap _ _ _ _ _ _ _ _ H) as Hh.
  unfold drop_link. step_with (run_give_up nd s c p H Hc Hp Em). eapply yields_run; [reflexivity|].
  destruct (working_traced ks gs W t l k nd s (set_g_cells (delete c) (set_g_objs (fun _ => add_rc (-1) (target p) (g_objs s)) s)) i (delete c (g_cells s))
    (add_rc (-1) (target p) (g_objs s)) (fun a => if decide (a = target p) then -1 else 0) H) as [H1 E1]; [|apply moved_add_rc|..].
  - eapply (traced_set_cells _ _ (g_cells s)), (traced_set_objs _ _ _ (g_objs s)), traced_refl. by apply (working_local ks gs W t l).
  - apply (heap_ok_drop_link W [] no_extra _ _ _ _ c p Hh (moved_add_rc _ _ _)); try done.
    intros a Ha. rewrite weight_encode by done. repeat case_decide; naive_solver lia.
  - split; [done|]. rewrite E1. unfold set_m_links at 1. cbn [m_links visible]. by rewrite fmap_delete.
Qed.
Lemma exec_drop nd s c : working_as nd s -> allowed k (visible s) (CDrop c) -> does (CDrop c) s.
Proof.
  intros H [Hc Hn]. unfold does, exec. eapply yields_then; [exact (yields_drop_link nd s c H Hc Hn)|]. intros [] s' [H' E].
  apply yields_ret. split; [done|]. rewrite E. constructor.
Qed.

(** ** Helping: nothing is left to sweep *)
Lemma kept_same nd s f' : working_as nd s -> alike (n_item nd) (f' (n_item nd)) -> l_objs (f' (n_item nd)) = l_objs (n_item nd) ->
  same_slots (n_item nd) (f' (n_item nd)) -> yields (upd_local k f') s (fun _ s' => working s' /\ visible s' = visible s).
Proof.
  intros H Ha Eo Es. pose proof (working_local _ _ _ _ _ _ _ _ H) as Hl. eapply yields_run; [apply (run_upd_local _ _ _ _ Hl)|].
  destruct (working_same ks gs W t l k nd s _ (g_help s) H Ha Eo Es) as [H1 E1]. split; [by eexists|done].
Qed.
Lemma run_empty_shard nd s w q : working_as nd s -> (q < OBJ_BATCHES_SHARD)%nat -> run (try_pop_marked_q w q) s = Ok (None, s).
Proof.
  intros H Hq. pose proof (ar_rest _ _ _ _ _ (wk_rest _ _ _ _ _ _ _ _ H)) as HR. destruct (rs_marked _ _ _ _ HR w q Hq) as [bs Hbs].
  pose proof (batches_at _ _ _ _ Hq Hbs) as Hs. rewrite (rs_no_marked _ _ _ _ HR w) in Hs. apply submseteq_nil_r in Hs as ->.
  change (queue_at (g_marked s) w q = Some []) in Hbs. unfold try_pop_marked_q. cbn [atomic run]. by rewrite Hbs.
Qed.
Lemma yields_permut_same nd s : working_as nd s -> yields (generate_shard_permut k) s (fun perm s' =>
  (forall q, q ∈ perm -> (q < OBJ_BATCHES_SHARD)%nat) /\ working s' /\ visible s' = visible s).
Proof.
  intros H. pose proof (working_local _ _ _ _ _ _ _ _ H) as Hl. unfold generate_shard_permut. step_with (run_get_local k (fun r => rng_shuffle (l_rng r) (seq 0 OBJ_BATCHES_SHARD)) s _ Hl).
  eapply yields_then; [by apply (kept_same nd)|]. intros [] s' H'. apply yields_ret. split; [|done].
  intros q. rewrite rng_shuffle_perm. intros Hq%elem_of_seq. lia.
Qed.
Lemma yields_sweep_nothing (R : recs) nd s : working_as nd s ->
  yields (help_normal_inner (S (S f)) R g) s (fun _ s' => working s' /\ visible s' = visible s).
Proof.
  intros H. unfold help_normal_inner. eapply yields_then; [exact (yields_permut_same nd s H)|]. intros perm s1 (Hq & H1 & E1).
  eapply yields_then.
  - apply (yields_for_each (fun _ _ s' => working s' /\ visible s' = visible s) (fun _ s' => working s' /\ visible s' = visible s)); [done|].
    intros pre q post trial s2 Ep [[nd2 H2] E2]. destruct (working_reads _ _ _ _ _ _ _ _ H2) as (_ & _ & Hcol & _).
    step_with (run_black g s2 _ (working_local _ _ _ _ _ _ _ _ H2)). cbn [loop]. apply yields_bind.
    step_with (run_empty_shard nd2 s2 (flip (color (l_epoch (n_item nd2)))) q H2 ltac:(apply Hq; rewrite Ep; set_solver)).
    apply yields_ret, yields_ret. split; [by exists nd2|done].
  - intros [n|[]] s2 H2; by apply yields_ret.
Qed.
Lemma yields_help_normal (R : recs) nd s : working_as nd s ->
  yields (help_collect (S (S f)) R g) s (fun _ s' => working s' /\ visible s' = visible s).
Proof.
  intros H. destruct (working_reads _ _ _ _ _ _ _ _ H) as (_ & Hph & _). pose proof (working_local _ _ _ _ _ _ _ _ H) as Hl.
  assert (Egp : run (guard_phase g) s = Ok (N, s)).
  { unfold guard_phase, local_epoch, pinned_epoch. rewrite run_bind, (run_get_local _ _ _ _ Hl). unfold phase_of. by rewrite Hph. }
  unfold help_collect. step_with Egp. unfold help_normal. step_with Egp. rewrite decide_False by by intros [].
  unfold call_without_recursion. step_with (run_get_local k l_helping_normal s _ Hl).
  destruct (l_helping_normal (n_item nd)); [apply yields_ret; split; [by exists nd|done]|].
  eapply yields_then; [by apply (kept_same nd)|]. intros [] s1 [[nd1 H1] E1].
  eapply yields_then; [by apply (yields_sweep_nothing R nd1)|]. intros [] s2 [[nd2 H2] E2].
  eapply yields_mono; [by apply (kept_same nd2)|]. intros [] s3 [H3 E3]. split; [done|]. congruence.
Qed.
Lemma exec_help nd s : working_as nd s -> does CHelp s.
Proof.
  intros H. unfold does, exec. eapply yields_then; [exact (yields_help_normal _ nd s H)|]. intros [] s1 [H1 E1].
  apply yields_ret. split; [done|]. rewrite E1. constructor.
Qed.

(** ** New objects *)
Lemma fresh_visible s a : g_objs s !! a = None -> m_objs (visible s) !! a = None.
Proof. intros H. cbn. by rewrite lookup_fmap, H. Qed.
Lemma run_alloc_color nd s : working_as nd s -> run (alloc_color g) s = Ok (W, s).
Proof. intros H%working_building. by destruct (building_color _ _ _ _ _ _ _ _ _ _ _ H). Qed.
Lemma exec_new nd s it : working_as nd s -> allowed k (visible s) (CNew it) -> does (CNew it) s.
Proof.
  intros H Hall. pose proof (run_alloc_color nd s H) as Eac. unfold does, exec, local_new, alloc_unrooted. apply yields_bind. step_with Eac.
  apply yields_bind, yields_assoc. apply working_building in H. eapply yields_then.
  { apply (yields_make ks gs W t l k i f (fun _ => no_extra) nd s it 0 H Hall); [lia|done]. }
  intros a s1 (Hna & (nd1 & H1) & (o & Ho & El) & E1). apply yields_ret. pose proof (plain_live _ _ _ _ _ _ (bu_heap _ _ _ _ _ _ _ _ _ _ _ H1) ltac:(by eexists)) as Hq.
  assert (Ea : ManPtr.as_ptr (ManPtr.without_meta (ManPtr.with_meta a (Unrooted W))) = a).
  { rewrite <- (pw_word _ Hq) at 1. rewrite ManPtr.encode_with_meta, ManPtr.encode_without_meta, ManPtr.encode_as_ptr by (done || apply Hq). apply Hq. }
  rewrite Ea, <- El in *. eapply yields_then; [by apply (yields_unroot_all ks gs W t l k i no_extra nd1 s1 a o)|]. intros [] s2 (H2 & E2 & _ & _).
  apply yields_ret, yields_ret. split; [exists nd1; by apply working_building|]. rewrite E2, E1. constructor. by apply fresh_visible.
Qed.
Lemma exec_some nd s it tg : working_as nd s -> allowed k (visible s) (CSome it tg) -> does (CSome it tg) s.
Proof.
  intros H [Hall Hsp]. pose proof (run_alloc_color nd s H) as Eac. unfold does, exec, some_with_tag, alloc_rooted. apply yields_bind. step_with Eac.
  apply yields_bind, yields_bind, yields_ret, yields_assoc. apply working_building in H. set (rts := fun a b : Z => if decide (b = a) then 1 else 0).
  eapply yields_then.
  { apply (yields_make ks gs W t l k i f rts nd s it 1 H Hall); [lia|]. intros a. unfold rts. split; [by rewrite decide_True|intros b Hb; by rewrite decide_False]. }
  intros a s1 (Hna & (nd1 & H1) & (o & Ho & El) & E1). apply yields_ret. pose proof (plain_live _ _ _ _ _ _ (bu_heap _ _ _ _ _ _ _ _ _ _ _ H1) ltac:(by eexists)) as Hq.
  rewrite (pw_meta _ Hq), (pw_ptr _ Hq), <- El in *. eapply yields_then; [apply (yields_unroot_all ks gs W t l k i (rts a) nd1 s1 a o H1); [|done]|].
  { intros b. unfold rts. by case_decide. }
  intros [] s2 (H2 & E2 & _ & Ha2). destruct (Ha2 a) as [o2 Ho2]; [by eexists|].
  set (q := tagged (ptr_to a 0) tg). assert (Hqok : ManPtr.ptr_ok q) by (split; [apply (pw_ok _ Hq)|apply tag_lt]).
  assert (Ew : ManPtr.with_tag a tg = ManPtr.encode q) by (rewrite <- (pw_word _ Hq) at 1; by rewrite ManPtr.encode_with_tag by apply Hq). rewrite Ew.
  assert (El2 : m_links (visible s2) = m_links (visible s)) by by rewrite E2, E1.
  eapply yields_mono.
  { apply (yields_link_new ks gs W t l k nd1 s2 a q H2); try done; [exact (pw_target _ Hq)|]. unfold spare_roots. by rewrite El2. }
  intros c s3 (H3 & Hc & E3). apply yields_ret. split; [exists nd1; by apply working_building|]. rewrite E3, E2, E1.
  assert (Ev : view q = (Some a, tag_bits tg)).
  { change (view q) with (pair (view (ptr_to a 0)).1 (tag_bits tg)). by rewrite (pw_view _ Hq). }
  rewrite Ev. constructor; [by apply fresh_visible|by rewrite <- El2].
Qed.

(** ** Weak compare-exchange *)
Lemma exec_weak_done nd s c cur v tg p q : working_as nd s -> g_cells s !! c = Some (ManPtr.encode p) -> cell_ok W [] (g_objs s) c p ->
  points s p -> spare_roots (visible s) -> ManPtr.ptr_ok q -> points s q -> points s (tagged q tg) -> ptr_of v = ManPtr.encode q ->
  view (tagged q tg) = (v, tag_bits tg) -> view p = (cur.1, tag_bits cur.2) ->
  (ManPtr.without_meta (ManPtr.encode p) =? ptr_of_tag cur) = true -> does (CWeak false c cur (v, tg)) s.
Proof.
  intros H Hc Hp Hpp Hs Hq Hpq Hpt Eq Evq Ev Eb. pose proof (working_heap _ _ _ _ _ _ _ _ H) as Hh. pose proof (spare_visible _ _ Hs) as Hs'.
  destruct (working_reads _ _ _ _ _ _ _ _ H) as (Hph & _ & _ & _ & Hgph). pose proof (working_local _ _ _ _ _ _ _ _ H) as Hl.
  pose proof (visible_cell ks s c p (ck_ptr _ _ _ _ _ Hp) Hc) as Hx. unfold does, exec. destruct (ck_meta _ _ _ _ _ Hp) as [[Em _]|[Em _]].
  - destruct (run_weak_rooted fuel c p q cur v tg g s (n_item nd) N Hl Hph Hgph Hc Hpp Hpq Em Eq (hk_null _ _ _ _ _ Hh)
      (rc_room _ _ _ Hh _ Hs') (rc_held _ _ _ _ _ Hh Hc _ Hs' Hp Em) Eb) as (s' & E & Htr). step_with E. apply yields_ret.
    rewrite as_local_encode by apply Hp. destruct (wrote_rooted _ _ _ _ _ (tagged q tg) H Hc Hp Em Hs Hpt Htr) as [H1 E1].
    split; [done|]. rewrite E1, Evq. rewrite Ev in *. by constructor.
  - destruct (run_weak_unrooted fuel c p q W cur v tg g s (n_item nd) N Hl Hph Hgph Hc Hpp Hpq Em Eq Eb) as (s' & E & Htr). step_with E. apply yields_ret.
    rewrite as_local_encode by apply Hp. destruct (wrote_unrooted _ _ _ _ _ (tagged q tg) H Hc Hp Em Hpt Htr) as [H1 E1].
    split; [done|]. rewrite E1, Evq. rewrite Ev in *. by constructor.
Qed.
(** A failure without need takes a root on the new object, and drops it. *)
Lemma yields_spurious_rooted nd s c p q w : working_as nd s -> g_cells s !! c = Some (ManPtr.encode p) -> cell_ok W [] (g_objs s) c p ->
  ManPtr.p_meta p = Rooted -> spare_roots (visible s) -> ManPtr.ptr_ok q -> (ManPtr.p_addr q <> 0 -> is_Some (g_objs s !! target q)) -> ManPtr.meta w = Rooted ->
  yields (sh <- try_inc_raw (ManPtr.encode q) ; x <- internal_cmpxchg_rooted true c (ManPtr.encode p) w g ;
    match x with
    | inl current => forget sh ;; Ret (inl (as_local_with_tag current))
    | inr current => drop_shared fuel g sh ;; Ret (inr (as_local_with_tag current))
    end) s (fun y s' => y = inr (view p) /\ working s' /\ visible s' = visible s).
Proof.
  intros H Hc Hp Em Hs Hq Hqt Hw. assert (Hcas : forall s1, g_cells s1 !! c = Some (ManPtr.encode p) ->
    run (internal_cmpxchg_rooted true c (ManPtr.encode p) w g) s1 = Ok (inr (ManPtr.encode p), s1)).
  { intros s1 Hc1. unfold internal_cmpxchg_rooted. rewrite ManPtr.encode_meta, Em, Hw, bool_decide_true by (done || apply Hp). cbn [assert_ bind].
    unfold cas_link. by rewrite run_bind, run_bind, (run_load_cell _ _ _ Hc1). }
  unfold try_inc_raw. rewrite ManPtr.encode_is_null by done. apply yields_bind. destruct (Z.eqb_spec (ManPtr.p_addr q) 0) as [E0|E0].
  - apply yields_ret. step_with (Hcas s Hc). apply yields_bind, yields_ret, yields_ret. rewrite as_local_encode by apply Hp. split; [done|]. split; [by exists nd|done].
  - rewrite ManPtr.encode_as_ptr by done. fold (target q). destruct (Hqt E0) as [o Ho].
    destruct (run_increment (target q) s o Ho (rc_room _ _ _ (working_heap _ _ _ _ _ _ _ _ H) _ (spare_visible _ _ Hs))) as (n & E1 & _). step_with E1.
    destruct (made nd s (Barriers.rooted q) H) as (c' & s1 & E2 & [nd1 H1] & Hc' & Ev1); try done.
    rewrite ManPtr.encode_with_meta by done. change (ManPtr.mkP Rooted _ _) with (Barriers.rooted q). step_with E2. apply yields_ret.
    pose proof (visible_cell ks s c p (ck_ptr _ _ _ _ _ Hp) Hc) as Hx. assert (Hne : c <> c') by (intros ->; by rewrite Hc' in Hx).
    assert (Ec1 : g_cells s1 = <[c' := ManPtr.encode (Barriers.rooted q)]> (g_cells s)) by (injection E2 as <- <-; done).
    step_with (Hcas s1 ltac:(by rewrite Ec1, lookup_insert_ne)). cbn [drop_shared]. eapply yields_then.
    { apply (yields_drop_link nd1 s1 c' H1); [rewrite Ev1; cbn; rewrite lookup_insert_eq; by eexists|].
      rewrite Ev1. change (~ in_object (visible s) c'). rewrite owned_visible. intros Ho'%(hk_link _ _ _ _ _ (working_heap _ _ _ _ _ _ _ _ H)).
      cbn in Hc'. rewrite lookup_fmap in Hc'. destruct Ho' as [w' Hw']. by rewrite Hw' in Hc'. }
    intros [] s2 [H2 E3]. apply yields_ret. rewrite as_local_encode by apply Hp. split; [done|]. split; [done|]. rewrite E3, Ev1.
    unfold put_link, set_m_links. cbn [m_objs m_links m_types m_hazards]. rewrite delete_insert_id by done. done.
Qed.
Lemma exec_weak nd s b c cur new : working_as nd s -> allowed k (visible s) (CWeak b c cur new) -> does (CWeak b c cur new) s.
Proof.
  intros H ([x Hx] & Hcur & Hv & Hs). destruct (visible_link _ _ _ _ _ _ _ _ _ _ H Hx) as (p & Hc & Hp & -> & Hpp).
  destruct new as [v tg]. destruct (given nd s v tg H Hv) as (q & Hq & Eq & Hqt & Evq & Hpq & Emq & Hpt).
  pose proof (expected nd s c p cur H Hp Hcur) as Hexp. pose proof (ck_ptr _ _ _ _ _ Hp) as Hok.
  destruct (ManPtr.without_meta (ManPtr.encode p) =? ptr_of_tag cur) eqn:Eb.
  2:{ unfold does, exec, compare_exchange_weak_with_tag. apply yields_bind. step_with (run_load_cell _ _ _ Hc). rewrite Eb. cbn [negb].
      apply yields_ret, yields_ret. rewrite as_local_encode by done. split; [by exists nd|]. apply AWeakFail; [done|right]. by intros Ev%Hexp. }
  destruct b; [|by apply (exec_weak_done nd s c cur v tg p q H Hc Hp Hpp Hs Hq Hpq Hpt Eq Evq (proj1 Hexp eq_refl))].
  unfold does, exec. destruct (ck_meta _ _ _ _ _ Hp) as [[Em _]|[Em _]].
  - apply yields_bind. unfold compare_exchange_weak_with_tag. step_with (run_load_cell _ _ _ Hc). rewrite Eb. cbn [negb].
    rewrite ManPtr.encode_meta, Em, decide_True by done. unfold internal_cmpxchg_weak_rooted. cbn [fst]. rewrite Eq, (ptr_of_tag_encode v tg q Hq Eq).
    eapply yields_mono.
    { apply (yields_spurious_rooted nd s c p q _ H Hc Hp Em Hs Hq Hqt). rewrite ManPtr.encode_with_meta, ManPtr.encode_meta by apply Hpt. done. }
    intros y s' (-> & H' & E'). apply yields_ret. split; [done|]. rewrite E'. apply AWeakFail; [done|by left].
  - destruct (working_reads _ _ _ _ _ _ _ _ H) as (_ & _ & Hcol & _).
    step_with (run_weak_spurious fuel c p q W cur v tg g s (n_item nd) (working_local _ _ _ _ _ _ _ _ H) Hc Hok Hq Em
      ltac:(unfold black_of; rewrite Hcol; by apply not_eq_sym, flip_ne) Eq).
    apply yields_ret. rewrite as_local_encode by done. split; [by exists nd|]. apply AWeakFail; [done|by left].
Qed.

(** ** Operations made of others *)
Lemma exec_store nd s c v tg : working_as nd s -> allowed k (visible s) (CStore c v tg) -> does (CStore c v tg) s.
Proof.
  intros H Hall. pose proof (yields_unmap _ _ _ _ (exec_swap nd s c v tg H Hall)) as Hsw. unfold does, exec, store_with_tag. apply yields_bind.
  eapply yields_then; [exact Hsw|]. intros x s' [H' (x' & _ & Hx & E)%swap_inv]. apply yields_ret, yields_ret. split; [done|]. rewrite E. by eapply AStore.
Qed.
(** [AtomicShared] takes the answer apart; a link that leads to an object gives one. *)
Lemma run_non_null_tag a tg s : run (non_null_tag (Some a, tg)) s = Ok ((a, tg), s).
Proof. done. Qed.
Lemma exec_load_a nd s c : working_as nd s -> allowed k (visible s) (CLoadA c) -> does (CLoadA c) s.
Proof.
  intros H (a & tg & Hx). pose proof (yields_unmap _ _ _ _ (exec_load nd s c H ltac:(by eexists))) as Hld. unfold does, exec, as_load_with_tag. apply yields_bind.
  eapply yields_then; [exact Hld|]. intros x s' [H' (x' & [= ->] & Hx' & E)%load_inv]. pose proof (eq_trans (eq_sym Hx) Hx') as Ex. injection Ex as <-.
  eapply yields_run; [apply run_non_null_tag|]. apply yields_ret. split; [done|]. rewrite E. by constructor.
Qed.
Lemma exec_swap_a nd s c b tg : working_as nd s -> allowed k (visible s) (CSwapA c b tg) -> does (CSwapA c b tg) s.
Proof.
  intros H ((a & tg' & Hx) & Hb & Hs). assert (Hall : allowed k (visible s) (CSwap c (Some b) tg)) by (split; [by eexists|done]).
  pose proof (yields_unmap _ _ _ _ (exec_swap nd s c (Some b) tg H Hall)) as Hsw.
  unfold does, exec, as_swap_with_tag. apply yields_bind. eapply yields_then; [exact Hsw|]. intros x s' [H' (x' & [= ->] & Hx' & E)%swap_inv].
  pose proof (eq_trans (eq_sym Hx) Hx') as Ex. injection Ex as <-. eapply yields_run; [apply run_non_null_tag|]. apply yields_ret. split; [done|]. rewrite E. by constructor.
Qed.
Lemma exec_cas_a nd s c cur new : working_as nd s -> allowed k (visible s) (CCasA c cur new) -> does (CCasA c cur new) s.
Proof.
  intros H ((a & tg & Hx) & Hcur & Hnew & Hs). destruct cur as [ca ct], new as [b bt].
  assert (Hall : allowed k (visible s) (CCas c (Some ca, ct) (Some b, bt))) by (split; [by eexists|done]).
  pose proof (yields_unmap _ _ _ _ (exec_cas nd s c (Some ca, ct) (Some b, bt) H Hall)) as Hcas.
  unfold does, exec, as_compare_exchange_with_tag. apply yields_bind. eapply yields_then; [exact Hcas|]. intros x s' [H' (x' & Hx' & Hy)%cas_inv].
  pose proof (eq_trans (eq_sym Hx) Hx') as Ex. injection Ex as <-. destruct Hy as [(Ex & [= ->] & E)|(Hne & [= ->] & E)]; cbn [non_null_cas_tag];
    (apply yields_bind; eapply yields_run; [apply run_non_null_tag|]); apply yields_ret, yields_ret; (split; [done|]); rewrite E.
  - cbn in Ex. injection Ex as -> ->. exact (ACasAOk k (visible s) c (ca, ct) b bt Hx).
  - apply ACasAFail; [done|]. cbn in *. congruence.
Qed.
(** ** Reading through a [Shared] *)
Lemma exec_as_local nd s c : working_as nd s -> allowed k (visible s) (CAsLocal c) -> does (CAsLocal c) s.
Proof.
  intros H (a & tg & Hx). destruct (visible_link _ _ _ _ _ _ _ _ _ _ H Hx) as (p & Hc & [Hp _ _] & Ev & _).
  unfold view in Ev. destruct (Z.eqb_spec (ManPtr.p_addr p) 0) as [|Hn]; [done|]. injection Ev as -> ->.
  unfold does, exec, shared_as_local, local_from_raw. apply yields_bind. step_with (run_load_cell _ _ _ Hc).
  rewrite ManPtr.encode_is_null, (proj2 (Z.eqb_neq _ _) Hn), ManPtr.encode_as_ptr by done. apply yields_bind, yields_ret, yields_ret, yields_ret.
  split; [by exists nd|]. by eapply AAsLocal.
Qed.
Lemma exec_deref_s nd s c : working_as nd s -> allowed k (visible s) (CDerefS c) -> does (CDerefS c) s.
Proof.
  intros H (a & tg & Hx). destruct (visible_link _ _ _ _ _ _ _ _ _ _ H Hx) as (p & Hc & [Hp Hpt _] & Ev & _).
  unfold view in Ev. destruct (Z.eqb_spec (ManPtr.p_addr p) 0) as [|Hn]; [done|]. injection Ev as -> ->. destruct (Hpt Hn) as [o Ho].
  unfold does, exec, shared_deref. apply yields_bind. step_with (run_load_cell _ _ _ Hc).
  rewrite ManPtr.encode_is_null, (proj2 (Z.eqb_neq _ _) Hn), ManPtr.encode_as_ptr by done. fold (target p). step_with (run_deref (target p) s o Ho). apply yields_ret, yields_ret.
  split; [by exists nd|]. change (o_val o) with (ao_val (shape_of o)). eapply ADerefS; [done|]. cbn. by rewrite lookup_fmap, Ho.
Qed.

(** ** Repinning *)
Lemma exec_repin nd s : working_as nd s -> does CRepin s.
Proof.
  intros H. unfold does, exec, guard_repin. apply yields_bind.
  eapply (yields_then _ _ _ (fun _ s' => working s' /\ visible s' = visible s)).
  - unfold help_collect_if_scheduled. eapply yields_step; [reflexivity|]. destruct (default false _); [|apply yields_ret; split; [by exists nd|done]].
    eapply yields_step; [reflexivity|]. destruct (working_same ks gs W t l k nd s (n_item nd) (<[i := false]> (g_help s)) H) as [H1 E1]; try done.
    rewrite put_local_id in H1, E1 by by eapply working_local. eapply yields_mono; [exact (yields_help_normal _ _ _ H1)|]. intros [] s' [H2 E2]. split; [done|]. by rewrite E2.
  - intros [] s1 [[nd1 H1] E1]. pose proof (working_local _ _ _ _ _ _ _ _ H1) as Hl. destruct (working_reads _ _ _ _ _ _ _ _ H1) as (_ & _ & _ & Ee & Hph).
    unfold repin_inner. cbn [gd_local]. set (r1 := unpin_rec (n_item nd1)).
    step_with (run_unpin k s1 (n_item nd1) Hl (wk_count _ _ _ _ _ _ _ _ H1)). fold r1. set (s2 := put_local k r1 s1).
    assert (Hl2 : local_of s2 k = Some r1) by (apply local_of_put; by eexists).
    eapply yields_run; [exact (run_pin_inner _ _ k s2 r1 N Hl2 eq_refl ltac:(done) Hph)|]. apply yields_ret. unfold s2. rewrite put_put_local.
    change (g_epoch (put_local k r1 s1)) with (g_epoch s1). rewrite Ee.
    destruct (working_same ks gs W t l k nd1 s1 (pin_rec (ep N W t) r1) (g_help s1) H1) as [H2 E2]; try done.
    { constructor; try done; cbn; symmetry; [apply (wk_count _ _ _ _ _ _ _ _ H1)|apply (wk_epoch _ _ _ _ _ _ _ _ H1)]. }
    replace (set_g_help _ _) with (put_local k (pin_rec (ep N W t) r1) s1) in H2, E2 by done.
    split; [by eexists|]. rewrite E2, E1. constructor.
Qed.

(** Every command. *)
Lemma exec_does nd s x : working_as nd s -> allowed k (visible s) x -> does x s.
Proof.
  intros H Hx. destruct x; [by eapply exec_load|by eapply exec_swap|by eapply exec_cas|by eapply exec_tag_or|by eapply exec_tag_xor|by eapply exec_none|
    by eapply exec_new|by eapply exec_some|by eapply exec_clone|by eapply exec_shared|by eapply exec_drop|by eapply exec_deref|by eapply exec_protect|
    by eapply exec_release|by eapply exec_help|by eapply exec_repin|by eapply exec_store|by eapply exec_weak|by eapply exec_load_a|by eapply exec_swap_a|
    by eapply exec_cas_a|by eapply exec_as_local|by eapply exec_deref_s].
Qed.
End commands.
