(* ===== verification/Threads.v ===== *)
(** * Threads that come, go, and hold guards at the same time

    Registering and unregistering a participant ([src/tls.rs], [src/utils/reusable_slots.rs]),
    pinning and unpinning it ([src/guards.rs]) between two collections, whatever guards the
    other threads hold: each keeps [opened], and does to the visible memory what [Memory] says. *)
From S2P Require Import Prelude Prog Epoch Meta Slots Registry State Heap Marking Participant Guards.
From S2P Require Import Pointers Barriers Collector Total Tasks Tracing Sweep TraceInv Roots Cycle Frame Rest Memory Mutator Commands.
#[local] Open Scope Z_scope.
#[local] Open Scope prog_scope.

Section threads.
Context {EX : Extern} {V : Type} (W : Color) (t : Z) (l f : nat).
Implicit Types (s : gstate V) (r : local) (nd : node local) (ks gs : gset nat) (k : nat).
#[local] Abbreviation fuel := (S (S f)).

(** ** One participant changes, the heap does not *)
Record reseated k nd s s' : Prop := {
  se_epoch : g_epoch s' = g_epoch s;
  se_objs : g_objs s' = g_objs s;
  se_cells : g_cells s' = g_cells s;
  se_reg : g_reg s' = g_reg s;
  se_fresh : g_fresh s' = g_fresh s;
  se_marked : g_marked s' = g_marked s;
  se_threads : g_threads s' = g_threads s;
  se_range : (k <= length (nodes (g_locals s)))%nat;
  se_nodes : forall j, nodes (g_locals s') !! j = if decide (j = k) then Some nd else nodes (g_locals s) !! j
}.
(** What it may become, between two collections. *)
Record seatable s k nd : Prop := {
  sb_parked : parked W t nd;
  sb_batch : local_batch W nd = from_option (local_batch W) [] (nodes (g_locals s) !! k);
  sb_tasks : l_tasks (n_item nd) = []
}.
Lemma batched_reseated s s' k nd : reseated k nd s s' -> seatable s k nd -> batched W s' = batched W s.
Proof.
  intros [_ _ _ _ Ef _ _ Hk Hn] [_ Hb _]. unfold batched, heap_batches. rewrite Ef. do 3 f_equal.
  destruct (nodes (g_locals s) !! k) as [nd0|] eqn:E0.
  - f_equal. apply list_eq. intros j. rewrite !list_lookup_fmap, Hn. case_decide as Ej; [|done]. subst j. rewrite E0. cbn. by rewrite Hb.
  - apply lookup_ge_None in E0. assert (k = length (nodes (g_locals s))) as Ek by lia.
    assert (nodes (g_locals s') = nodes (g_locals s) ++ [nd]) as ->.
    { apply list_eq. intros j. rewrite Hn. case_decide as Ej; [subst j; rewrite Ek; symmetry; by apply list_lookup_middle|].
      destruct (decide (j < length (nodes (g_locals s)))%nat); [by rewrite lookup_app_l|].
      rewrite !(proj2 (lookup_ge_None _ _)) by (rewrite ?length_app; cbn; lia). done. }
    rewrite fmap_app, concat_app. cbn. by rewrite Hb, !app_nil_r.
Qed.
Lemma at_rest_reseated ks ks' s s' k nd held : at_rest ks W t l s -> reseated k nd s s' -> seatable s k nd -> hz_inv (n_item nd) held ->
  k <> l -> (forall j, j <> k -> j ∈ ks' <-> j ∈ ks) -> (k ∈ ks' -> is_using nd = true) -> (k ∉ ks' -> held = []) -> at_rest ks' W t l s'.
Proof.
  intros [HR HH HG [M1 M2 M3]] Hse Hsb Hz Hkl Hks Hu Hheld. pose proof (batched_reseated _ _ _ _ Hse Hsb) as Eb.
  destruct Hse as [S1 S2 S3 S4 S5 S6 S7 _ Hn]. destruct Hsb as [P1 P2 P3]. pose proof (resting_books W t l s HR) as [B1 B2 B3 B4 B5 B6 B7 B8 B9 B10 B11].
  constructor; [apply heap_resting|..]; rewrite ?S2, ?S3, ?S4; try done.
  - constructor; rewrite ?Eb, ?S1, ?S2, ?S5, ?S6, ?S7; try done.
    + apply tasks_nil. intros j rj (ndj & Hj & ->)%fmap_Some. rewrite Hn in Hj. case_decide; [by injection Hj as <-|].
      apply (proj1 (tasks_nil s) B8 j). unfold local_of. by rewrite Hj.
    + intros j ndj Hj. rewrite Hn in Hj. case_decide; [by injection Hj as <-|by apply (B9 j)].
    + destruct B10 as (ndl & Hndl & Hrest). exists ndl. by rewrite Hn, decide_False by congruence.
  - constructor.
    + rewrite Hks by congruence. done.
    + intros j Hj. rewrite Hn. case_decide as Ej; [subst j; exists nd, held; split; [done|]; by split; [apply Hu|]|by apply M2, Hks].
    + intros j ndj Hj Hjk. rewrite Hn in Hj. case_decide as Ej; [subst j; injection Hj as <-; by rewrite <- (Hheld Hjk)|].
      apply (M3 j ndj Hj). by rewrite <- Hks.
Qed.

(** ** With guards held *)
Lemma unguarded_none s : unguarded ∅ s = s.
Proof.
  change (set_g_locals (fun _ => with_nodes (imap (unguard ∅) (nodes (g_locals s))) (g_locals s)) s = s).
  replace (imap _ _) with (nodes (g_locals s)); [|apply list_eq; intros j; rewrite list_lookup_imap; by destruct (_ !! j)].
  replace (with_nodes _ _) with (g_locals s) by by destruct (g_locals s). by destruct s.
Qed.
Lemma slots_unguarded gs s j : slots_of (unguarded gs s) j = slots_of s j.
Proof. unfold slots_of, local_of. rewrite nodes_unguarded. destruct (_ !! j) as [nd|]; [|done]. cbn. unfold unguard. by case_decide. Qed.
Lemma local_unguarded gs s k : k ∉ gs -> local_of (unguarded gs s) k = local_of s k.
Proof. intros Hk. unfold local_of. rewrite nodes_unguarded. destruct (_ !! k); [|done]. cbn. unfold unguard. by rewrite decide_False. Qed.
(** The state without guards follows. *)
Lemma reseated_unguarded gs gs' s s' k nd nd' : reseated k nd s s' -> (forall j, j <> k -> j ∈ gs' <-> j ∈ gs) ->
  unguard gs' k nd = nd' -> reseated k nd' (unguarded gs s) (unguarded gs' s').
Proof.
  intros [S1 S2 S3 S4 S5 S6 S7 Hk Hn] Hgs <-. constructor; try done; [cbn; by rewrite length_imap|].
  intros j. rewrite !nodes_unguarded, Hn. case_decide as Ej; [by subst|]. destruct (_ !! j); [|done]. cbn. f_equal. unfold unguard.
  by rewrite (decide_ext _ _ _ _ (Hgs j Ej)).
Qed.
Lemma put_reseated s k r h nd : nodes (g_locals s) !! k = Some nd -> reseated k (mkNode (n_using nd) r) s (set_g_help (fun _ => h) (put_local k r s)).
Proof.
  intros Hnd. constructor; try done; [apply lookup_lt_Some in Hnd; lia|]. intros j. cbn [g_locals set_g_help]. rewrite nodes_put.
  case_decide as Ej; [subst; by rewrite Hnd|done].
Qed.
Lemma visible_reseated ks s s' k nd nd' : nodes (g_locals s) !! k = Some nd -> reseated k nd' s s' -> same_slots (n_item nd) (n_item nd') ->
  visible ks s' = visible ks s.
Proof.
  intros Hnd [_ S2 S3 S4 _ _ _ _ Hn] (E1 & E2 & E3). rewrite (visible_eq ks s s'); [by rewrite S3| |done|by rewrite S2].
  intros j _. unfold slots_of, local_of. rewrite Hn. case_decide as Ej; [|done]. subst j. rewrite Hnd. cbn. unfold slots_held. by rewrite E1, E3.
Qed.
(** Participants may change which threads they serve. *)
Lemma opened_reseated ks ks' gs gs' s s' k nd held : opened ks gs W t l s -> reseated k nd s s' ->
  seatable (unguarded gs s) k (unguard gs' k nd) -> hz_inv (n_item nd) held -> k <> l -> (forall j, j <> k -> j ∈ ks' <-> j ∈ ks) ->
  (k ∈ ks' -> is_using nd = true) -> (k ∉ ks' -> held = []) -> (forall j, j <> k -> j ∈ gs' <-> j ∈ gs) ->
  (k ∈ gs' -> k ∈ ks' /\ l_guard_count (n_item nd) = 1 /\ l_epoch (n_item nd) = pinned (ep N W t)) -> opened ks' gs' W t l s'.
Proof.
  intros [O1 O2 O3] Hse Hsb Hz Hkl Hks Hu Hh Hgs Hk. pose proof (reseated_unguarded gs gs' s s' k nd _ Hse Hgs eq_refl) as Hse'. constructor; [done|..].
  - intros j Hj. unfold holds_guard. rewrite (se_nodes _ _ _ _ Hse). case_decide as Ej.
    + subst j. destruct (Hk Hj) as (Hk1 & Hk2 & Hk3). split; [done|]. by exists nd.
    + destruct (O2 j) as [Hj1 Hj2]; [by apply Hgs|]. split; [by apply Hks|done].
  - apply (at_rest_reseated ks ks' _ _ k _ held O3 Hse' Hsb); try done; unfold unguard; case_decide; try done. by destruct Hz.
Qed.
(** A thread that holds no guard. *)
Lemma opened_idle ks gs s k : opened ks gs W t l s -> k ∈ ks -> k ∉ gs -> exists nd held, nodes (g_locals s) !! k = Some nd /\ is_using nd = true /\
  hz_inv (n_item nd) held /\ parked W t nd /\ l_tasks (n_item nd) = [] /\ k <> l.
Proof.
  intros [_ _ [HR _ _ [M1 M2 _]]] Hk Hg. destruct (M2 k Hk) as (nd & held & Hnd & Hu & Hz). assert (Hnd' : nodes (g_locals s) !! k = Some nd).
  { rewrite nodes_unguarded in Hnd. destruct (_ !! k); [|done]. injection Hnd as <-. unfold unguard. by rewrite decide_False. }
  exists nd, held. split_and!; try done.
  - by apply (rs_parked _ _ _ _ HR k).
  - apply (proj1 (tasks_nil _) (rs_tasks _ _ _ _ HR) k). unfold local_of. by rewrite Hnd.
  - by intros ->.
Qed.

(** ** Coming and going *)
Lemma parked_default u : 0 <= t -> parked W t (mkNode (Some u) local_default).
Proof.
  intros Ht. constructor; try done.
  - intros b. destruct W; by intros [= <-].
  - intros b [->|[->|?%not_elem_of_nil]%elem_of_cons]%elem_of_cons; [apply spent_default..|done].
Qed.
Lemma slots_held_empty r held : hz_inv r held -> slots_held r = ∅ <-> held = [].
Proof.
  intros Hz. split.
  - intros E. destruct held as [|h held]; [done|]. pose proof (slots_held_lookup r _ h Hz) as Hh. rewrite E, decide_True, lookup_empty in Hh by by left.
    symmetry in Hh. apply lookup_ge_None in Hh. assert (h < length (l_hazards r))%nat by (eapply hz_held_lt; [done|by left]). lia.
  - intros ->. apply map_eq. intros h. by rewrite (slots_held_lookup r [] h Hz), lookup_empty, decide_False by apply not_elem_of_nil.
Qed.
Lemma guards_mine ks gs s k : opened ks gs W t l s -> k ∉ ks -> k ∉ gs.
Proof. intros H Hk Hg. by destruct (op_guards _ _ _ _ _ _ H k Hg). Qed.
Lemma visible_keep ks ks' s s' k nd h : reseated k nd s s' -> (forall j, j <> k -> j ∈ ks' <-> j ∈ ks) ->
  partial_alter (fun _ => if decide (k ∈ ks') then Some (slots_held (n_item nd)) else None) k (m_hazards (visible ks s)) = h ->
  visible ks' s' = set_m_hazards (fun _ => h) (visible ks s).
Proof.
  intros [_ S2 S3 S4 _ _ _ _ Hn] Hks <-. unfold visible at 1, set_m_hazards. cbn [m_objs m_links m_types m_hazards]. rewrite S2, S3, S4. f_equal.
  apply map_eq. intros j. change (m_hazards (visible ks' s') !! j = partial_alter (fun _ => if decide (k ∈ ks') then Some (slots_held (n_item nd)) else None) k (m_hazards (visible ks s)) !! j).
  rewrite slots_map_lookup. unfold slots_of, local_of. rewrite Hn. destruct (decide (j = k)) as [->|Hj].
  - by rewrite lookup_partial_alter_eq.
  - rewrite lookup_partial_alter_ne, slots_map_lookup by done. by rewrite (decide_ext _ _ _ _ (Hks j Hj)).
Qed.
Lemma yields_join ks gs s thread : opened ks gs W t l s -> (length (nodes (g_locals s)) < fuel)%nat ->
  yields (register fuel thread) s (fun k s' => m_hazards (visible ks s) !! k = None /\ opened ({[k]} ∪ ks) gs W t l s' /\
    visible ({[k]} ∪ ks) s' = set_m_hazards <[k := ∅]> (visible ks s)).
Proof.
  intros H Hf. destruct (run_register fuel thread s Hf) as (k & sl & fi & E & Hk & Hfree & Hn). eapply yields_run; [exact E|]. set (s' := set_g_locals _ _).
  pose proof (op_rest _ _ _ _ _ _ H) as [HR _ _ [M1 M2 M3]]. set (nd' := mkNode (Some (thread, true)) (base s k)).
  assert (Hse : reseated k nd' s s') by by constructor.
  assert (Hks : k ∉ ks).
  { intros Hin. destruct (M2 k Hin) as (nd & held & Hnd & Hu & _). rewrite nodes_unguarded in Hnd. destruct (_ !! k) as [nd0|] eqn:E0; [|done].
    injection Hnd as <-. specialize (Hfree nd0 eq_refl). unfold unguard, is_using in *. case_decide; cbn in Hu; congruence. }
  pose proof (guards_mine _ _ _ _ H Hks) as Hgs. assert (Hat : nodes (g_locals (unguarded gs s)) !! k = nodes (g_locals s) !! k).
  { rewrite nodes_unguarded. destruct (_ !! k); [|done]. cbn. unfold unguard. by rewrite decide_False. }
  assert (Hkl : k <> l).
  { intros ->. destruct (rs_self _ _ _ _ HR) as (ndl & Hndl & Hu & _). rewrite Hat in Hndl. specialize (Hfree ndl Hndl). congruence. }
  assert (Hz : hz_inv (base s k) []).
  { unfold base. destruct (nodes (g_locals s) !! k) as [nd|] eqn:E0; [by apply (M3 k nd)|apply hz_inv_default]. }
  assert (Hdis : forall j, j <> k -> j ∈ {[k]} ∪ ks <-> j ∈ ks) by set_solver.
  split; [by rewrite slots_map_lookup, decide_False|]. split.
  - apply (opened_reseated ks _ gs gs s s' k nd' [] H Hse); try done.
    unfold unguard. rewrite decide_False by done. pose proof (op_range _ _ _ _ _ _ H) as Ht. unfold nd', base.
    pose proof (rs_parked _ _ _ _ HR k) as Hp. pose proof (proj1 (tasks_nil _) (rs_tasks _ _ _ _ HR) k) as Hts. unfold local_of in Hts. rewrite Hat in Hts, Hp.
    constructor; rewrite ?Hat; destruct (nodes (g_locals s) !! k) as [nd|] eqn:E0; cbn; try done.
    + destruct (Hp nd eq_refl). by constructor.
    + apply parked_default. lia.
    + unfold local_batch. by destruct W.
    + by apply Hts.
  - apply (visible_keep ks _ s s' k nd' _ Hse Hdis). rewrite decide_True by set_solver. change (n_item nd') with (base s k).
    by rewrite (proj2 (slots_held_empty _ _ Hz) eq_refl).
Qed.
Lemma yields_leave ks gs s thread k : opened ks gs W t l s -> k ∈ ks -> k ∉ gs -> m_hazards (visible ks s) !! k = Some ∅ ->
  yields (unregister thread k) s (fun _ s' => opened (ks ∖ {[k]}) gs W t l s' /\ visible (ks ∖ {[k]}) s' = set_m_hazards (delete k) (visible ks s)).
Proof.
  intros H Hk Hg Hh. destruct (opened_idle _ _ _ _ H Hk Hg) as (nd & held & Hnd & Hu & Hz & Hp & Hts & Hkl).
  destruct (run_vacate thread k s) as (sl & E & Hn). eapply yields_run; [exact E|]. set (s' := set_g_locals _ _). set (nd' := set_using None nd).
  assert (Hse : reseated k nd' s s').
  { constructor; try done; [apply lookup_lt_Some in Hnd; lia|]. intros j. unfold s'. cbn. rewrite Hn. case_decide as Ej; [by subst; rewrite Hnd|by destruct (_ !! j)]. }
  assert (held = []) as ->.
  { rewrite slots_map_lookup, decide_True in Hh by done. unfold slots_of, local_of in Hh. rewrite Hnd in Hh. injection Hh as Hh. by apply (slots_held_empty _ _ Hz). }
  assert (Hdis : forall j, j <> k -> j ∈ ks ∖ {[k]} <-> j ∈ ks) by set_solver. split.
  - apply (opened_reseated ks _ gs gs s s' k nd' [] H Hse); try done; [|set_solver].
    unfold unguard. rewrite decide_False by done. constructor; [|rewrite nodes_unguarded, Hnd; cbn; unfold unguard; by rewrite decide_False|done].
    destruct Hp. constructor; try done. intros _ p. by apply hz_idle.
  - apply (visible_keep ks _ s s' k nd' _ Hse Hdis). by rewrite decide_False by set_solver.
Qed.

(** ** Pinning and unpinning *)
Lemma yields_begin ks gs s k : opened ks gs W t l s -> k ∈ ks -> k ∉ gs ->
  yields (pin fuel k) s (fun g s' => gd_local g = k /\ opened ks ({[k]} ∪ gs) W t l s' /\ visible ks s' = visible ks s).
Proof.
  intros H Hk Hg. destruct (opened_idle _ _ _ _ H Hk Hg) as (nd & held & Hnd & Hu & Hz & Hp & Hts & Hkl).
  assert (Hl : local_of s k = Some (n_item nd)) by (unfold local_of; by rewrite Hnd). pose proof (op_range _ _ _ _ _ _ H) as Ht.
  pose proof (rs_epoch _ _ _ _ (ar_rest _ _ _ _ _ (op_rest _ _ _ _ _ _ H))) as Ee. change (g_epoch s = ep N W t) in Ee.
  destruct (proj1 (ep_reads N W t Ht)) as [E1 _ _ _].
  destruct (run_pin (S f) k s (n_item nd) N Hl (pk_count _ _ _ Hp) ltac:(done)) as (i & E); [by rewrite Ee|].
  eapply yields_run; [exact E|]. split; [done|]. rewrite Ee. set (r' := pin_rec (ep N W t) (n_item nd)). set (s' := put_local k r' _).
  assert (Hse : reseated k (mkNode (n_using nd) r') s s') by (apply (put_reseated s k r' (<[i := false]> (g_help s)) nd Hnd)).
  split; [|by apply (visible_reseated ks s s' k nd _ Hnd Hse)].
  apply (opened_reseated ks ks gs _ s s' k _ held H Hse); try done; [|by destruct Hz|set_solver..].
  unfold unguard. rewrite decide_True by set_solver. cbn. constructor; [|rewrite nodes_unguarded, Hnd; cbn; unfold unguard; by rewrite decide_False|done].
  destruct Hp as [P1 P2 P3 P4 P5 P6 P7 P8]. constructor; done.
Qed.
(** Dropping the guard may help first, and there is nothing to help with. *)
Lemma yields_end ks gs s k i : working ks gs W t l k s ->
  yields (guard_drop fuel (mkGuard i k)) s (fun _ s' => opened ks (gs ∖ {[k]}) W t l s' /\ visible ks s' = visible ks s).
Proof.
  intros H. unfold guard_drop. cbn [tie r_drop]. unfold drop_body. eapply (yields_then _ _ _ (fun _ s' => working ks gs W t l k s' /\ visible ks s' = visible ks s)).
  - unfold help_collect_if_scheduled. eapply yields_step; [reflexivity|]. destruct (default false _); [|by apply yields_ret].
    eapply yields_step; [reflexivity|]. destruct H as [nd H].
    destruct (working_same ks gs W t l k nd s (n_item nd) (<[i := false]> (g_help s)) H) as [H1 E1]; try done. rewrite put_local_id in H1, E1 by by eapply working_local.
    eapply yields_mono; [exact (yields_help_normal ks gs W t l k i f _ _ _ H1)|]. intros [] s' [H2 E2]. split; [done|]. by rewrite E2.
  - intros [] s1 [[nd H1] E1]. pose proof (working_local _ _ _ _ _ _ _ _ H1) as Hl. cbn [gd_local].
    step_with (run_unpin k s1 (n_item nd) Hl (wk_count _ _ _ _ _ _ _ _ H1)). eapply yields_run; [reflexivity|]. set (s2 := set_g_help _ _).
    pose proof (wk_node _ _ _ _ _ _ _ _ H1) as Hnd. assert (Hse : reseated k (mkNode (n_using nd) (unpin_rec (n_item nd))) s1 s2) by by apply put_reseated.
    split; [|rewrite <- E1; by apply (visible_reseated ks s1 s2 k nd _ Hnd Hse)].
    pose proof (wk_opened _ _ _ _ _ _ _ _ H1) as Ho. pose proof (wk_mine _ _ _ _ _ _ _ _ H1) as Hk.
    pose proof (bu_unguarded _ _ _ _ _ _ _ _ _ _ _ (proj1 (working_building _ _ _ _ _ _ _ _) H1)) as Hnu.
    pose proof (op_rest _ _ _ _ _ _ Ho) as [HR _ _ [M1 M2 M3]]. destruct (M2 k Hk) as (nd0 & held & Hnd0 & Hu & Hz). rewrite Hnu in Hnd0. injection Hnd0 as <-.
    apply (opened_reseated ks ks gs _ s1 s2 k _ held Ho Hse); try done; [| |set_solver..].
    + unfold unguard. rewrite decide_False by set_solver. constructor; [by apply (rs_parked _ _ _ _ HR k)|by rewrite Hnu|].
      apply (proj1 (tasks_nil _) (rs_tasks _ _ _ _ HR) k). unfold local_of. by rewrite Hnu.
    + by intros ->.
Qed.
End threads.
