(* ===== verification/Transparency.v ===== *)
(** * The collector is transparent

    Threads that register, leave, and work in critical sections that overlap, with collection
    cycles between, do to the program's heap what [Memory] specifies: the program cannot tell
    that there is a collector, except that what it cannot reach goes away. *)
From S2P Require Import Prelude Prog Epoch Meta Slots Registry State Heap Marking Participant Guards.
From S2P Require Import Pointers Barriers Collector Total Tasks Tracing Sweep TraceInv Roots Cycle Frame Rest Memory Mutator Commands Threads.
#[local] Open Scope Z_scope.
#[local] Open Scope prog_scope.

Section transparency.
Context {EX : Extern} {V : Type} (l f : nat).
Implicit Types (s : gstate V) (r : local) (W : Color) (t : Z) (i k : nat) (m : memory (V := V)) (ths : gmap nat (nat * option (guard * client (V := V)))).
#[local] Abbreviation fuel := (S (S f)).

(** ** A critical section on its own *)
Section alone.
Context (ks gs : gset nat) (W : Color) (t : Z).
#[local] Abbreviation visible := (visible ks).
Lemma yields_interp k j p : forall s, working ks gs W t l k s -> sensible k p (visible s) ->
  yields (interp fuel (mkGuard j k) p) s (fun y s' => working ks gs W t l k s' /\ asection k p (visible s) y (visible s')).
Proof.
  induction p as [y|x next IH]; intros s [nd H] Hs; cbn [interp].
  - apply yields_ret. split; [by exists nd|constructor].
  - destruct Hs as [Hx Hn]. eapply yields_then; [exact (exec_does ks gs W t l k j f nd s x H Hx)|]. intros y s1 [H1 E1].
    eapply yields_mono; [exact (IH y s1 H1 (Hn y _ E1))|]. intros z s2 [H2 E2]. split; [done|]. by eapply ADo.
Qed.
Lemma opened_working k s : opened ks gs W t l s -> k ∈ gs -> working ks gs W t l k s.
Proof. intros H Hk. destruct (op_guards _ _ _ _ _ _ H k Hk) as (_ & nd & Hnd & _). by exists nd. Qed.
End alone.
(** While the threads [gs] hold their guards. *)
Lemma critical_refines ks gs W t k p s : opened ks gs W t l s -> k ∈ ks -> k ∉ gs -> sensible k p (visible ks s) ->
  yields (critical fuel k p) s (fun y s' => opened ks gs W t l s' /\ asection k p (visible ks s) y (visible ks s')).
Proof.
  intros H Hk Hg Hs. unfold critical. eapply yields_then; [exact (yields_begin W t l f ks gs s k H Hk Hg)|]. intros [j k'] s1 (Ek & H1 & E1). cbn in Ek. subst k'.
  rewrite <- E1 in Hs. eapply yields_then; [apply (yields_interp ks ({[k]} ∪ gs) W t k j p s1); [apply opened_working; [done|set_solver]|done]|]. intros y s2 [H2 E2].
  eapply yields_then; [exact (yields_end W t l f ks _ s2 k j H2)|]. intros [] s3 [H3 E3]. apply yields_ret. replace (({[k]} ∪ gs) ∖ {[k]}) with gs in H3 by set_solver.
  split; [done|]. by rewrite E3, <- E1.
Qed.

(** ** A collection *)
Section collecting.
Context (ks : gset nat).
#[local] Abbreviation visible := (visible ks).
Section collection.
Context (W : Color) (t : Z) (s : gstate V) (H : at_rest ks W t l s).

Lemma rest_heap : heap_ok W [] no_extra (g_objs s) (g_cells s).
Proof. apply (ar_heap _ _ _ _ _ H). Qed.
Lemma visible_object a o : m_objs (visible s) !! a = Some o <-> exists o', g_objs s !! a = Some o' /\ o = shape_of o'.
Proof. cbn. rewrite lookup_fmap, fmap_Some. done. Qed.
Lemma visible_word c x : m_links (visible s) !! c = Some x <-> exists p, holds_ptr s c p /\ cell_ok W [] (g_objs s) c p /\ x = view p.
Proof.
  cbn. rewrite lookup_fmap, fmap_Some. split.
  - intros (w & Hw & ->). destruct (hk_cell _ _ _ _ _ rest_heap c w Hw) as (p & -> & Hp). exists p.
    split; [split; [done|apply Hp]|]. split; [done|]. apply as_local_encode, Hp.
  - intros (p & [Hw Hok] & _ & ->). exists (ManPtr.encode p). split; [done|]. symmetry. by apply as_local_encode.
Qed.
Lemma view_target p b : ManPtr.p_addr p <> 0 /\ b = target p <-> exists tg, view p = (Some b, tg).
Proof.
  unfold view. split.
  - intros [Hn ->]. exists (ManPtr.p_tag p). by rewrite (proj2 (Z.eqb_neq _ _) Hn).
  - intros [tg E]. destruct (Z.eqb_spec (ManPtr.p_addr p) 0); by simplify_eq.
Qed.
Lemma visible_edge a b : aedge (visible s) a b <-> edge s a b.
Proof.
  split.
  - intros (o & c & tg & (o' & Ho & ->)%visible_object & Hc & (p & Hp & _ & Ev)%visible_word). exists o', c, p. split; [done|]. split; [done|].
    split; [done|]. apply view_target. by exists tg.
  - intros (o & c & p & Ho & Hc & Hp & Hb). destruct (proj1 (view_target p b) Hb) as [tg Ev]. exists (shape_of o), c, tg.
    split; [apply visible_object; by exists o|]. split; [done|]. apply visible_word. exists p. split; [done|]. split; [|done].
    by apply (heap_holds W [] no_extra _ _ _ rest_heap).
Qed.
(** A hazard pointer is in a slot in use. *)
Lemma visible_hazard a : a <> 0 -> (exists k hz h, m_hazards (visible s) !! k = Some hz /\ hz !! h = Some a) <-> hazard s a.
Proof.
  intros Hn. pose proof (ar_mut _ _ _ _ _ H) as [_ Hnode _]. split.
  - intros (k & hz & h & Hk & Hh). rewrite slots_map_lookup in Hk. destruct (decide (k ∈ ks)) as [Hin|]; [|done]. injection Hk as <-.
    destruct (Hnode k Hin) as (nd & held & Hnd & Hu & Hz). exists k, nd. split; [done|]. split; [done|].
    unfold slots_of, local_of in Hh. rewrite Hnd in Hh. cbn in Hh. rewrite (slots_held_lookup _ held) in Hh by done.
    case_decide; [|done]. by eapply list_elem_of_lookup_2.
  - intros (k & nd & Hnd & Hu & Hin). pose proof (mu_hazard ks l s k nd a (ar_mut _ _ _ _ _ H) Hnd Hin Hn) as Hk. destruct (Hnode k Hk) as (nd' & held & Hnd' & _ & Hz).
    rewrite Hnd in Hnd'. injection Hnd' as <-. apply list_elem_of_lookup in Hin as [h Hh]. exists k, (slots_held (n_item nd)), h.
    rewrite slots_map_lookup, decide_True by done. unfold slots_of, local_of. rewrite Hnd. split; [done|]. rewrite (slots_held_lookup _ held) by done.
    rewrite decide_True; [done|]. assert (Hin : h ∈ l_hids (n_item nd) ++ held).
    { rewrite (hz_perm _ _ Hz), elem_of_seq. apply lookup_lt_Some in Hh. lia. }
    apply elem_of_app in Hin as [Hf|]; [|done]. destruct (hz_free _ _ Hz h Hf) as [E _]. congruence.
Qed.
Lemma visible_root a : aroot (visible s) a <-> rooted s a.
Proof.
  assert (Hobj : is_Some (m_objs (visible s) !! a) <-> is_Some (g_objs s !! a)) by (cbn; by rewrite lookup_fmap, fmap_is_Some).
  unfold aroot, rooted. rewrite Hobj. split.
  - intros [[o Ho] Hr]. exists o. split; [done|]. assert (Hn : a <> 0) by (intros ->; by rewrite (hk_null _ _ _ _ _ rest_heap) in Ho).
    destruct Hr as [(c & tg & (p & Hp & Hck & Ev)%visible_word & Hout)|Hr]; [left|right; by apply visible_hazard].
    destruct (hk_hdr _ _ _ _ _ rest_heap a o Ho) as (h & Hh & -> & _ & Er). rewrite ObjMeta.encode_root_count, Er by done. unfold no_extra.
    destruct (proj2 (view_target p a)) as [_ ->]; [by exists tg|]. pose proof (root_links_pos (g_cells s) (target p) c _ (proj1 Hp)) as Hpos. rewrite Z.add_0_r.
    apply Hpos, roots_encode; [apply Hp|]. split; [|done]. destruct (ck_meta _ _ _ _ _ Hck) as [[? _]|(_ & Ho' & _)]; [done|].
    by destruct Hout; apply owned_visible.
  - intros (o & Ho & Hr). split; [by eexists|]. assert (Hn : a <> 0) by (intros ->; by rewrite (hk_null _ _ _ _ _ rest_heap) in Ho).
    destruct Hr as [Hrc|Hr]; [left|right; by apply visible_hazard]. destruct (hk_hdr _ _ _ _ _ rest_heap a o Ho) as (h & Hh & Eh & _ & Er).
    rewrite Eh, ObjMeta.encode_root_count, Er in Hrc by done. unfold no_extra in Hrc. rewrite Z.add_0_r in Hrc.
    apply root_links_inv in Hrc as (c & w & Hw & Hra). destruct (hk_cell _ _ _ _ _ rest_heap c w Hw) as (p & -> & Hck). pose proof (ck_ptr _ _ _ _ _ Hck) as Hok.
    apply roots_encode in Hra as [Em Et]; [|done]. assert (Hn0 : ManPtr.p_addr p <> 0) by (intros E0; apply Hn; rewrite <- Et; by apply target_null).
    destruct (proj1 (view_target p a)) as [tg Ev]; [done|]. exists c, tg. split; [apply visible_word; by exists p|].
    intros Ho'%owned_visible. destruct (ck_meta _ _ _ _ _ Hck) as [[_ Hx]|[Em' _]]; [by apply Hx, not_elem_of_nil in Ho'|congruence].
Qed.
Lemma visible_reachable a : reachable (visible s) a <-> kept s a.
Proof.
  unfold reachable, kept, reach. split; intros (q & Hq & Hr); exists q; (split; [by apply visible_root|]); (eapply rtc_congruence with (f := id); [|exact Hr]);
    intros x y Hxy; by apply visible_edge.
Qed.
End collection.

Lemma recolored_view p p' : recolored p p' -> view p' = view p.
Proof. by intros [->|(c & c' & _ & ->)]. Qed.
(** The link of a dead object goes with it, and no other. *)
Lemma collected_links W t t' s s' c x : at_rest ks W t l s -> at_rest ks (flip W) t' l s' -> collected s s' ->
  m_links (visible s') !! c = Some x <->
  m_links (visible s) !! c = Some x /\ forall a o, g_objs s !! a = Some o -> c ∈ o_links o -> kept s a.
Proof.
  intros H H' HC. pose proof (rest_heap W t s H) as Hh. split.
  - intros (p' & Hp' & Hck' & ->)%(visible_word (flip W) t' s' H'). destruct (cycle_origin W s s' Hh HC c p' Hp') as (p & Hp & R & Hck).
    split; [apply (visible_word W t s H); exists p; split; [done|]; split; [done|by apply recolored_view]|].
    intros a o Ho Hc. destruct (ck_meta _ _ _ _ _ Hck) as [[_ Hn]|[Em _]]; [by destruct (not_elem_of_nil c (Hn ltac:(by exists a, o)))|].
    destruct (ck_meta _ _ _ _ _ Hck') as [[Em' _]|(_ & (a' & o' & Ho' & Hc') & _)].
    + rewrite (recolored_rooted _ _ R (or_intror Em')) in Em'. congruence.
    + destruct (co_same _ _ HC a' o' Ho') as (o1 & Ho1 & Es & _). rewrite Es in Hc'. cbn in Hc'.
      rewrite (hk_disj _ _ _ _ _ Hh a a' o o1 c Ho Ho1 Hc Hc'). apply (co_objs _ _ HC). by eexists.
  - intros [(p & Hp & Hck & ->)%(visible_word W t s H) Hkept]. destruct (co_links _ _ HC c p Hp) as (p' & Hp' & R).
    + destruct (ck_meta _ _ _ _ _ Hck) as [[? _]|(_ & (a & o & Ho & Hc) & _)]; [by left|right]. exists a, o. split; [by eapply Hkept|done].
    + apply (visible_word (flip W) t' s' H'). exists p'. split; [done|]. split; [|symmetry; by apply recolored_view].
      by apply (heap_holds (flip W) [] no_extra _ _ _ (rest_heap (flip W) t' s' H')).
Qed.
Lemma visible_collect W t t' s s' : at_rest ks W t l s -> at_rest ks (flip W) t' l s' -> collected s s' -> untouched s s' ->
  acollect (visible s) (visible s').
Proof.
  intros H H' HC HU. constructor.
  - intros a o. rewrite !visible_object, (visible_reachable W t s H). split.
    + intros (o' & Ho' & ->). destruct (co_same _ _ HC a o' Ho') as (o1 & Ho1 & Es & _). split; [exists o1; split; [done|by rewrite Es]|].
      apply (co_objs _ _ HC). by eexists.
    + intros [(o1 & Ho1 & ->) Hk]. apply (co_objs _ _ HC) in Hk as [o' Ho']. destruct (co_same _ _ HC a o' Ho') as (o2 & Ho2 & Es & _).
      rewrite Ho1 in Ho2. injection Ho2 as <-. exists o'. split; [done|by rewrite Es].
  - intros c x. rewrite (collected_links W t t' s s' c x H H' HC). split; intros [Hx Ha]; (split; [done|]); intros a o.
    + intros (o' & Ho & ->)%visible_object Hc. apply (visible_reachable W t s H). by eapply Ha.
    + intros Ho Hc. apply (visible_reachable W t s H). apply (Ha a (shape_of o)); [apply visible_object; by exists o|done].
  - cbn. by rewrite (ut_reg _ _ _ _ HU).
  - apply map_eq. intros j. rewrite !slots_map_lookup. case_decide as Hj; [|done]. destruct (mu_node _ _ _ (ar_mut _ _ _ _ _ H) j Hj) as (nd & held & Hnd & Hu & _).
    destruct (untouched_node s s' j nd HU Hnd Hu) as (nd' & Hnd' & _ & E1 & E2 & E3). unfold slots_of, local_of. rewrite Hnd, Hnd'. cbn. unfold slots_held. by rewrite E1, E3.
Qed.
End collecting.

(** ** Whole sessions *)
(** The participants of the threads, and of those in a critical section. *)
Definition parts ths : gset nat := map_to_set (fun _ th => th.1) ths.
Definition guarded ths : gset nat := map_to_set (fun _ th => th.1) (filter (fun x => is_Some x.2.2) ths).
Lemma elem_of_parts ths k : k ∈ parts ths <-> exists i o, ths !! i = Some (k, o).
Proof.
  etrans; [apply elem_of_map_to_set|]. split; [intros (i & [k' o] & Hi & <-); by exists i, o|].
  intros (i & o & Hi). by exists i, (k, o).
Qed.
Lemma elem_of_guarded ths k : k ∈ guarded ths <-> exists i x, ths !! i = Some (k, Some x).
Proof.
  etrans; [apply elem_of_map_to_set|]. split.
  - intros (i & [k' o] & [Hi [x Hx]]%map_lookup_filter_Some & <-). cbn in Hx. subst o. by exists i, x.
  - intros (i & x & Hi). exists i, (k, Some x). split; [|done]. apply map_lookup_filter_Some. split; [done|by eexists].
Qed.
(** Between two events: every thread has a participant of its own, and the guard it holds is
    a guard of that participant. *)
Record running W t ths s : Prop := {
  ru_opened : opened (parts ths) (guarded ths) W t l s;
  ru_inj : forall i j k o o', ths !! i = Some (k, o) -> ths !! j = Some (k, o') -> i = j;
  ru_guard : forall i k g p, ths !! i = Some (k, Some (g, p)) -> gd_local g = k
}.
(** What the specification sees of it. *)
Definition athread (th : nat * option (guard * client (V := V))) : nat * option client := (th.1, snd <$> th.2).
Definition aconf_of ths s : aconf := (athread <$> ths, visible (parts ths) s).
Lemma aconf_lookup ths s i k o : (aconf_of ths s).1 !! i = Some (k, o) -> exists o', ths !! i = Some (k, o') /\ o = snd <$> o'.
Proof. cbn. rewrite lookup_fmap, fmap_Some. intros ([k' o'] & Hi & E). unfold athread in E. cbn in E. injection E as -> ->. by exists o'. Qed.

(** One thread goes on. *)
Section thread.
Context W t ths s (H : running W t ths s) i k (o : option (guard * client (V := V))) (Hi : ths !! i = Some (k, o)).
Lemma thread_part : k ∈ parts ths.
Proof. apply elem_of_parts. by exists i, o. Qed.
Lemma thread_guarded : k ∈ guarded ths <-> is_Some o.
Proof.
  rewrite elem_of_guarded. split; [|intros [x ->]; by exists i, x]. intros (j & x & Hj). rewrite (ru_inj _ _ _ _ H i j k o (Some x) Hi Hj) in Hi.
  rewrite Hi in Hj. injection Hj as ->. by eexists.
Qed.
Lemma parts_insert (o' : option (guard * client (V := V))) : parts (<[i := (k, o')]> ths) = parts ths.
Proof.
  apply set_eq. intros k'. rewrite !elem_of_parts. split.
  - intros (j & x & [[<- [= <- <-]]|[_ Hj]]%lookup_insert_Some); [by exists i, o|by exists j, x].
  - intros (j & x & Hj). destruct (decide (i = j)) as [->|Hij]; [|exists j, x; by rewrite lookup_insert_ne].
    rewrite Hi in Hj. injection Hj as <- <-. exists j, o'. by rewrite lookup_insert_eq.
Qed.
Lemma guarded_insert (o' : option (guard * client (V := V))) : guarded (<[i := (k, o')]> ths) = match o' with Some _ => {[k]} ∪ guarded ths | None => guarded ths ∖ {[k]} end.
Proof.
  assert (Hother : forall j k' x, i <> j -> ths !! j = Some (k', x) -> k' <> k).
  { intros j k' x Hij Hj ->. by apply Hij, (ru_inj _ _ _ _ H i j k o x). }
  apply set_eq. intros k'. rewrite elem_of_guarded. trans (k' = k /\ is_Some o' \/ k' <> k /\ k' ∈ guarded ths).
  - rewrite elem_of_guarded. split.
    + intros (j & x & [[<- [= <- ->]]|[Hij Hj]]%lookup_insert_Some); [left; by split|right]. split; [by eapply Hother|by exists j, x].
    + intros [[-> [x ->]]|[Hk' (j & x & Hj)]]; [exists i, x; by rewrite lookup_insert_eq|]. exists j, x. rewrite lookup_insert_ne; [done|].
      intros <-. rewrite Hi in Hj. by injection Hj as <-.
  - assert (Hn : ~ is_Some (@None (guard * client (V := V)))) by by intros [].
    destruct o' as [x|]; [rewrite elem_of_union|rewrite elem_of_difference]; rewrite elem_of_singleton; destruct (decide (k' = k)); naive_solver.
Qed.
Lemma running_insert (o' : option (guard * client (V := V))) s' : opened (parts ths) (match o' with Some _ => {[k]} ∪ guarded ths | None => guarded ths ∖ {[k]} end) W t l s' ->
  (forall g p, o' = Some (g, p) -> gd_local g = k) -> running W t (<[i := (k, o')]> ths) s'.
Proof.
  intros Ho Hg. constructor.
  - by rewrite parts_insert, guarded_insert.
  - assert (Hsame : forall j k' x, <[i := (k, o')]> ths !! j = Some (k', x) -> exists x', ths !! j = Some (k', x')).
    { intros j k' x [[<- [= <- <-]]|[_ Hj]]%lookup_insert_Some; [by exists o|by exists x]. }
    intros i1 i2 k' o1 o2 [x1 H1]%Hsame [x2 H2]%Hsame. by eapply (ru_inj _ _ _ _ H).
  - intros j k' g p [[<- [= <- ->]]|[_ Hj]]%lookup_insert_Some; [by eapply Hg|by eapply (ru_guard _ _ _ _ H)].
Qed.
Lemma aconf_insert (o' : option (guard * client (V := V))) s' : aconf_of (<[i := (k, o')]> ths) s' = (<[i := (k, snd <$> o')]> (aconf_of ths s).1, visible (parts ths) s').
Proof. unfold aconf_of. by rewrite fmap_insert, parts_insert. Qed.
End thread.

(** The room an event needs: a slot to look at for every participant, and for a collection as
    many rounds as it has work, and the timestamps of a cycle. *)
Definition room (e : event (V := V)) s : bool :=
  match e with
  | Join _ => (length (nodes (g_locals s)) <? fuel)%nat
  | Collect _ => (rounds (color (g_epoch s)) s <? fuel)%nat && (timestamp (g_epoch s) + 3 <? 2 ^ 60)
  | _ => true
  end.
Fixpoint roomy (se : Memory.session) ths s : bool :=
  match se with
  | Quit => true
  | Next e next => room e s && match run (play_event fuel l e ths) s with
                               | Ok (x, s') => roomy (next x.1) x.2 s'
                               | Stopped _ => true
                               end
  end.

(** ** One event *)
Definition follows (e : event) ths s (x : answer * gmap nat (nat * option (guard * client (V := V)))) s' : Prop :=
  (exists W t, running W t x.2 s') /\ aevent e x.1 (aconf_of ths s) (aconf_of x.2 s').
Lemma parts_join ths i k : ths !! i = None -> parts (<[i := (k, None)]> ths) = {[k]} ∪ parts ths.
Proof.
  intros Hi. apply set_eq. intros k'. rewrite elem_of_union, elem_of_singleton, !elem_of_parts. split.
  - intros (j & o & [[_ [= -> _]]|[_ Hj]]%lookup_insert_Some); [by left|right; by exists j, o].
  - intros [->|(j & o & Hj)]; [exists i, None; by rewrite lookup_insert_eq|]. exists j, o. rewrite lookup_insert_ne; [done|]. intros ->. by rewrite Hi in Hj.
Qed.
Lemma guarded_join ths i k : ths !! i = None -> guarded (<[i := (k, None)]> ths) = guarded ths.
Proof.
  intros Hi. apply set_eq. intros k'. rewrite !elem_of_guarded. split.
  - intros (j & x & [[_ [=]]|[_ Hj]]%lookup_insert_Some). by exists j, x.
  - intros (j & x & Hj). exists j, x. rewrite lookup_insert_ne; [done|]. intros ->. by rewrite Hi in Hj.
Qed.
Lemma event_join W t i ths s : running W t ths s -> permits (Join i) (aconf_of ths s) -> room (Join i) s = true ->
  yields (play_event fuel l (Join i) ths) s (follows (Join i) ths s).
Proof.
  intros H Hi Hr. apply (Nat.ltb_lt (length (nodes (g_locals s))) fuel) in Hr. cbn in Hi. rewrite lookup_fmap, fmap_None in Hi. cbn [play_event].
  eapply yields_then; [exact (yields_join W t l f _ _ s i (ru_opened _ _ _ _ H) Hr)|]. intros k s' (Hk & Ho & E). apply yields_ret. unfold follows. cbn [fst snd].
  rewrite slots_map_lookup in Hk. assert (Hkp : k ∉ parts ths) by (by case_decide). clear Hk. split.
  - exists W, t. constructor.
    + by rewrite parts_join, guarded_join.
    + intros j1 j2 k' o1 o2 [[<- E1]|[N1 H1]]%lookup_insert_Some [[<- E2]|[N2 H2]]%lookup_insert_Some; [done|injection E1 as <- _|injection E2 as <- _|].
      * destruct Hkp. apply elem_of_parts. by exists j2, o2.
      * destruct Hkp. apply elem_of_parts. by exists j1, o1.
      * by eapply (ru_inj _ _ _ _ H).
    + intros j k' g p [[_ [=]]|[_ Hj]]%lookup_insert_Some. by eapply (ru_guard _ _ _ _ H).
  - unfold aconf_of at 2. rewrite fmap_insert, parts_join, E by done. apply EJoin. by rewrite slots_map_lookup, decide_False.
Qed.
Lemma event_leave W t i ths s : running W t ths s -> permits (Leave i) (aconf_of ths s) ->
  yields (play_event fuel l (Leave i) ths) s (follows (Leave i) ths s).
Proof.
  intros H (k & Ha & Hh). pose proof Ha as (o & Hi & Eo)%aconf_lookup. destruct o; [done|]. cbn [play_event]. rewrite Hi.
  pose proof (thread_part ths i k None Hi) as Hk. assert (Hg : k ∉ guarded ths) by (rewrite (thread_guarded _ _ _ _ H i k None Hi); by intros []).
  assert (Hone : forall j o, j <> i -> ths !! j = Some (k, o) -> False) by (intros j o Hj Hjk; by apply Hj, (ru_inj _ _ _ _ H j i k o None)).
  eapply yields_then; [exact (yields_leave W t l _ _ s i k (ru_opened _ _ _ _ H) Hk Hg Hh)|]. intros [] s' [Ho E]. apply yields_ret. unfold follows. cbn [fst snd].
  assert (Ep : parts (delete i ths) = parts ths ∖ {[k]}).
  { apply set_eq. intros k'. rewrite elem_of_difference, elem_of_singleton, !elem_of_parts. split.
    - intros (j & o & [Hij Hj]%lookup_delete_Some). split; [by exists j, o|]. intros ->. by eapply Hone.
    - intros [(j & o & Hj) Hk']. exists j, o. rewrite lookup_delete_ne; [done|]. intros <-. rewrite Hi in Hj. by injection Hj as <-. }
  assert (Eg : guarded (delete i ths) = guarded ths).
  { apply set_eq. intros k'. rewrite !elem_of_guarded. split.
    - intros (j & x & [_ Hj]%lookup_delete_Some). by exists j, x.
    - intros (j & x & Hj). exists j, x. rewrite lookup_delete_ne; [done|]. intros <-. by rewrite Hi in Hj. }
  split.
  - exists W, t. constructor.
    + by rewrite Ep, Eg.
    + intros j1 j2 k' o1 o2 [_ H1]%lookup_delete_Some [_ H2]%lookup_delete_Some. by eapply (ru_inj _ _ _ _ H).
    + intros j k' g p [_ Hj]%lookup_delete_Some. by eapply (ru_guard _ _ _ _ H).
  - unfold aconf_of at 2. rewrite fmap_delete, Ep, E. by apply (ELeave i k).
Qed.
Lemma event_begin W t i p ths s : running W t ths s -> permits (Begin i p) (aconf_of ths s) ->
  yields (play_event fuel l (Begin i p) ths) s (follows (Begin i p) ths s).
Proof.
  intros H (k & Ha). pose proof Ha as (o & Hi & Eo)%aconf_lookup. destruct o; [done|]. cbn [play_event]. rewrite Hi.
  pose proof (thread_part ths i k None Hi) as Hk. assert (Hg : k ∉ guarded ths) by (rewrite (thread_guarded _ _ _ _ H i k None Hi); by intros []).
  eapply yields_then; [exact (yields_begin W t l f _ _ s k (ru_opened _ _ _ _ H) Hk Hg)|]. intros g s' (Eg & Ho & E). apply yields_ret. unfold follows. cbn [fst snd]. split.
  - exists W, t. apply (running_insert W t ths s H i k None Hi); [done|]. by intros g' p' [= <- _].
  - rewrite (aconf_insert ths s i k None Hi), E. by apply EBegin.
Qed.
(** The thread of a section, with the guard it holds. *)
Lemma section_at W t i ths s k p : running W t ths s -> (aconf_of ths s).1 !! i = Some (k, Some p) ->
  exists j nd, ths !! i = Some (k, Some (mkGuard j k, p)) /\ working_as (parts ths) (guarded ths) W t l k nd s.
Proof.
  intros H (o & Hi & Eo)%aconf_lookup. destruct o as [[[j k'] p']|]; [|done]. cbn in Eo. injection Eo as <-.
  pose proof (ru_guard _ _ _ _ H i k _ p Hi) as Eg. cbn in Eg. subst k'.
  assert (Hg : k ∈ guarded ths) by (apply (thread_guarded _ _ _ _ H i k _ Hi); by eexists).
  destruct (opened_working _ _ _ _ k s (ru_opened _ _ _ _ H) Hg) as [nd Hw]. by exists j, nd.
Qed.
Lemma event_step W t i ths s : running W t ths s -> permits (Step i) (aconf_of ths s) ->
  yields (play_event fuel l (Step i) ths) s (follows (Step i) ths s).
Proof.
  intros H (k & x & next & Ha & Hx). destruct (section_at W t i ths s k _ H Ha) as (j & nd & Hi & Hw). cbn [play_event]. rewrite Hi.
  eapply yields_then; [exact (exec_does _ _ W t l k j f nd s x Hw Hx)|]. intros y s' [[nd' H'] Hs]. apply yields_ret. unfold follows. cbn [fst snd]. split.
  - exists W, t. apply (running_insert W t ths s H i k _ Hi); [|by intros g' p' [= <- _]]. pose proof (wk_in _ _ _ _ _ _ _ _ H') as Hg.
    replace ({[k]} ∪ guarded ths) with (guarded ths) by set_solver. by apply (wk_opened _ _ _ _ _ _ _ _ H').
  - rewrite (aconf_insert ths s i k _ Hi). by apply (EDo i k x next).
Qed.
Lemma event_end W t i ths s : running W t ths s -> permits (End i) (aconf_of ths s) ->
  yields (play_event fuel l (End i) ths) s (follows (End i) ths s).
Proof.
  intros H (k & y & Ha). destruct (section_at W t i ths s k _ H Ha) as (j & nd & Hi & Hw). cbn [play_event]. rewrite Hi.
  eapply yields_then; [exact (yields_end W t l f _ _ s k j (ex_intro _ nd Hw))|]. intros [] s' [H' E]. apply yields_ret. unfold follows. cbn [fst snd]. split.
  - exists W, t. by apply (running_insert W t ths s H i k _ Hi).
  - rewrite (aconf_insert ths s i k _ Hi), E. by apply EEnd.
Qed.
Lemma event_collect W t wt ths s : no_retry -> running W t ths s -> permits (Collect wt) (aconf_of ths s) -> room (Collect wt) s = true ->
  yields (play_event fuel l (Collect wt) ths) s (follows (Collect wt) ths s).
Proof.
  intros Hnr H Hq [Hf%Nat.ltb_lt Ht%Z.ltb_lt]%andb_true_iff. pose proof (ru_opened _ _ _ _ H) as Ho. pose proof (op_range _ _ _ _ _ _ Ho) as Hrange.
  assert (Eg : guarded ths = ∅).
  { apply set_eq. intros k. rewrite elem_of_guarded, elem_of_empty. split; [|done]. intros (i & x & Hi).
    specialize (Hq i (athread (k, Some x))). cbn in Hq. rewrite lookup_fmap, Hi in Hq. by specialize (Hq eq_refl). }
  rewrite Eg in Ho. pose proof (op_rest _ _ _ _ _ _ Ho) as Hr. rewrite unguarded_none in Hr.
  pose proof (rs_epoch _ _ _ _ (ar_rest _ _ _ _ _ Hr)) as Ee. destruct (proj1 (ep_reads N W t Hrange)) as [_ Ec Et _]. rewrite <- Ee in Ec, Et. rewrite Ec in Hf. rewrite Et in Ht.
  destruct (at_rest_cycle _ fuel W t l s wt Hnr Hr ltac:(lia) Ht Hf) as (s' & E & H' & HC & HU). cbn [play_event]. step_with E. apply yields_ret. unfold follows. cbn [fst snd]. split.
  - exists (flip W), (t + 3). destruct H as [_ H2 H3]. constructor; [|done..]. rewrite Eg. constructor; [lia|by intros j ?%elem_of_empty|by rewrite unguarded_none].
  - apply ECollect. by eapply visible_collect.
Qed.
Lemma yields_event W t e ths s : no_retry -> running W t ths s -> permits e (aconf_of ths s) -> room e s = true ->
  yields (play_event fuel l e ths) s (follows e ths s).
Proof.
  intros Hnr H Hp Hr. destruct e; [by eapply event_join|by eapply event_leave|by eapply event_begin|by eapply event_step|by eapply event_end|by eapply event_collect].
Qed.

(** Event by event. *)
Lemma yields_session se : no_retry -> forall W t ths s, running W t ths s -> permitted se (aconf_of ths s) -> roomy se ths s = true ->
  yields (play fuel l se ths) s (fun x s' => (exists W' t', running W' t' x.2 s') /\ aplay se (aconf_of ths s) x.1 (aconf_of x.2 s')).
Proof.
  intros Hnr. induction se as [|e next IH]; intros W t ths s H Hp Hr; cbn [play].
  - apply yields_ret. split; [by exists W, t|constructor].
  - cbn [roomy] in Hr. apply andb_true_iff in Hr as [Hr Hr']. destruct Hp as [He Hn].
    destruct (yields_event W t e ths s Hnr H He Hr) as ([y ths1] & s1 & E & (W1 & t1 & H1) & Ha). rewrite E in Hr'. cbn [fst snd] in *.
    step_with E. cbn [fst snd]. eapply yields_then; [exact (IH y W1 t1 ths1 s1 H1 (Hn y _ Ha) Hr')|]. intros [h ths'] s' [H' Ha']. apply yields_ret.
    split; [done|]. by eapply PNext.
Qed.

(** C1. Threads that register and leave, critical sections that overlap, and collection cycles
    between them, in any order the program is permitted: the run returns, without a panic and
    without an undefined step, and the answers and what the program sees of the heap are those of [Memory].  Loads, swaps, compare-exchanges, allocations and drops of any thread are the
    atomic operations of a heap with neither root counts nor colours, and a collection takes
    away exactly what no link outside the objects and no hazard pointer leads to. *)
Theorem session_refines W t se ths s : no_retry -> running W t ths s -> permitted se (aconf_of ths s) -> roomy se ths s = true ->
  exists W' t' h ths' s', run (play fuel l se ths) s = Ok ((h, ths'), s') /\ running W' t' ths' s' /\
    aplay se (aconf_of ths s) h (aconf_of ths' s').
Proof.
  intros Hnr H Hp Hr. destruct (yields_session se Hnr W t ths s H Hp Hr) as ([h ths'] & s' & E & (W' & t' & H') & Ha).
  by exists W', t', h, ths', s'.
Qed.
End transparency.
