(* ===== verification/Scripts.v ===== *)
(** * Client data structures on the crate

    A data structure of a program is given by the critical sections of its methods, clients of
    [Memory], and by what its methods do to its contents.  The threads run scripts of calls; a
    schedule picks which thread goes on, one operation of the crate at a time, and when the
    collector runs.  A proof about each method on its own, against an invariant and what other
    threads may do meanwhile, gives a theorem about every script and every schedule. *)
From S2P Require Import Prelude Prog Epoch Meta Slots Registry State Heap Participant Guards Pointers Collector Total Tasks Rest Memory Mutator Threads Transparency.
#[local] Open Scope Z_scope.

(** ** Data structures *)
Class Structure (V : Type) := {
  call : Type;
  op : Type;  (** what a call does, at one moment *)
  contents : Type;
  code : call -> client (V := V);
  spec : op -> contents -> contents -> Prop;
  wins : contents -> nat;  (** how often a retry loop of some thread has succeeded *)
  (** Which hazard pointers (of the participant, with their objects) a call may be made with,
      which results it can have then, and which hazard pointers there are afterwards: what the
      types of Rust guarantee. *)
  fits : nat -> gmap nat Z -> call -> Prop;
  gives : nat -> gmap nat Z -> call -> answer (V := V) -> Prop;
  after : gmap nat Z -> call -> answer (V := V) -> gmap nat Z;
  (** What a participant's call did if it returned this result, [n] wins after its beginning. *)
  outcome : nat -> call -> answer (V := V) -> list op -> nat -> Prop
}.

Section scripts.
Context {EX : Extern} {V : Type} {D : Structure V}.
#[local] Abbreviation answer := (answer (V := V)).
#[local] Abbreviation client := (client (V := V)).
#[local] Abbreviation memory := (memory (V := V)).
#[local] Abbreviation event := (event (V := V)).
Implicit Types (m : memory) (hz : gmap nat Z) (c : call) (y : answer) (s : contents) (tr : list op).

(** A thread: the calls it makes may depend on earlier results. *)
Inductive script := Finish | Call (c : call) (next : answer -> script).
Fixpoint disciplined (k : nat) hz (sc : script) : Prop :=
  match sc with
  | Finish => hz = ∅
  | Call c next => fits k hz c /\ forall y, gives k hz c y -> disciplined k (after hz c y) (next y)
  end.
Inductive thread := Fresh (sc : script) | Idle (sc : script) | Busy (p : client) (next : answer -> script).
Definition idle (t : thread) : bool := match t with Busy _ _ => false | _ => true end.

(** ** Schedules *)
(** A thread that is picked registers, begins its next call, does the next operation of the
    section it is in, ends it, or leaves when its script is over. *)
Inductive choice := Run (i : nat) | Cycle (worker_thread : nat -> nat).
Definition next_event (ch : choice) (th : gmap nat thread) : option (event * (answer -> gmap nat thread)) :=
  match ch with
  | Run i =>
      match th !! i with
      | None => None
      | Some (Fresh sc) => Some (Join i, fun _ => <[i := Idle sc]> th)
      | Some (Idle Finish) => Some (Leave i, fun _ => delete i th)
      | Some (Idle (Call c next)) => Some (Begin i (code c), fun _ => <[i := Busy (code c) next]> th)
      | Some (Busy (Do x p) next) => Some (Step i, fun y => <[i := Busy (p y) next]> th)
      | Some (Busy (Done _) next) => Some (End i, fun y => <[i := Idle (next y)]> th)
      end
  | Cycle wt => if decide (map_Forall (fun _ t => idle t = true) th) then Some (Collect wt, fun _ => th) else None
  end.
Fixpoint drive (cs : list choice) (th : gmap nat thread) : session (V := V) :=
  match cs with
  | [] => Quit
  | ch :: cs =>
      match next_event ch th with
      | None => drive cs th
      | Some (e, f) => Next e (fun y => drive cs (f y))
      end
  end.

(** ** What histories are right *)
(** The threads with their participants, and of each call under way what it has done and how
    many wins there were when it began: every call takes effect between its beginning and its
    end, each effect at one moment. *)
#[local] Abbreviation pending := (gmap nat (nat * option (call * list op * nat))).
Definition effect (o : option op) s s' : Prop := match o with Some e => spec e s s' | None => s' = s end.
Inductive sevent : event -> answer -> pending * contents -> pending * contents -> Prop :=
  | SJoin i k X s : sevent (Join i) AUnit (X, s) (<[i := (k, None)]> X, s)
  | SLeave i k X s : X !! i = Some (k, None) -> sevent (Leave i) AUnit (X, s) (delete i X, s)
  | SBegin i k c X s : X !! i = Some (k, None) -> sevent (Begin i (code c)) AUnit (X, s) (<[i := (k, Some (c, [], wins s))]> X, s)
  | SStep i k c tr n o y X s s' : X !! i = Some (k, Some (c, tr, n)) -> effect o s s' ->
      sevent (Step i) y (X, s) (<[i := (k, Some (c, tr ++ option_list o, n))]> X, s')
  | SEnd i k c tr n y X s : X !! i = Some (k, Some (c, tr, n)) -> outcome k c y tr (wins s - n) ->
      sevent (End i) y (X, s) (<[i := (k, None)]> X, s)
  | SCollect wt X s : sevent (Collect wt) AUnit (X, s) (X, s).
Inductive linear : history (V := V) -> pending * contents -> pending * contents -> Prop :=
  | LNil x : linear [] x x
  | LCons e y h x x1 x2 : sevent e y x x1 -> linear h x1 x2 -> linear ((e, y) :: h) x x2.

(** ** Room for what is to come *)
Definition spacious m : Prop := spare_roots m /\ is_Some (alloc_addr (dom (m_objs m))).
Definition ample (n : nat) m : Prop := Z.of_nat (size (m_links m)) + Z.of_nat n < 2 ^ 55 /\
  forall objs : gset Z, (size objs < size (m_objs m) + n)%nat -> is_Some (alloc_addr objs).
End scripts.
Arguments script _ {_}.
Arguments thread _ {_}.

(** ** Proofs *)
(** An invariant of the memory and history variables, and what a participant may rely on. *)
Class Proof {EX : Extern} {V : Type} (D : Structure V) := {
  ghost : Type;
  shows : ghost -> contents;
  inv : memory (V := V) -> ghost -> Prop;
  others : nat -> memory (V := V) -> ghost -> memory (V := V) -> ghost -> Prop
}.

Section logic.
Context {EX : Extern} {V : Type} {D : Structure V} {P : Proof D}.
#[local] Abbreviation answer := (answer (V := V)).
#[local] Abbreviation client := (client (V := V)).
#[local] Abbreviation memory := (memory (V := V)).
Implicit Types (m : memory) (g : ghost) (hz : gmap nat Z) (c : call) (y : answer) (s : contents) (tr : list op) (k : nat).

(** A step of participant [k] that has the effect [o]. *)
Record makes k (o : option op) m g m' g' : Prop := {
  mk_inv : inv m' g';
  mk_effect : effect o (shows g) (shows g');
  mk_others : forall j, j <> k -> others j m g m' g'
}.
(** What [k]'s client does, in any step of its own and among steps of others. *)
Fixpoint works k (p : client) (Q : answer -> list op -> memory -> ghost -> Prop) tr m g : Prop :=
  match p with
  | Done y => Q y tr m g
  | Do x next => (spacious m -> allowed k m x) /\ forall y m', astep k m x y m' ->
      exists o g', makes k o m g m' g' /\
        forall m1 g1, inv m1 g1 -> others k m' g' m1 g1 -> works k (next y) Q (tr ++ option_list o) m1 g1
  end.
Definition ready k p Q tr m g : Prop := forall m1 g1, inv m1 g1 -> others k m g m1 g1 -> works k p Q tr m1 g1.
Definition ends k hz c (n : nat) y tr m g : Prop :=
  outcome k c y tr (wins (shows g) - n) /\ gives k hz c y /\ m_hazards m !! k = Some (after hz c y).
End logic.

(** What has to be proved of a data structure. *)
Class Correct {EX : Extern} {V : Type} (D : Structure V) (P : Proof D) := {
  others_refl : forall k m g, others k m g m g;
  others_trans : forall k m1 g1 m2 g2 m3 g3, others k m1 g1 m2 g2 -> others k m2 g2 m3 g3 -> others k m1 g1 m3 g3;
  others_hazards : forall k m g m' g', others k m g m' g' -> m_hazards m' !! k = m_hazards m !! k;
  joins : forall k m g, inv m g -> m_hazards m !! k = None -> makes k None m g (set_m_hazards <[k := ∅]> m) g;
  leaves : forall k m g, inv m g -> m_hazards m !! k = Some ∅ -> makes k None m g (set_m_hazards (delete k) m) g;
  collects : forall m g m', inv m g -> acollect m m' -> exists g', inv m' g' /\ shows g' = shows g;
  code_works : forall k hz c m g, inv m g -> m_hazards m !! k = Some hz -> fits k hz c ->
    ready k (code c) (ends k hz c (wins (shows g))) [] m g
}.

Section theory.
Context {EX : Extern} {V : Type} {D : Structure V} {P : Proof D} {HC : Correct D P}.
#[local] Abbreviation pending := (gmap nat (nat * option (call * list op * nat))).
#[local] Abbreviation answer := (answer (V := V)).
#[local] Abbreviation client := (client (V := V)).
#[local] Abbreviation memory := (memory (V := V)).
Implicit Types (m : memory) (g : ghost) (hz : gmap nat Z) (c : call) (y : answer) (s : contents) (tr : list op) (k : nat).

(** *** Room *)
Lemma astep_size k m x y m' : astep k m x y m' ->
  (size (m_links m') <= S (size (m_links m)))%nat /\ (size (m_objs m') <= S (size (m_objs m)))%nat.
Proof.
  assert (Hi : forall K A `{Countable K} (f : gmap K A) i a, (size (<[i := a]> f) <= S (size f))%nat).
  { intros K A ? ? f i a. pose proof (map_size_insert i a f) as E. destruct (f !! i); cbn in E; lia. }
  assert (Hd : forall K A `{Countable K} (f : gmap K A) i, (size (delete i f) <= S (size f))%nat).
  { intros K A ? ? f i. pose proof (map_size_delete i f) as E. destruct (f !! i); cbn in E; lia. }
  inversion 1; subst; cbn; split; auto using Nat.le_succ_diag_r.
Qed.
Lemma acollect_size m m' : acollect m m' -> (size (m_links m') <= size (m_links m))%nat /\ (size (m_objs m') <= size (m_objs m))%nat.
Proof.
  intros [Ho Hl _ _]. split; apply map_subseteq_size, map_subseteq_spec; intros i x Hx; [by apply Hl in Hx as [? _]|by apply Ho in Hx as [? _]].
Qed.
Lemma ample_spacious n m : ample (S n) m -> spacious m.
Proof. intros [Hl Ha]. split; [unfold spare_roots; lia|]. apply Ha. rewrite size_dom. lia. Qed.
Lemma ample_less n m m' : ample (S n) m -> (size (m_links m') <= S (size (m_links m)))%nat -> (size (m_objs m') <= S (size (m_objs m)))%nat -> ample n m'.
Proof. intros [Hl Ha] Hl' Ha'. split; [lia|]. intros objs Hs. apply Ha. lia. Qed.
Lemma ample_same n m m' : ample (S n) m -> m_links m' = m_links m -> m_objs m' = m_objs m -> ample n m'.
Proof. intros Hr El Eo. apply (ample_less n m); [done|rewrite El; lia|rewrite Eo; lia]. Qed.
Lemma astep_hazards k m x y m' j : astep k m x y m' -> is_Some (m_hazards m !! j) -> is_Some (m_hazards m' !! j).
Proof. inversion 1; subst; cbn; try done; intros ?; rewrite lookup_insert_is_Some; by destruct (decide (k = j)); [left|right]. Qed.
Lemma ready_others k p Q tr m g m' g' : ready k p Q tr m g -> others k m g m' g' -> ready k p Q tr m' g'.
Proof. intros H Ho m1 g1 Hi H1. apply H; [done|]. by eapply others_trans. Qed.

(** *** The specification keeps up *)
Definition linked m g (t : option (thread V)) (x : option (nat * option client)) (X : option (nat * option (call * list op * nat))) : Prop :=
  match t, x, X with
  | None, None, None => True
  | Some (Fresh sc), None, None => forall k, disciplined k ∅ sc
  | Some (Idle sc), Some (k, None), Some (k', None) => k' = k /\ exists hz, m_hazards m !! k = Some hz /\ disciplined k hz sc
  | Some (Busy p next), Some (k, Some p'), Some (k', Some (c, tr, n)) => k' = k /\ p' = p /\ is_Some (m_hazards m !! k) /\
      exists hz, (forall y, gives k hz c y -> disciplined k (after hz c y) (next y)) /\ ready k p (ends k hz c n) tr m g
  | _, _, _ => False
  end.
Record keeps_up (th : gmap nat (thread V)) (x : aconf (V := V)) g (X : pending * contents) : Prop := {
  ku_linked : forall i, linked x.2 g (th !! i) (x.1 !! i) (X.1 !! i);
  ku_inj : forall i j k o o', x.1 !! i = Some (k, o) -> x.1 !! j = Some (k, o') -> i = j;
  ku_inv : inv x.2 g;
  ku_shows : shows g = X.2
}.
Lemma linked_others m g m' g' t k o X : linked m g t (Some (k, o)) X -> others k m g m' g' -> linked m' g' t (Some (k, o)) X.
Proof.
  intros H Ho. pose proof (others_hazards _ _ _ _ _ Ho) as Eh. destruct t as [[sc|sc|p next]|], o as [p'|], X as [[k' [[[c tr] n]|]]|]; cbn in *; try done.
  - destruct H as (-> & hz & Hh & Hd). split; [done|]. exists hz. by rewrite Eh.
  - destruct H as (-> & -> & Hs & hz & Hd & Hr). rewrite Eh. split_and!; [done..|]. exists hz. split; [done|]. by eapply ready_others.
Qed.
Lemma linked_none m g m' g' t X : linked m g t None X -> linked m' g' t None X.
Proof. by destruct t as [[| |]|]. Qed.
Lemma linked_hazards m g t k o X : linked m g t (Some (k, o)) X -> is_Some (m_hazards m !! k).
Proof.
  destruct t as [[sc|sc|p next]|], o as [p'|], X as [[k' [[[c tr] n]|]]|]; cbn; try done; [|by intros (_ & _ & ? & _)].
  intros (_ & hz & -> & _). by eexists.
Qed.
(** Thread [i] goes on, as participant [k]. *)
Lemma keeps_up_step th ths m g Xs s i k o o' t' X' m' g' oe : keeps_up th (ths, m) g (Xs, s) -> ths !! i = Some (k, o) ->
  makes k oe m g m' g' -> linked m' g' (Some t') (Some (k, o')) (Some X') ->
  keeps_up (<[i := t']> th) (<[i := (k, o')]> ths, m') g' (<[i := X']> Xs, shows g').
Proof.
  intros [Hl Hinj Hinv _] Hi Hmk Hn. constructor; cbn [fst snd] in *; [| |apply (mk_inv _ _ _ _ _ _ Hmk)|done].
  - intros j. destruct (decide (i = j)) as [->|Hij]; [by rewrite !lookup_insert_eq|]. rewrite !lookup_insert_ne by done.
    specialize (Hl j). destruct (ths !! j) as [[k' x]|] eqn:Hj; [|by eapply linked_none].
    eapply linked_others; [exact Hl|]. apply (mk_others _ _ _ _ _ _ Hmk). intros ->. by apply Hij, (Hinj i j k o x).
  - assert (Hsame : forall j k' x, <[i := (k, o')]> ths !! j = Some (k', x) -> exists x', ths !! j = Some (k', x')).
    { intros j k' x [[<- [= <- <-]]|[_ Hj]]%lookup_insert_Some; [by exists o|by exists x]. }
    intros i1 i2 k' o1 o2 [x1 H1]%Hsame [x2 H2]%Hsame. by eapply Hinj.
Qed.

Lemma makes_refl k m g : inv m g -> makes k None m g m g.
Proof. intros Hi. split; [done..|]. intros j _. apply others_refl. Qed.

(** *** One event *)
Definition goes_on (n : nat) (e : event (V := V)) (f : answer -> gmap nat (thread V)) (x : aconf (V := V)) (X : pending * contents) : Prop :=
  permits e x /\ forall y x1, aevent e y x x1 -> exists g1 X1, sevent e y X X1 /\ keeps_up (f y) x1 g1 X1 /\ ample n x1.2.
Section event.
Context (n : nat) (th : gmap nat (thread V)) (ths : gmap nat (nat * option client)) (m : memory) (g : ghost) (Xs : pending) (s : contents).
Context (H : keeps_up th (ths, m) g (Xs, s)) (Hroom : ample (S n) m) (i : nat).
Lemma join_goes_on sc : th !! i = Some (Fresh sc) -> goes_on n (Join i) (fun _ => <[i := Idle sc]> th) (ths, m) (Xs, s).
Proof.
  intros Ht. destruct H as [Hl Hinj Hinv Hs]. cbn [fst snd] in *. pose proof (Hl i) as Hi. rewrite Ht in Hi.
  destruct (ths !! i) as [?|] eqn:Ei; [by destruct (Xs !! i)|]. destruct (Xs !! i) as [?|]; [done|]. cbn in Hi.
  split; [done|]. intros y x1 Hx. inversion Hx; subst. pose proof (joins k m g Hinv ltac:(done)) as Hmk.
  assert (Hk : forall j o, ths !! j = Some (k, o) -> False).
  { intros j o Hj. specialize (Hl j). rewrite Hj in Hl. apply linked_hazards in Hl as [? ?]. congruence. }
  exists g, (<[i := (k, None)]> Xs, shows g). split; [constructor|]. split; [|by apply (ample_same n m)]. constructor; cbn [fst snd].
  - intros j. destruct (decide (i = j)) as [->|Hij].
    + rewrite !lookup_insert_eq. split; [done|]. exists ∅. cbn. by rewrite lookup_insert_eq.
    + rewrite !lookup_insert_ne by done. specialize (Hl j). destruct (ths !! j) as [[k' o]|] eqn:Hj; [|by eapply linked_none].
      eapply linked_others; [exact Hl|]. apply (mk_others _ _ _ _ _ _ Hmk). intros ->. by eapply Hk.
  - intros i1 i2 k' o o' [[<- E1]|[_ H1]]%lookup_insert_Some [[<- E2]|[_ H2]]%lookup_insert_Some; [done| | |by eapply Hinj].
    + injection E1 as <- _. by destruct (Hk _ _ H2).
    + injection E2 as <- _. by destruct (Hk _ _ H1).
  - apply (mk_inv _ _ _ _ _ _ Hmk).
  - done.
Qed.
(** An idle thread, and a busy one. *)
Lemma idle_inv sc : th !! i = Some (Idle sc) -> exists k hz, ths !! i = Some (k, None) /\ Xs !! i = Some (k, None) /\
  m_hazards m !! k = Some hz /\ disciplined k hz sc.
Proof.
  intros Ht. pose proof (ku_linked _ _ _ _ H i) as Hl. cbn [fst snd] in Hl. rewrite Ht in Hl.
  destruct (ths !! i) as [[k [p|]]|]; [done| |done]. destruct (Xs !! i) as [[k' [X|]]|]; [done| |done]. destruct Hl as (-> & hz & Hh & Hd). by exists k, hz.
Qed.
Lemma busy_inv p next : th !! i = Some (Busy p next) -> exists k hz c tr w, ths !! i = Some (k, Some p) /\ Xs !! i = Some (k, Some (c, tr, w)) /\
  is_Some (m_hazards m !! k) /\ (forall y, gives k hz c y -> disciplined k (after hz c y) (next y)) /\ ready k p (ends k hz c w) tr m g.
Proof.
  intros Ht. pose proof (ku_linked _ _ _ _ H i) as Hl. cbn [fst snd] in Hl. rewrite Ht in Hl.
  destruct (ths !! i) as [[k [p'|]]|]; [|done|done]. destruct (Xs !! i) as [[k' [[[c tr] w]|]]|]; [|done|done].
  destruct Hl as (-> & -> & Hs & hz & Hd & Hr). by exists k, hz, c, tr, w.
Qed.
Lemma leave_goes_on : th !! i = Some (Idle Finish) -> goes_on n (Leave i) (fun _ => delete i th) (ths, m) (Xs, s).
Proof.
  intros (k & hz & Hi & HX & Hh & ->)%idle_inv. destruct H as [Hl Hinj Hinv Hs]. cbn [fst snd] in *.
  split; [by exists k|]. intros y x1 Hx. inversion Hx; simplify_eq. pose proof (leaves k m g Hinv Hh) as Hmk.
  exists g, (delete i Xs, shows g). split; [by econstructor|]. split; [|by apply (ample_same n m)]. constructor; cbn [fst snd].
  - intros j. destruct (decide (i = j)) as [->|Hij]; [by rewrite !lookup_delete_eq|]. rewrite !lookup_delete_ne by done.
    specialize (Hl j). destruct (ths !! j) as [[k' o]|] eqn:Hj; [|by eapply linked_none].
    eapply linked_others; [exact Hl|]. apply (mk_others _ _ _ _ _ _ Hmk). intros ->. by apply Hij, (Hinj i j k None o).
  - intros i1 i2 k' o o' [_ H1]%lookup_delete_Some [_ H2]%lookup_delete_Some. by eapply Hinj.
  - apply (mk_inv _ _ _ _ _ _ Hmk).
  - done.
Qed.
Lemma begin_goes_on c next : th !! i = Some (Idle (Call c next)) -> goes_on n (Begin i (code c)) (fun _ => <[i := Busy (code c) next]> th) (ths, m) (Xs, s).
Proof.
  intros (k & hz & Hi & HX & Hh & Hfit & Hd)%idle_inv. pose proof (ku_shows _ _ _ _ H) as Hs. cbn [fst snd] in Hs.
  split; [by exists k|]. intros y x1 Hx. inversion Hx; simplify_eq.
  eexists g, _. split; [by apply SBegin, HX|]. split; [|by apply (ample_same n m)]. eapply keeps_up_step; [exact H|exact Hi|by apply makes_refl, (ku_inv _ _ _ _ H)|].
  cbn. split; [done|]. split; [done|]. split; [by eexists|]. exists hz. split; [exact Hd|]. apply code_works; [apply (ku_inv _ _ _ _ H)|done..].
Qed.
Lemma step_goes_on a p next : th !! i = Some (Busy (Do a p) next) -> goes_on n (Step i) (fun y => <[i := Busy (p y) next]> th) (ths, m) (Xs, s).
Proof.
  intros (k & hz & c & tr & w & Hi & HX & Hh & Hd & Hr)%busy_inv. pose proof (ku_shows _ _ _ _ H) as Hs. cbn [fst snd] in Hs.
  destruct (Hr m g (ku_inv _ _ _ _ H) (others_refl k m g)) as [Ha Hstep]. split; [exists k, a, p; split; [done|by eapply Ha, ample_spacious]|].
  intros y x1 Hx. inversion Hx; simplify_eq. match goal with Hs : astep _ _ _ _ _ |- _ => rename Hs into HA end.
  destruct (Hstep _ _ HA) as (o & g' & Hmk & Hw). exists g', (<[i := (k, Some (c, tr ++ option_list o, w))]> Xs, shows g').
  split; [eapply SStep; [done|apply (mk_effect _ _ _ _ _ _ Hmk)]|]. destruct (astep_size _ _ _ _ _ HA) as [Hl Ho]. split; [|by eapply ample_less].
  eapply keeps_up_step; [exact H|exact Hi|exact Hmk|]. cbn. split; [done|]. split; [done|]. split; [by eapply astep_hazards|]. exists hz. by split.
Qed.
Lemma end_goes_on z next : th !! i = Some (Busy (Done z) next) -> goes_on n (End i) (fun y => <[i := Idle (next y)]> th) (ths, m) (Xs, s).
Proof.
  intros (k & hz & c & tr & w & Hi & HX & _ & Hd & Hr)%busy_inv. pose proof (ku_shows _ _ _ _ H) as Hs. cbn [fst snd] in Hs.
  destruct (Hr m g (ku_inv _ _ _ _ H) (others_refl k m g)) as (Hout & Hg & Hh). split; [by exists k, z|].
  intros y x1 Hx. inversion Hx; simplify_eq. eexists g, _. split; [by eapply SEnd|]. split; [|by apply (ample_same n m)].
  eapply keeps_up_step; [exact H|exact Hi|by apply makes_refl, (ku_inv _ _ _ _ H)|]. cbn. split; [done|]. eexists. split; [exact Hh|]. by apply Hd.
Qed.
Lemma collect_goes_on wt : map_Forall (fun _ t => idle t = true) th -> goes_on n (Collect wt) (fun _ => th) (ths, m) (Xs, s).
Proof.
  intros Hidle. destruct H as [Hl Hinj Hinv Hs]. cbn [fst snd] in *.
  assert (Hq : forall j x, ths !! j = Some x -> x.2 = None).
  { intros j [k [p|]] Hj; [|done]. specialize (Hl j). rewrite Hj in Hl. destruct (th !! j) as [t|] eqn:Ht; [|done].
    specialize (Hidle j t Ht). by destruct t. }
  split; [done|]. intros y x1 Hx. inversion Hx; subst. match goal with Hc : acollect _ _ |- _ => rename Hc into HC' end.
  destruct (collects m g _ Hinv HC') as (g' & Hinv' & Es). exists g', (Xs, shows g). split; [constructor|].
  destruct (acollect_size _ _ HC') as [Hsl Hso]. split; [|apply (ample_less n m); [done|cbn; lia..]]. constructor; cbn [fst snd]; [|done..].
  intros j. specialize (Hl j). destruct (ths !! j) as [[k o]|] eqn:Hj; [|by eapply linked_none]. specialize (Hq j _ Hj). cbn in Hq. subst o.
  destruct (th !! j) as [[sc|sc|p next]|], (Xs !! j) as [[k' [[[c tr] w]|]]|]; cbn in *; try done. by rewrite (ac_hazards _ _ HC').
Qed.
End event.

(** *** Scripts *)
Lemma next_goes_on n ch th e f x g X : next_event ch th = Some (e, f) -> keeps_up th x g X -> ample (S n) x.2 -> goes_on n e f x X.
Proof.
  destruct x as [ths m], X as [Xs s]. intros E H Hr. destruct ch as [i|wt]; cbn in E.
  - destruct (th !! i) as [[sc|[|c next]|[z|a p] next]|] eqn:Ht; [..|done]; injection E as <- <-;
      [by eapply join_goes_on|by eapply leave_goes_on|by eapply begin_goes_on|by eapply end_goes_on|by eapply step_goes_on].
  - case_decide; [|done]. injection E as <- <-. by eapply collect_goes_on.
Qed.
Lemma drive_linear cs : forall th x g X, keeps_up th x g X -> ample (length cs) x.2 ->
  permitted (drive cs th) x /\ forall h x', aplay (drive cs th) x h x' -> exists X', linear h X X'.
Proof.
  induction cs as [|ch cs IH]; intros th x g X H Hr; cbn [drive].
  - split; [done|]. intros h x' Hx. inversion Hx; subst. exists X. constructor.
  - destruct (next_event ch th) as [[e f]|] eqn:E.
    + destruct (next_goes_on (length cs) ch th e f x g X E H Hr) as [Hp Hn]. split.
      * split; [done|]. intros y x1 (g1 & X1 & _ & H1 & Hr1)%Hn. by eapply IH.
      * intros h x' Hx. inversion Hx; subst. match goal with Ha : aevent _ _ _ _, Hb : aplay _ _ _ _ |- _ => rename Ha into HA; rename Hb into HB end.
        destruct (Hn _ _ HA) as (g1 & X1 & Hs & H1 & Hr1). destruct (IH _ _ _ _ H1 Hr1) as [_ Hl]. destruct (Hl _ _ HB) as [X' HX].
        exists X'. by econstructor.
    + apply (IH th x g X H). apply (ample_less _ x.2); [done|lia..].
Qed.

(** ** Scripts on the crate *)
(** At the start the threads that run are idle and hold no hazard pointers. *)
Definition starts (th : gmap nat (thread V)) (x : aconf (V := V)) : Prop := forall i,
  match th !! i, x.1 !! i with
  | None, None => True
  | Some (Fresh sc), None => forall k, disciplined k ∅ sc
  | Some (Idle sc), Some (k, None) => m_hazards x.2 !! k = Some ∅ /\ disciplined k ∅ sc
  | _, _ => False
  end.
Definition nothing_pending (x : aconf (V := V)) : pending := (fun th => (th.1, None)) <$> x.1.
Lemma starts_keeps_up th ths m g : (forall i j k o o', ths !! i = Some (k, o) -> ths !! j = Some (k, o') -> i = j) -> starts th (ths, m) -> inv m g ->
  keeps_up th (ths, m) g (nothing_pending (ths, m), shows g).
Proof.
  intros Hinj Hs Hi. constructor; [|done..]. intros i. specialize (Hs i). cbn in *. rewrite lookup_fmap.
  destruct (th !! i) as [[sc|sc|p next]|], (ths !! i) as [[k [q|]]|]; cbn; try done. split; [done|]. by exists ∅.
Qed.
Lemma yields_scripts l f W t cs th ths (s : gstate V) g : no_retry -> running l W t ths s -> starts th (aconf_of ths s) ->
  inv (visible (parts ths) s) g -> ample (length cs) (visible (parts ths) s) -> roomy l f (drive cs th) ths s = true ->
  yields (play (S (S f)) l (drive cs th) ths) s (fun x _ => exists X, linear x.1 (nothing_pending (aconf_of ths s), shows g) X).
Proof.
  intros Hnr H Hst Hi Ha Hr. assert (Hk : keeps_up th (aconf_of ths s) g (nothing_pending (aconf_of ths s), shows g)).
  { apply starts_keeps_up; [|done..]. intros i j k o o' Ei Ej.
    destruct (aconf_lookup ths s i k o Ei) as (o1 & E1 & _), (aconf_lookup ths s j k o' Ej) as (o2 & E2 & _). by eapply (ru_inj _ _ _ _ _ H). }
  destruct (drive_linear cs th _ g _ Hk Ha) as [Hp Hl]. eapply yields_mono; [by eapply yields_session|]. intros x s' [_ Hx]. by eapply Hl.
Qed.
End theory.
