(* ===== verification/StackCrate.v ===== *)
(** * Treiber's stack on the crate ([examples/stack.rs])

    The methods of the stack as critical sections of the crate's operations, with the node's
    link, its allocation and the hazard pointer of an [ItemRef], and its linearizability among
    collections: the nodes a thread still works on, the ones on the stack and the popped ones an
    [ItemRef] protects are never freed, and what is freed and allocated again confuses nobody. *)
From S2P Require Import Prelude Prog Epoch Meta Slots Registry State Heap Participant Guards Pointers Collector Total Tasks Rest Memory Mutator Commands Threads Transparency.
From S2P Require Import Scripts.
#[local] Open Scope Z_scope.

(** [Node<T>]: an item and the link to the next node, which is at an address of its own. *)
Class Node (T V : Type) := {
  node_val : T -> cell -> V;
  node_item : V -> T;
  node_next : V -> cell;
  node_item_val : forall x c, node_item (node_val x c) = x;
  node_next_val : forall x c, node_next (node_val x c) = c
}.

Section stack.
Context {EX : Extern} {T V : Type} {N : Node T V} (node_type : nat) (node_size : Z) (top : cell) (fuel : nat).
#[local] Abbreviation answer := (answer (V := V)).
#[local] Abbreviation client := (client (V := V)).
#[local] Abbreviation memory := (memory (V := V)).
Implicit Types (m : memory) (hz : gmap nat Z) (y : answer) (k : nat) (x : T) (c : cell) (a : Z) (p : option Z).

(** ** The methods *)
(** [handle.pin()] and the drop of the guard are the beginning and the end of a section.  A pop
    answers [AUnit] for [None], and the node with its hazard pointer for an [ItemRef]; a borrow
    answers what is in the node; a loop out of fuel answers [ASpin].  A borrow and the drop of an
    [ItemRef] need no guard; they too are made sections, of one command each, and what keeps the
    node of a borrow is the hazard pointer alone: a collection runs between sections only. *)
Definition new_node x c : item V := mkItem V node_type node_size (node_val x c) [c].
(** [load], [store] and [compare_exchange] are the variants without tag. *)
Definition do_load c (next : option Z -> client) : client :=
  Do (CLoad c) (fun y => match y with AView v => next v.1 | _ => Done ASpin end).
Definition do_store c p (next : client) : client := Do (CStore c p 0) (fun _ => next).
Definition do_compare_exchange c p p' (next : bool -> client) : client :=
  Do (CCas c (p, 0) (p', 0)) (fun y => match y with ACas (inl _) => next true | ACas (inr _) => next false | _ => Done ASpin end).
Definition do_none (next : cell -> client) : client :=
  Do (CNone 0) (fun y => match y with ACell c => next c | _ => Done ASpin end).
Definition do_new (it : item V) (next : Z -> client) : client :=
  Do (CNew it) (fun y => match y with AAddr a => next a | _ => Done ASpin end).
Definition do_deref a (next : V -> client) : client :=
  Do (CDeref a) (fun y => match y with AVal v => next v | _ => Done ASpin end).

(** [ItemRef::new]: the node is protected for a handle, of the thread's participant. *)
Definition item_ref_new (node : Z) : client := Do (CProtect node_type node) Done.
Definition borrow (node : Z) : client := do_deref node (fun v => Done (AVal v)).
Definition item_ref_drop (hp : HazardPointer) : client := Do (CRelease hp) (fun _ => Done AUnit).

Fixpoint pop (f : nat) : client :=
  match f with
  | O => Done ASpin
  | S f =>
      do_load top (fun old =>
        match old with
        | None => Done AUnit
        | Some node =>
            do_deref node (fun v => do_load (node_next v) (fun new =>
              do_compare_exchange top old new (fun ok => if ok then item_ref_new node else pop f)))
        end)
  end.
Fixpoint push_loop (f : nat) (new : Z) (next : cell) : client :=
  match f with
  | O => Done ASpin
  | S f =>
      do_load top (fun old => do_store next old (
        do_compare_exchange top old (Some new) (fun ok => if ok then Done AUnit else push_loop f new next)))
  end.
Definition push (f : nat) (item : T) : client :=
  do_none (fun next => do_new (new_node item next) (fun new => push_loop f new next)).
Definition is_empty : client := do_load top (fun old => Done (ABool (bool_decide (old = None)))).

(** ** The specification *)
Inductive scall := Push (x : T) | Pop | IsEmpty | Borrow (node : Z) (hp : HazardPointer) | Drop_ref (hp : HazardPointer).
(** The items, the [ItemRef]s of each participant (their hazard pointers with the node and its
    item), and how often the top has been changed. *)
Record stack := mkStack { items : list T; held : gmap nat (gmap nat (Z * T)); count : nat }.
Definition refs (s : stack) k : gmap nat (Z * T) := default ∅ (held s !! k).
Inductive sop := EPush x | EPop (r : option T) | EEmpty (b : bool) | ERef k (h : nat) a x | EBorrow k (h : nat) a x | EDrop k (h : nat).
Inductive sspec : sop -> stack -> stack -> Prop :=
  | spec_push x xs hs n : sspec (EPush x) (mkStack xs hs n) (mkStack (x :: xs) hs (S n))
  | spec_pop x xs hs n : sspec (EPop (Some x)) (mkStack (x :: xs) hs n) (mkStack xs hs (S n))
  | spec_pop_none hs n : sspec (EPop None) (mkStack [] hs n) (mkStack [] hs n)
  | spec_empty s : sspec (EEmpty (bool_decide (items s = []))) s s
  | spec_ref k h a x s : refs s k !! h = None -> sspec (ERef k h a x) s (mkStack (items s) (<[k := <[h := (a, x)]> (refs s k)]> (held s)) (count s))
  | spec_borrow k h a x s : refs s k !! h = Some (a, x) -> sspec (EBorrow k h a x) s s
  | spec_drop k h s : sspec (EDrop k h) s (mkStack (items s) (<[k := delete h (refs s k)]> (held s)) (count s)).

Definition scode (c : scall) : client :=
  match c with
  | Push x => push fuel x
  | Pop => pop fuel
  | IsEmpty => is_empty
  | Borrow node _ => borrow node
  | Drop_ref hp => item_ref_drop hp
  end.
(** An [ItemRef] is borrowed and dropped by its owner, and dropped once. *)
Definition sfits k hz (c : scall) : Prop :=
  match c with
  | Borrow node hp => hp_local hp = k /\ hz !! hp_hid hp = Some node
  | Drop_ref hp => hp_local hp = k /\ is_Some (hz !! hp_hid hp)
  | _ => True
  end.
Definition sgives k hz (c : scall) y : Prop :=
  match c with
  | Pop => y = AUnit \/ y = ASpin \/ exists a h, y = ARef a (mkHP h k) /\ hz !! h = None
  | _ => True
  end.
Definition safter hz (c : scall) y : gmap nat Z :=
  match c, y with
  | Pop, ARef a hp => <[hp_hid hp := a]> hz
  | Drop_ref hp, _ => delete (hp_hid hp) hz
  | _, _ => hz
  end.
(** A call that gives up has had no effect, and its [fuel] rounds all lost to another thread. *)
Definition gave_up y (tr : list sop) (n : nat) : Prop := y = ASpin /\ tr = [] /\ (fuel <= n)%nat.
Definition soutcome k (c : scall) y (tr : list sop) (n : nat) : Prop :=
  match c with
  | Push x => y = AUnit /\ tr = [EPush x] \/ gave_up y tr n
  | Pop => y = AUnit /\ tr = [EPop None] \/
           (exists a h x, y = ARef a (mkHP h k) /\ tr = [EPop (Some x); ERef k h a x]) \/ gave_up y tr n
  | IsEmpty => exists b, y = ABool b /\ tr = [EEmpty b]
  | Borrow node hp => exists v, y = AVal v /\ tr = [EBorrow k (hp_hid hp) node (node_item v)]
  | Drop_ref hp => y = AUnit /\ tr = [EDrop k (hp_hid hp)]
  end.
#[local] Instance stack_structure : Structure V := {|
  call := scall; op := sop; contents := stack; code := scode; spec := sspec; wins := count;
  fits := sfits; gives := sgives; after := safter; outcome := soutcome
|}.

(** ** The invariant *)
(** History: the stack, and who owns the links of nodes nobody else knows. *)
Record hist := mkHistory { stack_of : stack; own : gmap cell nat }.
Implicit Types (g : hist).
Definition node m a x c : Prop := m_objs m !! a = Some (object_of (new_node x c)).
Definition leads m p : Prop := forall a, p = Some a -> exists x c, node m a x c.
Fixpoint chain m g p (xs : list T) : Prop :=
  match xs with
  | [] => p = None
  | x :: xs => exists a c n, p = Some a /\ node m a x c /\ own g !! c = None /\ m_links m !! c = Some (n, 0) /\ chain m g n xs
  end.
Record valid m g : Prop := {
  v_top : exists p, m_links m !! top = Some (p, 0) /\ chain m g p (items (stack_of g));
  v_root : ~ in_object m top;
  v_cells : forall c, in_object m c -> is_Some (m_links m !! c);
  v_disj : forall a b o o' c, m_objs m !! a = Some o -> m_objs m !! b = Some o' -> c ∈ ao_links o -> c ∈ ao_links o' -> a = b;
  v_next : forall a x c, node m a x c -> exists p, m_links m !! c = Some (p, 0) /\ leads m p;
  v_own : forall c k, own g !! c = Some k -> c <> top /\ is_Some (m_links m !! c);
  v_types : (size (m_types m ∪ {[node_type]}) <= capacity)%nat /\ hash_fits node_type;
  v_refs : forall k h a x, refs (stack_of g) k !! h = Some (a, x) -> is_Some (m_hazards m !! k) /\ exists c, node m a x c;
  v_hazards : forall k hz, m_hazards m !! k = Some hz -> hz = fst <$> refs (stack_of g) k
}.
(** What participant [k] can rely on: objects stay, its own links and those of published nodes
    do not change, and every change of the top counts. *)
Record keeps k m g m' g' : Prop := {
  k_objs : m_objs m ⊆ m_objs m';
  k_mine : forall c, own g !! c = Some k -> own g' !! c = Some k /\ m_links m' !! c = m_links m !! c /\ (in_object m' c -> in_object m c);
  k_shared : forall a x c, node m a x c -> own g !! c = None -> own g' !! c = None /\ m_links m' !! c = m_links m !! c;
  k_hazards : m_hazards m' !! k = m_hazards m !! k;
  k_count : (count (stack_of g) <= count (stack_of g'))%nat;
  k_top : count (stack_of g') = count (stack_of g) -> m_links m' !! top = m_links m !! top
}.
#[local] Instance stack_proof : Proof stack_structure := {| ghost := hist; shows := stack_of; inv := valid; others := keeps |}.

Lemma node_inj m a x c x' c' : node m a x c -> node m a x' c' -> x = x' /\ c = c'.
Proof.
  unfold node, object_of, new_node. cbn. intros H1 H2. rewrite H1 in H2. injection H2 as Ev ->. split; [|done].
  by rewrite <- (node_item_val x c'), <- (node_item_val x' c'), Ev.
Qed.
Lemma node_cell m a x c : node m a x c -> in_object m c.
Proof. intros H. exists a, (object_of (new_node x c)). split; [done|by left]. Qed.
Lemma node_stays m m' a x c : m_objs m ⊆ m_objs m' -> node m a x c -> node m' a x c.
Proof. intros Hs H. by eapply lookup_weaken. Qed.
Lemma leads_stays m m' p : m_objs m ⊆ m_objs m' -> leads m p -> leads m' p.
Proof. intros Hs H a E. destruct (H a E) as (x & c & Hn). exists x, c. by eapply node_stays. Qed.
Lemma leads_live m p : leads m p -> live m p.
Proof. destruct p as [a|]; [|done]. intros H. destruct (H a eq_refl) as (x & c & Hn). by eexists. Qed.
Lemma leads_node m a x c : node m a x c -> leads m (Some a).
Proof. intros H b [= <-]. by exists x, c. Qed.
Lemma chain_leads m g p xs : chain m g p xs -> leads m p.
Proof. destruct xs as [|x xs]; [by intros ->|]. intros (a & c & n & -> & Hn & _). by eapply leads_node. Qed.
Lemma valid_top_cell m g a x c : valid m g -> node m a x c -> c <> top.
Proof. intros Hv Hn ->. by eapply (v_root _ _ Hv), node_cell. Qed.

Lemma keeps_refl k m g : keeps k m g m g.
Proof. by split. Qed.
Lemma keeps_trans k m1 g1 m2 g2 m3 g3 : keeps k m1 g1 m2 g2 -> keeps k m2 g2 m3 g3 -> keeps k m1 g1 m3 g3.
Proof.
  intros [O1 M1 S1 H1 C1 T1] [O2 M2 S2 H2 C2 T2]. split.
  - by etransitivity.
  - intros c Hc. destruct (M1 c Hc) as (E1 & L1 & I1). destruct (M2 c E1) as (E2 & L2 & I2). split; [done|]. split; [congruence|auto].
  - intros a x c Hn Hc. destruct (S1 a x c Hn Hc) as [E1 L1]. destruct (S2 a x c (node_stays _ _ _ _ _ O1 Hn) E1) as [E2 L2]. split; [done|congruence].
  - congruence.
  - lia.
  - intros E. rewrite T2, T1; [done|lia..].
Qed.
Lemma chain_keeps k m g m' g' p xs : keeps k m g m' g' -> chain m g p xs -> chain m' g' p xs.
Proof.
  intros Hk. revert p. induction xs as [|x xs IH]; intros p; [done|]. intros (a & c & n & -> & Hn & Hc & Hl & Hch).
  destruct (k_shared _ _ _ _ _ Hk a x c Hn Hc) as [Hc' El]. exists a, c, n. split_and!; [done|by eapply node_stays, Hn; apply Hk|done|exact (eq_trans El Hl)|by apply IH].
Qed.
(** A step that moves nothing but what it says. *)
Lemma makes_read k e m g : valid m g -> sspec e (stack_of g) (stack_of g) -> makes k (Some e) m g m g.
Proof. intros Hv He. split; [done..|]. intros j _. apply keeps_refl. Qed.

(** ** The steps *)
Lemma makes_same k m g : valid m g -> makes k None m g m g.
Proof. intros Hv. split; [done..|]. intros j _. apply keeps_refl. Qed.
(** A thread writes a link of its own, or gets a fresh one. *)
Lemma makes_link k c p m g : valid m g -> c <> top -> own g !! c = Some k \/ m_links m !! c = None -> leads m p ->
  makes k None m g (put_link c (p, 0) m) (mkHistory (stack_of g) (<[c := k]> (own g))).
Proof.
  intros Hv Ht Hc Hp.
  assert (Hk : forall j, j <> k -> keeps j m g (put_link c (p, 0) m) (mkHistory (stack_of g) (<[c := k]> (own g)))).
  { intros j Hj. split; [done| | |done..|]; cbn.
    - intros d Hd. assert (c <> d) by (intros <-; destruct (v_own _ _ Hv c j Hd) as [_ [? ?]]; destruct Hc; congruence).
      by rewrite !lookup_insert_ne.
    - intros a x d Hn Hd. assert (c <> d) by (intros <-; destruct (v_cells _ _ Hv c (node_cell _ _ _ _ Hn)) as [? ?]; destruct Hc; congruence).
      by rewrite !lookup_insert_ne.
    - intros _. by rewrite lookup_insert_ne. }
  split; [|done|exact Hk]. destruct (v_top _ _ Hv) as (q & Hq & Hch). constructor; cbn.
  - exists q. rewrite lookup_insert_ne by done. split; [exact Hq|]. eapply (chain_keeps (S k)), Hch. by apply Hk; lia.
  - apply (v_root _ _ Hv).
  - intros d Hd. rewrite lookup_insert_is_Some. destruct (decide (c = d)); [by left|right]. split; [done|]. by apply (v_cells _ _ Hv).
  - apply (v_disj _ _ Hv).
  - intros a x d Hn. destruct (decide (c = d)) as [->|Hcd]; [exists p; by rewrite lookup_insert_eq|].
    rewrite lookup_insert_ne by done. apply (v_next _ _ Hv a x d Hn).
  - intros d j [[<- <-]|[Hcd Hd]]%lookup_insert_Some; [by rewrite lookup_insert_eq; split; [|eexists]|].
    rewrite lookup_insert_ne by done. by eapply (v_own _ _ Hv).
  - apply (v_types _ _ Hv).
  - apply (v_refs _ _ Hv).
  - apply (v_hazards _ _ Hv).
Qed.
(** A node is allocated, with the link. *)
Lemma makes_new k a x c p m g : valid m g -> own g !! c = Some k -> m_links m !! c = Some (p, 0) -> leads m p -> ~ in_object m c -> m_objs m !! a = None ->
  let m' := set_m_objs <[a := object_of (new_node x c)]> (set_m_types (union {[node_type]}) m) in makes k None m g m' g /\ node m' a x c.
Proof.
  intros Hv Hc Hl Hp Hout Ha m'. assert (Hs : m_objs m ⊆ m_objs m') by by apply insert_subseteq.
  assert (Hobj : forall b o, m_objs m' !! b = Some o -> (a = b /\ object_of (new_node x c) = o) \/ m_objs m !! b = Some o).
  { intros b o Hb. cbn in Hb. apply lookup_insert_Some in Hb as [?|[_ ?]]; [by left|by right]. }
  assert (Hin : forall d, in_object m' d -> d = c \/ in_object m d).
  { intros d (b & o & [[<- <-]|Hb]%Hobj & Hd); [left; by apply list_elem_of_singleton in Hd|right; by exists b, o]. }
  assert (Hnode : forall b x d, node m' b x d -> (a = b /\ d = c) \/ node m b x d).
  { intros b y d [[-> E]|Hb]%Hobj; [left; split; [done|]|by right]. by injection E as _ <-. }
  assert (Hk : forall j, j <> k -> keeps j m g m' g).
  { intros j Hj. split; [done| |done..].
    intros d Hd. split; [done|]. split; [done|]. intros [->|Hi]%Hin; [congruence|done]. }
  split; [|apply lookup_insert_eq]. split; [|done|exact Hk]. destruct (v_top _ _ Hv) as (q & Hq & Hch). constructor.
  - exists q. split; [exact Hq|]. eapply (chain_keeps (S k)), Hch. by apply Hk; lia.
  - intros [->|Hi]%Hin; [by eapply (v_own _ _ Hv)|by apply (v_root _ _ Hv)].
  - intros d [->|Hd]%Hin; [by eexists|by apply (v_cells _ _ Hv)].
  - intros b b' o o' d [[<- <-]|Ho]%Hobj [[<- <-]|Ho']%Hobj Hd Hd'; [done| | |by eapply (v_disj _ _ Hv)];
      [apply list_elem_of_singleton in Hd as ->|apply list_elem_of_singleton in Hd' as ->]; (destruct Hout; by eexists _, _).
  - intros b y d [[_ ->]|Hn]%Hnode; [exists p; split; [exact Hl|by eapply leads_stays]|].
    destruct (v_next _ _ Hv b y d Hn) as (r & Hr & Hld). exists r. split; [exact Hr|by eapply leads_stays].
  - apply (v_own _ _ Hv).
  - cbn. replace ({[node_type]} ∪ m_types m ∪ {[node_type]}) with (m_types m ∪ {[node_type]}) by set_solver. apply (v_types _ _ Hv).
  - intros j h b y Hr. destruct (v_refs _ _ Hv j h b y Hr) as [? (d & Hn)]. split; [done|]. exists d. by eapply node_stays.
  - apply (v_hazards _ _ Hv).
Qed.
(** The top changes, which publishes the link [c]. *)
Lemma makes_top k e c p xs m g : valid m g -> own g !! c = Some k \/ own g !! c = None -> leads m p -> in_object m c ->
  let g' := mkHistory (mkStack xs (held (stack_of g)) (S (count (stack_of g)))) (delete c (own g)) in
  (keeps (S k) m g (put_link top (p, 0) m) g' -> chain (put_link top (p, 0) m) g' p xs) -> sspec e (stack_of g) (stack_of g') ->
  makes k (Some e) m g (put_link top (p, 0) m) g'.
Proof.
  intros Hv Hc Hp Hin g' Hch He.
  assert (Hk : forall j, j <> k -> keeps j m g (put_link top (p, 0) m) g').
  { intros j Hj. split; [done| | |done|cbn; lia|cbn; lia]; cbn.
    - intros d Hd. rewrite lookup_delete_ne by (intros <-; destruct Hc; congruence). split; [done|]. split; [|done].
      rewrite lookup_insert_ne; [done|]. by intros <-; eapply (v_own _ _ Hv).
    - intros a x d Hn Hd. split; [rewrite lookup_delete_None; by right|]. rewrite lookup_insert_ne; [done|]. by intros <-; eapply valid_top_cell. }
  split; [|done|exact Hk]. constructor; cbn.
  - exists p. rewrite lookup_insert_eq. split; [done|]. apply Hch, Hk. lia.
  - apply (v_root _ _ Hv).
  - intros d Hd. rewrite lookup_insert_is_Some. destruct (decide (top = d)); [by left|right]. split; [done|]. by apply (v_cells _ _ Hv).
  - apply (v_disj _ _ Hv).
  - intros a x d Hn. rewrite lookup_insert_ne by (by intros <-; eapply valid_top_cell). apply (v_next _ _ Hv a x d Hn).
  - intros d j [_ Hd]%lookup_delete_Some. destruct (v_own _ _ Hv d j Hd) as [Hne Hs]. rewrite lookup_insert_ne by done. by split.
  - apply (v_types _ _ Hv).
  - apply (v_refs _ _ Hv).
  - apply (v_hazards _ _ Hv).
Qed.
Lemma valid_chain m g p : valid m g -> m_links m !! top = Some (p, 0) -> chain m g p (items (stack_of g)).
Proof. intros Hv Ht. destruct (v_top _ _ Hv) as (q & Hq & Hch). pose proof (eq_trans (eq_sym Ht) Hq) as E. by injection E as <-. Qed.
Lemma makes_push k a x c p m g : valid m g -> node m a x c -> own g !! c = Some k -> m_links m !! c = Some (p, 0) -> m_links m !! top = Some (p, 0) ->
  makes k (Some (EPush x)) m g (put_link top (Some a, 0) m)
    (mkHistory (mkStack (x :: items (stack_of g)) (held (stack_of g)) (S (count (stack_of g)))) (delete c (own g))).
Proof.
  intros Hv Hn Hc Hl Ht. pose proof (valid_chain _ _ _ Hv Ht) as Hch.
  apply makes_top; [done|by left|by eapply leads_node|by eapply node_cell| |by destruct g as [[] ?]; constructor].
  intros Hk. exists a, c, p. cbn. rewrite lookup_delete_eq, lookup_insert_ne by (by intros <-; eapply valid_top_cell).
  split_and!; try done. by eapply chain_keeps.
Qed.
Lemma makes_pop k a x c n m g : valid m g -> node m a x c -> own g !! c = None -> m_links m !! c = Some (n, 0) -> m_links m !! top = Some (Some a, 0) ->
  makes k (Some (EPop (Some x))) m g (put_link top (n, 0) m)
    (mkHistory (mkStack (tail (items (stack_of g))) (held (stack_of g)) (S (count (stack_of g)))) (delete c (own g))).
Proof.
  intros Hv Hn Hc Hl Ht. pose proof (valid_chain _ _ _ Hv Ht) as Hch.
  destruct (items (stack_of g)) as [|x' xs] eqn:Exs; [done|]. destruct Hch as (a' & c' & n' & [= <-] & Hn' & _ & Hl' & Hch).
  destruct (node_inj _ _ _ _ _ _ Hn Hn') as [<- <-]. pose proof (eq_trans (eq_sym Hl) Hl') as E. injection E as <-.
  apply makes_top; [done|by right|by eapply chain_leads|by eapply node_cell| |].
  - intros Hk. by eapply chain_keeps.
  - destruct g as [[] ?]. cbn in *. subst. constructor.
Qed.
(** The hazard pointers of [k] become those of [rs]. *)
Lemma makes_refs k o rs m g : valid m g -> is_Some (m_hazards m !! k) -> (forall h a x, rs !! h = Some (a, x) -> exists c, node m a x c) ->
  let s' := mkStack (items (stack_of g)) (<[k := rs]> (held (stack_of g))) (count (stack_of g)) in sspec o (stack_of g) s' ->
  makes k (Some o) m g (set_m_hazards <[k := fst <$> rs]> m) (mkHistory s' (own g)).
Proof.
  intros Hv Hs Hrs s' Hsp.
  assert (Hk : forall j, j <> k -> keeps j m g (set_m_hazards <[k := fst <$> rs]> m) (mkHistory s' (own g))).
  { intros j Hj. split; try done. cbn. by rewrite lookup_insert_ne. }
  assert (Hrefs : forall j, refs s' j = if decide (k = j) then rs else refs (stack_of g) j).
  { intros j. unfold refs. cbn. case_decide as E; [subst; by rewrite lookup_insert_eq|by rewrite lookup_insert_ne]. }
  split; [|done|exact Hk]. destruct Hv as [V1 V2 V3 V4 V5 V6 V7 V8 V9]. constructor; try done.
  - destruct V1 as (q & Hq & Hch). exists q. split; [exact Hq|]. eapply (chain_keeps (S k)), Hch. apply Hk. lia.
  - intros j h a x. cbn. rewrite Hrefs, lookup_insert_is_Some. case_decide as E; [|naive_solver].
    intros Hr. split; [by left|]. by eapply Hrs.
  - intros j hz. cbn. rewrite Hrefs. case_decide as E; [subst|]; [by rewrite lookup_insert_eq; intros [= <-]|].
    rewrite lookup_insert_ne by done. apply V9.
Qed.
Lemma valid_refs m g k h a : valid m g -> (exists hz, m_hazards m !! k = Some hz /\ hz !! h = Some a) ->
  exists x c, refs (stack_of g) k !! h = Some (a, x) /\ node m a x c.
Proof.
  intros Hv (hz & Hk & Hh). rewrite (v_hazards _ _ Hv k hz Hk), lookup_fmap, fmap_Some in Hh. destruct Hh as ([a' x] & Hr & ->).
  destruct (v_refs _ _ Hv _ _ _ _ Hr) as [_ [c Hn]]. by exists x, c.
Qed.
(** A participant without [ItemRef]s comes or goes. *)
Lemma makes_seat k f m g : valid m g -> refs (stack_of g) k = ∅ -> (forall j, j <> k -> f (m_hazards m) !! j = m_hazards m !! j) ->
  (forall hz, f (m_hazards m) !! k = Some hz -> hz = ∅) -> makes k None m g (set_m_hazards f m) g.
Proof.
  intros Hv Hr Hf Hk. assert (Ho : forall j, j <> k -> keeps j m g (set_m_hazards f m) g) by (intros j Hj; split; try done; by apply Hf).
  split; [|done|exact Ho]. destruct Hv as [V1 V2 V3 V4 V5 V6 V7 V8 V9]. constructor; try done.
  - destruct V1 as (q & Hq & Hch). exists q. split; [exact Hq|]. eapply (chain_keeps (S k)), Hch. apply Ho. lia.
  - intros j h a x Hj. cbn. destruct (decide (j = k)) as [->|Hjk]; [by rewrite Hr in Hj|]. rewrite Hf by done. by eapply V8.
  - intros j hz Hj. cbn in Hj. destruct (decide (j = k)) as [->|Hjk]; [rewrite Hr, fmap_empty; by apply Hk|]. rewrite Hf in Hj by done. by apply V9.
Qed.
Lemma stack_joins k m g : valid m g -> m_hazards m !! k = None -> makes k None m g (set_m_hazards <[k := ∅]> m) g.
Proof.
  intros Hv Hk. apply makes_seat; [done| |by intros j Hj; rewrite lookup_insert_ne|by rewrite lookup_insert_eq; intros hz [= <-]].
  apply map_empty. intros h. destruct (refs _ k !! h) as [[a x]|] eqn:E; [|done]. destruct (v_refs _ _ Hv _ _ _ _ E) as [[? ?] _]. congruence.
Qed.
Lemma stack_leaves k m g : valid m g -> m_hazards m !! k = Some ∅ -> makes k None m g (set_m_hazards (delete k) m) g.
Proof.
  intros Hv Hk. apply makes_seat; [done| |by intros j Hj; rewrite lookup_delete_ne|by rewrite lookup_delete_eq].
  by eapply fmap_empty_inv, eq_sym, (v_hazards _ _ Hv).
Qed.

(** *** A collection *)
Lemma collect_chain m g m' xs : valid m g -> acollect m m' -> forall p, chain m g p xs -> (forall a, p = Some a -> reachable m a) ->
  chain m' (mkHistory (stack_of g) ∅) p xs.
Proof.
  intros Hv [Co Cl _ _]. induction xs as [|x xs IH]; intros p; [done|]. intros (a & c & n & -> & Hn & _ & Hl & Hch) Hr. specialize (Hr a eq_refl).
  exists a, c, n. split; [done|]. split; [by apply Co|]. split; [done|]. split.
  - apply Cl. split; [exact Hl|]. intros b o Hb Hc. rewrite <- (v_disj _ _ Hv a b _ o c Hn Hb ltac:(by left) Hc). exact Hr.
  - apply IH; [done|]. intros b ->. destruct Hr as (q & Hq & Hqa). exists q. split; [done|]. eapply rtc_r; [exact Hqa|].
    exists (object_of (new_node x c)), c, 0. split; [exact Hn|]. split; [by left|exact Hl].
Qed.
Lemma stack_collects m g m' : valid m g -> acollect m m' -> exists g', valid m' g' /\ stack_of g' = stack_of g.
Proof.
  intros Hv HC. pose proof HC as [Co Cl Ct Ch]. exists (mkHistory (stack_of g) ∅). split; [|done].
  assert (Hin : forall c, in_object m' c -> in_object m c) by (intros c (a & o & Ho & Hc); apply Co in Ho as [Ho _]; by exists a, o).
  assert (Hcell : forall a o c, m_objs m' !! a = Some o -> c ∈ ao_links o -> forall v, m_links m !! c = Some v -> m_links m' !! c = Some v).
  { intros a o c [Ho Hr]%Co Hc v Hx. apply Cl. split; [done|]. intros b o' Hb Hc'. by rewrite <- (v_disj _ _ Hv a b o o' c Ho Hb Hc Hc'). }
  destruct (v_top _ _ Hv) as (p & Hp & Hch). constructor.
  - exists p. split.
    + apply Cl. split; [exact Hp|]. intros a o Ho Hc. destruct (v_root _ _ Hv). by exists a, o.
    + eapply collect_chain; [done..|]. intros a ->. destruct (chain_leads _ _ _ _ Hch a eq_refl) as (x & c & Hn).
      exists a. split; [|done]. split; [by eexists|]. left. exists top, 0. split; [exact Hp|apply (v_root _ _ Hv)].
  - intros Ht. by apply (v_root _ _ Hv), Hin.
  - intros c (a & o & Ho & Hc). destruct (v_cells _ _ Hv c) as [x Hx]; [by apply Hin; exists a, o|]. exists x. by eapply Hcell.
  - intros a b o o' c [Ho _]%Co [Ho' _]%Co. by eapply (v_disj _ _ Hv).
  - intros a x c Hn'. pose proof Hn' as [Hn Hr]%Co. destruct (v_next _ _ Hv a x c Hn) as (n & Hl & Hld). exists n.
    split; [eapply Hcell; [exact Hn'|by left|exact Hl]|]. intros b ->. destruct (Hld b eq_refl) as (z & d & Hb). exists z, d. apply Co. split; [exact Hb|].
    destruct Hr as (q & Hq & Hqa). exists q. split; [done|]. eapply rtc_r; [exact Hqa|]. exists (object_of (new_node x c)), c, 0. split; [exact Hn|]. split; [by left|exact Hl].
  - intros c k Hc. cbn in Hc. by rewrite lookup_empty in Hc.
  - rewrite Ct. apply (v_types _ _ Hv).
  - intros k h a x Hr. cbn in Hr. destruct (v_refs _ _ Hv k h a x Hr) as [Hs (c & Hn)]. rewrite Ch. split; [done|]. exists c. apply Co. split; [exact Hn|].
    exists a. split; [|done]. split; [by eexists|]. right. destruct Hs as [hz Hk]. exists k, hz, h. split; [done|].
    by rewrite (v_hazards _ _ Hv k hz Hk), lookup_fmap, Hr.
  - rewrite Ch. apply (v_hazards _ _ Hv).
Qed.

(** ** The methods, among the steps of others *)
#[local] Abbreviation post := (answer -> list sop -> memory -> hist -> Prop).
Implicit Types (Q : post) (tr : list sop) (n : nat).
Lemma works_load c next k o p Q tr m g : m_links m !! c = Some (p, 0) -> makes k o m g m g -> ready k (next p) Q (tr ++ option_list o) m g ->
  works k (do_load c next) Q tr m g.
Proof.
  intros Hc Hm Hr. split; [intros _; by eexists|]. intros y m' (v & -> & Hv & ->)%load_inv. pose proof (eq_trans (eq_sym Hc) Hv) as E. injection E as <-.
  exists o, g. by split.
Qed.
Lemma works_store c p next k Q tr m g : valid m g -> own g !! c = Some k -> leads m p ->
  ready k next Q tr (put_link c (p, 0) m) (mkHistory (stack_of g) (<[c := k]> (own g))) -> works k (do_store c p next) Q tr m g.
Proof.
  intros Hv Hc Hp Hr. destruct (v_own _ _ Hv c k Hc) as [Ht Hs]. split; [intros [Hsp _]; split; [done|]; split; [by apply leads_live|done]|].
  intros y m' (-> & _ & ->)%store_inv. rewrite tag_bits_0. exists None, (mkHistory (stack_of g) (<[c := k]> (own g))).
  split; [apply makes_link; [done|done|by left|done]|]. by rewrite app_nil_r.
Qed.
Lemma works_cas p p' next k Q tr m g : valid m g -> leads m p -> leads m p' ->
  (m_links m !! top = Some (p, 0) -> exists o g', makes k o m g (put_link top (p', 0) m) g' /\ ready k (next true) Q (tr ++ option_list o) (put_link top (p', 0) m) g') ->
  (m_links m !! top <> Some (p, 0) -> ready k (next false) Q tr m g) -> works k (do_compare_exchange top p p' next) Q tr m g.
Proof.
  intros Hv Hp Hp' Hok Hno. destruct (v_top _ _ Hv) as (q & Hq & _).
  split; [intros [Hsp _]; split; [by eexists|]; split_and!; [by apply leads_live..|done]|].
  intros y m' (v & Hx & [(-> & -> & ->)|(Hne & -> & ->)])%cas_inv; cbn [fst snd] in *; rewrite tag_bits_0 in *.
  - destruct (Hok Hx) as (o & g' & Hm & Hr). by exists o, g'.
  - exists None, g. split; [by apply makes_same|]. rewrite app_nil_r. apply Hno. intros E. pose proof (eq_trans (eq_sym Hx) E) as E'. by injection E' as ->.
Qed.
Lemma works_deref a x c next k Q tr m g : valid m g -> node m a x c -> ready k (next (node_val x c)) Q tr m g -> works k (do_deref a next) Q tr m g.
Proof.
  intros Hv Hn Hr. split; [intros _; by eexists|]. intros y m' (o & Ho & -> & ->)%deref_inv. rewrite Hn in Ho. injection Ho as <-.
  exists None, g. split; [by apply makes_same|]. by rewrite app_nil_r.
Qed.
(** The top as it was at [n] changes. *)
Definition sees p n m g : Prop := (n <= count (stack_of g))%nat /\ (count (stack_of g) = n -> m_links m !! top = Some (p, 0)).
Lemma sees_keeps k p n m g m' g' : sees p n m g -> keeps k m g m' g' -> sees p n m' g'.
Proof.
  intros [Hn Ht] Hk. pose proof (k_count _ _ _ _ _ Hk). split; [lia|]. intros E. refine (eq_trans (k_top _ _ _ _ _ Hk _) (Ht _)); lia.
Qed.
(** A node its thread has not published. *)
Record private k hz a x c m g : Prop := {
  pv_valid : valid m g;
  pv_node : node m a x c;
  pv_own : own g !! c = Some k;
  pv_hazards : m_hazards m !! k = Some hz
}.
Lemma private_keeps k hz a x c m g m' g' : private k hz a x c m g -> valid m' g' -> keeps k m g m' g' ->
  private k hz a x c m' g' /\ m_links m' !! c = m_links m !! c.
Proof.
  intros [Hv Hn Hc Hh] Hv' Hk. destruct (k_mine _ _ _ _ _ Hk c Hc) as (Hc' & Hl & _). split; [|done].
  split; [done|by eapply node_stays, Hn; apply Hk|done|]. by rewrite (k_hazards _ _ _ _ _ Hk).
Qed.
Lemma push_loop_works k hz x a c n f : forall m g, private k hz a x c m g -> (n <= count (stack_of g))%nat -> (fuel <= count (stack_of g) - n + f)%nat ->
  works k (push_loop f a c) (ends (D := stack_structure) k hz (Push x) n) [] m g.
Proof.
  induction f as [|f IH]; intros m g Hp Hn Hf; cbn [push_loop].
  - split; [right; split_and!; [done|done|cbn; lia]|]. split; [done|apply Hp].
  - destruct (v_top _ _ (pv_valid _ _ _ _ _ _ _ Hp)) as (p & Ht & Hch%chain_leads). eapply works_load; [exact Ht|by apply makes_same, Hp|].
    cbn [option_list app]. intros m1 g1 Hv1 K1. destruct (private_keeps _ _ _ _ _ _ _ _ _ Hp Hv1 K1) as [Hp1 _].
    assert (S1 : sees p (count (stack_of g)) m1 g1) by (by eapply sees_keeps; [split; [reflexivity|done]|]).
    assert (L1 : leads m1 p) by (by eapply leads_stays, Hch; apply K1).
    apply works_store; [done|apply Hp1|done|]. set (m2 := put_link c (p, 0) m1). set (g2 := mkHistory _ _). intros m3 g3 Hv3 K3.
    assert (Hp2 : private k hz a x c m2 g2).
    { destruct Hp1 as [_ Hn1 Hc1 Hh1]. split; [|done|apply lookup_insert_eq|done].
      refine (mk_inv _ _ _ _ _ _ (makes_link k c p m1 g1 _ _ _ _)); [done|exact (valid_top_cell _ _ _ _ _ Hv1 Hn1)|by left|done]. }
    destruct (private_keeps _ _ _ _ _ _ _ _ _ Hp2 Hv3 K3) as [Hp3 El].
    assert (Hc3 : m_links m3 !! c = Some (p, 0)) by exact (eq_trans El (lookup_insert_eq _ _ _)).
    assert (S3 : sees p (count (stack_of g)) m3 g3).
    { eapply sees_keeps, K3. destruct S1 as [S1 S1']. split; [exact S1|]. intros E. unfold m2. cbn. rewrite lookup_insert_ne; [by apply S1'|].
      exact (valid_top_cell _ _ _ _ _ Hv1 (pv_node _ _ _ _ _ _ _ Hp1)). }
    apply works_cas; [done|by eapply leads_stays, L1; etransitivity; [|apply K3]|eapply leads_node, Hp3| |].
    + intros Ht3. exists (Some (EPush x)). eexists. split; [apply (makes_push k a x c p); try done; apply Hp3|].
      intros m5 g5 Hv5 K5. split; [by left|]. split; [done|]. etransitivity; [apply (k_hazards _ _ _ _ _ K5)|apply Hp3].
    + intros Hne m5 g5 Hv5 K5. destruct (private_keeps _ _ _ _ _ _ _ _ _ Hp3 Hv5 K5) as [Hp5 _].
      pose proof (k_count _ _ _ _ _ K5). destruct S3 as [S3 S3']. assert (count (stack_of g3) <> count (stack_of g)) by naive_solver. apply IH; [done|lia..].
Qed.
Lemma works_none next k Q tr m g : valid m g ->
  (forall c, c <> top -> ~ in_object m c -> ready k (next c) Q tr (put_link c (None, 0) m) (mkHistory (stack_of g) (<[c := k]> (own g)))) ->
  works k (do_none next) Q tr m g.
Proof.
  intros Hv Hr. split; [by intros [Hsp _]|]. intros y m' (c & -> & Hc & ->)%none_inv. rewrite tag_bits_0.
  destruct (v_top _ _ Hv) as (p & Ht & _). assert (Hct : c <> top) by (intros ->; pose proof (eq_trans (eq_sym Hc) Ht); done).
  exists None, (mkHistory (stack_of g) (<[c := k]> (own g))). split; [by apply makes_link; [| |right|]|]. rewrite app_nil_r. apply Hr; [done|].
  intros Hin. destruct (v_cells _ _ Hv c Hin) as [? ?]. congruence.
Qed.
Lemma valid_types m g : valid m g -> node_type ∈ m_types m \/ (size (m_types m) < capacity)%nat.
Proof.
  intros Hv. destruct (decide (node_type ∈ m_types m)) as [|Hn]; [by left|right]. destruct (v_types _ _ Hv) as [Ht _].
  rewrite size_union in Ht by set_solver. rewrite size_singleton in Ht. lia.
Qed.
Lemma works_new x c p next k Q tr m g : valid m g -> own g !! c = Some k -> m_links m !! c = Some (p, 0) -> leads m p -> ~ in_object m c ->
  (forall a m', makes k None m g m' g -> node m' a x c -> m_hazards m' = m_hazards m -> ready k (next a) Q tr m' g) ->
  works k (do_new (new_node x c) next) Q tr m g.
Proof.
  intros Hv Hc Hl Hp Hout Hr. split.
  - intros [_ Ha]. split; [apply NoDup_singleton|]. split; [|split; [by eapply valid_types|split; [apply (v_types _ _ Hv)|done]]].
    intros d ->%list_elem_of_singleton. by split; [eexists|].
  - intros y m' (a & -> & Ha & ->)%new_inv. destruct (makes_new k a x c p m g Hv Hc Hl Hp Hout Ha) as [Hm Hn].
    exists None, g. split; [exact Hm|]. rewrite app_nil_r. by eapply Hr.
Qed.
Lemma push_works k hz x n m g : valid m g -> m_hazards m !! k = Some hz -> (n <= count (stack_of g))%nat ->
  works k (push fuel x) (ends (D := stack_structure) k hz (Push x) n) [] m g.
Proof.
  intros Hv Hh Hle. apply works_none; [done|]. intros c Hct Hout. set (m1 := put_link _ _ _). set (g1 := mkHistory _ _). intros m2 g2 Hv2 K2.
  destruct (k_mine _ _ _ _ _ K2 c (lookup_insert_eq _ _ _)) as (Hc2 & El & Hin). eapply (works_new x c None); try done; [exact (eq_trans El (lookup_insert_eq _ _ _))|by intros Hi; apply Hout, Hin|].
  intros a m3 Hm3 Hn3 Eh3 m4 g4 Hv4 K4. pose proof (k_count _ _ _ _ _ K2). pose proof (k_count _ _ _ _ _ K4). cbn in *.
  assert (Hp3 : private k hz a x c m3 g2) by (split; [apply Hm3|done|done|rewrite Eh3, (k_hazards _ _ _ _ _ K2); exact Hh]).
  apply push_loop_works; [by eapply private_keeps|lia|lia].
Qed.
(** A node that is, or has been, on the stack: its link is fixed. *)
Definition published a x c p m g : Prop := node m a x c /\ own g !! c = None /\ m_links m !! c = Some (p, 0) /\ leads m p.
Lemma published_keeps k a x c p m g m' g' : published a x c p m g -> keeps k m g m' g' -> published a x c p m' g'.
Proof.
  intros (Hn & Hc & Hl & Hp) Hk. destruct (k_shared _ _ _ _ _ Hk a x c Hn Hc) as [Hc' El]. pose proof (k_objs _ _ _ _ _ Hk) as Hs.
  split; [by eapply node_stays|]. split; [done|]. split; [exact (eq_trans El Hl)|by eapply leads_stays].
Qed.
Lemma chain_published m g a xs : chain m g (Some a) xs -> exists x c p, published a x c p m g.
Proof.
  destruct xs as [|x xs]; [done|]. intros (b & c & n & [= <-] & Hn & Hc & Hl & Hch). exists x, c, n. split_and!; [done..|by eapply chain_leads].
Qed.
Lemma item_ref_works k hz a x c n tr m g : valid m g -> m_hazards m !! k = Some hz -> node m a x c -> tr = [EPop (Some x)] ->
  works k (item_ref_new a) (ends (D := stack_structure) k hz Pop n) tr m g.
Proof.
  intros Hv Hh Hn ->. split; [intros _; by eexists|]. intros y m' (h & hz' & -> & Hh' & Hnone & ->)%protect_inv.
  rewrite Hh in Hh'. injection Hh' as <-. pose proof (v_hazards _ _ Hv k hz Hh) as Ehz. set (rs := <[h := (a, x)]> (refs (stack_of g) k)).
  replace (<[h := a]> hz) with (fst <$> rs) by (unfold rs; by rewrite fmap_insert, <- Ehz).
  exists (Some (ERef k h a x)). eexists. split; [apply (makes_refs k _ rs); [done|by eexists| |]|].
  - intros j b z [[<- [= <- <-]]|[_ Hj]]%lookup_insert_Some; [by exists c|]. by apply (v_refs _ _ Hv k j).
  - constructor. rewrite Ehz, lookup_fmap, fmap_None in Hnone. exact Hnone.
  - intros m1 g1 Hv1 K1. split; [right; left; by exists a, h, x|]. split; [right; right; by exists a, h|].
    rewrite (k_hazards _ _ _ _ _ K1). cbn. rewrite lookup_insert_eq. unfold rs. by rewrite fmap_insert, <- Ehz.
Qed.
Lemma pop_works k hz n f : forall m g, valid m g -> m_hazards m !! k = Some hz -> (n <= count (stack_of g))%nat -> (fuel <= count (stack_of g) - n + f)%nat ->
  works k (pop f) (ends (D := stack_structure) k hz Pop n) [] m g.
Proof.
  induction f as [|f IH]; intros m g Hv Hh Hn Hf; cbn [pop].
  - split; [right; right; split_and!; [done|done|cbn; lia]|]. split; [by right; left|done].
  - destruct (v_top _ _ Hv) as ([a|] & Ht & Hch).
    + destruct (chain_published _ _ _ _ Hch) as (x & c & p & Hp). eapply works_load; [exact Ht|by apply makes_same|].
      cbn [option_list app]. intros m1 g1 Hv1 K1. pose proof (published_keeps _ _ _ _ _ _ _ _ _ Hp K1) as Hp1.
      assert (S1 : sees (Some a) (count (stack_of g)) m1 g1) by (by eapply sees_keeps; [split; [reflexivity|done]|]).
      eapply works_deref; [done|apply Hp1|]. rewrite node_next_val. intros m2 g2 Hv2 K2. pose proof (published_keeps _ _ _ _ _ _ _ _ _ Hp1 K2) as Hp2.
      eapply works_load; [apply Hp2|by apply makes_same|]. cbn [option_list app]. intros m3 g3 Hv3 K3.
      pose proof (published_keeps _ _ _ _ _ _ _ _ _ Hp2 K3) as Hp3. pose proof (sees_keeps _ _ _ _ _ _ _ (sees_keeps _ _ _ _ _ _ _ S1 K2) K3) as [S3 S3'].
      assert (Hh3 : m_hazards m3 !! k = Some hz) by (by rewrite (k_hazards _ _ _ _ _ K3), (k_hazards _ _ _ _ _ K2), (k_hazards _ _ _ _ _ K1)).
      apply works_cas; [done|eapply leads_node, Hp3|apply Hp3| |].
      * intros Ht3. exists (Some (EPop (Some x))). eexists. split; [by apply (makes_pop k a x c p); try done; apply Hp3|].
        intros m5 g5 Hv5 K5. eapply item_ref_works; [done|by rewrite (k_hazards _ _ _ _ _ K5)|eapply node_stays, Hp3; apply K5|done].
      * intros Hne m5 g5 Hv5 K5. pose proof (k_count _ _ _ _ _ K5). assert (count (stack_of g3) <> count (stack_of g)) by naive_solver.
        apply IH; [done|by rewrite (k_hazards _ _ _ _ _ K5)|lia|lia].
    + eapply (works_load _ _ _ (Some (EPop None))); [exact Ht|apply makes_read; [done|]|].
      * destruct g as [[xs hs w] ow]. destruct xs as [|x xs]; [constructor|]. by destruct Hch as (? & ? & ? & ? & _).
      * intros m1 g1 Hv1 K1. split; [by left|]. split; [by left|]. cbn. by rewrite (k_hazards _ _ _ _ _ K1).
Qed.
Lemma is_empty_works k hz n m g : valid m g -> m_hazards m !! k = Some hz ->
  works k is_empty (ends (D := stack_structure) k hz IsEmpty n) [] m g.
Proof.
  intros Hv Hh. destruct (v_top _ _ Hv) as (p & Ht & Hch). eapply (works_load _ _ _ (Some (EEmpty (bool_decide (items (stack_of g) = []))))); [exact Ht|by apply makes_read; [|constructor]|].
  intros m1 g1 Hv1 K1. split; [|split; [done|by rewrite (k_hazards _ _ _ _ _ K1)]]. eexists. split; [done|]. cbn. do 2 f_equal. apply bool_decide_ext.
  destruct (items (stack_of g)) as [|x xs]; [by rewrite Hch|]. destruct Hch as (a & ? & ? & -> & _). done.
Qed.
Lemma borrow_works k hz a hp n m g : valid m g -> m_hazards m !! k = Some hz -> hp_local hp = k -> hz !! hp_hid hp = Some a ->
  works k (borrow a) (ends (D := stack_structure) k hz (Borrow a hp) n) [] m g.
Proof.
  intros Hv Hh Ek Ha. destruct (valid_refs m g k (hp_hid hp) a Hv) as (x & c & Hr & Hn); [by exists hz|].
  split; [intros _; by eexists|]. intros y m' (o & Ho & -> & ->)%deref_inv. rewrite Hn in Ho. injection Ho as <-.
  exists (Some (EBorrow k (hp_hid hp) a x)), g. split; [by apply makes_read; [|constructor]|]. intros m1 g1 Hv1 K1.
  split; [eexists; split; [done|]; cbn; by rewrite node_item_val|]. split; [done|]. by rewrite (k_hazards _ _ _ _ _ K1).
Qed.
Lemma item_ref_drop_works k hz hp n m g : valid m g -> m_hazards m !! k = Some hz -> hp_local hp = k -> is_Some (hz !! hp_hid hp) ->
  works k (item_ref_drop hp) (ends (D := stack_structure) k hz (Drop_ref hp) n) [] m g.
Proof.
  intros Hv Hh Ek Ha. split; [intros _; split; [done|]; by exists hz|]. intros y m' (hz' & Hh' & -> & ->)%release_inv.
  rewrite Hh in Hh'. injection Hh' as <-. pose proof (v_hazards _ _ Hv k hz Hh) as Ehz.
  replace (delete (hp_hid hp) hz) with (fst <$> delete (hp_hid hp) (refs (stack_of g) k)) by (by rewrite fmap_delete, <- Ehz).
  exists (Some (EDrop k (hp_hid hp))). eexists. split; [apply makes_refs; [done|by eexists| |constructor]|].
  - intros h a x [_ Hr]%lookup_delete_Some. by apply (v_refs _ _ Hv k h).
  - intros m1 g1 Hv1 K1. split; [done|]. split; [done|]. rewrite (k_hazards _ _ _ _ _ K1). cbn. rewrite lookup_insert_eq. by rewrite fmap_delete, <- Ehz.
Qed.
#[local] Instance stack_correct : Correct stack_structure stack_proof.
Proof.
  split; [exact keeps_refl|exact keeps_trans|by intros k m g m' g' ?%k_hazards|exact stack_joins|exact stack_leaves|exact stack_collects|].
  intros k hz c m g Hv Hh Hfit m1 g1 Hv1 K1. pose proof (k_count _ _ _ _ _ K1). rewrite <- (k_hazards _ _ _ _ _ K1) in Hh.
  destruct c as [x| | |a hp|hp]; cbn; [by apply push_works|by apply pop_works; [..|lia]|by apply is_empty_works|by apply borrow_works; [..|apply Hfit|apply Hfit]|].
  by apply item_ref_drop_works; [..|apply Hfit|apply Hfit].
Qed.

(** ** The stack on the crate *)
(** [Stack::new] has made the link [top], outside of the objects; there are no nodes yet, and the
    registry has room for their type, without an overflow. *)
Record new_stack m : Prop := {
  ns_top : m_links m !! top = Some (None, 0);
  ns_root : ~ in_object m top;
  ns_nodes : forall a o, m_objs m !! a = Some o -> ao_type o <> node_type;
  ns_types : (size (m_types m ∪ {[node_type]}) <= capacity)%nat /\ hash_fits node_type
}.
Definition empty_stack : stack := mkStack [] ∅ 0.
Lemma new_valid l W t ths (s : gstate V) th : running l W t ths s -> starts (D := stack_structure) th (aconf_of ths s) ->
  new_stack (visible (parts ths) s) -> valid (visible (parts ths) s) (mkHistory empty_stack ∅).
Proof.
  intros H Hst [Ht Hr Hn Hty]. pose proof (ar_heap _ _ _ _ _ (op_rest _ _ _ _ _ _ (ru_opened _ _ _ _ _ H))) as Hh.
  assert (Hnone : forall a x c, ~ node (visible (parts ths) s) a x c) by (intros a x c Hx; by apply (Hn a _ Hx)).
  assert (Hrefs : forall k, refs empty_stack k = ∅) by (intros k; unfold refs; cbn; by rewrite lookup_empty). constructor.
  - by exists None.
  - exact Hr.
  - intros c Hc%owned_visible. cbn. rewrite lookup_fmap, fmap_is_Some. by apply (hk_link _ _ _ _ _ Hh).
  - intros a b o o' c (o1 & Ho & ->)%visible_object (o2 & Ho' & ->)%visible_object. by apply (hk_disj _ _ _ _ _ Hh).
  - intros a x c Hx. by apply Hnone in Hx.
  - intros c k Hc. cbn in Hc. by rewrite lookup_empty in Hc.
  - exact Hty.
  - intros k h a x Hx. cbn in Hx. by rewrite Hrefs, lookup_empty in Hx.
  - intros k hz Hk. cbn [stack_of]. rewrite Hrefs, fmap_empty. pose proof Hk as Hk'. rewrite slots_map_lookup in Hk'. case_decide as Hp; [|done].
    apply elem_of_parts in Hp as (i & o & Hi). specialize (Hst i). unfold aconf_of in Hst. cbn [fst snd] in Hst. rewrite lookup_fmap, Hi in Hst.
    destruct (th !! i) as [[sc|sc|p next]|], o as [[g q]|]; try done. destruct Hst as [Hz _]. pose proof (eq_trans (eq_sym Hk) Hz) as E. by injection E.
Qed.

(** C2. Threads that run any scripts of pushes, pops and tests for emptiness, keep the
    [ItemRef]s their pops return for as long as they like, borrow from them and drop them, one
    operation of the crate at a time in any schedule, with collections whenever no section is
    open: the run returns, without a panic and without an undefined step, and its history is a
    linearization of a list: every call takes effect at one moment between its beginning and its
    end, a pop gives the item at the head, a reference keeps giving the item its pop took
    whatever happened since, and a call that gives up after [fuel] rounds has lost each of them
    to another thread's success. *)
Theorem stack_on_crate l f W t cs th ths (s : gstate V) : no_retry -> running l W t ths s ->
  starts (D := stack_structure) th (aconf_of ths s) -> new_stack (visible (parts ths) s) ->
  ample (length cs) (visible (parts ths) s) -> roomy l f (drive cs th) ths s = true ->
  exists h ths' s' X, run (play (S (S f)) l (drive cs th) ths) s = Ok ((h, ths'), s') /\
    linear h (nothing_pending (aconf_of ths s), empty_stack) X.
Proof.
  intros Hnr H Hst Hns Ha Hr.
  destruct (yields_scripts (P := stack_proof) l f W t cs th ths s (mkHistory empty_stack ∅) Hnr H Hst (new_valid l W t ths s th H Hst Hns) Ha Hr) as ([h ths'] & s' & E & X & HX).
  by exists h, ths', s', X.
Qed.
End stack.
