(* ===== verification/Managed.v ===== *)
(** * Managed memory as its clients see it

    What the data structures of [examples/] use of the crate: managed nodes, links that
    hold an optional node and a tag, and on every link the atomic operations of
    [AtomicSharedOption].  A link is an atomic register here; that the operations of the
    crate act on a link this way is proved in [Barriers] (sequentially).  A node is never
    reclaimed while a thread can reach it, so addresses are never reused and a guard or a
    handle leaves no trace in this state.

    [m_owner] is a history variable: the thread that has created a node and has not yet
    made it reachable for others. *)
From S2P Require Import Prelude Prog.
#[local] Open Scope Z_scope.
#[local] Open Scope prog_scope.

(** A node, or [None], with a tag. *)
Abbreviation link := (option Z * Z)%type.
(** A link of a node, by address and position; address [0] is the data structure itself. *)
Abbreviation loc := (Z * nat)%type.

Section managed.
Context {D : Type}.
Record mem := mkMem {
  m_data : gmap Z D;  (** the immutable part of each node *)
  m_links : gmap loc link;
  m_owner : gmap Z nat
}.
#[local] Abbreviation M := (prog mem).
Implicit Types (m : mem) (a : Z) (l : loc) (p : link).

Definition set_link l p m : mem := mkMem (m_data m) (<[l := p]> (m_links m)) (m_owner m).
(** The target of a link becomes reachable by all. *)
Definition publish (p : option Z) m : mem :=
  match p with Some a => mkMem (m_data m) (m_links m) (delete a (m_owner m)) | None => m end.
Fixpoint add_links a (i : nat) (ps : list link) (L : gmap loc link) : gmap loc link :=
  match ps with [] => L | p :: ps' => <[(a, i) := p]> (add_links a (S i) ps' L) end.
Definition add_node (h : nat) a (d : D) (ps : list link) m : mem :=
  mkMem (<[a := d]> (m_data m)) (add_links a 0 ps (m_links m)) (<[a := h]> (m_owner m)).
Definition fresh_addr m : Z := fresh ({[0]} ∪ dom (m_data m)).

(** [load_with_tag] and [load] *)
Definition c_load_with_tag l : M link :=
  atomic (fun m => match m_links m !! l with
                   | Some p => Ok (p, m)
                   | None => Stopped (UB "dangling link")
                   end).
Definition c_load l : M (option Z) := p <- c_load_with_tag l ; Ret p.1.
(** [store]: the tag becomes zero. *)
Definition c_store l (x : option Z) : M unit := modify (set_link l (x, 0)).
(** [compare_exchange_with_tag] *)
Definition c_cas_with_tag l (current new : link) : M (link + link) :=
  atomic (fun m => match m_links m !! l with
                   | Some p => if decide (p = current) then Ok (inl p, publish new.1 (set_link l new m))
                               else Ok (inr p, m)
                   | None => Stopped (UB "dangling link")
                   end).
Definition c_cas l (current new : option Z) : M (link + link) := c_cas_with_tag l (current, 0) (new, 0).
(** [fetch_tag_or] *)
Definition c_fetch_or l (t : Z) : M link :=
  atomic (fun m => match m_links m !! l with
                   | Some p => Ok (p, set_link l (p.1, Z.lor p.2 t) m)
                   | None => Stopped (UB "dangling link")
                   end).
(** [Local::new] of a node with these links, by thread [h]. *)
Definition c_new (h : nat) (d : D) (ps : list link) : M Z :=
  atomic (fun m => let a := fresh_addr m in Ok (a, add_node h a d ps m)).
(** [Local::new] of a node its creator does not write to again: it needs no owner. *)
Definition c_new_final (h : nat) (d : D) (ps : list link) : M Z :=
  atomic (fun m => let a := fresh_addr m in Ok (a, publish (Some a) (add_node h a d ps m))).
(** A write through an [UnsafeCell] of a node. *)
Definition c_set_data a (d : D) : M unit :=
  atomic (fun m => match m_data m !! a with
                   | Some _ => Ok (tt, mkMem (<[a := d]> (m_data m)) (m_links m) (m_owner m))
                   | None => Stopped (UB "dangling node")
                   end).
(** Dereferencing a [Local]. *)
Definition c_deref a : M D :=
  atomic (fun m => match m_data m !! a with Some d => Ok (d, m) | None => Stopped (UB "dangling node") end).

(** ** What a thread may assume of the others

    Nodes stay, with their data; a node that is not owned stays unowned, and the links of
    a node that the thread owns stay as they are. *)
Record grows (h : nat) m m' : Prop := {
  gr_data : forall a d, m_data m !! a = Some d -> m_data m' !! a = Some d;
  gr_shared : forall a, is_Some (m_data m !! a) -> m_owner m !! a = None -> m_owner m' !! a = None;
  gr_mine : forall a, m_owner m !! a = Some h -> m_owner m' !! a = Some h /\
    forall (i : nat), m_links m' !! (a, i) = m_links m !! (a, i)
}.
#[global] Instance grows_preorder h : PreOrder (grows h).
Proof.
  split; [by split; auto|]. intros m1 m2 m3 [A1 B1 C1] [A2 B2 C2]. split; [auto| |].
  - intros a [d Hd] Ho. apply B2; [|by apply B1]. exists d. by apply A1.
  - intros a Ho. destruct (C1 a Ho) as [O1 L1]. destruct (C2 a O1) as [O2 L2]. split; [done|].
    intros i. by rewrite L2.
Qed.

Lemma fresh_addr_ok m : fresh_addr m <> 0 /\ m_data m !! fresh_addr m = None.
Proof.
  pose proof (is_fresh ({[0]} ∪ dom (m_data m))) as H. fold (fresh_addr m) in H.
  rewrite not_elem_of_union, not_elem_of_singleton, not_elem_of_dom in H. exact H.
Qed.
Lemma add_links_old a i ps L b j : b <> a -> add_links a i ps L !! (b, j) = L !! (b, j).
Proof.
  intros Hne. revert i. induction ps as [|p ps IH]; intros i; [done|]. cbn.
  rewrite lookup_insert_ne; [apply IH|congruence].
Qed.
Lemma add_links_new a i ps L k p : ps !! k = Some p -> add_links a i ps L !! (a, (i + k)%nat) = Some p.
Proof.
  revert i k. induction ps as [|q ps IH]; intros i [|k]; [done|done| |]; cbn.
  - intros [= ->]. rewrite Nat.add_0_r. apply lookup_insert_eq.
  - intros Hk. rewrite lookup_insert_ne by (intros [=]; lia). rewrite <- (IH (S i) k Hk). f_equal. f_equal. lia.
Qed.

(** Addresses are not null, and an owned node exists. *)
Record mem_ok m : Prop := {
  mo_null : m_data m !! 0 = None;
  mo_owner : forall a h, m_owner m !! a = Some h -> is_Some (m_data m !! a)
}.
Lemma mem_ok_root m h : mem_ok m -> m_owner m !! 0 = Some h -> False.
Proof. intros H Ho. destruct (mo_owner _ H _ _ Ho) as [d Hd]. rewrite (mo_null _ H) in Hd. done. Qed.
Lemma mem_ok_set m l p : mem_ok m -> mem_ok (set_link l p m).
Proof. by intros []. Qed.
Lemma mem_ok_publish m x : mem_ok m -> mem_ok (publish x m).
Proof.
  intros [H1 H2]. destruct x as [b|]; [|done]. split; [done|]. cbn. intros a h Ho.
  apply lookup_delete_Some in Ho as [_ Ho]. by eapply H2.
Qed.
Lemma mem_ok_new m h d ps : mem_ok m -> mem_ok (add_node h (fresh_addr m) d ps m).
Proof.
  destruct (fresh_addr_ok m) as [Hn Hf]. intros [H1 H2]. split; cbn.
  - by rewrite lookup_insert_ne.
  - intros a h' Ho. destruct (decide (a = fresh_addr m)) as [->|Hne]; [rewrite lookup_insert_eq; eauto|].
    rewrite lookup_insert_ne in Ho by done. rewrite lookup_insert_ne by done. by eapply H2.
Qed.

(** The steps of one thread, seen by another. *)
Lemma grows_new h h' d ps m : mem_ok m -> h <> h' -> grows h m (add_node h' (fresh_addr m) d ps m).
Proof.
  destruct (fresh_addr_ok m) as [_ Hf]. intros Hok Hne. split; cbn.
  - intros a x Hx. rewrite lookup_insert_ne; [done|congruence].
  - intros a [x Hx] Ho. rewrite lookup_insert_ne; [done|congruence].
  - intros a Ho. destruct (mo_owner _ Hok _ _ Ho) as [x Hx]. assert (fresh_addr m <> a) by congruence.
    rewrite lookup_insert_ne by done. split; [done|]. intros i. by apply add_links_old.
Qed.
Lemma grows_set h m a i p : m_owner m !! a <> Some h -> grows h m (set_link (a, i) p m).
Proof.
  intros Hne. split; [done|done|]. intros b Ho. split; [done|]. intros j. cbn.
  apply lookup_insert_ne. congruence.
Qed.
Lemma grows_publish h m x : (forall a, x = Some a -> m_owner m !! a <> Some h) -> grows h m (publish x m).
Proof.
  intros Hx. destruct x as [b|]; [|reflexivity]. specialize (Hx b eq_refl). split; [done| |]; cbn.
  - intros a _ Ho. apply lookup_delete_None. by right.
  - intros a Ho. split; [|done]. rewrite lookup_delete_ne; [done|congruence].
Qed.

(** ** Allocation, for a thread alone *)
Record extends m m' : Prop := {
  ex_ok : mem_ok m';
  ex_data : forall a d, m_data m !! a = Some d -> m_data m' !! a = Some d;
  ex_links : forall a i, a = 0 \/ is_Some (m_data m !! a) -> m_links m' !! (a, i) = m_links m !! (a, i)
}.
Lemma extends_trans m1 m2 m3 : extends m1 m2 -> extends m2 m3 -> extends m1 m3.
Proof.
  intros [O1 D1 L1] [O2 D2 L2]. split; [done|auto|]. intros a i H. rewrite L2; [by apply L1|].
  destruct H as [->|[d Hd]]; [by left|right]. exists d. auto.
Qed.
Lemma extends_fresh m m' a : extends m m' -> m_data m' !! a = None -> m_data m !! a = None.
Proof. intros [_ Hd _] H. destruct (m_data m !! a) as [d|] eqn:E; [|done]. apply Hd in E. congruence. Qed.
Lemma extends_node m m' a d : extends m m' -> m_data m !! a = Some d ->
  m_data m' !! a = Some d /\ forall i p, m_links m !! (a, i) = Some p -> m_links m' !! (a, i) = Some p.
Proof. intros [_ Hd Hl] H. split; [auto|]. intros i p Hp. rewrite Hl; [done|]. right. by eexists. Qed.
Lemma run_alloc h d ps m : mem_ok m -> exists a m', run (c_new_final h d ps) m = Ok (a, m') /\ extends m m' /\
  m_data m !! a = None /\ a <> 0 /\ m_data m' !! a = Some d /\ (forall i p, ps !! i = Some p -> m_links m' !! (a, i) = Some p) /\
  size (m_data m') = S (size (m_data m)).
Proof.
  intros Hm. destruct (fresh_addr_ok m) as [Hn Hf]. eexists _, _. split; [reflexivity|]. split_and!; [|done|done|..].
  - split; [by apply mem_ok_publish, mem_ok_new| |]; cbn.
    + intros a d' Ha. rewrite lookup_insert_ne; [done|congruence].
    + intros a i [->|[d' Ha]]; apply add_links_old; congruence.
  - cbn. apply lookup_insert_eq.
  - intros i p Hp. apply (add_links_new _ 0 ps _ i p Hp).
  - cbn. by rewrite map_size_insert, Hf.
Qed.
End managed.
Arguments mem D : clear implicits.
