(* ===== verification/Stack.v ===== *)
(** * Treiber's stack ([examples/stack.rs])

    The stack over the managed memory of [Managed], and its linearizability in every
    interleaving. *)
From S2P Require Import Prelude Prog Linear Managed.
#[local] Open Scope Z_scope.
#[local] Open Scope prog_scope.

Section stack.
Context {T : Type}.
#[local] Abbreviation M := (prog (mem T)).
Implicit Types (m : mem T) (x : T) (xs : list T).

(** [Stack { top }]: the root link; [Node { item, next }]: an item and link 0. *)
Definition top : loc := (0, 0%nat).
Definition next (a : Z) : loc := (a, 0%nat).
Definition new : mem T := mkMem ∅ {[top := (None, 0)]} ∅.

(** [ItemRef]: a protected node. *)
Definition item_ref_new (node : Z) (handle : nat) : Z := node.
Definition borrow (node : Z) : M T := c_deref node.

Definition pop (fuel : nat) (handle : nat) : M (option Z) :=
  loop fuel (fun _ : unit =>
    old <- c_load top ;
    match old with
    | None => Ret (inr None)
    | Some node =>
        new <- c_load (next node) ;
        r <- c_cas top old new ;
        match r with
        | inl _ => node <- unwrap old "called `Option::unwrap()` on a `None` value" ;
                   Ret (inr (Some (item_ref_new node handle)))
        | inr _ => Ret (inl tt)
        end
    end) tt.
Definition push (fuel : nat) (item : T) (handle : nat) : M unit :=
  new <- c_new handle item [(None, 0)] ;
  loop fuel (fun _ : unit =>
    old <- c_load top ;
    c_store (next new) old ;;
    r <- c_cas top old (Some new) ;
    match r with inl _ => Ret (inr tt) | inr _ => Ret (inl tt) end) tt.
Definition is_empty : M bool := old <- c_load top ; Ret (bool_decide (old = None)).

(** ** The contents *)
(** The nodes from [p] on, with their items; they are all reachable by every thread. *)
Fixpoint chain m (p : option Z) (xs : list T) : Prop :=
  match xs with
  | [] => p = None
  | x :: xs' => exists a n, p = Some a /\ m_data m !! a = Some x /\ m_owner m !! a = None /\
      m_links m !! next a = Some (n, 0) /\ chain m n xs'
  end.
Definition holds m xs : Prop := mem_ok m /\ exists p, m_links m !! top = Some (p, 0) /\ chain m p xs.
Inductive op := EPush (x : T) | EPop (r : option T) | EEmpty (b : bool).
Inductive spec : op -> list T -> list T -> Prop :=
  | spec_push x xs : spec (EPush x) xs (x :: xs)
  | spec_pop x xs : spec (EPop (Some x)) (x :: xs) xs
  | spec_pop_none : spec (EPop None) [] []
  | spec_empty xs : spec (EEmpty (bool_decide (xs = []))) xs xs.

(** Beside [grows]: the link of a node that is not owned never changes. *)
Record stays (h : nat) m m' : Prop := {
  st_grows : grows h m m';
  st_next : forall a, is_Some (m_data m !! a) -> m_owner m !! a = None -> m_links m' !! next a = m_links m !! next a
}.
#[local] Instance stays_preorder h : PreOrder (stays h).
Proof.
  split; [by split|]. intros m1 m2 m3 [G1 L1] [G2 L2]. split; [by etransitivity|]. intros a [x Hx] Ho.
  rewrite L2; [by apply L1; eauto| |]; [exists x; by apply (gr_data _ _ _ G1)|apply (gr_shared _ _ _ G1); eauto].
Qed.
Definition inv m : Prop := exists xs, holds m xs.
Definition rely (h : nat) m m' : Prop := (inv m -> inv m') /\ (inv m -> stays h m m').
Definition guar (h : nat) (o : option op) m m' : Prop :=
  (forall xs, holds m xs -> match o with
     | None => holds m' xs
     | Some e => exists ys, spec e xs ys /\ holds m' ys
     end) /\
  (inv m -> forall k, k <> h -> stays k m m').
#[local] Instance rely_preorder h : PreOrder (rely h).
Proof.
  split; [split; [done|reflexivity]|]. intros m1 m2 m3 [I1 S1] [I2 S2]. split; [auto|].
  intros H. etransitivity; eauto.
Qed.
Lemma guar_rely_stack i j o m m' : i <> j -> guar j o m m' -> rely i m m'.
Proof.
  intros Hne [Hg Hs]. split; [|intros Hi; by apply Hs].
  intros [xs Hx]. specialize (Hg xs Hx). destruct o as [e|]; [|by exists xs]. destruct Hg as (ys & _ & Hy). by exists ys.
Qed.
Lemma guar_refl_stack h m : guar h None m m.
Proof. split; [done|reflexivity]. Qed.

Lemma chain_stays h m m' p xs : stays h m m' -> chain m p xs -> chain m' p xs.
Proof.
  intros Hs. revert p. induction xs as [|x xs IH]; intros p; [done|]. intros (a & n & -> & Hd & Ho & Hl & Hc).
  exists a, n. split_and!; [done|by apply (gr_data _ _ _ (st_grows _ _ _ Hs))| | |by apply IH].
  - apply (gr_shared _ _ _ (st_grows _ _ _ Hs)); eauto.
  - rewrite (st_next _ _ _ Hs); eauto.
Qed.

(** *** The steps *)
Lemma guar_new_stack h x m : guar h None m (add_node h (fresh_addr m) x [(None, 0)] m).
Proof.
  destruct (fresh_addr_ok m) as [Hn Hf]. split.
  - intros xs (Hok & p & Hp & Hc). split; [by apply mem_ok_new|]. exists p. split.
    + cbn. rewrite lookup_insert_ne; [done|]. intros [=]. by apply Hn.
    + clear Hp. revert p Hc. induction xs as [|y ys IH]; intros p; [done|]. intros (a & n & -> & Hd & Ho & Hl & Hc).
      assert (fresh_addr m <> a) by congruence. exists a, n. cbn.
      rewrite !lookup_insert_ne by (done || intros [=]; done). split_and!; try done. by apply IH.
  - intros (xs & Hok & _) k Hk. split; [by apply grows_new|]. intros a [y Hy] Ho. cbn. rewrite lookup_insert_ne; [done|].
    intros [=]. congruence.
Qed.
Lemma guar_store_stack h a p m : m_owner m !! a = Some h -> guar h None m (set_link (next a) (p, 0) m).
Proof.
  intros Ho. split.
  - intros xs (Hok & q & Hq & Hc). split; [by apply mem_ok_set|]. exists q. split.
    + cbn. rewrite lookup_insert_ne; [done|]. intros [= ->]. by eapply mem_ok_root.
    + clear Hq. revert q Hc. induction xs as [|y ys IH]; intros q; [done|]. intros (b & n & -> & Hd & Ho' & Hl & Hc).
      exists b, n. cbn. rewrite lookup_insert_ne by (intros [= ->]; congruence). split_and!; try done. by apply IH.
  - intros _ k Hk. split; [apply grows_set; congruence|]. intros b _ Hb. cbn. apply lookup_insert_ne. intros [= ->]. congruence.
Qed.
(** A write to the top link moves nothing else. *)
Lemma stays_top k p m : inv m -> stays k m (set_link top p m).
Proof.
  intros (xs & Hok & _). split.
  - apply grows_set. intros Ho. by eapply mem_ok_root.
  - intros a [x Hx] _. cbn. apply lookup_insert_ne. intros [= <-]. by rewrite (mo_null _ Hok) in Hx.
Qed.
Lemma stays_publish k (p : option Z) m : (forall a, p = Some a -> m_owner m !! a <> Some k) -> stays k m (publish p m).
Proof. intros H. split; [by apply grows_publish|]. intros a _ _. by destruct p. Qed.
Lemma publish_shared p m xs : chain m p xs -> publish p m = m.
Proof.
  destruct xs as [|x xs]; [by intros ->|]. intros (a & n & -> & _ & Ho & _). unfold publish. destruct m. f_equal.
  by apply delete_id.
Qed.
Lemma guar_pop h a n m : m_links m !! top = Some (Some a, 0) -> m_links m !! next a = Some (n, 0) ->
  inv m -> exists x, m_data m !! a = Some x /\ guar h (Some (EPop (Some x))) m (publish n (set_link top (n, 0) m)).
Proof.
  intros Ht Hn (xs & Hok & p & Hp & Hc). rewrite Ht in Hp. injection Hp as <-.
  destruct xs as [|x xs]; [done|]. destruct Hc as (b & q & [= <-] & Hd & Ho & Hl & Hc).
  rewrite Hn in Hl. injection Hl as <-. exists x. split; [done|].
  assert (Hi : inv m) by (exists (x :: xs); split; [done|]; exists (Some a); split; [done|]; by exists a, n).
  assert (Hc' : chain (set_link top (n, 0) m) n xs) by (by eapply (chain_stays 0), Hc; apply stays_top).
  rewrite (publish_shared n _ xs Hc'). split.
  - intros ys (_ & p & Hp & Hy). rewrite Ht in Hp. injection Hp as <-.
    destruct ys as [|y ys]; [done|]. destruct Hy as (b & q & [= <-] & Hdy & _ & Hl & Hy).
    rewrite Hd in Hdy. injection Hdy as <-. rewrite Hn in Hl. injection Hl as <-.
    exists ys. split; [constructor|]. split; [by apply mem_ok_set|]. exists n. split; [by cbn; rewrite lookup_insert_eq|].
    by eapply (chain_stays 0), Hy; apply stays_top.
  - intros _ k _. by apply stays_top.
Qed.
Lemma guar_pop_none h m : m_links m !! top = Some (None, 0) -> guar h (Some (EPop None)) m m.
Proof.
  intros Ht. split; [|reflexivity]. intros xs (Hok & p & Hp & Hc). rewrite Ht in Hp. injection Hp as <-.
  destruct xs as [|x xs]; [|by destruct Hc as (? & ? & ? & _)]. exists []. split; [constructor|].
  split; [done|]. by exists None.
Qed.
Lemma guar_push h a x p m : m_owner m !! a = Some h -> m_data m !! a = Some x -> m_links m !! next a = Some (p, 0) ->
  m_links m !! top = Some (p, 0) -> guar h (Some (EPush x)) m (publish (Some a) (set_link top (Some a, 0) m)).
Proof.
  intros Ho Hd Hl Ht.
  assert (Hs : inv m -> forall k, k <> h -> stays k m (publish (Some a) (set_link top (Some a, 0) m))).
  { intros Hi k Hk. etransitivity; [by apply stays_top|]. apply stays_publish. intros b [= <-]. cbn. congruence. }
  split; [|exact Hs]. intros xs H. assert (Hi : inv m) by by exists xs. destruct H as (Hok & q & Hq & Hc).
  rewrite Ht in Hq. injection Hq as <-. exists (x :: xs). split; [constructor|].
  split; [by apply mem_ok_publish, mem_ok_set|]. exists (Some a). cbn. rewrite lookup_insert_eq. split; [done|].
  exists a, p. cbn. rewrite lookup_delete_eq, lookup_insert_ne.
  2:{ intros [= <-]. by eapply mem_ok_root. }
  split_and!; try done. eapply (chain_stays (S h)), Hc. by apply Hs; [|lia].
Qed.

(** *** The methods *)
Lemma rely_inv_stack h m m' : rely h m m' -> inv m -> inv m'.
Proof. intros [H _]. exact H. Qed.
Lemma rely_stays h m m' : rely h m m' -> inv m -> stays h m m'.
Proof. intros [_ H]. exact H. Qed.
Lemma wp_load {A} h l (k : option Z -> M A) tr Q m :
  (forall m', rely h m m' -> exists p o, m_links m' !! l = Some p /\ guar h o m' m' /\
     wp (rely h) (guar h) (k p.1) (tr ++ option_list o) Q m') ->
  wp (rely h) (guar h) (bind (c_load l) k) tr Q m.
Proof.
  intros H. unfold c_load, c_load_with_tag. cbn [bind atomic]. apply wp_act. intros m' Hm.
  destruct (H m' Hm) as (p & o & Hp & HG & Hw). exists p, m', o. by rewrite Hp.
Qed.
(** A shared node: its item and its link are fixed. *)
Definition node_at m a x (n : option Z) : Prop :=
  m_data m !! a = Some x /\ m_owner m !! a = None /\ m_links m !! next a = Some (n, 0).
Lemma node_at_stays h m m' a x n : stays h m m' -> node_at m a x n -> node_at m' a x n.
Proof.
  intros Hs (Hd & Ho & Hl). split_and!.
  - by apply (gr_data _ _ _ (st_grows _ _ _ Hs)).
  - apply (gr_shared _ _ _ (st_grows _ _ _ Hs)); eauto.
  - rewrite (st_next _ _ _ Hs); eauto.
Qed.
Lemma inv_top m : inv m -> exists p, m_links m !! top = Some (p, 0) /\
  forall a, p = Some a -> exists x n, node_at m a x n.
Proof.
  intros (xs & _ & p & Hp & Hc). exists p. split; [done|]. intros a ->. destruct xs as [|x xs]; [done|].
  destruct Hc as (b & n & [= <-] & Hd & Ho & Hl & _). by exists x, n.
Qed.
Lemma pop_wp h f tr m : inv m ->
  wp (rely h) (guar h) (pop f h) tr (fun r tr' m' => inv m' /\
    match r with
    | None => tr' = tr ++ [EPop None]
    | Some a => exists x, m_data m' !! a = Some x /\ tr' = tr ++ [EPop (Some x)]
    end) m.
Proof.
  intros Hi. apply (wp_loop (rely h) (guar h) (fun _ tr' m' => tr' = tr /\ inv m')); [|done]. clear m Hi.
  intros [] tr0 m [-> Hi]. apply wp_load. intros m1 H1. pose proof (rely_inv_stack _ _ _ H1 Hi) as Hi1.
  destruct (inv_top _ Hi1) as (p & Hp & Hn). destruct p as [a|].
  2:{ exists (None, 0), (Some (EPop None)). split; [done|]. split; [by apply guar_pop_none|]. cbn. intros m2 H2 m3 H3.
      split; [|done]. eapply rely_inv_stack; [done|]. by eapply rely_inv_stack. }
  destruct (Hn a eq_refl) as (x & n & Ha). exists (Some a, 0), None. split; [done|]. split; [apply guar_refl_stack|].
  rewrite app_nil_r. cbn [fst]. apply wp_load. intros m2 H2. pose proof (rely_inv_stack _ _ _ H2 Hi1) as Hi2.
  pose proof (node_at_stays _ _ _ _ _ _ (rely_stays _ _ _ H2 Hi1) Ha) as Ha2.
  exists (n, 0), None. split; [apply Ha2|]. split; [apply guar_refl_stack|]. rewrite app_nil_r. cbn [fst].
  unfold c_cas, c_cas_with_tag. cbn. intros m3 H3. pose proof (rely_inv_stack _ _ _ H3 Hi2) as Hi3.
  pose proof (node_at_stays _ _ _ _ _ _ (rely_stays _ _ _ H3 Hi2) Ha2) as Ha3.
  destruct (inv_top _ Hi3) as (q & Hq & _). rewrite Hq. destruct (decide _) as [E|_].
  - injection E as ->. destruct (guar_pop h a n m3 Hq (proj2 (proj2 Ha3)) Hi3) as (y & Hy & HG).
    exists (Some (EPop (Some y))). split; [exact HG|]. cbn. intros m4 H4 m5 H5.
    assert (Hi' : inv (publish n (set_link top (n, 0) m3))).
    { destruct Hi3 as [xs Hxs]. destruct HG as [HG _]. destruct (HG xs Hxs) as (ys & _ & Hys). by exists ys. }
    pose proof (rely_inv_stack _ _ _ H4 Hi') as Hi4. split; [by eapply rely_inv_stack|]. exists y. split; [|done].
    apply (gr_data _ _ _ (st_grows _ _ _ (rely_stays _ _ _ H5 Hi4))),
      (gr_data _ _ _ (st_grows _ _ _ (rely_stays _ _ _ H4 Hi'))). by destruct n.
  - exists None. split; [apply guar_refl_stack|]. cbn. intros m4 H4. rewrite app_nil_r. split; [done|]. by eapply rely_inv_stack.
Qed.
Lemma push_wp_stack h f x tr m : inv m ->
  wp (rely h) (guar h) (push f x h) tr (fun _ tr' m' => inv m' /\ tr' = tr ++ [EPush x]) m.
Proof.
  intros Hi. unfold push. unfold c_new at 1. cbn [bind atomic]. intros m1 H1. pose proof (rely_inv_stack _ _ _ H1 Hi) as Hi1.
  set (a := fresh_addr m1). exists None. split; [apply guar_new_stack|]. rewrite app_nil_r.
  assert (Hstep : forall o s s', guar h o s s' -> inv s -> inv s').
  { intros o s s' [HG _] [xs Hxs]. specialize (HG xs Hxs). destruct o; [destruct HG as (ys & _ & Hys); by exists ys|by exists xs]. }
  apply (wp_loop (rely h) (guar h) (fun _ tr' m' => tr' = tr /\ inv m' /\ m_owner m' !! a = Some h /\ m_data m' !! a = Some x)).
  2:{ split; [done|]. split; [by eapply Hstep; [apply guar_new_stack|]|]. cbn. by rewrite !lookup_insert_eq. }
  assert (Hkeep : forall s s', rely h s s' -> inv s -> m_owner s !! a = Some h -> m_data s !! a = Some x ->
    inv s' /\ m_owner s' !! a = Some h /\ m_data s' !! a = Some x /\ m_links s' !! next a = m_links s !! next a).
  { intros s s' Hr Hs Ho Hd. pose proof (st_grows _ _ _ (rely_stays _ _ _ Hr Hs)) as Hg.
    destruct (gr_mine _ _ _ Hg a Ho) as [Ho' Hl]. split_and!; [by eapply rely_inv_stack|done|by apply (gr_data _ _ _ Hg)|apply Hl]. }
  clearbody a. clear m m1 H1 Hi Hi1. intros [] tr0 m (-> & Hi & Ho & Hd). apply wp_load. intros m1 H1.
  destruct (Hkeep _ _ H1 Hi Ho Hd) as (Hi1 & Ho1 & Hd1 & _). destruct (inv_top _ Hi1) as (p & Hp & _).
  exists (p, 0), None. split; [done|]. split; [apply guar_refl_stack|]. rewrite app_nil_r. cbn. intros m2 H2.
  destruct (Hkeep _ _ H2 Hi1 Ho1 Hd1) as (Hi2 & Ho2 & Hd2 & _). exists None. split; [by apply guar_store_stack|].
  rewrite app_nil_r. set (m2' := set_link _ _ m2). intros m3 H3.
  assert (Hi2' : inv m2') by (eapply Hstep; [by apply (guar_store_stack h a p)|done]).
  destruct (Hkeep _ _ H3 Hi2' Ho2 Hd2) as (Hi3 & Ho3 & Hd3 & Hl3).
  assert (Hl : m_links m3 !! next a = Some (p, 0)) by (rewrite Hl3; apply lookup_insert_eq).
  destruct (inv_top _ Hi3) as (q & Hq & _). rewrite Hq. destruct (decide _) as [E|_].
  - injection E as ->. exists (Some (EPush x)).
    assert (HG : guar h (Some (EPush x)) m3 (publish (Some a) (set_link top (Some a, 0) m3))) by (by apply (guar_push h a x p)).
    split; [exact HG|]. cbn. intros m4 H4 m5 H5. split; [|done]. eapply rely_inv_stack; [done|].
    eapply rely_inv_stack; [done|]. by eapply Hstep.
  - exists None. split; [apply guar_refl_stack|]. cbn. intros m4 H4. rewrite app_nil_r. split; [done|].
    destruct (Hkeep _ _ H4 Hi3 Ho3 Hd3) as (? & ? & ? & _). done.
Qed.
Lemma is_empty_wp h tr m : inv m ->
  wp (rely h) (guar h) is_empty tr (fun b tr' m' => inv m' /\ tr' = tr ++ [EEmpty b]) m.
Proof.
  intros Hi. unfold is_empty. apply wp_load. intros m1 H1. pose proof (rely_inv_stack _ _ _ H1 Hi) as Hi1.
  destruct (inv_top _ Hi1) as (p & Hp & _). exists (p, 0), (Some (EEmpty (bool_decide (p = None)))).
  split; [done|]. split.
  - split; [|reflexivity]. intros xs (Hok & q & Hq & Hc). rewrite Hp in Hq. injection Hq as <-.
    exists xs. split; [|split; [done|by exists p]].
    replace (bool_decide (p = None)) with (bool_decide (xs = [])); [constructor|]. apply bool_decide_ext.
    destruct xs as [|x xs]; cbn in Hc; [by subst|]. by destruct Hc as (a & n & -> & _).
  - apply wp_ret_env. intros m2 H2. split; [by eapply rely_inv_stack|done].
Qed.

(** ** Clients *)
Inductive call := CPush (x : T) | CPop | CEmpty.
(** One call, with what it returned; a popped item is read through its [ItemRef]. *)
Definition exec (h fuel : nat) (c : call) : M op :=
  match c with
  | CPush x => push fuel x h ;; Ret (EPush x)
  | CPop =>
      r <- pop fuel h ;
      match r with None => Ret (EPop None) | Some node => x <- borrow node ; Ret (EPop (Some x)) end
  | CEmpty => b <- is_empty ; Ret (EEmpty b)
  end.
Definition answers (c : call) (e : op) : Prop :=
  match c, e with CPush x, EPush y => y = x | CPop, EPop _ | CEmpty, EEmpty _ => True | _, _ => False end.
(** A call has exactly one effect, the one it reports. *)
Definition returned (c : call) (e : op) (tr : list op) (_ : list (list T)) : Prop := answers c e /\ tr = [e].
Lemma exec_wp_stack h f c tr m : inv m ->
  wp (rely h) (guar h) (exec h f c) tr (fun e tr' _ => answers c e /\ tr' = tr ++ [e]) m.
Proof.
  intros Hi. destruct c as [x| |]; cbn [exec]; (apply wp_bind; [apply _|]).
  - eapply wp_mono; [|by apply push_wp_stack]. intros _ tr' m' [Hi' ->]. by apply wp_ret_env.
  - eapply wp_mono; [|by apply pop_wp]. intros [a|] tr' m' [Hi' H].
    + destruct H as (x & Hx & ->). unfold borrow, c_deref. cbn. intros m2 H2.
      assert (Hx2 : m_data m2 !! a = Some x) by by apply (gr_data _ _ _ (st_grows _ _ _ (rely_stays _ _ _ H2 Hi'))).
      rewrite Hx2. exists None. split; [apply guar_refl_stack|]. cbn. intros m3 H3. by rewrite app_nil_r.
    + subst tr'. by apply wp_ret_env.
  - eapply wp_mono; [|by apply is_empty_wp]. intros b tr' m' [Hi' ->]. by apply wp_ret_env.
Qed.
Lemma guar_holds i o m m' xs : guar i o m m' -> holds m xs -> exists xs', effect spec o xs xs' /\ holds m' xs'.
Proof. intros [HG _] H. specialize (HG xs H). destruct o; [done|]. by exists xs. Qed.
Lemma holds_new : holds new [].
Proof. split; [by split|]. by exists None. Qed.

(** C13. The stack is linearizable: every execution of any number of threads that call [push], [pop] and
    [is_empty] whenever they like is one of an atomic stack, in which each call takes effect once, between its
    beginning and its return, as the sequential stack does, and returns what that effect gives; the contents
    are those of the atomic one, and no thread dereferences a dangling node or link. *)
Theorem stack_linearizable f ls P m : hrun (fun h c => exec h f c) ls (∅, new) (P, m) ->
  (exists X xs, orun spec returned ls (∅, []) (X, xs) /\ holds m xs) /\
  (forall i c p, P !! i = Some (c, p) -> faultless p m).
Proof.
  intros Hr. set (Q := fun (_ : nat) c (_ : mem T) e tr (_ : mem T) => answers c e /\ tr = [] ++ [e]).
  destruct (linear_sound (fun h c => exec h f c) spec returned rely guar holds Q _ guar_rely_stack guar_holds) with (ls := ls) (s := new) (x := @nil T) (P' := P) (s' := m)
    as (X & xs & Ho & Hx & Hf); [|by intros ????????? _ [? ?]|apply holds_new|done|].
  - intros i c m0 xs Hx. apply exec_wp_stack. by exists xs.
  - split; [by exists X, xs|done].
Qed.
End stack.

(** ** A concrete execution: thread 1 reads the top, and thread 0 pops it and pushes another item
    before its compare-exchange, which fails; thread 2 found the stack empty before all that *)
Definition sample_moves : list (move (C := call (T := nat))) :=
  [MCall 2 CEmpty; MGo 2; MCall 0 (CPush 1%nat)] ++ replicate 5 (MGo 0) ++ [MCall 1 CPop; MGo 1; MCall 0 CPop] ++
  replicate 5 (MGo 0) ++ MCall 0 (CPush 2%nat) :: replicate 5 (MGo 0) ++ replicate 8 (MGo 1) ++ [MGo 2].
Definition sample_execution := hplay (fun h c => exec h 9 c) sample_moves (∅, new).
Lemma stack_execution_history : history sample_execution.1 =
  [LCall 2 CEmpty; LCall 0 (CPush 1%nat); LRet 0 (EPush 1%nat); LCall 1 CPop; LCall 0 CPop; LRet 0 (EPop (Some 1%nat));
   LCall 0 (CPush 2%nat); LRet 0 (EPush 2%nat); LRet 1 (EPop (Some 2%nat)); LRet 2 (EEmpty true)].
Proof. vm_compute. reflexivity. Qed.
Lemma stack_linearizable_witness : exists X xs, orun spec returned sample_execution.1 (∅, []) (X, xs) /\ holds sample_execution.2.2 xs.
Proof.
  refine (proj1 (stack_linearizable 9 sample_execution.1 sample_execution.2.1 sample_execution.2.2 _)).
  rewrite <- surjective_pairing. apply hplay_hrun.
Defined.
