(* ===== verification/Lists.v ===== *)
(** * Lock-free lists and the hash map ([examples/ds/lists.rs])

    Sorted singly linked lists in the managed memory of [Managed]: the links of removed
    nodes carry the tag 1.  Three searches (Harris, Harris-Michael, Herlihy-Shavit) share
    the operations [get], [insert] and [remove]. *)
From S2P Require Import Prelude Prog Managed.
#[local] Open Scope Z_scope.
#[local] Open Scope prog_scope.

(** [K: Ord]: a lawful comparison. *)
Class Ord (K : Type) := {
  cmp : K -> K -> comparison;
  cmp_eq : forall a b, cmp a b = Eq <-> a = b;
  cmp_opp : forall a b, cmp b a = CompOpp (cmp a b);
  cmp_lt_trans : forall a b c, cmp a b = Lt -> cmp b c = Lt -> cmp a c = Lt
}.
(** [Default] for keys and values. *)
Class Default (A : Type) := default_value : A.

Section lists.
Context {K V : Type} `{!Ord K, !Default K, !Default V}.
#[local] Abbreviation M := (prog (mem (K * V))).
Implicit Types (m : mem (K * V)) (k : K) (v : V).

Section list.
Context (b : nat).  (** which of the lists of the structure *)
(** [List { head }]: the root link [b], to a dummy node; [Node { next, key, value }]: link 0
    and the data. *)
Definition head : loc := (0, b).
Definition next (a : Z) : loc := (a, 0%nat).
Definition node_new (handle : nat) (key : K) (value : V) : M Z := c_new handle (key, value) [(None, 0)].
Definition node_head (handle : nat) : M Z := c_new handle (default_value, default_value) [(None, 0)].
Definition empty_mem : mem (K * V) := mkMem ∅ ∅ ∅.
Definition list_new (handle : nat) : M unit :=
  n <- node_head handle ;
  modify (fun m => publish (Some n) (set_link head (Some n, 0) m)).

Record Cursor := mkCursor { c_prev : Z; c_curr : option Z }.
(** [AtomicShared::load]: the link is never null. *)
Definition load_shared (l : loc) : M Z := p <- c_load l ; unchecked p "unwrap_unchecked".
Definition cursor_head : M Cursor :=
  prev <- load_shared head ;
  curr <- c_load (next prev) ;
  Ret (mkCursor prev curr).

(** [VHolder]: a protected node. *)
Definition vholder_new (node : Z) (handle : nat) : Z := node.
Definition vholder_borrow (node : Z) : M V := d <- c_deref node ; Ret d.2.
Definition key_of (node : Z) : M K := d <- c_deref node ; Ret d.1.

(** [Err(())] is [None]. *)
Definition FindResult : Type := option (bool * Cursor).

Definition find_harris (fuel : nat) (key : K) : M FindResult :=
  cursor <- cursor_head ;
  r <- loop fuel (fun '(cursor, prev_next) =>
    match c_curr cursor with
    | None => Ret (inr (false, cursor, prev_next))
    | Some curr_node =>
        n <- c_load_with_tag (next curr_node) ;
        if negb (n.2 =? 0) then Ret (inl (mkCursor (c_prev cursor) n.1, prev_next)) else
        k <- key_of curr_node ;
        match cmp k key with
        | Lt => Ret (inl (mkCursor curr_node n.1, n.1))
        | Eq => Ret (inr (true, cursor, prev_next))
        | Gt => Ret (inr (false, cursor, prev_next))
        end
    end) (cursor, c_curr cursor) ;
  let '(found, cursor, prev_next) := r in
  if decide (prev_next = c_curr cursor) then Ret (Some (found, cursor)) else
  c <- c_cas_with_tag (next (c_prev cursor)) (prev_next, 0) (c_curr cursor, 0) ;
  match c with inl _ => Ret (Some (found, cursor)) | inr _ => Ret None end.

Definition find_harris_michael (fuel : nat) (key : K) : M FindResult :=
  cursor <- cursor_head ;
  loop fuel (fun cursor =>
    match c_curr cursor with
    | None => Ret (inr (Some (false, cursor)))
    | Some curr_node =>
        n <- c_load_with_tag (next curr_node) ;
        if negb (n.2 =? 0) then
          c <- c_cas (next (c_prev cursor)) (c_curr cursor) n.1 ;
          match c with
          | inl _ => Ret (inl (mkCursor (c_prev cursor) n.1))
          | inr _ => Ret (inr None)
          end
        else
        k <- key_of curr_node ;
        match cmp k key with
        | Lt => Ret (inl (mkCursor curr_node n.1))
        | Eq => Ret (inr (Some (true, cursor)))
        | Gt => Ret (inr (Some (false, cursor)))
        end
    end) cursor.

Definition find_harris_herlihy_shavit (fuel : nat) (key : K) : M FindResult :=
  cursor <- cursor_head ;
  r <- loop fuel (fun cursor =>
    match c_curr cursor with
    | None => Ret (inr (false, cursor))
    | Some curr_node =>
        n <- c_load_with_tag (next curr_node) ;
        k <- key_of curr_node ;
        match cmp k key with
        | Lt => Ret (inl (mkCursor curr_node n.1))
        | Eq => Ret (inr (n.2 =? 0, cursor))
        | Gt => Ret (inr (false, cursor))
        end
    end) cursor ;
  Ret (Some r).

Definition get (fuel : nat) (find : K -> M FindResult) (key : K) (handle : nat) : M (option Z) :=
  loop fuel (fun _ : unit =>
    r <- find key ;
    match r with
    | Some (found, cursor) =>
        if found : bool then
          curr <- unwrap (c_curr cursor) "called `Option::unwrap()` on a `None` value" ;
          Ret (inr (Some (vholder_new curr handle)))
        else Ret (inr None)
    | None => Ret (inl tt)
    end) tt.
Definition insert (fuel : nat) (find : K -> M FindResult) (key : K) (value : V) (handle : nat) : M bool :=
  node <- node_new handle key value ;
  loop fuel (fun _ : unit =>
    k <- key_of node ;
    r <- find k ;
    match r with
    | None => Ret (inl tt)
    | Some (found, cursor) =>
        if found : bool then Ret (inr false) else
        c_store (next node) (c_curr cursor) ;;
        c <- c_cas_with_tag (next (c_prev cursor)) (c_curr cursor, 0) (Some node, 0) ;
        match c with inl _ => Ret (inr true) | inr _ => Ret (inl tt) end
    end) tt.
Definition remove (fuel : nat) (find : K -> M FindResult) (key : K) (handle : nat) : M (option Z) :=
  loop fuel (fun _ : unit =>
    r <- find key ;
    match r with
    | None => Ret (inl tt)
    | Some (found, cursor) =>
        if negb found then Ret (inr None) else
        curr_node <- unwrap (c_curr cursor) "called `Option::unwrap()` on a `None` value" ;
        n <- c_fetch_or (next curr_node) 1 ;
        if n.2 =? 1 then Ret (inl tt) else
        _ <- c_cas_with_tag (next (c_prev cursor)) (c_curr cursor, 0) n ;
        Ret (inr (Some (vholder_new curr_node handle)))
    end) tt.

Definition harris_get fuel := get fuel (find_harris fuel).
Definition harris_insert fuel := insert fuel (find_harris fuel).
Definition harris_remove fuel := remove fuel (find_harris fuel).
Definition harris_michael_get fuel := get fuel (find_harris_michael fuel).
Definition harris_michael_insert fuel := insert fuel (find_harris_michael fuel).
Definition harris_michael_remove fuel := remove fuel (find_harris_michael fuel).
Definition harris_herlihy_shavit_get fuel := get fuel (find_harris_herlihy_shavit fuel).

(** [ConcurrentMap]: the interface the three lists and the hash map implement. *)
Record ConcurrentMap := mkCM {
  cm_get : K -> nat -> M (option Z);
  cm_insert : K -> V -> nat -> M bool;
  cm_remove : K -> nat -> M (option Z)
}.
Definition HList fuel : ConcurrentMap := mkCM (harris_get fuel) (harris_insert fuel) (harris_remove fuel).
Definition HMList fuel : ConcurrentMap :=
  mkCM (harris_michael_get fuel) (harris_michael_insert fuel) (harris_michael_remove fuel).
Definition HHSList fuel : ConcurrentMap :=
  mkCM (harris_herlihy_shavit_get fuel) (harris_insert fuel) (harris_remove fuel).
End list.

(** [HashMap { buckets }]: list [i] is bucket [i]; the hash of a key is that of
    [DefaultHasher]. *)
Context (hash : K -> nat).
Definition with_capacity (n : nat) (handle : nat) : M unit := foreach (seq 0 n) (fun i => list_new i handle).
Definition get_bucket (n fuel : nat) (index : nat) : M ConcurrentMap :=
  if (n =? 0)%nat then Stop (Panic "attempt to calculate the remainder with a divisor of zero")
  else Ret (HHSList (index mod n) fuel).
Definition hashmap_get (n fuel : nat) (key : K) (handle : nat) : M (option Z) :=
  let i := hash key in b <- get_bucket n fuel i ; cm_get b key handle.
Definition hashmap_insert (n fuel : nat) (key : K) (value : V) (handle : nat) : M bool :=
  let i := hash key in b <- get_bucket n fuel i ; cm_insert b key value handle.
Definition hashmap_remove (n fuel : nat) (key : K) (handle : nat) : M (option Z) :=
  let i := hash key in b <- get_bucket n fuel i ; cm_remove b key handle.
(** The capacity [ConcurrentMap::new] chooses. *)
Definition HASHMAP_CAPACITY : Z := 30000.
Definition HashMap (n fuel : nat) : ConcurrentMap :=
  mkCM (hashmap_get n fuel) (hashmap_insert n fuel) (hashmap_remove n fuel).
End lists.
Arguments Cursor : clear implicits.
