(* ===== verification/ListsCorrect.v ===== *)
(** * The invariant of the lock-free lists ([examples/ds/lists.rs])

    What holds of the lists between any two steps, the map they represent, and the effect
    of each kind of step (marking, unlinking, inserting) on both. *)
From S2P Require Import Prelude Prog Managed Lists.
#[local] Open Scope Z_scope.
#[local] Open Scope prog_scope.

Section correct.
Context {K V : Type} `{!Ord K, !Default K, !Default V, !EqDecision K, !Countable K}.
Context (bucket : K -> nat) (hs : list Z).  (** the list a key belongs to, and the dummy nodes *)
Implicit Types (m : mem (K * V)) (k : K) (v : V) (a : Z) (p : option Z).

(** ** The nodes *)
Definition shared m a : Prop := is_Some (m_data m !! a) /\ m_owner m !! a = None.
Definition linked m a p (t : Z) : Prop := m_links m !! next a = Some (p, t).
Definition has_key m a k : Prop := exists v, m_data m !! a = Some (k, v).
Definition edge m a c : Prop := exists t, linked m a (Some c) t.
(** [a] comes before key [k] in the list of [k]: its dummy node, or a smaller key. *)
Definition before m a k : Prop :=
  hs !! bucket k = Some a \/ ((a ∉ hs) /\ exists ka, has_key m a ka /\ cmp ka k = Lt /\ bucket ka = bucket k).
(** The rest of the list, from [p] on, comes after key [k]. *)
Definition after m p k : Prop := forall c, p = Some c -> exists kc, has_key m c kc /\ cmp kc k = Gt.

(** What holds between any two steps: the links of shared nodes lead to shared nodes with
    greater keys, the dummy nodes are not removed, and what is not removed is reachable
    from the dummy node of its list. *)
Record inv m : Prop := {
  i_ok : mem_ok m;
  i_nodup : NoDup hs;
  i_head : forall b a, hs !! b = Some a -> m_links m !! head b = Some (Some a, 0) /\ shared m a;
  i_link : forall a, shared m a -> exists p t, linked m a p t /\ (t = 0 \/ t = 1) /\ (a ∈ hs -> t = 0) /\
    forall c, p = Some c -> shared m c /\ (c ∉ hs) /\ exists kc, has_key m c kc /\ before m a kc;
  i_reach : forall a p k, shared m a -> a ∉ hs -> linked m a p 0 -> has_key m a k ->
    exists h, hs !! bucket k = Some h /\ rtc (edge m) h a
}.
Definition live m a : Prop := shared m a /\ (a ∉ hs) /\ exists p, linked m a p 0.
(** The map the structure represents: the nodes that are not removed. *)
Definition holds m (A : gmap K V) : Prop :=
  inv m /\ forall k v, A !! k = Some v <-> exists a, live m a /\ m_data m !! a = Some (k, v).

Lemma has_key_inj m a k k' : has_key m a k -> has_key m a k' -> k = k'.
Proof. intros [v Hv] [v' Hv']. rewrite Hv in Hv'. by injection Hv' as ->. Qed.
Lemma linked_inj m a p t p' t' : linked m a p t -> linked m a p' t' -> p = p' /\ t = t'.
Proof. unfold linked. intros -> [= -> ->]. done. Qed.
Lemma cmp_lt_irrefl k : cmp k k <> Lt.
Proof. intros H. assert (E : cmp k k = Eq) by by apply cmp_eq. congruence. Qed.
Lemma cmp_gt_lt k k' : cmp k k' = Gt -> cmp k' k = Lt.
Proof. intros H. rewrite cmp_opp, H. done. Qed.

Lemma edge_shared m a c : inv m -> shared m a -> edge m a c ->
  shared m c /\ (c ∉ hs) /\ exists kc, has_key m c kc /\ before m a kc.
Proof.
  intros Hi Ha [t Ht]. destruct (i_link _ Hi a Ha) as (p & t' & Hl & _ & _ & Hc).
  destruct (linked_inj _ _ _ _ _ _ Ht Hl) as [<- _]. by apply Hc.
Qed.
Lemma edge_inj m a c c' : edge m a c -> edge m a c' -> c = c'.
Proof. intros [t H] [t' H']. by destruct (linked_inj _ _ _ _ _ _ H H') as [[= ->] _]. Qed.
(** A functional relation has no forks. *)
Lemma rtc_linear m h a c : rtc (edge m) h a -> rtc (edge m) h c -> rtc (edge m) a c \/ rtc (edge m) c a.
Proof.
  intros Ha. revert c. induction Ha as [h|h x a Hx Ha IH]; intros c Hc; [by left|].
  destruct Hc as [h|h y c Hy Hc]; [right; by eapply rtc_l|]. rewrite <- (edge_inj _ _ _ _ Hx Hy) in Hc. by apply IH.
Qed.
Lemma before_trans m a ka k : (a ∉ hs) -> has_key m a ka -> before m a k -> forall x, before m x ka -> before m x k.
Proof.
  intros Ha Hka Hb x Hx. destruct Hb as [Hh|(_ & ka' & Hka' & Hlt & Hbk)].
  { destruct Ha. by eapply list_elem_of_lookup_2. }
  assert (ka' = ka) as -> by by eapply has_key_inj. destruct Hx as [Hh|(Hx & kx & Hkx & Hlt' & Hbk')].
  - left. by rewrite <- Hbk.
  - right. split; [done|]. exists kx. split; [done|]. split; [by eapply cmp_lt_trans|congruence].
Qed.
Lemma rtc_shared m a c : inv m -> shared m a -> rtc (edge m) a c -> shared m c.
Proof. intros Hi Ha. induction 1 as [|a x c Hx _ IH]; [done|]. apply IH. by destruct (edge_shared _ _ _ Hi Ha Hx). Qed.
(** Keys grow along the links. *)
Lemma rtc_before m a c : inv m -> shared m a -> rtc (edge m) a c -> a = c \/
  ((c ∉ hs) /\ exists kc, has_key m c kc /\ before m a kc).
Proof.
  intros Hi Ha H. induction H as [|a x c Hx Hc IH]; [by left|right].
  destruct (edge_shared _ _ _ Hi Ha Hx) as (Hsx & Hnx & kx & Hkx & Hbx).
  destruct (IH Hsx) as [<-|(Hnc & kc & Hkc & Hbc)]; [by eauto|]. split; [done|]. exists kc. split; [done|].
  by apply (before_trans m x kx kc).
Qed.
Lemma before_irrefl m a k : has_key m a k -> a ∉ hs -> ~ before m a k.
Proof.
  intros Hk Ha [Hh|(_ & k' & Hk' & Hlt & _)]; [apply Ha; by eapply list_elem_of_lookup_2|].
  rewrite (has_key_inj _ _ _ _ Hk' Hk) in Hlt. by apply cmp_lt_irrefl in Hlt.
Qed.
(** Nothing leads back. *)
Lemma no_cycle m a c : inv m -> shared m a -> edge m a c -> ~ rtc (edge m) c a.
Proof.
  intros Hi Ha He Hr. destruct (edge_shared _ _ _ Hi Ha He) as (Hc & Hn & kc & Hkc & Hb).
  destruct (rtc_before _ _ _ Hi Hc Hr) as [->|(Hna & ka & Hka & Hb')]; [by eapply before_irrefl|].
  apply (before_irrefl m c kc Hkc Hn). by apply (before_trans m a ka kc).
Qed.
Lemma before_shared m a k : inv m -> hs !! bucket k = Some a -> shared m a.
Proof. intros Hi Hh. by destruct (i_head _ Hi _ _ Hh). Qed.
(** A node before [k] that is not removed is on the list of [k]. *)
Lemma before_reach m a p k : inv m -> shared m a -> linked m a p 0 -> before m a k ->
  exists h, hs !! bucket k = Some h /\ shared m h /\ rtc (edge m) h a.
Proof.
  intros Hi Ha Hl [Hh|(Hn & ka & Hka & _ & <-)].
  - exists a. split; [done|]. split; [done|reflexivity].
  - destruct (i_reach _ Hi _ _ _ Ha Hn Hl Hka) as (h & Hh & Hr). exists h. split; [done|]. split; [|done].
    by eapply before_shared.
Qed.
(** Between a node before [k] that is not removed and a rest after [k], there is no [k]. *)
Lemma absent m a p k c : inv m -> shared m a -> linked m a p 0 -> before m a k -> after m p k ->
  live m c -> ~ has_key m c k.
Proof.
  intros Hi Ha Hl Hb Haf (Hc & Hnc & q & Hq) Hk.
  destruct (before_reach _ _ _ _ Hi Ha Hl Hb) as (h & Hh & Hsh & Hra).
  destruct (i_reach _ Hi _ _ _ Hc Hnc Hq Hk) as (h' & Hh' & Hrc). rewrite Hh in Hh'. injection Hh' as <-.
  destruct (rtc_linear _ _ _ _ Hra Hrc) as [Hr|Hr].
  - destruct Hr as [a|a y c He Hr]; [by eapply before_irrefl|].
    pose proof He as [t Ht]. destruct (linked_inj _ _ _ _ _ _ Hl Ht) as [-> _].
    destruct (Haf y eq_refl) as (ky & Hky & Hgt). destruct (edge_shared _ _ _ Hi Ha He) as (Hsy & Hny & _).
    destruct (rtc_before _ _ _ Hi Hsy Hr) as [->|(_ & kc & Hkc & Hby)].
    + rewrite (has_key_inj _ _ _ _ Hk Hky) in Hgt. apply cmp_gt_lt in Hgt. by apply cmp_lt_irrefl in Hgt.
    + rewrite (has_key_inj _ _ _ _ Hkc Hk) in Hby. destruct Hby as [Hhy|(_ & k' & Hk' & Hlt & _)].
      * apply Hny. by eapply list_elem_of_lookup_2.
      * rewrite (has_key_inj _ _ _ _ Hk' Hky) in Hlt. congruence.
  - destruct (rtc_before _ _ _ Hi Hc Hr) as [->|(Hna & ka & Hka & Hbc)]; [by eapply before_irrefl|].
    apply (before_irrefl m c k Hk Hnc). by apply (before_trans m a ka k).
Qed.
(** One node per key. *)
Lemma live_inj m a c k : inv m -> live m a -> live m c -> has_key m a k -> has_key m c k -> a = c.
Proof.
  intros Hi (Ha & Hna & p & Hp) (Hc & Hnc & q & Hq) Hka Hkc.
  destruct (i_reach _ Hi _ _ _ Ha Hna Hp Hka) as (h & Hh & Hra).
  destruct (i_reach _ Hi _ _ _ Hc Hnc Hq Hkc) as (h' & Hh' & Hrc). rewrite Hh in Hh'. injection Hh' as <-.
  assert (Hord : forall x y, shared m x -> x ∉ hs -> has_key m x k -> has_key m y k -> rtc (edge m) x y -> x = y).
  { intros x y Hx Hnx Hkx Hky Hr. destruct (rtc_before _ _ _ Hi Hx Hr) as [->|(_ & ky & Hky' & Hb)]; [done|].
    rewrite (has_key_inj _ _ _ _ Hky' Hky) in Hb. by apply (before_irrefl m x k Hkx Hnx) in Hb. }
  destruct (rtc_linear _ _ _ _ Hra Hrc) as [Hr|Hr]; [by apply Hord|]. symmetry. by apply Hord.
Qed.

(** ** Steps that leave the shared nodes alone *)
Record agree m m' : Prop := {
  ag_ok : mem_ok m';
  ag_shared : forall a, shared m' a <-> shared m a;
  ag_data : forall a, shared m a -> m_data m' !! a = m_data m !! a;
  ag_links : forall a, shared m a -> m_links m' !! next a = m_links m !! next a;
  ag_head : forall b, m_links m' !! head b = m_links m !! head b
}.
Lemma agree_key m m' a k : agree m m' -> shared m a -> has_key m' a k <-> has_key m a k.
Proof. intros H Ha. unfold has_key. by rewrite (ag_data _ _ H a Ha). Qed.
Lemma agree_linked m m' a p t : agree m m' -> shared m a -> linked m' a p t <-> linked m a p t.
Proof. intros H Ha. unfold linked. by rewrite (ag_links _ _ H a Ha). Qed.
Lemma agree_before m m' a k : agree m m' -> shared m a -> before m a k <-> before m' a k.
Proof.
  intros H Ha. unfold before. split; (intros [Hh|(Hn & ka & Hk & Hr)]; [by left|right]); (split; [done|]);
    exists ka; (split; [by apply (agree_key _ _ _ _ H Ha)|done]).
Qed.
Lemma agree_path m m' c b : inv m -> agree m m' -> shared m c -> rtc (edge m) c b -> rtc (edge m') c b.
Proof.
  intros Hi H Hc Hr. induction Hr as [x|x y z He Hr IH]; [reflexivity|].
  destruct (edge_shared _ _ _ Hi Hc He) as (Hy & _). eapply rtc_l; [|by apply IH].
  destruct He as [t He]. exists t. by apply (agree_linked _ _ _ _ _ H).
Qed.
Lemma agree_inv m m' : agree m m' -> inv m -> inv m'.
Proof.
  intros H Hi. constructor; [apply H|apply Hi| | |].
  - intros b a Hb. destruct (i_head _ Hi _ _ Hb) as [Hl Hs]. split; [by rewrite (ag_head _ _ H)|by apply (ag_shared _ _ H)].
  - intros a Ha. apply (ag_shared _ _ H) in Ha as Ha0. destruct (i_link _ Hi a Ha0) as (p & t & Hl & Ht & Hh & Hc).
    exists p, t. split; [by apply (agree_linked _ _ _ _ _ H)|]. split; [done|]. split; [done|]. intros c Ec.
    destruct (Hc c Ec) as (Hsc & Hnc & kc & Hkc & Hb). split; [by apply (ag_shared _ _ H)|]. split; [done|].
    exists kc. split; [by apply (agree_key _ _ _ _ H)|by apply (agree_before _ _ _ _ H)].
  - intros a p k Ha Hn Hl Hk. apply (ag_shared _ _ H) in Ha.
    apply (agree_linked _ _ _ _ _ H Ha) in Hl. apply (agree_key _ _ _ _ H Ha) in Hk.
    destruct (i_reach _ Hi _ _ _ Ha Hn Hl Hk) as (h & Hh & Hr). exists h. split; [done|].
    eapply agree_path; [done..|by eapply before_shared|done].
Qed.
Lemma agree_holds m m' A : agree m m' -> holds m A -> holds m' A.
Proof.
  intros H [Hi HA]. split; [by eapply agree_inv|]. intros k v. rewrite HA. unfold live.
  split; intros (a & (Ha & Hn & p & Hl) & Hd).
  - exists a. split; [split; [by apply (ag_shared _ _ H)|split; [done|exists p; by apply (agree_linked _ _ _ _ _ H)]]|].
    by rewrite (ag_data _ _ H).
  - apply (ag_shared _ _ H) in Ha. exists a. rewrite (ag_data _ _ H) in Hd by done.
    split; [split; [done|split; [done|exists p; by apply (agree_linked _ _ _ _ _ H)]]|done].
Qed.
Lemma agree_live m m' b : agree m m' -> live m b -> live m' b.
Proof.
  intros H (Hb & Hn & p & Hl). split; [by apply (ag_shared _ _ H)|]. split; [done|]. exists p.
  by apply (agree_linked _ _ _ _ _ H).
Qed.
Lemma agree_new h d m : mem_ok m -> agree m (add_node h (fresh_addr m) d [(None, 0)] m).
Proof.
  destruct (fresh_addr_ok m) as [Hn Hf]. intros Hok. constructor.
  - by apply mem_ok_new.
  - intros a. unfold shared. cbn. destruct (decide (a = fresh_addr m)) as [->|Hne].
    + rewrite !lookup_insert_eq, Hf. split; [by intros [_ ?]|by intros [[? ?] _]].
    + by rewrite !lookup_insert_ne.
  - intros a [[d' Hd] _]. cbn. rewrite lookup_insert_ne; [done|congruence].
  - intros a [[d' Hd] _]. cbn. rewrite lookup_insert_ne; [done|]. intros [= E]. congruence.
  - intros b. cbn. rewrite lookup_insert_ne; [done|]. by intros [= E].
Qed.
Lemma agree_store h a p m : mem_ok m -> m_owner m !! a = Some h -> agree m (set_link (next a) (p, 0) m).
Proof.
  intros Hok Ho. constructor; [by apply mem_ok_set|done|done| |].
  - intros b [_ Hb]. cbn. apply lookup_insert_ne. intros [= ->]. congruence.
  - intros b. cbn. apply lookup_insert_ne. intros [= ->]. by eapply mem_ok_root.
Qed.

(** ** Steps on the link of a shared node *)
Section update.
Context (m m' : mem (K * V)) (prev : Z).
Context (Hother : forall a c, a <> prev -> edge m a c -> edge m' a c).
Lemma rtc_to x : rtc (edge m) x prev -> rtc (edge m') x prev.
Proof using Hother.
  remember prev as z eqn:Ez. induction 1 as [x|x y z He Hr IH]; [reflexivity|]. subst z.
  destruct (decide (x = prev)) as [->|Hne]; [reflexivity|]. eapply rtc_l; [by apply Hother|by apply IH].
Qed.
Lemma rtc_avoid x a : rtc (edge m) x a -> ~ rtc (edge m) x prev -> rtc (edge m') x a.
Proof using Hother.
  induction 1 as [x|x y z He Hr IH]; intros Hn; [reflexivity|].
  eapply rtc_l; [apply Hother; [|done]|apply IH].
  - intros ->. apply Hn. reflexivity.
  - intros Hy. apply Hn. by eapply rtc_l.
Qed.
Lemma rtc_update a x : (forall y, edge m prev y -> rtc (edge m) y a -> rtc (edge m') prev a) ->
  rtc (edge m) x a -> rtc (edge m') x a.
Proof using Hother.
  intros Hp. induction 1 as [x|x y z He Hr IH]; [reflexivity|].
  destruct (decide (x = prev)) as [->|Hne]; [by eapply Hp|]. eapply rtc_l; [by apply Hother|by apply IH].
Qed.
End update.

Lemma linked_set_eq m a q : linked (set_link (next a) q m) a q.1 q.2.
Proof. unfold linked. cbn. rewrite lookup_insert_eq. by destruct q. Qed.
Lemma linked_set_ne m a q b p t : b <> a -> linked (set_link (next a) q m) b p t <-> linked m b p t.
Proof. intros Hne. unfold linked. cbn. rewrite lookup_insert_ne; [done|]. intros [= ->]. done. Qed.
Lemma shared_set m l q a : shared (set_link l q m) a <-> shared m a.
Proof. done. Qed.
Lemma head_set m a q b : mem_ok m -> shared m a -> m_links (set_link (next a) q m) !! head b = m_links m !! head b.
Proof.
  intros Hok [[d Hd] _]. cbn. apply lookup_insert_ne. intros [= ->]. by rewrite (mo_null _ Hok) in Hd.
Qed.

(** *** Removing a node: the mark *)
Lemma mark_edge m a p : linked m a p 0 -> forall x c, edge m x c -> edge (set_link (next a) (p, 1) m) x c.
Proof.
  intros Hl x c [t Ht]. destruct (decide (x = a)) as [->|Hne].
  - destruct (linked_inj _ _ _ _ _ _ Hl Ht) as [-> _]. exists 1. exact (linked_set_eq m a (Some c, 1)).
  - exists t. by apply linked_set_ne.
Qed.
Lemma mark_inv m a p : inv m -> live m a -> linked m a p 0 -> inv (set_link (next a) (p, 1) m).
Proof.
  intros Hi (Ha & Hn & _) Hl. pose proof (mark_edge m a p Hl) as He. set (m' := set_link _ _ m) in *.
  constructor; [by apply mem_ok_set, Hi|apply Hi| | |].
  - intros b h Hb. destruct (i_head _ Hi _ _ Hb) as [Hlh Hs]. split; [|done]. unfold m'. by rewrite head_set by (done || apply Hi).
  - intros x Hx. destruct (i_link _ Hi x Hx) as (q & t & Hq & Ht & Hh & Hc). destruct (decide (x = a)) as [->|Hne].
    + destruct (linked_inj _ _ _ _ _ _ Hl Hq) as [<- _]. exists p, 1. split; [apply linked_set_eq|]. split; [by right|].
      split; [done|exact Hc].
    + exists q, t. split; [by apply linked_set_ne|done].
  - intros x q k Hx Hnx Hq Hk. destruct (decide (x = a)) as [->|Hne].
    { by destruct (linked_inj _ _ _ _ _ _ Hq (linked_set_eq m a (p, 1))). }
    apply linked_set_ne in Hq; [|done]. destruct (i_reach _ Hi _ _ _ Hx Hnx Hq Hk) as (h & Hh & Hr).
    exists h. split; [done|]. eapply rtc_subrel; [|exact Hr]. exact He.
Qed.
Lemma mark_holds m a p k v A : holds m A -> live m a -> linked m a p 0 -> m_data m !! a = Some (k, v) ->
  A !! k = Some v /\ holds (set_link (next a) (p, 1) m) (delete k A).
Proof.
  intros [Hi HA] Hlv Hl Hd. split; [apply HA; by exists a|]. split; [by apply mark_inv|]. intros k' v'.
  rewrite lookup_delete_Some, HA. split.
  - intros (Hne & c & (Hc & Hnc & q & Hq) & Hdc). exists c. split; [|done]. split; [done|]. split; [done|].
    exists q. apply linked_set_ne; [|done]. intros ->. rewrite Hd in Hdc. by injection Hdc as ->.
  - intros (c & (Hc & Hnc & q & Hq) & Hdc). destruct (decide (c = a)) as [->|Hne].
    { by destruct (linked_inj _ _ _ _ _ _ Hq (linked_set_eq m a (p, 1))). }
    apply linked_set_ne in Hq; [|done]. assert (Hlc : live m c) by (split; [done|]; split; [done|]; by exists q).
    split; [|by exists c]. intros <-. apply Hne. eapply live_inj; [done|exact Hlc|exact Hlv|by exists v'|by exists v].
Qed.

(** *** Unlinking removed nodes *)
Definition skip1 m (p q : option Z) : Prop := exists a, p = Some a /\ shared m a /\ linked m a q 1.
Definition skips m : option Z -> option Z -> Prop := rtc (skip1 m).
Lemma skips_rtc m a p c : skips m p (Some c) -> p = Some a -> rtc (edge m) a c.
Proof.
  intros H. remember (Some c) as q eqn:Eq. revert a. induction H as [p|p x q (b & -> & Hs & Hl) Hr IH]; intros a; intros Ea.
  - subst. injection Ea as ->. reflexivity.
  - injection Ea as ->. destruct x as [x|].
    + eapply rtc_l; [by exists 1|]. by apply IH.
    + subst q. inversion Hr as [|? ? ? (z & ? & _) _]; subst; done.
Qed.
(** A node that is not removed is not skipped. *)
Lemma skips_live m p q y a : skips m p q -> p = Some y -> live m a -> rtc (edge m) y a ->
  exists z, q = Some z /\ rtc (edge m) z a.
Proof.
  intros H. revert y. induction H as [p|p x q (b & -> & Hs & Hl) Hr IH]; intros y Ep Ha Hy; [by exists y|].
  injection Ep as ->. destruct Hy as [y|y w a He Hy].
  - destruct Ha as (_ & _ & r & Hlr). by destruct (linked_inj _ _ _ _ _ _ Hl Hlr).
  - destruct He as [t Ht]. destruct (linked_inj _ _ _ _ _ _ Hl Ht) as [-> _]. by eapply IH.
Qed.
Lemma skips_edge m a p q c : linked m a p 0 -> skips m p q -> q = Some c -> exists y, edge m a y /\ rtc (edge m) y c.
Proof.
  intros Hl Hs ->. destruct p as [y|].
  - exists y. split; [by exists 0|]. by eapply skips_rtc.
  - inversion Hs as [|? ? ? (z & ? & _) _]; subst; done.
Qed.
(** The paths to the nodes that are not removed stay. *)
Lemma unlink_path m a p q x h : inv m -> shared m a -> linked m a p 0 -> skips m p q -> live m x ->
  rtc (edge m) h x -> rtc (edge (set_link (next a) (q, 0) m)) h x.
Proof.
  intros Hi Ha Hl Hs Hx Hr. set (m' := set_link _ _ m).
  assert (He : forall x c, x <> a -> edge m x c -> edge m' x c).
  { intros y c Hne [t Ht]. exists t. by apply linked_set_ne. }
  apply (rtc_update m m' a He); [|exact Hr]. intros y [t Ht] Hyx.
  destruct (linked_inj _ _ _ _ _ _ Hl Ht) as [-> _].
  destruct (skips_live m _ q y x Hs eq_refl Hx Hyx) as (z & -> & Hzx).
  eapply rtc_l; [exists 0; exact (linked_set_eq m a (Some z, 0))|]. apply (rtc_avoid m m' a He); [done|].
  destruct (skips_edge m a _ _ z Hl Hs eq_refl) as (y' & Hy' & Hyz). intros Hza.
  apply (no_cycle m a y' Hi Ha Hy'). by etransitivity.
Qed.
Lemma unlink_inv m a p q : inv m -> shared m a -> linked m a p 0 -> skips m p q -> inv (set_link (next a) (q, 0) m).
Proof.
  intros Hi Ha Hl Hs. set (m' := set_link _ _ m).
  constructor; [by apply mem_ok_set, Hi|apply Hi| | |].
  - intros b h Hb. destruct (i_head _ Hi _ _ Hb) as [Hlh Hsh]. split; [|done]. unfold m'. by rewrite head_set by (done || apply Hi).
  - intros x Hx. destruct (decide (x = a)) as [->|Hne].
    + exists q, 0. split; [apply linked_set_eq|]. split; [by left|]. split; [done|]. intros c Hc.
      destruct (skips_edge m a p q c Hl Hs Hc) as (y & Hy & Hyc). assert (Hac : rtc (edge m) a c) by by eapply rtc_l.
      split; [by apply (rtc_shared m a)|]. destruct (rtc_before m a c Hi Ha Hac) as [<-|H]; [|exact H].
      by destruct (no_cycle m a y Hi Ha Hy).
    + destruct (i_link _ Hi x Hx) as (r & t & Hr & Ht & Hh & Hc). exists r, t. split; [by apply linked_set_ne|done].
  - intros x r k Hx Hnx Hr Hk.
    assert (exists r', linked m x r' 0) as [r' Hr'].
    { destruct (decide (x = a)) as [->|Hne]; [by exists p|]. exists r. by apply linked_set_ne in Hr. }
    destruct (i_reach _ Hi _ _ _ Hx Hnx Hr' Hk) as (h & Hh & Hrx). exists h. split; [done|].
    eapply unlink_path; try done. split; [done|]. split; [done|]. by exists r'.
Qed.
Lemma unlink_holds m a p q A : holds m A -> shared m a -> linked m a p 0 -> skips m p q ->
  holds (set_link (next a) (q, 0) m) A.
Proof.
  intros [Hi HA] Ha Hl Hs. split; [by eapply unlink_inv|]. intros k v. rewrite HA. unfold live.
  split; intros (c & (Hc & Hnc & r & Hr) & Hd); exists c; (split; [|done]); (split; [done|]); (split; [done|]);
    destruct (decide (c = a)) as [->|Hne].
  - exists q. apply linked_set_eq.
  - exists r. by apply linked_set_ne.
  - by exists p.
  - exists r. by apply linked_set_ne in Hr.
Qed.

(** *** Inserting a node *)
Definition inserted m a n : mem (K * V) := publish (Some n) (set_link (next a) (Some n, 0) m).
Section insert.
Context (m : mem (K * V)) (a n : Z) (p : option Z) (k : K) (v : V) (h : nat).
Context (Hi : inv m) (Ha : shared m a) (Hl : linked m a p 0).
Context (Ho : m_owner m !! n = Some h) (Hd : m_data m !! n = Some (k, v)) (Hn : linked m n p 0).
Context (Hb : before m a k) (Haf : after m p k) (Hnh : n ∉ hs).
Let m' := inserted m a n.
#[local] Set Default Proof Using "All".
Lemma insert_ne : n <> a.
Proof. intros ->. destruct Ha as [_ H]. congruence. Qed.
Lemma insert_shared x : shared m' x <-> shared m x \/ x = n.
Proof.
  unfold shared. cbn. destruct (decide (x = n)) as [->|Hne].
  - rewrite lookup_delete_eq. split; [by right|]. split; [by exists (k, v)|done].
  - rewrite lookup_delete_ne by done. split; [by left|by intros [?|?]].
Qed.
Lemma insert_linked x q t : x <> a -> linked m' x q t <-> linked m x q t.
Proof. intros Hne. unfold linked. cbn. rewrite lookup_insert_ne; [done|]. intros [= ->]. done. Qed.
Lemma insert_linked_eq : linked m' a (Some n) 0.
Proof. unfold linked. cbn. apply lookup_insert_eq. Qed.
Lemma insert_edge x c : x <> a -> edge m x c -> edge m' x c.
Proof. intros Hne [t Ht]. exists t. by apply insert_linked. Qed.
Lemma insert_target c : p = Some c -> shared m c /\ (c ∉ hs) /\ exists kc, has_key m c kc /\ before m' n kc.
Proof.
  intros ->. destruct (edge_shared _ _ _ Hi Ha (ex_intro _ 0 Hl)) as (Hc & Hnc & kc & Hkc & Hbc).
  split; [done|]. split; [done|]. exists kc. split; [done|]. right. split; [done|]. exists k. split; [by exists v|].
  destruct (Haf c eq_refl) as (kc' & Hkc' & Hgt). assert (kc' = kc) as -> by by eapply has_key_inj.
  split; [by apply cmp_gt_lt|]. destruct Hb as [Hh|(Hna & ka & Hka & _ & Ek)], Hbc as [Hh'|(Hna' & ka' & Hka' & _ & Ek')].
  - by apply (NoDup_lookup hs _ _ a (i_nodup _ Hi)).
  - by destruct Hna'; eapply list_elem_of_lookup_2.
  - by destruct Hna; eapply list_elem_of_lookup_2.
  - assert (ka' = ka) as -> by by eapply has_key_inj. congruence.
Qed.
Lemma insert_reach x y : shared m x -> x ∉ hs -> linked m x y 0 -> rtc (edge m) a x -> rtc (edge m') a x.
Proof.
  intros Hx Hnx Hlx Hr. destruct (decide (a = x)) as [<-|Hne]; [reflexivity|].
  apply rtc_inv in Hr as [?|(c & He & Hr)]; [done|]. pose proof He as [t Ht].
  destruct (linked_inj _ _ _ _ _ _ Hl Ht) as [Ep _]. eapply rtc_l; [exists 0; exact insert_linked_eq|].
  eapply rtc_l; [exists 0; apply insert_linked; [exact insert_ne|]; rewrite <- Ep; exact Hn|].
  apply (rtc_avoid m m' a insert_edge); [done|]. by apply no_cycle.
Qed.
Lemma insert_live x : live m x -> live m' x.
Proof.
  intros (Hx & Hnx & q & Hq). split; [by apply insert_shared; left|]. split; [done|].
  destruct (decide (x = a)) as [->|Hne]; [exists (Some n); exact insert_linked_eq|]. exists q. by apply insert_linked.
Qed.
Lemma insert_path x h0 : live m x -> rtc (edge m) h0 x -> rtc (edge m') h0 x.
Proof.
  intros (Hx & Hnx & q & Hq) Hr. apply (rtc_update m m' a insert_edge); [|exact Hr]. intros y Hy Hyx.
  eapply insert_reach; [done|done|exact Hq|]. by eapply rtc_l.
Qed.
Lemma splice_inv : inv m'.
Proof.
  assert (Hsn : shared m' n) by by (apply insert_shared; right).
  constructor; [by apply mem_ok_publish, mem_ok_set, Hi|apply Hi| | |].
  - intros b x Hx. destruct (i_head _ Hi _ _ Hx) as [Hlh Hs]. split; [|by apply insert_shared; left].
    change (m_links (set_link (next a) (Some n, 0) m) !! head b = Some (Some x, 0)). by rewrite head_set by (done || apply Hi).
  - intros x Hx. destruct (decide (x = a)) as [->|Hne].
    + exists (Some n), 0. split; [exact insert_linked_eq|]. split; [by left|]. split; [done|]. intros c [= <-].
      split; [done|]. split; [done|]. exists k. split; [by exists v|exact Hb].
    + apply insert_shared in Hx as [Hx|Hx]; [|subst x].
      * destruct (i_link _ Hi x Hx) as (r & t & Hr & Ht & Hh & Hc). exists r, t. split; [by apply insert_linked|].
        split; [done|]. split; [done|]. intros c Ec. destruct (Hc c Ec) as (Hsc & Hnc & kc & Hkc & Hbc).
        split; [by apply insert_shared; left|]. split; [done|]. exists kc. split; [done|exact Hbc].
      * exists p, 0. split; [by apply insert_linked|]. split; [by left|]. split; [done|]. intros c Ec.
        destruct (insert_target c Ec) as (Hsc & Hnc & kc & Hkc & Hbc). split; [by apply insert_shared; left|].
        split; [done|]. by exists kc.
  - assert (Han : forall h0, rtc (edge m) h0 a -> rtc (edge m') h0 n).
    { intros h0 Hr. eapply rtc_r; [by apply (rtc_to m m' a insert_edge)|]. exists 0. exact insert_linked_eq. }
    intros x r kx Hx Hnx Hr Hk. apply insert_shared in Hx as [Hx|Hx]; [|subst x].
    + assert (exists r', linked m x r' 0) as [r' Hr'].
      { destruct (decide (x = a)) as [->|Hne]; [by exists p|]. exists r. by apply insert_linked in Hr. }
      destruct (i_reach _ Hi _ _ _ Hx Hnx Hr' Hk) as (h0 & Hh & Hrx). exists h0. split; [done|].
      apply insert_path; [|exact Hrx]. split; [done|]. split; [done|]. by exists r'.
    + assert (kx = k) as -> by (destruct Hk as [v' Hv']; change (m_data m !! n = Some (kx, v')) in Hv'; congruence).
      destruct (before_reach _ _ _ _ Hi Ha Hl Hb) as (h0 & Hh & _ & Hr0). exists h0. split; [done|]. by apply Han.
Qed.
Lemma insert_holds A : holds m A -> A !! k = None /\ holds m' (<[k := v]> A).
Proof.
  intros [_ HA].
  assert (Hno : forall c v', live m c -> m_data m !! c = Some (k, v') -> False).
  { intros c v' Hc Hdc. eapply (absent m a p k c); try done. by exists v'. }
  split.
  { destruct (A !! k) as [v'|] eqn:E; [|done]. apply HA in E as (c & Hc & Hdc). by destruct (Hno c v'). }
  split; [exact splice_inv|]. intros k' v'. rewrite lookup_insert_Some, HA. split.
  - intros [[<- <-]|[Hne (c & (Hc & Hnc & r & Hr) & Hdc)]].
    + exists n. split; [|done]. split; [by apply insert_shared; right|]. split; [done|]. exists p. apply insert_linked; [|done].
      exact insert_ne.
    + exists c. split; [|done]. split; [by apply insert_shared; left|]. split; [done|].
      destruct (decide (c = a)) as [->|]; [exists (Some n); exact insert_linked_eq|]. exists r. by apply insert_linked.
  - intros (c & (Hc & Hnc & r & Hr) & Hdc). change (m_data m !! c = Some (k', v')) in Hdc.
    apply insert_shared in Hc as [Hc|Hc]; [|subst c; left; rewrite Hd in Hdc; by injection Hdc].
    assert (Hlc : live m c).
    { split; [done|]. split; [done|]. destruct (decide (c = a)) as [->|]; [by exists p|]. exists r. by apply insert_linked in Hr. }
    right. split; [|by exists c]. intros <-. by eapply Hno.
Qed.
End insert.
End correct.
