(* ===== verification/ListsLin.v ===== *)
(** * The lock-free lists are linearizable ([examples/ds/lists.rs])

    The operations of the Harris and Harris-Michael lists under interference, for any
    number of lists that share the memory (a hash map), and the theorem about every
    interleaving. *)
From S2P Require Import Prelude Prog Linear Managed Lists ListsCorrect.
#[local] Open Scope Z_scope.
#[local] Open Scope prog_scope.

Section lin.
Context {K V : Type} `{!Ord K, !Default K, !Default V, !EqDecision K, !Countable K}.
Context (bucket : K -> nat) (hs : list Z).
Implicit Types (m : mem (K * V)) (k : K) (v : V) (a : Z) (p : option Z).
#[local] Abbreviation M := (prog (mem (K * V))).
#[local] Abbreviation inv := (inv bucket hs).
#[local] Abbreviation holds := (holds bucket hs).
#[local] Abbreviation before := (before bucket hs).
#[local] Abbreviation live := (live hs).

(** ** The sequential map, with observations *)
Inductive op := EIns (k : K) (v : V) | ERem (k : K) (v : V) | EHas (k : K) (v : V) | ENot (k : K).
Inductive spec : op -> gmap K V -> gmap K V -> Prop :=
  | spec_ins k v A : A !! k = None -> spec (EIns k v) A (<[k := v]> A)
  | spec_rem k v A : A !! k = Some v -> spec (ERem k v) A (delete k A)
  | spec_has k v A : A !! k = Some v -> spec (EHas k v) A A
  | spec_not k A : A !! k = None -> spec (ENot k) A A.
Definition is_obs (e : op) : Prop := match e with EHas _ _ | ENot _ => True | _ => False end.
#[export] Instance is_obs_dec e : Decision (is_obs e).
Proof. destruct e; apply _. Defined.
(** The effects that change the map. *)
Definition updates (tr : list op) : list op := filter (fun e => ~ is_obs e) tr.
Lemma updates_obs tr : Forall is_obs tr -> updates tr = [].
Proof. induction 1 as [|e tr He _ IH]; [done|]. unfold updates. rewrite filter_cons_False by (by intros Hn). exact IH. Qed.
Lemma updates_last tr e : Forall is_obs tr -> ~ is_obs e -> updates (tr ++ [e]) = [e].
Proof.
  intros H He. unfold updates. rewrite filter_app. change (filter _ tr) with (updates tr). rewrite updates_obs by done.
  by rewrite filter_cons_True.
Qed.

(** ** Rely and guarantee *)
Definition good m : Prop := exists A, holds m A.
Lemma good_inv m : good m -> inv m.
Proof. by intros [A [Hi _]]. Qed.
Record stays (h : nat) m m' : Prop := {
  st_grows : grows h m m';
  st_marked : forall a p, shared m a -> linked m a p 1 -> linked m' a p 1
}.
Lemma stays_shared h m m' a : stays h m m' -> shared m a -> shared m' a.
Proof.
  intros [Hg _] [[d Hd] Ho]. split; [exists d; by apply (gr_data _ _ _ Hg)|]. apply (gr_shared _ _ _ Hg); eauto.
Qed.
#[local] Instance stays_lists_preorder h : PreOrder (stays h).
Proof.
  split; [by split|]. intros m1 m2 m3 H1 H2. pose proof H1 as [G1 L1]. pose proof H2 as [G2 L2].
  split; [by etransitivity|]. intros a p Ha Hl. apply L2; [by eapply stays_shared|by apply L1].
Qed.
(** A removed node stays removed, and the paths to a node that is not stay. *)
Record watch m m' : Prop := {
  wa_dead : forall b, shared m b -> live m' b -> live m b;
  wa_path : forall c b, shared m c -> live m b -> live m' b -> rtc (edge m) c b -> rtc (edge m') c b
}.
Definition rely (h : nat) m m' : Prop := (good m -> good m') /\ (good m -> stays h m m' /\ watch m m').
(** An observation, or a silent step, publishes none of the thread's own nodes; a node stops
    being live by its removal only, and the paths to live nodes stay. *)
Record keeps (h : nat) (o : option op) m m' : Prop := {
  ke_owner : forall a, m_owner m !! a = Some h -> m_owner m' !! a = Some h \/ exists e, o = Some e /\ ~ is_obs e;
  ke_live : forall b, live m b -> live m' b \/ exists k v, o = Some (ERem k v) /\ has_key m b k;
  ke_path : forall c b, shared m c -> live m b -> rtc (edge m) c b -> rtc (edge m') c b
}.
Definition guar (h : nat) (o : option op) m m' : Prop :=
  (forall A, holds m A -> match o with None => holds m' A | Some e => exists B, spec e A B /\ holds m' B end) /\
  (good m -> (forall j, j <> h -> stays j m m') /\ keeps h o m m').
#[export] Instance rely_lists_preorder h : PreOrder (rely h).
Proof.
  split; [split; [done|split; [reflexivity|done]]|]. intros m1 m2 m3 [I1 S1] [I2 S2]. split; [auto|].
  intros H. destruct (S1 H) as [T1 [D1 P1]], (S2 (I1 H)) as [T2 [D2 P2]]. split; [by etransitivity|].
  assert (Hsh : forall b, shared m1 b -> shared m2 b) by (intros b; by eapply stays_shared). split.
  - intros b Hb Hl. apply D1; [done|]. apply D2; auto.
  - intros c b Hc Hl Hl' Hr. assert (live m2 b) by (apply D2; [apply Hsh, Hl|done]). apply P2; auto.
Qed.
Lemma guar_good h o m m' : guar h o m m' -> good m -> good m'.
Proof. intros [Hg _] [A HA]. specialize (Hg A HA). destruct o; [destruct Hg as (B & _ & HB); by exists B|by exists A]. Qed.
Lemma guar_rely_lists i j o m m' : i <> j -> guar j o m m' -> rely i m m'.
Proof.
  intros Hne HG. split; [by eapply guar_good|]. intros Hg. destruct HG as [_ HG]. destruct (HG Hg) as [Hs [_ _ Hp]].
  specialize (Hs i Hne). split; [done|]. split; [|intros c b Hc Hb _; by apply Hp].
  intros b Hb (_ & Hn & p & Hl). destruct (i_link _ _ _ (good_inv _ Hg) b Hb) as (q & t & Hq & [-> | ->] & _).
  - split; [done|]. split; [done|]. by exists q.
  - by destruct (linked_inj _ _ _ _ _ _ Hl (st_marked _ _ _ Hs _ _ Hb Hq)).
Qed.
Lemma guar_same h o m : (forall A, holds m A -> match o with None => True | Some e => spec e A A end) -> guar h o m m.
Proof.
  intros H. split.
  - intros A HA. specialize (H A HA). destruct o; [by exists A|done].
  - intros _. split; [reflexivity|]. split; [by left|by left|done].
Qed.
Lemma guar_refl_lists h m : guar h None m m.
Proof. by apply guar_same. Qed.

(** *** What survives interference *)
Lemma stays_key h m m' a k : stays h m m' -> has_key m a k -> has_key m' a k.
Proof. intros [Hg _] [v Hv]. exists v. by apply (gr_data _ _ _ Hg). Qed.
Lemma stays_before h m m' a k : stays h m m' -> before m a k -> before m' a k.
Proof.
  intros Hs [Hh|(Hn & ka & Hka & Hr)]; [by left|right]. split; [done|]. exists ka. split; [by eapply stays_key|done].
Qed.
Lemma stays_after h m m' p k : stays h m m' -> after m p k -> after m' p k.
Proof. intros Hs Ha c Hc. destruct (Ha c Hc) as (kc & Hkc & Hgt). exists kc. split; [by eapply stays_key|done]. Qed.
Lemma stays_skips h m m' p q : stays h m m' -> skips m p q -> skips m' p q.
Proof.
  intros Hs. apply rtc_subrel. intros x y (a & -> & Ha & Hl). exists a. split; [done|].
  split; [by eapply stays_shared|by apply (st_marked _ _ _ Hs)].
Qed.
(** A pointer into the list of [k]. *)
Definition ptr_ok m p k : Prop := forall c, p = Some c -> shared m c /\ (c ∉ hs) /\
  exists kc vc, m_data m !! c = Some (kc, vc) /\ bucket kc = bucket k.
Lemma stays_ptr h m m' p k : stays h m m' -> ptr_ok m p k -> ptr_ok m' p k.
Proof.
  intros Hs Hp c Hc. destruct (Hp c Hc) as (Hsc & Hn & kc & vc & Hd & Hb). split; [by eapply stays_shared|].
  split; [done|]. exists kc, vc. split; [by apply (gr_data _ _ _ (st_grows _ _ _ Hs))|done].
Qed.
(** [a] belongs to the list of [k]. *)
Definition in_list m a k : Prop :=
  hs !! bucket k = Some a \/ ((a ∉ hs) /\ exists ka, has_key m a ka /\ bucket ka = bucket k).
Lemma before_in m a k : before m a k -> in_list m a k.
Proof. intros [H|(Hn & ka & Hk & _ & Hb)]; [by left|right]. split; [done|]. by exists ka. Qed.
Lemma ptr_in m a k : ptr_ok m (Some a) k -> in_list m a k.
Proof. intros H. destruct (H a eq_refl) as (_ & Hn & ka & va & Hd & Hb). right. split; [done|]. exists ka. split; [by exists va|done]. Qed.
Lemma link_ptr m a p t k : inv m -> shared m a -> in_list m a k -> linked m a p t -> ptr_ok m p k.
Proof.
  intros Hi Ha Hin Hl c ->. destruct (edge_shared _ _ _ _ _ Hi Ha (ex_intro _ t Hl)) as (Hc & Hn & kc & [vc Hd] & Hb).
  split; [done|]. split; [done|]. exists kc, vc. split; [done|].
  destruct Hin as [Hh|(Hna & ka & Hka & Eb)], Hb as [Hh'|(Hna' & ka' & Hka' & _ & Eb')].
  - by apply (NoDup_lookup hs _ _ a (i_nodup _ _ _ Hi)).
  - destruct Hna'. by eapply list_elem_of_lookup_2.
  - destruct Hna. by eapply list_elem_of_lookup_2.
  - assert (ka' = ka) as -> by by eapply has_key_inj. congruence.
Qed.
Lemma ptr_publish m p k : ptr_ok m p k -> publish p m = m.
Proof.
  intros Hp. destruct p as [c|]; [|done]. destruct (Hp c eq_refl) as ([_ Ho] & _). unfold publish. destruct m. cbn in *.
  f_equal. by apply delete_id.
Qed.

(** *** The steps *)
Lemma stays_set j m a q : good m -> shared m a -> (exists p, linked m a p 0) -> stays j m (set_link (next a) q m).
Proof.
  intros Hg [_ Ho] [p Hp]. split; [apply grows_set; congruence|]. intros b r _ Hr.
  destruct (decide (b = a)) as [->|Hne]; [by destruct (linked_inj _ _ _ _ _ _ Hp Hr)|].
  destruct q. by apply linked_set_ne.
Qed.
Lemma guar_has h m a p k v : live m a -> m_data m !! a = Some (k, v) -> guar h (Some (EHas k v)) m m.
Proof.
  intros Hl Hd. apply guar_same. intros A HA. constructor. apply HA. by exists a.
Qed.
Lemma holds_absent m a p k A : holds m A -> shared m a -> linked m a p 0 -> before m a k -> after m p k -> A !! k = None.
Proof.
  intros [Hi HA] Ha Hl Hb Haf. destruct (A !! k) as [v|] eqn:E; [|done]. apply HA in E as (c & Hc & Hd).
  exfalso. eapply (absent bucket hs m a p k c); try done. by exists v.
Qed.
Lemma guar_not h m a p k : shared m a -> linked m a p 0 -> before m a k -> after m p k -> guar h (Some (ENot k)) m m.
Proof.
  intros Ha Hl Hb Haf. apply guar_same. intros A HA. constructor. by eapply holds_absent.
Qed.
Lemma guar_new_lists h d m : guar h None m (add_node h (fresh_addr m) d [(None, 0)] m).
Proof.
  split.
  - intros A HA. eapply agree_holds; [|exact HA]. by apply agree_new, HA.
  - intros Hg. apply good_inv in Hg. split.
    + intros j Hj. split; [by apply grows_new, Hj; apply Hg|]. intros a p Ha Hl.
      by apply (agree_linked _ _ _ _ _ (agree_new h d m (i_ok _ _ _ Hg))).
    + assert (Hag := agree_new h d m (i_ok _ _ _ Hg)). split; [|intros b Hb; left; by eapply agree_live|by intros; eapply agree_path].
      intros a Ha. left. cbn. destruct (mo_owner _ (i_ok _ _ _ Hg) _ _ Ha) as [x Hx].
      destruct (fresh_addr_ok m) as [_ Hf]. rewrite lookup_insert_ne; [done|congruence].
Qed.
Lemma guar_store_lists h a p m : m_owner m !! a = Some h -> guar h None m (set_link (next a) (p, 0) m).
Proof.
  intros Ho. split.
  - intros A HA. eapply agree_holds; [|exact HA]. by eapply agree_store; [apply HA|].
  - intros Hg. apply good_inv in Hg. assert (Hag := agree_store h a p m (i_ok _ _ _ Hg) Ho).
    split; [|split; [by left|intros b Hb; left; by eapply agree_live|by intros; eapply agree_path]]. intros j Hj.
    split; [apply grows_set; congruence|]. intros b q Hb Hl. by apply (agree_linked _ _ _ _ _ (agree_store h a p m (i_ok _ _ _ Hg) Ho)).
Qed.
Lemma guar_mark h m a p k v : live m a -> linked m a p 0 -> m_data m !! a = Some (k, v) ->
  guar h (Some (ERem k v)) m (set_link (next a) (p, 1) m).
Proof.
  intros Hlv Hl Hd. split.
  - intros A HA. destruct (mark_holds _ _ _ _ _ _ _ _ HA Hlv Hl Hd) as [Hk HB]. exists (delete k A). split; [by constructor|done].
  - intros Hg. split; [intros j Hj; apply stays_set; [done|apply Hlv|by exists p]|].
    split; [by left| |intros c b _ _; apply rtc_subrel; by apply mark_edge].
    intros b Hb. destruct (decide (b = a)) as [->|Hne]; [right; exists k, v; split; [done|by exists v]|left].
    destruct Hb as (Hs & Hn & q & Hq). split; [done|]. split; [done|]. exists q. by apply linked_set_ne.
Qed.
Lemma keeps_unlink h o m a p q : good m -> shared m a -> linked m a p 0 -> skips m p q ->
  keeps h o m (set_link (next a) (q, 0) m).
Proof.
  intros Hg Ha Hl Hs. split; [by left| |].
  - intros b (Hb & Hn & r & Hr). left. split; [done|]. split; [done|]. destruct (decide (b = a)) as [->|Hne].
    + exists q. exact (linked_set_eq m a (q, 0)).
    + exists r. by apply linked_set_ne.
  - intros c b _ Hb Hr. eapply unlink_path; try done. by apply good_inv.
Qed.
Lemma guar_unlink h m a p q : shared m a -> linked m a p 0 -> skips m p q -> guar h None m (set_link (next a) (q, 0) m).
Proof.
  intros Ha Hl Hs. split; [intros A HA; by eapply unlink_holds|]. intros Hg.
  split; [intros j Hj; apply stays_set; [done..|by exists p]|by eapply keeps_unlink].
Qed.
Lemma guar_unlink_not h m a p q k : shared m a -> linked m a p 0 -> skips m p q -> before m a k -> after m q k ->
  guar h (Some (ENot k)) m (set_link (next a) (q, 0) m).
Proof.
  intros Ha Hl Hs Hb Haf. destruct (guar_unlink h m a p q Ha Hl Hs) as [HG HS].
  split; [|intros Hg; split; [by apply HS|by eapply keeps_unlink]].
  intros A HA. exists A. specialize (HG A HA). split; [|done]. constructor.
  eapply (holds_absent _ a q k); [exact HG|done| |exact Hb|exact Haf]. exact (linked_set_eq m a (q, 0)).
Qed.
Lemma guar_insert h m a n p k v : good m -> shared m a -> linked m a p 0 -> m_owner m !! n = Some h ->
  m_data m !! n = Some (k, v) -> linked m n p 0 -> before m a k -> after m p k ->
  guar h (Some (EIns k v)) m (inserted m a n).
Proof.
  intros Hg Ha Hl Ho Hd Hn Hb Haf. pose proof (good_inv _ Hg) as Hi.
  assert (Hnh : n ∉ hs).
  { intros [b Hn']%list_elem_of_lookup. destruct (i_head _ _ _ Hi _ _ Hn') as [_ [_ Ho']]. congruence. }
  split.
  - intros A HA. destruct (insert_holds bucket hs m a n p k v h Hi Ha Hl Ho Hd Hn Hb Haf Hnh A HA) as [Hk HB].
    exists (<[k := v]> A). split; [by constructor|exact HB].
  - intros _. split; [|split; [intros x _; right; exists (EIns k v); split; [done|exact (fun x => x)]| |]].
    2:{ intros b Hbl. left. by apply (insert_live bucket hs m a n p k v h). }
    2:{ intros c b _ Hbl Hr. by apply (insert_path bucket hs m a n p k v h). }
    intros j Hj.
    unfold inserted. etransitivity; [apply (stays_set j m a (Some n, 0)); [done..|by exists p]|].
    split; [apply grows_publish; intros x [= <-]; cbn; congruence|]. done.
Qed.

(** ** The searches *)
Lemma rely_good h m m' : rely h m m' -> good m -> good m'.
Proof. intros [H _]. exact H. Qed.
Lemma rely_stays_lists h m m' : rely h m m' -> good m -> stays h m m'.
Proof. intros [_ H] Hg. by apply H. Qed.
Lemma rely_watch h m m' : rely h m m' -> good m -> watch m m'.
Proof. intros [_ H] Hg. by apply H. Qed.
Lemma wp_load_next {A} h a (k : link -> M A) tr Q m : good m -> shared m a ->
  (forall m' p t, rely h m m' -> good m' -> stays h m m' -> linked m' a p t -> (t = 0 \/ t = 1) ->
     exists o, guar h o m' m' /\ wp (rely h) (guar h) (k (p, t)) (tr ++ option_list o) Q m') ->
  wp (rely h) (guar h) (bind (c_load_with_tag (next a)) k) tr Q m.
Proof.
  intros Hg Ha H. apply wp_act. intros m' Hm. pose proof (rely_stays_lists _ _ _ Hm Hg) as Hs.
  pose proof (rely_good _ _ _ Hm Hg) as Hg'.
  destruct (i_link _ _ _ (good_inv _ Hg') a (stays_shared _ _ _ _ Hs Ha)) as (p & t & Hl & Ht & _).
  destruct (H m' p t Hm Hg' Hs Hl Ht) as (o & HG & Hw). unfold linked in Hl. exists (p, t), m', o. by rewrite Hl.
Qed.
Lemma wp_key_of {A} h a (k : K -> M A) tr Q m ka va : good m -> m_data m !! a = Some (ka, va) ->
  (forall m', rely h m m' -> good m' -> stays h m m' -> wp (rely h) (guar h) (k ka) tr Q m') ->
  wp (rely h) (guar h) (bind (key_of a) k) tr Q m.
Proof.
  intros Hg Hd H. unfold key_of, c_deref. cbn [bind atomic]. apply wp_act. intros m' Hm.
  pose proof (rely_stays_lists _ _ _ Hm Hg) as Hs. pose proof (rely_good _ _ _ Hm Hg) as Hg'.
  exists (ka, va), m', None. rewrite (gr_data _ _ _ (st_grows _ _ _ Hs) _ _ Hd). split; [done|].
  split; [apply guar_refl_lists|]. rewrite app_nil_r. by apply H.
Qed.

(** What a search has seen of key [k]: [tr] extends [tr0] by observations. *)
Definition seen (tr0 tr : list op) (P : list op -> Prop) : Prop := exists seg, tr = tr0 ++ seg /\ Forall is_obs seg /\ P seg.
(** Either the absence of [k] was observed, or the rest [p] does not come after [k]. *)
Definition adj m p k (seg : list op) : Prop :=
  ENot k ∈ seg \/ exists c kc, p = Some c /\ has_key m c kc /\ cmp kc k <> Gt.
Lemma adj_after m p k seg : adj m p k seg -> after m p k -> ENot k ∈ seg.
Proof.
  intros [H|(c & kc & -> & Hk & Hne)] Ha; [done|]. destruct (Ha c eq_refl) as (kc' & Hk' & Hgt).
  by rewrite (has_key_inj _ _ _ _ Hk' Hk) in Hgt.
Qed.
Lemma adj_stays h m m' p k seg : stays h m m' -> adj m p k seg -> adj m' p k seg.
Proof.
  intros Hs [H|(c & kc & -> & Hk & Hne)]; [by left|right]. exists c, kc. split; [done|]. split; [by eapply stays_key|done].
Qed.
Lemma adj_mono m p k seg seg' : adj m p k seg -> adj m p k (seg ++ seg').
Proof. intros [H|H]; [left; apply elem_of_app; by left|by right]. Qed.
(** The reading of a link of a node before [k] that is not removed: if the rest comes after
    [k], it is an observation of the absence of [k]. *)
Lemma read_adj h m a p k : shared m a -> linked m a p 0 -> before m a k -> ptr_ok m p k ->
  exists o, guar h o m m /\ Forall is_obs (option_list o) /\ adj m p k (option_list o).
Proof.
  intros Ha Hl Hb Hp. destruct p as [c|].
  - destruct (Hp c eq_refl) as (_ & _ & kc & vc & Hd & _). assert (Hkc : has_key m c kc) by by exists vc.
    destruct (cmp kc k) eqn:E; [exists None|exists None|exists (Some (ENot k))].
    + split; [apply guar_refl_lists|]. split; [done|]. right. exists c, kc. by rewrite E.
    + split; [apply guar_refl_lists|]. split; [done|]. right. exists c, kc. by rewrite E.
    + split; [|split; [by repeat constructor|by left; left]]. eapply guar_not; try done.
      intros c' [= <-]. by exists kc.
  - exists (Some (ENot k)). split; [|split; [by repeat constructor|by left; left]]. eapply guar_not; try done.
Qed.
Lemma seen_app tr0 tr P P' o : seen tr0 tr P -> Forall is_obs (option_list o) ->
  (forall seg, P seg -> P' (seg ++ option_list o)) -> seen tr0 (tr ++ option_list o) P'.
Proof.
  intros (seg & -> & Hf & HP) Ho H. exists (seg ++ option_list o). split; [by rewrite app_assoc|].
  split; [by apply Forall_app|by apply H].
Qed.
Lemma seen_mono tr0 tr (P P' : list op -> Prop) : (forall seg, P seg -> P' seg) -> seen tr0 tr P -> seen tr0 tr P'.
Proof. intros H (seg & E & Hf & HP). exists seg. auto. Qed.

(** What a search returns. *)
Definition found_at m k (seg : list op) (r : bool * Cursor) : Prop :=
  shared m (c_prev r.2) /\ before m (c_prev r.2) k /\
  if r.1 then exists c v, c_curr r.2 = Some c /\ shared m c /\ (c ∉ hs) /\ m_data m !! c = Some (k, v) /\ EHas k v ∈ seg
  else ENot k ∈ seg /\ ptr_ok m (c_curr r.2) k /\ after m (c_curr r.2) k.
Definition find_post (tr0 : list op) k (r : FindResult) (tr : list op) m : Prop :=
  good m /\ seen tr0 tr (fun seg => match r with None => True | Some r => found_at m k seg r end).
Lemma found_at_stays h m m' k seg r : stays h m m' -> found_at m k seg r -> found_at m' k seg r.
Proof.
  intros Hs (Hp & Hb & H). split; [by eapply stays_shared|]. split; [by eapply stays_before|]. destruct r.1.
  - destruct H as (c & v & E & Hc & Hn & Hd & Hin). exists c, v. split; [done|]. split; [by eapply stays_shared|].
    split; [done|]. split; [by apply (gr_data _ _ _ (st_grows _ _ _ Hs))|done].
  - destruct H as (Hin & Hpt & Ha). split; [done|]. split; [by eapply stays_ptr|by eapply stays_after].
Qed.
Lemma find_post_stays h m m' tr0 tr k r : rely h m m' -> find_post tr0 k r tr m -> find_post tr0 k r tr m'.
Proof.
  intros Hr [Hg H]. split; [by eapply rely_good|]. eapply seen_mono; [|exact H]. intros seg Hseg. destruct r; [|done].
  eapply found_at_stays; [|done]. by eapply rely_stays_lists.
Qed.

(** [Cursor::head]: the dummy node of the list, and what follows it. *)
Lemma wp_cursor {A} h k (f : Cursor -> M A) tr Q m hd : good m -> hs !! bucket k = Some hd ->
  (forall m' curr, rely h m m' -> good m' -> shared m' hd -> linked m' hd curr 0 -> ptr_ok m' curr k ->
     exists o, guar h o m' m' /\ wp (rely h) (guar h) (f (mkCursor hd curr)) (tr ++ option_list o) Q m') ->
  wp (rely h) (guar h) (bind (cursor_head (bucket k)) f) tr Q m.
Proof.
  intros Hg Hh H. unfold cursor_head, load_shared, c_load. unfold c_load_with_tag at 1. cbn [bind atomic].
  apply wp_act. intros m1 H1. pose proof (rely_good _ _ _ H1 Hg) as Hg1.
  destruct (i_head _ _ _ (good_inv _ Hg1) _ _ Hh) as [Hl Hsh]. exists (Some hd, 0), m1, None. rewrite Hl.
  split; [done|]. split; [apply guar_refl_lists|]. rewrite app_nil_r.
  change (wp (rely h) (guar h) (bind (c_load_with_tag (next hd)) (fun n => f (mkCursor hd n.1))) tr Q m1).
  apply wp_load_next; [done..|]. intros m2 p t H2 Hg2 Hs2 Hl2 Ht.
  assert (Hsh2 : shared m2 hd) by by eapply stays_shared.
  assert (t = 0) as ->.
  { destruct (i_link _ _ _ (good_inv _ Hg2) hd Hsh2) as (p' & t' & Hl' & _ & Hz & _).
    destruct (linked_inj _ _ _ _ _ _ Hl2 Hl') as [_ ->]. apply Hz. by eapply list_elem_of_lookup_2. }
  apply H; [by etransitivity|done..|]. eapply link_ptr; [by apply good_inv|done|by left|done].
Qed.
Lemma wp_cursor_head {A} h k (f : Cursor -> M A) tr0 tr Q m hd : good m -> hs !! bucket k = Some hd ->
  seen tr0 tr (fun _ => True) ->
  (forall m' curr tr', good m' -> shared m' hd -> before m' hd k -> ptr_ok m' curr k ->
     seen tr0 tr' (adj m' curr k) -> wp (rely h) (guar h) (f (mkCursor hd curr)) tr' Q m') ->
  wp (rely h) (guar h) (bind (cursor_head (bucket k)) f) tr Q m.
Proof.
  intros Hg Hh Hseen H. eapply wp_cursor; [done..|]. intros m2 p _ Hg2 Hsh2 Hl2 Hp.
  assert (Hb : before m2 hd k) by by left.
  destruct (read_adj h m2 hd p k Hsh2 Hl2 Hb Hp) as (o & HG & Hf & Ha). exists o. split; [done|].
  apply H; [done..|]. eapply seen_app; [done..|]. intros seg _.
  destruct Ha as [Ha|Ha]; [left; apply elem_of_app; by right|by right].
Qed.

(** The reading of the link of the current node, when it is not removed. *)
Lemma read_curr h m c p k kc vc : good m -> shared m c -> (c ∉ hs) -> m_data m !! c = Some (kc, vc) ->
  bucket kc = bucket k -> linked m c p 0 -> exists o, guar h o m m /\ Forall is_obs (option_list o) /\
  match cmp kc k with
  | Lt => before m c k /\ ptr_ok m p k /\ adj m p k (option_list o)
  | Eq => EHas k vc ∈ option_list o
  | Gt => True
  end.
Proof.
  intros Hg Hc Hn Hd Hb Hl. destruct (cmp kc k) eqn:E.
  - apply cmp_eq in E as ->. exists (Some (EHas k vc)). split; [|split; [by repeat constructor|by left]].
    apply (guar_has h m c p k vc); [|done]. split; [done|]. split; [done|]. by exists p.
  - assert (Hbf : before m c k) by (right; split; [done|]; exists kc; split; [by exists vc|done]).
    assert (Hp : ptr_ok m p k) by (eapply link_ptr; [by apply good_inv|done|by apply before_in|done]).
    destruct (read_adj h m c p k Hc Hl Hbf Hp) as (o & HG & Hf & Ha). by exists o.
  - exists None. split; [apply guar_refl_lists|done].
Qed.
(** A failed or successful exchange of a link of a shared node. *)
Lemma wp_cas_next {A} h a (p q : option Z) (f : link + link -> M A) tr Q m k : good m -> shared m a -> ptr_ok m q k ->
  (forall m', good m' -> stays h m m' -> linked m' a p 0 ->
     exists o, guar h o m' (set_link (next a) (q, 0) m') /\
       forall m2, good m2 -> stays h m' m2 -> wp (rely h) (guar h) (f (inl (p, 0))) (tr ++ option_list o) Q m2) ->
  (forall m' x, good m' -> stays h m m' -> wp (rely h) (guar h) (f (inr x)) tr Q m') ->
  wp (rely h) (guar h) (bind (c_cas_with_tag (next a) (p, 0) (q, 0)) f) tr Q m.
Proof.
  intros Hg Ha Hq Hok Hfail. apply wp_act. intros m1 H1. pose proof (rely_stays_lists _ _ _ H1 Hg) as Hs1.
  pose proof (rely_good _ _ _ H1 Hg) as Hg1. pose proof (stays_shared _ _ _ _ Hs1 Ha) as Ha1.
  destruct (i_link _ _ _ (good_inv _ Hg1) a Ha1) as (p' & t' & Hl & _). pose proof Hl as Hl'. unfold linked in Hl'.
  rewrite Hl'. destruct (decide ((p', t') = (p, 0))) as [[= -> ->]|Hne].
  - destruct (Hok m1 Hg1 Hs1 Hl) as (o & HG & Hw). exists (inl (p, 0)), (set_link (next a) (q, 0) m1), o.
    cbn [fst]. rewrite (ptr_publish (set_link (next a) (q, 0) m1) q k) by exact (stays_ptr h m m1 q k Hs1 Hq).
    split; [done|]. split; [exact HG|]. apply Hw; [by eapply guar_good|].
    apply stays_set; [done..|by exists p].
  - exists (inr (p', t')), m1, None. split; [done|]. split; [apply guar_refl_lists|]. rewrite app_nil_r. by apply Hfail.
Qed.

Definition harris_inv tr0 k (x : Cursor * option Z) (tr : list op) m : Prop :=
  good m /\ shared m (c_prev x.1) /\ before m (c_prev x.1) k /\ ptr_ok m x.2 k /\ ptr_ok m (c_curr x.1) k /\
  skips m x.2 (c_curr x.1) /\ seen tr0 tr (adj m x.2 k).
Lemma harris_inv_stays h tr0 k x tr m m' : rely h m m' -> harris_inv tr0 k x tr m -> harris_inv tr0 k x tr m'.
Proof.
  intros Hr (Hg & H1 & H2 & H3 & H4 & H5 & H6).
  pose proof (rely_stays_lists _ _ _ Hr Hg) as Hs. split_and!; [by eapply rely_good|by eapply stays_shared|
    by eapply stays_before|by eapply stays_ptr|by eapply stays_ptr|by eapply stays_skips|].
  eapply seen_mono; [|exact H6]. intros seg. by eapply adj_stays.
Qed.
(** How the loop of [find_harris] ends. *)
Definition harris_done tr0 k (r : bool * Cursor * option Z) (tr : list op) m : Prop :=
  harris_inv tr0 k (r.1.2, r.2) tr m /\
  if r.1.1 then exists c v, c_curr r.1.2 = Some c /\ m_data m !! c = Some (k, v) /\ seen tr0 tr (fun seg => EHas k v ∈ seg)
  else after m (c_curr r.1.2) k.
Lemma harris_done_stays h tr0 k r tr m m' : rely h m m' -> harris_done tr0 k r tr m -> harris_done tr0 k r tr m'.
Proof.
  intros Hr [HI H]. pose proof (rely_stays_lists _ _ _ Hr (proj1 HI)) as Hs.
  split; [by eapply harris_inv_stays|]. destruct r.1.1; [|by eapply stays_after].
  destruct H as (c & v & Ec & Hd & Hseen). exists c, v. split; [done|]. split; [|done]. by apply (gr_data _ _ _ (st_grows _ _ _ Hs)).
Qed.
Lemma seen_join tr0 tr (P P' : list op -> Prop) : seen tr0 tr P -> seen tr0 tr P' -> seen tr0 tr (fun seg => P seg /\ P' seg).
Proof.
  intros (seg & -> & Hf & HP) (seg' & E & _ & HP'). exists seg. split; [done|]. split; [done|].
  apply app_inv_head in E as <-. done.
Qed.
(** The end of [find_harris]: the unlinking of what was skipped. *)
Lemma harris_tail_wp h tr0 k (found : bool) cursor prev_next tr m :
  harris_done tr0 k (found, cursor, prev_next) tr m ->
  wp (rely h) (guar h)
    (if decide (prev_next = c_curr cursor) then Ret (Some (found, cursor)) else
     c <- c_cas_with_tag (next (c_prev cursor)) (prev_next, 0) (c_curr cursor, 0) ;
     match c with inl _ => Ret (Some (found, cursor)) | inr _ => Ret None end) tr (find_post tr0 k) m.
Proof.
  intros HD. destruct (decide (prev_next = c_curr cursor)) as [->|Hne].
  - apply wp_ret_env. intros m' Hr. eapply find_post_stays; [exact Hr|].
    destruct HD as [(Hg & Hsh & Hb & _ & Hpc & _ & Hseen) HD]. cbn [fst snd] in *. split; [done|]. destruct found.
    + destruct HD as (c & v & Ec & Hd & Hs). eapply seen_mono; [|exact Hs]. intros seg Hin.
      destruct (Hpc c Ec) as (Hc & Hn & _). split; [done|]. split; [done|]. cbn. exists c, v. done.
    + eapply seen_mono; [|exact Hseen]. intros seg Hadj. split; [done|]. split; [done|]. cbn.
      split; [by eapply adj_after|done].
  - pose proof HD as [(Hg & Hsh & Hb & Hpn & Hpc & Hsk & Hseen) HE]. cbn [fst snd] in *.
    eapply (wp_cas_next h _ _ _ _ _ _ _ k); [done..| |].
    + intros m' Hg' Hs Hl. pose proof (stays_shared _ _ _ _ Hs Hsh) as Hsh'. pose proof (stays_skips _ _ _ _ _ Hs Hsk) as Hsk'.
      pose proof (stays_before _ _ _ _ _ Hs Hb) as Hb'. destruct found.
      * exists None. split; [by eapply guar_unlink|]. intros m2 Hg2 Hs2. rewrite app_nil_r. apply wp_ret_env. intros m3 H3.
        apply (PreOrder_Transitive _ _ _ Hs) in Hs2. eapply find_post_stays; [exact H3|]. split; [done|]. destruct HE as (c & v & Ec & Hd & Hse).
        eapply seen_mono; [|exact Hse]. intros seg Hin. destruct (Hpc c Ec) as (Hc & Hn & _).
        eapply found_at_stays; [exact Hs2|]. split; [done|]. split; [done|]. cbn. exists c, v. done.
      * exists (Some (ENot k)). split.
        { eapply guar_unlink_not; [done..|]. by eapply stays_after. }
        intros m2 Hg2 Hs2. apply wp_ret_env. intros m3 H3. apply (PreOrder_Transitive _ _ _ Hs) in Hs2.
        eapply find_post_stays; [exact H3|]. split; [done|]. eapply seen_app; [exact Hseen|by repeat constructor|]. intros seg _. eapply found_at_stays; [exact Hs2|].
        split; [done|]. split; [done|]. cbn. split; [apply elem_of_app; right; by left|done].
    + intros m' x Hg' Hs. apply wp_ret_env. intros m3 H3. eapply find_post_stays; [exact H3|]. split; [done|].
      eapply seen_mono; [|exact Hseen]. done.
Qed.
Lemma find_harris_wp h f k hd tr0 tr m : hs !! bucket k = Some hd -> good m -> seen tr0 tr (fun _ => True) ->
  wp (rely h) (guar h) (find_harris (bucket k) f k) tr (find_post tr0 k) m.
Proof.
  intros Hh Hg Hseen. unfold find_harris. eapply (wp_cursor_head h k); [done..|]. clear m tr Hg Hseen.
  intros m curr tr Hg Hsh Hb Hp Hseen. cbn [c_curr]. apply wp_bind; [apply _|].
  apply (wp_mono _ _ _ _ (harris_done tr0 k)).
  { intros [[found cursor] prev_next] tr' m' HD. by apply harris_tail_wp. }
  apply (wp_loop (rely h) (guar h) (harris_inv tr0 k)).
  2:{ split_and!; try done; reflexivity. }
  clear m curr tr Hg Hsh Hb Hp Hseen. intros [[prev curr] prev_next] tr m HI. cbn [c_curr c_prev].
  destruct curr as [c|].
  2:{ apply wp_ret_env. intros m1 H1. apply wp_ret_env. intros m2 H2.
      eapply harris_done_stays; [exact H2|]. eapply harris_done_stays; [exact H1|]. split; [exact HI|]. by intros c. }
  pose proof HI as (Hg & Hsh & Hb & Hpn & Hpc & Hsk & Hseen). cbn [fst snd c_curr c_prev] in *.
  destruct (Hpc c eq_refl) as (Hc & Hn & kc & vc & Hd & Ebk).
  apply wp_load_next; [done..|]. intros m1 p t H1 Hg1 Hs1 Hl Ht. cbn [fst snd].
  pose proof (harris_inv_stays _ _ _ _ _ _ _ H1 HI) as (_ & Hsh1 & Hb1 & Hpn1 & Hpc1 & Hsk1 & Hseen1). cbn [fst snd c_curr c_prev] in *.
  pose proof (stays_shared _ _ _ _ Hs1 Hc) as Hc1. pose proof (gr_data _ _ _ (st_grows _ _ _ Hs1) _ _ Hd) as Hd1.
  destruct Ht as [-> | ->]; cbn [Z.eqb negb].
  - destruct (read_curr h m1 c p k kc vc Hg1 Hc1 Hn Hd1 Ebk Hl) as (o & HG & Ho & HE). exists o. split; [exact HG|].
    eapply wp_key_of; [done..|]. intros m2 H2 Hg2 Hs2.
    assert (Hseen2 : seen tr0 (tr ++ option_list o) (adj m2 prev_next k)).
    { eapply seen_app; [exact Hseen1|done|]. intros seg Hadj. eapply adj_stays; [exact Hs2|]. by apply adj_mono. }
    assert (HI2 : harris_inv tr0 k (mkCursor prev (Some c), prev_next) (tr ++ option_list o) m2).
    { split_and!; cbn [fst snd c_curr c_prev]; [done|by eapply stays_shared|by eapply stays_before|by eapply stays_ptr|
        by eapply stays_ptr|by eapply stays_skips|done]. }
    pose proof (gr_data _ _ _ (st_grows _ _ _ Hs2) _ _ Hd1) as Hd2. destruct (cmp kc k) eqn:E.
    + apply cmp_eq in E as ->. apply wp_ret_env. intros m3 H3. apply wp_ret_env. intros m4 H4.
      eapply harris_done_stays; [exact H4|]. eapply harris_done_stays; [exact H3|]. split; [exact HI2|]. cbn. exists c, vc. split; [done|]. split; [done|].
      eapply seen_app; [exact Hseen1|done|]. intros seg _. apply elem_of_app. by right.
    + destruct HE as (Hbc & Hpp & Hadj). apply wp_ret_env. intros m3 H3. eapply harris_inv_stays; [exact H3|].
      split_and!; cbn [fst snd c_curr c_prev]; [done|by eapply stays_shared|by eapply stays_before|by eapply stays_ptr|
        by eapply stays_ptr|reflexivity|]. eapply seen_app; [exact Hseen1|done|]. intros seg _.
      eapply adj_stays; [exact Hs2|]. destruct Hadj as [Hin|Hx]; [left; apply elem_of_app; by right|by right].
    + apply wp_ret_env. intros m3 H3. apply wp_ret_env. intros m4 H4.
      eapply harris_done_stays; [exact H4|]. eapply harris_done_stays; [exact H3|]. split; [exact HI2|]. cbn. intros c' [= <-]. exists kc. split; [by exists vc|done].
  - exists None. split; [apply guar_refl_lists|]. rewrite app_nil_r. apply wp_ret_env. intros m2 H2.
    eapply harris_inv_stays; [exact H2|]. split_and!; cbn [fst snd c_curr c_prev]; try done.
    + eapply link_ptr; [by apply good_inv|exact Hc1|by eapply ptr_in, stays_ptr|exact Hl].
    + eapply rtc_r; [exact Hsk1|]. by exists c.
Qed.

Definition hm_inv tr0 k (x : Cursor) (tr : list op) m : Prop :=
  good m /\ shared m (c_prev x) /\ before m (c_prev x) k /\ ptr_ok m (c_curr x) k /\ seen tr0 tr (adj m (c_curr x) k).
Lemma hm_inv_stays h tr0 k x tr m m' : rely h m m' -> hm_inv tr0 k x tr m -> hm_inv tr0 k x tr m'.
Proof.
  intros Hr (Hg & H1 & H2 & H3 & H4). pose proof (rely_stays_lists _ _ _ Hr Hg) as Hs.
  split_and!; [by eapply rely_good|by eapply stays_shared|by eapply stays_before|by eapply stays_ptr|].
  eapply seen_mono; [|exact H4]. intros seg. by eapply adj_stays.
Qed.
(** The end of a search that did not fail. *)
Lemma hm_found tr0 k prev c kc vc tr m : hm_inv tr0 k (mkCursor prev (Some c)) tr m -> shared m c -> (c ∉ hs) ->
  m_data m !! c = Some (kc, vc) ->
  (cmp kc k = Eq -> seen tr0 tr (fun seg => EHas k vc ∈ seg) -> find_post tr0 k (Some (true, mkCursor prev (Some c))) tr m) /\
  (cmp kc k = Gt -> find_post tr0 k (Some (false, mkCursor prev (Some c))) tr m).
Proof.
  intros (Hg & Hsh & Hb & Hp & Hseen) Hc Hn Hd. split; intros E; [intros Hs|]; (split; [done|]).
  - apply cmp_eq in E as ->. eapply seen_mono; [|exact Hs]. intros seg Hin. split; [done|]. split; [done|]. by exists c, vc.
  - assert (Ha : after m (Some c) k) by (intros x [= <-]; exists kc; split; [by exists vc|done]).
    eapply seen_mono; [|exact Hseen]. intros seg Hadj. split; [done|]. split; [done|]. cbn. split; [by eapply adj_after|done].
Qed.
(** The new link after a removed node was unlinked. *)
Lemma unlink_adj h m a c q k : good m -> shared m a -> linked m a (Some c) 0 -> skip1 m (Some c) q -> before m a k ->
  ptr_ok m q k -> exists o, guar h o m (set_link (next a) (q, 0) m) /\ Forall is_obs (option_list o) /\ adj m q k (option_list o).
Proof.
  intros Hg Ha Hl Hs Hb Hq. assert (Hs' : skips m (Some c) q) by by apply rtc_once. destruct q as [d|].
  - destruct (Hq d eq_refl) as (_ & _ & kd & vd & Hd & _). assert (Hkd : has_key m d kd) by by exists vd.
    destruct (cmp kd k) eqn:E; [exists None|exists None|exists (Some (ENot k))].
    + split; [by eapply guar_unlink|]. split; [done|]. right. exists d, kd. by rewrite E.
    + split; [by eapply guar_unlink|]. split; [done|]. right. exists d, kd. by rewrite E.
    + split; [|split; [by repeat constructor|by left; left]]. eapply guar_unlink_not; try done.
      intros x [= <-]. by exists kd.
  - exists (Some (ENot k)). split; [|split; [by repeat constructor|by left; left]]. by eapply guar_unlink_not.
Qed.
Lemma find_harris_michael_wp h f k hd tr0 tr m : hs !! bucket k = Some hd -> good m -> seen tr0 tr (fun _ => True) ->
  wp (rely h) (guar h) (find_harris_michael (bucket k) f k) tr (find_post tr0 k) m.
Proof.
  intros Hh Hg Hseen. unfold find_harris_michael. eapply (wp_cursor_head h k); [done..|]. clear m tr Hg Hseen.
  intros m curr tr Hg Hsh Hb Hp Hseen. apply (wp_loop (rely h) (guar h) (hm_inv tr0 k)); [|by split_and!].
  clear m curr tr Hg Hsh Hb Hp Hseen. intros [prev curr] tr m HI. cbn [c_curr c_prev]. destruct curr as [c|].
  2:{ apply wp_ret_env. intros m1 H1. apply wp_ret_env. intros m2 H2. do 2 (eapply find_post_stays; [eassumption|]).
      destruct HI as (Hg & Hsh & Hb & Hp & Hseen). split; [done|]. eapply seen_mono; [|exact Hseen].
      intros seg Hadj. split; [done|]. split; [done|]. cbn. split; [by eapply adj_after|done]. }
  pose proof HI as (Hg & Hsh & Hb & Hp & Hseen). cbn [c_curr c_prev] in *.
  destruct (Hp c eq_refl) as (Hc & Hn & kc & vc & Hd & Ebk).
  apply wp_load_next; [done..|]. intros m1 p t H1 Hg1 Hs1 Hl Ht. cbn [fst snd].
  pose proof (hm_inv_stays _ _ _ _ _ _ _ H1 HI) as HI1. pose proof HI1 as (_ & Hsh1 & Hb1 & Hp1 & Hseen1). cbn [c_curr c_prev] in *.
  pose proof (stays_shared _ _ _ _ Hs1 Hc) as Hc1. pose proof (gr_data _ _ _ (st_grows _ _ _ Hs1) _ _ Hd) as Hd1.
  assert (Hpp : ptr_ok m1 p k) by (eapply link_ptr; [by apply good_inv|exact Hc1|by eapply ptr_in|exact Hl]).
  destruct Ht as [-> | ->]; cbn [Z.eqb negb].
  - destruct (read_curr h m1 c p k kc vc Hg1 Hc1 Hn Hd1 Ebk Hl) as (o & HG & Ho & HE). exists o. split; [exact HG|].
    eapply wp_key_of; [done..|]. intros m2 H2 Hg2 Hs2.
    assert (HI2 : hm_inv tr0 k (mkCursor prev (Some c)) (tr ++ option_list o) m2).
    { eapply hm_inv_stays; [exact H2|]. split_and!; try done. eapply seen_app; [exact Hseen1|done|]. intros seg. apply adj_mono. }
    pose proof (gr_data _ _ _ (st_grows _ _ _ Hs2) _ _ Hd1) as Hd2.
    destruct (hm_found _ _ _ _ _ _ _ _ HI2 (stays_shared _ _ _ _ Hs2 Hc1) Hn Hd2) as [Hfe Hfg].
    destruct (cmp kc k) eqn:E; (apply wp_ret_env; intros m3 H3); [| |].
    + apply wp_ret_env. intros m4 H4. do 2 (eapply find_post_stays; [eassumption|]). apply Hfe; [done|].
      eapply seen_app; [exact Hseen1|done|]. intros seg _. apply elem_of_app. by right.
    + destruct HE as (Hbc & Hpq & Hadj). eapply hm_inv_stays; [exact H3|].
      split_and!; cbn [c_curr c_prev]; [done|by eapply stays_shared|by eapply stays_before|by eapply stays_ptr|].
      eapply seen_app; [exact Hseen1|done|]. intros seg _. eapply adj_stays; [exact Hs2|].
      destruct Hadj as [Hin|Hx]; [left; apply elem_of_app; by right|by right].
    + apply wp_ret_env. intros m4 H4. do 2 (eapply find_post_stays; [eassumption|]). by apply Hfg.
  - exists None. split; [apply guar_refl_lists|]. rewrite app_nil_r. unfold c_cas.
    eapply (wp_cas_next h _ _ _ _ _ _ _ k); [done..| |].
    + intros m2 Hg2 Hs2 Hl2. pose proof (stays_ptr _ _ _ _ _ Hs2 Hpp) as Hpp2.
      destruct (unlink_adj h m2 prev c p k Hg2 (stays_shared _ _ _ _ Hs2 Hsh1) Hl2) as (o & HG & Ho & Hadj);
        [|by eapply stays_before|done|].
      { exists c. split; [done|]. split; [by eapply stays_shared|by apply (st_marked _ _ _ Hs2)]. }
      exists o. split; [exact HG|]. intros m3 Hg3 Hs3. apply wp_ret_env. intros m4 H4. eapply hm_inv_stays; [exact H4|].
      pose proof (PreOrder_Transitive _ _ _ Hs2 Hs3) as Hs13.
      split_and!; cbn [c_curr c_prev]; [done|by eapply stays_shared|by eapply stays_before|by eapply stays_ptr|].
      eapply seen_app; [exact Hseen1|done|]. intros seg _. eapply adj_stays; [exact Hs3|].
      destruct Hadj as [Hin|Hx]; [left; apply elem_of_app; by right|by right].
    + intros m2 x Hg2 Hs2. apply wp_ret_env. intros m3 H3. apply wp_ret_env. intros m4 H4.
      do 2 (eapply find_post_stays; [eassumption|]). split; [done|]. by eapply seen_mono; [|exact Hseen1].
Qed.

(** *** The search of Herlihy and Shavit: it only reads

    It may step over removed nodes and so miss the moment at which its answer is true.
    What it relies on is that a node of [k] that was not removed when it began stays
    reachable from where it stands, until the node is removed. *)
Section hhs.
Context (m0 : mem (K * V)) (k : K).
Definition hhs_path (p : option Z) m : Prop := forall b, live m0 b -> has_key m0 b k ->
  shared m b /\ has_key m b k /\ (live m b -> exists c, p = Some c /\ rtc (edge m) c b).
Definition hhs_gone m : Prop := forall b, live m0 b -> has_key m0 b k -> shared m b /\ ~ live m b.
Definition hhs_post (tr0 : list op) (r : FindResult) (tr : list op) m : Prop :=
  good m /\ exists found cursor, r = Some (found, cursor) /\
  if found : bool then exists c v, c_curr cursor = Some c /\ m_data m !! c = Some (k, v) /\ tr = tr0 ++ [EHas k v]
  else tr = tr0 /\ hhs_gone m.
Lemma hhs_path_stays h p m m' : rely h m m' -> good m -> ptr_ok m p k -> hhs_path p m -> hhs_path p m'.
Proof.
  intros Hr Hg Hp H b Hb Hk. destruct (H b Hb Hk) as (Hs & Hkb & Hreach). pose proof (rely_stays_lists _ _ _ Hr Hg) as Hst.
  split; [by eapply stays_shared|]. split; [by eapply stays_key|]. intros Hl. pose proof (rely_watch _ _ _ Hr Hg) as [Wd Wp].
  pose proof (Wd b Hs Hl) as Hl0. destruct (Hreach Hl0) as (c & -> & Hrt). exists c. split; [done|]. apply Wp; try done.
  by destruct (Hp c eq_refl).
Qed.
Lemma hhs_gone_stays h m m' : rely h m m' -> good m -> hhs_gone m -> hhs_gone m'.
Proof.
  intros Hr Hg H b Hb Hk. destruct (H b Hb Hk) as (Hs & Hn). split; [by eapply stays_shared, Hs; apply rely_stays_lists|].
  intros Hl. apply Hn. by eapply wa_dead; [eapply rely_watch|..].
Qed.
Lemma hhs_post_stays h tr0 r tr m m' : rely h m m' -> hhs_post tr0 r tr m -> hhs_post tr0 r tr m'.
Proof.
  intros Hr (Hg & found & cursor & -> & H). split; [by eapply rely_good|]. exists found, cursor. split; [done|]. destruct found.
  - destruct H as (c & v & E & Hd & Et). exists c, v. split; [done|]. split; [|done].
    by apply (gr_data _ _ _ (st_grows _ _ _ (rely_stays_lists _ _ _ Hr Hg))).
  - destruct H as [E H]. split; [done|]. by eapply hhs_gone_stays.
Qed.
(** From the dummy node every node of [k] that is not removed is reachable. *)
Lemma hhs_start h m hd p : rely h m0 m -> good m0 -> hs !! bucket k = Some hd -> linked m hd p 0 -> hhs_path p m.
Proof.
  intros Hr Hg Hh Hl b Hb Hk. pose proof (rely_stays_lists _ _ _ Hr Hg) as Hst. pose proof (rely_good _ _ _ Hr Hg) as Hgm.
  assert (Hkb : has_key m b k) by by eapply stays_key.
  split; [by eapply stays_shared, Hb|]. split; [done|]. intros (Hs & Hn & q & Hq).
  destruct (i_reach _ _ _ (good_inv _ Hgm) _ _ _ Hs Hn Hq Hkb) as (h0 & Hh0 & Hrt). rewrite Hh in Hh0. injection Hh0 as <-.
  apply rtc_inv in Hrt as [<-|(c & [t Hc] & Hrt)]; [destruct Hn; by eapply list_elem_of_lookup_2|].
  destruct (linked_inj _ _ _ _ _ _ Hl Hc) as [-> _]. by exists c.
Qed.
(** What the link of the current node, which holds key [kc], says. *)
Lemma hhs_read m c p t kc vc : good m -> shared m c -> (c ∉ hs) -> m_data m !! c = Some (kc, vc) -> linked m c p t ->
  hhs_path (Some c) m ->
  match cmp kc k with
  | Lt => hhs_path p m
  | Eq => t = 1 -> hhs_gone m
  | Gt => hhs_gone m
  end.
Proof.
  intros Hg Hc Hn Hd Hl Hp. assert (Hkc : has_key m c kc) by by exists vc.
  assert (Hb : forall b, live m0 b -> has_key m0 b k -> live m b -> c = b \/ (cmp kc k = Lt /\ exists c', p = Some c' /\ rtc (edge m) c' b)).
  { intros b Hb0 Hk0 Hlb. destruct (Hp b Hb0 Hk0) as (Hs & Hkb & Hr). destruct (Hr Hlb) as (c' & [= <-] & Hrt).
    destruct (rtc_before _ _ _ _ _ (good_inv _ Hg) Hc Hrt) as [->|(_ & kb & Hkb' & Hbf)]; [by left|].
    rewrite (has_key_inj _ _ _ _ Hkb' Hkb) in Hbf. destruct Hbf as [Hh|(_ & ka & Hka & Hlt & _)].
    - destruct Hn. by eapply list_elem_of_lookup_2.
    - rewrite (has_key_inj _ _ _ _ Hka Hkc) in Hlt. apply rtc_inv in Hrt as [->|(y & [t' Hy] & Hrt)]; [by left|right].
      destruct (linked_inj _ _ _ _ _ _ Hl Hy) as [-> _]. eauto. }
  assert (Hne : cmp kc k <> Eq -> forall b, live m0 b -> has_key m0 b k -> c <> b).
  { intros Hcmp b Hb0 Hk0 ->. destruct (Hp b Hb0 Hk0) as (_ & Hkb & _). apply Hcmp, cmp_eq. by eapply has_key_inj. }
  destruct (cmp kc k) eqn:E; [intros ->| |]; intros b Hb0 Hk0; destruct (Hp b Hb0 Hk0) as (Hs & Hkb & _).
  - split; [done|]. intros Hlb. destruct (Hb b Hb0 Hk0 Hlb) as [->|[? _]]; [|done]. destruct Hlb as (_ & _ & q & Hq).
    by destruct (linked_inj _ _ _ _ _ _ Hl Hq).
  - split; [done|]. split; [done|]. intros Hlb. destruct (Hb b Hb0 Hk0 Hlb) as [->|[_ H]]; [|done]. by destruct (Hne ltac:(done) b Hb0 Hk0).
  - split; [done|]. intros Hlb. destruct (Hb b Hb0 Hk0 Hlb) as [->|[? _]]; [|done]. by destruct (Hne ltac:(done) b Hb0 Hk0).
Qed.
Definition hhs_inv (tr0 : list op) (x : Cursor) (tr : list op) m : Prop :=
  good m /\ tr = tr0 /\ ptr_ok m (c_curr x) k /\ hhs_path (c_curr x) m.
Lemma hhs_inv_stays h tr0 x tr m m' : rely h m m' -> hhs_inv tr0 x tr m -> hhs_inv tr0 x tr m'.
Proof.
  intros Hr (Hg & Et & Hp & H). split; [by eapply rely_good|]. split; [done|].
  split; [by eapply stays_ptr, Hp; apply rely_stays_lists|by eapply hhs_path_stays].
Qed.
Lemma find_hhs_wp h f hd tr0 m : rely h m0 m -> good m0 -> hs !! bucket k = Some hd ->
  wp (rely h) (guar h) (find_harris_herlihy_shavit (bucket k) f k) tr0 (hhs_post tr0) m.
Proof.
  intros H0 Hg0 Hh. unfold find_harris_herlihy_shavit. eapply wp_cursor; [by eapply rely_good|done|].
  intros m1 curr H1 Hg1 Hsh Hl Hp. exists None. split; [apply guar_refl_lists|]. rewrite app_nil_r.
  apply wp_bind; [apply _|].
  apply (wp_mono _ _ _ _ (fun r tr m => hhs_post tr0 (Some r) tr m)).
  { intros r tr' m' HD m2 H2. by eapply hhs_post_stays. }
  apply (wp_loop (rely h) (guar h) (hhs_inv tr0)).
  2:{ split_and!; try done. eapply (hhs_start h); [by etransitivity|done..]. }
  clear m m1 curr H0 H1 Hg1 Hsh Hl Hp. intros [prev curr] tr m HI. cbn [c_curr c_prev].
  destruct curr as [c|].
  2:{ apply wp_ret_env. intros m1 H1. apply wp_ret_env. intros m2 H2. do 2 (eapply hhs_post_stays; [eassumption|]).
      destruct HI as (Hg & -> & _ & Hpa). split; [done|]. exists false, (mkCursor prev None). split; [done|]. split; [done|].
      intros b Hb Hk. destruct (Hpa b Hb Hk) as (Hs & _ & Hr). split; [done|]. intros Hl. by destruct (Hr Hl) as (? & ? & _). }
  pose proof HI as (Hg & -> & Hp & _). cbn [c_curr] in *. destruct (Hp c eq_refl) as (Hc & Hn & kc & vc & Hd & Ebk).
  apply wp_load_next; [done..|]. intros m1 p t H1 Hg1 Hs1 Hl Ht. cbn [fst snd].
  destruct (hhs_inv_stays _ _ _ _ _ _ H1 HI) as (_ & _ & Hp1 & Hpa1). cbn [c_curr] in *.
  pose proof (stays_shared _ _ _ _ Hs1 Hc) as Hc1. pose proof (gr_data _ _ _ (st_grows _ _ _ Hs1) _ _ Hd) as Hd1.
  pose proof (hhs_read m1 c p t kc vc Hg1 Hc1 Hn Hd1 Hl Hpa1) as Hread.
  exists (if decide (cmp kc k = Eq /\ t = 0) then Some (EHas k vc) else None). split.
  { destruct (decide _) as [[E ->]|]; [|apply guar_refl_lists]. apply cmp_eq in E as ->. apply (guar_has h m1 c p k vc); [|done].
    split; [done|]. split; [done|]. by exists p. }
  eapply wp_key_of; [done..|]. intros m2 H2 Hg2 Hs2. pose proof (gr_data _ _ _ (st_grows _ _ _ Hs2) _ _ Hd1) as Hd2.
  destruct (cmp kc k) eqn:E; (apply wp_ret_env; intros m3 H3).
  - apply wp_ret_env. intros m4 H4. do 2 (eapply hhs_post_stays; [eassumption|]). split; [done|]. cbn [fst snd].
    apply cmp_eq in E as ->. destruct Ht as [-> | ->].
    + rewrite decide_True by done. exists true, (mkCursor prev (Some c)). split; [done|]. by exists c, vc.
    + rewrite decide_False by (by intros [_ ?]). rewrite app_nil_r. exists false, (mkCursor prev (Some c)). split; [done|].
      split; [done|]. eapply hhs_gone_stays; [exact H2|done|]. by apply Hread.
  - rewrite decide_False by (by intros [? _]). rewrite app_nil_r. eapply hhs_inv_stays; [etransitivity; [exact H2|exact H3]|].
    split; [done|]. split; [done|]. split; [|exact Hread].
    eapply link_ptr; [by apply good_inv|exact Hc1|by eapply ptr_in|exact Hl].
  - rewrite decide_False by (by intros [? _]). rewrite app_nil_r. apply wp_ret_env. intros m4 H4.
    do 3 (eapply hhs_post_stays; [eassumption|]). split; [done|]. exists false, (mkCursor prev (Some c)). done.
Qed.
End hhs.

(** ** The operations, over any search that meets [find_post] *)
Definition find_ok (find : K -> M FindResult) k : Prop := forall h tr0 tr m, good m -> seen tr0 tr (fun _ => True) ->
  wp (rely h) (guar h) (find k) tr (find_post tr0 k) m.
Definition get_post tr0 k (r : option Z) (tr : list op) m : Prop := good m /\ seen tr0 tr (fun seg =>
  match r with Some a => exists v, m_data m !! a = Some (k, v) /\ EHas k v ∈ seg | None => ENot k ∈ seg end).
Definition insert_post tr0 k v (b : bool) (tr : list op) m : Prop := good m /\
  if b then exists seg, tr = tr0 ++ seg ++ [EIns k v] /\ Forall is_obs seg else seen tr0 tr (fun seg => exists v', EHas k v' ∈ seg).
Definition remove_post tr0 k (r : option Z) (tr : list op) m : Prop := good m /\
  match r with
  | Some a => exists v seg, m_data m !! a = Some (k, v) /\ tr = tr0 ++ seg ++ [ERem k v] /\ Forall is_obs seg
  | None => seen tr0 tr (fun seg => ENot k ∈ seg)
  end.
Lemma seen_start tr0 : seen tr0 tr0 (fun _ => True).
Proof. exists []. split; [by rewrite app_nil_r|]. by split. Qed.
Lemma seen_weaken tr0 tr P : seen tr0 tr P -> seen tr0 tr (fun _ => True).
Proof. by apply seen_mono. Qed.

Lemma get_wp find f h k tr0 m : find_ok find k -> good m ->
  wp (rely h) (guar h) (get f find k h) tr0 (get_post tr0 k) m.
Proof.
  intros Hf Hg. apply (wp_loop (rely h) (guar h) (fun _ tr m => good m /\ seen tr0 tr (fun _ => True)));
    [|split; [done|apply seen_start]].
  clear m Hg. intros [] tr m [Hg Hs]. apply wp_bind; [apply _|]. eapply wp_mono; [|by apply Hf]. clear m tr Hg Hs.
  intros r tr m [Hg Hs]. destruct r as [[found cursor]|].
  2:{ apply wp_ret_env. intros m1 H1. split; [by eapply rely_good|exact Hs]. }
  destruct found.
  - destruct Hs as (seg & -> & Hobs & (_ & _ & c & v & Ec & Hc & _ & Hd & Hin)). cbn in Ec. rewrite Ec. cbn [unwrap bind].
    apply wp_ret_env. intros m1 H1. apply wp_ret_env. intros m2 H2. split; [by do 2 (eapply rely_good; [eassumption|])|].
    exists seg. split; [done|]. split; [done|]. exists v. split; [|done]. pose proof (rely_good _ _ _ H1 Hg) as Hg1.
    apply (gr_data _ _ _ (st_grows _ _ _ (rely_stays_lists _ _ _ H2 Hg1))).
    by apply (gr_data _ _ _ (st_grows _ _ _ (rely_stays_lists _ _ _ H1 Hg))).
  - apply wp_ret_env. intros m1 H1. apply wp_ret_env. intros m2 H2. split; [by do 2 (eapply rely_good; [eassumption|])|].
    eapply seen_mono; [|exact Hs]. by intros seg (_ & _ & H & _).
Qed.

(** The node of an insertion, until it is linked. *)
Definition owned h m n k v : Prop := m_owner m !! n = Some h /\ m_data m !! n = Some (k, v).
Lemma owned_stays h m m' n k v : stays h m m' -> owned h m n k v -> owned h m' n k v /\ m_links m' !! next n = m_links m !! next n.
Proof.
  intros [Hg _] [Ho Hd]. destruct (gr_mine _ _ _ Hg n Ho) as [Ho' Hl]. split; [|apply Hl].
  split; [done|by apply (gr_data _ _ _ Hg)].
Qed.
Lemma wp_insert_cas {A} h n k v curr prev (f : link + link -> M A) tr Q m : good m -> owned h m n k v -> linked m n curr 0 ->
  shared m prev -> before m prev k -> after m curr k ->
  (forall m', good m' -> wp (rely h) (guar h) (f (inl (curr, 0))) (tr ++ [EIns k v]) Q m') ->
  (forall m' x, good m' -> owned h m' n k v -> wp (rely h) (guar h) (f (inr x)) tr Q m') ->
  wp (rely h) (guar h) (bind (c_cas_with_tag (next prev) (curr, 0) (Some n, 0)) f) tr Q m.
Proof.
  intros Hg Ho Hln Hsh Hb Haf Hok Hfail. apply wp_act. intros m1 H1.
  pose proof (rely_stays_lists _ _ _ H1 Hg) as Hs1. pose proof (rely_good _ _ _ H1 Hg) as Hg1.
  destruct (owned_stays _ _ _ _ _ _ Hs1 Ho) as [Ho1 El]. pose proof (stays_shared _ _ _ _ Hs1 Hsh) as Hsh1.
  destruct (i_link _ _ _ (good_inv _ Hg1) prev Hsh1) as (p' & t' & Hl & _). pose proof Hl as Hl'. unfold linked in Hl'.
  rewrite Hl'. destruct (decide ((p', t') = (curr, 0))) as [[= -> ->]|Hne].
  - exists (inl (curr, 0)), (inserted m1 prev n), (Some (EIns k v)). split; [done|].
    assert (HG : guar h (Some (EIns k v)) m1 (inserted m1 prev n)).
    { apply (guar_insert h m1 prev n curr k v); try done; [apply Ho1|apply Ho1| |by eapply stays_before|by eapply stays_after].
      unfold linked. by rewrite El. }
    split; [exact HG|]. apply Hok. by eapply guar_good.
  - exists (inr (p', t')), m1, None. split; [done|]. split; [apply guar_refl_lists|]. rewrite app_nil_r. by apply Hfail.
Qed.
(** A thread's own node survives a run that makes observations only. *)
Definition updated (tr0 tr : list op) : Prop := exists seg e, tr = tr0 ++ seg /\ e ∈ seg /\ ~ is_obs e.
Lemma wp_owned {A} h (c : M A) n k v tr0 seg Q m : good m -> owned h m n k v \/ updated tr0 (tr0 ++ seg) ->
  wp (rely h) (guar h) c (tr0 ++ seg) Q m ->
  wp (rely h) (guar h) c (tr0 ++ seg) (fun r tr m => Q r tr m /\ (owned h m n k v \/ updated tr0 tr)) m.
Proof.
  revert seg m. induction c as [a|e|B f c IH]; cbn [wp]; intros seg m Hg Ho Hw; [|done|].
  - intros m' Hr. split; [by apply Hw|]. destruct Ho as [Ho|Ho]; [left|by right].
    by destruct (owned_stays _ _ _ _ _ _ (rely_stays_lists _ _ _ Hr Hg) Ho).
  - intros m' Hr. specialize (Hw m' Hr). destruct (f m') as [[b m2]|]; [|done]. destruct Hw as (o & HG & Hw).
    exists o. split; [done|]. rewrite <- app_assoc in Hw |- *. pose proof (rely_good _ _ _ Hr Hg) as Hg'.
    apply IH; [by eapply guar_good| |done]. destruct Ho as [Ho|(s & e & E & Hin & He)].
    2:{ right. apply app_inv_head in E as <-. exists (seg ++ option_list o), e. split; [done|]. split; [|done].
        apply elem_of_app. by left. }
    destruct (owned_stays _ _ _ _ _ _ (rely_stays_lists _ _ _ Hr Hg) Ho) as [[Ho' Hd'] _].
    destruct HG as [_ HG]. destruct (HG Hg') as [HS HK]. destruct (ke_owner _ _ _ _ HK n Ho') as [Hk|(e & -> & He)].
    + left. split; [done|]. by apply (gr_data _ _ _ (st_grows _ _ _ (HS (S h) ltac:(lia)))).
    + right. exists (seg ++ [e]), e. split; [done|]. split; [apply elem_of_app; right; by left|done].
Qed.
Lemma seen_updated tr0 tr P : seen tr0 tr P -> ~ updated tr0 tr.
Proof.
  intros (seg & -> & Hf & _) (seg' & e & E & Hin & He). apply app_inv_head in E as <-.
  apply He. by eapply Forall_forall in Hf.
Qed.
Lemma insert_wp find f h k v tr0 m : find_ok find k -> good m ->
  wp (rely h) (guar h) (insert f find k v h) tr0 (insert_post tr0 k v) m.
Proof.
  intros Hf Hg. unfold insert, node_new, c_new. cbn [bind atomic]. apply wp_act. intros m1 H1.
  pose proof (rely_good _ _ _ H1 Hg) as Hg1. set (n := fresh_addr m1). eexists n, _, None. split; [done|].
  split; [apply guar_new_lists|]. rewrite app_nil_r.
  assert (Hn : good (add_node h n (k, v) [(None, 0)] m1)) by (eapply guar_good; [apply guar_new_lists|done]).
  apply (wp_loop (rely h) (guar h) (fun _ tr m => good m /\ owned h m n k v /\ seen tr0 tr (fun _ => True))).
  2:{ split; [done|]. split; [|apply seen_start]. split; cbn; by rewrite lookup_insert_eq. }
  clearbody n. clear m m1 Hg Hg1 H1 Hn. intros [] tr m (Hg & Ho & Hs).
  eapply (wp_key_of h n); [done|apply Ho|]. intros m1 H1 Hg1 Hs1. destruct (owned_stays _ _ _ _ _ _ Hs1 Ho) as [Ho1 _].
  clear m Hg Ho H1 Hs1. apply wp_bind; [apply _|].
  eapply (wp_mono _ _ _ _ (fun r tr m => find_post tr0 k r tr m /\ (owned h m n k v \/ updated tr0 tr))).
  2:{ destruct Hs as (seg & -> & Hobs & _). apply wp_owned; [done|by left|]. apply Hf; [done|by exists seg]. }
  clear m1 tr Hg1 Hs Ho1. intros r tr m [[Hg Hs] Ho].
  assert (Hown : owned h m n k v) by (destruct Ho as [Ho|Ho]; [done|by destruct (seen_updated _ _ _ Hs)]). clear Ho.
  destruct r as [[found cursor]|].
  2:{ apply wp_ret_env. intros m1 H1. split; [by eapply rely_good|]. split; [|exact Hs].
      by destruct (owned_stays _ _ _ _ _ _ (rely_stays_lists _ _ _ H1 Hg) Hown). }
  destruct found.
  { apply wp_ret_env. intros m1 H1. apply wp_ret_env. intros m2 H2. split; [by do 2 (eapply rely_good; [eassumption|])|].
    eapply seen_mono; [|exact Hs]. intros seg (_ & _ & c & v' & _ & _ & _ & _ & Hin). by exists v'. }
  destruct Hs as (seg & -> & Hobs & Hsh & Hb & _ & _ & Haf). cbn [fst snd] in *.
  unfold c_store, modify. apply wp_act. intros m1 H1. pose proof (rely_good _ _ _ H1 Hg) as Hg1.
  pose proof (rely_stays_lists _ _ _ H1 Hg) as Hs1. destruct (owned_stays _ _ _ _ _ _ Hs1 Hown) as [Ho1 _].
  assert (HG : guar h None m1 (set_link (next n) (c_curr cursor, 0) m1)) by by apply guar_store_lists, Ho1.
  eexists tt, _, None. split; [done|]. split; [exact HG|]. rewrite app_nil_r.
  pose proof (guar_good _ _ _ _ HG Hg1) as Hg2. apply (wp_insert_cas h n k v); try done.
  - exact (linked_set_eq m1 n (c_curr cursor, 0)).
  - exact (stays_shared _ _ _ _ Hs1 Hsh).
  - exact (stays_before _ _ _ _ _ Hs1 Hb).
  - exact (stays_after _ _ _ _ _ Hs1 Haf).
  - intros m2 Hg3. apply wp_ret_env. intros m3 H3. apply wp_ret_env. intros m4 H4.
    split; [by do 2 (eapply rely_good; [eassumption|])|]. exists seg. by rewrite <- app_assoc.
  - intros m2 x Hg3 Ho3. apply wp_ret_env. intros m3 H3. split; [by eapply rely_good|].
    split; [by destruct (owned_stays _ _ _ _ _ _ (rely_stays_lists _ _ _ H3 Hg3) Ho3)|]. by exists seg.
Qed.
Lemma remove_wp find f h k tr0 m : find_ok find k -> good m ->
  wp (rely h) (guar h) (remove f find k h) tr0 (remove_post tr0 k) m.
Proof.
  intros Hf Hg. apply (wp_loop (rely h) (guar h) (fun _ tr m => good m /\ seen tr0 tr (fun _ => True)));
    [|split; [done|apply seen_start]].
  clear m Hg. intros [] tr m [Hg Hs]. apply wp_bind; [apply _|]. eapply wp_mono; [|by apply Hf]. clear m tr Hg Hs.
  intros r tr m [Hg Hs]. destruct r as [[found cursor]|].
  2:{ apply wp_ret_env. intros m1 H1. split; [by eapply rely_good|exact Hs]. }
  destruct found; cbn [negb].
  2:{ apply wp_ret_env. intros m1 H1. apply wp_ret_env. intros m2 H2. split; [by do 2 (eapply rely_good; [eassumption|])|].
      eapply seen_mono; [|exact Hs]. by intros seg (_ & _ & H & _). }
  destruct Hs as (seg & -> & Hobs & (Hsh & Hb & c & v & Ec & Hc & Hn & Hd & _)). cbn [fst snd] in *. rewrite Ec.
  cbn [unwrap bind]. apply wp_act. intros m1 H1. pose proof (rely_good _ _ _ H1 Hg) as Hg1.
  pose proof (rely_stays_lists _ _ _ H1 Hg) as Hs1. pose proof (stays_shared _ _ _ _ Hs1 Hc) as Hc1.
  pose proof (gr_data _ _ _ (st_grows _ _ _ Hs1) _ _ Hd) as Hd1.
  destruct (i_link _ _ _ (good_inv _ Hg1) c Hc1) as (p & t & Hl & Ht & _). pose proof Hl as Hl'. unfold linked in Hl'.
  rewrite Hl'. destruct Ht as [-> | ->]; cbn [fst snd].
  - assert (Hlv : live m1 c) by (split; [done|]; split; [done|]; by exists p).
    pose proof (guar_mark h m1 c p k v Hlv Hl Hd1) as HG.
    eexists _, _, (Some (ERem k v)). split; [done|]. split; [exact HG|]. change (0 =? 1) with false. cbn [snd].
    set (m2 := set_link (next c) (p, Z.lor 0 1) m1) in *. pose proof (guar_good _ _ _ _ HG Hg1) as Hg2.
    assert (Hin2 : in_list m2 c k) by (right; split; [done|]; exists k; split; [by exists v|done]).
    assert (Hsk : skips m2 (Some c) p).
    { apply rtc_once. exists c. split; [done|]. split; [exact Hc1|exact (linked_set_eq m1 c (p, 1))]. }
    pose proof (stays_shared _ _ _ _ Hs1 Hsh : shared m2 (c_prev cursor)) as Hsh2.
    eapply (wp_cas_next h _ _ _ _ _ _ _ k); [done|exact Hsh2|
      eapply (link_ptr m2 c p 1); [by apply good_inv|exact Hc1|done|exact (linked_set_eq m1 c (p, 1))]| |].
    + intros m3 Hg3 Hs3 Hl3. exists None. split.
      { eapply guar_unlink; [|exact Hl3|exact (stays_skips _ _ _ _ _ Hs3 Hsk)].
        exact (stays_shared _ _ _ _ Hs3 Hsh2). }
      intros m4 Hg4 Hs4. rewrite app_nil_r. apply wp_ret_env. intros m5 H5. apply wp_ret_env. intros m6 H6.
      split; [by do 2 (eapply rely_good; [eassumption|])|]. exists v, seg. rewrite <- app_assoc. split; [|done].
      pose proof (rely_good _ _ _ H5 Hg4) as Hg5.
      do 2 (eapply gr_data; [apply st_grows; eapply rely_stays_lists; eassumption|]).
      eapply gr_data; [exact (st_grows _ _ _ Hs4)|]. eapply gr_data; [exact (st_grows _ _ _ Hs3)|]. exact Hd1.
    + intros m3 x Hg3 Hs3. apply wp_ret_env. intros m5 H5. apply wp_ret_env. intros m6 H6.
      split; [by do 2 (eapply rely_good; [eassumption|])|]. exists v, seg. rewrite <- app_assoc. split; [|done].
      pose proof (rely_good _ _ _ H5 Hg3) as Hg5.
      do 2 (eapply gr_data; [apply st_grows; eapply rely_stays_lists; eassumption|]).
      eapply gr_data; [exact (st_grows _ _ _ Hs3)|]. exact Hd1.
  - eexists _, m1, None. split.
    { f_equal. f_equal. unfold set_link. destruct m1. cbn in *. f_equal. change (Z.lor 1 1) with 1. by rewrite insert_id. }
    split; [apply guar_refl_lists|]. rewrite app_nil_r. cbn. intros m2 H2. split; [by eapply rely_good|]. by exists seg.
Qed.

(** ** Clients *)
Inductive algorithm := Harris | HarrisMichael | HarrisHerlihyShavit.
Inductive call := CGet (al : algorithm) (k : K) | CInsert (al : algorithm) (k : K) (v : V) | CRemove (al : algorithm) (k : K).
#[export] Instance algorithm_eq_dec : EqDecision algorithm.
Proof. solve_decision. Defined.
(** A completed call with its result. *)
Inductive outcome := RGet (al : algorithm) (k : K) (r : option V) | RInsert (k : K) (v : V) (r : bool) | RRemove (k : K) (r : option V).
Definition map_of (al : algorithm) (b fuel : nat) : ConcurrentMap (K := K) (V := V) :=
  match al with Harris => HList b fuel | HarrisMichael => HMList b fuel | HarrisHerlihyShavit => HHSList b fuel end.
Definition borrow_opt (r : option Z) : M (option V) :=
  match r with Some node => v <- vholder_borrow node ; Ret (Some v) | None => Ret None end.
Definition exec (h fuel : nat) (c : call) : M outcome :=
  match c with
  | CGet al k => r <- cm_get (map_of al (bucket k) fuel) k h ; x <- borrow_opt r ; Ret (RGet al k x)
  | CInsert al k v => b <- cm_insert (map_of al (bucket k) fuel) k v h ; Ret (RInsert k v b)
  | CRemove al k => r <- cm_remove (map_of al (bucket k) fuel) k h ; x <- borrow_opt r ; Ret (RRemove k x)
  end.
Fixpoint client (h fuel : nat) (cs : list call) : M (list outcome) :=
  match cs with
  | [] => Ret []
  | c :: cs' => e <- exec h fuel c ; es <- client h fuel cs' ; Ret (e :: es)
  end.
(** What a call has done when it returns: a successful update is its own step, the last one;
    every other result was true of the map at a moment of the call, which is a step of the
    call itself, except when a wait-free [get] misses its key. *)
Definition justified (r : outcome) (seg : list op) : Prop :=
  match r with
  | RGet _ k (Some v) => Forall is_obs seg /\ EHas k v ∈ seg
  | RGet HarrisHerlihyShavit _ None => seg = []
  | RGet _ k None => Forall is_obs seg /\ ENot k ∈ seg
  | RInsert k v true => exists obs, seg = obs ++ [EIns k v] /\ Forall is_obs obs
  | RInsert k v false => Forall is_obs seg /\ exists v', EHas k v' ∈ seg
  | RRemove k (Some v) => exists obs, seg = obs ++ [ERem k v] /\ Forall is_obs obs
  | RRemove k None => Forall is_obs seg /\ ENot k ∈ seg
  end.
(** What a call may answer: an update that succeeds changes the map once, every other call not at
    all, and its answer was true of the map in a state of the call. *)
Definition result_of (c : call) (r : outcome) : Prop :=
  match c, r with
  | CGet al k, RGet al' k' _ => al' = al /\ k' = k
  | CInsert _ k v, RInsert k' v' _ => k' = k /\ v' = v
  | CRemove _ k, RRemove k' _ => k' = k
  | _, _ => False
  end.
Definition answered (c : call) (r : outcome) (tr : list op) (As : list (gmap K V)) : Prop :=
  result_of c r /\
  match r with
  | RGet _ k x => updates tr = [] /\ exists A, A ∈ As /\ A !! k = x
  | RInsert k v true => updates tr = [EIns k v]
  | RInsert k v false => updates tr = [] /\ exists A, A ∈ As /\ is_Some (A !! k)
  | RRemove k (Some v) => updates tr = [ERem k v]
  | RRemove k None => updates tr = [] /\ exists A, A ∈ As /\ A !! k = None
  end.
(** What the rules below show of a call that began in [m]. *)
Definition exec_post m (c : call) (r : outcome) (seg : list op) m' : Prop := good m' /\ result_of c r /\ justified r seg /\
  match r with RGet HarrisHerlihyShavit k None => hhs_gone m k m' | _ => True end.

Section clients.
Context (Hbuckets : forall k, exists hd, hs !! bucket k = Some hd).
Lemma wp_borrow {A} h a k v (f : option V -> M A) tr Q m : good m -> m_data m !! a = Some (k, v) ->
  (forall m', good m' -> wp (rely h) (guar h) (f (Some v)) tr Q m') ->
  wp (rely h) (guar h) (bind (borrow_opt (Some a)) f) tr Q m.
Proof.
  intros Hg Hd H. unfold borrow_opt, vholder_borrow, c_deref. cbn [bind atomic]. apply wp_act. intros m' Hm.
  exists (k, v), m', None. rewrite (gr_data _ _ _ (st_grows _ _ _ (rely_stays_lists _ _ _ Hm Hg)) _ _ Hd). split; [done|].
  split; [apply guar_refl_lists|]. rewrite app_nil_r. apply H. by eapply rely_good.
Qed.
Lemma find_ok_alg al f k : exists find, find_ok find k /\
  (al <> HarrisHerlihyShavit -> cm_get (map_of al (bucket k) f) k = get f find k) /\
  (forall v, cm_insert (map_of al (bucket k) f) k v = insert f find k v) /\
  cm_remove (map_of al (bucket k) f) k = remove f find k.
Proof using Hbuckets Default0 Default1.
  destruct (Hbuckets k) as [hd Hh].
  destruct al; [exists (find_harris (bucket k) f)|exists (find_harris_michael (bucket k) f)|exists (find_harris (bucket k) f)];
    (split; [|done]); intros h tr0 tr m Hg Hs; first [by eapply find_harris_wp|by eapply find_harris_michael_wp].
Qed.
Lemma exec_get_wp h f al k tr m : al <> HarrisHerlihyShavit -> good m -> wp (rely h) (guar h) (exec h f (CGet al k)) tr
  (fun r tr' m' => exists seg, tr' = tr ++ seg /\ exec_post m (CGet al k) r seg m') m.
Proof using Hbuckets Default0 Default1.
  intros Hal Hg. destruct (find_ok_alg al f k) as (find & Hf & E1 & _ & _). cbn [exec]. rewrite E1 by done.
  apply wp_bind; [apply _|]. eapply wp_mono; [|by apply (get_wp find f h k)]. intros [a|] tr' m' [Hg' (seg & -> & Hobs & Hr)].
  - destruct Hr as (v & Hd & Hin). eapply wp_borrow; [done|exact Hd|]. intros m2 Hg2. apply wp_ret_env. intros m3 H3.
    exists seg. split; [done|]. split; [by eapply rely_good|]. by destruct al.
  - cbn. intros m3 H3. exists seg. split; [done|]. split; [by eapply rely_good|]. by destruct al.
Qed.
(** The wait-free [get], in full. *)
Lemma exec_hhs_wp h f k tr m : good m -> wp (rely h) (guar h) (exec h f (CGet HarrisHerlihyShavit k)) tr
  (fun r tr' m' => good m' /\ exists x, r = RGet HarrisHerlihyShavit k x /\
     match x with Some v => tr' = tr ++ [EHas k v] | None => tr' = tr /\ hhs_gone m k m' end) m.
Proof using Hbuckets Default0 Default1.
  intros Hg. destruct (Hbuckets k) as [hd Hh]. cbn [exec map_of HHSList cm_get]. unfold harris_herlihy_shavit_get, get.
  apply wp_bind; [apply _|]. set (Q := fun r tr' m' => match r with
    | Some a => good m' /\ exists v, m_data m' !! a = Some (k, v) /\ tr' = tr ++ [EHas k v]
    | None => good m' /\ tr' = tr /\ hhs_gone m k m' end). apply (wp_mono _ _ _ _ Q); subst Q; cbv beta.
  { intros [a|] tr' m' [Hg' Hr].
    - destruct Hr as (v & Hd & ->). eapply wp_borrow; [done|exact Hd|]. intros m2 Hg2. apply wp_ret_env. intros m3 H3.
      split; [by eapply rely_good|]. by exists (Some v).
    - destruct Hr as [-> Hr]. cbn. intros m3 H3. split; [by eapply rely_good|]. exists None. split; [done|]. split; [done|].
      by eapply hhs_gone_stays. }
  apply (wp_loop (rely h) (guar h) (fun _ tr' m' => tr' = tr /\ rely h m m')); [|done].
  intros [] tr' m' [-> H']. apply wp_bind; [apply _|]. eapply wp_mono; [|by eapply find_hhs_wp].
  intros r tr' m2 (Hg2 & found & cursor & -> & Hr). destruct found.
  - destruct Hr as (c & v & E & Hd & ->). rewrite E. cbn [unwrap bind]. apply wp_ret_env. intros m3 H3. apply wp_ret_env. intros m4 H4.
    assert (H24 : rely h m2 m4) by by etransitivity. split; [by eapply rely_good|]. exists v. split; [|done].
    by apply (gr_data _ _ _ (st_grows _ _ _ (rely_stays_lists _ _ _ H24 Hg2))).
  - destruct Hr as [-> Hr]. apply wp_ret_env. intros m3 H3. apply wp_ret_env. intros m4 H4.
    assert (H24 : rely h m2 m4) by by etransitivity. split; [by eapply rely_good|]. split; [done|]. by eapply hhs_gone_stays.
Qed.
Lemma exec_wp_lists h f c tr m : good m -> wp (rely h) (guar h) (exec h f c) tr
  (fun r tr' m' => exists seg, tr' = tr ++ seg /\ exec_post m c r seg m') m.
Proof using Hbuckets Default0 Default1.
  intros Hg. destruct c as [al k|al k v|al k].
  { destruct (decide (al = HarrisHerlihyShavit)) as [->|Hne]; [|by apply exec_get_wp].
    eapply wp_mono; [|by apply exec_hhs_wp]. intros r tr' m' (Hg' & [v|] & -> & Hr).
    - exists [EHas k v]. split; [done|]. split; [done|]. split; [done|]. split; [|done]. split; [by repeat constructor|by left].
    - exists []. rewrite app_nil_r. destruct Hr. by split. }
  all: destruct (find_ok_alg al f k) as (find & Hf & _ & E2 & E3); cbn [exec]; rewrite ?E2, ?E3; (apply wp_bind; [apply _|]).
  - eapply wp_mono; [|by apply (insert_wp find f h k v)]. intros b tr' m' [Hg' Hr]. apply wp_ret_env. intros m3 H3.
    assert (Hg3 : good m3) by by eapply rely_good. destruct b.
    + destruct Hr as (seg & -> & Hobs). exists (seg ++ [EIns k v]). split; [done|]. split; [done|]. split; [done|]. split; [|done]. by exists seg.
    + destruct Hr as (seg & -> & Hobs & Hr). by exists seg.
  - eapply wp_mono; [|by apply (remove_wp find f h k)]. intros [a|] tr' m' [Hg' Hr].
    + destruct Hr as (v & seg & Hd & -> & Hobs). eapply wp_borrow; [done|exact Hd|]. intros m2 Hg2. apply wp_ret_env.
      intros m3 H3. exists (seg ++ [ERem k v]). split; [done|]. split; [by eapply rely_good|]. split; [done|]. split; [|done]. by exists seg.
    + destruct Hr as (seg & -> & Hobs & Hr). cbn. intros m3 H3. exists seg. split; [done|]. split; [by eapply rely_good|done].
Qed.
Lemma client_wp_lists h f cs tr m : good m -> wp (rely h) (guar h) (client h f cs) tr (fun _ _ _ => True) m.
Proof using Hbuckets Default0 Default1.
  revert tr m. induction cs as [|c cs IH]; intros tr m Hg; cbn [client].
  - by apply wp_ret_env.
  - apply wp_bind; [apply _|]. eapply wp_mono; [|by apply exec_wp_lists]. intros r tr' m' (seg & _ & Hg' & _).
    apply wp_bind; [apply _|]. eapply wp_mono; [|by apply IH]. intros rs tr2 m2 _. by apply wp_ret_env.
Qed.

(** Between two states of an execution the map held [r] for [k]. *)
Definition held_between k (r : option V) (c c' : list (M (list outcome)) * mem (K * V)) : Prop :=
  exists ps1 m1 A, rtc pstep c (ps1, m1) /\ rtc pstep (ps1, m1) c' /\ holds m1 A /\ A !! k = r.

#[local] Instance live_dec m b : Decision (live m b).
Proof.
  unfold ListsCorrect.live, shared, linked. destruct (m_links m !! next b) as [[p t]|]; [|right; intros (_ & _ & q & Hq); done].
  destruct (decide (t = 0)) as [->|Ht]; [|right; intros (_ & _ & q & [= -> Hq]); done].
  destruct (decide ((is_Some (m_data m !! b) /\ m_owner m !! b = None) /\ (b ∉ hs))) as [[H1 H2]|H]; [left|right].
  - split; [done|]. split; [done|]. by exists p.
  - intros (H1 & H2 & _). by apply H.
Defined.
(** *** The course of a call *)
Lemma guar_holds_lists h o m m' A : guar h o m m' -> holds m A -> exists A', effect spec o A A' /\ holds m' A'.
Proof. intros [HG _] HA. specialize (HG A HA). destruct o as [e|]; [exact HG|by exists A]. Qed.
(** A node that stops being live in the course of a call has its key removed from the map in it. *)
Lemma course_dead m0 A0 t As m A b k : course spec guar holds m0 A0 t As m A -> live m0 b -> has_key m0 b k ->
  has_key m b k /\ (~ live m b -> exists B, B ∈ As /\ B !! k = None).
Proof.
  intros Hc Hb Hk. induction Hc as [m A HA|j o m0 A0 t As m A m' A' Hc IH HG He HA]; [done|].
  destruct (IH Hb Hk) as [Hk' Hd]. destruct (course_now _ _ _ _ _ _ _ _ _ Hc) as [HA1 _].
  destruct HG as [_ HG]. destruct (HG ltac:(by exists A)) as [Hs [_ Hke _]].
  split; [eapply stays_key, Hk'; apply (Hs (S j)); lia|]. intros Hn.
  destruct (decide (live m b)) as [Hl|Hl].
  - destruct (Hke b Hl) as [?|(k' & v & -> & Hk2)]; [done|]. rewrite (has_key_inj _ _ _ _ Hk2 Hk') in He.
    exists A'. split; [apply elem_of_app; right; by left|]. inversion He; subst. apply lookup_delete_eq.
  - destruct (Hd Hl) as (B & HB & E). exists B. split; [apply elem_of_app; by left|done].
Qed.
Lemma course_missed m0 A0 t As m A k : course spec guar holds m0 A0 t As m A -> A0 ∈ As -> holds m0 A0 -> hhs_gone m0 k m ->
  exists B, B ∈ As /\ B !! k = None.
Proof.
  intros Hc Hin HA0 Hgone. destruct (A0 !! k) as [v|] eqn:E; [|by exists A0].
  apply (proj2 HA0) in E as (b & Hb & Hd). assert (Hk : has_key m0 b k) by by exists v.
  destruct (Hgone b Hb Hk) as [_ Hn]. by apply (course_dead _ _ _ _ _ _ _ _ Hc Hb Hk).
Qed.
Lemma exec_post_answered i c m0 A0 r t As m A : course spec guar holds m0 A0 t As m A ->
  exec_post m0 c r (proj i t) m -> answered c r (proj i t) As.
Proof.
  intros Hc (_ & Hr & Hj & Hx). split; [done|].
  assert (Hev : forall e, e ∈ proj i t -> is_obs e -> exists B, B ∈ As /\ spec e B B).
  { intros e He Ho. destruct (course_event _ _ _ _ _ _ _ _ _ _ _ Hc He) as (B & B' & HB & Hs & _). exists B. split; [done|]. by inversion Hs; subst. }
  assert (Hhas : forall k v, EHas k v ∈ proj i t -> exists B, B ∈ As /\ B !! k = Some v).
  { intros k v He. destruct (Hev _ He I) as (B & HB & Hs). exists B. split; [done|]. by inversion Hs. }
  assert (Hnot : forall k, ENot k ∈ proj i t -> exists B, B ∈ As /\ B !! k = None).
  { intros k He. destruct (Hev _ He I) as (B & HB & Hs). exists B. split; [done|]. by inversion Hs. }
  destruct (course_start _ _ _ _ _ _ _ _ _ Hc) as [HA0 Hin].
  destruct r as [al k [v|]|k v [|]|k [v|]]; cbn [justified] in Hj.
  - destruct al; destruct Hj as [Hobs He]; (split; [by apply updates_obs|by apply Hhas]).
  - destruct al; [destruct Hj as [Hobs He]; split; [by apply updates_obs|by apply Hnot]..|].
    rewrite Hj. split; [done|]. exact (course_missed _ _ _ _ _ _ _ Hc Hin HA0 Hx).
  - destruct Hj as (obs & -> & Hobs). apply updates_last; [done|by intros []].
  - destruct Hj as [Hobs [v' He]]. split; [by apply updates_obs|]. destruct (Hhas _ _ He) as (B & HB & E). exists B. by rewrite E.
  - destruct Hj as (obs & -> & Hobs). apply updates_last; [done|by intros []].
  - destruct Hj as [Hobs He]. split; [by apply updates_obs|by apply Hnot].
Qed.
Lemma lists_run f m0 A0 ls (P : gmap nat (call * M outcome)) m : holds m0 A0 -> hrun (fun h c => exec h f c) ls (∅, m0) (P, m) ->
  (exists X A, orun spec answered ls (∅, A0) (X, A) /\ holds m A) /\
  (forall h c q, P !! h = Some (c, q) -> faultless q m).
Proof using Hbuckets Default0 Default1.
  intros HA Hr.
  destruct (linear_sound (fun h c => exec h f c) spec answered rely guar holds (fun _ c m r tr m' => exec_post m c r tr m') _ guar_rely_lists guar_holds_lists)
    with (ls := ls) (s := m0) (x := A0) (P' := P) (s' := m) as (X & A & Ho & HA' & Hf); [| |done|done|].
  - intros i c m1 A1 HA1. eapply wp_mono; [|apply exec_wp_lists; by exists A1]. by intros r tr' m' (seg & -> & H).
  - intros. by eapply exec_post_answered.
  - split; [by exists X, A|done].
Qed.

(** C10. The Harris and Harris-Michael lists are linearizable maps: every execution of any number of threads that call
    [get], [insert] and [remove] whenever they like, on lists that may share the memory as the buckets of a hash map do
    and with any of the searches, is one of an atomic map.  A successful insertion or removal changes that map once,
    between its beginning and its return, as the sequential one does; every other call changes nothing and returns what
    is true of the map in a state between its beginning and its return; the nodes left in the lists are the atomic map.
    No thread dereferences a dangling node or link or panics. *)
Theorem lists_linearizable f m0 A0 ls (P : gmap nat (call * M outcome)) m : holds m0 A0 -> hrun (fun h c => exec h f c) ls (∅, m0) (P, m) ->
  (exists X A, orun spec answered ls (∅, A0) (X, A) /\ holds m A) /\
  (forall h c q, P !! h = Some (c, q) -> faultless q m).
Proof using Hbuckets Default0 Default1. apply lists_run. Qed.

(** *** A wait-free [get] among any other threads *)
Definition reader_post (n : nat) k m (i : nat) (rs : list outcome) (tr : list op) m' : Prop :=
  i = n -> exists x, rs = [RGet HarrisHerlihyShavit k x] /\
    match x with Some v => tr = [EHas k v] | None => hhs_gone m k m' end.
Lemma reader_wp n f k m : good m ->
  wp (rely n) (guar n) (client n f [CGet HarrisHerlihyShavit k]) [] (reader_post n k m n) m.
Proof using Hbuckets Default0 Default1.
  intros Hg. cbn [client]. apply wp_bind; [apply _|]. eapply wp_mono; [|by apply exec_hhs_wp].
  intros r tr m1 (Hg1 & x & -> & Hx). cbn [bind]. apply wp_ret_env. intros m2 H2 _. exists x. split; [done|].
  destruct x; [done|]. eapply hhs_gone_stays; [exact H2|done|apply Hx].
Qed.
Lemma gsteps_good m t m' : gsteps guar m t m' -> good m -> good m'.
Proof. induction 1 as [|i o s1 s2 t s3 HG _ IH]; [done|]. intros Hg. apply IH. by eapply guar_good. Qed.
Lemma gsteps_key m t m' b k : gsteps guar m t m' -> good m -> has_key m b k -> has_key m' b k.
Proof.
  induction 1 as [|i o s1 s2 t s3 HG _ IH]; [done|]. intros Hg Hk. apply IH; [by eapply guar_good|].
  destruct HG as [_ HG]. destruct (HG Hg) as [Hs _]. eapply stays_key; [|exact Hk]. apply (Hs (S i)). lia.
Qed.
Lemma pool_wp_lists f css m0 A0 ps m n k : holds m0 A0 ->
  rtc pstep (imap (fun h cs => client h f cs) css, m0) (ps, m) -> n = length ps ->
  good m /\ exists tr : nat -> list op, tr n = [] /\ forall i (p : M (list outcome)), (ps ++ [client n f [CGet HarrisHerlihyShavit k]]) !! i = Some p ->
    wp (rely i) (guar i) p (tr i) (reader_post n k m i) m.
Proof using Hbuckets Default0 Default1.
  intros HA Hrtc ->. assert (Hg0 : good m0) by by exists A0.
  apply (pool_sound rely guar (fun _ _ _ _ => True) _ _ _ _ (fun _ => [])) in Hrtc as (t & Ht & Hend);
    [|apply _|by intros; eapply guar_rely_lists|].
  2: { intros h p Hp. rewrite list_lookup_imap in Hp. destruct (css !! h) as [cs|]; [|done]. injection Hp as <-.
    by apply client_wp_lists. }
  assert (Hg : good m) by by eapply gsteps_good. split; [done|]. exists (fun i => if decide (i = length ps) then [] else proj i t). rewrite decide_True by done. split; [done|].
  intros i p Hi. destruct (decide (i = length ps)) as [->|Hne].
  - rewrite list_lookup_middle in Hi by done. injection Hi as <-. by apply reader_wp.
  - rewrite lookup_app_l in Hi.
    2:{ apply lookup_lt_Some in Hi. rewrite length_app in Hi. cbn in Hi. lia. }
    eapply wp_mono; [|by apply Hend]. intros rs tr' m1 _ E. by destruct (Hne E).
Qed.

Lemma waitfree_run f (css : list (list call)) k r m0 A0 ps m ps' m' : holds m0 A0 ->
  rtc pstep (imap (fun h cs => client h f cs) css, m0) (ps, m) ->
  rtc pstep (ps ++ [client (length ps) f [CGet HarrisHerlihyShavit k]], m) (ps', m') ->
  ps' !! length ps = Some (Ret [RGet HarrisHerlihyShavit k r]) ->
  held_between k r (ps ++ [client (length ps) f [CGet HarrisHerlihyShavit k]], m) (ps', m').
Proof using Hbuckets Default0 Default1.
  intros HA Hrtc1 Hrtc Hret. destruct (pool_wp_lists f css m0 A0 ps m _ k HA Hrtc1 eq_refl) as ([A Am] & tr & Etr & Hps).
  assert (Hpre : forall i, PreOrder (rely i)) by apply _.
  assert (Hrg : forall i j o x y, i <> j -> guar j o x y -> rely i x y) by (intros; by eapply guar_rely_lists).
  destruct (pool_trace rely guar _ _ _ _ _ tr Hpre Hrg Hps Hrtc) as (t & _ & Hend & Hev).
  pose proof (Hend _ _ Hret) as Hq. apply wp_ret_now in Hq; [|apply _].
  destruct (Hq eq_refl) as (x & [= <-] & Hx). clear Hq. rewrite Etr in Hx. cbn [app] in Hx. destruct r as [v|].
  - assert (Hin : (length ps, EHas k v) ∈ t).
    { assert (E : EHas k v ∈ proj (length ps) t) by (rewrite Hx; by left).
      apply list_elem_of_fmap in E as ([i e] & Ee & Hin). apply list_elem_of_filter in Hin as [Ei Hin]. cbn in *. by subst. }
    destruct (Hev _ _ Hin) as (ps1 & m1 & ps2 & m2 & H1 & H2 & [HG _] & H3).
    destruct (pool_trace rely guar _ _ _ _ _ tr Hpre Hrg Hps H1) as (t1 & Ht1 & _).
    destruct (gsteps_good _ _ _ Ht1 ltac:(by exists A)) as [A1 HA1]. destruct (HG A1 HA1) as (B & Hsp & _).
    exists ps1, m1, A1. split; [done|]. split; [by eapply rtc_l|]. split; [done|]. by inversion Hsp.
  - destruct (A !! k) as [v|] eqn:E; [|by exists (ps ++ [client (length ps) f [CGet HarrisHerlihyShavit k]]), m, A].
    apply (proj2 Am) in E as (b & Hb & Hd). assert (Hk : has_key m b k) by by exists v.
    destruct (Hx b Hb Hk) as [_ Hnot].
    destruct (pool_transition rely guar _ (fun x => live x b) _ _ _ _ tr Hpre Hrg Hps Hrtc Hb Hnot)
      as (ps1 & m1 & i & o & ps2 & m2 & H1 & H2 & [HG HK] & Hl1 & Hl2 & H3).
    destruct (pool_trace rely guar _ _ _ _ _ tr Hpre Hrg Hps H1) as (t1 & Ht1 & _).
    pose proof (gsteps_good _ _ _ Ht1 ltac:(by exists A)) as Hg1. destruct (HK Hg1) as [_ [_ Hke _]].
    destruct (Hke b Hl1) as [?|(k' & v' & -> & Hk')]; [done|]. destruct Hg1 as [A1 HA1]. destruct (HG A1 HA1) as (B & Hsp & HB).
    pose proof (gsteps_key _ _ _ _ _ Ht1 ltac:(by exists A) Hk) as Hk1.
    rewrite (has_key_inj _ _ _ _ Hk' Hk1) in Hsp. exists ps2, m2, B. split; [by eapply rtc_r|]. split; [done|]. split; [done|].
    inversion Hsp; subst. apply lookup_delete_eq.
Qed.

(** C11. The wait-free [get] of Herlihy and Shavit is linearizable in every interleaving with any other threads.
    A thread begins a [get] of key [k] in any state that any number of threads, making any calls on the lists with
    any of the searches, can reach.  Whenever it has returned, what it returned was what the map held for [k] in a
    state between its beginning and its end; in particular a node it reaches after the node was removed, or misses
    because of steps over removed nodes, does not make it wrong. *)
Theorem waitfree_get_linearizable f (css : list (list call)) k r m0 A0 ps m ps' m' : holds m0 A0 ->
  rtc pstep (imap (fun h cs => client h f cs) css, m0) (ps, m) ->
  rtc pstep (ps ++ [client (length ps) f [CGet HarrisHerlihyShavit k]], m) (ps', m') ->
  ps' !! length ps = Some (Ret [RGet HarrisHerlihyShavit k r]) ->
  held_between k r (ps ++ [client (length ps) f [CGet HarrisHerlihyShavit k]], m) (ps', m').
Proof using Hbuckets Default0 Default1. apply waitfree_run. Qed.
End clients.
End lin.
