(* ===== verification/HashMap.v ===== *)
(** * The hash map, from its creation ([examples/ds/lists.rs])

    The lists and the hash map as [new] leaves them, the calls of the hash map, and
    executions of both. *)
From S2P Require Import Prelude Prog Linear Managed Lists ListsCorrect ListsLin.
#[local] Open Scope Z_scope.
#[local] Open Scope prog_scope.

Section hashmap.
Context {K V : Type} `{!Ord K, !Default K, !Default V, !EqDecision K, !Countable K}.
Implicit Types (m : mem (K * V)) (k : K) (v : V) (hs : list Z).

(** ** Creation *)
(** The lists [hs] have been created, and are empty. *)
Record fresh_lists hs m : Prop := {
  fl_ok : mem_ok m;
  fl_nodup : NoDup hs;
  fl_head : forall b a, hs !! b = Some a -> m_links m !! head b = Some (Some a, 0);
  fl_node : forall a, a ∈ hs -> shared m a /\ linked m a None 0;
  fl_only : forall a, shared m a -> a ∈ hs
}.
Lemma fresh_empty : fresh_lists [] empty_mem.
Proof. split; try done; [constructor|by intros a H; apply not_elem_of_nil in H|by intros a [[d Hd] _]]. Qed.
Lemma fresh_holds bucket hs m : fresh_lists hs m -> holds bucket hs m ∅.
Proof.
  intros [Hok Hnd Hh Hn Ho]. split.
  - constructor; [done|done| | |].
    + intros b a Hb. split; [by apply Hh|]. apply Hn. by eapply list_elem_of_lookup_2.
    + intros a Ha. apply Ho in Ha. exists None, 0. split; [by apply Hn|]. split; [by left|done].
    + intros a p k Ha Hna. by apply Ho in Ha.
  - intros k v. rewrite lookup_empty. split; [done|]. intros (a & (Ha & Hna & _) & _). by apply Ho in Ha.
Qed.
Lemma list_new_fresh hs m h : fresh_lists hs m -> exists m', run (list_new (length hs) h) m = Ok (tt, m') /\
  fresh_lists (hs ++ [fresh_addr m]) m'.
Proof.
  intros [Hok Hnd Hh Hn Ho]. destruct (fresh_addr_ok m) as [Hf0 Hf]. eexists. split; [reflexivity|].
  set (a := fresh_addr m) in *. assert (Hsh : forall c, shared m c -> c <> a) by (intros c [[d Hd] _] ->; congruence).
  constructor; cbn.
  - change (mem_ok (publish (Some a) (set_link (head (length hs)) (Some a, 0)
      (add_node h a (default_value, default_value) [(None, 0)] m)))). by apply mem_ok_publish, mem_ok_set, mem_ok_new.
  - apply NoDup_app. split; [done|]. split; [|apply NoDup_singleton].
    intros x Hx Hx'%list_elem_of_singleton. subst x. destruct (Hn a Hx) as [Hs _]. by apply (Hsh a).
  - intros b x Hb. destruct (decide (b = length hs)) as [->|Hne].
    + rewrite list_lookup_middle in Hb by done. injection Hb as <-. apply lookup_insert_eq.
    + rewrite lookup_insert_ne by (by intros [= E]; apply Hne). rewrite lookup_insert_ne by (by intros [= E]; apply Hf0).
      apply lookup_app_Some in Hb as [Hb|[Hge Hb]]; [by apply Hh|].
      apply list_lookup_singleton_Some in Hb as [Hb _]. lia.
  - intros x [Hx|Hx%list_elem_of_singleton]%elem_of_app; [|subst x].
    + destruct (Hn x Hx) as [Hs Hl]. pose proof (Hsh x Hs). pose proof Hs as [Hd Hox]. unfold shared, linked. cbn.
      rewrite lookup_insert_ne by done. rewrite lookup_delete_ne by done. rewrite lookup_insert_ne by done.
      split; [done|]. rewrite lookup_insert_ne; [by rewrite lookup_insert_ne by (by intros [= E])|].
      intros [= E]. rewrite <- E in Hd. rewrite (mo_null _ Hok) in Hd. by destruct Hd.
    + unfold shared, linked. cbn. rewrite lookup_insert_eq, lookup_delete_eq. split; [done|].
      rewrite lookup_insert_ne by (by intros [= E]; apply Hf0). apply lookup_insert_eq.
  - intros x [Hd Hox]. cbn in Hd, Hox. destruct (decide (x = a)) as [->|Hne]; [apply elem_of_app; right; by left|].
    rewrite lookup_insert_ne in Hd by done. rewrite lookup_delete_ne, lookup_insert_ne in Hox by done.
    apply elem_of_app. left. by apply Ho.
Qed.
Lemma with_capacity_fresh n h : exists m hs, run (with_capacity n h) empty_mem = Ok (tt, m) /\ length hs = n /\ fresh_lists hs m.
Proof.
  unfold with_capacity. assert (H : forall j hs m, fresh_lists hs m -> exists m' hs',
    run (foreach (seq (length hs) j) (fun i => list_new i h)) m = Ok (tt, m') /\ length hs' = (length hs + j)%nat /\ fresh_lists hs' m').
  { induction j as [|j IH]; intros hs m Hm; [exists m, hs; split; [done|split; [lia|done]]|]. cbn [seq foreach].
    destruct (list_new_fresh hs m h Hm) as (m1 & E & H1). destruct (IH _ _ H1) as (m' & hs' & E' & Hlen & H').
    exists m', hs'. rewrite length_app in E', Hlen. cbn [length] in E', Hlen. rewrite Nat.add_1_r in E'.
    rewrite run_bind, E. split; [exact E'|]. split; [lia|done]. }
  destruct (H n [] empty_mem fresh_empty) as (m & hs & E & Hl & Hf). by exists m, hs.
Qed.

(** ** Calls of the hash map *)
Section calls.
Context (hash : K -> nat) (n f : nat).
Inductive hcall := HGet (k : K) | HInsert (k : K) (v : V) | HRemove (k : K).
Definition hexec (h : nat) (c : hcall) : prog (mem (K * V)) outcome :=
  match c with
  | HGet k => r <- cm_get (HashMap hash n f) k h ; x <- borrow_opt r ; Ret (RGet HarrisHerlihyShavit k x)
  | HInsert k v => b <- cm_insert (HashMap hash n f) k v h ; Ret (RInsert k v b)
  | HRemove k => r <- cm_remove (HashMap hash n f) k h ; x <- borrow_opt r ; Ret (RRemove k x)
  end.
(** A call of the map is a call of the list of its key. *)
Definition bucket_of (k : K) : nat := hash k mod n.
Definition list_call (c : hcall) : call :=
  match c with
  | HGet k => CGet HarrisHerlihyShavit k
  | HInsert k v => CInsert HarrisHerlihyShavit k v
  | HRemove k => CRemove HarrisHerlihyShavit k
  end.
Lemma hexec_exec h c : (0 < n)%nat -> hexec h c = exec bucket_of h f (list_call c).
Proof.
  intros Hn. assert (E : forall i, get_bucket (V := V) n f i = Ret (HHSList (i mod n) f)) by (intros i; unfold get_bucket; by destruct n; [lia|]).
  destruct c; cbn [hexec list_call exec HashMap cm_get cm_insert cm_remove map_of];
    unfold hashmap_get, hashmap_insert, hashmap_remove; by rewrite E.
Qed.
Lemma bucket_of_ok hs : (0 < n)%nat -> length hs = n -> forall k, exists hd, hs !! bucket_of k = Some hd.
Proof.
  intros Hn Hlen k. apply lookup_lt_is_Some. rewrite Hlen. apply Nat.mod_upper_bound. lia.
Qed.

(** C12. The hash map is linearizable, from its creation.  Creating a map of any capacity but zero succeeds, and every
    execution of any number of threads that then call [get], [insert] and [remove] whenever they like is one of an
    atomic map that is empty at first: successful insertions and removals change it once, between their beginning and
    their return; every other call returns what is true of it in a state between its beginning and its return; the
    nodes in the buckets are the atomic map, and no thread panics or dereferences a dangling node or link. *)
Theorem hashmap_linearizable h0 : (0 < n)%nat -> exists m0 hs, run (with_capacity n h0) empty_mem = Ok (tt, m0) /\
  forall ls P m, hrun hexec ls (∅, m0) (P, m) ->
    (exists X A, orun spec (fun c => answered (list_call c)) ls (∅, ∅) (X, A) /\ holds bucket_of hs m A) /\
    (forall h c p, P !! h = Some (c, p) -> faultless p m).
Proof.
  intros Hn. destruct (with_capacity_fresh n h0) as (m0 & hs & E & Hlen & Hf). exists m0, hs. split; [done|].
  pose proof (bucket_of_ok hs Hn Hlen) as Hb. pose proof (fresh_holds bucket_of hs m0 Hf) as Hh. intros ls P m Hr.
  destruct (linear_sound hexec spec (fun c => answered (list_call c)) (rely bucket_of hs) (guar bucket_of hs) (holds bucket_of hs)
    (fun _ c m r tr m' => exec_post bucket_of hs m (list_call c) r tr m') _ (guar_rely_lists bucket_of hs) (guar_holds_lists bucket_of hs))
    with (ls := ls) (s := m0) (x := ∅ : gmap K V) (P' := P) (s' := m) as (X & A & Ho & HA & Hfl); [| |done|done|].
  - intros i c m1 A1 HA1. rewrite hexec_exec by done. eapply wp_mono; [|apply exec_wp_lists; [done|by exists A1]].
    by intros r tr' m' (seg & -> & H).
  - intros. by eapply exec_post_answered.
  - split; [by exists X, A|done].
Qed.
End calls.
End hashmap.

(** ** Executions: two buckets, keys by parity *)
#[export] Instance ord_Z : Ord Z := { cmp := Z.compare; cmp_eq := Z.compare_eq_iff; cmp_opp := fun a b => Z.compare_antisym a b;
  cmp_lt_trans := fun a b c => Z.lt_trans a b c }.
#[export] Instance default_Z : Default Z := 0.
#[export] Instance default_nat : Default nat := 0%nat.
Definition parity (k : Z) : nat := Z.to_nat k.
Definition two_buckets : mem (Z * nat) :=
  match run (with_capacity 2 0) empty_mem with Ok (_, m) => m | Stopped _ => empty_mem end.
Lemma two_buckets_fresh : exists hs, length hs = 2%nat /\ fresh_lists hs two_buckets.
Proof.
  destruct (with_capacity_fresh (K := Z) (V := nat) 2 0) as (m & hs & E & Hl & Hf). exists hs. split; [done|].
  unfold two_buckets. by rewrite E.
Qed.
(** Insertions, a removal and searches of all kinds, on both lists, that overlap. *)
Definition sample_list_moves : list (move (C := call (K := Z) (V := nat))) :=
  [MCall 0 (CInsert Harris 1 10%nat); MCall 1 (CInsert HarrisMichael 4 40%nat); MCall 2 (CGet Harris 3); MCall 3 (CGet HarrisHerlihyShavit 1)] ++
  concat (replicate 30 (MGo <$> [0; 1; 2; 3]%nat)) ++
  [MCall 0 (CRemove HarrisMichael 1); MCall 1 (CInsert Harris 1 11%nat); MCall 2 (CGet HarrisMichael 1)] ++
  concat (replicate 40 (MGo <$> [2; 1; 0]%nat)).
Definition sample_list_execution := hplay (fun h c => exec (bucket_of parity 2) h 9 c) sample_list_moves (∅, two_buckets).
Lemma lists_execution_history : history sample_list_execution.1 =
  [LCall 0 (CInsert Harris 1 10%nat); LCall 1 (CInsert HarrisMichael 4 40%nat); LCall 2 (CGet Harris 3);
   LCall 3 (CGet HarrisHerlihyShavit 1); LRet 2 (RGet Harris 3 None); LRet 3 (RGet HarrisHerlihyShavit 1 None);
   LRet 0 (RInsert 1 10%nat true); LRet 1 (RInsert 4 40%nat true); LCall 0 (CRemove HarrisMichael 1);
   LCall 1 (CInsert Harris 1 11%nat); LCall 2 (CGet HarrisMichael 1); LRet 2 (RGet HarrisMichael 1 (Some 10%nat));
   LRet 1 (RInsert 1 11%nat false); LRet 0 (RRemove 1 (Some 10%nat))].
Proof. vm_compute. reflexivity. Qed.
Lemma lists_linearizable_witness : exists hs X A, orun spec answered sample_list_execution.1 (∅, ∅) (X, A) /\
  holds (bucket_of parity 2) hs sample_list_execution.2.2 A.
Proof.
  destruct two_buckets_fresh as (hs & Hl & Hf). exists hs.
  refine (proj1 (lists_linearizable (bucket_of parity 2) hs (bucket_of_ok parity 2 hs ltac:(lia) Hl) 9 two_buckets ∅
    sample_list_execution.1 sample_list_execution.2.1 sample_list_execution.2.2 (fresh_holds _ _ _ Hf) _)).
  rewrite <- surjective_pairing. apply hplay_hrun.
Defined.

(** A wait-free [get] of 1 that begins when 1 is in the map and ends when it is not. *)
Definition sample_mutators : list (list (call (K := Z) (V := nat))) := [[CInsert Harris 1 10%nat; CRemove HarrisMichael 1]].
Definition before_get : list (prog (mem (Z * nat)) (list outcome)) * mem (Z * nat) :=
  pool_run (replicate 8 0%nat) (imap (fun h cs => client (bucket_of parity 2) h 9 cs) sample_mutators, two_buckets).
Definition reader : prog (mem (Z * nat)) (list outcome) := client (bucket_of parity 2) (length before_get.1) 9 [CGet HarrisHerlihyShavit 1].
Definition after_get : list (prog (mem (Z * nat)) (list outcome)) * mem (Z * nat) :=
  pool_run ([1; 1; 1] ++ replicate 30 0 ++ replicate 9 1)%nat (before_get.1 ++ [reader], before_get.2).
Lemma sample_get_results : results after_get.1 =
  [Some [RInsert 1 10%nat true; RRemove 1 (Some 10%nat)]; Some [RGet HarrisHerlihyShavit 1 (Some 10%nat)]].
Proof. vm_compute. reflexivity. Qed.
Lemma before_get_length : length before_get.1 = 1%nat.
Proof. vm_compute. reflexivity. Qed.
Lemma sample_get_returned i : i = 1%nat -> after_get.1 !! i = Some (Ret [RGet HarrisHerlihyShavit 1 (Some 10%nat)]).
Proof. intros ->. apply results_lookup. by rewrite sample_get_results. Qed.
Lemma waitfree_get_linearizable_witness : exists hs,
  held_between (bucket_of parity 2) hs 1 (Some 10%nat) (before_get.1 ++ [reader], before_get.2) (after_get.1, after_get.2).
Proof.
  destruct two_buckets_fresh as (hs & Hl & Hf). exists hs.
  exact (waitfree_get_linearizable (bucket_of parity 2) hs (bucket_of_ok parity 2 hs ltac:(lia) Hl) 9 sample_mutators 1 (Some 10%nat)
    two_buckets ∅ before_get.1 before_get.2 after_get.1 after_get.2 (fresh_holds _ _ _ Hf)
    (pool_run_rtc (replicate 8 0%nat) (imap (fun h cs => client (bucket_of parity 2) h 9 cs) sample_mutators, two_buckets))
    (pool_run_rtc ([1; 1; 1] ++ replicate 30 0 ++ replicate 9 1)%nat (before_get.1 ++ [reader], before_get.2))
    (sample_get_returned _ before_get_length)).
Defined.

Definition sample_map_moves : list (move (C := hcall (K := Z) (V := nat))) :=
  [MCall 0 (HInsert 1 10%nat); MCall 1 (HInsert 2 20%nat); MCall 2 (HGet 2)] ++ concat (replicate 20 (MGo <$> [0; 1; 2]%nat)) ++
  [MCall 0 (HRemove 2); MCall 1 (HGet 1)] ++ concat (replicate 30 (MGo <$> [0; 1]%nat)).
Definition sample_map_execution := hplay (hexec parity 2 9) sample_map_moves (∅, two_buckets).
Lemma map_execution_history : history sample_map_execution.1 =
  [LCall 0 (HInsert 1 10%nat); LCall 1 (HInsert 2 20%nat); LCall 2 (HGet 2); LRet 2 (RGet HarrisHerlihyShavit 2 None);
   LRet 0 (RInsert 1 10%nat true); LRet 1 (RInsert 2 20%nat true); LCall 0 (HRemove 2); LCall 1 (HGet 1);
   LRet 1 (RGet HarrisHerlihyShavit 1 (Some 10%nat)); LRet 0 (RRemove 2 (Some 20%nat))].
Proof. vm_compute. reflexivity. Qed.
Lemma hashmap_linearizable_witness : exists hs X A, orun spec (fun c => answered (list_call c)) sample_map_execution.1 (∅, ∅) (X, A) /\
  holds (bucket_of parity 2) hs sample_map_execution.2.2 A.
Proof.
  destruct (hashmap_linearizable (K := Z) (V := nat) parity 2 9 0 ltac:(lia)) as (m0 & hs & E & H). exists hs.
  assert (E' : two_buckets = m0) by (unfold two_buckets; by rewrite E). subst m0.
  refine (proj1 (H sample_map_execution.1 sample_map_execution.2.1 sample_map_execution.2.2 _)).
  rewrite <- surjective_pairing. apply hplay_hrun.
Defined.
