(* ===== verification/SearchTree.v ===== *)
(** * External search trees in managed memory

    What the two lock-free trees of [examples/ds/] have in common: nodes with a key that
    may be infinite and an optional value, two links to children, leaves with null links.
    A tree is a tree of addresses [rep]resented by the memory; [descend] is the path of a
    search; a [plug]ged context is a tree with a hole. *)
From S2P Require Import Prelude Prog Managed Lists.
#[local] Open Scope Z_scope.

Inductive Direction := L | R.
#[export] Instance Direction_eq_dec : EqDecision Direction.
Proof. solve_decision. Defined.

(** ** Trees *)
Section shape.
Context {V X D : Type} (dat : X -> option V -> D) (side : Direction -> nat).
Implicit Types (m : mem D) (a : Z) (x : X).
Inductive tree :=
  | Leaf (a : Z) (x : X) (w : option V)
  | Node (a : Z) (x : X) (w : option V) (l r : tree).
Definition addr (t : tree) : Z := match t with Leaf a _ _ | Node a _ _ _ _ => a end.
Definition key (t : tree) : X := match t with Leaf _ x _ | Node _ x _ _ _ => x end.
Fixpoint addrs (t : tree) : list Z :=
  match t with Leaf a _ _ => [a] | Node a _ _ l r => a :: addrs l ++ addrs r end.
Fixpoint height (t : tree) : nat := match t with Leaf _ _ _ => 0 | Node _ _ _ l r => S (Nat.max (height l) (height r)) end.
Definition child_link m a d (p : option Z) : Prop := m_links m !! (a, side d) = Some (p, 0).
Fixpoint rep m (t : tree) : Prop :=
  match t with
  | Leaf a x w => m_data m !! a = Some (dat x w) /\ child_link m a L None /\ child_link m a R None
  | Node a x w l r => m_data m !! a = Some (dat x w) /\ child_link m a L (Some (addr l)) /\ child_link m a R (Some (addr r)) /\
      rep m l /\ rep m r
  end.

(** *** Trees with a hole *)
Record step := mkStep { s_addr : Z; s_key : X; s_val : option V; s_dir : Direction; s_other : tree }.
(** The innermost node first. *)
Definition ctx := list step.
Definition wrap (s : step) (t : tree) : tree :=
  match s_dir s with
  | L => Node (s_addr s) (s_key s) (s_val s) t (s_other s)
  | R => Node (s_addr s) (s_key s) (s_val s) (s_other s) t
  end.
Fixpoint plug (c : ctx) (t : tree) : tree := match c with [] => t | s :: c' => plug c' (wrap s t) end.
Definition flip_dir (d : Direction) : Direction := match d with L => R | R => L end.
Fixpoint rep_ctx m (c : ctx) (a : Z) : Prop :=
  match c with
  | [] => True
  | s :: c' => m_data m !! s_addr s = Some (dat (s_key s) (s_val s)) /\ child_link m (s_addr s) (s_dir s) (Some a) /\
      child_link m (s_addr s) (flip_dir (s_dir s)) (Some (addr (s_other s))) /\ rep m (s_other s) /\ rep_ctx m c' (s_addr s)
  end.
Definition ctx_addrs (c : ctx) : list Z := concat (map (fun s => s_addr s :: addrs (s_other s)) c).
Lemma wrap_addr s t : addr (wrap s t) = s_addr s.
Proof. unfold wrap. by destruct (s_dir s). Qed.
Lemma rep_wrap m s t : rep m (wrap s t) <->
  m_data m !! s_addr s = Some (dat (s_key s) (s_val s)) /\ child_link m (s_addr s) (s_dir s) (Some (addr t)) /\
  child_link m (s_addr s) (flip_dir (s_dir s)) (Some (addr (s_other s))) /\ rep m (s_other s) /\ rep m t.
Proof. unfold wrap. destruct s as [a x w [] o]; cbn; tauto. Qed.
Lemma rep_plug m c t : rep m (plug c t) <-> rep_ctx m c (addr t) /\ rep m t.
Proof.
  revert t. induction c as [|s c IH]; intros t; cbn; [tauto|]. rewrite IH, wrap_addr, rep_wrap. tauto.
Qed.
Lemma addrs_plug c t : addrs (plug c t) ≡ₚ ctx_addrs c ++ addrs t.
Proof.
  revert t. induction c as [|s c IH]; intros t; [done|]. cbn [plug]. rewrite IH. unfold ctx_addrs. cbn [map concat].
  unfold wrap. destruct s as [a x w [] o]; cbn; solve_Permutation.
Qed.
Lemma plug_app c1 c2 t : plug (c1 ++ c2) t = plug c2 (plug c1 t).
Proof. revert t. induction c1 as [|s c1 IH]; intros t; [done|]. apply IH. Qed.
Lemma rep_data m t : rep m t -> exists w, m_data m !! addr t = Some (dat (key t) w).
Proof. destruct t as [a x w|a x w l r]; cbn; [intros (H & _)|intros (H & _)]; by exists w. Qed.
(** The child the walk goes to next. *)
Definition next_child d (t : tree) : option Z :=
  match t with Leaf _ _ _ => None | Node _ _ _ l r => Some (addr (match d with L => l | R => r end)) end.
Lemma rep_next m t d : rep m t -> child_link m (addr t) d (next_child d t).
Proof. by destruct t, d; cbn; intros H; decompose [and] H. Qed.
(** Nodes of a tree exist. *)
Lemma rep_addrs m t a : rep m t -> a ∈ addrs t -> is_Some (m_data m !! a).
Proof.
  induction t as [b x w|b x w l IHl r IHr]; cbn.
  - intros (H & _) ->%list_elem_of_singleton. by eexists.
  - intros (H & _ & _ & Hl & Hr) [->|[Ha|Ha]%elem_of_app]%elem_of_cons; [by eexists|by apply IHl|by apply IHr].
Qed.

(** *** What a step of the memory changes *)
Definition same_node m m' a : Prop := m_data m' !! a = m_data m !! a /\ forall d, m_links m' !! (a, side d) = m_links m !! (a, side d).
Lemma rep_frame m m' t : (forall a, a ∈ addrs t -> same_node m m' a) -> rep m t -> rep m' t.
Proof.
  induction t as [a x w|a x w l IHl r IHr]; cbn; intros Hf H; destruct (Hf a ltac:(by left)) as [Ed El]; unfold child_link.
  - by rewrite Ed, !El.
  - rewrite Ed, !El. destruct H as (Hd & H1 & H2 & Hl & Hr). split_and!; try done; [apply IHl|apply IHr]; try done;
      intros b Hb; apply Hf; right; apply elem_of_app; tauto.
Qed.
Lemma rep_ctx_frame m m' c a : (forall a, a ∈ ctx_addrs c -> same_node m m' a) -> rep_ctx m c a -> rep_ctx m' c a.
Proof.
  revert a. induction c as [|s c IH]; intros a Hf; [done|]. cbn [rep_ctx]. unfold ctx_addrs in Hf. cbn [map concat] in Hf.
  destruct (Hf (s_addr s)) as [Ed El]; [by left|]. unfold child_link. rewrite Ed, !El. intros (H1 & H2 & H3 & H4 & H5).
  split_and!; try done.
  - eapply rep_frame; [|done]. intros b Hb. apply Hf. right. apply elem_of_app. by left.
  - apply IH; [|done]. intros b Hb. apply Hf. right. apply elem_of_app. by right.
Qed.
(** The link to the hole changes. *)
Lemma rep_replace m m' s c t t' : NoDup (ctx_addrs (s :: c)) -> rep m (plug (s :: c) t) -> rep m' t' ->
  (forall a, a ∈ ctx_addrs (s :: c) -> m_data m' !! a = m_data m !! a) ->
  (forall a d, a ∈ ctx_addrs (s :: c) -> (a, d) <> (s_addr s, s_dir s) -> m_links m' !! (a, side d) = m_links m !! (a, side d)) ->
  child_link m' (s_addr s) (s_dir s) (Some (addr t')) -> rep m' (plug (s :: c) t').
Proof.
  intros Hnd [(H1 & _ & H3 & H4 & H5) _]%rep_plug Ht' Hd Hl Hc. apply rep_plug. split; [|done]. cbn [rep_ctx].
  unfold ctx_addrs in Hnd, Hd, Hl. cbn [map concat] in Hnd, Hd, Hl. apply NoDup_cons in Hnd as [Hs Hnd].
  split_and!; [rewrite Hd; [done|by left]|done| | |].
  - unfold child_link in *. rewrite Hl; [done|by left|]. intros [= E]. by destruct (s_dir s).
  - eapply rep_frame; [|done]. intros b Hb. assert (Hin : b ∈ addrs (s_other s) ++ concat (map (fun s => s_addr s :: addrs (s_other s)) c)) by
      (apply elem_of_app; by left). split; [apply Hd; by right|]. intros d. apply Hl; [by right|]. intros [= -> _]. by apply Hs.
  - eapply rep_ctx_frame; [|done]. intros b Hb. assert (Hin : b ∈ addrs (s_other s) ++ concat (map (fun s => s_addr s :: addrs (s_other s)) c)) by
      (apply elem_of_app; by right). split; [apply Hd; by right|]. intros d. apply Hl; [by right|]. intros [= -> _]. by apply Hs.
Qed.
End shape.
Arguments tree V X : clear implicits.
Arguments step V X : clear implicits.
Arguments ctx V X : clear implicits.

(** ** The order *)
Section order.
Context {K V X : Type} `{!Ord K}.
(** [X]: the keys of nodes; [fin] of an infinite key is [None]. *)
Context (fin : X -> option K).
Implicit Types (k : K) (v : V) (a : Z) (x : X).
#[local] Abbreviation tree := (tree V X).
#[local] Abbreviation ctx := (ctx V X).

(** [Key::cmp(&self, rhs: &K)] *)
Definition kcmp x k : comparison := match fin x with Some k' => cmp k' k | None => Gt end.
(** The child a search for [k] takes. *)
Definition turn x k : Direction := match kcmp x k with Gt => L | _ => R end.
(** The pairs in the leaves. *)
Fixpoint has (t : tree) k v : Prop :=
  match t with Leaf _ x w => fin x = Some k /\ w = Some v | Node _ _ _ l r => has l k v \/ has r k v end.
(** A search finds every pair, and a leaf with a finite key has a value. *)
Fixpoint bst (t : tree) : Prop :=
  match t with
  | Leaf _ x w => is_Some (fin x) -> is_Some w
  | Node _ x _ l r => bst l /\ bst r /\ (forall k v, has l k v -> turn x k = L) /\ (forall k v, has r k v -> turn x k = R)
  end.
Definition on_path k (c : ctx) : Prop := forall s, s ∈ c -> s_dir s = turn (s_key s) k.
Definition ctx_has (c : ctx) k v : Prop := exists s, s ∈ c /\ has (s_other s) k v.
(** The search for [k] from [t], under the path so far. *)
Fixpoint descend k (t : tree) (c : ctx) : ctx * tree :=
  match t with
  | Leaf _ _ _ => (c, t)
  | Node a x w l r =>
      match turn x k with
      | L => descend k l (mkStep a x w L r :: c)
      | R => descend k r (mkStep a x w R l :: c)
      end
  end.
Lemma has_plug c t k v : has (plug c t) k v <-> ctx_has c k v \/ has t k v.
Proof.
  revert t. induction c as [|s c IH]; intros t; cbn [plug].
  - split; [by right|]. intros [(s & Hs & _)|?]; [by apply not_elem_of_nil in Hs|done].
  - rewrite IH. unfold ctx_has. setoid_rewrite elem_of_cons.
    assert (E : has (wrap s t) k v <-> has (s_other s) k v \/ has t k v) by (unfold wrap; destruct (s_dir s); cbn; tauto).
    rewrite E. naive_solver.
Qed.
Lemma descend_plug k t c : let '(c', lf) := descend k t c in plug c' lf = plug c t /\ exists a x w, lf = Leaf a x w.
Proof.
  revert c. induction t as [a x w|a x w l IHl r IHr]; intros c; cbn [descend]; [by eauto|].
  destruct (turn x k) eqn:E.
  - specialize (IHl (mkStep a x w L r :: c)). destruct (descend k l _) as [c' lf]. exact IHl.
  - specialize (IHr (mkStep a x w R l :: c)). destruct (descend k r _) as [c' lf]. exact IHr.
Qed.
Lemma descend_path k t c : on_path k c -> on_path k (descend k t c).1.
Proof.
  revert c. induction t as [a x w|a x w l IHl r IHr]; intros c Hc; cbn [descend]; [done|].
  destruct (turn x k) eqn:E; [apply IHl|apply IHr]; intros s [->|Hs]%elem_of_cons; auto.
Qed.
Lemma descend_app k t c : descend k t c = ((descend k t []).1 ++ c, (descend k t []).2).
Proof.
  revert c. induction t as [a x w|a x w l IHl r IHr]; intros c; cbn [descend]; [done|].
  destruct (turn x k).
  - rewrite IHl, (IHl [_]). cbn [fst snd]. by rewrite <- app_assoc.
  - rewrite IHr, (IHr [_]). cbn [fst snd]. by rewrite <- app_assoc.
Qed.
Fixpoint ctx_bst (c : ctx) : Prop :=
  match c with
  | [] => True
  | s :: c' => bst (s_other s) /\ (forall k v, has (s_other s) k v -> turn (s_key s) k = flip_dir (s_dir s) /\ on_path k c') /\ ctx_bst c'
  end.
Lemma on_path_cons k s c : on_path k (s :: c) <-> s_dir s = turn (s_key s) k /\ on_path k c.
Proof. unfold on_path. setoid_rewrite elem_of_cons. naive_solver. Qed.
Lemma bst_wrap s t : bst (wrap s t) <-> bst t /\ bst (s_other s) /\ (forall k v, has t k v -> turn (s_key s) k = s_dir s) /\
  (forall k v, has (s_other s) k v -> turn (s_key s) k = flip_dir (s_dir s)).
Proof. unfold wrap. destruct s as [a x w [] o]; cbn; tauto. Qed.
Lemma has_wrap s t k v : has (wrap s t) k v <-> has (s_other s) k v \/ has t k v.
Proof. unfold wrap. destruct (s_dir s); cbn; tauto. Qed.
Lemma bst_plug c t : bst (plug c t) <-> ctx_bst c /\ bst t /\ forall k v, has t k v -> on_path k c.
Proof.
  revert t. induction c as [|s c IH]; intros t; cbn [plug ctx_bst].
  - split; [|tauto]. intros H. split_and!; [done|done|]. intros k v _ s Hs. by apply not_elem_of_nil in Hs.
  - rewrite IH, bst_wrap. setoid_rewrite has_wrap. setoid_rewrite on_path_cons. split.
    + intros (Hc & (Ht & Ho & Hd & Hf) & Hp). split_and!; try done; [intros k v H; split; eauto|].
      intros k v H. split; [symmetry; eauto|]. eauto.
    + intros ((Ho & Hf & Hc) & Ht & Hp). split_and!; try done.
      * intros k v H. symmetry. by destruct (Hp k v H).
      * intros k v H. by destruct (Hf k v H).
      * intros k v [H|H]; [by destruct (Hf k v H)|by destruct (Hp k v H)].
Qed.
(** On the path of [k] the search is decided by what is in the hole. *)
Lemma ctx_has_off c k v : ctx_bst c -> on_path k c -> ~ ctx_has c k v.
Proof.
  induction c as [|s c IH]; intros Hb Hp (s' & Hs & Hh); [by apply not_elem_of_nil in Hs|].
  destruct Hb as (_ & Hf & Hb). apply on_path_cons in Hp as [Hd Hp]. apply elem_of_cons in Hs as [->|Hs].
  - destruct (Hf k v Hh) as [E _]. rewrite <- Hd in E. by destruct (s_dir s).
  - apply IH; [done|done|by exists s'].
Qed.
Lemma has_on_path c t k v : bst (plug c t) -> on_path k c -> has (plug c t) k v <-> has t k v.
Proof.
  intros [Hb _]%bst_plug Hp. rewrite has_plug. split; [|by right]. intros [H|H]; [|done]. by apply ctx_has_off in H.
Qed.
Lemma bst_replace c t t' : bst (plug c t) -> bst t' -> (forall k v, has t' k v -> (exists v', has t k v') \/ on_path k c) -> bst (plug c t').
Proof.
  intros (Hc & _ & Hp)%bst_plug Ht' Hh. apply bst_plug. split_and!; [done|done|]. intros k v H.
  destruct (Hh k v H) as [[v' Hv']|]; [by eapply Hp|done].
Qed.
Lemma bst_remove s c t : bst (plug (s :: c) t) -> bst (plug c (s_other s)).
Proof.
  intros ((Ho & Hf & Hc) & _)%bst_plug. apply bst_plug. split_and!; [done|done|]. intros k v H. by eapply Hf.
Qed.
Lemma has_remove s c t k v : bst (plug (s :: c) t) ->
  has (plug c (s_other s)) k v <-> has (plug (s :: c) t) k v /\ ~ exists v', has t k v'.
Proof.
  intros ((Ho & Hf & Hc) & Ht & Hp)%bst_plug. cbn [plug]. rewrite !has_plug, has_wrap. split; [|naive_solver].
  intros H. split; [tauto|]. intros [v' Hv']. destruct (proj1 (on_path_cons _ _ _) (Hp k v' Hv')) as [Hd Hp'].
  destruct H as [H|H]; [by apply ctx_has_off in H|]. destruct (Hf k v H) as [E _]. rewrite <- Hd in E. by destruct (s_dir s).
Qed.
Lemma has_inj t k v v' : bst t -> has t k v -> has t k v' -> v = v'.
Proof.
  induction t as [a x w|a x w l IHl r IHr]; cbn; [intros _ [_ ->] [_ [= ->]]; done|].
  intros (Hl & Hr & Dl & Dr) [H|H] [H'|H']; [by apply IHl|apply Dl in H; apply Dr in H'; congruence| |by apply IHr].
  apply Dr in H; apply Dl in H'; congruence.
Qed.
End order.

(** ** The contents of a tree below its sentinels *)
Section contents.
Context {K V X : Type} `{!Ord K, !EqDecision K, !Countable K}.
(** [mk k]: the finite key; [inf]: the key of the outermost leaf of an empty tree. *)
Context (fin : X -> option K) (mk : K -> X) (inf : X).
Class Keys : Prop := { fin_mk : forall k, fin (mk k) = Some k; fin_inf : fin inf = None }.
Context {HK : Keys}.
Implicit Types (k : K) (v : V) (a b : Z) (x : X) (w : option V) (first : bool) (A : gmap K V).
#[local] Abbreviation tree := (tree V X).
#[local] Abbreviation ctx := (ctx V X).
#[local] Abbreviation kcmp := (kcmp fin).
#[local] Abbreviation turn := (turn fin).

Lemma kcmp_eq x k : kcmp x k = Eq <-> fin x = Some k.
Proof. unfold SearchTree.kcmp. destruct (fin x) as [k'|]; [|done]. rewrite cmp_eq. split; [by intros ->|by intros [= ->]]. Qed.
Lemma turn_fin x k : fin x = Some k -> turn x k = R.
Proof. unfold SearchTree.turn, SearchTree.kcmp. intros ->. by rewrite (proj2 (cmp_eq k k) eq_refl). Qed.
Lemma turn_gt x k : kcmp x k = Gt -> turn x k = L.
Proof. unfold SearchTree.turn. by intros ->. Qed.
Lemma turn_lt x k k' : kcmp x k = Lt -> fin x = Some k' -> turn (mk k) k' = L.
Proof. unfold SearchTree.turn, SearchTree.kcmp. intros Hc E. rewrite E in Hc. rewrite fin_mk. by rewrite cmp_opp, Hc. Qed.
Lemma turn_inf k : turn inf k = L.
Proof. unfold SearchTree.turn, SearchTree.kcmp. by rewrite fin_inf. Qed.

(** An empty tree is a leaf; the outermost node of another one has an infinite key and a leaf
    on its right. *)
Definition spine (t : tree) : Prop :=
  match t with
  | Leaf _ x w => x = inf /\ w = None
  | Node _ x w _ r => x = inf /\ w = None /\ exists b, r = Leaf b inf None
  end.
Lemma spine_turn t k : spine t -> turn (key t) k = L.
Proof. destruct t; intros [-> _]; apply turn_inf. Qed.
Lemma spine_replace k (c : ctx) t t' : c <> [] -> on_path fin k c -> spine (plug c t) -> spine (plug c t').
Proof.
  destruct c as [|s c _] using rev_ind; [done|]. intros _ Hp. rewrite !plug_app. cbn [plug].
  assert (Hs : s_dir s = turn (s_key s) k) by (apply Hp; apply elem_of_app; right; by left).
  unfold wrap. destruct s as [a x w [] o]; cbn; [done|]. intros [-> _]. cbn in Hs. by rewrite turn_inf in Hs.
Qed.
Record tree_of (outer : ctx) (t : tree) A : Prop := {
  to_nodup : NoDup (addrs (plug outer t));
  to_bst : bst fin (plug outer t);
  to_spine : spine t;
  to_has : forall k v, A !! k = Some v <-> has fin (plug outer t) k v
}.
(** A leaf with its path in the tree, which is that of [k]. *)
Lemma tree_of_path outer t A k : tree_of outer t A -> on_path fin k outer -> exists c b x w,
  descend fin k t [] = (c, Leaf b x w) /\ t = plug c (Leaf b x w) /\ on_path fin k (c ++ outer).
Proof.
  intros _ Hp. pose proof (descend_plug fin k t []) as H. pose proof (descend_path fin k t outer Hp) as Hpath.
  rewrite descend_app in Hpath. destruct (descend fin k t []) as [c lf]. destruct H as (E & b & x & w & ->).
  exists c, b, x, w. split; [done|]. split; [by rewrite E|done].
Qed.
Section found.
Context (outer c : ctx) (b : Z) (x : X) (w : option V) (A : gmap K V) (k : K).
Hypothesis Ht : tree_of outer (plug c (Leaf b x w)) A.
Hypothesis Hp : on_path fin k (c ++ outer).
#[local] Lemma found_bst : bst fin (plug (c ++ outer) (Leaf b x w)).
Proof. rewrite plug_app. apply Ht. Qed.
Lemma tree_of_lookup : A !! k = if decide (kcmp x k = Eq) then w else None.
Proof.
  pose proof found_bst as Hb. apply option_eq. intros v. rewrite (to_has _ _ _ Ht), <- plug_app, (has_on_path fin _ _ _ _ Hb Hp). cbn [has].
  rewrite <- kcmp_eq. case_decide; naive_solver.
Qed.
Lemma tree_of_value : kcmp x k = Eq -> exists v, w = Some v.
Proof. intros E%kcmp_eq. pose proof found_bst as (_ & Hb & _)%bst_plug. apply Hb. by eexists. Qed.
Lemma tree_of_distinct : NoDup (ctx_addrs (c ++ outer)) /\ b ∉ ctx_addrs (c ++ outer).
Proof.
  pose proof (to_nodup _ _ _ Ht) as H. rewrite <- plug_app, addrs_plug in H. apply NoDup_app in H as (H1 & H2 & _). split; [done|].
  intros Hb. apply (H2 b Hb). by left.
Qed.
(** A leaf with [k] and [v] and an internal node over it and [b]. *)
Definition grown first a1 a2 v b' : tree :=
  if first then Node a2 x None (Leaf a1 (mk k) (Some v)) (Leaf b' x w) else Node a2 (mk k) None (Leaf b' x w) (Leaf a1 (mk k) (Some v)).
Lemma grown_has first a1 a2 v b' k' v' : has fin (grown first a1 a2 v b') k' v' <-> has fin (Leaf b x w) k' v' \/ k' = k /\ v' = v.
Proof. destruct first; cbn; rewrite fin_mk; naive_solver. Qed.
Lemma grown_bst first a1 a2 v b' : kcmp x k = (if first then Gt else Lt) -> bst fin (grown first a1 a2 v b').
Proof.
  intros Hx. pose proof found_bst as (_ & Hb & _)%bst_plug. destruct first; cbn in *; rewrite fin_mk.
  - split_and!; [by eexists|done| |].
    + intros k' v' [[= <-] _]. by apply turn_gt.
    + intros k' v' [E _]. by apply turn_fin.
  - split_and!; [done|by eexists| |].
    + intros k' v' [E _]. by eapply turn_lt.
    + intros k' v' [[= <-] _]. apply turn_fin, fin_mk.
Qed.
Lemma tree_of_grow first a1 a2 v b' : kcmp x k = (if first then Gt else Lt) ->
  NoDup [a2; a1; b'] -> (forall a, a ∈ [a2; a1; b'] -> a ∉ ctx_addrs (c ++ outer)) -> (c = [] -> first = true) ->
  tree_of outer (plug c (grown first a1 a2 v b')) (<[k := v]> A).
Proof.
  intros Hx Hnd Hfr Hc. pose proof (to_spine _ _ _ Ht) as Hs. pose proof tree_of_distinct as [Hnc _]. split.
  - assert (Hperm : addrs (grown first a1 a2 v b') ≡ₚ [a2; a1; b']) by (unfold grown; destruct first; cbn; [done|solve_Permutation]).
    rewrite <- plug_app, addrs_plug, Hperm. apply NoDup_app. split; [done|]. split; [|done]. intros a Ha Ha'. by apply (Hfr a).
  - rewrite <- plug_app. eapply bst_replace; [exact found_bst|by apply grown_bst|].
    intros k' v' [H|[-> ->]]%grown_has; [left; by eexists|by right].
  - destruct (decide (c = [])) as [E|E].
    + rewrite (Hc E). rewrite E in Hs |- *. destruct Hs as [Ex Ew]. cbn. rewrite Ex, Ew. split_and!; [done|done|by eexists].
    + apply (spine_replace k c (Leaf b x w)); [done| |done]. intros st Hst. apply Hp, elem_of_app. by left.
  - intros k' v'. rewrite <- plug_app, has_plug, grown_has, lookup_insert_Some, (to_has _ _ _ Ht), <- plug_app, has_plug.
    pose proof tree_of_lookup as Hk. rewrite decide_False in Hk by (rewrite Hx; by destruct first).
    assert (Hno : ~ (ctx_has fin (c ++ outer) k v' \/ has fin (Leaf b x w) k v')) by (by rewrite <- has_plug, plug_app, <- (to_has _ _ _ Ht), Hk).
    destruct (decide (k = k')) as [<-|]; naive_solver.
Qed.
End found.
(** The leaf [b] and its parent go, its sibling stays. *)
Lemma tree_of_prune outer s c b x w A k : tree_of outer (plug (s :: c) (Leaf b x w)) A -> on_path fin k ((s :: c) ++ outer) ->
  kcmp x k = Eq -> tree_of outer (plug c (s_other s)) (delete k A).
Proof.
  intros Ht Hp Hx. destruct (tree_of_distinct _ _ _ _ _ _ Ht) as [Hnd _]. pose proof (found_bst _ _ _ _ _ _ Ht) as Hb.
  destruct (tree_of_value _ _ _ _ _ _ _ Ht Hx) as [v0 ->]. pose proof (to_spine _ _ _ Ht) as Hs. cbn [app] in *. split.
  - rewrite <- plug_app, addrs_plug. apply NoDup_cons in Hnd as [_ (H1 & H2 & H3)%NoDup_app]. apply NoDup_app. split; [done|].
    split; [|done]. intros a Ha Ha'. by apply (H2 a).
  - rewrite <- plug_app. by apply bst_remove in Hb.
  - destruct c as [|s2 c].
    + assert (Hdir : s_dir s = L).
      { rewrite (Hp s) by (by left). cbn [plug] in Hs. unfold wrap in Hs. destruct (s_dir s); destruct Hs as [-> _]; apply turn_inf. }
      cbn [plug] in *. unfold wrap in Hs. rewrite Hdir in Hs. destruct Hs as (_ & _ & i & ->). done.
    + apply (spine_replace k _ (wrap s (Leaf b x (Some v0)))); [done| |exact Hs]. intros st Hst. apply Hp. right. apply elem_of_app. by left.
  - intros k' v'. rewrite <- plug_app, (has_remove fin _ _ _ _ _ Hb), lookup_delete_Some, (to_has _ _ _ Ht), <- plug_app. cbn [has app].
    apply kcmp_eq in Hx. rewrite Hx. split; [intros [Hne H]; split; [done|]; intros (v1 & [= E] & _); done|].
    intros [H Hn]. split; [|done]. intros ->. apply Hn. by eexists.
Qed.
End contents.

(** ** A leaf in memory *)
Section located.
Context {K V X D : Type} `{!Ord K, !EqDecision K, !Countable K}.
Context (dat : X -> option V -> D) (side : Direction -> nat) (fin : X -> option K) (mk : K -> X) (inf : X) {HK : Keys fin mk inf}.
Implicit Types (m : mem D) (k : K) (v : V) (a b : Z) (x : X) (w : option V) (A : gmap K V) (t : tree V X) (c outer : ctx V X).
#[local] Abbreviation rep := (rep dat side).
(** The leaf [b] on the path of [k], under the path in the tree and that of the sentinels. *)
Record located m outer A k c b x w : Prop := {
  lo_rep : rep m (plug (c ++ outer) (Leaf b x w));
  lo_path : on_path fin k (c ++ outer);
  lo_tree : tree_of fin inf outer (plug c (Leaf b x w)) A
}.
Lemma addrs_size m t : rep m t -> NoDup (addrs t) -> (length (addrs t) <= size (m_data m))%nat.
Proof.
  intros Hr Hnd. rewrite <- (size_dom (D := gset Z) (m_data m)), <- (size_list_to_set (C := gset Z) (addrs t)) by done.
  apply subseteq_size. intros a Ha%elem_of_list_to_set. apply elem_of_dom. by eapply rep_addrs.
Qed.
Lemma height_addrs t : (height t < length (addrs t))%nat.
Proof. induction t; cbn [height addrs length]; rewrite ?length_app; lia. Qed.
(** As many rounds as there are nodes are enough for a walk. *)
Lemma height_size m outer t A : rep m (plug outer t) -> tree_of fin inf outer t A -> (height t < size (m_data m))%nat.
Proof.
  intros Hr Ht. pose proof (addrs_size _ _ Hr (to_nodup _ _ _ _ _ Ht)) as H1. pose proof (height_addrs t).
  rewrite (addrs_plug outer t), length_app in H1. lia.
Qed.
Lemma locate m outer t A k : rep m (plug outer t) -> tree_of fin inf outer t A -> on_path fin k outer -> exists c b x w,
  descend fin k t outer = (c ++ outer, Leaf b x w) /\ descend fin k t [] = (c, Leaf b x w) /\ located m outer A k c b x w.
Proof.
  intros Hr Ht Hp. destruct (tree_of_path fin inf outer t A k Ht Hp) as (c & b & x & w & E & -> & Hpath).
  exists c, b, x, w. rewrite descend_app, E. split; [done|]. split; [done|]. split; [by rewrite plug_app|done|done].
Qed.
Section facts.
Context m outer A k c b x w (Hlo : located m outer A k c b x w).
Lemma located_lookup : A !! k = if decide (kcmp fin x k = Eq) then w else None.
Proof. destruct Hlo. by eapply tree_of_lookup. Qed.
Lemma located_value : kcmp fin x k = Eq -> exists v, w = Some v.
Proof. destruct Hlo. by eapply tree_of_value. Qed.
Lemma located_data : m_data m !! b = Some (dat x w).
Proof. destruct Hlo as [[_ (H & _)]%rep_plug _ _]. exact H. Qed.
Lemma located_nodes a : a ∈ ctx_addrs (c ++ outer) ++ [b] -> is_Some (m_data m !! a).
Proof. destruct Hlo. intros Ha. eapply rep_addrs; [done|]. by rewrite addrs_plug. Qed.
Lemma located_distinct : NoDup (ctx_addrs (c ++ outer)) /\ b ∉ ctx_addrs (c ++ outer).
Proof. destruct Hlo. by eapply tree_of_distinct. Qed.
Lemma located_link s1 cc : c ++ outer = s1 :: cc -> child_link side m (s_addr s1) (s_dir s1) (Some b) /\ is_Some (m_data m !! s_addr s1).
Proof. destruct Hlo. intros Ec. rewrite Ec in *. apply rep_plug in lo_rep0 as [(Hd & Hl & _) _]. split; [exact Hl|by eexists]. Qed.
Lemma located_fuel f : (size (m_data m) <= f)%nat -> exists f', f = S f'.
Proof.
  intros Hf. pose proof located_data as Hd. destruct f as [|f]; [|by eexists].
  assert (E : m_data m = ∅) by (apply map_size_empty_iff; lia). by rewrite E in Hd.
Qed.
(** A null address, or a new node, is not in the tree. *)
Lemma located_ne a a' : a ∈ ctx_addrs (c ++ outer) ++ [b] -> m_data m !! a' = None -> a <> a'.
Proof. intros [d Hd]%located_nodes E ->. congruence. Qed.
(** The subtree at the link to the leaf changes. *)
Lemma located_replace m' s1 cc t' : c ++ outer = s1 :: cc -> rep m' t' ->
  (forall a, a ∈ ctx_addrs (s1 :: cc) -> m_data m' !! a = m_data m !! a) ->
  (forall a d, a ∈ ctx_addrs (s1 :: cc) -> (a, d) <> (s_addr s1, s_dir s1) -> m_links m' !! (a, side d) = m_links m !! (a, side d)) ->
  child_link side m' (s_addr s1) (s_dir s1) (Some (addr t')) -> rep m' (plug outer (plug c t')).
Proof.
  intros Ec Ht' Hd Hl Hc. rewrite <- plug_app, Ec. destruct located_distinct as [Hnd _], Hlo. rewrite Ec in *. by eapply rep_replace.
Qed.
(** The sibling of the leaf takes the place of their parent. *)
Lemma located_splice m' s1 s2 cc : c ++ outer = s1 :: s2 :: cc -> c <> [] ->
  (forall a, a ∈ ctx_addrs (s1 :: s2 :: cc) -> m_data m' !! a = m_data m !! a) ->
  (forall a d, a ∈ ctx_addrs (s1 :: s2 :: cc) -> a <> s_addr s1 -> (a, d) <> (s_addr s2, s_dir s2) -> m_links m' !! (a, side d) = m_links m !! (a, side d)) ->
  child_link side m' (s_addr s2) (s_dir s2) (Some (addr (s_other s1))) -> exists c', c = s1 :: c' /\ rep m' (plug outer (plug c' (s_other s1))).
Proof.
  intros Ec Hne Hd Hl Hc. destruct located_distinct as [Hnd _], Hlo. destruct c as [|s0 c']; [done|]. cbn [app] in Ec. injection Ec as -> Ec.
  exists c'. split; [done|]. rewrite <- plug_app, <- app_comm_cons, Ec in *.
  change (ctx_addrs (s1 :: s2 :: cc)) with (s_addr s1 :: addrs (s_other s1) ++ ctx_addrs (s2 :: cc)) in *.
  apply NoDup_cons in Hnd as [Hs1 Hnd]. apply NoDup_app in Hnd as (_ & Hdis & Hnc). pose proof lo_rep0 as [(_ & _ & _ & Hro & _) _]%rep_plug.
  assert (Hs2 : s_addr s2 ∈ ctx_addrs (s2 :: cc)) by (by left).
  apply (rep_replace dat side m m' s2 cc (wrap s1 (Leaf b x w))); [done|exact lo_rep0| | | |exact Hc].
  - eapply rep_frame; [|exact Hro]. intros a Ha. assert (Ha' : a ∈ addrs (s_other s1) ++ ctx_addrs (s2 :: cc)) by (apply elem_of_app; by left).
    split; [apply Hd; by right|]. intros d. apply Hl; [by right|by intros ->|]. intros [= -> _]. by apply (Hdis _ Ha).
  - intros a Ha. apply Hd. right. apply elem_of_app. by right.
  - intros a d Ha Hn. assert (Ha' : a ∈ addrs (s_other s1) ++ ctx_addrs (s2 :: cc)) by (apply elem_of_app; by right).
    apply Hl; [by right|by intros ->|done].
Qed.
End facts.
End located.

(** ** What a map promises

    [serve] is the map itself; an implementation answers a session of requests as it does. *)
Section session.
Context {K V : Type} `{!EqDecision K, !Countable K}.
Implicit Types (k : K) (v : V) (A : gmap K V).
Inductive request := QGet k | QInsert k v | QRemove k.
Inductive reply := AGet (r : option V) | AInsert (b : bool) | ARemove (r : option V).
Definition serve (q : request) A : reply * gmap K V :=
  match q with
  | QGet k => (AGet (A !! k), A)
  | QInsert k v => (AInsert (bool_decide (A !! k = None)), match A !! k with Some _ => A | None => <[k := v]> A end)
  | QRemove k => (ARemove (A !! k), delete k A)
  end.
Fixpoint serve_all (qs : list request) A : list reply * gmap K V :=
  match qs with [] => ([], A) | q :: qs' => let '(a, A') := serve q A in let '(l, A'') := serve_all qs' A' in (a :: l, A'') end.
(** An implementation, with a bound on the fuel a request needs and by how much a request
    raises it. *)
Class MapImpl (S : Type) := {
  mi_exec : nat -> request -> prog S reply;
  mi_holds : S -> gmap K V -> Prop;
  mi_cost : S -> nat;
  mi_growth : nat;
  mi_exec_ok : forall f q s A, mi_holds s A -> (mi_cost s <= f)%nat -> exists s',
    run (mi_exec f q) s = Ok ((serve q A).1, s') /\ mi_holds s' (serve q A).2 /\ (mi_cost s' <= mi_cost s + mi_growth)%nat
}.
Context {S : Type} `{!MapImpl S}.
Fixpoint session (f : nat) (qs : list request) : prog S (list reply) :=
  match qs with
  | [] => Ret []
  | q :: qs' => bind (mi_exec f q) (fun a => bind (session f qs') (fun l => Ret (a :: l)))
  end.
Lemma run_session f qs s A : mi_holds s A -> (mi_cost s + length qs * mi_growth <= f)%nat -> exists s',
  run (session f qs) s = Ok ((serve_all qs A).1, s') /\ mi_holds s' (serve_all qs A).2.
Proof.
  revert s A. induction qs as [|q qs IH]; intros s A Hs Hf; [by exists s|]. cbn [session serve_all length] in *.
  destruct (mi_exec_ok f q s A Hs ltac:(lia)) as (s1 & E & Hs1 & Hc). destruct (serve q A) as [a A1]. cbn [fst snd] in *.
  destruct (IH s1 A1 Hs1 ltac:(lia)) as (s2 & E2 & Hs2). destruct (serve_all qs A1) as [l A2]. cbn [fst snd] in *.
  exists s2. by rewrite run_bind, E, run_bind, E2.
Qed.
End session.
Arguments request K V : clear implicits.
Arguments reply V : clear implicits.
Arguments MapImpl K V {_ _} S.
