(* ===== verification/NMTree.v ===== *)
(** * The Natarajan-Mittal tree ([examples/ds/nm_tree.rs])

    An external search tree whose edges carry two marks: a flagged edge leads to a leaf
    that is being removed, a tagged edge may not change any more.  Link 0 of a node is
    its left child, link 1 the right one. *)
From S2P Require Import Prelude Prog Managed Lists SearchTree.
#[local] Open Scope Z_scope.
#[local] Open Scope prog_scope.

(** ** [Marks] *)
Definition FLAG : Z := 2.
Definition TAG : Z := 1.
Definition marks_empty : Z := 0.
Definition marks_new (flag tag : bool) : Z := Z.lor (if flag then FLAG else marks_empty) (if tag then TAG else marks_empty).
Definition from_bits_truncate (bits : Z) : Z := Z.land bits (Z.lor FLAG TAG).
Definition flag (marks : Z) : bool := negb (Z.land marks FLAG =? 0).
Definition tag (marks : Z) : bool := negb (Z.land marks TAG =? 0).

Inductive Key (K : Type) := Fin (k : K) | Inf.
Arguments Fin {K} k.
Arguments Inf {K}.
Definition fin {K} (x : Key K) : option K := match x with Fin k => Some k | Inf => None end.

Section nm.
Context {K V : Type} `{!Ord K, !EqDecision K, !Countable K}.
(** [Node { key, value, left, right }]: links 0 and 1. *)
#[local] Abbreviation node := (Key K * option V)%type.
Definition dat (x : Key K) (w : option V) : node := (x, w).
#[local] Abbreviation M := (prog (mem node)).
Implicit Types (m : mem node) (k : K) (v : V).

Definition key_cmp (x : Key K) k : comparison := kcmp fin x k.
Definition side (d : Direction) : nat := match d with L => 0 | R => 1 end.
Definition left (a : Z) : loc := (a, side L).
Definition right (a : Z) : loc := (a, side R).
Definition root : loc := (0, 0%nat).

Definition no_links : list link := [(None, 0); (None, 0)].
(** A [Node] before it is moved into managed memory. *)
Definition node_value : Type := node * list link.
Definition new_leaf (key : Key K) (value : option V) : node_value := (dat key value, no_links).
Definition local_new (h : nat) (n : node_value) : M Z := c_new_final h n.1 n.2.
Definition new_internal (h : nat) (left right : node_value) : M node_value :=
  let key := right.1.1 in
  l <- local_new h left ;
  r <- local_new h right ;
  Ret (dat key None, [(Some l, 0); (Some r, 0)]).
Definition set_key (a : Z) (key : Key K) : M unit := d <- c_deref a ; c_set_data a (dat key d.2).
Definition node_key (a : Z) : M (Key K) := d <- c_deref a ; Ret d.1.

(** [VHolder]: a protected leaf. *)
Definition vholder_new (leaf : Z) (handle : nat) : Z := leaf.
Definition vholder_borrow (leaf : Z) : M V :=
  d <- c_deref leaf ; unwrap d.2 "called `Option::unwrap()` on a `None` value".

Record SeekRecord := mkSeek {
  ancestor : Z; successor : Z; successor_dir : Direction; parent : Z; sr_leaf : Z; leaf_dir : Direction
}.
Definition child (a : Z) (d : Direction) : loc := (a, side d).
Definition successor_addr (r : SeekRecord) : loc := child (ancestor r) (successor_dir r).
Definition leaf_addr (r : SeekRecord) : loc := child (parent r) (leaf_dir r).
Definition leaf_sibling_addr (r : SeekRecord) : loc := child (parent r) (flip_dir (leaf_dir r)).

Definition new_tree (h : nat) : M unit :=
  let inf0 := new_leaf Inf None in
  let inf1 := new_leaf Inf None in
  let inf2 := new_leaf Inf None in
  s <- new_internal h inf0 inf1 ;
  r <- new_internal h s inf2 ;
  r <- local_new h r ;
  modify (set_link root (Some r, 0)).

Definition load_root : M Z := p <- c_load root ; unchecked p "unwrap_unchecked".
Definition load_child (a : Z) (d : Direction) : M Z :=
  p <- c_load (child a d) ; unwrap p "called `Option::unwrap()` on a `None` value".

(** One round of the loop of [seek]: the record, whether the edge to its leaf is tagged, and
    the edge read last with its direction. *)
Definition seek_state : Type := SeekRecord * bool * Direction * link.
Definition seek_step (key : K) : seek_state -> M (seek_state + SeekRecord) := fun '(record, prev_tag, curr_dir, (curr, curr_tag)) =>
  match curr with
  | None => Ret (inr record)
  | Some curr_node =>
      let record := if negb prev_tag
        then mkSeek (parent record) (sr_leaf record) (leaf_dir record) (parent record) (sr_leaf record) (leaf_dir record)
        else record in
      let record := mkSeek (ancestor record) (successor record) (successor_dir record) (sr_leaf record) curr_node curr_dir in
      let prev_tag := tag (from_bits_truncate curr_tag) in
      x <- node_key curr_node ;
      match key_cmp x key with
      | Gt => c <- c_load_with_tag (left curr_node) ; Ret (inl (record, prev_tag, L, c))
      | _ => c <- c_load_with_tag (right curr_node) ; Ret (inl (record, prev_tag, R, c))
      end
  end.
Definition seek (fuel : nat) (key : K) : M SeekRecord :=
  r <- load_root ;
  s <- load_child r L ;
  lt <- c_load_with_tag (left s) ;
  leaf <- unwrap lt.1 "called `Option::unwrap()` on a `None` value" ;
  let record := mkSeek r s L s leaf L in
  let prev_tag := tag (from_bits_truncate lt.2) in
  c <- c_load_with_tag (left leaf) ;
  loop fuel (seek_step key) (record, prev_tag, L, c).

Definition seek_leaf_step (key : K) : Z * option Z -> M (Z * option Z + Z) := fun '(leaf, curr) =>
  match curr with
  | None => Ret (inr leaf)
  | Some curr_node =>
      x <- node_key curr_node ;
      match key_cmp x key with
      | Gt => c <- c_load (left curr_node) ; Ret (inl (curr_node, c))
      | _ => c <- c_load (right curr_node) ; Ret (inl (curr_node, c))
      end
  end.
Definition seek_leaf (fuel : nat) (key : K) : M Z :=
  r <- load_root ;
  s <- load_child r L ;
  leaf <- load_child s L ;
  curr <- c_load (left leaf) ;
  loop fuel (seek_leaf_step key) (leaf, curr).

Definition cleanup (record : SeekRecord) : M bool :=
  lt <- c_load_with_tag (leaf_addr record) ;
  let leaf_flag := flag (from_bits_truncate lt.2) in
  let target_sibling_addr := if leaf_flag then leaf_sibling_addr record else leaf_addr record in
  _ <- c_fetch_or target_sibling_addr TAG ;
  st <- c_load_with_tag target_sibling_addr ;
  let flag := flag (from_bits_truncate st.2) in
  r <- c_cas_with_tag (successor_addr record) (Some (successor record), 0) (st.1, marks_new flag false) ;
  Ret (match r with inl _ => true | inr _ => false end).

Definition get (fuel : nat) (key : K) (handle : nat) : M (option Z) :=
  leaf <- seek_leaf fuel key ;
  x <- node_key leaf ;
  match key_cmp x key with Eq => Ret (Some (vholder_new leaf handle)) | _ => Ret None end.

(** A [LazyCell]: the node once it was forced. *)
Definition force (cell : option Z) (init : M Z) : M Z := match cell with Some a => Ret a | None => init end.

(** The rest of a round of [insert], once the children of the new internal node are known. *)
Definition try_insert (handle : nat) (record : SeekRecord) (new_internal_cell : option Z) (new_leaf new_left new_right : Z) :
    M (option Z * option Z + bool) :=
  new_internal <- force new_internal_cell (c_new handle (dat Inf None) no_links) ;
  rx <- node_key new_right ;
  set_key new_internal rx ;;
  c_store (left new_internal) (Some new_left) ;;
  c_store (right new_internal) (Some new_right) ;;
  r <- c_cas_with_tag (leaf_addr record) (Some (sr_leaf record), marks_empty) (Some new_internal, marks_empty) ;
  match r with
  | inl _ => Ret (inr true)
  | inr current =>
      (if decide (current.1 = Some (sr_leaf record)) then _ <- cleanup record ; Ret tt else Ret tt) ;;
      Ret (inl (Some new_leaf, Some new_internal))
  end.
Definition insert (fuel : nat) (key : K) (value : V) (handle : nat) : M bool :=
  loop fuel (fun '(new_leaf_cell, new_internal_cell) =>
    record <- seek fuel key ;
    let leaf := sr_leaf record in
    x <- node_key leaf ;
    match key_cmp x key with
    | Eq => Ret (inr false)
    | Gt => nl <- force new_leaf_cell (local_new handle (new_leaf (Fin key) (Some value))) ;
            try_insert handle record new_internal_cell nl nl leaf
    | Lt => nl <- force new_leaf_cell (local_new handle (new_leaf (Fin key) (Some value))) ;
            try_insert handle record new_internal_cell nl leaf nl
    end) (None, None).

(** The injection phase: [inl leaf] enters the cleanup phase, [inr] returns. *)
Definition inject (fuel : nat) (key : K) (handle : nat) : M (Z + option Z) :=
  loop fuel (fun _ : unit =>
    record <- seek fuel key ;
    let leaf := sr_leaf record in
    x <- node_key leaf ;
    match key_cmp x key with
    | Eq =>
        r <- c_cas_with_tag (leaf_addr record) (Some leaf, marks_empty) (Some leaf, marks_new true false) ;
        match r with
        | inl _ => ok <- cleanup record ;
                   Ret (inr (if ok : bool then inr (Some (vholder_new leaf handle)) else inl leaf))
        | inr current =>
            (if decide (current.1 = Some leaf) then _ <- cleanup record ; Ret tt else Ret tt) ;; Ret (inl tt)
        end
    | _ => Ret (inr (inr None))
    end) tt.
Definition remove (fuel : nat) (key : K) (handle : nat) : M (option Z) :=
  r <- inject fuel key handle ;
  match r with
  | inr r => Ret r
  | inl leaf =>
      loop fuel (fun _ : unit =>
        record <- seek fuel key ;
        if negb (sr_leaf record =? leaf) then Ret (inr (Some (vholder_new leaf handle))) else
        ok <- cleanup record ;
        if ok : bool then Ret (inr (Some (vholder_new leaf handle))) else Ret (inl tt)) tt
  end.

(** What a caller of [ConcurrentMap] sees. *)
Definition nm_exec (h fuel : nat) (q : request K V) : M (reply V) :=
  let borrow_opt (r : option Z) := match r with Some leaf => v <- vholder_borrow leaf ; Ret (Some v) | None => Ret None end in
  match q with
  | QGet k => r <- get fuel k h ; x <- borrow_opt r ; Ret (AGet x)
  | QInsert k v => b <- insert fuel k v h ; Ret (AInsert b)
  | QRemove k => r <- remove fuel k h ; x <- borrow_opt r ; Ret (ARemove x)
  end.

(** ** The tree alone *)
#[local] Abbreviation tree := (tree V (Key K)).
#[local] Abbreviation rep := (rep dat side).
Definition outer (r s i1 i2 : Z) : ctx V (Key K) :=
  [mkStep s Inf None L (Leaf i1 Inf None); mkStep r Inf None L (Leaf i2 Inf None)].
#[export] Instance nm_keys : Keys (@fin K) Fin Inf.
Proof. done. Qed.
(** The tree under the two sentinels holds the pairs of [A]; no edge is marked. *)
Definition holds m (A : gmap K V) : Prop := exists r s i1 i2 t,
  mem_ok m /\ m_links m !! root = Some (Some r, 0) /\ rep m (plug (outer r s i1 i2) t) /\ tree_of fin Inf (outer r s i1 i2) t A.

(** *** The searches *)
Definition record_of (c : ctx V (Key K)) (a : Z) : SeekRecord :=
  match c with
  | s1 :: s2 :: _ => mkSeek (s_addr s2) (s_addr s1) (s_dir s2) (s_addr s1) a (s_dir s1)
  | _ => mkSeek 0 0 L 0 a L
  end.
Lemma run_node_key a x w m : m_data m !! a = Some (x, w) -> run (node_key a) m = Ok (x, m).
Proof. intros H. unfold node_key, c_deref. rewrite run_bind. cbn [atomic run]. by rewrite H. Qed.
Lemma run_load_tag a d p m : child_link side m a d p -> run (c_load_with_tag (child a d)) m = Ok ((p, 0), m).
Proof. intros H. unfold c_load_with_tag, child. cbn. by rewrite H. Qed.
Lemma run_load a d p m : child_link side m a d p -> run (c_load (child a d)) m = Ok (p, m).
Proof. intros H. unfold c_load. by rewrite run_bind, (run_load_tag _ _ _ _ H). Qed.
Lemma turn_cmp x k : turn fin x k = match key_cmp x k with Gt => L | _ => R end.
Proof. done. Qed.
(** One round of a walk: from [t] to its child on the side the key [k] turns to. *)
Lemma run_seek_step k m c a x w l r : rep m (Node a x w l r) -> (1 < length c)%nat -> let u := match turn fin x k with L => l | R => r end in
  run (seek_step k (record_of c a, false, turn fin x k, (next_child (turn fin x k) (Node a x w l r), 0))) m =
    Ok (inl (record_of (mkStep a x w (turn fin x k) (match turn fin x k with L => r | R => l end) :: c) (addr u), false,
             turn fin (key u) k, (next_child (turn fin (key u) k) u, 0)), m).
Proof.
  intros (_ & _ & _ & Hl & Hr) Hc u. assert (Hu : rep m u) by (unfold u; by destruct (turn fin x k)).
  destruct (rep_data _ _ _ _ Hu) as [wu Hd]. cbn [seek_step next_child].
  assert (Eu : addr (match turn fin x k with L => l | R => r end) = addr u) by done. rewrite Eu.
  rewrite run_bind, (run_node_key _ _ _ _ Hd). destruct c as [|s1 [|s2 c]]; [cbn in Hc; lia|cbn in Hc; lia|].
  rewrite (turn_cmp (key u)). unfold left, right. change (addr u, side ?d) with (child (addr u) d).
  destruct (key_cmp (key u) k); rewrite run_bind.
  - by rewrite (run_load_tag _ R _ _ (rep_next _ _ _ _ R Hu)).
  - by rewrite (run_load_tag _ R _ _ (rep_next _ _ _ _ R Hu)).
  - by rewrite (run_load_tag _ L _ _ (rep_next _ _ _ _ L Hu)).
Qed.
Lemma run_seek_loop k m t f c : rep m t -> (1 < length c)%nat -> (height t < f)%nat ->
  run (loop f (seek_step k) (record_of c (addr t), false, turn fin (key t) k, (next_child (turn fin (key t) k) t, 0))) m =
    Ok (record_of (descend fin k t c).1 (addr (descend fin k t c).2), m).
Proof.
  revert f c. induction t as [a x w|a x w l IHl r IHr]; intros f c Hr Hc Hf; (destruct f as [|f]; [cbn in Hf; lia|]); cbn [loop]; rewrite run_bind.
  - done.
  - cbn [addr key]. rewrite run_seek_step by done. cbn [descend]. pose proof Hr as (_ & _ & _ & Hl & Hrr). cbn [height] in Hf.
    destruct (turn fin x k); [apply IHl|apply IHr]; cbn; (done || lia).
Qed.
Lemma run_seek f k m r s i1 i2 t : m_links m !! root = Some (Some r, 0) -> rep m (plug (outer r s i1 i2) t) -> spine Inf t -> (height t < f)%nat ->
  run (seek f k) m = Ok (record_of (descend fin k t (outer r s i1 i2)).1 (addr (descend fin k t (outer r s i1 i2)).2), m).
Proof.
  intros Hroot Hrep Hsp Hf. apply rep_plug in Hrep as [(H1 & H2 & _ & _ & H3) Ht]. destruct H3 as (H4 & H5 & _). cbn [s_addr s_dir outer] in *.
  unfold seek, load_root, load_child. rewrite run_bind, run_bind. unfold c_load at 1. rewrite run_bind. unfold c_load_with_tag at 1.
  cbn [atomic run]. rewrite Hroot. cbn [run fst unchecked]. rewrite run_bind, run_bind, (run_load _ L _ _ H5). cbn [unwrap run].
  change (left s) with (child s L). rewrite run_bind, (run_load_tag _ L _ _ H2). cbn [fst snd unwrap]. rewrite run_bind. cbn [run].
  change (left (addr t)) with (child (addr t) L). rewrite run_bind, (run_load_tag _ L _ _ (rep_next _ _ _ _ L Ht)).
  assert (Et : turn fin (key t) k = L) by exact (spine_turn fin Fin Inf t k Hsp).
  rewrite <- (run_seek_loop k m t f (outer r s i1 i2) Ht ltac:(cbn; lia) Hf), Et. done.
Qed.
Lemma run_seek_leaf_loop k m t f : rep m t -> (height t < f)%nat ->
  run (loop f (seek_leaf_step k) (addr t, next_child (turn fin (key t) k) t)) m = Ok (addr (descend fin k t []).2, m).
Proof.
  revert f. induction t as [a x w|a x w l IHl r IHr]; intros f Hr Hf; (destruct f as [|f]; [cbn in Hf; lia|]); cbn [loop]; rewrite run_bind.
  - done.
  - pose proof Hr as (_ & _ & _ & Hl & Hrr). cbn [addr key next_child descend height] in *.
    set (u := match turn fin x k with L => l | R => r end). assert (Hu : rep m u) by (unfold u; by destruct (turn fin x k)).
    assert (Estep : run (seek_leaf_step k (addr (Node a x w l r), Some (addr u))) m = Ok (inl (addr u, next_child (turn fin (key u) k) u), m)).
    { destruct (rep_data _ _ _ _ Hu) as [wu Hd]. cbn [seek_leaf_step]. rewrite run_bind, (run_node_key _ _ _ _ Hd).
      rewrite (turn_cmp (key u)). change (left (addr u)) with (child (addr u) L). change (right (addr u)) with (child (addr u) R).
      destruct (key_cmp (key u) k); rewrite run_bind.
      - by rewrite (run_load _ R _ _ (rep_next _ _ _ _ R Hu)).
      - by rewrite (run_load _ R _ _ (rep_next _ _ _ _ R Hu)).
      - by rewrite (run_load _ L _ _ (rep_next _ _ _ _ L Hu)). }
    cbn [addr] in Estep. 
    unfold u in *. destruct (turn fin x k); rewrite Estep, descend_app; cbn [snd]; [apply IHl|apply IHr]; (done || lia).
Qed.
Lemma run_seek_leaf f k m r s i1 i2 t : m_links m !! root = Some (Some r, 0) -> rep m (plug (outer r s i1 i2) t) -> spine Inf t -> (height t < f)%nat ->
  run (seek_leaf f k) m = Ok (addr (descend fin k t []).2, m).
Proof.
  intros Hroot Hrep Hsp Hf. apply rep_plug in Hrep as [(H1 & H2 & _ & _ & H3) Ht]. destruct H3 as (H4 & H5 & _). cbn [s_addr s_dir outer] in *.
  unfold seek_leaf, load_root, load_child. rewrite run_bind, run_bind. unfold c_load at 1. rewrite run_bind. unfold c_load_with_tag at 1.
  cbn [atomic run]. rewrite Hroot. cbn [run fst unchecked]. rewrite run_bind, run_bind, (run_load _ L _ _ H5). cbn [unwrap run].
  rewrite run_bind, run_bind, (run_load _ L _ _ H2). cbn [unwrap run].
  change (left (addr t)) with (child (addr t) L). rewrite run_bind, (run_load _ L _ _ (rep_next _ _ _ _ L Ht)).
  assert (Et : turn fin (key t) k = L) by exact (spine_turn fin Fin Inf t k Hsp).
  rewrite <- (run_seek_leaf_loop k m t f Ht Hf), Et. done.
Qed.

(** *** Where a search ends *)
#[local] Abbreviation located := (located dat side fin Inf).
Lemma outer_path k r s i1 i2 : on_path fin k (outer r s i1 i2).
Proof. intros st [->|[->|H]%elem_of_cons]%elem_of_cons; [done|done|by apply not_elem_of_nil in H]. Qed.
Lemma holds_located f m A k : holds m A -> (size (m_data m) <= f)%nat -> exists r s i1 i2 c b x w,
  mem_ok m /\ m_links m !! root = Some (Some r, 0) /\ located m (outer r s i1 i2) A k c b x w /\
  run (seek f k) m = Ok (record_of (c ++ outer r s i1 i2) b, m) /\ run (seek_leaf f k) m = Ok (b, m).
Proof.
  intros (r & s & i1 & i2 & t & Hok & Hroot & Hrep & Ht) Hf. exists r, s, i1, i2.
  pose proof (height_size dat side fin Inf m _ _ _ Hrep Ht) as Hh. pose proof (to_spine _ _ _ _ _ Ht) as Hsp.
  destruct (locate dat side fin Inf m _ _ _ k Hrep Ht (outer_path _ _ _ _ _)) as (c & b & x & w & E1 & E2 & Hlo).
  exists c, b, x, w. rewrite (run_seek f k m r s i1 i2 t), E1 by (done || lia). by rewrite (run_seek_leaf f k m r s i1 i2 t), E2 by (done || lia).
Qed.
End nm.
