(* ===== verification/NMTreeCorrect.v ===== *)
(** * The Natarajan-Mittal tree alone is a map

    Against [holds]: the pairs in the leaves are those of a finite map.  [get], [insert] and
    [remove] by one thread are the operations of the map, and they return. *)
From S2P Require Import Prelude Prog Managed Lists SearchTree NMTree.
#[local] Open Scope Z_scope.
#[local] Open Scope prog_scope.

Section alone.
Context {K V : Type} `{!Ord K, !EqDecision K, !Countable K}.
#[local] Abbreviation M := (prog (mem (Key K * option V))).
#[local] Abbreviation tree := (tree V (Key K)).
#[local] Abbreviation rep := (rep dat side).
#[local] Abbreviation located := (located dat side fin Inf).
Implicit Types (m : mem (Key K * option V)) (k : K) (v : V) (A : gmap K V) (t : tree) (x : Key K) (w : option V) (first : bool) (c cc : ctx V (Key K)).

Lemma run_get f m A k h : holds m A -> (size (m_data m) <= f)%nat ->
  match A !! k with
  | Some v => exists leaf, run (get f k h) m = Ok (Some leaf, m) /\ run (vholder_borrow leaf) m = Ok (v, m)
  | None => run (get f k h) m = Ok (None, m)
  end.
Proof.
  intros H Hf. destruct (holds_located f m A k H Hf) as (r & s & i1 & i2 & c & b & x & w & _ & _ & Hlo & _ & Es).
  pose proof (located_data _ _ _ _ _ _ _ _ _ _ _ _ Hlo) as Hd.
  assert (E : run (get f k h) m = Ok (if decide (key_cmp x k = Eq) then Some b else None, m)).
  { unfold get. rewrite run_bind, Es, run_bind, (run_node_key _ _ _ _ Hd). by destruct (key_cmp x k). }
  rewrite (located_lookup _ _ _ _ _ _ _ _ _ _ _ _ Hlo), E. unfold key_cmp in *. case_decide as Ec; [|done].
  destruct (located_value _ _ _ _ _ _ _ _ _ _ _ _ Hlo Ec) as [v ->]. exists b. split; [done|].
  unfold vholder_borrow, c_deref. rewrite run_bind. cbn [atomic run]. by rewrite Hd.
Qed.

(** ** Insertion *)
(** [m']: the leaf [a1] and the internal node [a2] are new, and the link [l] leads to [a2]. *)
Record attached m m' (l : loc) (a1 a2 : Z) k v (rx : Key K) (nl nr : Z) : Prop := {
  at_ok : mem_ok m';
  at_new : m_data m !! a1 = None /\ m_data m !! a2 = None /\ a1 <> a2 /\ a1 <> 0 /\ a2 <> 0;
  at_data : m_data m' = <[a2 := (rx, None)]> (<[a1 := (Fin k, Some v)]> (m_data m));
  at_link : m_links m' !! l = Some (Some a2, 0);
  at_leaf : m_links m' !! left a1 = Some (None, 0) /\ m_links m' !! right a1 = Some (None, 0);
  at_inner : m_links m' !! left a2 = Some (Some nl, 0) /\ m_links m' !! right a2 = Some (Some nr, 0);
  at_old : forall a i, a <> a1 -> a <> a2 -> (a, i) <> l -> m_links m' !! (a, i) = m_links m !! (a, i)
}.
Lemma mem_ok_data m a d : mem_ok m -> is_Some (m_data m !! a) -> mem_ok (mkMem (<[a := d]> (m_data m)) (m_links m) (m_owner m)).
Proof.
  intros [H1 H2] [d' Ha]. split; cbn.
  - rewrite lookup_insert_ne; [done|congruence].
  - intros b h Ho. destruct (decide (b = a)) as [->|]; [rewrite lookup_insert_eq; by eexists|].
    rewrite lookup_insert_ne by done. by eapply H2.
Qed.
Lemma run_local_new h d m : run (local_new h (d, no_links)) m =
  Ok (fresh_addr m, publish (Some (fresh_addr m)) (add_node h (fresh_addr m) d no_links m)).
Proof. done. Qed.
Lemma run_set_key a x d m : m_data m !! a = Some d -> run (set_key a x) m = Ok (tt, mkMem (<[a := dat x d.2]> (m_data m)) (m_links m) (m_owner m)).
Proof. intros H. unfold set_key, c_deref. rewrite run_bind. cbn [atomic run]. rewrite H. cbn [c_set_data atomic run]. by rewrite H. Qed.
Lemma run_try_insert h rec a1 nl nr x w m : mem_ok m -> m_data m !! nr = Some (x, w) -> is_Some (m_data m !! parent rec) ->
  m_links m !! leaf_addr rec = Some (Some (sr_leaf rec), 0) ->
  let a2 := fresh_addr m in exists m', run (try_insert h rec None a1 nl nr) m = Ok (inr true, m') /\ mem_ok m' /\
    m_data m' = <[a2 := (x, None)]> (m_data m) /\
    m_links m' = <[leaf_addr rec := (Some a2, 0)]> (<[right a2 := (Some nr, 0)]> (<[left a2 := (Some nl, 0)]>
      (add_links a2 0 no_links (m_links m)))).
Proof.
  intros Hok Hnr Hp Hl a2. destruct (fresh_addr_ok m) as [Hn Hf]. fold a2 in Hn, Hf.
  assert (Hne : nr <> a2) by congruence. assert (Hpn : parent rec <> a2) by (intros E; rewrite E in Hp; by destruct Hp; congruence).
  set (m1 := add_node h a2 (dat Inf None) no_links m). assert (Ea2 : m_data m1 !! a2 = Some (Inf, None)) by (cbn; by rewrite lookup_insert_eq).
  assert (Ec : run (force None (c_new h (dat Inf None) no_links)) m = Ok (a2, m1)) by done.
  assert (Ek : run (node_key nr) m1 = Ok (x, m1)) by (apply (run_node_key nr x w); cbn; by rewrite lookup_insert_ne).
  set (m4 := set_link (right a2) (Some nr, 0) (set_link (left a2) (Some nl, 0) (mkMem (<[a2 := (x, None)]> (m_data m1)) (m_links m1) (m_owner m1)))).
  unfold try_insert. rewrite run_bind, Ec, run_bind, Ek, run_bind, (run_set_key _ _ _ _ Ea2). cbn [snd].
  rewrite run_bind. cbn [c_store modify atomic run]. rewrite run_bind. cbn [c_store modify atomic run]. fold m4. rewrite run_bind.
  cbn [c_cas_with_tag atomic run]. unfold m4, m1. cbn [set_link m_links m_data m_owner add_node].
  assert (El : forall i p L, <[(a2, i) := p]> L !! leaf_addr rec = (L : gmap loc link) !! leaf_addr rec).
  { intros i p L. apply lookup_insert_ne. unfold leaf_addr, child. congruence. }
  unfold left, right. cbn [no_links add_links]. rewrite !El, Hl.
  rewrite decide_True by done. eexists. split; [done|]. split; [|split; [|done]].
  - refine (mem_ok_publish _ (Some a2) (mem_ok_set _ _ _ (mem_ok_set _ _ _ (mem_ok_set _ _ _ (mem_ok_data m1 a2 _ _ _))))).
    + by apply mem_ok_new.
    + by eexists.
  - cbn. by rewrite insert_insert_eq.
Qed.
Lemma run_attach (first : bool) h rec k v x w m : mem_ok m -> m_data m !! sr_leaf rec = Some (x, w) -> is_Some (m_data m !! parent rec) ->
  m_links m !! leaf_addr rec = Some (Some (sr_leaf rec), 0) -> exists a1 a2 m',
  run (nl <- local_new h (new_leaf (Fin k) (Some v)) ;
       if first then try_insert h rec None nl nl (sr_leaf rec) else try_insert h rec None nl (sr_leaf rec) nl) m = Ok (inr true, m') /\
  attached m m' (leaf_addr rec) a1 a2 k v (if first then x else Fin k) (if first then a1 else sr_leaf rec) (if first then sr_leaf rec else a1).
Proof.
  intros Hok Hd Hp Hl. set (a1 := fresh_addr m). destruct (fresh_addr_ok m) as [Hn1 Hf1]. fold a1 in Hn1, Hf1.
  set (m1 := publish (Some a1) (add_node h a1 (Fin k, Some v) no_links m)). destruct (fresh_addr_ok m1) as [Hn2 Hf2].
  set (a2 := fresh_addr m1) in *. unfold new_leaf. rewrite run_bind, run_local_new. fold a1. unfold dat. fold m1.
  assert (Hd1 : forall a, a <> a1 -> m_data m1 !! a = m_data m !! a) by (intros a Ha; cbn; by rewrite lookup_insert_ne).
  assert (Ha1 : m_data m1 !! a1 = Some (Fin k, Some v)) by (cbn; by rewrite lookup_insert_eq).
  assert (H12 : a1 <> a2) by congruence. assert (Hf2' : m_data m !! a2 = None) by (rewrite <- Hd1; done).
  assert (Hpn : parent rec <> a1 /\ parent rec <> a2) by (split; intros E; rewrite E in Hp; by destruct Hp; congruence).
  assert (Hln : sr_leaf rec <> a1) by congruence.
  set (nl := if first then a1 else sr_leaf rec). set (nr := if first then sr_leaf rec else a1). set (rx := if first then x else Fin k).
  assert (Hnr : exists wr, m_data m1 !! nr = Some (rx, wr)).
  { unfold nr, rx. destruct first; [rewrite Hd1 by done; by eexists|by eexists]. }
  destruct Hnr as [wr Hnr].
  destruct (run_try_insert h rec a1 nl nr rx wr m1) as (m' & E & Hok' & Ed & El); [|done| | |].
  - by apply mem_ok_publish, mem_ok_new.
  - rewrite Hd1; [done|tauto].
  - destruct Hpn as [Hp1 _]. cbn. unfold leaf_addr, child. rewrite !lookup_insert_ne; [done|congruence|congruence].
  - exists a1, a2, m'. split; [unfold nl, nr in E; destruct first; exact E|]. fold a2 in Ed, El.
    assert (Hleaf : forall a i, a <> parent rec -> (a, i) <> leaf_addr rec) by (unfold leaf_addr, child; congruence).
    assert (Hm1 : m_links m1 !! left a1 = Some (None, 0) /\ m_links m1 !! right a1 = Some (None, 0)).
    { cbn. split; [apply lookup_insert_eq|]. rewrite lookup_insert_ne by done. apply lookup_insert_eq. }
    assert (Hl1 : forall i, (a1, i) <> leaf_addr rec) by (intros i; apply Hleaf; naive_solver).
    assert (Hl2 : forall i, leaf_addr rec <> (a2, i)) by (intros i; apply not_eq_sym, Hleaf; naive_solver).
    unfold left, right, no_links in *. cbn [add_links side] in *.
    constructor; [done|done|done|by rewrite El, lookup_insert_eq| | |]; unfold left, right; cbn [side]; rewrite ?El.
    + rewrite !lookup_insert_ne by (apply not_eq_sym, Hl1 || congruence). exact Hm1.
    + rewrite !(lookup_insert_ne _ (leaf_addr rec)) by apply Hl2. rewrite (lookup_insert_ne _ (a2, 1%nat) (a2, 0%nat)), !lookup_insert_eq by done. done.
    + intros a i H1 H2 H3. rewrite !lookup_insert_ne by congruence. cbn.
      by rewrite !lookup_insert_ne by congruence.
Qed.

Lemma grown_rep m m' l first a1 a2 k v b x w : attached m m' l a1 a2 k v (if first then x else Fin k) (if first then a1 else b) (if first then b else a1) ->
  rep m (Leaf b x w) -> l.1 <> b -> rep m' (grown Fin x w k first a1 a2 v b).
Proof.
  intros [_ (F1 & F2 & F12 & _) Hd _ [L1 L2] [I1 I2] Ho] (Hb & Hl & Hr) Hne.
  assert (Eb : b <> a1 /\ b <> a2) by (split; congruence). destruct Eb as [E1 E2].
  assert (R1 : rep m' (Leaf a1 (Fin k) (Some v))).
  { cbn. rewrite Hd, lookup_insert_ne, lookup_insert_eq by done. done. }
  assert (R2 : rep m' (Leaf b x w)).
  { cbn. unfold child_link in *. rewrite Hd, !lookup_insert_ne by done. cbn in *. rewrite !Ho by (done || (intros <-; done)). done. }
  unfold grown. destruct first; (split; [by rewrite Hd, lookup_insert_eq|split; [exact I1|split; [exact I2|done]]]).
Qed.
Lemma record_steps (c : ctx V (Key K)) r s i1 i2 : exists s1 s2 cc, c ++ outer r s i1 i2 = s1 :: s2 :: cc.
Proof. destruct c as [|s1 [|s2 c]]; cbn; eauto. Qed.
Lemma attach_holds m m' A k v r s i1 i2 c b x w s1 cc first a1 a2 : mem_ok m -> m_links m !! root = Some (Some r, 0) ->
  located m (outer r s i1 i2) A k c b x w -> c ++ outer r s i1 i2 = s1 :: cc -> key_cmp x k = (if first then Gt else Lt) ->
  attached m m' (child (s_addr s1) (s_dir s1)) a1 a2 k v (if first then x else Fin k) (if first then a1 else b) (if first then b else a1) ->
  holds m' (<[k := v]> A).
Proof.
  intros Hm Hroot Hlo Ec Hx Hat. pose proof (located_ne _ _ _ _ _ _ _ _ _ _ _ _ Hlo) as Hne.
  destruct (located_distinct _ _ _ _ _ _ _ _ _ _ _ _ Hlo) as [_ Hb]. pose proof Hat as [Hok (F1 & F2 & F12 & Z1 & Z2) Hd Hl _ _ Ho].
  assert (Hin : forall a, a ∈ ctx_addrs (s1 :: cc) -> a ∈ ctx_addrs (c ++ outer r s i1 i2) ++ [b]) by
    (intros a Ha; rewrite Ec; apply elem_of_app; by left).
  assert (Hb0 : b ∈ ctx_addrs (c ++ outer r s i1 i2) ++ [b]) by (apply elem_of_app; right; by left).
  assert (Hs1 : s_addr s1 ∈ ctx_addrs (s1 :: cc)) by (by left). pose proof (mo_null _ Hm) as H0.
  exists r, s, i1, i2, (plug c (grown Fin x w k first a1 a2 v b)). split_and!.
  - done.
  - rewrite <- Hroot. apply Ho; [done|done|]. intros [= E _]. by apply (Hne _ _ (Hin _ Hs1) H0).
  - eapply located_replace; [exact Hlo|exact Ec| | | |].
    + eapply grown_rep; [exact Hat|by destruct Hlo as [[_ ?]%rep_plug _ _]|]. cbn. intros <-. apply Hb. by rewrite Ec.
    + intros a Ha. rewrite Hd, !lookup_insert_ne; [done| |]; apply not_eq_sym, Hne; auto.
    + intros a d Ha Hn. apply Ho; [apply Hne; auto|apply Hne; auto|]. intros [= E1 E2]. apply Hn. subst a. f_equal. by destruct d, (s_dir s1).
    + unfold child_link, grown. destruct first; exact Hl.
  - destruct Hlo. apply tree_of_grow with (b := b); try done.
    + rewrite !NoDup_cons, !not_elem_of_cons. pose proof (Hne _ _ Hb0 F1). pose proof (Hne _ _ Hb0 F2). pose proof (@not_elem_of_nil Z).
      split_and!; auto. by apply NoDup_nil.
    + intros a Ha Ha'. assert (Hna : a <> a1 /\ a <> a2) by (split; apply Hne; [apply elem_of_app; by left|done|apply elem_of_app; by left|done]).
      rewrite !elem_of_cons in Ha. destruct Ha as [->|[->|[->|Ha]]]; [tauto|tauto|done|by apply not_elem_of_nil in Ha].
    + intros ->. destruct (to_spine _ _ _ _ _ lo_tree) as [-> _]. by destruct first.
Qed.

Lemma attached_size m m' l a1 a2 k v rx nl nr : attached m m' l a1 a2 k v rx nl nr -> size (m_data m') = S (S (size (m_data m))).
Proof.
  intros [_ (F1 & F2 & F12 & _) Hd _ _ _ _]. rewrite Hd, !map_size_insert, F1, lookup_insert_ne, F2 by done. done.
Qed.
Lemma run_insert f m A k v h : holds m A -> (size (m_data m) <= f)%nat -> exists m',
  run (insert f k v h) m = Ok (bool_decide (A !! k = None), m') /\
  holds m' (match A !! k with Some _ => A | None => <[k := v]> A end) /\ (size (m_data m') <= S (S (size (m_data m))))%nat.
Proof.
  intros H Hf. destruct (holds_located f m A k H Hf) as (r & s & i1 & i2 & c & b & x & w & Hok & Hroot & Hlo & Es & _).
  pose proof (located_data _ _ _ _ _ _ _ _ _ _ _ _ Hlo) as Hd. pose proof (located_lookup _ _ _ _ _ _ _ _ _ _ _ _ Hlo) as Hk.
  destruct (record_steps c r s i1 i2) as (s1 & s2 & cc & Ec). destruct (located_link _ _ _ _ _ _ _ _ _ _ _ _ Hlo _ _ Ec) as [Hl Hs1].
  destruct (located_fuel _ _ _ _ _ _ _ _ _ _ _ _ Hlo f Hf) as [f' ->]. rewrite Ec in Es.
  set (rec := record_of (s1 :: s2 :: cc) b) in *.
  assert (Hat : forall first, key_cmp x k = (if first then Gt else Lt) -> exists m',
    run (nl <- local_new h (new_leaf (Fin k) (Some v)) ;
         if first then try_insert h rec None nl nl b else try_insert h rec None nl b nl) m = Ok (inr true, m') /\
    holds m' (<[k := v]> A) /\ (size (m_data m') <= S (S (size (m_data m))))%nat).
  { intros first Hx. destruct (run_attach first h rec k v x w m) as (a1 & a2 & m' & E & Hat); try done.
    exists m'. split; [exact E|]. split; [by eapply attach_holds|]. by rewrite (attached_size _ _ _ _ _ _ _ _ _ _ Hat). }
  unfold NMTree.insert. cbn [loop]. rewrite run_bind, run_bind, Es. cbv beta zeta. change (sr_leaf rec) with b. rewrite run_bind, (run_node_key _ _ _ _ Hd).
  rewrite Hk. unfold key_cmp in *. destruct (kcmp fin x k) eqn:Ex.
  - destruct (located_value _ _ _ _ _ _ _ _ _ _ _ _ Hlo Ex) as [v' ->]. rewrite decide_True by done. exists m. split; [done|]. split; [done|lia].
  - destruct (Hat false eq_refl) as (m' & E & Hh). exists m'. split; [|exact Hh]. cbn [force]. by erewrite E.
  - destruct (Hat true eq_refl) as (m' & E & Hh). exists m'. split; [|exact Hh]. cbn [force]. by erewrite E.
Qed.

(** ** Removal *)
Lemma prune_holds m m' A k r s i1 i2 c b x w s1 s2 cc : mem_ok m -> m_links m !! root = Some (Some r, 0) ->
  located m (outer r s i1 i2) A k c b x w -> c ++ outer r s i1 i2 = s1 :: s2 :: cc ->
  key_cmp x k = Eq -> mem_ok m' -> m_data m' = m_data m ->
  m_links m' !! child (s_addr s2) (s_dir s2) = Some (Some (addr (s_other s1)), 0) ->
  (forall a i, a <> s_addr s1 -> (a, i) <> child (s_addr s2) (s_dir s2) -> m_links m' !! (a, i) = m_links m !! (a, i)) ->
  holds m' (delete k A).
Proof.
  intros Hm Hroot Hlo Ec Hx Hok Hd Hl Ho. pose proof (located_ne _ _ _ _ _ _ _ _ _ _ _ _ Hlo) as Hne.
  assert (Hin : forall a, a ∈ ctx_addrs (s1 :: s2 :: cc) -> 0 <> a).
  { intros a Ha. apply not_eq_sym, Hne; [rewrite Ec; apply elem_of_app; by left|apply (mo_null _ Hm)]. }
  assert (Hc : c <> []) by (intros ->; by destruct (to_spine _ _ _ _ _ (lo_tree _ _ _ _ _ _ _ _ _ _ _ _ Hlo)) as [-> _]).
  destruct (located_splice _ _ _ _ _ _ _ _ _ _ _ _ Hlo m' s1 s2 cc Ec Hc) as (c' & -> & Hrep).
  - intros a _. by rewrite Hd.
  - intros a d _ Ha Hn. apply Ho; [done|]. intros [= -> E]. apply Hn. f_equal. by destruct d, (s_dir s2).
  - exact Hl.
  - exists r, s, i1, i2, (plug c' (s_other s1)). split_and!; [done| |done|destruct Hlo; by eapply (tree_of_prune fin Fin Inf)].
    rewrite <- Hroot. apply Ho; [apply Hin; by left|]. intros [= E _]. revert E. apply Hin.
    right. apply elem_of_app. right. by left.
Qed.

(** [cleanup] after the edge to the leaf was flagged: the sibling takes the place of the parent. *)
Lemma run_cleanup rec m (b o : Z) : m_links m !! leaf_addr rec = Some (Some b, marks_new true false) ->
  m_links m !! leaf_sibling_addr rec = Some (Some o, 0) -> m_links m !! successor_addr rec = Some (Some (successor rec), 0) ->
  ancestor rec <> parent rec ->
  run (cleanup rec) m = Ok (true, publish (Some o) (set_link (successor_addr rec) (Some o, 0) (set_link (leaf_sibling_addr rec) (Some o, TAG) m))).
Proof.
  intros H1 H2 H3 Hne. unfold cleanup. rewrite run_bind. cbn [c_load_with_tag atomic run]. rewrite H1. cbn [run snd].
  change (flag (from_bits_truncate (marks_new true false))) with true. cbv beta iota zeta.
  rewrite run_bind. cbn [c_fetch_or atomic run]. rewrite H2. cbn [run fst snd].
  rewrite run_bind. cbn [c_load_with_tag atomic run set_link m_links]. rewrite lookup_insert_eq. cbn [run fst snd].
  change (flag (from_bits_truncate (Z.lor 0 TAG))) with false. rewrite run_bind. cbn [c_cas_with_tag atomic run set_link m_links].
  rewrite lookup_insert_ne by (unfold successor_addr, leaf_sibling_addr, child; congruence). rewrite H3. by rewrite decide_True.
Qed.
Lemma run_remove f m A k h : holds m A -> (size (m_data m) <= f)%nat ->
  match A !! k with
  | Some v => exists leaf m', run (remove f k h) m = Ok (Some leaf, m') /\ run (vholder_borrow leaf) m' = Ok (v, m') /\
      holds m' (delete k A) /\ m_data m' = m_data m
  | None => run (remove f k h) m = Ok (None, m)
  end.
Proof.
  intros H Hf. destruct (holds_located f m A k H Hf) as (r & s & i1 & i2 & c & b & x & w & Hok & Hroot & Hlo & Es & _).
  pose proof (located_data _ _ _ _ _ _ _ _ _ _ _ _ Hlo) as Hd. pose proof (located_lookup _ _ _ _ _ _ _ _ _ _ _ _ Hlo) as Hk.
  destruct (record_steps c r s i1 i2) as (s1 & s2 & cc & Ec). destruct (located_link _ _ _ _ _ _ _ _ _ _ _ _ Hlo _ _ Ec) as [Hl Hs1].
  destruct (located_fuel _ _ _ _ _ _ _ _ _ _ _ _ Hlo f Hf) as [f' ->]. rewrite Ec in Es.
  destruct (located_distinct _ _ _ _ _ _ _ _ _ _ _ _ Hlo) as [Hnd _].
  set (rec := record_of (s1 :: s2 :: cc) b) in *. rewrite Hk.
  unfold remove, inject, key_cmp in *. cbn [loop]. case_decide as Ex.
  2: { rewrite !run_bind, Es. cbv beta zeta. change (sr_leaf rec) with b. rewrite run_bind, (run_node_key _ _ _ _ Hd). by destruct (kcmp fin x k). }
  destruct (located_value _ _ _ _ _ _ _ _ _ _ _ _ Hlo Ex) as [v ->].
  pose proof (lo_rep _ _ _ _ _ _ _ _ _ _ _ _ Hlo) as Hrep. rewrite Ec in Hrep, Hnd. apply rep_plug in Hrep as [(_ & _ & Hsib & _ & Hs2) _]. destruct Hs2 as (_ & Hl2 & _).
  assert (H12 : s_addr s2 <> s_addr s1).
  { intros E. apply NoDup_cons in Hnd as [Hn _]. apply Hn, elem_of_app. right. rewrite <- E. by left. }
  set (m1 := publish (Some b) (set_link (leaf_addr rec) (Some b, marks_new true false) m)).
  set (o := addr (s_other s1)) in *.
  set (m2 := publish (Some o) (set_link (successor_addr rec) (Some o, 0) (set_link (leaf_sibling_addr rec) (Some o, TAG) m1))).
  assert (Eflag : run (c_cas_with_tag (leaf_addr rec) (Some b, marks_empty) (Some b, marks_new true false)) m = Ok (inl (Some b, marks_empty), m1)).
  { cbn [c_cas_with_tag atomic run]. change (leaf_addr rec) with (child (s_addr s1) (s_dir s1)). rewrite Hl. by rewrite decide_True. }
  assert (Eclean : run (cleanup rec) m1 = Ok (true, m2)).
  { apply run_cleanup with (b := b); [apply lookup_insert_eq| | |done].
    - cbn. unfold leaf_sibling_addr, leaf_addr, child. cbn. rewrite lookup_insert_ne; [exact Hsib|]. intros [=]. by destruct (s_dir s1).
    - cbn. unfold successor_addr, leaf_addr, child. cbn. rewrite lookup_insert_ne; [exact Hl2|]. congruence. }
  exists b, m2. split; [|split; [|split; [|done]]].
  - rewrite !run_bind, Es. cbv beta zeta. change (sr_leaf rec) with b. rewrite run_bind, (run_node_key _ _ _ _ Hd), Ex.
    rewrite run_bind, Eflag. rewrite run_bind, Eclean. done.
  - unfold vholder_borrow, c_deref. rewrite run_bind. cbn [atomic run]. unfold m2, m1. cbn. by rewrite Hd.
  - eapply prune_holds; [exact Hok|exact Hroot|exact Hlo|exact Ec|done| |done| |].
    + refine (mem_ok_publish _ (Some o) (mem_ok_set _ _ _ (mem_ok_set _ _ _ (mem_ok_publish _ (Some b) (mem_ok_set _ _ _ _))))). done.
    + cbn. apply lookup_insert_eq.
    + intros a i Ha Hne. cbn. unfold successor_addr, leaf_sibling_addr, leaf_addr, child in *. cbn in *. by rewrite !lookup_insert_ne by congruence.
Qed.

(** ** The map *)
Lemma nm_exec_ok h f q m A : holds m A -> (size (m_data m) <= f)%nat -> exists m',
  run (nm_exec h f q) m = Ok ((serve q A).1, m') /\ holds m' (serve q A).2 /\ (size (m_data m') <= size (m_data m) + 2)%nat.
Proof.
  intros H Hf. destruct q as [k|k v|k]; cbn [nm_exec serve fst snd]; rewrite run_bind.
  - pose proof (run_get f m A k h H Hf) as E. exists m. split; [|split; [done|lia]]. destruct (A !! k) as [v|].
    + destruct E as (leaf & -> & Eb). by rewrite run_bind, run_bind, Eb.
    + by rewrite E.
  - destruct (run_insert f m A k v h H Hf) as (m' & -> & Hh & Hs). exists m'. split; [done|]. split; [done|lia].
  - pose proof (run_remove f m A k h H Hf) as E. destruct (A !! k) as [v|] eqn:Ek.
    + destruct E as (leaf & m' & -> & Eb & Hh & Ed). exists m'. rewrite run_bind, run_bind, Eb, Ed. split; [done|]. split; [done|lia].
    + rewrite E. exists m. rewrite delete_id by done. split; [done|]. split; [done|lia].
Qed.
#[export] Program Instance nm_map (h : nat) : MapImpl K V (mem (Key K * option V)) :=
  {| mi_exec := nm_exec h; mi_holds := holds; mi_cost m := size (m_data m); mi_growth := 2; mi_exec_ok := nm_exec_ok h |}.

(** [NMTreeMap::new] *)
Definition empty_mem : mem (Key K * option V) := mkMem ∅ ∅ ∅.
#[local] Definition new_tree_mem h := match run (new_tree h) empty_mem with Ok (_, m) => m | Stopped _ => empty_mem end.
Lemma new_tree_nodes h : exists m, run (new_tree h) empty_mem = Ok (tt, m) /\
  m_data m = <[5 := (Inf, None)]> (<[4 := (Inf, None)]> (<[3 := (Inf, None)]> (<[2 := (Inf, None)]> (<[1 := (Inf, None)]> ∅)))) /\
  m_owner m = ∅ /\ m_links m !! root = Some (Some 5, 0) /\
  m_links m !! left 5 = Some (Some 3, 0) /\ m_links m !! right 5 = Some (Some 4, 0) /\
  m_links m !! left 3 = Some (Some 1, 0) /\ m_links m !! right 3 = Some (Some 2, 0) /\
  m_links m !! left 1 = Some (None, 0) /\ m_links m !! right 1 = Some (None, 0) /\
  m_links m !! left 2 = Some (None, 0) /\ m_links m !! right 2 = Some (None, 0) /\
  m_links m !! left 4 = Some (None, 0) /\ m_links m !! right 4 = Some (None, 0).
Proof. exists (new_tree_mem h). split; [vm_compute; reflexivity|]. split_and!; vm_compute; reflexivity. Qed.
Lemma new_tree_run h : exists m, run (new_tree h) empty_mem = Ok (tt, m) /\ holds m ∅ /\ size (m_data m) = 5%nat.
Proof.
  destruct (new_tree_nodes h) as (m & E & Hd & Ho & Hr & L5 & R5 & L3 & R3 & L1 & R1 & L2 & R2 & L4 & R4). exists m. split; [done|]. clear E.
  split; [|rewrite Hd; vm_compute; reflexivity].
  exists 5, 3, 2, 4, (Leaf 1 Inf None). split; [|split; [done|split]].
  - split; [by rewrite Hd, !lookup_insert_ne, lookup_empty by done|]. intros a h' E. by rewrite Ho in E.
  - cbn. unfold child_link. cbn. rewrite Hd. split_and!; done || (rewrite ?lookup_insert_ne, lookup_insert_eq by done; done).
  - split; [apply (bool_decide_unpack _); reflexivity|cbn; split_and!; naive_solver|done|].
    intros k v. rewrite lookup_empty. cbn. naive_solver.
Qed.

(** C14. The Natarajan-Mittal tree refines the finite map: one thread that creates a tree and
    sends any sequence of [get], [insert] and [remove] gets the answers of the map, each with
    its value (a removal returns the removed pair), and leaves the map's contents; five rounds
    of every loop and two more for each request are enough for it to return. *)
Theorem nm_refines_map h e (qs : list (request K V)) : exists m',
  run (_ <- new_tree h ; session (S := mem (Key K * option V)) (MapImpl0 := nm_map h) (5 + length qs * 2 + e) qs) empty_mem =
    Ok ((serve_all qs ∅).1, m') /\ holds m' (serve_all qs ∅).2.
Proof.
  destruct (new_tree_run h) as (m & E & Hm & Hs). rewrite run_bind, E. apply (run_session (S := mem (Key K * option V)) (MapImpl0 := nm_map h)); [exact Hm|].
  cbn. lia.
Qed.
End alone.
