(* ===== verification/EFRBTree.v ===== *)
(** * The Ellen-Fatourou-Ruppert-van Breugel tree ([examples/ds/efrb_tree.rs])

    An external search tree whose updates are announced: the [update] link of an internal
    node leads to the description of the operation under way at it, tagged with the stage
    of that operation, so that every thread can finish it.  Link 0 of a node is [update],
    links 1 and 2 are its children. *)
From S2P Require Import Prelude Prog Managed Lists SearchTree.
#[local] Open Scope Z_scope.
#[local] Open Scope prog_scope.

(** ** [UpdateTag] *)
Inductive UpdateTag := CLEAN | DFLAG | IFLAG | MARK.
Definition bits (t : UpdateTag) : Z := match t with CLEAN => 0 | DFLAG => 1 | IFLAG => 2 | MARK => 3 end.
(** [from_bits_truncate], and the constant it is matched with. *)
Definition update_tag (tag : Z) : UpdateTag :=
  let x := Z.land tag 3 in if x =? 2 then IFLAG else if x =? 3 then MARK else if x =? 1 then DFLAG else CLEAN.
#[export] Instance UpdateTag_eq_dec : EqDecision UpdateTag.
Proof. solve_decision. Defined.

Module Keys.
Inductive Key (K : Type) := Fin (k : K) | Inf1 | Inf2.
Arguments Fin {K} k.
Arguments Inf1 {K}.
Arguments Inf2 {K}.
#[export] Instance Key_eq_dec {K} `{!EqDecision K} : EqDecision (Key K).
Proof. solve_decision. Defined.
Definition fin {K} (x : Key K) : option K := match x with Fin k => Some k | _ => None end.
(** [PartialOrd for Key] *)
Definition partial_cmp {K} `{!Ord K} (x y : Key K) : comparison :=
  match x, y with
  | Fin k1, Fin k2 => cmp k1 k2
  | Fin _, _ => Lt
  | Inf1, Fin _ => Gt
  | Inf1, Inf1 => Eq
  | Inf1, Inf2 => Lt
  | Inf2, Inf2 => Eq
  | Inf2, _ => Gt
  end.
End Keys.
Import Keys.

Section efrb.
Context {K V : Type} `{!Ord K, !EqDecision K, !Countable K}.
(** [Node { key, value, .. }], and the descriptions [Update]. *)
Inductive node :=
  | TNode (key : Key K) (value : option V)
  | Insert (p new_internal l : Z)
  | Delete (gp p l : Z) (pupdate : option Z).
#[local] Abbreviation M := (prog (mem node)).
Implicit Types (m : mem node) (k : K) (v : V).
Definition eside (d : Direction) : nat := match d with L => 1 | R => 2 end.
Definition update (a : Z) : loc := (a, 0%nat).
Definition child_of (a : Z) (d : Direction) : loc := (a, eside d).
Definition tree_root : loc := (0, 0%nat).

Definition node_of (a : Z) : M (Key K * option V) :=
  d <- c_deref a ; match d with TNode x w => Ret (x, w) | _ => Stop (UB "not a node") end.
Definition leaf_links : list link := [(None, 0); (None, 0); (None, 0)].
(** A [Node] before it is moved into managed memory. *)
Definition node_val : Type := Key K * option V * list link.
Definition leaf (key : Key K) (value : option V) : node_val := (key, value, leaf_links).
Definition new_node (h : nat) (n : node_val) : M Z := c_new_final h (TNode n.1.1 n.1.2) n.2.
Definition internal (h : nat) (key : Key K) (value : option V) (left right : node_val) : M node_val :=
  l <- new_node h left ;
  r <- new_node h right ;
  Ret (key, value, [(None, 0); (Some l, 0); (Some r, 0)]).
Definition is_leaf (a : Z) : M bool := p <- c_load (child_of a L) ; Ret (bool_decide (p = None)).

(** [VHolder] *)
Definition holder_new (node : Z) (handle : nat) : Z := node.
Definition holder_borrow (node : Z) : M V :=
  d <- node_of node ; unwrap d.2 "called `Option::unwrap()` on a `None` value".

Record Cursor := mkCursor { c_gp : option Z; c_p : option Z; c_l : Z; c_pupdate : link; c_gpupdate : link }.
Definition cursor_new (root : Z) : Cursor := mkCursor None None root (None, 0) (None, 0).
Definition load_node (a : Z) (d : Direction) : M Z :=
  p <- c_load (child_of a d) ; unwrap p "called `Option::unwrap()` on a `None` value".
Definition search_step (key : K) (c : Cursor) : M (Cursor + Cursor) :=
  b <- is_leaf (c_l c) ;
  if b : bool then Ret (inr c) else
  u <- c_load_with_tag (update (c_l c)) ;
  d <- node_of (c_l c) ;
  l <- (match kcmp fin d.1 key with Gt => load_node (c_l c) L | _ => load_node (c_l c) R end) ;
  Ret (inl (mkCursor (c_p c) (Some (c_l c)) l u (c_pupdate c))).
Definition search (fuel : nat) (key : K) (c : Cursor) : M Cursor := loop fuel (search_step key) c.

Definition efrb_new (h : nat) : M unit :=
  n <- internal h Inf2 None (leaf Inf1 None) (leaf Inf2 None) ;
  r <- new_node h n ;
  modify (set_link tree_root (Some r, 0)).
Definition start : M Cursor := p <- c_load tree_root ; r <- unchecked p "unwrap_unchecked" ; Ret (cursor_new r).

Definition cas_child (parent old new : Z) : M unit :=
  n <- node_of new ;
  p <- node_of parent ;
  let node_to_cas := match partial_cmp n.1 p.1 with Lt => child_of parent L | _ => child_of parent R end in
  _ <- c_cas node_to_cas (Some old) (Some new) ; Ret tt.
(** The stage of the operation [op] at [a] ends. *)
Definition unflag (a op : Z) (t : UpdateTag) : M unit :=
  _ <- c_cas_with_tag (update a) (Some op, bits t) (Some op, bits CLEAN) ; Ret tt.

Definition help_insert (op : Z) : M unit :=
  d <- c_deref op ;
  match d with
  | Insert p new_internal l => cas_child p l new_internal ;; unflag p op IFLAG
  | _ => Stop (Panic "op is not pointing to an IInfo record")
  end.
Definition help_marked (op : Z) : M unit :=
  d <- c_deref op ;
  match d with
  | Delete gp p l _ =>
      r <- c_load (child_of p R) ;
      let other := if decide (r = Some l) then child_of p L else child_of p R in
      o <- c_load other ;
      other_sh <- unwrap o "called `Option::unwrap()` on a `None` value" ;
      cas_child gp p other_sh ;;
      unflag gp op DFLAG
  | _ => Stop (Panic "op is not pointing to a DInfo record")
  end.
(** [help], given [help_delete]: the two call each other. *)
Definition help_with (help_delete : Z -> M bool) (update : Z) (tag : Z) : M unit :=
  match update_tag tag with
  | IFLAG => help_insert update
  | MARK => help_marked update
  | DFLAG => _ <- help_delete update ; Ret tt
  | CLEAN => Ret tt
  end.
Fixpoint help_delete (fuel : nat) (op : Z) : M bool :=
  match fuel with
  | O => Stop OutOfFuel
  | S fuel =>
      d <- c_deref op ;
      match d with
      | Delete gp p _ pupdate =>
          r <- c_cas_with_tag (update p) (pupdate, bits CLEAN) (Some op, bits MARK) ;
          match r with
          | inl _ => help_marked op ;; Ret true
          | inr (e, e_tag) =>
              if decide (e = Some op /\ e_tag = bits MARK) then help_marked op ;; Ret true else
              match e with
              | Some e => help_with (help_delete fuel) e e_tag ;; unflag gp op DFLAG ;; Ret false
              | None => Ret false
              end
          end
      | _ => Stop (Panic "op is not pointing to a DInfo record")
      end
  end.
Definition help (fuel : nat) : Z -> Z -> M unit := help_with (help_delete fuel).
Definition help_opt (fuel : nat) (u : link) : M unit :=
  op <- unwrap u.1 "called `Option::unwrap()` on a `None` value" ; help fuel op u.2.

Definition find (fuel : nat) (key : K) (handle : nat) : M (option Z) :=
  c <- start ;
  c <- search fuel key c ;
  d <- node_of (c_l c) ;
  Ret (if decide (fin d.1 = Some key) then Some (holder_new (c_l c) handle) else None).

(** The new leaf, a copy of the leaf [l], their parent, and the announcement. *)
Definition build_insert (handle : nat) (key : K) (value : V) (p_node l : Z) (d : Key K * option V) : M Z :=
  let new := leaf (Fin key) (Some value) in
  let new_sibling := leaf d.1 d.2 in
  let '(lt, rt) := match partial_cmp new.1.1 new_sibling.1.1 with Lt => (new, new_sibling) | _ => (new_sibling, new) end in
  n <- internal handle rt.1.1 None lt rt ;
  new_internal <- new_node handle n ;
  c_new_final handle (Insert p_node new_internal l) [].
(** One round of the loop of [insert]. *)
Definition insert_round (fuel : nat) (key : K) (value : V) (handle : nat) : M (unit + bool) :=
  c <- start ;
  c <- search fuel key c ;
  p_node <- unwrap (c_p c) "called `Option::unwrap()` on a `None` value" ;
  d <- node_of (c_l c) ;
  if decide (fin d.1 = Some key) then Ret (inr false)
  else if negb ((c_pupdate c).2 =? bits CLEAN) then help_opt fuel (c_pupdate c) ;; Ret (inl tt)
  else
    new_pupdate <- build_insert handle key value p_node (c_l c) d ;
    r <- c_cas_with_tag (update p_node) (c_pupdate c) (Some new_pupdate, bits IFLAG) ;
    match r with
    | inl _ => help_insert new_pupdate ;; Ret (inr true)
    | inr e => help_opt fuel e ;; Ret (inl tt)
    end.
Definition efrb_insert (fuel : nat) (key : K) (value : V) (handle : nat) : M bool :=
  loop fuel (fun _ : unit => insert_round fuel key value handle) tt.

(** One round of the loop of [delete]. *)
Definition delete_round (fuel : nat) (key : K) (handle : nat) : M (unit + option Z) :=
  c <- start ;
  c <- search fuel key c ;
  match c_gp c with
  | None => Ret (inr None)
  | Some gp =>
      d <- node_of (c_l c) ;
      if negb (bool_decide (d.1 = Fin key)) then Ret (inr None)
      else if negb ((c_gpupdate c).2 =? bits CLEAN) then help_opt fuel (c_gpupdate c) ;; Ret (inl tt)
      else if negb ((c_pupdate c).2 =? bits CLEAN) then help_opt fuel (c_pupdate c) ;; Ret (inl tt)
      else
        p <- unwrap (c_p c) "called `Option::unwrap()` on a `None` value" ;
        new_update <- c_new_final handle (Delete gp p (c_l c) (c_pupdate c).1) [] ;
        r <- c_cas_with_tag (update gp) (c_gpupdate c) (Some new_update, bits DFLAG) ;
        match r with
        | inl _ =>
            ok <- help_delete fuel new_update ;
            Ret (if ok : bool then inr (Some (holder_new (c_l c) handle)) else inl tt)
        | inr e => help_opt fuel e ;; Ret (inl tt)
        end
  end.
Definition delete (fuel : nat) (key : K) (handle : nat) : M (option Z) :=
  loop fuel (fun _ : unit => delete_round fuel key handle) tt.

(** What a caller of [ConcurrentMap] sees. *)
Definition efrb_exec (h fuel : nat) (q : request K V) : M (reply V) :=
  let borrow_opt (r : option Z) := match r with Some leaf => v <- holder_borrow leaf ; Ret (Some v) | None => Ret None end in
  match q with
  | QGet k => r <- find fuel k h ; x <- borrow_opt r ; Ret (AGet x)
  | QInsert k v => b <- efrb_insert fuel k v h ; Ret (AInsert b)
  | QRemove k => r <- delete fuel k h ; x <- borrow_opt r ; Ret (ARemove x)
  end.
End efrb.
Arguments node K V : clear implicits.
