(* ===== verification/EFRBCorrect.v ===== *)
(** * The EFRB tree alone is a map

    As [NMTreeCorrect]: a quiet tree, in which no update is under way, holds the pairs of a
    finite map, and the operations of one thread are those of the map and leave it quiet. *)
From S2P Require Import Prelude Prog Managed Lists SearchTree EFRBTree.
Import Keys.
#[local] Open Scope Z_scope.
#[local] Open Scope prog_scope.

Section alone.
Context {K V : Type} `{!Ord K, !EqDecision K, !Countable K}.
#[local] Abbreviation M := (prog (mem (node K V))).
#[local] Abbreviation tree := (tree V (Key K)).
#[local] Abbreviation ctx := (ctx V (Key K)).
#[local] Abbreviation rep := (rep TNode eside).
#[local] Abbreviation located := (located TNode eside fin Inf1).
Implicit Types (m : mem (node K V)) (k : K) (v : V) (A : gmap K V) (t : tree) (x y : Key K) (w : option V) (first : bool) (c cc : ctx) (h : nat).

#[export] Instance efrb_keys : SearchTree.Keys (@fin K) Fin Inf1.
Proof. done. Qed.

(** ** The order of all nodes

    [cas_child] compares the keys of nodes, so that all of them are ordered, not only the leaves. *)
Definition key_turn x y : Direction := match partial_cmp y x with Lt => L | _ => R end.
Fixpoint keys t : list (Key K) := match t with Leaf _ x _ => [x] | Node _ x _ l r => x :: keys l ++ keys r end.
Fixpoint sorted t : Prop :=
  match t with
  | Leaf _ _ _ => True
  | Node _ x _ l r => sorted l /\ sorted r /\ (forall y, y ∈ keys l -> key_turn x y = L) /\ (forall y, y ∈ keys r -> key_turn x y = R)
  end.
Definition key_path y c : Prop := forall s, s ∈ c -> key_turn (s_key s) y = s_dir s.
Fixpoint ctx_sorted c : Prop :=
  match c with
  | [] => True
  | s :: c' => sorted (s_other s) /\ key_path (s_key s) c' /\
      (forall y, y ∈ keys (s_other s) -> key_turn (s_key s) y = flip_dir (s_dir s) /\ key_path y c') /\ ctx_sorted c'
  end.
Lemma key_path_cons y s c : key_path y (s :: c) <-> key_turn (s_key s) y = s_dir s /\ key_path y c.
Proof. unfold key_path. setoid_rewrite elem_of_cons. naive_solver. Qed.
Lemma sorted_wrap s t : sorted (wrap s t) <-> sorted t /\ sorted (s_other s) /\ (forall y, y ∈ keys t -> key_turn (s_key s) y = s_dir s) /\
  (forall y, y ∈ keys (s_other s) -> key_turn (s_key s) y = flip_dir (s_dir s)).
Proof. unfold wrap. destruct s as [a x w [] o]; cbn; tauto. Qed.
Lemma keys_wrap s t y : y ∈ keys (wrap s t) <-> y = s_key s \/ y ∈ keys (s_other s) \/ y ∈ keys t.
Proof. unfold wrap. destruct s as [a x w [] o]; cbn; rewrite elem_of_cons, elem_of_app; tauto. Qed.
Lemma sorted_plug c t : sorted (plug c t) <-> ctx_sorted c /\ sorted t /\ forall y, y ∈ keys t -> key_path y c.
Proof.
  revert t. induction c as [|s c IH]; intros t; cbn [plug ctx_sorted].
  - split; [|tauto]. intros H. split_and!; [done|done|]. intros y _ s Hs. by apply not_elem_of_nil in Hs.
  - rewrite IH, sorted_wrap. setoid_rewrite keys_wrap. setoid_rewrite key_path_cons. split.
    + intros (Hc & (Ht & Ho & Hd & Hf) & Hp). split_and!; auto.
    + intros ((Ho & Hs & Hf & Hc) & Ht & Hp). split_and!; try done.
      * intros y H. by destruct (Hp y H).
      * intros y H. by destruct (Hf y H).
      * intros y [->|[H|H]]; [done|by destruct (Hf y H)|by destruct (Hp y H)].
Qed.
Lemma key_turn_fin x k : key_turn x (Fin k) = turn fin x k.
Proof.
  unfold key_turn, turn, kcmp. destruct x as [k'| |]; cbn; [|done|done]. rewrite (cmp_opp k' k). by destruct (cmp k' k).
Qed.
Lemma key_turn_self x : key_turn x x = R.
Proof. unfold key_turn. destruct x as [k| |]; cbn; [|done|done]. by rewrite (proj2 (cmp_eq k k) eq_refl). Qed.
Lemma key_turn_lt x k : kcmp fin x k = Lt -> key_turn (Fin k) x = L.
Proof. unfold key_turn, kcmp. destruct x as [k'| |]; cbn; [|done|done]. by intros ->. Qed.
Lemma new_left x k : match partial_cmp (Fin k) x with Lt => true | _ => false end = match kcmp fin x k with Gt => true | _ => false end.
Proof. unfold kcmp. destruct x as [k'| |]; cbn; [|done|done]. rewrite (cmp_opp k' k). by destruct (cmp k' k). Qed.
Lemma sorted_grow c b x w k first a1 a2 v b' : sorted (plug c (Leaf b x w)) -> on_path fin k c -> kcmp fin x k = (if first then Gt else Lt) ->
  sorted (plug c (grown Fin x w k first a1 a2 v b')).
Proof.
  intros (Hc & _ & Hp)%sorted_plug Hk Hx. apply sorted_plug. split; [done|]. split.
  - unfold grown. destruct first; cbn; (split; [done|]); (split; [done|]); split; intros y ->%list_elem_of_singleton.
    + rewrite key_turn_fin. by apply turn_gt.
    + apply key_turn_self.
    + by apply key_turn_lt.
    + apply key_turn_self.
  - assert (Hb : key_path x c) by (apply Hp; by left).
    assert (Hf : key_path (Fin k) c) by (intros s Hs; rewrite key_turn_fin; symmetry; by apply Hk).
    intros y Hy. assert (y = x \/ y = Fin k) as [->| ->]; [|done|done].
    unfold grown in Hy. destruct first; cbn in Hy; rewrite !elem_of_cons in Hy; pose proof (@not_elem_of_nil (Key K) y); tauto.
Qed.
Lemma sorted_prune s c t : sorted (plug (s :: c) t) -> sorted (plug c (s_other s)) /\ (forall y, y ∈ keys (s_other s) -> key_path y c).
Proof.
  intros ((Ho & _ & Hf & Hc) & _)%sorted_plug. assert (H : forall y, y ∈ keys (s_other s) -> key_path y c) by (intros y Hy; by destruct (Hf y Hy)).
  split; [|done]. by apply sorted_plug.
Qed.

(** ** A quiet tree *)
Definition outer (r i2 : Z) : ctx := [mkStep r Inf2 None L (Leaf i2 Inf2 None)].
Definition clean m (a : Z) : Prop := exists u, m_links m !! update a = Some (u, bits CLEAN).
Definition quiet m t : Prop := forall a, a ∈ addrs t -> clean m a.
Definition holds m A : Prop := exists r i2 t,
  mem_ok m /\ m_links m !! tree_root = Some (Some r, 0) /\ rep m (plug (outer r i2) t) /\ tree_of fin Inf1 (outer r i2) t A /\
  sorted (plug (outer r i2) t) /\ quiet m (plug (outer r i2) t).

(** *** The search *)
Definition upd m (a : Z) : link := default (None, 0) (m_links m !! update a).
Definition cursor_of m c (a : Z) : Cursor :=
  match c with
  | [] => cursor_new a
  | [s1] => mkCursor None (Some (s_addr s1)) a (upd m (s_addr s1)) (None, 0)
  | s1 :: s2 :: _ => mkCursor (Some (s_addr s2)) (Some (s_addr s1)) a (upd m (s_addr s1)) (upd m (s_addr s2))
  end.
Lemma run_node_of a x w m : m_data m !! a = Some (TNode x w) -> run (node_of a) m = Ok ((x, w), m).
Proof. intros H. unfold node_of, c_deref. rewrite run_bind. cbn [atomic run]. by rewrite H. Qed.
Lemma run_load_link (l : loc) p m : m_links m !! l = Some p -> run (c_load_with_tag l) m = Ok (p, m).
Proof. intros H. unfold c_load_with_tag. cbn. by rewrite H. Qed.
Lemma run_load_child a d p m : child_link eside m a d p -> run (c_load (child_of a d)) m = Ok (p, m).
Proof. intros H. unfold c_load. by rewrite run_bind, (run_load_link (child_of a d) _ _ H). Qed.
Lemma run_is_leaf m t : rep m t -> run (is_leaf (addr t)) m = Ok (match t with Leaf _ _ _ => true | _ => false end, m).
Proof. intros H. unfold is_leaf. rewrite run_bind, (run_load_child _ _ _ _ (rep_next _ _ _ _ L H)). by destruct t. Qed.
Lemma run_search_step k m c a x w l r u : rep m (Node a x w l r) -> m_links m !! update a = Some u ->
  run (search_step k (cursor_of m c a)) m =
    Ok (inl (match turn fin x k with
             | L => cursor_of m (mkStep a x w L r :: c) (addr l)
             | R => cursor_of m (mkStep a x w R l :: c) (addr r) end), m).
Proof.
  intros Hr Hu. pose proof (run_is_leaf m _ Hr) as El. cbn [addr] in El. destruct (rep_data _ _ _ _ Hr) as [wd Hd]. cbn [addr key] in Hd.
  assert (Ea : c_l (cursor_of m c a) = a) by (by destruct c as [|s1 [|s2 c]]). unfold search_step. rewrite Ea.
  rewrite run_bind, El. cbv beta iota. rewrite run_bind, (run_load_link _ _ _ Hu), run_bind, (run_node_of _ _ _ _ Hd). cbn [fst].
  assert (Eload : run (match kcmp fin x k with Gt => load_node a L | _ => load_node a R end) m =
    Ok (addr (match turn fin x k with L => l | R => r end), m)).
  { unfold turn, load_node. pose proof (rep_next _ _ _ _ L Hr) as EL. pose proof (rep_next _ _ _ _ R Hr) as ER. cbn [addr] in EL, ER.
    destruct (kcmp fin x k); rewrite run_bind; [by rewrite (run_load_child _ _ _ _ ER)|by rewrite (run_load_child _ _ _ _ ER)|by rewrite (run_load_child _ _ _ _ EL)]. }
  rewrite run_bind, Eload. assert (Eu : upd m a = u) by (unfold upd; by rewrite Hu).
  destruct (turn fin x k), c as [|s1 [|s2 c]]; cbn; by rewrite ?Eu.
Qed.
Lemma run_efrb_search f k m t c : rep m t -> quiet m t -> (height t < f)%nat ->
  run (search f k (cursor_of m c (addr t))) m = Ok (cursor_of m (descend fin k t c).1 (addr (descend fin k t c).2), m).
Proof.
  unfold search. revert f c. induction t as [a x w|a x w l IHl r IHr]; intros f c Hr Hq Hf; (destruct f as [|f]; [cbn in Hf; lia|]); cbn [loop]; rewrite run_bind.
  - assert (Ea : c_l (cursor_of m c a) = a) by (by destruct c as [|s1 [|s2 c]]). unfold search_step. cbn [addr]. rewrite Ea.
    rewrite run_bind. pose proof (run_is_leaf m _ Hr) as El. cbn [addr] in El. by rewrite El.
  - destruct (Hq a ltac:(by left)) as [u Hu]. cbn [addr]. rewrite (run_search_step k m c a x w l r _ Hr Hu). cbn [descend height] in *.
    destruct Hr as (_ & _ & _ & Hl & Hrr). assert (Hq' : forall t', addrs t' ⊆ addrs l ++ addrs r -> quiet m t') by (intros t' Hs b Hb; apply Hq; right; by apply Hs).
    destruct (turn fin x k); [apply IHl|apply IHr]; try done; try lia; apply Hq'; set_solver.
Qed.
Lemma efrb_outer_path k r i2 : on_path fin k (outer r i2).
Proof. intros st [->|H]%elem_of_cons; [done|by apply not_elem_of_nil in H]. Qed.
(** *** Where a search ends *)
Record at_leaf m A k (r i2 : Z) c (b : Z) x w : Prop := {
  al_ok : mem_ok m;
  al_root : m_links m !! tree_root = Some (Some r, 0);
  al_loc : located m (outer r i2) A k c b x w;
  al_sorted : sorted (plug (c ++ outer r i2) (Leaf b x w));
  al_quiet : forall a, a ∈ ctx_addrs (c ++ outer r i2) ++ [b] -> clean m a
}.
Lemma holds_at f m A k : holds m A -> (size (m_data m) < f)%nat -> exists r i2 c b x w, at_leaf m A k r i2 c b x w /\
  forall B (p : Cursor -> M B), run (c <- start ; c <- search f k c ; p c) m = run (p (cursor_of m (c ++ outer r i2) b)) m.
Proof.
  intros (r & i2 & t & Hok & Hroot & Hrep & Ht & Hs & Hq) Hf. exists r, i2.
  pose proof (addrs_size TNode eside m _ Hrep (to_nodup _ _ _ _ _ Ht)) as H1. pose proof (height_addrs (plug (outer r i2) t)) as H2.
  pose proof (run_efrb_search f k m (plug (outer r i2) t) [] Hrep Hq ltac:(lia)) as Es.
  destruct (locate TNode eside fin Inf1 m _ _ _ k Hrep Ht (efrb_outer_path _ _ _)) as (c & b & x & w & E1 & _ & Hlo).
  exists c, b, x, w. assert (Et : plug (c ++ outer r i2) (Leaf b x w) = plug (outer r i2) t).
  { pose proof (descend_plug fin k t (outer r i2)) as Hp. rewrite E1 in Hp. apply Hp. }
  split.
  - split; try done; rewrite ?Et; [done|]. intros a Ha. apply Hq. by rewrite <- Et, addrs_plug.
  - intros B p. unfold start. rewrite run_bind, run_bind. unfold c_load. rewrite run_bind, (run_load_link _ _ _ Hroot). cbn [run fst unchecked bind].
    change (cursor_new r) with (cursor_of m [] (addr (plug (outer r i2) t))). rewrite run_bind, Es.
    change (descend fin k (plug (outer r i2) t) []) with (descend fin k t (outer r i2)). by rewrite E1.
Qed.

Lemma run_find f m A k h : holds m A -> (size (m_data m) < f)%nat ->
  match A !! k with
  | Some v => exists leaf, run (find f k h) m = Ok (Some leaf, m) /\ run (holder_borrow leaf) m = Ok (v, m)
  | None => run (find f k h) m = Ok (None, m)
  end.
Proof.
  intros H Hf. destruct (holds_at f m A k H Hf) as (r & i2 & c & b & x & w & [_ _ Hlo _ _] & Es).
  pose proof (located_data _ _ _ _ _ _ _ _ _ _ _ _ Hlo) as Hd.
  assert (El : c_l (cursor_of m (c ++ outer r i2) b) = b) by (by destruct (c ++ outer r i2) as [|s1 [|s2 cc]]).
  assert (E : run (find f k h) m = Ok (if decide (fin x = Some k) then Some b else None, m)).
  { unfold find. rewrite Es, El, run_bind, (run_node_of _ _ _ _ Hd). done. }
  rewrite (located_lookup _ _ _ _ _ _ _ _ _ _ _ _ Hlo), E. pose proof (kcmp_eq fin x k) as Hk.
  destruct (decide (kcmp fin x k = Eq)) as [Ec|Ec]; [|rewrite decide_False by tauto; done].
  rewrite decide_True by tauto. destruct (located_value _ _ _ _ _ _ _ _ _ _ _ _ Hlo Ec) as [v ->]. exists b. split; [done|].
  unfold holder_borrow. by rewrite run_bind, (run_node_of _ _ _ _ Hd).
Qed.

(** ** The steps of an update *)
Definition moved (l : loc) (a : Z) (n : Z) m := publish (Some a) (set_link l (Some a, n) m).
Lemma run_cas_ok (l : loc) cur a (n : Z) m : m_links m !! l = Some cur -> run (c_cas_with_tag l cur (Some a, n)) m = Ok (inl cur, moved l a n m).
Proof. intros H. cbn. rewrite H. by rewrite decide_True. Qed.
Lemma moved_ok (l : loc) a (n : Z) m : mem_ok m -> mem_ok (moved l a n m).
Proof. intros H. by apply mem_ok_publish, mem_ok_set. Qed.
Lemma moved_eq (l : loc) a (n : Z) m : m_links (moved l a n m) !! l = Some (Some a, n).
Proof. apply lookup_insert_eq. Qed.
Lemma moved_ne (l l' : loc) a (n : Z) m : l' <> l -> m_links (moved l a n m) !! l' = m_links m !! l'.
Proof. intros H. cbn. by rewrite lookup_insert_ne. Qed.
Lemma run_unflag a op (g : UpdateTag) m : m_links m !! update a = Some (Some op, bits g) -> run (unflag a op g) m = Ok (tt, moved (update a) op 0 m).
Proof. intros H. unfold unflag. by rewrite run_bind, (run_cas_ok _ _ _ _ _ H). Qed.
Lemma run_cas_child p old new x wx y wy m : m_data m !! p = Some (TNode x wx) -> m_data m !! new = Some (TNode y wy) ->
  m_links m !! child_of p (key_turn x y) = Some (Some old, 0) ->
  run (cas_child p old new) m = Ok (tt, moved (child_of p (key_turn x y)) new 0 m).
Proof.
  intros Hp Hn Hl. unfold cas_child. rewrite run_bind, (run_node_of _ _ _ _ Hn), run_bind, (run_node_of _ _ _ _ Hp). cbn [fst].
  unfold key_turn in *. destruct (partial_cmp y x); unfold c_cas; by rewrite run_bind, (run_cas_ok _ _ _ _ _ Hl).
Qed.
Lemma run_help_insert op p ni l x wx y wy m : m_data m !! op = Some (Insert p ni l) -> m_data m !! p = Some (TNode x wx) ->
  m_data m !! ni = Some (TNode y wy) -> m_links m !! child_of p (key_turn x y) = Some (Some l, 0) ->
  m_links m !! update p = Some (Some op, bits IFLAG) ->
  run (help_insert op) m = Ok (tt, moved (update p) op 0 (moved (child_of p (key_turn x y)) ni 0 m)).
Proof.
  intros Ho Hp Hn Hl Hu. unfold help_insert, c_deref. rewrite run_bind. cbn [atomic run]. rewrite Ho.
  rewrite run_bind, (run_cas_child _ _ _ _ _ _ _ _ Hp Hn Hl). apply run_unflag.
  rewrite moved_ne; [done|]. unfold update, child_of. destruct (key_turn x y); cbn; congruence.
Qed.
Lemma run_help_delete f op gp p l u x wx o y wy d m : m_data m !! op = Some (Delete gp p l u) -> gp <> p -> o <> l ->
  m_data m !! gp = Some (TNode x wx) -> m_data m !! o = Some (TNode y wy) ->
  m_links m !! child_of p d = Some (Some l, 0) -> m_links m !! child_of p (flip_dir d) = Some (Some o, 0) ->
  m_links m !! child_of gp (key_turn x y) = Some (Some p, 0) ->
  m_links m !! update p = Some (u, bits CLEAN) -> m_links m !! update gp = Some (Some op, bits DFLAG) ->
  run (help_delete (S f) op) m = Ok (true, moved (update gp) op 0 (moved (child_of gp (key_turn x y)) o 0 (moved (update p) op (bits MARK) m))).
Proof.
  intros Ho Hne Hol Hg Hy Hl Hs Hc Hu Hgu. cbn [help_delete]. unfold c_deref at 1. rewrite run_bind. cbn [atomic run]. rewrite Ho.
  rewrite run_bind, (run_cas_ok _ _ _ _ _ Hu), run_bind. set (m1 := moved (update p) op (bits MARK) m).
  assert (Hm1 : forall a d, m_links m1 !! child_of a d = m_links m !! child_of a d).
  { intros a d'. apply moved_ne. unfold child_of, update. destruct d'; cbn; congruence. }
  unfold help_marked, c_deref. rewrite run_bind. cbn [atomic run]. change (m_data m1) with (m_data m). rewrite Ho.
  set (other := if decide (Some (if d is R then l else o) = Some l) then child_of p L else child_of p R).
  assert (Er : run (c_load (child_of p R)) m1 = Ok (Some (if d is R then l else o), m1)).
  { apply run_load_child. etransitivity; [apply Hm1|by destruct d]. }
  rewrite run_bind, Er. fold other. assert (Eo : other = child_of p (flip_dir d)).
  { unfold other. destruct d; [rewrite decide_False by congruence; done|by rewrite decide_True]. }
  rewrite Eo, run_bind, (run_load_child p (flip_dir d) (Some o)) by (etransitivity; [apply Hm1|done]). cbn [unwrap bind]. rewrite run_bind.
  rewrite (run_cas_child gp p o x wx y wy m1 Hg Hy) by (by rewrite Hm1). rewrite (run_unflag gp op DFLAG); [done|].
  rewrite moved_ne by (unfold child_of, update; destruct (key_turn x y); cbn; congruence).
  unfold m1. rewrite moved_ne; [done|]. unfold update. congruence.
Qed.

(** ** Insertion *)
Record built m m' p l k v x w first (a1 b' a2 op : Z) : Prop := {
  bu_ext : extends m m';
  bu_fresh : forall a, a ∈ [a2; a1; b'; op] -> m_data m !! a = None /\ a <> 0;
  bu_nodup : NoDup [a2; a1; b'];
  bu_data : m_data m' !! a1 = Some (TNode (Fin k) (Some v)) /\ m_data m' !! b' = Some (TNode x w) /\
    m_data m' !! a2 = Some (TNode (if first then x else Fin k) None) /\ m_data m' !! op = Some (Insert p a2 l);
  bu_leaves : forall a, a = a1 \/ a = b' -> forall i, (i < 3)%nat -> m_links m' !! (a, i) = Some (None, 0);
  bu_inner : m_links m' !! update a2 = Some (None, 0) /\ m_links m' !! child_of a2 L = Some (Some (if first then a1 else b'), 0) /\
    m_links m' !! child_of a2 R = Some (Some (if first then b' else a1), 0);
  bu_size : size (m_data m') = (4 + size (m_data m))%nat
}.
Lemma leaf_links_none i : (i < 3)%nat -> leaf_links !! i = Some (None, 0).
Proof. intros. by destruct i as [|[|[|i]]]; [..|lia]. Qed.
Lemma run_build h k v p l x w m : mem_ok m -> kcmp fin x k <> Eq -> let first := match kcmp fin x k with Gt => true | _ => false end in
  exists a1 b' a2 op m', run (build_insert h k v p l (x, w)) m = Ok (op, m') /\ built m m' p l k v x w first a1 b' a2 op.
Proof.
  intros Hm Hx first. set (lt := if first then leaf (Fin k) (Some v) else leaf x w). set (rt := if first then leaf x w else leaf (Fin k) (Some v)).
  assert (E : build_insert h k v p l (x, w) = (n <- internal h rt.1.1 None lt rt ; ni <- new_node h n ; c_new_final h (Insert p ni l) [])).
  { unfold build_insert, lt, rt, first. rewrite <- new_left. cbn [fst snd leaf]. by destruct (partial_cmp (Fin k) x). }
  rewrite E. unfold internal, new_node.
  destruct (run_alloc h (TNode lt.1.1 lt.1.2) lt.2 m Hm) as (n1 & m1 & E1 & X1 & F1 & Z1 & D1 & L1 & S1).
  destruct (run_alloc h (TNode rt.1.1 rt.1.2) rt.2 m1 (ex_ok _ _ X1)) as (n2 & m2 & E2 & X2 & F2 & Z2 & D2 & L2 & S2).
  destruct (run_alloc h (TNode rt.1.1 None) [(None, 0); (Some n1, 0); (Some n2, 0)] m2 (ex_ok _ _ X2)) as (n3 & m3 & E3 & X3 & F3 & Z3 & D3 & L3 & S3).
  destruct (run_alloc h (Insert p n3 l) [] m3 (ex_ok _ _ X3)) as (op & m4 & E4 & X4 & F4 & Z4 & D4 & _ & S4).
  exists (if first then n1 else n2), (if first then n2 else n1), n3, op, m4. split.
  { rewrite run_bind, run_bind, E1, run_bind, E2. cbn [run fst snd]. rewrite run_bind, E3. exact E4. }
  pose proof (extends_trans _ _ _ X3 X4) as X34. pose proof (extends_trans _ _ _ X2 X34) as X24. pose proof (extends_trans _ _ _ X1 X2) as X12.
  destruct (extends_node _ _ _ _ X24 D1) as [D1' K1]. destruct (extends_node _ _ _ _ X34 D2) as [D2' K2]. destruct (extends_node _ _ _ _ X4 D3) as [D3' K3].
  destruct (extends_node _ _ _ _ X2 D1) as [D12 _]. destruct (extends_node _ _ _ _ X3 D2) as [D23 _].
  assert (N : n1 <> n2 /\ n1 <> n3 /\ n2 <> n3) by (split_and!; congruence). destruct N as (N12 & N13 & N23).
  pose proof (@not_elem_of_nil Z) as Hnil.
  assert (Hl1 : forall i, (i < 3)%nat -> m_links m4 !! (n1, i) = Some (None, 0)).
  { intros i Hi. apply K1, L1. unfold lt. destruct first; by apply leaf_links_none. }
  assert (Hl2 : forall i, (i < 3)%nat -> m_links m4 !! (n2, i) = Some (None, 0)).
  { intros i Hi. apply K2, L2. unfold rt. destruct first; by apply leaf_links_none. }
  split.
  - exact (extends_trans _ _ _ X1 X24).
  - intros a Ha. assert (Hc : a = n1 \/ a = n2 \/ a = n3 \/ a = op) by (rewrite !elem_of_cons in Ha; specialize (Hnil a); destruct first; tauto).
    destruct Hc as [->|[->|[->| ->]]]; (split; [|done]); [done|by apply (extends_fresh _ _ _ X1)|by apply (extends_fresh _ _ _ X12)|].
    by apply (extends_fresh _ _ _ (extends_trans _ _ _ X12 X3)).
  - rewrite !NoDup_cons, !not_elem_of_cons. destruct first; split_and!; auto; by apply NoDup_nil.
  - unfold lt, rt in *. destruct first; split_and!; done.
  - intros a [->| ->]; destruct first; auto.
  - pose proof (K3 0%nat _ (L3 0%nat _ eq_refl)). pose proof (K3 1%nat _ (L3 1%nat _ eq_refl)). pose proof (K3 2%nat _ (L3 2%nat _ eq_refl)).
    destruct first; done.
  - lia.
Qed.

(** The memory after the three compare-exchanges of an insertion below [p]. *)
Definition after_insert m' p d (a2 op : Z) : mem (node K V) :=
  moved (update p) op 0 (moved (child_of p d) a2 0 (moved (update p) op (bits IFLAG) m')).
Lemma after_insert_links m' p d a2 op a i : a <> p -> m_links (after_insert m' p d a2 op) !! (a, i) = m_links m' !! (a, i).
Proof. intros H. unfold after_insert, update, child_of. rewrite !moved_ne by congruence. done. Qed.
Lemma efrb_grown_rep m m' mF p l k v x w first a1 b' a2 op : built m m' p l k v x w first a1 b' a2 op ->
  m_data mF = m_data m' -> (forall a i, a ∈ [a2; a1; b'] -> m_links mF !! (a, i) = m_links m' !! (a, i)) ->
  rep mF (grown Fin x w k first a1 a2 v b') /\ forall a, a ∈ [a2; a1; b'] -> clean mF a.
Proof.
  intros [_ _ _ (D1 & Db & D2 & _) Hl (I0 & I1 & I2) _] Hd Hk.
  assert (N2 : a2 ∈ [a2; a1; b']) by (by left). assert (N1 : a1 ∈ [a2; a1; b']) by (right; by left).
  assert (Nb : b' ∈ [a2; a1; b']) by (right; right; by left).
  assert (R1 : rep mF (Leaf a1 (Fin k) (Some v))) by (cbn; unfold child_link; rewrite Hd, !Hk, !Hl by (auto || (cbn; lia)); done).
  assert (Rb : rep mF (Leaf b' x w)) by (cbn; unfold child_link; rewrite Hd, !Hk, !Hl by (auto || (cbn; lia)); done).
  split.
  - unfold grown. unfold child_of in *. destruct first; (split; [by rewrite Hd|]); (split; [unfold child_link; by rewrite Hk|]);
      (split; [unfold child_link; by rewrite Hk|done]).
  - intros a Ha. unfold clean. unfold update in *. rewrite Hk by done. rewrite !elem_of_cons in Ha. pose proof (@not_elem_of_nil Z a).
    exists None. destruct Ha as [->|[->|[->|?]]]; [done|apply Hl; [auto|lia]|apply Hl; [auto|lia]|tauto].
Qed.
Lemma efrb_insert_holds m m' A k v r i2 c b x w s1 cc first a1 b' a2 op : at_leaf m A k r i2 c b x w -> c ++ outer r i2 = s1 :: cc ->
  kcmp fin x k = (if first then Gt else Lt) -> built m m' (s_addr s1) b k v x w first a1 b' a2 op ->
  holds (after_insert m' (s_addr s1) (s_dir s1) a2 op) (<[k := v]> A).
Proof.
  intros [Hok Hroot Hlo Hs Hq] Ec Hx Hb. set (p := s_addr s1) in *. set (mF := after_insert m' p (s_dir s1) a2 op).
  pose proof (located_ne _ _ _ _ _ _ _ _ _ _ _ _ Hlo) as Hne. destruct (located_distinct _ _ _ _ _ _ _ _ _ _ _ _ Hlo) as [_ Hbn].
  pose proof (located_nodes _ _ _ _ _ _ _ _ _ _ _ _ Hlo) as Hex. pose proof Hb as [[Hok' Hd' Hl'] Hfr Hnd _ _ _ _].
  assert (Hin : forall a, a ∈ ctx_addrs (s1 :: cc) -> a ∈ ctx_addrs (c ++ outer r i2) ++ [b]) by (intros a Ha; rewrite Ec; apply elem_of_app; by left).
  assert (Hp : p ∈ ctx_addrs (s1 :: cc)) by (by left).
  assert (Hp0 : p <> 0) by (apply Hne; [auto|apply (mo_null _ Hok)]).
  assert (Hnew : forall a, a ∈ [a2; a1; b'] -> m_data m !! a = None).
  { intros a Ha. apply (Hfr a). rewrite !elem_of_cons in *. tauto. }
  assert (HkF : forall a i, a <> p -> is_Some (m_data m !! a) -> m_links mF !! (a, i) = m_links m !! (a, i)).
  { intros a i Ha Hs'. unfold mF. rewrite after_insert_links by done. apply Hl'. by right. }
  destruct (efrb_grown_rep m m' mF p b k v x w first a1 b' a2 op Hb) as [Hrg Hcg]; [done| |].
  { intros a i Ha. apply after_insert_links. intros ->. by apply (Hne p p); auto. }
  exists r, i2, (plug c (grown Fin x w k first a1 a2 v b')). split_and!.
  - by apply moved_ok, moved_ok, moved_ok.
  - rewrite <- Hroot. unfold tree_root. unfold mF. rewrite after_insert_links by done. apply Hl'. by left.
  - eapply located_replace; [exact Hlo|exact Ec|exact Hrg| | |].
    + intros a Ha. destruct (Hex a (Hin a Ha)) as [d Hd]. rewrite Hd. by apply Hd'.
    + intros a d Ha Hn. destruct (decide (a = p)) as [->|Hap]; [|by apply HkF, Hex, Hin].
      assert (d <> s_dir s1) by (intros ->; by apply Hn). transitivity (m_links m' !! (p, eside d)).
      * unfold mF, after_insert, update, child_of. rewrite !moved_ne; [done|..]; destruct d, (s_dir s1); cbn; congruence.
      * apply Hl'. right. by apply Hex, Hin.
    + unfold child_link, mF, after_insert. fold p. change (p, eside (s_dir s1)) with (child_of p (s_dir s1)).
      rewrite moved_ne by (unfold update, child_of; destruct (s_dir s1); cbn; congruence). rewrite moved_eq. unfold grown. by destruct first.
  - destruct Hlo. apply tree_of_grow with (b := b); try done.
    + intros a Ha Ha'. apply (Hne a a); [apply elem_of_app; by left|by apply Hnew|done].
    + intros ->. destruct (to_spine _ _ _ _ _ lo_tree) as [-> _]. by destruct first.
  - rewrite <- plug_app. eapply sorted_grow; [exact Hs|by destruct Hlo|done].
  - intros a Ha. rewrite <- plug_app, addrs_plug in Ha. apply elem_of_app in Ha as [Ha|Ha].
    + destruct (decide (a = p)) as [->|Hap]; [exists (Some op); apply moved_eq|].
      destruct (Hq a) as [u Hu]; [apply elem_of_app; by left|]. exists u. unfold update. rewrite HkF; [exact Hu|done|].
      apply Hex. apply elem_of_app. by left.
    + apply Hcg. unfold grown in Ha. destruct first; cbn in Ha; rewrite !elem_of_cons in *; tauto.
Qed.

Lemma path_steps c r i2 : exists s1 cc, c ++ outer r i2 = s1 :: cc.
Proof. destruct c; cbn; eauto. Qed.
(** The parent on the path: its node, its links and its place in the order. *)
Lemma at_leaf_parent m A k r i2 c b x w s1 cc : at_leaf m A k r i2 c b x w -> c ++ outer r i2 = s1 :: cc ->
  m_data m !! s_addr s1 = Some (TNode (s_key s1) (s_val s1)) /\ m_links m !! child_of (s_addr s1) (s_dir s1) = Some (Some b, 0) /\
  m_data m !! b = Some (TNode x w) /\ key_turn (s_key s1) x = s_dir s1 /\ key_turn (s_key s1) (Fin k) = s_dir s1 /\
  exists u, m_links m !! update (s_addr s1) = Some (u, bits CLEAN) /\ upd m (s_addr s1) = (u, bits CLEAN).
Proof.
  intros [_ _ Hlo Hs Hq] Ec. pose proof (located_data _ _ _ _ _ _ _ _ _ _ _ _ Hlo) as Hd. destruct Hlo as [Hrep Hpath _]. rewrite Ec in *.
  destruct (Hq (s_addr s1)) as [u Hu]; [by left|]. apply rep_plug in Hrep as [(H1 & H2 & _) _]. apply sorted_plug in Hs as (_ & _ & Hk).
  split_and!; try done.
  - apply (Hk x); by left.
  - rewrite key_turn_fin. symmetry. apply Hpath. by left.
  - exists u. split; [done|]. unfold upd. by rewrite Hu.
Qed.
Lemma run_efrb_insert f m A k v h : holds m A -> (size (m_data m) < f)%nat -> exists m',
  run (efrb_insert f k v h) m = Ok (bool_decide (A !! k = None), m') /\
  holds m' (match A !! k with Some _ => A | None => <[k := v]> A end) /\ (size (m_data m') <= size (m_data m) + 4)%nat.
Proof.
  intros H Hf. destruct (holds_at f m A k H Hf) as (r & i2 & c & b & x & w & Hat & Es). pose proof Hat as [Hok _ Hlo _ _].
  destruct (path_steps c r i2) as (s1 & cc & Ec). destruct (at_leaf_parent _ _ _ _ _ _ _ _ _ _ _ Hat Ec) as (Hp & Hl & Hd & Kx & Kk & u & Hu & Eu).
  destruct f as [|f']; [lia|]. unfold efrb_insert. cbn [loop]. rewrite run_bind. unfold insert_round at 1. rewrite Es, Ec.
  assert (Ecur : c_l (cursor_of m (s1 :: cc) b) = b /\ c_p (cursor_of m (s1 :: cc) b) = Some (s_addr s1) /\
    c_pupdate (cursor_of m (s1 :: cc) b) = (u, bits CLEAN)) by (rewrite <- Eu; by destruct cc).
  destruct Ecur as (-> & -> & ->). cbn [unwrap bind]. rewrite run_bind, (run_node_of _ _ _ _ Hd). cbn [fst snd].
  rewrite (located_lookup _ _ _ _ _ _ _ _ _ _ _ _ Hlo). pose proof (kcmp_eq fin x k) as Hk.
  destruct (decide (kcmp fin x k = Eq)) as [E|E].
  { destruct (located_value _ _ _ _ _ _ _ _ _ _ _ _ Hlo E) as [v' ->]. rewrite decide_True by tauto. exists m. split; [done|]. split; [done|lia]. }
  rewrite decide_False by tauto. cbn [Z.eqb negb bits].
  destruct (run_build h k v (s_addr s1) b x w m Hok E) as (a1 & b' & a2 & op & m1 & E1 & Hb). set (first := match kcmp fin x k with Gt => true | _ => false end) in *.
  assert (Hx : kcmp fin x k = if first then Gt else Lt) by (unfold first; by destruct (kcmp fin x k)).
  pose proof Hb as [X _ _ (D1 & Db & D2 & Do) _ _ Hsz]. destruct (extends_node _ _ _ _ X Hp) as [Hp1 Hlk].
  assert (Ky : key_turn (s_key s1) (if first then x else Fin k) = s_dir s1) by (by destruct first).
  set (m2 := moved (update (s_addr s1)) op (bits IFLAG) m1).
  assert (Ehelp : run (help_insert op) m2 = Ok (tt, after_insert m1 (s_addr s1) (s_dir s1) a2 op)).
  { rewrite (run_help_insert op (s_addr s1) a2 b (s_key s1) (s_val s1) (if first then x else Fin k) None m2), Ky; try done.
    - rewrite Ky. unfold m2. rewrite moved_ne by (unfold update, child_of; destruct (s_dir s1); cbn; congruence). by apply Hlk.
    - apply moved_eq. }
  exists (after_insert m1 (s_addr s1) (s_dir s1) a2 op). split; [|split; [by eapply efrb_insert_holds|change (size (m_data m1) <= size (m_data m) + 4)%nat; lia]].
  rewrite run_bind, E1, run_bind, (run_cas_ok _ _ _ _ _ (Hlk _ _ Hu)). change (moved (s_addr s1, 0%nat) op 2 m1) with m2. by rewrite run_bind, Ehelp.
Qed.

(** ** Removal *)
(** The memory after the four compare-exchanges of a removal below [gp] and [p]. *)
Definition after_delete m' gp p d (o op : Z) : mem (node K V) :=
  moved (update gp) op 0 (moved (child_of gp d) o 0 (moved (update p) op (bits MARK) (moved (update gp) op (bits DFLAG) m'))).
Lemma key_in_keys t : SearchTree.key t ∈ keys t.
Proof. destruct t; by left. Qed.
Lemma at_leaf_grandparent m A k r i2 c b x w s1 s2 cc : at_leaf m A k r i2 c b x w -> c ++ outer r i2 = s1 :: s2 :: cc ->
  m_data m !! s_addr s2 = Some (TNode (s_key s2) (s_val s2)) /\ m_links m !! child_of (s_addr s2) (s_dir s2) = Some (Some (s_addr s1), 0) /\
  m_links m !! child_of (s_addr s1) (flip_dir (s_dir s1)) = Some (Some (addr (s_other s1)), 0) /\
  (exists wo, m_data m !! addr (s_other s1) = Some (TNode (SearchTree.key (s_other s1)) wo)) /\
  key_turn (s_key s2) (SearchTree.key (s_other s1)) = s_dir s2 /\ s_addr s2 <> s_addr s1 /\ addr (s_other s1) <> b /\ c <> [] /\
  exists u, m_links m !! update (s_addr s2) = Some (u, bits CLEAN) /\ upd m (s_addr s2) = (u, bits CLEAN).
Proof.
  intros [_ _ Hlo Hs Hq] Ec. destruct (located_distinct _ _ _ _ _ _ _ _ _ _ _ _ Hlo) as [Hnd Hb]. destruct Hlo as [Hrep _ _].
  assert (Hc : c <> []) by (intros ->; done). rewrite Ec in *.
  change (ctx_addrs (s1 :: s2 :: cc)) with (s_addr s1 :: addrs (s_other s1) ++ ctx_addrs (s2 :: cc)) in *.
  assert (H2 : s_addr s2 ∈ addrs (s_other s1) ++ ctx_addrs (s2 :: cc)) by (apply elem_of_app; right; by left).
  destruct (Hq (s_addr s2)) as [u Hu]; [apply elem_of_app; left; by right|]. apply rep_plug in Hrep as [(_ & _ & Ho & Hro & (H3 & H4 & _)) _].
  destruct (sorted_prune _ _ _ Hs) as [_ Hk]. split_and!; try done.
  - exact (rep_data _ _ _ _ Hro).
  - apply (Hk _ (key_in_keys (s_other s1))). by left.
  - intros E. apply NoDup_cons in Hnd as [Hn _]. apply Hn. by rewrite <- E.
  - intros <-. apply Hb. right. apply elem_of_app. left. destruct (s_other s1); by left.
  - exists u. split; [done|]. unfold upd. by rewrite Hu.
Qed.
Lemma delete_holds m m' A k r i2 c b x w s1 s2 cc op : at_leaf m A k r i2 c b x w -> c ++ outer r i2 = s1 :: s2 :: cc -> kcmp fin x k = Eq ->
  extends m m' -> holds (after_delete m' (s_addr s2) (s_addr s1) (s_dir s2) (addr (s_other s1)) op) (base.delete k A).
Proof.
  intros Hat Ec Hx [Hok' Hd' Hl']. destruct (at_leaf_grandparent _ _ _ _ _ _ _ _ _ _ _ _ Hat Ec) as (_ & _ & _ & _ & _ & H21 & _ & Hc & _).
  destruct Hat as [Hok Hroot Hlo Hs Hq]. set (p := s_addr s1) in *. set (gp := s_addr s2) in *. set (mF := after_delete m' gp p (s_dir s2) (addr (s_other s1)) op).
  pose proof (located_ne _ _ _ _ _ _ _ _ _ _ _ _ Hlo) as Hne. pose proof (located_nodes _ _ _ _ _ _ _ _ _ _ _ _ Hlo) as Hex.
  assert (Hin : forall a, a ∈ ctx_addrs (s1 :: s2 :: cc) -> a ∈ ctx_addrs (c ++ outer r i2) ++ [b]) by (intros a Ha; rewrite Ec; apply elem_of_app; by left).
  assert (Hin2 : forall a, a ∈ ctx_addrs (s2 :: cc) \/ a ∈ addrs (s_other s1) -> a ∈ ctx_addrs (s1 :: s2 :: cc)) by
    (intros a Ha; right; apply elem_of_app; tauto).
  assert (Hp : p ∈ ctx_addrs (s1 :: s2 :: cc)) by (by left). assert (Hg : gp ∈ ctx_addrs (s1 :: s2 :: cc)) by (apply Hin2; left; by left).
  assert (Hk0 : forall a i, a <> p -> a <> gp -> m_links mF !! (a, i) = m_links m' !! (a, i)).
  { intros a i H1 H2. unfold mF, after_delete, update, child_of. rewrite !moved_ne by congruence. done. }
  assert (HkF : forall a i, a <> p -> a <> gp -> is_Some (m_data m !! a) -> m_links mF !! (a, i) = m_links m !! (a, i)).
  { intros a i H1 H2 Hs'. rewrite Hk0 by done. apply Hl'. by right. }
  destruct (located_splice _ _ _ _ _ _ _ _ _ _ _ _ Hlo mF s1 s2 cc Ec Hc) as (c' & -> & Hrep).
  - intros a Ha. destruct (Hex a (Hin a Ha)) as [d Hd]. rewrite Hd. by apply Hd'.
  - intros a d Ha Hap Hn. destruct (decide (a = gp)) as [->|Hag]; [|by apply HkF, Hex, Hin].
    assert (d <> s_dir s2) by (intros ->; by apply Hn). transitivity (m_links m' !! (gp, eside d)).
    + unfold mF, after_delete, update, child_of. rewrite !moved_ne; [done|..]; destruct d, (s_dir s2); cbn; congruence.
    + apply Hl'. right. by apply Hex, Hin.
  - unfold child_link, mF, after_delete. fold gp. change (gp, eside (s_dir s2)) with (child_of gp (s_dir s2)).
    rewrite moved_ne by (unfold update, child_of; destruct (s_dir s2); cbn; congruence). apply moved_eq.
  - cbn [app] in Ec. injection Ec as Ec. exists r, i2, (plug c' (s_other s1)). rewrite <- !plug_app, <- !app_comm_cons, Ec in *. split_and!.
    + by do 4 apply moved_ok.
    + rewrite <- Hroot. unfold tree_root. rewrite Hk0; [apply Hl'; by left| |]; apply not_eq_sym, Hne; auto using mo_null.
    + done.
    + destruct Hlo. eapply (tree_of_prune fin Fin Inf1); [exact lo_tree| |exact Hx]. done.
    + by destruct (sorted_prune _ _ _ Hs).
    + intros a Ha. rewrite addrs_plug in Ha. apply elem_of_app in Ha. destruct (decide (a = gp)) as [->|Hag]; [exists (Some op); apply moved_eq|].
      pose proof (Hin2 a Ha) as Ha'. destruct (Hq a (Hin a Ha')) as [u Hu]. exists u. unfold update. rewrite HkF; [exact Hu| |done|by apply Hex, Hin].
      destruct (located_distinct _ _ _ _ _ _ _ _ _ _ _ _ Hlo) as [Hnd _]. rewrite <- app_comm_cons, Ec in Hnd.
      apply NoDup_cons in Hnd as [Hn _]. intros ->. apply Hn, elem_of_app. tauto.
Qed.

Lemma run_delete f m A k h : holds m A -> (size (m_data m) < f)%nat ->
  match A !! k with
  | Some v => exists leaf m', run (delete f k h) m = Ok (Some leaf, m') /\ run (holder_borrow leaf) m' = Ok (v, m') /\
      holds m' (base.delete k A) /\ (size (m_data m') <= size (m_data m) + 4)%nat
  | None => run (delete f k h) m = Ok (None, m)
  end.
Proof.
  intros H Hf. destruct (holds_at f m A k H Hf) as (r & i2 & c & b & x & w & Hat & Es). pose proof Hat as [Hok _ Hlo _ _].
  destruct f as [|f']; [lia|]. unfold delete. cbn [loop]. rewrite run_bind. unfold delete_round. rewrite Es, (located_lookup _ _ _ _ _ _ _ _ _ _ _ _ Hlo).
  pose proof (kcmp_eq fin x k) as Hk. assert (Efin : x = Fin k <-> fin x = Some k) by (destruct x; cbn; naive_solver).
  destruct (path_steps c r i2) as (s1 & [|s2 cc] & Ec).
  { destruct c as [|s0 [|s1' c]]; [|done|done]. destruct (to_spine _ _ _ _ _ (lo_tree _ _ _ _ _ _ _ _ _ _ _ _ Hlo)) as [-> _]. done. }
  rewrite Ec. cbn [cursor_of c_gp c_l c_gpupdate c_pupdate c_p].
  destruct (at_leaf_parent _ _ _ _ _ _ _ _ _ _ _ Hat Ec) as (Hp & Hl & Hd & _ & _ & u1 & Hu1 & ->).
  destruct (at_leaf_grandparent _ _ _ _ _ _ _ _ _ _ _ _ Hat Ec) as (Hg & Hlg & Hsib & (wo & Ho) & Ko & H21 & Hob & _ & u2 & Hu2 & ->).
  rewrite run_bind, (run_node_of _ _ _ _ Hd). cbn [fst]. destruct (decide (kcmp fin x k = Eq)) as [E|E].
  2: { rewrite bool_decide_eq_false_2 by tauto. done. }
  rewrite bool_decide_eq_true_2 by tauto. destruct (located_value _ _ _ _ _ _ _ _ _ _ _ _ Hlo E) as [v ->].
  cbn [Z.eqb negb bits snd fst unwrap bind].
  destruct (run_alloc h (Delete (s_addr s2) (s_addr s1) b u1) [] m Hok) as (op & m1 & E1 & X & _ & _ & D1 & _ & Hsz).
  destruct (extends_node _ _ _ _ X Hp) as [_ K1]. destruct (extends_node _ _ _ _ X Hg) as [Hg1 K2]. destruct (extends_node _ _ _ _ X Ho) as [Ho1 _].
  set (m2 := moved (update (s_addr s2)) op (bits DFLAG) m1).
  assert (N : forall d a, child_of a d <> update (s_addr s2)) by (intros [] a; unfold child_of, update; cbn; congruence).
  assert (Ehelp : run (help_delete (S f') op) m2 = Ok (true, after_delete m1 (s_addr s2) (s_addr s1) (s_dir s2) (addr (s_other s1)) op)).
  { rewrite (run_help_delete f' op (s_addr s2) (s_addr s1) b u1 (s_key s2) (s_val s2) (addr (s_other s1)) (SearchTree.key (s_other s1)) wo (s_dir s1) m2); try done.
    - by rewrite Ko.
    - unfold m2. rewrite moved_ne by apply N. by apply K1.
    - unfold m2. rewrite moved_ne by apply N. by apply K1.
    - rewrite Ko. unfold m2. rewrite moved_ne by apply N. by apply K2.
    - unfold m2. rewrite moved_ne by (unfold update; congruence). by apply K1.
    - apply moved_eq. }
  exists b, (after_delete m1 (s_addr s2) (s_addr s1) (s_dir s2) (addr (s_other s1)) op). split; [|split; [|split]].
  - rewrite run_bind, E1, run_bind, (run_cas_ok _ _ _ _ _ (K2 _ _ Hu2)). change (moved (s_addr s2, 0%nat) op 1 m1) with m2.
    by rewrite run_bind, Ehelp.
  - unfold holder_borrow. destruct (extends_node _ _ _ _ X Hd) as [Hd1 _]. by rewrite run_bind, (run_node_of b x (Some v)).
  - by eapply delete_holds.
  - change (size (m_data m1) <= size (m_data m) + 4)%nat. lia.
Qed.

(** ** The map *)
Lemma efrb_exec_ok h f q m A : holds m A -> (S (size (m_data m)) <= f)%nat -> exists m',
  run (efrb_exec h f q) m = Ok ((serve q A).1, m') /\ holds m' (serve q A).2 /\ (S (size (m_data m')) <= S (size (m_data m)) + 4)%nat.
Proof.
  intros H Hf. destruct q as [k|k v|k]; cbn [efrb_exec serve fst snd]; rewrite run_bind.
  - pose proof (run_find f m A k h H ltac:(lia)) as E. exists m. split; [|split; [done|lia]]. destruct (A !! k) as [v|].
    + destruct E as (leaf & -> & Eb). by rewrite run_bind, run_bind, Eb.
    + by rewrite E.
  - destruct (run_efrb_insert f m A k v h H ltac:(lia)) as (m' & -> & Hh & Hs). exists m'. split; [done|]. split; [done|lia].
  - pose proof (run_delete f m A k h H ltac:(lia)) as E. destruct (A !! k) as [v|] eqn:Ek.
    + destruct E as (leaf & m' & -> & Eb & Hh & Ed). exists m'. rewrite run_bind, run_bind, Eb. split; [done|]. split; [done|lia].
    + rewrite E. exists m. rewrite delete_id by done. split; [done|]. split; [done|lia].
Qed.
#[export] Instance efrb_map h : MapImpl K V (mem (node K V)) :=
  {| mi_exec := efrb_exec h; mi_holds := holds; mi_cost m := S (size (m_data m)); mi_growth := 4; mi_exec_ok := efrb_exec_ok h |}.

(** [EFRBTree::new] *)
Definition empty_mem : mem (node K V) := mkMem ∅ ∅ ∅.
#[local] Definition efrb_new_mem h := match run (efrb_new h) empty_mem with Ok (_, m) => m | Stopped _ => empty_mem end.
Lemma new_nodes h : exists m, run (efrb_new h) empty_mem = Ok (tt, m) /\
  m_data m = <[3 := TNode Inf2 None]> (<[2 := TNode Inf2 None]> (<[1 := TNode Inf1 None]> ∅)) /\ mem_ok m /\
  m_links m !! tree_root = Some (Some 3, 0) /\
  (forall a, a = 1 \/ a = 2 -> m_links m !! child_of a L = Some (None, 0) /\ m_links m !! child_of a R = Some (None, 0)) /\
  m_links m !! child_of 3 L = Some (Some 1, 0) /\ m_links m !! child_of 3 R = Some (Some 2, 0) /\
  (forall a, a = 1 \/ a = 2 \/ a = 3 -> m_links m !! update a = Some (None, 0)).
Proof.
  exists (efrb_new_mem h). split; [vm_compute; reflexivity|]. split; [vm_compute; reflexivity|]. split.
  { split; [vm_compute; reflexivity|]. intros a h' E. by pose proof (eq_trans (eq_sym E) (lookup_empty (M := gmap Z) a)). }
  split; [vm_compute; reflexivity|]. split; [intros a [->| ->]; split; vm_compute; reflexivity|].
  split; [vm_compute; reflexivity|]. split; [vm_compute; reflexivity|]. intros a [->|[->| ->]]; vm_compute; reflexivity.
Qed.
Lemma efrb_new_run h : exists m, run (efrb_new h) empty_mem = Ok (tt, m) /\ holds m ∅ /\ size (m_data m) = 3%nat.
Proof.
  destruct (new_nodes h) as (m & E & Hd & Hok & Hr & Hlf & HL & HR & Hu). exists m. split; [done|]. clear E.
  split; [|rewrite Hd; vm_compute; reflexivity].
  destruct (Hlf 1 ltac:(auto)) as [L1 R1]. destruct (Hlf 2 ltac:(auto)) as [L2 R2].
  exists 3, 2, (Leaf 1 Inf1 None). split; [done|]. split; [done|]. split; [|split; [|split]].
  - cbn. unfold child_link. cbn. rewrite Hd. split_and!; done || (rewrite ?lookup_insert_ne, lookup_insert_eq by done; done).
  - split; [apply (bool_decide_unpack _); reflexivity|cbn; naive_solver|done|].
    intros k v. rewrite lookup_empty. cbn. naive_solver.
  - cbn. split_and!; try done; intros y ->%list_elem_of_singleton; done.
  - intros a Ha. exists None. apply Hu. cbn in Ha. rewrite !elem_of_cons in Ha. pose proof (@not_elem_of_nil Z a). tauto.
Qed.

(** C16. The EFRB tree refines the finite map: one thread that creates a tree and sends any
    sequence of [find], [insert] and [delete] gets the answers of the map, each with its value,
    and leaves the map's contents in a tree without announced updates; every loop returns
    within four rounds and four more for each request. *)
Theorem efrb_refines_map h e (qs : list (request K V)) : exists m',
  run (_ <- efrb_new h ; session (S := mem (node K V)) (MapImpl0 := efrb_map h) (4 + length qs * 4 + e) qs) empty_mem =
    Ok ((serve_all qs ∅).1, m') /\ holds m' (serve_all qs ∅).2.
Proof.
  destruct (efrb_new_run h) as (m & E & Hm & Hs). rewrite run_bind, E. apply (run_session (S := mem (node K V)) (MapImpl0 := efrb_map h)); [exact Hm|].
  cbn. lia.
Qed.
End alone.
