(* ===== verification/EFRBSafe.v ===== *)
(** * The EFRB tree under interference

    Any number of threads help each other to finish announced updates.  [sound] is what
    every step of every thread keeps: internal nodes stay internal, leaves stay leaves, the
    [update] link of a node is tagged with the kind of the description it leads to and is
    never null again, and descriptions name internal nodes. *)
From S2P Require Import Prelude Prog Managed Lists HashMap SearchTree EFRBTree EFRBCorrect.
Import EFRBTree.Keys.
#[local] Open Scope Z_scope.
#[local] Open Scope prog_scope.

Section safe.
Context {K V : Type} `{!Ord K, !EqDecision K, !Countable K}.
(** The pairs some thread inserts. *)
Context (P : K -> V -> Prop).
#[local] Abbreviation M := (prog (mem (node K V))).
Implicit Types (m : mem (node K V)) (k : K) (v : V) (x : Key K) (w : option V) (h : nat) (a : Z).

(** ** The invariant *)
Definition tnode m a : Prop := exists x w, m_data m !! a = Some (TNode x w).
Definition inner m a : Prop := tnode m a /\ forall d, exists c n, m_links m !! child_of a d = Some (Some c, n) /\ tnode m c.
Definition good_value x w : Prop := forall k, fin x = Some k -> exists v, w = Some v /\ P k v.
Definition leafy m a : Prop := exists x w, m_data m !! a = Some (TNode x w) /\ good_value x w /\
  forall d, exists n, m_links m !! child_of a d = Some (None, n).
(** What the tag of an [update] link says of its target. *)
Definition describes m (u : link) : Prop :=
  match u.1 with
  | None => u.2 = bits CLEAN
  | Some o =>
      (u.2 = bits CLEAN) \/
      (u.2 = bits IFLAG /\ exists p ni l, m_data m !! o = Some (Insert p ni l)) \/
      (u.2 = bits DFLAG \/ u.2 = bits MARK) /\ exists gp p l pu, m_data m !! o = Some (Delete gp p l pu)
  end.
Record sound m : Prop := {
  so_ok : mem_ok m;
  so_root : exists r n, m_links m !! tree_root = Some (Some r, n) /\ inner m r;
  so_node : forall a, tnode m a -> (inner m a \/ leafy m a) /\ exists u, m_links m !! update a = Some u /\ describes m u;
  so_insert : forall o p ni l, m_data m !! o = Some (Insert p ni l) -> inner m p /\ tnode m ni;
  so_delete : forall o gp p l pu, m_data m !! o = Some (Delete gp p l pu) -> inner m gp /\ inner m p
}.
Record stays m m' : Prop := {
  st_data : forall a d, m_data m !! a = Some d -> m_data m' !! a = Some d;
  st_inner : forall a, inner m a -> inner m' a;
  st_leafy : forall a, leafy m a -> leafy m' a;
  st_update : forall a o n, tnode m a -> m_links m !! update a = Some (Some o, n) -> exists o' n', m_links m' !! update a = Some (Some o', n')
}.
Definition rely m m' : Prop := sound m -> sound m' /\ stays m m'.
#[export] Instance rely_preorder : PreOrder rely.
Proof.
  split; [intros m H; split; [done|split; naive_solver]|].
  intros m1 m2 m3 H1 H2 Hs. destruct (H1 Hs) as [Hs2 [A1 B1 C1 D1]]. destruct (H2 Hs2) as [Hs3 [A2 B2 C2 D2]].
  split; [done|]. split; auto. intros a o n Ha H. destruct (D1 a o n Ha H) as (o' & n' & H'). apply (D2 a o' n'); [|done].
  destruct Ha as (x & w & Hd). exists x, w. auto.
Qed.
Definition guar (o : option unit) m m' : Prop := rely m m'.
#[local] Abbreviation wp := (wp rely guar).

Lemma stays_tnode m m' a : stays m m' -> tnode m a -> tnode m' a.
Proof. intros [Hd _ _ _] (x & w & H). exists x, w. auto. Qed.
Lemma stays_describes m m' u : stays m m' -> describes m u -> describes m' u.
Proof. intros [Hd _ _ _]. unfold describes. destruct u.1 as [o|]; [|done]. naive_solver. Qed.

(** ** The steps *)
Lemma set_child_rely m a d c n : inner m a -> tnode m c -> rely m (moved (child_of a d) c n m).
Proof.
  intros [Ha Hl] Hc Hs. set (m' := moved (child_of a d) c n m).
  assert (Hu : forall b, m_links m' !! update b = m_links m !! update b) by
    (intros b; apply moved_ne; unfold update, child_of; destruct d; cbn; congruence).
  assert (Hk : forall b e, (b, e) <> (a, d) -> m_links m' !! child_of b e = m_links m !! child_of b e).
  { intros b e Hn. apply moved_ne. unfold child_of. intros [= -> E]. apply Hn. f_equal. by destruct d, e. }
  assert (Hin : forall b, inner m b -> inner m' b).
  { intros b [Hb Hbl]. split; [done|]. intros e. destruct (decide ((b, e) = (a, d))) as [[= -> ->]|Hn]; [exists c, n; split; [apply moved_eq|done]|].
    rewrite Hk by done. apply Hbl. }
  assert (Hlf : forall b, leafy m b -> leafy m' b).
  { intros b (x & w & Hd & Hg & Hbl). exists x, w. split; [done|]. split; [done|]. intros e. destruct (decide ((b, e) = (a, d))) as [[= -> ->]|Hn].
    - destruct (Hl d) as (c0 & n0 & E0 & _). destruct (Hbl d) as (n1 & E1). congruence.
    - rewrite Hk by done. apply Hbl. }
  destruct Hs as [Hok (r & nr & Hr & Hri) Hn Hi Hdl]. split; [|split; [done|done|done|]].
  - split.
    + by apply moved_ok.
    + exists r, nr. split; [|by apply Hin]. rewrite <- Hr. apply moved_ne. unfold tree_root, child_of. by destruct d.
    + intros b Hb. destruct (Hn b Hb) as [H1 (u & H2 & H3)]. split; [destruct H1; [left; auto|right; auto]|]. exists u. by rewrite Hu.
    + intros o p ni l Ho. destruct (Hi o p ni l Ho). split; [by apply Hin|done].
    + intros o gp p l pu Ho. destruct (Hdl o gp p l pu Ho). split; by apply Hin.
  - intros b o n' _ H. exists o, n'. by rewrite Hu.
Qed.
Lemma set_update_rely m a o g : a <> 0 -> describes m (Some o, bits g) -> rely m (moved (update a) o (bits g) m).
Proof.
  intros H0 Hdesc Hs. set (m' := moved (update a) o (bits g) m).
  assert (Hk : forall b e, m_links m' !! child_of b e = m_links m !! child_of b e) by
    (intros b e; apply moved_ne; unfold update, child_of; destruct e; cbn; congruence).
  assert (Hin : forall b, inner m b -> inner m' b) by (intros b [Hb Hbl]; split; [done|]; intros e; rewrite Hk; apply Hbl).
  assert (Hlf : forall b, leafy m b -> leafy m' b).
  { intros b (x & w & Hd & Hg & Hbl). exists x, w. split; [done|]. split; [done|]. intros e. rewrite Hk. apply Hbl. }
  destruct Hs as [Hok (r & nr & Hr & Hri) Hn Hi Hdl]. split; [|split; [done|done|done|]].
  - split.
    + by apply moved_ok.
    + exists r, nr. split; [|by apply Hin]. rewrite <- Hr. apply moved_ne. unfold tree_root, update. congruence.
    + intros b Hb. destruct (Hn b Hb) as [H1 (u & H2 & H3)]. split; [destruct H1; [left; auto|right; auto]|].
      destruct (decide (b = a)) as [->|Hne]; [exists (Some o, bits g); split; [apply moved_eq|done]|].
      exists u. split; [|done]. rewrite <- H2. apply moved_ne. unfold update. congruence.
    + intros o' p ni l Ho. destruct (Hi o' p ni l Ho). split; [by apply Hin|done].
    + intros o' gp p l pu Ho. destruct (Hdl o' gp p l pu Ho). split; by apply Hin.
  - intros b o' n' _ H. destruct (decide (b = a)) as [->|Hne]; [exists o, (bits g); apply moved_eq|].
    exists o', n'. rewrite <- H. apply moved_ne. unfold update. congruence.
Qed.

(** The new nodes of this program. *)
Definition fresh_ok m (d : node K V) (ps : list link) : Prop :=
  match d with
  | TNode x w => (ps = leaf_links /\ good_value x w) \/ exists l r, ps = [(None, 0); (Some l, 0); (Some r, 0)] /\ tnode m l /\ tnode m r
  | Insert p ni _ => inner m p /\ tnode m ni
  | Delete gp p _ _ => inner m gp /\ inner m p
  end.
Lemma alloc_rely h d ps m : sound m -> fresh_ok m d ps -> exists a m', run (c_new_final h d ps) m = Ok (a, m') /\ rely m m' /\
  sound m' /\ m_data m' !! a = Some d.
Proof.
  intros Hs Hf. destruct (run_alloc h d ps m (so_ok _ Hs)) as (a & m' & E & [Hok Hd Hl] & F & Z0 & Da & La & _).
  exists a, m'. split; [done|]. assert (Edata : m_data m' = <[a := d]> (m_data m)) by (by injection E as <- <-).
  assert (Hk : forall b i, is_Some (m_data m !! b) -> m_links m' !! (b, i) = m_links m !! (b, i)) by (intros b i H; apply Hl; by right).
  assert (Htn : forall b, tnode m b -> tnode m' b) by (intros b (x & w & H); exists x, w; auto).
  assert (Hti : forall b, tnode m b -> is_Some (m_data m !! b)) by (intros b (x & w & H); by eexists).
  assert (Hin : forall b, inner m b -> inner m' b).
  { intros b [Hb Hbl]. split; [auto|]. intros e. destruct (Hbl e) as (c & n & H1 & H2). exists c, n. unfold child_of. rewrite Hk by auto. auto. }
  assert (Hlf : forall b, leafy m b -> leafy m' b).
  { intros b (x & w & Hdb & Hg & Hbl). exists x, w. split; [auto|]. split; [done|]. intros e. destruct (Hbl e) as [n H]. exists n. unfold child_of. by rewrite Hk by (by eexists). }
  assert (Hst : stays m m').
  { split; [done|done|done|]. intros b o n Hb H. exists o, n. unfold update. by rewrite Hk by auto. }
  assert (Hs' : sound m'); [|by split].
  destruct Hs as [_ (r & nr & Hr & Hri) Hn Hi Hdl]. split.
  - done.
  - exists r, nr. split; [|auto]. rewrite <- Hr. apply Hl. by left.
  - intros b (x & w & Hb). rewrite Edata in Hb. destruct (decide (b = a)) as [->|Hne].
    + rewrite lookup_insert_eq in Hb. injection Hb as ->. cbn in Hf. split.
      * destruct Hf as [[-> Hg]|(l & r' & -> & Hl1 & Hr1)]; [right|left].
        -- exists x, w. split; [done|]. split; [done|]. intros []; exists 0; by apply La.
        -- split; [by exists x, w|]. intros []; [exists l, 0|exists r', 0]; (split; [by apply La|auto]).
      * exists (None, 0). split; [|done]. apply La. destruct Hf as [[-> _]|(l & r' & -> & _)]; done.
    + rewrite lookup_insert_ne in Hb by done. assert (Hb' : tnode m b) by (by exists x, w). destruct (Hn b Hb') as [H1 (u & H2 & H3)].
      split; [destruct H1; [left; auto|right; auto]|]. exists u. unfold update. rewrite Hk by auto. split; [done|by eapply stays_describes].
  - intros o p ni l Ho. rewrite Edata in Ho. destruct (decide (o = a)) as [->|Hne].
    + rewrite lookup_insert_eq in Ho. injection Ho as ->. destruct Hf. auto.
    + rewrite lookup_insert_ne in Ho by done. destruct (Hi o p ni l Ho). auto.
  - intros o gp p l pu Ho. rewrite Edata in Ho. destruct (decide (o = a)) as [->|Hne].
    + rewrite lookup_insert_eq in Ho. injection Ho as ->. destruct Hf. auto.
    + rewrite lookup_insert_ne in Ho by done. destruct (Hdl o gp p l pu Ho). auto.
Qed.

(** ** Verification of a thread *)
Lemma stays_refl m : stays m m.
Proof. split; naive_solver. Qed.
Lemma stays_trans m1 m2 m3 : stays m1 m2 -> stays m2 m3 -> stays m1 m3.
Proof.
  intros [A1 B1 C1 D1] [A2 B2 C2 D2]. split; auto. intros a o n Ha H. destruct (D1 a o n Ha H) as (o' & n' & H').
  apply (D2 a o' n'); [|done]. destruct Ha as (x & w & Hd). exists x, w. auto.
Qed.
Lemma tnode_null m a : sound m -> tnode m a -> a <> 0.
Proof. intros Hs (x & w & H) ->. by rewrite (mo_null _ (so_ok _ Hs)) in H. Qed.
Lemma wp_step {A B} (f : mem (node K V) -> res (B * mem (node K V))) (k : B -> M A) tr Q m : sound m ->
  (forall m', sound m' -> stays m m' -> exists b m'', run (atomic f) m' = Ok (b, m'') /\ rely m' m'' /\
    (sound m'' -> stays m m'' -> wp (k b) tr Q m'')) -> wp (bind (atomic f) k) tr Q m.
Proof.
  intros Hs H. apply wp_atomic. intros m' Hr. destruct (Hr Hs) as [Hs' Hst]. destruct (H m' Hs' Hst) as (b & m'' & E & Hg & Hw).
  exists b, m'', None. split; [done|]. split; [done|]. rewrite app_nil_r. destruct (Hg Hs') as [Hs'' Hst'']. apply Hw; [done|by eapply stays_trans].
Qed.
(** A step that only reads. *)
Lemma wp_quiet {A B} (f : mem (node K V) -> res (B * mem (node K V))) (k : B -> M A) tr Q m : sound m ->
  (forall m', sound m' -> stays m m' -> exists b, run (atomic f) m' = Ok (b, m') /\ wp (k b) tr Q m') -> wp (bind (atomic f) k) tr Q m.
Proof.
  intros Hs H. apply wp_step; [done|]. intros m' Hs' Hst. destruct (H m' Hs' Hst) as (b & E & Hw).
  exists b, m'. split; [done|]. split; [reflexivity|done].
Qed.
Section rules.
Context {A : Type} (tr : list unit) (Q : A -> list unit -> mem (node K V) -> Prop) (m : mem (node K V)) (Hs : sound m).
Lemma wp_deref_efrb a d (k : node K V -> M A) : m_data m !! a = Some d ->
  (forall m', sound m' -> stays m m' -> wp (k d) tr Q m') -> wp (bind (c_deref a) k) tr Q m.
Proof.
  intros Hd H. apply wp_quiet; [done|]. intros m' Hs' Hst. exists d. cbn. rewrite (st_data _ _ Hst _ _ Hd). auto.
Qed.
Lemma wp_load_child a d (k : option Z -> M A) : inner m a ->
  (forall m' c, sound m' -> stays m m' -> tnode m' c -> wp (k (Some c)) tr Q m') -> wp (bind (c_load (child_of a d)) k) tr Q m.
Proof.
  intros Ha H. unfold c_load. apply wp_bind; [apply _|]. apply wp_quiet; [done|]. intros m' Hs' Hst.
  destruct (st_inner _ _ Hst _ Ha) as [_ Hl]. destruct (Hl d) as (c & n & E & Hc). exists (Some c, n). split; [cbn; by rewrite E|].
  cbn. intros m2 Hr. destruct (Hr Hs') as [Hs2 Hst2]. apply H; [done|by eapply stays_trans|by eapply stays_tnode].
Qed.
Lemma wp_is_leaf a (k : bool -> M A) : tnode m a ->
  (forall m' (b : bool), sound m' -> stays m m' -> (if b then leafy m' a else inner m' a) -> wp (k b) tr Q m') -> wp (bind (is_leaf a) k) tr Q m.
Proof.
  intros Ha H. unfold is_leaf, c_load. do 2 (apply wp_bind; [apply _|]). apply wp_quiet; [done|]. intros m' Hs' Hst.
  destruct (so_node _ Hs' a (stays_tnode _ _ _ Hst Ha)) as [[Hi|Hl] _].
  - pose proof Hi as [_ Hl]. destruct (Hl L) as (c & n & E & _). exists (Some c, n). split; [cbn; by rewrite E|].
    cbn. intros m2 H2 m3 H3. destruct (H2 Hs') as [Hs2 Hst2]. destruct (H3 Hs2) as [Hs3 Hst3]. pose proof (stays_trans _ _ _ Hst2 Hst3) as Hst23.
    apply (H m3 false); [done|by eapply stays_trans|by apply (st_inner _ _ Hst23)].
  - pose proof Hl as (x & w & _ & _ & Hl'). destruct (Hl' L) as (n & E). exists (None, n). split; [cbn; by rewrite E|].
    cbn. intros m2 H2 m3 H3. destruct (H2 Hs') as [Hs2 Hst2]. destruct (H3 Hs2) as [Hs3 Hst3]. pose proof (stays_trans _ _ _ Hst2 Hst3) as Hst23.
    apply (H m3 true); [done|by eapply stays_trans|by apply (st_leafy _ _ Hst23)].
Qed.
(** A value [u] read from the update link of [a]. *)
Definition read_update m0 a (u : link) : Prop := describes m0 u /\ tnode m0 a /\
  (u.1 = None \/ exists o n, m_links m0 !! update a = Some (Some o, n)).
Lemma stays_read_update m1 m2 a u : stays m1 m2 -> read_update m1 a u -> read_update m2 a u.
Proof.
  intros Hst (H1 & H2 & H3). split; [by eapply stays_describes|]. split; [by eapply stays_tnode|].
  destruct H3 as [H3|(o & n & H3)]; [by left|right]. by eapply st_update.
Qed.
Lemma wp_load_update a (k : link -> M A) : tnode m a ->
  (forall m' u, sound m' -> stays m m' -> read_update m' a u -> wp (k u) tr Q m') -> wp (bind (c_load_with_tag (update a)) k) tr Q m.
Proof.
  intros Ha H. apply wp_quiet; [done|]. intros m' Hs' Hst. pose proof (stays_tnode _ _ _ Hst Ha) as Ha'.
  destruct (so_node _ Hs' a Ha') as [_ (u & E & Hd)]. exists u. split; [cbn; by rewrite E|]. apply H; [done|done|].
  split; [done|]. split; [done|]. destruct u as [[o|] n]; [right; by exists o, n|by left].
Qed.
Lemma wp_alloc h d ps (k : Z -> M A) : fresh_ok m d ps -> (forall m', stays m m' -> fresh_ok m d ps -> fresh_ok m' d ps) ->
  (forall m' a, sound m' -> stays m m' -> m_data m' !! a = Some d -> wp (k a) tr Q m') -> wp (bind (c_new_final h d ps) k) tr Q m.
Proof.
  intros Hf Hmono H. apply wp_step; [done|]. intros m' Hs' Hst. destruct (alloc_rely h d ps m' Hs' (Hmono m' Hst Hf)) as (a & m2 & E & Hr & Hs2 & Hd).
  exists a, m2. split; [exact E|]. split; [done|]. intros _ Hst2. by apply H.
Qed.
Lemma wp_cas_update a cur o g (k : link + link -> M A) : tnode m a -> describes m (Some o, bits g) ->
  (forall m', sound m' -> stays m m' -> wp (k (inl cur)) tr Q m') ->
  (forall m' e, sound m' -> stays m m' -> describes m' e -> e <> cur -> (e.1 = None -> m_links m' !! update a = Some e) -> wp (k (inr e)) tr Q m') ->
  wp (bind (c_cas_with_tag (update a) cur (Some o, bits g)) k) tr Q m.
Proof.
  intros Ha Hd H1 H2. apply wp_step; [done|]. intros m' Hs' Hst. pose proof (stays_tnode _ _ _ Hst Ha) as Ha'.
  destruct (so_node _ Hs' a Ha') as [_ (u & E & Hu)]. cbn. rewrite E. destruct (decide (u = cur)) as [->|Hne].
  - eexists _, _. split; [reflexivity|]. split; [|auto]. apply set_update_rely; [by eapply tnode_null|by eapply stays_describes].
  - eexists _, _. split; [reflexivity|]. split; [reflexivity|]. intros _ _. by apply H2.
Qed.
Lemma wp_unflag a op g (k : unit -> M A) : tnode m a ->
  (forall m', sound m' -> stays m m' -> wp (k tt) tr Q m') -> wp (bind (unflag a op g) k) tr Q m.
Proof.
  intros Ha H. unfold unflag. apply wp_bind; [apply _|].
  assert (Hend : forall m' r, sound m' -> stays m m' -> wp ((fun _ : link + link => Ret tt) r) tr (fun y tr' s' => wp (k y) tr' Q s') m').
  { intros m' r Hs' Hst m2 Hr. destruct (Hr Hs') as [Hs2 Hst2]. apply H; [done|by eapply stays_trans]. }
  apply wp_step; [done|]. intros m' Hs' Hst. destruct (so_node _ Hs' a (stays_tnode _ _ _ Hst Ha)) as [_ (u & E & Hu)].
  cbn [c_cas_with_tag atomic run]. rewrite E. destruct (decide (u = (Some op, bits g))) as [->|Hne].
  - eexists _, _. split; [reflexivity|]. split.
    + apply (set_update_rely m' a op CLEAN); [by eapply tnode_null; [|eapply stays_tnode]|by left].
    + intros H1 H2. exact (Hend _ (inl (Some op, bits g)) H1 H2).
  - eexists _, _. split; [reflexivity|]. split; [reflexivity|]. intros H1 H2. exact (Hend _ (inr u) H1 H2).
Qed.
Lemma wp_cas_link p d old new (k : link + link -> M A) : inner m p -> tnode m new ->
  (forall m' r, sound m' -> stays m m' -> wp (k r) tr Q m') -> wp (bind (c_cas (child_of p d) (Some old) (Some new)) k) tr Q m.
Proof.
  intros Hp Hn H. apply wp_step; [done|]. intros m' Hs' Hst. pose proof (st_inner _ _ Hst _ Hp) as Hp'.
  pose proof Hp' as [_ Hl]. destruct (Hl d) as (c & n & E & Hc). cbn. rewrite E. destruct (decide ((Some c, n) = (Some old, 0))) as [_|Hne].
  - eexists _, _. split; [reflexivity|]. split; [apply set_child_rely; [done|by eapply stays_tnode]|auto].
  - eexists _, _. split; [reflexivity|]. split; [reflexivity|auto].
Qed.
End rules.

(** ** Calls *)
Definition call_post {B} m (Post : B -> mem (node K V) -> Prop) (tr : list unit) : B -> list unit -> mem (node K V) -> Prop :=
  fun y tr' m' => tr' = tr /\ sound m' /\ stays m m' /\ Post y m'.
Definition triple {B} m (c : M B) (Post : B -> mem (node K V) -> Prop) : Prop := forall tr, wp c tr (call_post m Post tr) m.
Definition stable {B} (Post : B -> mem (node K V) -> Prop) : Prop := forall m m' y, sound m' -> stays m m' -> Post y m -> Post y m'.
Lemma wp_call {A B} m (c : M B) (Post : B -> mem (node K V) -> Prop) (k : B -> M A) tr Q : triple m c Post ->
  (forall m' y, sound m' -> stays m m' -> Post y m' -> wp (k y) tr Q m') -> wp (bind c k) tr Q m.
Proof. intros Hc H. apply wp_bind; [apply _|]. eapply wp_mono; [|apply Hc]. intros y tr' m' (-> & Hs' & Hst & Hy). by apply H. Qed.
Lemma wp_tail {B} m m' (c : M B) (Post : B -> mem (node K V) -> Prop) tr : triple m' c Post -> stays m m' -> wp c tr (call_post m Post tr) m'.
Proof.
  intros Hc Hst. eapply wp_mono; [|apply Hc]. intros y tr' m2 (-> & Hs2 & Hst2 & Hy). split; [done|]. split; [done|]. split; [by eapply stays_trans|done].
Qed.
Lemma wp_done {B} m m' (y : B) (Post : B -> mem (node K V) -> Prop) tr : stable Post -> sound m' -> stays m m' -> Post y m' ->
  wp (Ret y) tr (call_post m Post tr) m'.
Proof.
  intros HP Hs Hst Hy m2 Hr. destruct (Hr Hs) as [Hs2 Hst2]. split; [done|]. split; [done|]. split; [by eapply stays_trans|by eapply HP].
Qed.
Lemma stays_data m m' a d : stays m m' -> m_data m !! a = Some d -> m_data m' !! a = Some d.
Proof. intros Hst. apply (st_data _ _ Hst). Qed.
Definition any {B} (y : B) m : Prop := True.
Lemma stable_any {B} : stable (@any B).
Proof. done. Qed.
Lemma stable_pure {B} (Post : B -> Prop) : stable (fun y _ => Post y).
Proof. intros m m' y _ _ H. exact H. Qed.
Lemma wp_node_of {A} tr Q m a x w (k : Key K * option V -> M A) : sound m -> m_data m !! a = Some (TNode x w) ->
  (forall m', sound m' -> stays m m' -> wp (k (x, w)) tr Q m') -> wp (bind (node_of a) k) tr Q m.
Proof.
  intros Hs Hd H. unfold node_of. apply wp_bind; [apply _|]. eapply wp_deref_efrb; [done|exact Hd|]. intros m' Hs' Hst m2 Hr.
  destruct (Hr Hs') as [Hs2 Hst2]. apply H; [done|by eapply stays_trans].
Qed.
Lemma unflag_triple m a op g : sound m -> tnode m a -> triple m (unflag a op g) any.
Proof.
  intros Hs Ha tr. replace (unflag a op g) with (bind (unflag (K := K) (V := V) a op g) Ret) by done.
  apply wp_unflag; [done|done|]. intros m' Hs' Hst. by apply wp_done.
Qed.

(** ** Helping *)
Lemma cas_child_triple m p old new : sound m -> inner m p -> tnode m new -> triple m (cas_child p old new) any.
Proof.
  intros Hs Hp (y & wy & Hn) tr. unfold cas_child. eapply wp_node_of; [done|exact Hn|]. intros m1 Hs1 Hst1.
  destruct (proj1 (st_inner _ _ Hst1 _ Hp)) as (x & wx & Hx). eapply wp_node_of; [done|exact Hx|]. intros m2 Hs2 Hst2. cbn [fst].
  pose proof (stays_trans _ _ _ Hst1 Hst2) as Hst. pose proof (st_inner _ _ Hst _ Hp) as Hp2.
  assert (Hn2 : tnode m2 new) by (exists y, wy; by eapply stays_data). assert (Hend : forall m' (r : link + link), sound m' -> stays m2 m' -> wp (Ret tt) tr (call_post m any tr) m').
  { intros m' r Hs' Hst'. apply wp_done; [done|done|by eapply stays_trans|done]. }
  destruct (partial_cmp y x); apply wp_cas_link; auto.
Qed.
Lemma help_insert_triple m op p ni l : sound m -> m_data m !! op = Some (Insert p ni l) -> triple m (help_insert op) any.
Proof.
  intros Hs Ho tr. unfold help_insert. eapply wp_deref_efrb; [done|exact Ho|]. intros m1 Hs1 Hst1.
  destruct (so_insert _ Hs1 _ _ _ _ (stays_data _ _ _ _ Hst1 Ho)) as [Hp Hn].
  eapply wp_call; [by apply cas_child_triple|]. intros m2 [] Hs2 Hst2 _. pose proof (stays_trans _ _ _ Hst1 Hst2) as Hst.
  eapply wp_tail; [|exact Hst]. apply unflag_triple; [done|]. apply (st_inner _ _ Hst2 _ Hp).
Qed.
Lemma help_marked_triple m op gp p l pu : sound m -> m_data m !! op = Some (Delete gp p l pu) -> triple m (help_marked op) any.
Proof.
  intros Hs Ho tr. unfold help_marked. eapply wp_deref_efrb; [done|exact Ho|]. intros m1 Hs1 Hst1.
  destruct (so_delete _ Hs1 _ _ _ _ _ (stays_data _ _ _ _ Hst1 Ho)) as [Hg Hp].
  apply wp_load_child; [done|done|]. intros m2 c Hs2 Hst2 Hc. pose proof (st_inner _ _ Hst2 _ Hp) as Hp2. pose proof (st_inner _ _ Hst2 _ Hg) as Hg2.
  assert (Hrest : forall d, wp (o <- c_load (child_of p d) ; other_sh <- unwrap o "called `Option::unwrap()` on a `None` value" ;
    cas_child gp p other_sh ;; unflag gp op DFLAG) tr (call_post m any tr) m2).
  { intros d. apply wp_load_child; [done|done|]. intros m3 o Hs3 Hst3 Hc3. cbn [unwrap bind]. pose proof (st_inner _ _ Hst3 _ Hg2) as Hg3.
    eapply wp_call; [by apply cas_child_triple|]. intros m4 [] Hs4 Hst4 _. eapply wp_tail.
    - apply unflag_triple; [done|]. apply (st_inner _ _ Hst4 _ Hg3).
    - eapply stays_trans; [exact Hst1|]. eapply stays_trans; [exact Hst2|]. by eapply stays_trans. }
  case_decide; apply Hrest.
Qed.
Lemma help_with_triple m hd o n : sound m -> describes m (Some o, n) ->
  (forall gp p l pu, m_data m !! o = Some (Delete gp p l pu) -> triple m (hd o) (@any bool)) -> triple m (help_with hd o n) any.
Proof.
  intros Hs Hd Hh. unfold help_with. cbn in Hd. destruct Hd as [->|[[-> (p & ni & l & Ho)]|[[-> | ->] (gp & p & l & pu & Ho)]]].
  - intros tr. apply wp_done; [done|done|apply stays_refl|done].
  - by eapply help_insert_triple.
  - intros tr. cbn. eapply wp_call; [by eapply Hh|]. intros m' y Hs' Hst _. by apply wp_done.
  - by eapply help_marked_triple.
Qed.
Lemma help_delete_triple f m op gp p l pu : sound m -> m_data m !! op = Some (Delete gp p l pu) -> triple m (help_delete f op) (@any bool).
Proof.
  revert m op gp p l pu. induction f as [|f IH]; intros m op gp p l pu Hs Ho tr; [done|]. cbn [help_delete].
  eapply wp_deref_efrb; [done|exact Ho|]. intros m1 Hs1 Hst1. pose proof (stays_data _ _ _ _ Hst1 Ho) as Ho1.
  destruct (so_delete _ Hs1 _ _ _ _ _ Ho1) as [Hg Hp].
  assert (Hmark : forall m2, sound m2 -> stays m1 m2 -> wp (help_marked op ;; Ret true) tr (call_post m any tr) m2).
  { intros m2 Hs2 Hst2. eapply wp_call; [eapply help_marked_triple; [done|by eapply stays_data]|]. intros m3 [] Hs3 Hst3 _.
    apply wp_done; [done|done| |done]. eapply stays_trans; [exact Hst1|]. by eapply stays_trans. }
  apply wp_cas_update; [done|by destruct Hp| |by apply Hmark|].
  - right. right. split; [by right|]. by exists gp, p, l, pu.
  - intros m2 [e n] Hs2 Hst2 Hd Hne _. case_decide; [by apply Hmark|]. pose proof (stays_trans _ _ _ Hst1 Hst2) as Hst.
    destruct e as [e|]; [|by apply wp_done].
    eapply wp_call; [apply help_with_triple; [done|done|]|].
    + intros gp' p' l' pu' He. by eapply IH.
    + intros m3 [] Hs3 Hst3 _. apply wp_unflag; [done|apply (st_inner _ _ Hst3), (st_inner _ _ Hst2 _ Hg)|].
      intros m4 Hs4 Hst4. apply wp_done; [done|done| |done]. eapply stays_trans; [exact Hst|]. by eapply stays_trans.
Qed.
Lemma help_triple f m o n : sound m -> describes m (Some o, n) -> triple m (help f o n) any.
Proof. intros Hs Hd. apply help_with_triple; [done|done|]. intros gp p l pu Ho. by eapply help_delete_triple. Qed.

(** ** Searching *)
Definition cursor_ok m (c : Cursor) : Prop := tnode m (c_l c) /\
  match c_p c with
  | None => c_gp c = None /\ inner m (c_l c)
  | Some p => inner m p /\ read_update m p (c_pupdate c) /\
      match c_gp c with None => True | Some gp => inner m gp /\ read_update m gp (c_gpupdate c) end
  end.
Lemma stays_cursor m m' c : stays m m' -> cursor_ok m c -> cursor_ok m' c.
Proof.
  intros Hst [Hl Hp]. split; [by eapply stays_tnode|]. pose proof (st_inner _ _ Hst) as Hin.
  destruct (c_p c) as [p|]; [|naive_solver]. destruct Hp as (H1 & H2 & H3). split; [auto|]. split; [by eapply stays_read_update|].
  destruct (c_gp c) as [gp|]; [|done]. destruct H3. split; [auto|by eapply stays_read_update].
Qed.
Definition searched (c : Cursor) m : Prop := cursor_ok m c /\ leafy m (c_l c) /\ c_p c <> None.
Lemma stable_searched : stable searched.
Proof. intros m m' c Hs Hst (H1 & H2 & H3). split; [by eapply stays_cursor|]. split; [by apply (st_leafy _ _ Hst)|done]. Qed.
Lemma leafy_inner m a : leafy m a -> inner m a -> False.
Proof. intros (x & w & _ & _ & H1) [_ H2]. destruct (H1 L) as [n E]. destruct (H2 L) as (c & n' & E' & _). congruence. Qed.
Definition searching (r : Cursor + Cursor) m : Prop := match r with inl c => cursor_ok m c | inr c => searched c m end.
Lemma search_step_triple m k c : sound m -> cursor_ok m c -> triple m (search_step k c) searching.
Proof.
  intros Hs Hc tr. unfold search_step. assert (Hstb : stable searching) by
    (intros m1 m2 [c'|c'] Hs2 Hst; [by apply stays_cursor|by apply stable_searched]).
  apply wp_is_leaf; [done|by destruct Hc|]. intros m1 b Hs1 Hst1 Hb. pose proof (stays_cursor _ _ _ Hst1 Hc) as Hc1. destruct b.
  - apply wp_done; [done|done|done|]. split; [done|]. split; [done|]. intros E. destruct Hc1 as [_ Hc1]. rewrite E in Hc1.
    destruct Hc1 as [_ Hi]. by eapply leafy_inner.
  - apply wp_load_update; [done|by destruct Hb|]. intros m2 u Hs2 Hst2 Hu. pose proof (st_inner _ _ Hst2 _ Hb) as Hb2.
    destruct (proj1 Hb2) as (x & w & Hd). eapply wp_node_of; [done|exact Hd|]. intros m3 Hs3 Hst3. cbn [fst].
    pose proof (st_inner _ _ Hst3 _ Hb2) as Hb3. apply wp_bind; [apply _|].
    assert (Hload : forall d, wp (load_node (c_l c) d) tr (fun l tr' m' => wp (Ret (inl (mkCursor (c_p c) (Some (c_l c)) l u (c_pupdate c)))) tr' (call_post m searching tr) m') m3).
    { intros d. unfold load_node. apply wp_load_child; [done|done|]. intros m4 l Hs4 Hst4 Hl. cbn [unwrap]. intros m5 Hr5. destruct (Hr5 Hs4) as [Hs5 Hst5].
      pose proof (stays_trans _ _ _ Hst4 Hst5) as H35. pose proof (stays_trans _ _ _ Hst3 H35) as H25. pose proof (stays_trans _ _ _ Hst2 H25) as H15.
      apply wp_done; [done|done|exact (stays_trans _ _ _ Hst1 H15)|]. split; [exact (stays_tnode _ _ _ Hst5 Hl)|]. cbn. split; [by apply (st_inner _ _ H35)|].
      split; [exact (stays_read_update _ _ _ _ H25 Hu)|]. destruct Hc1 as [_ Hc1]. destruct (c_p c) as [p|]; [|done].
      destruct Hc1 as (Hp & Hup & _). split; [by apply (st_inner _ _ H15)|exact (stays_read_update _ _ _ _ H15 Hup)]. }
    destruct (kcmp fin x k); apply Hload.
Qed.
Lemma search_triple f m k c : sound m -> cursor_ok m c -> triple m (search f k c) searched.
Proof.
  unfold search. revert m c. induction f as [|f IH]; intros m c Hs Hc tr; [done|]. cbn [loop].
  eapply wp_call; [by apply search_step_triple|]. intros m' [c'|c'] Hs' Hst Hc'.
  - exact (wp_tail m m' _ _ tr (IH m' c' Hs' Hc') Hst).
  - apply wp_done; [exact stable_searched|done|done|done].
Qed.
Lemma start_search_triple {A} f m k (p : Cursor -> M A) tr Q : sound m ->
  (forall m' c, sound m' -> stays m m' -> searched c m' -> wp (p c) tr Q m') -> wp (c <- start ; c <- search f k c ; p c) tr Q m.
Proof.
  intros Hs H. assert (Ht : triple m start (fun c m => cursor_ok m c)).
  { intros tr'. unfold start, c_load. do 2 (apply wp_bind; [apply _|]). apply wp_quiet; [done|]. intros m' Hs' Hst.
    destruct (so_root _ Hs') as (r & n & E & Hi). exists (Some r, n). split; [cbn; by rewrite E|]. cbn.
    intros m2 H2 m3 H3. destruct (H2 Hs') as [Hs2 Hst2]. destruct (H3 Hs2) as [Hs3 Hst3].
    pose proof (stays_trans _ _ _ Hst2 Hst3) as Hst23. intros m4 H4. destruct (H4 Hs3) as [Hs4 Hst4]. pose proof (stays_trans _ _ _ Hst23 Hst4) as H24.
    split; [done|]. split; [done|]. split; [by eapply stays_trans|]. pose proof (st_inner _ _ H24 _ Hi) as Hi'.
    split; [by destruct Hi'|by split]. }
  eapply wp_call; [exact Ht|]. intros m1 c Hs1 Hst1 Hc. eapply wp_call; [by apply search_triple|].
  intros m2 c' Hs2 Hst2 Hc'. apply H; [done|by eapply stays_trans|done].
Qed.
Lemma help_opt_triple f m u : sound m -> describes m u -> u.1 <> None -> triple m (help_opt f u) any.
Proof. intros Hs Hd Hn. unfold help_opt. destruct u as [[o|] n]; [|done]. by apply help_triple. Qed.
(** An announced update, and a compare-exchange that has failed because of one. *)
Lemma announced m a u : read_update m a u -> u.2 <> bits CLEAN -> u.1 <> None.
Proof. intros (Hd & _) Hn E. unfold describes in Hd. by rewrite E in Hd. Qed.
Lemma failed_announced m a cur e : read_update m a cur -> cur.2 = bits CLEAN -> describes m e -> e <> cur ->
  (e.1 = None -> m_links m !! update a = Some e) -> e.1 <> None.
Proof.
  intros (Hd & Ha & Hseen) Hc He Hne Hl E. specialize (Hl E). destruct Hseen as [Hn|(o & n & Hn)].
  - apply Hne. unfold describes in He. rewrite E in He. destruct e, cur; cbn in *; congruence.
  - rewrite Hn in Hl. injection Hl as <-. done.
Qed.

(** ** The operations *)
Definition found_leaf k (r : option Z) m : Prop := forall a, r = Some a -> exists v, m_data m !! a = Some (TNode (Fin k) (Some v)) /\ P k v.
Lemma stable_found k : stable (found_leaf k).
Proof. intros m m' r _ Hst H a E. destruct (H a E) as (v & Hd & Hv). exists v. split; [by apply (st_data _ _ Hst)|done]. Qed.
Lemma leafy_found m a k x w : leafy m a -> m_data m !! a = Some (TNode x w) -> fin x = Some k -> found_leaf k (Some a) m.
Proof.
  intros (x' & w' & Hd & Hg & _) Hd' Hx b [= <-]. assert (E : TNode x' w' = TNode x w) by congruence. injection E as -> ->.
  destruct (Hg k Hx) as (v & -> & Hv). exists v. split; [|done]. destruct x; cbn in Hx; [|done|done]. by injection Hx as ->.
Qed.
Lemma find_triple f m k h : sound m -> triple m (find f k h) (found_leaf k).
Proof.
  intros Hs tr. unfold find. apply start_search_triple; [done|]. intros m1 c Hs1 Hst1 (_ & Hl & _). pose proof Hl as (x & w & Hd & _).
  eapply wp_node_of; [done|exact Hd|]. intros m2 Hs2 Hst2. cbn [fst]. apply wp_done; [apply stable_found|done|by eapply stays_trans|].
  case_decide as E; [|done]. eapply leafy_found; [by apply (st_leafy _ _ Hst2)|by eapply stays_data|done].
Qed.
Lemma new_node_wp {A} tr Q m h n (k : Z -> M A) : sound m ->
  (forall m', stays m m' -> fresh_ok m' (TNode n.1.1 n.1.2) n.2) ->
  (forall m' a, sound m' -> stays m m' -> tnode m' a -> wp (k a) tr Q m') -> wp (bind (new_node h n) k) tr Q m.
Proof.
  intros Hs Hf H. unfold new_node. apply wp_alloc; [done|apply Hf, stays_refl|auto|].
  intros m' a Hs' Hst Hd. apply H; [done|done|]. by eexists _, _.
Qed.
Lemma build_insert_triple m h k v p l x w : sound m -> inner m p -> good_value x w -> P k v ->
  triple m (build_insert h k v p l (x, w)) (fun op m' => exists ni, m_data m' !! op = Some (Insert p ni l)).
Proof.
  intros Hs Hp Hg Hv tr. unfold build_insert. cbn [fst snd leaf].
  assert (Hnew : good_value (Fin k) (Some v)) by (intros k' [= <-]; by exists v).
  assert (Hrest : forall lt rt, (lt = leaf (Fin k) (Some v) /\ rt = leaf x w) \/ (rt = leaf (Fin k) (Some v) /\ lt = leaf x w) ->
    wp (n <- internal h rt.1.1 None lt rt ; ni <- new_node h n ; c_new_final h (Insert p ni l) []) tr
      (call_post m (fun op m' => exists ni, m_data m' !! op = Some (Insert p ni l)) tr) m).
  { intros lt rt Hlr.
    assert (Hlf : forall n, n = lt \/ n = rt -> forall m', fresh_ok m' (TNode n.1.1 n.1.2) n.2).
    { intros n Hn m'. left. destruct Hlr as [[-> ->]|[-> ->]], Hn as [->| ->]; done. }
    unfold internal. apply wp_bind; [apply _|]. apply new_node_wp; [done|auto|]. intros m1 a1 Hs1 Hst1 H1.
    apply new_node_wp; [done|auto|]. intros m2 a2 Hs2 Hst2 H2. intros m2' Hr2. destruct (Hr2 Hs2) as [Hs2' Hst2'].
    pose proof (stays_trans _ _ _ Hst2 Hst2') as H12. pose proof (stays_tnode _ _ _ H12 H1) as H1'. pose proof (stays_tnode _ _ _ Hst2' H2) as H2'.
    apply new_node_wp; [done| |].
    - intros m' Hst'. right. exists a1, a2. split; [done|]. split; by eapply stays_tnode.
    - intros m3 ni Hs3 Hst3 Hn. pose proof (stays_trans _ _ _ Hst1 (stays_trans _ _ _ H12 Hst3)) as H03.
      assert (Hf : forall m', stays m3 m' -> fresh_ok m' (Insert p ni l) []).
      { intros m' Hst'. split; [apply (st_inner _ _ Hst'), (st_inner _ _ H03 _ Hp)|by eapply stays_tnode]. }
      replace (c_new_final h (Insert p ni l) []) with (bind (c_new_final h (Insert (K := K) (V := V) p ni l) []) Ret) by done.
      apply wp_alloc; [done|apply Hf, stays_refl|auto|]. intros m4 op Hs4 Hst4 Hd.
      apply wp_done; [|done|by eapply stays_trans|by exists ni]. intros m5 m6 y _ Hst' (ni' & Hd'). exists ni'. by eapply stays_data. }
  destruct (partial_cmp (Fin k) x); apply Hrest; auto.
Qed.
(** A loop without a state. *)
Definition round_post {B} (Post : B -> mem (node K V) -> Prop) (r : unit + B) m : Prop := match r with inl _ => True | inr y => Post y m end.
Lemma stable_round {B} (Post : B -> mem (node K V) -> Prop) : stable Post -> stable (round_post Post).
Proof. intros HP m m' [[]|y] Hs Hst Hy; [done|by eapply HP]. Qed.
Lemma loop_triple {B} g m (body : M (unit + B)) (Post : B -> mem (node K V) -> Prop) : stable Post -> sound m ->
  (forall m', sound m' -> triple m' body (round_post Post)) -> triple m (loop g (fun _ : unit => body) tt) Post.
Proof.
  intros HP Hs Hb. revert m Hs. induction g as [|g IH]; intros m Hs tr; [done|]. cbn [loop].
  eapply wp_call; [by apply Hb|]. intros m' [[]|y] Hs' Hst Hy.
  - exact (wp_tail m m' _ _ tr (IH m' Hs') Hst).
  - by apply wp_done.
Qed.
Lemma again_wp {B} m m' f u (Post : B -> mem (node K V) -> Prop) tr : sound m' -> stays m m' -> describes m' u -> u.1 <> None ->
  wp (help_opt f u ;; Ret (inl tt)) tr (call_post m (round_post Post) tr) m'.
Proof.
  intros Hs Hst Hd Hn. eapply wp_call; [by apply help_opt_triple|]. intros m2 [] Hs2 Hst2 _. intros m3 Hr. destruct (Hr Hs2) as [Hs3 Hst3].
  split; [done|]. split; [done|]. split; [|done]. exact (stays_trans _ _ _ Hst (stays_trans _ _ _ Hst2 Hst3)).
Qed.
Lemma insert_triple f m k v h : sound m -> P k v -> triple m (efrb_insert f k v h) any.
Proof.
  intros Hs Hv. apply loop_triple; [done|done|]. clear m Hs. intros m Hs tr. unfold insert_round.
  pose proof (stable_round _ (@stable_any bool)) as Hstb.
  apply start_search_triple; [done|]. intros m1 c Hs1 Hst1 (Hc & Hl & Hp).
  destruct Hc as [_ Hc]. destruct (c_p c) as [p|] eqn:Ep; [|done]. destruct Hc as (Hpi & Hpu & _).
  pose proof Hl as (x & w & Hd & Hg & _). cbn [unwrap bind]. eapply wp_node_of; [done|exact Hd|]. intros m2 Hs2 Hst2. cbn [fst snd].
  pose proof (stays_trans _ _ _ Hst1 Hst2) as H02. pose proof (st_inner _ _ Hst2 _ Hpi) as Hpi2. pose proof (stays_read_update _ _ _ _ Hst2 Hpu) as Hpu2.
  case_decide; [by apply wp_done|]. destruct (Z.eqb_spec (c_pupdate c).2 (bits CLEAN)) as [Ecl|Ecl]; cbn [negb].
  2: { apply again_wp; [done|done|by destruct Hpu2|by eapply announced]. }
  eapply wp_call; [by apply build_insert_triple|]. intros m3 op Hs3 Hst3 (ni & Ho). pose proof (stays_trans _ _ _ H02 Hst3) as H03.
  pose proof (st_inner _ _ Hst3 _ Hpi2) as Hpi3. apply wp_cas_update; [done|by destruct Hpi3| | |].
  - right. left. split; [done|]. by exists p, ni, (c_l c).
  - intros m4 Hs4 Hst4. eapply wp_call; [eapply help_insert_triple; [done|by eapply stays_data]|]. intros m5 [] Hs5 Hst5 _.
    apply wp_done; [done|done|exact (stays_trans _ _ _ H03 (stays_trans _ _ _ Hst4 Hst5))|done].
  - intros m4 e Hs4 Hst4 Hd4 Hne Hl4. apply again_wp; [done|exact (stays_trans _ _ _ H03 Hst4)|done|].
    eapply failed_announced; [exact (stays_read_update _ _ _ _ (stays_trans _ _ _ Hst3 Hst4) Hpu2)|done|done|done|done].
Qed.
Lemma delete_triple f m k h : sound m -> triple m (delete f k h) (found_leaf k).
Proof.
  intros Hs. apply loop_triple; [apply stable_found|done|]. clear m Hs. intros m Hs tr. unfold delete_round.
  pose proof (stable_round _ (stable_found k)) as Hstb.
  apply start_search_triple; [done|]. intros m1 c Hs1 Hst1 (Hc & Hl & Hp). destruct Hc as [_ Hc].
  destruct (c_p c) as [p|] eqn:Ep; [|done]. destruct Hc as (Hpi & Hpu & Hg). destruct (c_gp c) as [gp|] eqn:Eg; [|by apply wp_done].
  destruct Hg as [Hgi Hgu]. pose proof Hl as (x & w & Hd & _). eapply wp_node_of; [done|exact Hd|]. intros m2 Hs2 Hst2. cbn [fst].
  pose proof (stays_trans _ _ _ Hst1 Hst2) as H02. case_bool_decide as Ex; cbn [negb]; [|by apply wp_done].
  pose proof (leafy_found _ _ k _ _ (st_leafy _ _ Hst2 _ Hl) (stays_data _ _ _ _ Hst2 Hd) ltac:(by rewrite Ex)) as Hfound.
  pose proof (st_inner _ _ Hst2 _ Hpi) as Hpi2. pose proof (st_inner _ _ Hst2 _ Hgi) as Hgi2.
  pose proof (stays_read_update _ _ _ _ Hst2 Hpu) as Hpu2. pose proof (stays_read_update _ _ _ _ Hst2 Hgu) as Hgu2.
  destruct (Z.eqb_spec (c_gpupdate c).2 (bits CLEAN)) as [Eg0|Eg0]; cbn [negb].
  2: { apply again_wp; [done|done|by destruct Hgu2|by eapply announced]. }
  destruct (Z.eqb_spec (c_pupdate c).2 (bits CLEAN)) as [Ep0|Ep0]; cbn [negb].
  2: { apply again_wp; [done|done|by destruct Hpu2|by eapply announced]. }
  cbn [unwrap bind]. apply wp_alloc; [done|by split| |].
  { intros m3 Hst3 [H1 H2]. split; by apply (st_inner _ _ Hst3). }
  intros m3 op Hs3 Hst3 Ho. pose proof (stays_trans _ _ _ H02 Hst3) as H03. pose proof (st_inner _ _ Hst3 _ Hgi2) as Hgi3.
  apply wp_cas_update; [done|by destruct Hgi3| | |].
  - right. right. split; [by left|]. by eexists _, _, _, _.
  - intros m4 Hs4 Hst4. eapply wp_call; [eapply help_delete_triple; [done|by eapply stays_data]|]. intros m5 ok Hs5 Hst5 _.
    pose proof (stays_trans _ _ _ Hst3 (stays_trans _ _ _ Hst4 Hst5)) as H25. apply wp_done; [done|done|exact (stays_trans _ _ _ H02 H25)|].
    destruct ok; [|done]. exact (stable_found k _ _ _ Hs5 H25 Hfound).
  - intros m4 e Hs4 Hst4 Hd4 Hne Hl4. apply again_wp; [done|exact (stays_trans _ _ _ H03 Hst4)|done|].
    eapply failed_announced; [exact (stays_read_update _ _ _ _ (stays_trans _ _ _ Hst3 Hst4) Hgu2)|done|done|done|done].
Qed.

(** ** Sessions *)
(** The reply to a request that [P] allows: a value some thread has inserted for the key. *)
Definition answered (q : request K V) (r : reply V) : Prop :=
  match q, r with
  | QGet k, AGet o | QRemove k, ARemove o => forall v, o = Some v -> P k v
  | QInsert _ _, AInsert _ => True
  | _, _ => False
  end.
Definition allowed (q : request K V) : Prop := match q with QInsert k v => P k v | _ => True end.
Lemma borrow_triple m k r : sound m -> found_leaf k r m ->
  triple m (match r with Some l => v <- holder_borrow l ; Ret (Some v) | None => Ret None end) (fun o _ => forall v, o = Some v -> P k v).
Proof.
  intros Hs Hr tr. destruct r as [a|]; [|apply wp_done; [apply stable_pure|done|apply stays_refl|by intros v]].
  destruct (Hr a eq_refl) as (v & Hd & Hv). unfold holder_borrow. apply wp_bind; [apply _|]. eapply wp_node_of; [done|exact Hd|].
  intros m' Hs' Hst m2 Hr2. destruct (Hr2 Hs') as [Hs2 Hst2]. apply wp_done; [apply stable_pure|done|by eapply stays_trans|]. by intros v' [= <-].
Qed.
Lemma exec_triple h f q m : sound m -> allowed q -> triple m (efrb_exec h f q) (fun r _ => answered q r).
Proof.
  intros Hs Hq tr. destruct q as [k|k v|k]; cbn [efrb_exec].
  - eapply wp_call; [by apply find_triple|]. intros m1 r Hs1 Hst1 Hr. eapply wp_call; [by apply borrow_triple|].
    intros m2 o Hs2 Hst2 Ho. apply wp_done; [apply stable_pure|done|exact (stays_trans _ _ _ Hst1 Hst2)|exact Ho].
  - eapply wp_call; [by apply insert_triple|]. intros m1 b Hs1 Hst1 _. apply wp_done; [apply stable_pure|done|done|exact I].
  - eapply wp_call; [by apply delete_triple|]. intros m1 r Hs1 Hst1 Hr. eapply wp_call; [by apply borrow_triple|].
    intros m2 o Hs2 Hst2 Ho. apply wp_done; [apply stable_pure|done|exact (stays_trans _ _ _ Hst1 Hst2)|exact Ho].
Qed.
Lemma session_triple h f qs m : sound m -> Forall allowed qs ->
  triple m (session (S := mem (node K V)) (MapImpl0 := efrb_map h) f qs) (fun rs _ => Forall2 answered qs rs).
Proof.
  intros Hs Hqs. revert m Hs. induction Hqs as [|q qs Hq Hqs IH]; intros m Hs tr; cbn [session].
  - apply wp_done; [apply stable_pure|done|apply stays_refl|constructor].
  - eapply wp_call; [by apply exec_triple|]. intros m1 r Hs1 Hst1 Hr. eapply wp_call; [by apply IH|].
    intros m2 rs Hs2 Hst2 Hrs. apply wp_done; [apply stable_pure|done|exact (stays_trans _ _ _ Hst1 Hst2)|by constructor].
Qed.
Lemma new_sound h : exists m, run (efrb_new (K := K) (V := V) h) empty_mem = Ok (tt, m) /\ sound m.
Proof.
  destruct (new_nodes (K := K) (V := V) h) as (m & E & Hd & Hok & Hr & Hlf & HL & HR & Hu). exists m. split; [done|].
  clear E.
  assert (Hn : forall a d, m_data m !! a = Some d -> exists x, d = TNode x None /\ fin x = None /\ (a = 3 \/ a = 1 \/ a = 2)).
  { intros a d. rewrite Hd, !lookup_insert_Some, lookup_empty. intros [[<- <-]|[_ [[<- <-]|[_ [[<- <-]|[_ [=]]]]]]]; eexists; tauto. }
  assert (Ht : forall a, a = 3 \/ a = 1 \/ a = 2 -> tnode m a).
  { intros a [->|[->| ->]]; unfold tnode; rewrite Hd, ?lookup_insert_ne, lookup_insert_eq by done; by eexists _, _. }
  assert (Hi : inner m 3).
  { split; [by apply Ht; auto|]. intros []; [exists 1, 0|exists 2, 0]; (split; [done|apply Ht; auto]). }
  split; [done|by exists 3, 0| | |].
  - intros a (x & w & Ha). destruct (Hn a _ Ha) as (x' & [= -> ->] & Ex & Hc). split; [|exists (None, 0); split; [apply Hu; tauto|done]].
    destruct Hc as [->|Hc]; [by left|right]. destruct (Hlf a Hc) as [H1 H2].
    exists x', None. split; [done|]. split; [by intros k Hk; rewrite Ex in Hk|]. intros []; by exists 0.
  - intros o p ni l Ho. by destruct (Hn _ _ Ho) as (x & ? & _).
  - intros o gp p l pu Ho. by destruct (Hn _ _ Ho) as (x & ? & _).
Qed.
End safe.

Section threads.
Context {K V : Type} `{!Ord K, !EqDecision K, !Countable K}.
(** Some thread inserts [v] for [k]. *)
Definition requested (qss : list (list (request K V))) (k : K) (v : V) : Prop := exists qs, qs ∈ qss /\ QInsert k v ∈ qs.
Definition efrb_threads (f : nat) (qss : list (list (request K V))) : list (prog (mem (node K V)) (list (reply V))) :=
  imap (fun h qs => session (S := mem (node K V)) (MapImpl0 := efrb_map h) f qs) qss.

(** C15. In every interleaving of any number of threads, each making any calls of [find],
    [insert] and [delete] on one EFRB tree and helping each other, no thread dereferences a
    dangling node, unwraps a null link, finds no description where an [update] link is tagged
    or panics because the description is of the other kind; and every value that a call returns
    is one that some thread inserts for the key of the call. *)
Theorem efrb_safe f (qss : list (list (request K V))) m0 ps' m' :
  run (efrb_new 0) empty_mem = Ok (tt, m0) -> rtc pstep (efrb_threads f qss, m0) (ps', m') ->
  (forall h p, ps' !! h = Some p -> faultless p m') /\
  (forall h rs, ps' !! h = Some (Ret rs) -> exists qs, qss !! h = Some qs /\ Forall2 (answered (requested qss)) qs rs).
Proof.
  intros E Hrtc. destruct (new_sound (requested qss) 0) as (m & E' & Hs). assert (m = m0) as -> by congruence.
  apply (pool_sound (fun _ => rely (requested qss)) (fun _ => guar (requested qss))
    (fun h rs _ _ => exists qs, qss !! h = Some qs /\ Forall2 (answered (requested qss)) qs rs) _ _ _ _ (fun _ => []))
    in Hrtc as (t & _ & Hend); [|apply _|by intros i j o x y _|].
  - split; intros h p Hp; apply Hend in Hp; [eapply wp_faultless; [|exact Hp]; apply _|].
    apply wp_ret_now in Hp; [exact Hp|apply _].
  - intros h p Hp. unfold efrb_threads in Hp. rewrite list_lookup_imap in Hp. destruct (qss !! h) as [qs|] eqn:Eq; [|done]. injection Hp as <-.
    eapply wp_mono; [|apply (session_triple (requested qss)); [exact Hs|]].
    + intros rs tr' m1 (_ & _ & _ & Hrs). by exists qs.
    + apply Forall_forall. intros [k|k v|k] Hq; [done| |done]. exists qs. split; [by eapply list_elem_of_lookup_2|done].
Qed.
End threads.

(** ** A concrete interleaving: three threads insert, look up and remove the same keys *)
Definition sample_tree_requests : list (list (request Z nat)) :=
  [[QInsert 5 50%nat; QInsert 3 30%nat; QRemove 5]; [QInsert 5 51%nat; QGet 3; QRemove 3]; [QGet 5; QInsert 4 40%nat; QGet 4]].
Definition sample_tree_start : mem (node Z nat) := match run (efrb_new 0) empty_mem with Ok (_, m) => m | Stopped _ => empty_mem end.
Definition round_robin (n : nat) : list nat := concat (replicate n [0; 1; 2; 3]%nat).
Definition sample_tree_pool : list (prog (mem (node Z nat)) (list (reply nat))) * mem (node Z nat) :=
  pool_run (round_robin 150) (efrb_threads 9 sample_tree_requests, sample_tree_start).
Lemma sample_tree_started : run (efrb_new (K := Z) (V := nat) 0) empty_mem = Ok (tt, sample_tree_start).
Proof. vm_compute. reflexivity. Qed.
Lemma sample_tree_results : results sample_tree_pool.1 =
  [Some [AInsert true; AInsert true; ARemove (Some 50%nat)]; Some [AInsert false; AGet (Some 30%nat); ARemove (Some 30%nat)];
   Some [AGet None; AInsert true; AGet (Some 40%nat)]].
Proof. vm_compute. reflexivity. Qed.
Lemma efrb_safe_witness : (forall h p, sample_tree_pool.1 !! h = Some p -> faultless p sample_tree_pool.2) /\
  exists qs, sample_tree_requests !! 1%nat = Some qs /\
    Forall2 (answered (requested sample_tree_requests)) qs [AInsert false; AGet (Some 30%nat); ARemove (Some 30%nat)].
Proof.
  destruct (efrb_safe 9 sample_tree_requests sample_tree_start sample_tree_pool.1 sample_tree_pool.2 sample_tree_started
    (pool_run_rtc (round_robin 150) (efrb_threads 9 sample_tree_requests, sample_tree_start))) as [H1 H2].
  split; [exact H1|]. apply (H2 1%nat), results_lookup. exact (f_equal (fun l => l !! 1%nat) sample_tree_results).
Defined.
