(* ===== verification/Derive.v ===== *)
(** * The derive macro ([cdpt-derive/src/lib.rs])

    [#\[derive(TraceObj)\]] turns the declaration of a type into the two traversal
    methods the collector calls.  The declaration is the syntax tree [syn] parses, the
    output is the statements [quote!] builds, and the output is given the meaning it
    has in Rust: [check] is the compiler's typing of it (places, references bound by
    patterns, auto-dereferencing), [exec] runs it on a value and returns the managed
    links visited, in order. *)
From S2P Require Import Prelude.
From stdpp Require Import pretty.
#[local] Set Warnings "-register-all".
#[local] Open Scope string_scope.
#[local] Open Scope list_scope.

(** ** Declarations, as [syn] gives them *)
(** [syn::Type]; a path is known by its last segment, as in [p.path.segments.last()]. *)
Inductive Type_ :=
  | TPath (ident : string) (arguments : PathArguments)
  | TTuple (elems : list Type_)
  | TArray (elem : Type_)
  | TSlice (elem : Type_)
  | TReference (elem : Type_)
  | TOther
with PathArguments :=
  | NoArguments
  | AngleBracketed (args : list GenericArgument)
  | Parenthesized
with GenericArgument :=
  | GType (t : Type_)
  | GOther.

Inductive Fields :=
  | Named (fields : list (string * Type_))
  | Unnamed (fields : list Type_)
  | Unit_.
Inductive Data :=
  | Struct (fields : Fields)
  | Enum (variants : list (string * Fields))
  | Union.

(** ** Generated code *)
Inductive member := MName (x : string) | MIndex (i : nat).
Inductive expr :=
  | EVar (x : string)
  | ESelf (m : member)  (** [self.field] *)
  | EIndex (e : expr) (i : nat)  (** [e.0] *)
  | EDeref (e : expr).  (** [( *e)] *)
Inductive stmt :=
  | SCall (e : expr) (method : string)  (** [e.method(guard);] *)
  | SIfSome (x : string) (e : expr) (body : list stmt)  (** [if let Some(x) = &e { .. }] *)
  | SFor (x : string) (e : expr) (body : list stmt)  (** [for x in &e { .. }] *)
  | SMatch (e : expr) (arms : list (bool * option (string * list stmt)))
      (** [match &e { Ok(x) => { .. } Err(_) => {} }]; [true] is [Ok] *)
  | SLet (x : string) (e : expr).  (** [let x = &e;] *)
Inductive body :=
  | BBlock (ss : list stmt)
  | BMatch (variants : list (string * (list (member * string) * list stmt))).
      (** [match self { Self::V { x, .. } => { .. } }], with the names a pattern binds *)

(** ** The generator *)
Definition is_managed (ident : string) : bool :=
  (ident =? "Shared") || (ident =? "AtomicShared") || (ident =? "AtomicSharedOption").
Definition is_seq (ident : string) : bool :=
  (ident =? "Vec") || (ident =? "VecDeque") || (ident =? "ArrayVec").
Definition is_box (ident : string) : bool := (ident =? "Box") || (ident =? "Arc").

(** One arm of the [match] for a [Result]. *)
Definition result_arm (ok : bool) (x : string) (trace : option (list stmt)) :
    bool * option (string * list stmt) :=
  match trace with Some t => (ok, Some (x, t)) | None => (ok, None) end.

Fixpoint gen_trace_for_type (ty : Type_) (e : expr) (method : string) : option (list stmt) :=
  match ty with
  | TPath ident arguments =>
      if is_managed ident then Some [SCall e method] else
      if ident =? "Option" then
        match arguments with
        | AngleBracketed (GType inner :: _) =>
            (fun t => [SIfSome "__inner" e t]) <$> gen_trace_for_type inner (EVar "__inner") method
        | _ => None
        end
      else if is_seq ident then
        match arguments with
        | AngleBracketed (GType inner :: _) =>
            (fun t => [SFor "__inner" e t]) <$> gen_trace_for_type inner (EVar "__inner") method
        | _ => None
        end
      else if is_box ident then
        match arguments with
        | AngleBracketed (GType inner :: _) => gen_trace_for_type inner (EDeref e) method
        | _ => None
        end
      else if ident =? "Result" then
        match arguments with
        | AngleBracketed args =>
            let arms :=
              match args with
              | GType ok_ty :: _ => [result_arm true "__ok" (gen_trace_for_type ok_ty (EVar "__ok") method)]
              | _ => []
              end ++
              match args with
              | _ :: GType err_ty :: _ =>
                  [result_arm false "__err" (gen_trace_for_type err_ty (EVar "__err") method)]
              | _ => []
              end in
            match arms with [] => None | _ => Some [SMatch e arms] end
        | _ => None
        end
      else None
  | TTuple elems =>
      let fix go (i : nat) (l : list Type_) : list (list stmt) :=
        match l with
        | [] => []
        | t :: l' => option_list (gen_trace_for_type t (EIndex e i) method) ++ go (S i) l'
        end in
      match go 0%nat elems with [] => None | traces => Some (concat traces) end
  | TArray elem | TSlice elem =>
      (fun t => [SFor "__inner" e t]) <$> gen_trace_for_type elem (EVar "__inner") method
  | TReference elem =>
      (fun t => SLet "__inner" e :: t) <$> gen_trace_for_type elem (EVar "__inner") method
  | TOther => None
  end.

(** [format_ident!("f{}", i)] *)
Definition f_ident (i : nat) : string := "f" +:+ pretty i.
(** [fields.iter().enumerate()]: the member and the type of each field. *)
Definition members (fields : Fields) : list (member * Type_) :=
  match fields with
  | Named l => (fun '(x, t) => (MName x, t)) <$> l
  | Unnamed l => imap (fun i t => (MIndex i, t)) l
  | Unit_ => []
  end.
Definition bound_name (m : member) : string := match m with MName x => x | MIndex i => f_ident i end.
Definition gen_fields_trace (fields : Fields) (method : string) (variant : option string) : list stmt :=
  concat (omap (fun '(m, ty) =>
    let e := match variant with Some _ => EVar (bound_name m) | None => ESelf m end in
    gen_trace_for_type ty e method) (members fields)).

(** [None] is the panic on a union. *)
Definition gen_body (data : Data) (method : string) : option body :=
  match data with
  | Struct fields => Some (BBlock (gen_fields_trace fields method None))
  | Enum variants => Some (BMatch ((fun '(variant_ident, fields) =>
      (variant_ident,
        ((fun '(m, _) => (m, bound_name m)) <$> members fields,
          match fields with
          | Unit_ => []
          | _ => gen_fields_trace fields method (Some variant_ident)
          end))) <$> variants))
  | Union => None
  end.
Definition derive_trace_obj (data : Data) : option (body * body) :=
  match gen_body data "unroot", gen_body data "shade" with
  | Some unroot_body, Some shade_body => Some (unroot_body, shade_body)
  | _, _ => None
  end.

(** ** What the generated code means in Rust *)
Fixpoint assoc {A} (x : string) (l : list (string * A)) : option A :=
  match l with [] => None | (y, a) :: l' => if x =? y then Some a else assoc x l' end.
#[export] Instance member_eq_dec : EqDecision member.
Proof. solve_decision. Defined.
Fixpoint field {A} (m : member) (l : list (member * A)) : option A :=
  match l with [] => None | (m', a) :: l' => if decide (m = m') then Some a else field m l' end.

(** *** Types *)
Definition box_elem (t : Type_) : option Type_ :=
  match t with
  | TPath ident (AngleBracketed (GType t' :: _)) => if is_box ident then Some t' else None
  | _ => None
  end.
(** The unary [*]. *)
Definition deref_ty (t : Type_) : option Type_ :=
  match t with TReference t' => Some t' | _ => box_elem t end.
(** What a method call or a field access sees through. *)
Fixpoint autoderef (t : Type_) : Type_ :=
  match t with
  | TReference t' => autoderef t'
  | TPath ident (AngleBracketed (GType t' :: _)) => if is_box ident then autoderef t' else t
  | _ => t
  end.
(** What a pattern sees through: references only. *)
Fixpoint strip_refs (t : Type_) : Type_ := match t with TReference t' => strip_refs t' | _ => t end.
(** [&t: IntoIterator]: collections, arrays, slices and boxed slices, but neither a
    reference to one nor another box of one. *)
Definition iter_elem (t : Type_) : option Type_ :=
  match t with
  | TPath ident (AngleBracketed (GType t' :: _)) =>
      if is_seq ident then Some t' else
      if ident =? "Box" then match t' with TSlice t'' => Some t'' | _ => None end else None
  | TArray t' | TSlice t' => Some t'
  | _ => None
  end.
Definition has_trace_ptr (t : Type_) : bool :=
  match t with TPath ident _ => is_managed ident | _ => false end.
Definition guard_ty : Type_ := TReference (TPath "Guard" NoArguments).
Definition is_guard_ref (t : option Type_) : bool :=
  match t with Some (TReference (TPath ident NoArguments)) => ident =? "Guard" | _ => false end.

Section typing.
Context (F : list (member * Type_)).  (** the fields of [self], for a struct *)
Fixpoint typeof (G : list (string * Type_)) (e : expr) : option Type_ :=
  match e with
  | EVar x => assoc x G
  | ESelf m => field m F
  | EIndex e i => t ← typeof G e; match autoderef t with TTuple ts => ts !! i | _ => None end
  | EDeref e => t ← typeof G e; deref_ty t
  end.
(** Whether the compiler accepts a statement; a [let] is in scope in what follows it. *)
Fixpoint check (G : list (string * Type_)) (s : stmt) : bool :=
  let block := fix go (G : list (string * Type_)) (ss : list stmt) : bool :=
    match ss with
    | [] => true
    | SLet x e :: ss' => match typeof G e with Some t => go ((x, TReference t) :: G) ss' | None => false end
    | s :: ss' => check G s && go G ss'
    end in
  match s with
  | SCall e _ =>
      match typeof G e with
      | Some t => has_trace_ptr (autoderef t) && is_guard_ref (assoc "guard" G)
      | None => false
      end
  | SIfSome x e body =>
      match strip_refs <$> typeof G e with
      | Some (TPath ident (AngleBracketed (GType t :: _))) =>
          (ident =? "Option") && block ((x, TReference t) :: G) body
      | _ => false
      end
  | SFor x e body =>
      match typeof G e ≫= iter_elem with
      | Some t => block ((x, TReference t) :: G) body
      | None => false
      end
  | SMatch e arms =>
      match strip_refs <$> typeof G e with
      | Some (TPath ident (AngleBracketed (GType ok_ty :: GType err_ty :: _))) =>
          (ident =? "Result") && existsb (fun arm => arm.1) arms && existsb (fun arm => negb arm.1) arms &&
          forallb (fun '(ok, arm) =>
            match arm with
            | Some (x, body) => block ((x, TReference (if ok : bool then ok_ty else err_ty)) :: G) body
            | None => true
            end) arms
      | _ => false
      end
  | SLet _ e => bool_decide (is_Some (typeof G e))
  end.
Fixpoint check_block (G : list (string * Type_)) (ss : list stmt) : bool :=
  match ss with
  | [] => true
  | SLet x e :: ss' =>
      match typeof G e with Some t => check_block ((x, TReference t) :: G) ss' | None => false end
  | s :: ss' => check G s && check_block G ss'
  end.
End typing.

(** A method of the [impl TraceObj]: [self] and [guard] are in scope, and the names of
    the fields, or those a pattern binds, are distinct. *)
Definition check_body (data : Data) (b : body) : bool :=
  match data, b with
  | Struct fields, BBlock ss =>
      bool_decide (NoDup (members fields).*1) && check_block (members fields) [("guard", guard_ty)] ss
  | Enum variants, BMatch arms =>
      bool_decide (variants <> []) &&
      forallb (fun '(x, fields) =>
        match assoc x arms with
        | Some (names, ss) =>
            bool_decide (NoDup names.*2) &&
            check_block [] (zip names.*2 (TReference <$> (members fields).*2) ++ [("guard", guard_ty)]) ss
        | None => false
        end) variants
  | _, _ => false
  end.

(** *** Values *)
Inductive val :=
  | VPtr (c : nat)  (** a managed pointer: its link *)
  | VOpaque  (** a value of any other type *)
  | VOption (o : option val)
  | VSeq (l : list val)
  | VBox (v : val)
  | VResult (ok : bool) (v : val)
  | VTuple (l : list val)
  | VRef (v : val).
Fixpoint autoderef_val (v : val) : val :=
  match v with VRef v' | VBox v' => autoderef_val v' | _ => v end.
Fixpoint strip_val (v : val) : val := match v with VRef v' => strip_val v' | _ => v end.
Definition iter_val (v : val) : option (list val) :=
  match v with VSeq l | VBox (VSeq l) => Some l | _ => None end.

Section exec.
Context (F : list (member * val)).
Fixpoint eval (R : list (string * val)) (e : expr) : option val :=
  match e with
  | EVar x => assoc x R
  | ESelf m => field m F
  | EIndex e i => v ← eval R e; match autoderef_val v with VTuple l => l !! i | _ => None end
  | EDeref e => v ← eval R e; match v with VRef v' | VBox v' => Some v' | _ => None end
  end.
(** The calls a statement makes, with the link each is made on; [None]: the code does
    not fit the value. *)
Fixpoint exec (R : list (string * val)) (s : stmt) : option (list (string * nat)) :=
  let block := fix go (R : list (string * val)) (ss : list stmt) : option (list (string * nat)) :=
    match ss with
    | [] => Some []
    | SLet x e :: ss' => v ← eval R e; go ((x, VRef v) :: R) ss'
    | s :: ss' => c ← exec R s; cs ← go R ss'; Some (c ++ cs)
    end in
  match s with
  | SCall e m => v ← eval R e; match autoderef_val v with VPtr c => Some [(m, c)] | _ => None end
  | SIfSome x e body =>
      v ← eval R e;
      match strip_val v with
      | VOption (Some v') => block ((x, VRef v') :: R) body
      | VOption None => Some []
      | _ => None
      end
  | SFor x e body =>
      v ← eval R e; l ← iter_val v;
      (fun ls => concat ls) <$> mapM (fun v' => block ((x, VRef v') :: R) body) l
  | SMatch e arms =>
      v ← eval R e;
      match strip_val v with
      | VResult ok v' =>
          let fix pick (arms : list (bool * option (string * list stmt))) : option (list (string * nat)) :=
            match arms with
            | [] => None
            | (ok', arm) :: arms' =>
                if Bool.eqb ok ok' then
                  match arm with Some (x, body) => block ((x, VRef v') :: R) body | None => Some [] end
                else pick arms'
            end in pick arms
      | _ => None
      end
  | SLet _ e => v ← eval R e; Some []
  end.
Fixpoint exec_block (R : list (string * val)) (ss : list stmt) : option (list (string * nat)) :=
  match ss with
  | [] => Some []
  | SLet x e :: ss' => v ← eval R e; exec_block ((x, VRef v) :: R) ss'
  | s :: ss' => c ← exec R s; cs ← exec_block R ss'; Some (c ++ cs)
  end.
End exec.

(** A value of the type: its fields in order, with the variant of an enum. *)
Record data_val := mkDV { dv_variant : option string; dv_fields : list val }.
Definition exec_body (data : Data) (b : body) (dv : data_val) : option (list (string * nat)) :=
  let R := [("guard", VRef VOpaque)] in
  match data, b, dv_variant dv with
  | Struct fields, BBlock ss, None => exec_block (zip (members fields).*1 (dv_fields dv)) R ss
  | Enum _, BMatch arms, Some x =>
      '(names, ss) ← assoc x arms;
      exec_block [] (zip names.*2 (VRef <$> dv_fields dv) ++ R) ss
  | _, _, _ => None
  end.

(** ** The specification: the managed pointers of a value

    Those in the documented wrappers, in order; a value of any other type is assumed
    to have none. *)
Fixpoint pointers (ty : Type_) (v : val) : list nat :=
  match ty with
  | TPath ident arguments =>
      if is_managed ident then match v with VPtr c => [c] | _ => [] end
      else if ident =? "Option" then
        match arguments, v with AngleBracketed (GType t :: _), VOption (Some v') => pointers t v' | _, _ => [] end
      else if is_seq ident then
        match arguments, v with AngleBracketed (GType t :: _), VSeq l => concat (map (pointers t) l) | _, _ => [] end
      else if is_box ident then
        match arguments, v with AngleBracketed (GType t :: _), VBox v' => pointers t v' | _, _ => [] end
      else if ident =? "Result" then
        match arguments, v with
        | AngleBracketed (GType t :: _), VResult true v' => pointers t v'
        | AngleBracketed (_ :: GType t :: _), VResult false v' => pointers t v'
        | _, _ => []
        end
      else []
  | TTuple elems =>
      match v with
      | VTuple l =>
          let fix go (ts : list Type_) (l : list val) : list nat :=
            match ts, l with t :: ts', v :: l' => pointers t v ++ go ts' l' | _, _ => [] end in go elems l
      | _ => []
      end
  | TArray t | TSlice t => match v with VSeq l => concat (map (pointers t) l) | _ => [] end
  | TReference t => match v with VRef v' => pointers t v' | _ => [] end
  | TOther => []
  end.

(** The values of a type. *)
Fixpoint has_type (ty : Type_) (v : val) : bool :=
  match ty with
  | TPath ident arguments =>
      if is_managed ident then match v with VPtr _ => true | _ => false end
      else if ident =? "Option" then
        match arguments, v with
        | AngleBracketed (GType t :: _), VOption o => match o with Some v' => has_type t v' | None => true end
        | AngleBracketed (GType _ :: _), _ => false
        | _, _ => true
        end
      else if is_seq ident then
        match arguments, v with
        | AngleBracketed (GType t :: _), VSeq l => forallb (has_type t) l
        | AngleBracketed (GType _ :: _), _ => false
        | _, _ => true
        end
      else if is_box ident then
        match arguments, v with
        | AngleBracketed (GType t :: _), VBox v' => has_type t v'
        | AngleBracketed (GType _ :: _), _ => false
        | _, _ => true
        end
      else if ident =? "Result" then
        match arguments, v with
        | AngleBracketed (GType t1 :: GType t2 :: _), VResult ok v' =>
            if ok : bool then has_type t1 v' else has_type t2 v'
        | AngleBracketed (GType _ :: GType _ :: _), _ => false
        | _, _ => true
        end
      else true
  | TTuple elems =>
      match v with
      | VTuple l =>
          let fix go (ts : list Type_) (l : list val) : bool :=
            match ts, l with
            | [], [] => true
            | t :: ts', v :: l' => has_type t v && go ts' l'
            | _, _ => false
            end in go elems l
      | _ => false
      end
  | TArray t | TSlice t => match v with VSeq l => forallb (has_type t) l | _ => false end
  | TReference t => match v with VRef v' => has_type t v' | _ => false end
  | TOther => true
  end.
Definition data_has_type (data : Data) (dv : data_val) : bool :=
  let fields_ok fields := has_type (TTuple (members fields).*2) (VTuple (dv_fields dv)) in
  match data, dv_variant dv with
  | Struct fields, None => fields_ok fields
  | Enum variants, Some x => match assoc x variants with Some fields => fields_ok fields | None => false end
  | _, _ => false
  end.
Definition data_pointers (data : Data) (dv : data_val) : list nat :=
  let of_fields fields := pointers (TTuple (members fields).*2) (VTuple (dv_fields dv)) in
  match data, dv_variant dv with
  | Struct fields, None => of_fields fields
  | Enum variants, Some x => match assoc x variants with Some fields => of_fields fields | None => [] end
  | _, _ => []
  end.

(** The types for which code is generated: they may have managed pointers. *)
Fixpoint traced (t : Type_) : bool :=
  match t with
  | TPath ident arguments =>
      is_managed ident ||
      match arguments with
      | AngleBracketed (GType t' :: rest) =>
          if (ident =? "Option") || is_seq ident || is_box ident then traced t' else ident =? "Result"
      | AngleBracketed (_ :: GType _ :: _) =>
          negb ((ident =? "Option") || is_seq ident || is_box ident) && (ident =? "Result")
      | _ => false
      end
  | TTuple elems => existsb traced elems
  | TArray t' | TSlice t' | TReference t' => traced t'
  | TOther => false
  end.
(** No reference to a type that may have managed pointers. *)
Fixpoint ref_free (ty : Type_) : bool :=
  match ty with
  | TPath _ (AngleBracketed args) =>
      forallb (fun g => match g with GType t => ref_free t | GOther => true end) args
  | TTuple elems => forallb ref_free elems
  | TArray t | TSlice t => ref_free t
  | TReference t => negb (traced t)
  | _ => true
  end.
Definition data_ref_free (data : Data) : bool :=
  let fields_ok fields := forallb (fun x => ref_free x.2) (members fields) in
  match data with
  | Struct fields => fields_ok fields
  | Enum variants => forallb (fun x => fields_ok x.2) variants
  | Union => true
  end.
