(* ===== verification/DeriveCorrect.v ===== *)
(** * The derive macro is correct ([cdpt-derive/src/lib.rs])

    For the declarations whose generated code compiles, the generated traversal calls its
    method on every managed pointer of the value, once and in order ([derive_exact]); which
    declarations those are is read off the types ([derive_accepts]); and what the generator
    does to collections in enums and to references. *)
From S2P Require Import Prelude Derive.
#[local] Open Scope string_scope.
#[local] Open Scope list_scope.

(** ** Correctness *)
Lemma Type_rec' (P : Type_ -> Prop) :
  (forall ident args, (forall l t, args = AngleBracketed l -> GType t ∈ l -> P t) -> P (TPath ident args)) ->
  (forall l, (forall t, t ∈ l -> P t) -> P (TTuple l)) -> (forall t, P t -> P (TArray t)) ->
  (forall t, P t -> P (TSlice t)) -> (forall t, P t -> P (TReference t)) -> P TOther -> forall t, P t.
Proof.
  intros HP HT HA HS HR HO. fix IH 1. intros [ident args|l|t|t|t|];
    [apply HP|apply HT|apply HA, IH|apply HS, IH|apply HR, IH|exact HO].
  - destruct args as [|l|]; [discriminate| |discriminate]. intros l' t [= <-].
    induction l as [|g l IHl]; intros H; [exfalso; by apply not_elem_of_nil in H|].
    apply elem_of_cons in H as [E|H]; [|exact (IHl H)]. destruct g as [t'|]; [|discriminate].
    injection E as ->. apply IH.
  - induction l as [|t' l IHl]; intros t H; [exfalso; by apply not_elem_of_nil in H|].
    apply elem_of_cons in H as [->|H]; [apply IH|exact (IHl t H)].
Qed.
Lemma box_names ident : is_box ident = true -> ident = "Box" \/ ident = "Arc".
Proof. intros [H|H]%orb_true_iff; apply String.eqb_eq in H; auto. Qed.

(** A value [w] of type [tw] that leads to [v] of type [t] through references and boxes. *)
Inductive peels (t : Type_) (v : val) : Type_ -> val -> Prop :=
  | peels_here : peels t v t v
  | peels_ref tw w : peels t v tw w -> peels t v (TReference tw) (VRef w)
  | peels_box ident tw rest w : is_box ident = true -> peels t v tw w ->
      peels t v (TPath ident (AngleBracketed (GType tw :: rest))) (VBox w).

Lemma peels_trans t1 v1 t2 v2 t3 v3 : peels t1 v1 t2 v2 -> peels t2 v2 t3 v3 -> peels t1 v1 t3 v3.
Proof. intros H12. induction 1; [done|by constructor..]. Qed.
Lemma peels_autoderef t v tw w : peels t v tw w ->
  autoderef tw = autoderef t /\ autoderef_val w = autoderef_val v.
Proof. induction 1 as [| |ident tw rest w Hb _ [IH1 IH2]]; [done|done|]. cbn [autoderef autoderef_val]. by rewrite Hb. Qed.
Lemma peels_strip t v tw w : peels t v tw w ->
  (strip_refs tw = strip_refs t /\ strip_val w = strip_val v) \/
  (exists ident args, strip_refs tw = TPath ident args /\ is_box ident = true).
Proof. induction 1 as [| |ident tw rest w Hb]; [by left|done|]. right. by exists ident, (AngleBracketed (GType tw :: rest)). Qed.
Lemma peels_iter t v tw w x : peels t v tw w -> iter_elem tw = Some x ->
  (tw = t /\ w = v) \/ (t = TSlice x /\ w = VBox v).
Proof.
  intros H Hi. destruct H as [|tw w H|ident tw rest w Hb H]; [by left|done|right].
  destruct (box_names _ Hb) as [-> | ->]; cbn in Hi; destruct tw; simplify_eq. by inversion H.
Qed.
Lemma peels_deref ident t rest v tw w : is_box ident = true ->
  peels (TPath ident (AngleBracketed (GType t :: rest))) (VBox v) tw w ->
  exists tw' w', deref_ty tw = Some tw' /\ (w = VRef w' \/ w = VBox w') /\ peels t v tw' w'.
Proof.
  intros Hb H. assert (Hh : peels t v (TPath ident (AngleBracketed (GType t :: rest))) (VBox v))
    by (constructor; [done|constructor]).
  destruct H as [|tw w H|ident' tw rest' w Hb' H].
  - exists t, v. cbn. rewrite Hb. split; [done|]. split; [by right|constructor].
  - exists tw, w. split; [done|]. split; [by left|]. by eapply peels_trans.
  - exists tw, w. cbn. rewrite Hb'. split; [done|]. split; [by right|]. by eapply peels_trans.
Qed.

(** The unfolding equations, in terms of [check_block] and [exec_block]. *)
Lemma check_if F G x e ss : check F G (SIfSome x e ss) =
  match strip_refs <$> typeof F G e with
  | Some (TPath ident (AngleBracketed (GType t :: _))) =>
      (ident =? "Option") && check_block F ((x, TReference t) :: G) ss
  | _ => false
  end.
Proof. reflexivity. Qed.
Lemma check_for F G x e ss : check F G (SFor x e ss) =
  match typeof F G e ≫= iter_elem with
  | Some t => check_block F ((x, TReference t) :: G) ss
  | None => false
  end.
Proof. reflexivity. Qed.
Lemma check_match F G e arms : check F G (SMatch e arms) =
  match strip_refs <$> typeof F G e with
  | Some (TPath ident (AngleBracketed (GType ok_ty :: GType err_ty :: _))) =>
      (ident =? "Result") && existsb (fun arm => arm.1) arms && existsb (fun arm => negb arm.1) arms &&
      forallb (fun '(ok, arm) =>
        match arm with
        | Some (x, ss) => check_block F ((x, TReference (if ok : bool then ok_ty else err_ty)) :: G) ss
        | None => true
        end) arms
  | _ => false
  end.
Proof. reflexivity. Qed.
Lemma exec_if F R x e ss : exec F R (SIfSome x e ss) =
  (v ← eval F R e;
   match strip_val v with
   | VOption (Some v') => exec_block F ((x, VRef v') :: R) ss
   | VOption None => Some []
   | _ => None
   end).
Proof. reflexivity. Qed.
Lemma exec_for F R x e ss : exec F R (SFor x e ss) =
  (v ← eval F R e; l ← iter_val v;
   (fun ls => concat ls) <$> mapM (fun v' => exec_block F ((x, VRef v') :: R) ss) l).
Proof. reflexivity. Qed.

(** Statements that bind nothing for those after them. *)
Definition no_let (s : stmt) : bool := match s with SLet _ _ => false | _ => true end.
Lemma check_cons F G s ss : no_let s = true -> check_block F G (s :: ss) = check F G s && check_block F G ss.
Proof. by destruct s. Qed.
Lemma exec_cons F R s ss : no_let s = true ->
  exec_block F R (s :: ss) = (c ← exec F R s; cs ← exec_block F R ss; Some (c ++ cs)).
Proof. by destruct s. Qed.
Lemma check_app F G s1 s2 : forallb no_let s1 = true ->
  check_block F G (s1 ++ s2) = check_block F G s1 && check_block F G s2.
Proof.
  induction s1 as [|s s1 IH]; [done|]. intros [H1 H2]%andb_true_iff. cbn [app].
  by rewrite !check_cons, IH, andb_assoc.
Qed.
Lemma exec_app F R s1 s2 c1 c2 : forallb no_let s1 = true ->
  exec_block F R s1 = Some c1 -> exec_block F R s2 = Some c2 -> exec_block F R (s1 ++ s2) = Some (c1 ++ c2).
Proof.
  intros Hn. revert c1. induction s1 as [|s s1 IH]; intros c1; [by intros [= <-]|].
  apply andb_true_iff in Hn as [H1 H2]. cbn [app]. rewrite !exec_cons by done.
  destruct (exec F R s) as [c|]; [|done]. cbn. destruct (exec_block F R s1) as [cs|]; [|done]. cbn.
  intros [= <-] E2. rewrite (IH H2 cs eq_refl E2). cbn. by rewrite app_assoc.
Qed.

(** ** What the generator emits for a type *)
(** A type with nothing to trace has no managed pointers. *)
Lemma gen_none ty : forall e m v, gen_trace_for_type ty e m = None -> pointers ty v = [].
Proof.
  induction ty as [ident args IH|l IH|t IH|t IH|t IH|] using Type_rec'; intros e m v H; cbn [gen_trace_for_type pointers] in *.
  - destruct (is_managed ident); [done|]. destruct (ident =? "Option").
    { destruct args as [|[|[t|] rest]|]; try done. destruct v as [| |[v|]| | | | |]; try done.
      apply fmap_None in H. eapply IH; [done|by left|done]. }
    destruct (is_seq ident).
    { destruct args as [|[|[t|] rest]|]; try done. destruct v as [| | |l| | | |]; try done.
      apply fmap_None in H. induction l as [|v l IHl]; [done|]. cbn. rewrite IHl, app_nil_r.
      eapply IH; [done|by left|done]. }
    destruct (is_box ident).
    { destruct args as [|[|[t|] rest]|]; try done. destruct v; try done. eapply IH; [done|by left|done]. }
    destruct (ident =? "Result"); [|done]. destruct args as [|[|[t|] [|[t'|] rest]]|]; try done; by destruct v as [| | | | |[]| |].
  - destruct v as [| | | | | |vs|]; try done. revert vs H. generalize 0%nat.
    induction l as [|t l IHl]; intros n vs H; [done|]. destruct vs as [|v vs]; [done|].
    destruct (gen_trace_for_type t (EIndex e n) m) eqn:E; [done|]. cbn [option_list app] in H.
    erewrite (IH t ltac:(by left)) by done. cbn [app]. eapply IHl; [|exact H]. intros t' Ht'. apply IH. by right.
  - destruct v as [| | |l| | | |]; try done. apply fmap_None in H.
    induction l as [|v l IHl]; [done|]. cbn. by rewrite IHl, app_nil_r, (IH _ _ _ H).
  - destruct v as [| | |l| | | |]; try done. apply fmap_None in H.
    induction l as [|v l IHl]; [done|]. cbn. by rewrite IHl, app_nil_r, (IH _ _ _ H).
  - destruct v; try done. apply fmap_None in H. by eapply IH.
  - done.
Qed.

(** The traces of the elements of a tuple. *)
Definition gen_elems (e : expr) (m : string) : nat -> list Type_ -> list (list stmt) :=
  fix go (i : nat) (l : list Type_) :=
    match l with
    | [] => []
    | t :: l' => option_list (gen_trace_for_type t (EIndex e i) m) ++ go (S i) l'
    end.
Lemma gen_traced t : forall e m, bool_decide (is_Some (gen_trace_for_type t e m)) = traced t.
Proof.
  assert (Hf : forall A B (f : A -> B) o, bool_decide (is_Some (f <$> o)) = bool_decide (is_Some o)).
  { intros. apply bool_decide_ext. apply fmap_is_Some. }
  induction t as [ident args IH|l IH|t IH|t IH|t IH|] using Type_rec'; intros e m; cbn;
    [| |rewrite Hf; apply IH..|done].
  - destruct (is_managed ident); [done|]. destruct (String.eqb_spec ident "Option") as [->|_].
    { destruct args as [|[|[t|] [|[t'|] rest]]|]; try done; rewrite Hf; eapply IH; try done; by left. }
    destruct (is_seq ident).
    { destruct args as [|[|[t|] [|[t'|] rest]]|]; try done; rewrite Hf; eapply IH; try done; by left. }
    destruct (is_box ident).
    { destruct args as [|[|[t|] [|[t'|] rest]]|]; try done; eapply IH; try done; by left. }
    destruct (ident =? "Result"); by destruct args as [|[|[t|] [|[t'|] rest]]|].
  - change (bool_decide (is_Some match gen_elems e m 0%nat l with [] => None | traces => Some (concat traces) end) =
      existsb traced l).
    generalize 0%nat. induction l as [|t l IHl]; intros n; [done|]. cbn [existsb].
    rewrite <- (IH t ltac:(by left) (EIndex e n) m). cbn.
    destruct (gen_trace_for_type t (EIndex e n) m); [done|]. apply IHl. intros t' Ht'. apply IH. by right.
Qed.
Lemma gen_untraced t e m : gen_trace_for_type t e m = None -> traced t = false.
Proof. intros H. by rewrite <- (gen_traced t e m), H. Qed.
Lemma gen_some_traced t e m ss : gen_trace_for_type t e m = Some ss -> traced t = true.
Proof. intros H. by rewrite <- (gen_traced t e m), H. Qed.
Lemma gen_no_let ty : ref_free ty = true -> forall e m ss, gen_trace_for_type ty e m = Some ss ->
  forallb no_let ss = true.
Proof.
  induction ty as [ident args IH|l IH|t IH|t IH|t IH|] using Type_rec'; intros Hr e m ss H; cbn in H.
  - destruct (is_managed ident); [by simplify_eq|]. destruct (ident =? "Option").
    { destruct args as [|[|[t|] rest]|]; try done. by apply fmap_Some in H as (x & _ & ->). }
    destruct (is_seq ident).
    { destruct args as [|[|[t|] rest]|]; try done. by apply fmap_Some in H as (x & _ & ->). }
    destruct (is_box ident).
    { destruct args as [|[|[t|] rest]|]; try done. eapply IH; [done|by left| |done].
      by apply andb_true_iff in Hr as [? _]. }
    destruct (ident =? "Result"); [|done].
    destruct args as [|[|[t|] [|[t'|] rest]]|]; cbn in H; try done; by injection H as <-.
  - change (match gen_elems e m 0%nat l with [] => None | traces => Some (concat traces) end = Some ss) in H.
    assert (Hgo : forall n, forallb no_let (concat (gen_elems e m n l)) = true).
    { clear H. induction l as [|t l IHl]; intros n; [done|]. apply andb_true_iff in Hr as [Hr1 Hr2]. cbn.
      assert (Hl : forallb no_let (concat (gen_elems e m (S n) l)) = true).
      { apply IHl; [|done]. intros t' Ht'. apply IH. by right. }
      destruct (gen_trace_for_type t (EIndex e n) m) as [tr|] eqn:E; [|exact Hl].
      change (forallb no_let (tr ++ concat (gen_elems e m (S n) l)) = true).
      by rewrite forallb_app, (IH t ltac:(by left) Hr1 _ _ _ E). }
    specialize (Hgo 0%nat). destruct (gen_elems e m 0%nat l); [done|]. by injection H as <-.
  - by apply fmap_Some in H as (x & _ & ->).
  - by apply fmap_Some in H as (x & _ & ->).
  - apply fmap_Some in H as (x & H & _). cbn in Hr. by rewrite (gen_some_traced _ _ _ _ H) in Hr.
  - done.
Qed.
Lemma gen_reference t e m ss : gen_trace_for_type (TReference t) e m = Some ss -> ref_free (TReference t) = false.
Proof. intros H%gen_some_traced. cbn in *. by rewrite H. Qed.

(** The main lemma: code for a place [e] of the type, reached through references and
    boxes, calls the method on every managed pointer, in order. *)
Definition calls (m : string) (l : list nat) : list (string * nat) := (m,.) <$> l.
Definition exact (ty : Type_) : Prop := forall F Fv G R e m ss tw w v,
  gen_trace_for_type ty e m = Some ss -> ref_free ty = true ->
  typeof F G e = Some tw -> eval Fv R e = Some w -> peels ty v tw w -> has_type ty v = true ->
  check_block F G ss = true -> exec_block Fv R ss = Some (calls m (pointers ty v)).

Lemma exec_one F R s c : no_let s = true -> exec F R s = Some c -> exec_block F R [s] = Some c.
Proof. intros Hn E. rewrite exec_cons, E by done. cbn. by rewrite app_nil_r. Qed.
(** Code for a name that a pattern bound to a reference. *)
Lemma exact_bound t F Fv G R x m tr v : exact t -> gen_trace_for_type t (EVar x) m = Some tr ->
  ref_free t = true -> has_type t v = true -> check_block F ((x, TReference t) :: G) tr = true ->
  exec_block Fv ((x, VRef v) :: R) tr = Some (calls m (pointers t v)).
Proof.
  intros Ht Hg Hr Hty Hc. eapply (Ht F Fv ((x, TReference t) :: G)); [exact Hg|done| | | |done|done].
  - cbn. by rewrite String.eqb_refl.
  - cbn. by rewrite String.eqb_refl.
  - repeat constructor.
Qed.
(** A loop over a sequence of references. *)
Lemma exec_for_exact t F Fv G R m tr e w vs : exact t -> gen_trace_for_type t (EVar "__inner") m = Some tr ->
  ref_free t = true -> eval Fv R e = Some w -> iter_val w = Some vs -> forallb (has_type t) vs = true ->
  check_block F (("__inner", TReference t) :: G) tr = true ->
  exec_block Fv R [SFor "__inner" e tr] = Some (calls m (concat (map (pointers t) vs))).
Proof.
  intros Ht Hg Hr Hw Hi Hty Hc. apply exec_one; [done|]. rewrite exec_for, Hw. cbn. rewrite Hi. cbn.
  assert (E : mapM (fun v => exec_block Fv (("__inner", VRef v) :: R) tr) vs =
    Some (calls m <$> map (pointers t) vs)).
  { clear Hi. induction vs as [|v vs IH]; [done|]. apply andb_true_iff in Hty as [H1 H2].
    cbn [mapM]. rewrite (exact_bound t F Fv G R _ _ _ v Ht Hg Hr H1 Hc). cbn [mbind option_bind].
    by rewrite (IH H2). }
  rewrite E. cbn. f_equal. clear. induction vs as [|v vs IH]; [done|]. cbn. rewrite IH. unfold calls. by rewrite fmap_app.
Qed.
Lemma exact_option t rest : exact t -> exact (TPath "Option" (AngleBracketed (GType t :: rest))).
Proof.
  intros Ht F Fv G R e m ss tw w v Hg Hr Hte Hev Hp Hty Hc.
  change ((fun t => [SIfSome "__inner" e t]) <$> gen_trace_for_type t (EVar "__inner") m = Some ss) in Hg.
  apply fmap_Some in Hg as (tr & Hg & ->). apply andb_true_iff in Hr as [Hr _].
  rewrite check_cons, check_if, Hte in Hc by done. cbn in Hc. apply andb_true_iff in Hc as [Hc _].
  destruct (peels_strip _ _ _ _ Hp) as [[E1 E2]|(id & args & E & Hb)].
  2:{ rewrite E in Hc. destruct args as [|[|[t'|] rest']|]; try done.
      destruct (box_names _ Hb) as [-> | ->]; done. }
  cbn [strip_refs] in E1. rewrite E1 in Hc. cbn in Hc. apply exec_one; [done|]. rewrite exec_if, Hev. cbn. rewrite E2.
  destruct v as [| |[v|]| | | | |]; try done. by eapply exact_bound.
Qed.
Lemma exact_seq ident t rest : is_seq ident = true -> exact t ->
  exact (TPath ident (AngleBracketed (GType t :: rest))).
Proof.
  intros Hs Ht F Fv G R e m ss tw w v Hg Hr Hte Hev Hp Hty Hc.
  assert (is_managed ident = false /\ (ident =? "Option") = false /\ is_box ident = false) as (E1 & E2 & E3)
    by (unfold is_seq in Hs; rewrite !orb_true_iff, !String.eqb_eq in Hs; by destruct Hs as [[-> | ->]| ->]).
  cbn in Hg, Hty |- *. rewrite E1, E2, Hs in *. apply fmap_Some in Hg as (tr & Hg & ->).
  apply andb_true_iff in Hr as [Hr _]. destruct v as [| | |vs| | | |]; try done.
  rewrite check_cons, check_for, Hte in Hc by done. cbn [mbind option_bind] in Hc. apply andb_true_iff in Hc as [Hc _].
  destruct (iter_elem tw) as [x|] eqn:Ei; [|done]. destruct (peels_iter _ _ _ _ _ Hp Ei) as [[-> ->]|[? _]]; [|done].
  cbn in Ei. rewrite Hs in Ei. injection Ei as <-. by eapply exec_for_exact.
Qed.
Lemma exact_slice t : exact t -> exact (TSlice t).
Proof.
  intros Ht F Fv G R e m ss tw w v Hg Hr Hte Hev Hp Hty Hc. apply fmap_Some in Hg as (tr & Hg & ->).
  destruct v as [| | |vs| | | |]; try done.
  rewrite check_cons, check_for, Hte in Hc by done. cbn [mbind option_bind] in Hc. apply andb_true_iff in Hc as [Hc _].
  destruct (iter_elem tw) as [x|] eqn:Ei; [|done].
  assert (iter_val w = Some vs /\ x = t) as [Hi ->].
  { destruct (peels_iter _ _ _ _ _ Hp Ei) as [[-> ->]|[[= <-] ->]]; [by injection Ei as ->|done]. }
  by eapply exec_for_exact.
Qed.
Lemma exact_array t : exact t -> exact (TArray t).
Proof.
  intros Ht F Fv G R e m ss tw w v Hg Hr Hte Hev Hp Hty Hc. apply fmap_Some in Hg as (tr & Hg & ->).
  destruct v as [| | |vs| | | |]; try done.
  rewrite check_cons, check_for, Hte in Hc by done. cbn [mbind option_bind] in Hc. apply andb_true_iff in Hc as [Hc _].
  destruct (iter_elem tw) as [x|] eqn:Ei; [|done]. destruct (peels_iter _ _ _ _ _ Hp Ei) as [[-> ->]|[? _]]; [|done].
  injection Ei as <-. by eapply exec_for_exact.
Qed.
Lemma exact_box ident t rest : is_box ident = true -> exact t ->
  exact (TPath ident (AngleBracketed (GType t :: rest))).
Proof.
  intros Hb Ht F Fv G R e m ss tw w v Hg Hr Hte Hev Hp Hty Hc.
  assert (is_managed ident = false /\ (ident =? "Option") = false /\ is_seq ident = false) as (E1 & E2 & E3)
    by (by destruct (box_names _ Hb) as [-> | ->]).
  cbn in Hg, Hty |- *. rewrite E1, E2, E3, Hb in *. apply andb_true_iff in Hr as [Hr _].
  destruct v as [| | | |v| | |]; try done.
  destruct (peels_deref _ _ _ _ _ _ Hb Hp) as (tw' & w' & Ed & Hw & Hp').
  eapply (Ht F Fv G R (EDeref e) m ss tw' w' v); try done; cbn; [by rewrite Hte|rewrite Hev; by destruct Hw as [-> | ->]].
Qed.
Lemma exact_managed ident args : is_managed ident = true -> exact (TPath ident args).
Proof.
  intros Hm F Fv G R e m ss tw w v Hg Hr Hte Hev Hp Hty Hc. cbn in Hg, Hty |- *. rewrite Hm in *.
  injection Hg as <-. destruct v; try done. apply exec_one; [done|]. cbn [exec]. rewrite Hev. cbn [mbind option_bind].
  by rewrite (proj2 (peels_autoderef _ _ _ _ Hp)).
Qed.
Lemma exact_result t1 t2 rest : exact t1 -> exact t2 ->
  exact (TPath "Result" (AngleBracketed (GType t1 :: GType t2 :: rest))).
Proof.
  intros Ht1 Ht2 F Fv G R e m ss tw w v Hg Hr Hte Hev Hp Hty Hc. injection Hg as <-.
  apply andb_true_iff in Hr as [Hr1 [Hr2 _]%andb_true_iff].
  rewrite check_cons, check_match, Hte in Hc by done. cbn [fmap option_fmap option_map] in Hc.
  apply andb_true_iff in Hc as [Hc _]. destruct (peels_strip _ _ _ _ Hp) as [[E1 E2]|(id & args & E & Hb)].
  2:{ rewrite E in Hc. destruct args as [|[|[|] [|[|] ?]]|]; try done. by destruct (box_names _ Hb) as [-> | ->]. }
  rewrite E1 in Hc. cbn [strip_refs] in Hc. apply andb_true_iff in Hc as [_ Hc].
  destruct v as [| | | | |ok v| |]; try done. apply exec_one; [done|]. cbn [exec]. rewrite Hev. cbn [mbind option_bind].
  rewrite E2. cbn [strip_val]. cbn in Hc. rewrite !andb_true_iff in Hc. destruct Hc as (Hc1 & Hc2 & _).
  destruct ok; cbn [result_arm].
  - destruct (gen_trace_for_type t1 (EVar "__ok") m) as [tr|] eqn:E; [exact (exact_bound t1 F Fv G R _ _ _ v Ht1 E Hr1 Hty Hc1)|].
    cbn. by rewrite (gen_none _ _ _ _ E).
  - destruct (gen_trace_for_type t1 (EVar "__ok") m);
      (destruct (gen_trace_for_type t2 (EVar "__err") m) as [tr|] eqn:E;
        [exact (exact_bound t2 F Fv G R _ _ _ v Ht2 E Hr2 Hty Hc2)|]; cbn; by rewrite (gen_none _ _ _ _ E)).
Qed.

(** The elements of a tuple, and the fields of a declaration: code for each of a list of
    places, one after the other. *)
Definition gen_places (m : string) (l : list (Type_ * expr)) : list stmt :=
  concat (omap (fun '(t, e) => gen_trace_for_type t e m) l).
Lemma exact_places F Fv G R m (l : list (Type_ * expr)) vs :
  Forall (fun x => exact x.1) l -> Forall (fun x => ref_free x.1 = true) l ->
  Forall2 (fun x v => has_type x.1 v = true /\ exists tw w, typeof F G x.2 = Some tw /\ eval Fv R x.2 = Some w /\
    peels x.1 v tw w) l vs ->
  check_block F G (gen_places m l) = true ->
  exec_block Fv R (gen_places m l) = Some (calls m (concat (zip_with pointers l.*1 vs))).
Proof.
  intros Hx Hr Hv. revert Hx Hr. induction Hv as [|[t e] v l vs (Hty & tw & w & Hte & Hev & Hp) Hv IH]; [done|].
  intros [Ht Hx]%Forall_cons [Hr1 Hr]%Forall_cons Hc. cbn [fst snd] in *.
  destruct (gen_trace_for_type t e m) as [tr|] eqn:E.
  - assert (El : gen_places m ((t, e) :: l) = tr ++ gen_places m l) by (unfold gen_places; cbn; by rewrite E).
    rewrite El in *. pose proof (gen_no_let t Hr1 _ _ _ E) as Hn. rewrite check_app in Hc by done.
    apply andb_true_iff in Hc as [Hc1 Hc2]. cbn. unfold calls. rewrite fmap_app.
    apply exec_app; [done| |by apply IH]. by eapply Ht.
  - assert (El : gen_places m ((t, e) :: l) = gen_places m l) by (unfold gen_places; cbn; by rewrite E).
    rewrite El in *. cbn. rewrite (gen_none _ _ _ _ E). by apply IH.
Qed.
Lemma pointers_tuple l vs : pointers (TTuple l) (VTuple vs) = concat (zip_with pointers l vs).
Proof. revert vs. induction l as [|t l IH]; intros [|v vs]; [done..|]. cbn. by rewrite <- IH. Qed.
Lemma has_type_tuple l vs : has_type (TTuple l) (VTuple vs) = true -> Forall2 (fun t v => has_type t v = true) l vs.
Proof.
  revert vs. induction l as [|t l IH]; intros [|v vs] H; [constructor|done|done|].
  apply andb_true_iff in H as [H1 H2]. constructor; [done|]. by apply IH.
Qed.
Lemma gen_elems_places e m i l : concat (gen_elems e m i l) = gen_places m (imap (fun k t => (t, EIndex e (i + k))) l).
Proof.
  revert i. induction l as [|t l IH]; intros i; [done|]. rewrite imap_cons, Nat.add_0_r.
  rewrite (imap_ext _ (fun k t => (t, EIndex e (S i + k)))) by (intros; cbn; by rewrite Nat.add_succ_r).
  unfold gen_places. cbn. specialize (IH (S i)).
  destruct (gen_trace_for_type t (EIndex e i) m) as [tr|]; [|exact IH]. cbn. f_equal. exact IH.
Qed.
Lemma exact_tuple l : (forall t, t ∈ l -> exact t) -> exact (TTuple l).
Proof.
  intros Hx F Fv G R e m ss tw w v Hg Hr Hte Hev Hp Hty Hc.
  assert (ss = concat (gen_elems e m 0 l)) as ->.
  { change (match gen_elems e m 0%nat l with [] => None | traces => Some (concat traces) end = Some ss) in Hg.
    destruct (gen_elems e m 0 l); [done|by injection Hg]. }
  rewrite gen_elems_places in *. destruct v as [| | | | | |vs|]; try done. destruct (peels_autoderef _ _ _ _ Hp) as [E1 E2].
  rewrite pointers_tuple. set (L := imap (fun k t => (t, EIndex e (0 + k))) l) in *.
  assert (HL : L.*1 = l).
  { apply list_eq. intros i. unfold L. rewrite list_lookup_fmap, list_lookup_imap. by destruct (l !! i). }
  rewrite <- HL. apply has_type_tuple in Hty. apply (exact_places F Fv G R); [..|exact Hc].
  - change (Forall (exact ∘ fst) L). apply Forall_fmap. rewrite HL. by apply Forall_forall.
  - change (Forall ((fun t => ref_free t = true) ∘ fst) L). apply Forall_fmap. rewrite HL. apply Forall_forall.
    intros t Ht. cbn in Hr. rewrite forallb_forall in Hr. by apply Hr, list_elem_of_In.
  - apply Forall2_lookup. intros i. unfold L. rewrite list_lookup_imap.
    rewrite Forall2_lookup in Hty. specialize (Hty i). destruct (l !! i) as [t|] eqn:Et, (vs !! i) as [v|] eqn:Ev;
      inversion Hty as [? ? Hv|]; constructor. split; [exact Hv|]. exists t, v. cbn.
    rewrite Hte, Hev. cbn. rewrite E1, E2. split; [done|]. split; [done|constructor].
Qed.
(** A [Result] alias with fewer arguments: the [match] it gets does not type-check. *)
Lemma exact_alias args : match args with GType _ :: GType _ :: _ => False | _ => True end ->
  exact (TPath "Result" (AngleBracketed args)).
Proof.
  intros Ha F Fv G R e m ss tw w v Hg _ Hte _ Hp _ Hc. exfalso.
  assert (exists arms, ss = [SMatch e arms]) as [arms ->].
  { destruct args as [|[t|] [|[t'|] rest]]; try done; cbn in Hg; injection Hg as <-; by eexists. }
  rewrite check_cons, check_match, Hte in Hc by done. cbn [fmap option_fmap option_map] in Hc.
  apply andb_true_iff in Hc as [Hc _]. destruct (peels_strip _ _ _ _ Hp) as [[E1 _]|(id & args' & E & Hb)].
  - rewrite E1 in Hc. cbn [strip_refs] in Hc. by destruct args as [|[t|] [|[t'|] rest]].
  - rewrite E in Hc. destruct args' as [|[|[|] [|[|] ?]]|]; try done. by destruct (box_names _ Hb) as [-> | ->].
Qed.
Lemma exact_reference t : exact (TReference t).
Proof. intros F Fv G R e m ss tw w v Hg Hr. by rewrite (gen_reference _ _ _ _ Hg) in Hr. Qed.
Lemma gen_exact ty : exact ty.
Proof.
  induction ty as [ident args IH|l IH|t IH|t IH|t IH|] using Type_rec';
    [|by apply exact_tuple|by apply exact_array|by apply exact_slice|apply exact_reference|done].
  destruct (is_managed ident) eqn:E1; [by apply exact_managed|]. destruct (ident =? "Option") eqn:E2.
  { apply String.eqb_eq in E2 as ->. destruct args as [|[|[t|] rest]|]; [done..| |done|done].
    apply exact_option. eapply IH; [done|by left]. }
  destruct (is_seq ident) eqn:E3.
  { destruct args as [|[|[t|] rest]|]; [by intros ? *; cbn; rewrite E1, E2, E3..| | |];
      [|by intros ? *; cbn; rewrite E1, E2, E3..]. apply exact_seq; [done|]. eapply IH; [done|by left]. }
  destruct (is_box ident) eqn:E4.
  { destruct args as [|[|[t|] rest]|]; [by intros ? *; cbn; rewrite E1, E2, E3, E4..| | |];
      [|by intros ? *; cbn; rewrite E1, E2, E3, E4..]. apply exact_box; [done|]. eapply IH; [done|by left]. }
  destruct (ident =? "Result") eqn:E5; [|by intros ? *; cbn; rewrite E1, E2, E3, E4, E5].
  apply String.eqb_eq in E5 as ->. destruct args as [|l|]; [done| |done].
  destruct l as [|[t|] [|[t'|] rest]]; try by apply exact_alias.
  apply exact_result; (eapply IH; [done|]); [by left|right; by left].
Qed.

(** ** Whole declarations *)
Lemma field_lookup {A} (l : list (member * A)) i m a : NoDup l.*1 -> l !! i = Some (m, a) -> field m l = Some a.
Proof.
  revert i. induction l as [|[m' a'] l IH]; intros i; [done|].
  rewrite fmap_cons. intros [Hn Hd]%NoDup_cons. destruct i as [|i]; cbn.
  - intros [= -> ->]. by rewrite decide_True.
  - intros Hi. change (l !! i = Some (m, a)) in Hi. rewrite decide_False; [by eapply IH|]. intros ->. apply Hn.
    apply list_elem_of_lookup. exists i. by rewrite list_lookup_fmap, Hi.
Qed.
Lemma assoc_lookup {A} (l r : list (string * A)) i x a : NoDup l.*1 -> l !! i = Some (x, a) ->
  assoc x (l ++ r) = Some a.
Proof.
  revert i. induction l as [|[y b] l IH]; intros i; [done|].
  rewrite fmap_cons. intros [Hn Hd]%NoDup_cons. destruct i as [|i]; cbn.
  - intros [= -> ->]. by rewrite String.eqb_refl.
  - intros Hi. change (l !! i = Some (x, a)) in Hi. destruct (String.eqb_spec x y) as [->|]; [|by eapply IH]. destruct Hn.
    apply list_elem_of_lookup. exists i. by rewrite list_lookup_fmap, Hi.
Qed.
Lemma assoc_fmap {A B} (f : string -> A -> B) x l :
  assoc x ((fun '(y, a) => (y, f y a)) <$> l) = f x <$> assoc x l.
Proof. induction l as [|[y a] l IH]; [done|]. cbn. by destruct (String.eqb_spec x y) as [->|]. Qed.
Lemma assoc_elem {A} x (l : list (string * A)) a : assoc x l = Some a -> (x, a) ∈ l.
Proof.
  induction l as [|[y b] l IH]; [done|]. cbn. destruct (String.eqb_spec x y) as [->|]; [intros [= ->]; by left|].
  right. auto.
Qed.
Lemma zip_fst {A B} (l : list A) (k : list B) : length l = length k -> (zip l k).*1 = l.
Proof. intros H. apply fst_zip. lia. Qed.

Definition place_of (variant : option string) (x : member * Type_) : Type_ * expr :=
  (x.2, match variant with Some _ => EVar (bound_name x.1) | None => ESelf x.1 end).
Lemma gen_fields_places fields m variant :
  gen_fields_trace fields m variant = gen_places m (place_of variant <$> members fields).
Proof.
  unfold gen_fields_trace, gen_places. f_equal. induction (members fields) as [|[x t] l IH]; [done|].
  cbn. by rewrite IH.
Qed.
(** The fields of a declaration, given where each field is to be found. *)
Lemma fields_exact F Fv G R m variant (fields : Fields) vs :
  forallb (fun x => ref_free x.2) (members fields) = true ->
  has_type (TTuple (members fields).*2) (VTuple vs) = true ->
  (forall i x t v, members fields !! i = Some (x, t) -> vs !! i = Some v ->
     exists tw w, typeof F G (place_of variant (x, t)).2 = Some tw /\
       eval Fv R (place_of variant (x, t)).2 = Some w /\ peels t v tw w) ->
  check_block F G (gen_fields_trace fields m variant) = true ->
  exec_block Fv R (gen_fields_trace fields m variant) =
    Some (calls m (pointers (TTuple (members fields).*2) (VTuple vs))).
Proof.
  intros Hr Hty Hp Hc. rewrite gen_fields_places in *. rewrite pointers_tuple.
  assert (E : (place_of variant <$> members fields).*1 = (members fields).*2) by by rewrite <- list_fmap_compose.
  rewrite <- E. apply has_type_tuple in Hty. apply (exact_places F Fv G R); [..|exact Hc].
  - apply Forall_forall. intros. apply gen_exact.
  - apply Forall_fmap, Forall_forall. intros x Hx. rewrite forallb_forall in Hr. by apply Hr, list_elem_of_In.
  - apply Forall2_lookup. intros i. rewrite list_lookup_fmap. rewrite Forall2_lookup in Hty. specialize (Hty i).
    rewrite list_lookup_fmap in Hty.
    destruct (members fields !! i) as [[x t]|] eqn:Et, (vs !! i) as [v|] eqn:Ev; inversion Hty as [? ? Hv|];
      constructor. split; [exact Hv|]. by eapply Hp.
Qed.
Lemma has_type_length l vs : has_type (TTuple l) (VTuple vs) = true -> length l = length vs.
Proof. intros H%has_type_tuple. by eapply Forall2_length. Qed.

(** The generated arm of a variant. *)
Definition gen_variant (m : string) (x : string) (fields : Fields) : list (member * string) * list stmt :=
  ((fun '(mem, _) => (mem, bound_name mem)) <$> members fields, gen_fields_trace fields m (Some x)).
Lemma gen_enum variants m : gen_body (Enum variants) m =
  Some (BMatch ((fun '(x, fields) => (x, gen_variant m x fields)) <$> variants)).
Proof.
  cbn. do 2 f_equal. apply list_fmap_ext. intros i [x fields] _. unfold gen_variant. by destruct fields.
Qed.
Lemma struct_exact fields m vs : NoDup (members fields).*1 ->
  forallb (fun x => ref_free x.2) (members fields) = true ->
  has_type (TTuple (members fields).*2) (VTuple vs) = true ->
  check_block (members fields) [("guard", guard_ty)] (gen_fields_trace fields m None) = true ->
  exec_block (zip (members fields).*1 vs) [("guard", VRef VOpaque)] (gen_fields_trace fields m None) =
    Some (calls m (pointers (TTuple (members fields).*2) (VTuple vs))).
Proof.
  intros Hnd Hr Hty Hc. eapply fields_exact; [done..| |exact Hc]. intros i x t v Ht Hv.
  exists t, v. cbn. split; [by eapply field_lookup|]. split; [|constructor].
  assert (Hl : length (members fields).*1 = length vs).
  { apply has_type_length in Hty. rewrite length_fmap in Hty. by rewrite length_fmap. }
  apply (field_lookup _ i); [by rewrite zip_fst|]. apply lookup_zip_with_Some. exists x, v.
  split; [done|]. split; [|done]. by rewrite list_lookup_fmap, Ht.
Qed.
Lemma variant_exact fields m x vs : NoDup (bound_name <$> (members fields).*1) ->
  forallb (fun x => ref_free x.2) (members fields) = true ->
  has_type (TTuple (members fields).*2) (VTuple vs) = true ->
  let names := bound_name <$> (members fields).*1 in
  check_block [] (zip names (TReference <$> (members fields).*2) ++ [("guard", guard_ty)])
    (gen_fields_trace fields m (Some x)) = true ->
  exec_block [] (zip names (VRef <$> vs) ++ [("guard", VRef VOpaque)]) (gen_fields_trace fields m (Some x)) =
    Some (calls m (pointers (TTuple (members fields).*2) (VTuple vs))).
Proof.
  intros Hnd Hr Hty names Hc. eapply fields_exact; [done..| |exact Hc]. intros i y t v Ht Hv.
  assert (Hl : length (members fields) = length vs) by (apply has_type_length in Hty; by rewrite length_fmap in Hty).
  exists (TReference t), (VRef v). cbn. split; [|split; [|repeat constructor]].
  - apply (assoc_lookup _ _ i); [by rewrite zip_fst by (unfold names; by rewrite !length_fmap)|]. apply lookup_zip_with_Some.
    exists (bound_name y), (TReference t). split; [done|]. unfold names. by rewrite !list_lookup_fmap, Ht.
  - apply (assoc_lookup _ _ i); [by rewrite zip_fst by (unfold names; by rewrite !length_fmap)|]. apply lookup_zip_with_Some.
    exists (bound_name y), (VRef v). split; [done|]. unfold names. by rewrite !list_lookup_fmap, Ht, Hv.
Qed.
Lemma body_exact data m b dv : gen_body data m = Some b -> data_ref_free data = true ->
  check_body data b = true -> data_has_type data dv = true ->
  exec_body data b dv = Some (calls m (data_pointers data dv)).
Proof.
  intros Hb Hr Hc Hty. destruct data as [fields|variants|]; [|rewrite gen_enum in Hb|done]; injection Hb as <-.
  - destruct dv as [[x|] vs]; [done|]. apply andb_true_iff in Hc as [Hnd Hc]. apply bool_decide_eq_true in Hnd.
    by apply struct_exact.
  - destruct dv as [[x|] vs]; [|done]. apply andb_true_iff in Hc as [_ Hc]. cbn in Hty. unfold data_pointers.
    cbn [exec_body dv_variant dv_fields]. destruct (assoc x variants) as [fields|] eqn:E; [|done].
    pose proof (proj1 (list_elem_of_In _ _) (assoc_elem _ _ _ E)) as Hin. cbn in Hr. rewrite forallb_forall in Hr, Hc.
    specialize (Hr _ Hin). specialize (Hc _ Hin). cbn in Hr, Hc.
    pose proof (assoc_fmap (gen_variant m) x variants) as Ea. rewrite E in Ea. rewrite Ea in Hc |- *.
    cbn [fmap option_fmap option_map gen_variant mbind option_bind] in *.
    assert (En : ((fun '(mem, _) => (mem, bound_name mem)) <$> members fields).*2 = bound_name <$> (members fields).*1).
    { rewrite <- !list_fmap_compose. apply list_fmap_ext. by intros ? []. }
    rewrite En in *. apply andb_true_iff in Hc as [Hnd Hc]. apply bool_decide_eq_true in Hnd. by apply variant_exact.
Qed.

(** ** Which declarations the compiler accepts *)
(** How the code at hand reaches a value: a place of the type, a name bound to a
    reference to it, or a box of it that the code has not dereferenced. *)
Inductive layer := Place | Bound | Boxed (ident : string) (rest : list GenericArgument).
Definition layer_ty (l : layer) (t : Type_) : Type_ :=
  match l with
  | Place => t
  | Bound => TReference t
  | Boxed ident rest => TPath ident (AngleBracketed (GType t :: rest))
  end.
Definition layer_ok (l : layer) : bool := match l with Boxed ident _ => is_box ident | _ => true end.
Definition unboxed (l : layer) : bool := match l with Boxed _ _ => false | _ => true end.
Definition is_place (l : layer) : bool := match l with Place => true | _ => false end.

Fixpoint accepts (l : layer) (t : Type_) : bool :=
  match t with
  | TPath ident arguments =>
      is_managed ident || negb (traced t) ||
      match arguments with
      | AngleBracketed (GType t1 :: rest) =>
          if ident =? "Option" then unboxed l && accepts Bound t1
          else if is_seq ident then is_place l && accepts Bound t1
          else if is_box ident then
            accepts (match l with Place => Place | _ => Boxed ident rest end) t1
          else match rest with GType t2 :: _ => unboxed l && accepts Bound t1 && accepts Bound t2 | _ => false end
      | _ => false
      end
  | TTuple elems => forallb (accepts Place) elems
  | TArray t' => negb (traced t') || is_place l && accepts Bound t'
  | TSlice t' =>
      negb (traced t') ||
      match l with Place => true | Boxed ident _ => ident =? "Box" | Bound => false end && accepts Bound t'
  | TReference t' => negb (traced t')
  | TOther => true
  end.

Lemma untraced_accepts t : ref_free t = true -> traced t = false -> forall l, accepts l t = true.
Proof.
  induction t as [ident args IH|ts IH|t IH|t IH|t IH|] using Type_rec'; intros Hr Ht l; cbn [accepts].
  - rewrite Ht. by rewrite orb_true_r.
  - cbn in Ht, Hr. induction ts as [|t ts IHl]; [done|]. cbn in *. apply andb_true_iff in Hr as [Hr1 Hr2].
    apply orb_false_iff in Ht as [Ht1 Ht2]. rewrite (IH t) by (done || by left). apply IHl; [|done..].
    intros t' Ht'. apply IH. by right.
  - cbn in Ht. by rewrite Ht.
  - cbn in Ht. by rewrite Ht.
  - cbn in Ht. by rewrite Ht.
  - done.
Qed.

Lemma assoc_ne {A} x y (a : A) l : (x =? y) = false -> assoc y ((x, a) :: l) = assoc y l.
Proof. intros H. rewrite String.eqb_sym in H. unfold assoc at 1. by rewrite H. Qed.
Definition accepted (t : Type_) : Prop := forall l F G e m ss, layer_ok l = true ->
  gen_trace_for_type t e m = Some ss -> ref_free t = true -> typeof F G e = Some (layer_ty l t) ->
  is_guard_ref (assoc "guard" G) = true -> check_block F G ss = accepts l t.
Lemma accepted_bound t F G x m tr : (x =? "guard") = false -> accepted t -> gen_trace_for_type t (EVar x) m = Some tr ->
  ref_free t = true -> is_guard_ref (assoc "guard" G) = true ->
  check_block F ((x, TReference t) :: G) tr = accepts Bound t.
Proof.
  intros Hx Ht Hg Hr HG. apply (Ht Bound F _ (EVar x) m); [done..| |by rewrite assoc_ne].
  cbn. by rewrite String.eqb_refl.
Qed.
Lemma strip_box l t : layer_ok l = true -> strip_refs t = t ->
  strip_refs (layer_ty l t) = t /\ unboxed l = true \/
  exists ident rest, l = Boxed ident rest /\ is_box ident = true /\ strip_refs (layer_ty l t) = layer_ty l t.
Proof. destruct l as [| |ident rest]; intros Hl Ht; [by left|by left|]. right. by exists ident, rest. Qed.
Lemma layer_iter l t x : layer_ok l = true -> iter_elem t = Some x ->
  (iter_elem (layer_ty l t) = if is_place l then Some x else None) \/ t = TSlice x.
Proof.
  intros Hl Hi. destruct l as [| |ident rest]; [by left|by left|]. destruct t; try done; cbn in *; [left|left|right; congruence].
  - destruct (box_names _ Hl) as [-> | ->]; done.
  - destruct (box_names _ Hl) as [-> | ->]; done.
Qed.
Lemma check_one F G s : no_let s = true -> check_block F G [s] = check F G s.
Proof. intros H. by rewrite check_cons, andb_true_r. Qed.
Lemma accepted_option t rest : accepted t -> accepted (TPath "Option" (AngleBracketed (GType t :: rest))).
Proof.
  intros Ht l F G e m ss Hl Hg Hr Hte HG. pose proof (gen_some_traced _ _ _ _ Hg) as Htr.
  change ((fun t => [SIfSome "__inner" e t]) <$> gen_trace_for_type t (EVar "__inner") m = Some ss) in Hg.
  apply fmap_Some in Hg as (tr & Hg & ->). apply andb_true_iff in Hr as [Hr _]. cbn [accepts]. rewrite Htr.
  rewrite check_one, check_if, Hte by done. cbn [fmap option_fmap option_map].
  destruct (strip_box l _ Hl (eq_refl (strip_refs (TPath "Option" (AngleBracketed (GType t :: rest))))))
    as [[-> ->]|(id & r & -> & Hb & ->)].
  - cbn. by apply (accepted_bound t F G "__inner" m).
  - cbn. by destruct (box_names _ Hb) as [-> | ->].
Qed.
Lemma accepted_seq ident t rest : is_seq ident = true -> accepted t ->
  accepted (TPath ident (AngleBracketed (GType t :: rest))).
Proof.
  intros Hs Ht l F G e m ss Hl Hg Hr Hte HG. pose proof (gen_some_traced _ _ _ _ Hg) as Htr.
  assert (is_managed ident = false /\ (ident =? "Option") = false /\ is_box ident = false) as (E1 & E2 & E3)
    by (unfold is_seq in Hs; rewrite !orb_true_iff, !String.eqb_eq in Hs; by destruct Hs as [[-> | ->]| ->]).
  cbn [gen_trace_for_type] in Hg. rewrite E1, E2, Hs in Hg. apply fmap_Some in Hg as (tr & Hg & ->).
  apply andb_true_iff in Hr as [Hr _]. cbn [accepts]. rewrite Htr, E1, E2, Hs. cbn [negb orb].
  rewrite check_one, check_for, Hte by done. cbn [mbind option_bind].
  destruct (layer_iter l (TPath ident (AngleBracketed (GType t :: rest))) t Hl) as [-> |?]; [cbn; by rewrite Hs| |done].
  destruct (is_place l); [|done]. by apply (accepted_bound t F G "__inner" m).
Qed.
Lemma accepted_array t : accepted t -> accepted (TArray t).
Proof.
  intros Ht l F G e m ss Hl Hg Hr Hte HG. pose proof (gen_some_traced _ _ _ _ Hg) as Htr. cbn in Htr.
  apply fmap_Some in Hg as (tr & Hg & ->). cbn [accepts]. rewrite Htr. cbn [negb orb].
  rewrite check_one, check_for, Hte by done. cbn [mbind option_bind].
  destruct (layer_iter l (TArray t) t Hl eq_refl) as [-> |?]; [|done].
  destruct (is_place l); [|done]. by apply (accepted_bound t F G "__inner" m).
Qed.
Lemma accepted_slice t : accepted t -> accepted (TSlice t).
Proof.
  intros Ht l F G e m ss Hl Hg Hr Hte HG. pose proof (gen_some_traced _ _ _ _ Hg) as Htr. cbn in Htr.
  apply fmap_Some in Hg as (tr & Hg & ->). cbn [accepts]. rewrite Htr. cbn [negb orb].
  rewrite check_one, check_for, Hte by done. cbn [mbind option_bind].
  destruct l as [| |ident rest]; [by apply (accepted_bound t F G "__inner" m)|done|].
  destruct (box_names _ Hl) as [-> | ->]; [by apply (accepted_bound t F G "__inner" m)|done].
Qed.
Lemma accepted_box ident t rest : is_box ident = true -> accepted t ->
  accepted (TPath ident (AngleBracketed (GType t :: rest))).
Proof.
  intros Hb Ht l F G e m ss Hl Hg Hr Hte HG. pose proof (gen_some_traced _ _ _ _ Hg) as Htr.
  assert (is_managed ident = false /\ (ident =? "Option") = false /\ is_seq ident = false) as (E1 & E2 & E3)
    by (by destruct (box_names _ Hb) as [-> | ->]).
  cbn [gen_trace_for_type] in Hg. rewrite E1, E2, E3, Hb in Hg. apply andb_true_iff in Hr as [Hr _].
  cbn [accepts]. rewrite Htr, E1, E2, E3, Hb. cbn [negb orb].
  eapply Ht; [|exact Hg|done| |done]; [by destruct l|]. cbn [typeof]. rewrite Hte. cbn [mbind option_bind].
  destruct l as [| |id r]; cbn; [by rewrite Hb|done|]. cbn in Hl. by rewrite Hl.
Qed.
Lemma autoderef_layer l t : layer_ok l = true -> autoderef (layer_ty l t) = autoderef t.
Proof. destruct l as [| |ident rest]; cbn; [done..|]. by intros ->. Qed.
Lemma accepted_managed ident args : is_managed ident = true -> accepted (TPath ident args).
Proof.
  intros Hm l F G e m ss Hl Hg Hr Hte HG. cbn in Hg. rewrite Hm in Hg. injection Hg as <-.
  rewrite check_one by done. cbn [check]. rewrite Hte, (autoderef_layer l _ Hl), HG. cbn [accepts]. rewrite Hm.
  assert (E : autoderef (TPath ident args) = TPath ident args).
  { unfold is_managed in Hm. rewrite !orb_true_iff, !String.eqb_eq in Hm.
    destruct args as [|[|[t|] rest]|]; try done. by destruct Hm as [[-> | ->]| ->]. }
  rewrite E. cbn. by rewrite Hm.
Qed.
(** One arm of the match for a [Result]. *)
Definition arm_ok F G t1 t2 (arm : bool * option (string * list stmt)) : bool :=
  match arm.2 with
  | Some (x, ss) => check_block F ((x, TReference (if arm.1 : bool then t1 else t2)) :: G) ss
  | None => true
  end.
Lemma arm_accepted t F G t1 t2 ok x m : (x =? "guard") = false -> accepted t -> ref_free t = true ->
  is_guard_ref (assoc "guard" G) = true -> (if ok : bool then t1 else t2) = t ->
  arm_ok F G t1 t2 (result_arm ok x (gen_trace_for_type t (EVar x) m)) = accepts Bound t.
Proof.
  intros Hx Ht Hr HG E. unfold arm_ok, result_arm. destruct (gen_trace_for_type t (EVar x) m) as [tr|] eqn:Eg; cbn.
  - rewrite E. by apply (accepted_bound t F G x m).
  - symmetry. apply untraced_accepts; [done|]. by eapply gen_untraced.
Qed.
Lemma accepted_result t1 t2 rest : accepted t1 -> accepted t2 ->
  accepted (TPath "Result" (AngleBracketed (GType t1 :: GType t2 :: rest))).
Proof.
  intros Ht1 Ht2 l F G e m ss Hl Hg Hr Hte HG. injection Hg as <-.
  apply andb_true_iff in Hr as [Hr1 [Hr2 _]%andb_true_iff].
  rewrite check_one, check_match, Hte by done. cbn [fmap option_fmap option_map app].
  set (a1 := result_arm true _ _). set (a2 := result_arm false _ _).
  destruct (strip_box l _ Hl (eq_refl (strip_refs (TPath "Result" (AngleBracketed (GType t1 :: GType t2 :: rest))))))
    as [[-> Hu]|(id & r & -> & Hb & ->)].
  - transitivity (arm_ok F G t1 t2 a1 && arm_ok F G t1 t2 a2).
    + cbn [strip_refs]. assert (a1.1 = true /\ a2.1 = false) as [E1 E2]
        by (unfold a1, a2, result_arm; by repeat case_match).
      unfold arm_ok. destruct a1 as [? o1], a2 as [? o2]. cbn in E1, E2. subst. cbn.
      destruct o1 as [[]|], o2 as [[]|]; cbn; by rewrite ?andb_true_r.
    + unfold a1, a2. rewrite (arm_accepted t1), (arm_accepted t2) by done. cbn [accepts]. cbn. by rewrite Hu.
  - cbn. destruct (box_names _ Hb) as [-> | ->]; cbn; by destruct r as [|[]].
Qed.
Lemma accepted_alias args : match args with GType _ :: GType _ :: _ => False | _ => True end ->
  accepted (TPath "Result" (AngleBracketed args)).
Proof.
  intros Ha l F G e m ss Hl Hg _ Hte _. pose proof (gen_some_traced _ _ _ _ Hg) as Htr.
  assert (exists arms, ss = [SMatch e arms]) as [arms ->].
  { destruct args as [|[t|] [|[t'|] rest]]; try done; cbn in Hg; injection Hg as <-; by eexists. }
  rewrite check_one, check_match, Hte by done. cbn [fmap option_fmap option_map accepts]. rewrite Htr. cbn [negb orb].
  destruct (strip_box l _ Hl (eq_refl (strip_refs (TPath "Result" (AngleBracketed args)))))
    as [[-> Hu]|(id & r & -> & Hb & ->)].
  - cbn [strip_refs]. by destruct args as [|[t|] [|[t'|] rest]].
  - cbn. destruct (box_names _ Hb) as [-> | ->]; destruct r as [|[]]; cbn; by repeat case_match.
Qed.
(** A list of places. *)
Lemma accepted_places F G m (l : list (Type_ * expr)) :
  Forall (fun x => accepted x.1) l -> Forall (fun x => ref_free x.1 = true) l ->
  is_guard_ref (assoc "guard" G) = true -> forall ly, layer_ok ly = true ->
  Forall (fun x => typeof F G x.2 = Some (layer_ty ly x.1)) l ->
  check_block F G (gen_places m l) = forallb (fun x => accepts ly x.1) l.
Proof.
  intros Hx Hr HG ly Hly. revert Hx Hr. induction l as [|[t e] l IH]; [done|].
  intros [Ht Hx]%Forall_cons [Hr1 Hr]%Forall_cons [Hte Hty]%Forall_cons. cbn [fst snd forallb] in *.
  destruct (gen_trace_for_type t e m) as [tr|] eqn:E.
  - assert (El : gen_places m ((t, e) :: l) = tr ++ gen_places m l) by (unfold gen_places; cbn; by rewrite E).
    rewrite El, check_app by (by eapply gen_no_let). f_equal; [by eapply Ht|by apply IH].
  - assert (El : gen_places m ((t, e) :: l) = gen_places m l) by (unfold gen_places; cbn; by rewrite E).
    rewrite El, untraced_accepts by (done || by eapply gen_untraced). by apply IH.
Qed.
Lemma accepted_tuple l : (forall t, t ∈ l -> accepted t) -> accepted (TTuple l).
Proof.
  intros Hx ly F G e m ss Hl Hg Hr Hte HG.
  assert (ss = concat (gen_elems e m 0 l)) as ->.
  { change (match gen_elems e m 0%nat l with [] => None | traces => Some (concat traces) end = Some ss) in Hg.
    destruct (gen_elems e m 0 l); [done|by injection Hg]. }
  rewrite gen_elems_places. set (L := imap (fun k t => (t, EIndex e (0 + k))) l).
  assert (HL : L.*1 = l).
  { apply list_eq. intros i. unfold L. rewrite list_lookup_fmap, list_lookup_imap. by destruct (l !! i). }
  rewrite (accepted_places F G m L) with (ly := Place); [| | |done|done|].
  - transitivity (forallb (accepts Place) L.*1); [|by rewrite HL]. clear.
    induction L as [|[t e'] L IH]; [done|]. cbn [forallb]. by rewrite IH.
  - change (Forall (accepted ∘ fst) L). apply Forall_fmap. rewrite HL. by apply Forall_forall.
  - change (Forall ((fun t => ref_free t = true) ∘ fst) L). apply Forall_fmap. rewrite HL. apply Forall_forall.
    intros t Ht. cbn in Hr. rewrite forallb_forall in Hr. by apply Hr, list_elem_of_In.
  - apply Forall_lookup. intros i [t e'] Hi. unfold L in Hi. rewrite list_lookup_imap in Hi.
    destruct (l !! i) as [t'|] eqn:E; [|done]. injection Hi as -> <-. cbn. rewrite Hte. cbn.
    by rewrite (autoderef_layer ly _ Hl).
Qed.
Lemma accepted_reference t : accepted (TReference t).
Proof. intros l F G e m ss _ Hg Hr. by rewrite (gen_reference _ _ _ _ Hg) in Hr. Qed.
Lemma accepted_all t : accepted t.
Proof.
  induction t as [ident args IH|l IH|t IH|t IH|t IH|] using Type_rec';
    [|by apply accepted_tuple|by apply accepted_array|by apply accepted_slice|apply accepted_reference|done].
  destruct (is_managed ident) eqn:E1; [by apply accepted_managed|]. destruct (ident =? "Option") eqn:E2.
  { apply String.eqb_eq in E2 as ->. destruct args as [|[|[t|] rest]|]; [done..| |done|done].
    apply accepted_option. eapply IH; [done|by left]. }
  destruct (is_seq ident) eqn:E3.
  { destruct args as [|[|[t|] rest]|]; [by intros ? *; cbn; rewrite E1, E2, E3..| | |];
      [|by intros ? *; cbn; rewrite E1, E2, E3..]. apply accepted_seq; [done|]. eapply IH; [done|by left]. }
  destruct (is_box ident) eqn:E4.
  { destruct args as [|[|[t|] rest]|]; [by intros ? *; cbn; rewrite E1, E2, E3, E4..| | |];
      [|by intros ? *; cbn; rewrite E1, E2, E3, E4..]. apply accepted_box; [done|]. eapply IH; [done|by left]. }
  destruct (ident =? "Result") eqn:E5; [|by intros ? *; cbn; rewrite E1, E2, E3, E4, E5].
  apply String.eqb_eq in E5 as ->. destruct args as [|l|]; [done| |done].
  destruct l as [|[t|] [|[t'|] rest]]; try by apply accepted_alias.
  apply accepted_result; (eapply IH; [done|]); [by left|right; by left].
Qed.
Lemma fields_accepted F G m variant (fields : Fields) ly : layer_ok ly = true ->
  forallb (fun x => ref_free x.2) (members fields) = true -> is_guard_ref (assoc "guard" G) = true ->
  (forall i x t, members fields !! i = Some (x, t) ->
     typeof F G (place_of variant (x, t)).2 = Some (layer_ty ly t)) ->
  check_block F G (gen_fields_trace fields m variant) = forallb (accepts ly) (members fields).*2.
Proof.
  intros Hly Hr HG Hp. rewrite gen_fields_places, (accepted_places F G m _) with (ly := ly); [| | |done|done|].
  - clear. induction (members fields) as [|[x t] l IH]; [done|]. cbn [fmap list_fmap forallb]. by f_equal.
  - apply Forall_forall. intros. apply accepted_all.
  - apply Forall_fmap, Forall_forall. intros x Hx. rewrite forallb_forall in Hr. by apply Hr, list_elem_of_In.
  - apply Forall_fmap, Forall_lookup. intros i [x t] Hi. by eapply Hp.
Qed.

(** What the compiler accepts, read off the declaration. *)
Definition data_accepts (data : Data) : bool :=
  match data with
  | Struct fields => forallb (accepts Place) (members fields).*2
  | Enum variants => bool_decide (variants <> []) && forallb (fun x => forallb (accepts Bound) (members x.2).*2) variants
  | Union => false
  end.
(** The names of the fields are distinct, as the compiler requires of the declaration,
    and no variant has a field named like the parameter [guard]. *)
Definition data_names_ok (data : Data) : bool :=
  match data with
  | Struct fields => bool_decide (NoDup (members fields).*1)
  | Enum variants =>
      bool_decide (NoDup variants.*1) &&
      forallb (fun x => bool_decide (NoDup (bound_name <$> (members x.2).*1)) &&
                        bool_decide ("guard" ∉ (bound_name <$> (members x.2).*1))) variants
  | Union => true
  end.

Lemma assoc_app_ne {A} x (l r : list (string * A)) : x ∉ l.*1 -> assoc x (l ++ r) = assoc x r.
Proof.
  induction l as [|[y a] l IH]; [done|]. rewrite fmap_cons, not_elem_of_cons. intros [Hne Hn]. cbn [app assoc].
  cbn [fst] in Hne. destruct (String.eqb_spec x y); [done|]. by apply IH.
Qed.
Lemma forallb_ext_elem {A} (f g : A -> bool) l : (forall x, x ∈ l -> f x = g x) -> forallb f l = forallb g l.
Proof.
  induction l as [|x l IH]; intros H; [done|]. cbn. rewrite (H x) by by left. f_equal. apply IH. intros y Hy. apply H. by right.
Qed.
Lemma variant_accepted fields m x : forallb (fun x => ref_free x.2) (members fields) = true ->
  let names := bound_name <$> (members fields).*1 in
  NoDup names -> "guard" ∉ names ->
  check_block [] (zip names (TReference <$> (members fields).*2) ++ [("guard", guard_ty)])
    (gen_fields_trace fields m (Some x)) = forallb (accepts Bound) (members fields).*2.
Proof.
  intros Hr names Hnd Hg. apply (fields_accepted _ _ _ _ _ Bound); [done|done| |].
  - rewrite assoc_app_ne; [done|]. by rewrite zip_fst by (unfold names; by rewrite !length_fmap).
  - intros i y t Hi. cbn. apply (assoc_lookup _ _ i); [by rewrite zip_fst by (unfold names; by rewrite !length_fmap)|].
    apply lookup_zip_with_Some. exists (bound_name y), (TReference t). split; [done|]. unfold names.
    by rewrite !list_lookup_fmap, Hi.
Qed.
Lemma body_accepts data m b : gen_body data m = Some b -> data_ref_free data = true -> data_names_ok data = true ->
  check_body data b = data_accepts data.
Proof.
  intros Hb Hr Hn. destruct data as [fields|variants|]; [|rewrite gen_enum in Hb|done]; injection Hb as <-; cbn in *.
  - rewrite Hn. apply bool_decide_eq_true in Hn. apply (fields_accepted _ _ _ _ _ Place); [done..|].
    intros i x t Hi. by eapply field_lookup.
  - f_equal. apply andb_true_iff in Hn as [Hnd Hn]. apply bool_decide_eq_true in Hnd. rewrite forallb_forall in Hn, Hr.
    apply forallb_ext_elem. intros [x fields] Hin. pose proof (proj1 (list_elem_of_In _ _) Hin) as Hin'.
    specialize (Hr _ Hin'). specialize (Hn _ Hin'). cbn in Hr, Hn. apply andb_true_iff in Hn as [Hn Hg].
    apply bool_decide_eq_true in Hn, Hg. apply list_elem_of_lookup in Hin as [i Hi].
    pose proof (assoc_fmap (gen_variant m) x variants) as Ea. rewrite <- (app_nil_r variants) in Ea at 2.
    rewrite (assoc_lookup _ _ _ _ _ Hnd Hi) in Ea. rewrite Ea. cbn [fmap option_fmap option_map gen_variant].
    assert (En : ((fun '(mem, _) => (mem, bound_name mem)) <$> members fields).*2 = bound_name <$> (members fields).*1).
    { rewrite <- !list_fmap_compose. apply list_fmap_ext. by intros ? []. }
    rewrite En, bool_decide_eq_true_2 by done. by apply variant_accepted.
Qed.

(** C21. The methods the derive macro generates visit what they should: for every declaration without
    references to types with managed pointers whose generated code the compiler accepts, and every value of the type, [unroot_outgoings]
    and [shade_outgoings] call their method on each managed pointer of the value once, in order. *)
Theorem derive_exact data u s dv : derive_trace_obj data = Some (u, s) -> data_ref_free data = true ->
  check_body data u = true -> check_body data s = true -> data_has_type data dv = true ->
  exec_body data u dv = Some (calls "unroot" (data_pointers data dv)) /\
  exec_body data s dv = Some (calls "shade" (data_pointers data dv)).
Proof.
  unfold derive_trace_obj. intros H Hr Hu Hs Hty.
  destruct (gen_body data "unroot") as [u'|] eqn:Eu; [|done]. destruct (gen_body data "shade") as [s'|] eqn:Es; [|done].
  injection H as -> ->. split; by apply body_exact.
Qed.
(** C39. No enum with a collection of managed pointers in a variant compiles, whatever the collection and
    however the pointers are nested in its elements; the documentation promises both enums and collections. *)
Theorem derive_enum_collections variants m b x fields ident t rest :
  gen_body (Enum variants) m = Some b ->
  data_ref_free (Enum variants) = true -> data_names_ok (Enum variants) = true ->
  (x, fields) ∈ variants -> TPath ident (AngleBracketed (GType t :: rest)) ∈ (members fields).*2 ->
  is_seq ident = true -> traced t = true -> check_body (Enum variants) b = false.
Proof.
  intros Hb Hr Hn Hx Hf Hs Ht. rewrite (body_accepts _ _ _ Hb Hr Hn). cbn [data_accepts].
  apply andb_false_iff. right. apply not_true_iff_false. rewrite forallb_forall. intros H.
  apply list_elem_of_In, H in Hx. cbn in Hx. rewrite forallb_forall in Hx. apply list_elem_of_In, Hx in Hf.
  unfold is_seq in Hs. rewrite !orb_true_iff, !String.eqb_eq in Hs.
  destruct Hs as [[-> | ->]| ->]; cbn in Hf; by rewrite Ht in Hf.
Qed.

(** ** Examples *)
Definition Leaf : GenericArgument := GType (TPath "Leaf" NoArguments).
Definition ty1 (x : string) (t : GenericArgument) : Type_ := TPath x (AngleBracketed [t]).
Definition sh : Type_ := ty1 "Shared" Leaf.
(** [struct S { a: Option<Shared<Leaf>>, n: usize, b: Vec<(Shared<Leaf>, Box<Shared<Leaf>>)>, c: Arc<\[Shared<Leaf>\]> }] *)
Definition sample_struct : Data := Struct (Named
  [("a", ty1 "Option" (GType sh)); ("n", TPath "usize" NoArguments);
   ("b", ty1 "Vec" (GType (TTuple [sh; ty1 "Box" (GType sh)]))); ("c", ty1 "Arc" (GType (TSlice sh)))]).
Definition sample_value : data_val := mkDV None
  [VOption (Some (VPtr 1)); VOpaque; VSeq [VTuple [VPtr 2; VBox (VPtr 3)]; VTuple [VPtr 4; VBox (VPtr 5)]];
   VBox (VSeq [VPtr 6])].
Lemma derive_exact_witness : exists u s, derive_trace_obj sample_struct = Some (u, s) /\
  exec_body sample_struct u sample_value = Some (calls "unroot" [1; 2; 3; 4; 5; 6]%nat).
Proof.
  eexists _, _. split; [reflexivity|].
  exact (proj1 (derive_exact sample_struct _ _ sample_value eq_refl eq_refl eq_refl eq_refl eq_refl)).
Defined.
(** [enum E { A { items: Vec<Shared<Leaf>> } }] *)
Definition sample_enum_vec : Data := Enum [("A", Named [("items", ty1 "Vec" (GType sh))])].
Lemma derive_enum_collections_witness : exists b, gen_body sample_enum_vec "unroot" = Some b /\
  check_body sample_enum_vec b = false.
Proof.
  eexists. split; [reflexivity|].
  apply (derive_enum_collections [("A", Named [("items", ty1 "Vec" (GType sh))])] "unroot" _ "A"
    (Named [("items", ty1 "Vec" (GType sh))]) "Vec" sh []); try reflexivity; by left.
Defined.

(** ** References to managed pointers *)
Lemma trace_ptr_autoderef t : has_trace_ptr t = true -> autoderef t = t.
Proof.
  destruct t as [ident args| | | | |]; try done. cbn. unfold is_managed. rewrite !orb_true_iff, !String.eqb_eq. intros Hm.
  destruct args as [|[|[t|] rest]|]; try done. by destruct Hm as [[-> | ->]| ->].
Qed.
(** The code for the elements of a tuple, all managed pointers, from the [i]th on. *)
Definition elem_calls (e : expr) (m : string) (i n : nat) : list stmt := (fun k => SCall (EIndex e k) m) <$> seq i n.
Lemma gen_elems_managed e m i ts : forallb has_trace_ptr ts = true -> concat (gen_elems e m i ts) = elem_calls e m i (length ts).
Proof.
  revert i. induction ts as [|t ts IH]; intros i; [done|]. intros [Ht Hts]%andb_true_iff.
  destruct t as [ident args| | | | |]; try done. cbn in Ht |- *. rewrite Ht. cbn. by rewrite IH.
Qed.
Lemma gen_tuple_managed ts e m : (0 < length ts)%nat -> forallb has_trace_ptr ts = true ->
  gen_trace_for_type (TTuple ts) e m = Some (elem_calls e m 0 (length ts)).
Proof.
  intros Hn Hts. rewrite <- gen_elems_managed by done.
  change (match gen_elems e m 0%nat ts with [] => None | traces => Some (concat traces) end = Some (concat (gen_elems e m 0 ts))).
  destruct ts as [|[ident args| | | | |] ts]; try done; [cbn in Hn; lia|]. cbn in Hts |- *. apply andb_true_iff in Hts as [-> _]. done.
Qed.
Lemma gen_reference_managed ts e m : (0 < length ts)%nat -> forallb has_trace_ptr ts = true ->
  gen_trace_for_type (TReference (TTuple ts)) e m = Some (SLet "__inner" e :: elem_calls (EVar "__inner") m 0 (length ts)).
Proof.
  intros Hn Hts. change ((fun t => SLet "__inner" e :: t) <$> gen_trace_for_type (TTuple ts) (EVar "__inner") m =
    Some (SLet "__inner" e :: elem_calls (EVar "__inner") m 0 (length ts))). by rewrite gen_tuple_managed.
Qed.
Lemma check_elem_calls F G e m t ts i n : typeof F G e = Some t -> autoderef t = TTuple ts -> forallb has_trace_ptr ts = true ->
  is_guard_ref (assoc "guard" G) = true -> (i + n <= length ts)%nat -> check_block F G (elem_calls e m i n) = true.
Proof.
  intros He Ht Hts HG. revert i. induction n as [|n IH]; intros i Hi; [done|]. cbn [elem_calls fmap list_fmap seq].
  rewrite check_cons by done. cbn [check typeof]. rewrite He. cbn [mbind option_bind]. rewrite Ht.
  destruct (lookup_lt_is_Some_2 ts i ltac:(lia)) as [ti Hti]. rewrite Hti.
  assert (Hp : has_trace_ptr ti = true). { rewrite forallb_forall in Hts. by eapply Hts, list_elem_of_In, list_elem_of_lookup_2. }
  rewrite trace_ptr_autoderef, Hp, HG by done. apply IH. lia.
Qed.
Lemma exec_elem_calls F R e m w cs i n : eval F R e = Some w -> autoderef_val w = VTuple (VPtr <$> cs) -> (i + n <= length cs)%nat ->
  exec_block F R (elem_calls e m i n) = Some (calls m (firstn n (drop i cs))).
Proof.
  intros He Hw. revert i. induction n as [|n IH]; intros i Hi; [done|]. cbn [elem_calls fmap list_fmap seq].
  rewrite exec_cons by done. cbn [exec eval]. rewrite He. cbn [mbind option_bind]. rewrite Hw, list_lookup_fmap.
  destruct (lookup_lt_is_Some_2 cs i ltac:(lia)) as [c Hc]. rewrite Hc. cbn [fmap option_fmap option_map mbind option_bind autoderef_val].
  change ((fun k => SCall (EIndex e k) m) <$> seq (S i) n) with (elem_calls e m (S i) n). rewrite IH by lia. cbn [mbind option_bind].
  by rewrite (drop_S _ c i) by done.
Qed.
Lemma has_type_managed ts cs : forallb has_trace_ptr ts = true -> length cs = length ts ->
  has_type (TTuple ts) (VTuple (VPtr <$> cs)) = true.
Proof.
  revert cs. induction ts as [|t ts IH]; intros [|c cs]; try done. intros [Ht Hts]%andb_true_iff [= Hl].
  destruct t as [ident args| | | | |]; try done. cbn in Ht |- *. rewrite Ht. by apply IH.
Qed.
Lemma pointers_managed ts cs : forallb has_trace_ptr ts = true -> length cs = length ts ->
  pointers (TTuple ts) (VTuple (VPtr <$> cs)) = cs.
Proof.
  revert cs. induction ts as [|t ts IH]; intros [|c cs]; try done. intros [Ht Hts]%andb_true_iff [= Hl].
  destruct t as [ident args| | | | |]; try done. cbn in Ht |- *. rewrite Ht. cbn. f_equal. by apply IH.
Qed.
(** [struct { x: Option<(&(ts), us)> }] and its value [Some((&cs, ds))]. *)
Definition ref_struct (x : string) (ts us : list Type_) : Data :=
  Struct (Named [(x, ty1 "Option" (GType (TTuple (TReference (TTuple ts) :: us))))]).
Definition ref_value (cs ds : list nat) : data_val :=
  mkDV None [VOption (Some (VTuple (VRef (VTuple (VPtr <$> cs)) :: (VPtr <$> ds))))].
Definition ref_code (x m : string) (n k : nat) : body :=
  BBlock [SIfSome "__inner" (ESelf (MName x))
    (SLet "__inner" (EIndex (EVar "__inner") 0) :: elem_calls (EVar "__inner") m 0 n ++ elem_calls (EVar "__inner") m 1 k)].
Lemma gen_ref_struct x m ts us : (0 < length ts)%nat -> forallb has_trace_ptr ts = true -> forallb has_trace_ptr us = true ->
  gen_body (ref_struct x ts us) m = Some (ref_code x m (length ts) (length us)).
Proof.
  intros Hn Hts Hus. unfold gen_body, ref_struct, ref_code. do 2 f_equal. unfold gen_fields_trace. cbn [members fmap list_fmap omap list_omap].
  assert (E : gen_trace_for_type (TTuple (TReference (TTuple ts) :: us)) (EVar "__inner") m =
    Some (SLet "__inner" (EIndex (EVar "__inner") 0) :: elem_calls (EVar "__inner") m 0 (length ts) ++ elem_calls (EVar "__inner") m 1 (length us))).
  { rewrite <- (gen_elems_managed (EVar "__inner") m 1 us) by done.
    change (match option_list (gen_trace_for_type (TReference (TTuple ts)) (EIndex (EVar "__inner") 0) m) ++ gen_elems (EVar "__inner") m 1 us with
      [] => None | traces => Some (concat traces) end = Some ((SLet "__inner" (EIndex (EVar "__inner") 0) :: elem_calls (EVar "__inner") m 0 (length ts)) ++ concat (gen_elems (EVar "__inner") m 1 us))).
    by rewrite gen_reference_managed. }
  change (concat (option_list ((fun t => [SIfSome "__inner" (ESelf (MName x)) t]) <$> gen_trace_for_type (TTuple (TReference (TTuple ts) :: us)) (EVar "__inner") m)) =
    [SIfSome "__inner" (ESelf (MName x)) (SLet "__inner" (EIndex (EVar "__inner") 0) :: elem_calls (EVar "__inner") m 0 (length ts) ++ elem_calls (EVar "__inner") m 1 (length us))]).
  rewrite E. done.
Qed.
Lemma elem_calls_no_let e m i n : forallb no_let (elem_calls e m i n) = true.
Proof. revert i. induction n as [|n IH]; intros i; [done|]. exact (IH (S i)). Qed.
Lemma field_here {A} x (a : A) : field (MName x) [(MName x, a)] = Some a.
Proof. cbn. by rewrite decide_True. Qed.
(** What follows the [let]: the name [__inner] is the reference, not the tuple. *)
Lemma check_ref_code F G ts us m : (length us < length ts)%nat -> forallb has_trace_ptr ts = true ->
  is_guard_ref (assoc "guard" G) = true ->
  check_block F (("__inner", TReference (TTuple (TReference (TTuple ts) :: us))) :: G)
    (SLet "__inner" (EIndex (EVar "__inner") 0) :: elem_calls (EVar "__inner") m 0 (length ts) ++ elem_calls (EVar "__inner") m 1 (length us)) = true.
Proof.
  intros Hl Hts HG. set (G2 := ("__inner", TReference (TReference (TTuple ts))) :: ("__inner", TReference (TTuple (TReference (TTuple ts) :: us))) :: G).
  change (check_block F G2 (elem_calls (EVar "__inner") m 0 (length ts) ++ elem_calls (EVar "__inner") m 1 (length us)) = true).
  rewrite check_app by apply elem_calls_no_let. apply andb_true_iff.
  split; apply (check_elem_calls F G2 _ m (TReference (TReference (TTuple ts))) ts); (done || lia).
Qed.
Lemma exec_ref_code F R cs ds m n : (length ds < length cs)%nat -> n = length cs ->
  exec_block F (("__inner", VRef (VTuple (VRef (VTuple (VPtr <$> cs)) :: (VPtr <$> ds)))) :: R)
    (SLet "__inner" (EIndex (EVar "__inner") 0) :: elem_calls (EVar "__inner") m 0 n ++ elem_calls (EVar "__inner") m 1 (length ds)) =
  Some (calls m (cs ++ firstn (length ds) (drop 1 cs))).
Proof.
  intros Hl ->. set (w := VRef (VRef (VTuple (VPtr <$> cs)))).
  set (R2 := ("__inner", w) :: ("__inner", VRef (VTuple (VRef (VTuple (VPtr <$> cs)) :: (VPtr <$> ds)))) :: R).
  change (exec_block F R2 (elem_calls (EVar "__inner") m 0 (length cs) ++ elem_calls (EVar "__inner") m 1 (length ds)) =
    Some (calls m (cs ++ firstn (length ds) (drop 1 cs)))).
  unfold calls. rewrite fmap_app. apply exec_app; [apply elem_calls_no_let| |].
  - rewrite (exec_elem_calls F R2 _ m w cs) by (done || lia). by rewrite drop_0, firstn_all.
  - apply (exec_elem_calls F R2 _ m w cs); (done || lia).
Qed.

(** C40. A reference inside a wrapper breaks the generated code: its [let __inner] hides the [__inner] of the
    enclosing pattern from the elements that follow.  Take an [Option] of a tuple that has a reference to a tuple
    of managed pointers [ts] and then fewer managed pointers [us].  The code for the declaration compiles for either
    method, and on every value [Some((&cs, ds))] it calls the method on the pointers [cs] behind the reference, and
    then, in place of those of [ds], a second time on as many of [cs]; it never reads [ds]. *)
Theorem derive_reference_shadows x m ts us cs ds : (length us < length ts)%nat ->
  forallb has_trace_ptr ts = true -> forallb has_trace_ptr us = true -> length cs = length ts -> length ds = length us ->
  let data := ref_struct x ts us in let dv := ref_value cs ds in
  exists b, gen_body data m = Some b /\ check_body data b = true /\ data_has_type data dv = true /\
    data_pointers data dv = cs ++ ds /\
    exec_body data b dv = Some (calls m (cs ++ firstn (length ds) (drop 1 cs))).
Proof.
  intros Hl Hts Hus Hcs Hds data dv. exists (ref_code x m (length ts) (length us)).
  split; [apply gen_ref_struct; (done || lia)|]. split; [|split; [|split]].
  - apply andb_true_iff. split; [apply bool_decide_eq_true, NoDup_singleton|]. cbn [check_block].
    rewrite check_if. cbn [typeof members fmap list_fmap]. rewrite field_here. cbn [fmap option_fmap option_map strip_refs ty1 String.eqb Ascii.eqb Bool.eqb andb].
    by rewrite check_ref_code.
  - pose proof (has_type_managed ts cs Hts Hcs) as H1. pose proof (has_type_managed us ds Hus Hds) as H2.
    change (has_type (TTuple ts) (VTuple (VPtr <$> cs)) && has_type (TTuple us) (VTuple (VPtr <$> ds)) && true = true).
    by rewrite H1, H2.
  - change ((pointers (TTuple ts) (VTuple (VPtr <$> cs)) ++ pointers (TTuple us) (VTuple (VPtr <$> ds))) ++ [] = cs ++ ds).
    by rewrite app_nil_r, !pointers_managed.
  - cbn [exec_body data ref_struct ref_code dv ref_value dv_variant dv_fields members fmap list_fmap fst zip_with].
    apply exec_one; [done|]. rewrite exec_if. cbn [eval]. rewrite field_here. cbn [mbind option_bind strip_val].
    rewrite <- Hds. apply exec_ref_code; [lia|done].
Qed.
(** [struct R { a: Option<(&'static (Shared<Leaf>, Shared<Leaf>), Shared<Leaf>)> }] *)
Lemma derive_reference_shadows_witness : exists b, gen_body (ref_struct "a" [sh; sh] [sh]) "unroot" = Some b /\
  data_pointers (ref_struct "a" [sh; sh] [sh]) (ref_value [1; 2] [3])%nat = [1; 2; 3]%nat /\
  exec_body (ref_struct "a" [sh; sh] [sh]) b (ref_value [1; 2] [3])%nat = Some (calls "unroot" [1; 2; 2]%nat).
Proof.
  destruct (derive_reference_shadows "a" "unroot" [sh; sh] [sh] [1; 2]%nat [3]%nat ltac:(cbn; lia) eq_refl eq_refl eq_refl eq_refl)
    as (b & E & _ & _ & Ep & Ex).
  exists b. split; [exact E|]. split; [exact Ep|exact Ex].
Defined.
