(* ===== verification/Instances.v ===== *)
(** * Concrete instances

    An instance of what the crate takes from outside, a small heap in the middle of
    a root-tracing phase, and the theorems of the heap and of the collector applied
    to it. *)
From S2P Require Import Prelude Prog Epoch Meta Slots Registry State Heap Marking Participant Guards Pointers.
From S2P Require Import Collector Stats Barriers Iter Total Tasks Tracing Safety Completion Sweep TraceInv Roots Cycle.
#[local] Open Scope Z_scope.

(** ** The outside: objects aligned to 16 bytes, a counter for a generator, a deque
    that gives one task at a time, a hundred addresses *)
#[export] Instance sample_layout : Layout := {| align_log := 4; align_log_ok := ltac:(lia) |}.
Definition sample_steal {X} (src dest : list X) (_ : nat) : steal_result X :=
  match src with [] => SEmpty | x :: src' => SSuccess x src' dest end.
Definition sample_alloc (used : gset Z) : option Z :=
  snd <$> list_find (fun a => a ∉ used) ((fun k => Z.of_nat k * 16) <$> seq 1 100).
Definition sample_type_hash (t : nat) : Z := Z.of_nat (t mod 4).

Lemma sample_usize_lt r n : (0 < n)%nat -> ((r mod n, S r).1 < n)%nat.
Proof. intros H. simpl. apply Nat.mod_upper_bound. lia. Qed.
Lemma sample_steal_not_empty X (src dest : list X) n : src <> [] -> sample_steal src dest n <> SEmpty.
Proof. by destruct src. Qed.
Lemma sample_steal_perm X (src dest : list X) n x src' dest' :
  sample_steal src dest n = SSuccess x src' dest' -> Permutation (src ++ dest) (x :: src' ++ dest').
Proof. destruct src; simpl; [done|]. by intros [= -> -> ->]. Qed.
Lemma sample_type_hash_ok t : 0 <= sample_type_hash t < wmod.
Proof.
  unfold sample_type_hash. pose proof (Nat.mod_upper_bound t 4 ltac:(lia)).
  assert (wmod = 18446744073709551616) as -> by reflexivity. lia.
Qed.
Lemma sample_alloc_ok used a : sample_alloc used = Some a ->
  (a ∉ used) /\ exists q, a = q * 2 ^ align_log /\ 0 < q < 2 ^ (62 - align_log).
Proof.
  unfold sample_alloc. intros ([i b] & H & ->)%fmap_Some. apply list_find_Some in H as (H & Hn & _).
  split; [exact Hn|]. apply list_lookup_fmap_Some in H as (k & -> & H). apply lookup_seq in H as [-> H].
  exists (Z.of_nat (1 + i)). split; [reflexivity|]. cbn [align_log sample_layout]. lia.
Qed.

#[export] Instance sample_extern : Extern := {|
  Rng := nat;
  rng_new := 0%nat;
  rng_usize := fun r n => (r mod n, S r)%nat;
  rng_usize_lt := sample_usize_lt;
  rng_shuffle := fun r l => (l, S r);
  rng_shuffle_perm := fun r l => Permutation_refl l;
  steal_batch := @sample_steal;
  steal_empty := fun X dest n => eq_refl;
  steal_not_empty := sample_steal_not_empty;
  steal_perm := sample_steal_perm;
  type_hash := sample_type_hash;
  type_hash_ok := sample_type_hash_ok;
  alloc_addr := sample_alloc;
  alloc_addr_ok := sample_alloc_ok
|}.

(** ** The heap: the white object 16 has the white link 0 to the white object 32,
    which the rooted link 1 also owns; participant 0 is pinned in the root-tracing
    phase. *)
Definition sample_epoch_rt : Epoch := encode (mkA false RT C0 1).
Definition sample_local : local := set_l_epoch (fun _ => pinned sample_epoch_rt) local_default.
Definition sample_hdr (rc : Z) : ObjMeta.hdr := ObjMeta.mkHdr C0 1 rc.
Definition sample_obj (rc : Z) (links : list cell) : obj nat :=
  mkObj (ObjMeta.encode (sample_hdr rc)) 1 16 7%nat links.
Definition sample_link (m : PtrMeta) : ManPtr.ptr := ManPtr.mkP m 2 1.
Definition sample_state : gstate nat :=
  set_g_objs (fun _ => <[16 := sample_obj 0 [0%nat]]> {[32 := sample_obj 1 []]})
    (set_g_cells (fun _ => <[0%nat := ManPtr.encode (sample_link (Unrooted C0))]>
                            {[1%nat := ManPtr.encode (sample_link Rooted)]})
      (set_g_locals (fun _ => mkSlots [mkNode (Some (0, true)%nat) sample_local] 1)
        (set_g_epoch (fun _ => sample_epoch_rt) (set_g_help (fun _ => {[0%nat := false]})
          (global_new None))))).
Definition sample_guard : guard := mkGuard 0 0.

Lemma sample_local_of : local_of sample_state (gd_local sample_guard) = Some sample_local.
Proof. reflexivity. Qed.
Lemma sample_phase_ok : phase_ok sample_local.
Proof. exists RT. reflexivity. Qed.
Lemma sample_phase : phase (g_epoch sample_state) = Ok RT.
Proof. reflexivity. Qed.
Lemma sample_hdr_ok rc : 0 <= rc < 2 ^ 55 -> ObjMeta.hdr_ok (sample_hdr rc).
Proof. intros H. split; [split; vm_compute; congruence|exact H]. Qed.
Lemma sample_points (m : PtrMeta) : points sample_state (sample_link m).
Proof.
  split; [repeat split; vm_compute; congruence|]. intros _. by exists (sample_obj 1 []).
Qed.
Lemma sample_points_16 : points sample_state (ManPtr.mkP Rooted 1 0).
Proof.
  split; [repeat split; vm_compute; congruence|]. intros _. by exists (sample_obj 0 [0%nat]).
Qed.
Lemma sample_null_free : null_free (g_objs sample_state).
Proof. reflexivity. Qed.

(** ** The theorems of the heap on it *)
Lemma obj_mark_spec_witness :
  exists ts cells' s', run (obj_mark 5 16 sample_guard) sample_state = Ok (tt, s') /\
    queued sample_local (g_objs sample_state) [0%nat] (g_cells sample_state) ts /\
    traced sample_guard ts cells'
      (<[16 := blacken_obj sample_local (sample_obj 0 [0%nat])]> (g_objs sample_state)) sample_state s'.
Proof.
  destruct (obj_mark_spec 4 16 sample_guard sample_state sample_local (sample_obj 0 [0%nat]) (sample_hdr 0)
    sample_local_of sample_phase_ok eq_refl (sample_hdr_ok 0 ltac:(lia)) eq_refl)
    as (ts & cells' & s' & E & Ht & _ & Hq & _).
  { intros c Hc. apply list_elem_of_singleton in Hc as ->.
    exists (sample_link (Unrooted C0)), C0. split; [reflexivity|]. split; [apply sample_points|reflexivity]. }
  exists ts, cells', s'. exact (conj E (conj Hq Ht)).
Defined.

Lemma swap_unrooted_witness :
  exists s', run (internal_swap 5 0%nat (ManPtr.encode (ManPtr.mkP Rooted 1 0)) sample_guard) sample_state =
      Ok (ManPtr.encode (sample_link (Unrooted C0)), s') /\
    g_cells s' !! 0%nat = Some (ManPtr.encode (ManPtr.mkP (Unrooted C0) 1 0)).
Proof.
  destruct (swap_unrooted 4 0%nat (sample_link (Unrooted C0)) (ManPtr.mkP Rooted 1 0) C0 sample_guard
    sample_state sample_local RT sample_local_of sample_phase_ok sample_phase eq_refl
    (sample_points _) sample_points_16 eq_refl) as (s' & E & Ht).
  exists s'. split; [exact E|]. apply traced_cells in Ht as [-> _]. reflexivity.
Defined.
Lemma compare_exchange_unrooted_witness :
  run (compare_exchange_with_tag 5 0%nat (Some 32, 0) (Some 16, 0) sample_guard) sample_state =
    Ok (inr (Some 32, 1), sample_state) /\
  exists s', run (compare_exchange_with_tag 5 0%nat (Some 32, 1) (Some 16, 0) sample_guard) sample_state =
    Ok (inl (Some 32, 1), s').
Proof.
  pose proof (fun cur nt => compare_exchange_unrooted 4 0%nat (sample_link (Unrooted C0))
    (ManPtr.mkP Rooted 1 0) C0 cur (Some 16) nt sample_guard sample_state sample_local RT sample_local_of
    sample_phase_ok sample_phase eq_refl (sample_points _) sample_points_16 eq_refl eq_refl) as H.
  split; [exact (H (Some 32, 0) 0)|]. destruct (H (Some 32, 1) 0) as (s' & E & _). exists s'. exact E.
Defined.

Lemma sample_rc_32 (P : Z -> Prop) : P 1 -> rc_ok (g_objs sample_state) 32 P.
Proof.
  intros HP o Ho. change (Some (sample_obj 1 []) = Some o) in Ho. injection Ho as <-.
  exists (sample_hdr 1). split; [apply sample_hdr_ok; lia|]. split; [reflexivity|exact HP].
Qed.
Lemma sample_rc_16 (P : Z -> Prop) : P 0 -> rc_ok (g_objs sample_state) 16 P.
Proof.
  intros HP o Ho. change (Some (sample_obj 0 [0%nat]) = Some o) in Ho. injection Ho as <-.
  exists (sample_hdr 0). split; [apply sample_hdr_ok; lia|]. split; [reflexivity|exact HP].
Qed.
Lemma sample_rc_moved : rc_ok (add_rc 1 16 (g_objs sample_state)) 32 (fun n => 0 < n).
Proof.
  intros o Ho. apply (sample_rc_32 (fun n => 0 < n) ltac:(cbn; lia)).
  change 16 with (target (ManPtr.mkP Rooted 1 0)) in Ho. unfold add_rc in Ho.
  rewrite lookup_alter_ne in Ho by done. exact Ho.
Qed.
Lemma swap_rooted_witness :
  exists s', run (internal_swap 5 1%nat (ManPtr.encode (ManPtr.mkP Rooted 1 0)) sample_guard) sample_state =
      Ok (ManPtr.encode (sample_link Rooted), s') /\
    g_objs s' = add_rc (-1) 32 (add_rc 1 16 (g_objs sample_state)).
Proof.
  destruct (swap_rooted 4 1%nat (sample_link Rooted) (ManPtr.mkP Rooted 1 0) sample_guard sample_state
    sample_local RT sample_local_of sample_phase_ok sample_phase eq_refl (sample_points _)
    sample_points_16 eq_refl sample_null_free (sample_rc_16 (fun n => n + 1 < 2 ^ 55) ltac:(cbn; lia))
    sample_rc_moved) as (s' & E & Ht).
  exists s'. split; [exact E|]. apply traced_cells in Ht as [_ ->]. reflexivity.
Defined.
Lemma compare_exchange_rooted_witness :
  exists s', run (compare_exchange_with_tag 5 1%nat (Some 32, 1) (Some 16, 3) sample_guard) sample_state =
      Ok (inl (Some 32, 1), s') /\
    g_cells s' !! 1%nat = Some (ManPtr.encode (ManPtr.mkP Rooted 1 3)).
Proof.
  destruct (compare_exchange_rooted 4 1%nat (sample_link Rooted) (ManPtr.mkP Rooted 1 0) (Some 32, 1) (Some 16)
    3 sample_guard sample_state sample_local RT sample_local_of sample_phase_ok sample_phase eq_refl
    (sample_points _) sample_points_16 eq_refl eq_refl sample_null_free
    (sample_rc_16 (fun n => n + 1 < 2 ^ 55) ltac:(cbn; lia)) sample_rc_moved) as (s' & E & Ht).
  exists s'. split; [exact E|]. apply traced_cells in Ht as [-> _]. reflexivity.
Defined.

(** A tag update of the white link 0, and the [and] that should keep its tag. *)
Lemma fetch_tag_spec_witness :
  run (fetch_tag_xor 0%nat 3 sample_guard) sample_state =
    Ok ((Some 32, 1), set_g_cells (fun _ => <[0%nat := ManPtr.encode (ManPtr.mkP (Unrooted C0) 2 2)]>
                                          (g_cells sample_state)) sample_state).
Proof.
  exact (proj2 (proj2 (fetch_tag_spec 0%nat (sample_link (Unrooted C0)) 3 sample_guard sample_state
    (proj1 (sample_points _)) eq_refl))).
Defined.
Lemma fetch_tag_and_clears_witness :
  exists s' t, run (fetch_tag_and 0%nat 7 sample_guard) sample_state = Ok ((Some 32, 1), s') /\
    g_cells s' !! 0%nat = Some (ManPtr.encode (ManPtr.mkP Rooted 0 t)) /\
    run (load 0%nat sample_guard) s' = Ok (None, s').
Proof.
  destruct (fetch_tag_and_clears 0 0%nat (sample_link (Unrooted C0)) 7 sample_guard sample_state
    (proj1 (sample_points _)) eq_refl) as (s' & t & E & Ec & El & _).
  exists s', t. split; [exact E|]. split; [|exact El]. rewrite Ec. apply lookup_insert_eq.
Defined.

(** ** Hazard pointers: eight free slots *)
Lemma sample_hz_inv : hz_inv sample_local [].
Proof.
  constructor; [reflexivity|vm_compute; lia| | |].
  - rewrite app_nil_r. reflexivity.
  - intros h Hh. apply elem_of_seq in Hh. change (l_hazards sample_local) with (replicate 8 0).
    change (l_markers sample_local) with (replicate 8 (@None nat)).
    split; apply lookup_replicate; split; (reflexivity || (vm_compute in Hh |- *; lia)).
  - intros i p H. change (l_hazards sample_local) with (replicate 8 0) in H.
    apply lookup_replicate in H as [-> _]. congruence.
Qed.
Lemma hazard_acquire_witness :
  exists hid r', run (hp_new 0) sample_state = Ok (mkHP hid 0, put_local 0 r' sample_state) /\
    hz_inv r' [hid].
Proof.
  destruct (hazard_acquire 0 sample_state sample_local [] sample_local_of sample_hz_inv)
    as (hid & r' & E & Hi & _). exists hid, r'. exact (conj E Hi).
Defined.
Lemma sample_hz_held : hz_inv (set_l_hids (fun _ => seq 0 7) sample_local) [7%nat].
Proof. exact (proj1 (hz_pop sample_local [] 7 (seq 0 7) sample_hz_inv eq_refl)). Qed.
Lemma hazard_protect_drop_witness :
  let s := put_local 0 (set_l_hids (fun _ => seq 0 7) sample_local) sample_state in
  exists r', run (hp_protect (mkHP 7 0) 1 (ManPtr.encode (sample_link Rooted))) s =
      Ok (tt, put_local 0 r' s) /\ l_hazards r' !! 7%nat = Some 32.
Proof.
  intros s. destruct (hazard_protect_drop 0 s _ 7 [] 1 (ManPtr.encode (sample_link Rooted)) eq_refl
    sample_hz_held) as [(r' & E & _ & Eh) _].
  exists r'. split; [exact E|]. rewrite Eh. reflexivity.
Defined.

(** ** The collector *)
Lemma shard_ranges_partition_witness :
  concat (map (shard_range 3) (seq 0 3)) = seq 0 OBJ_BATCHES_SHARD.
Proof. exact (shard_ranges_partition 3 ltac:(vm_compute; lia)). Defined.
Definition sample_cstate (allocated : Z) : cstate (V := nat) :=
  mkC (set_g_enabled (fun _ => true) (set_g_allocated (fun _ => allocated) sample_state))
    (mkHB 0 0 0 0 5) (mkCS 2 10 1000).
Lemma is_collection_necessary_spec_witness :
  run is_collection_necessary (sample_cstate 975) = Ok (true, sample_cstate 975).
Proof.
  rewrite (is_collection_necessary_spec (sample_cstate 975)) by (vm_compute; split; congruence).
  reflexivity.
Defined.

(** ** Tracing: the white object 16 is queued, and leads to the white object 32 *)
Definition queued_local : local := set_l_tasks (fun _ => [16]) sample_local.
Definition queued_state : gstate nat := put_local 0 queued_local sample_state.
Lemma sample_no_retry : no_retry.
Proof. intros X [|x src] dest n; discriminate. Qed.
Lemma queued_phase_ok : phase_ok queued_local.
Proof. exists RT. reflexivity. Qed.
Lemma queued_objs a o : g_objs queued_state !! a = Some o ->
  (a = 16 /\ o = sample_obj 0 [0%nat]) \/ (a = 32 /\ o = sample_obj 1 []).
Proof.
  intros Ho. change ((<[16 := sample_obj 0 [0%nat]]> {[32 := sample_obj 1 []]} : gmap Z (obj nat)) !! a = Some o) in Ho.
  apply lookup_insert_Some in Ho as [[<- <-]|[_ Ho]]; [by left|]. apply lookup_singleton_Some in Ho as [<- <-]. by right.
Qed.
Lemma queued_wf : wf queued_state.
Proof.
  constructor.
  - intros a o [[_ ->]|[_ ->]]%queued_objs; [exists (sample_hdr 0)|exists (sample_hdr 1)];
      (split; [apply sample_hdr_ok; lia|reflexivity]).
  - intros a o c [[_ ->]|[_ ->]]%queued_objs Hc; [|by apply not_elem_of_nil in Hc].
    apply list_elem_of_singleton in Hc as ->. exists (sample_link (Unrooted C0)), C0.
    split; [reflexivity|]. split; [apply sample_points|reflexivity].
Qed.
Lemma queued_cells c p : holds_ptr queued_state c p ->
  (c = 0%nat /\ p = sample_link (Unrooted C0)) \/ (c = 1%nat /\ p = sample_link Rooted).
Proof.
  intros [Hc Hp]. change ((<[0%nat := ManPtr.encode (sample_link (Unrooted C0))]>
    {[1%nat := ManPtr.encode (sample_link Rooted)]} : gmap cell Z) !! c = Some (ManPtr.encode p)) in Hc.
  apply lookup_insert_Some in Hc as [[<- E]|[_ Hc]]; [left|apply lookup_singleton_Some in Hc as [<- E]; right];
    (split; [done|]); symmetry; (apply encode_inj; [|done|done]); repeat split; vm_compute; congruence.
Qed.
Lemma queued_tri : tri (black_of queued_local) queued_state (all_tasks queued_state).
Proof.
  constructor.
  - intros a o c p [[_ ->]|[_ ->]]%queued_objs Hm; vm_compute in Hm; discriminate.
  - intros c p [[_ ->]|[_ ->]]%queued_cells Hm; vm_compute in Hm; discriminate.
  - intros a Ha. change (a ∈ [16]) in Ha. apply list_elem_of_singleton in Ha as ->. by exists (sample_obj 0 [0%nat]).
Qed.
Lemma queued_holds : holds_ptr queued_state 0%nat (sample_link (Unrooted C0)).
Proof. split; [reflexivity|]. repeat split; vm_compute; congruence. Qed.
Lemma queued_holds_rooted : holds_ptr queued_state 1%nat (sample_link Rooted).
Proof. split; [reflexivity|]. repeat split; vm_compute; congruence. Qed.
Lemma queued_found : found queued_state 32.
Proof.
  exists 16. split; [by left|]. eapply rtc_l; [|reflexivity].
  exists (sample_obj 0 [0%nat]), 0%nat, (sample_link (Unrooted C0)).
  split; [done|]. split; [by left|]. split; [apply queued_holds|]. split; [discriminate|reflexivity].
Qed.

Lemma drain_exact_witness :
  exists b s', run (drain_loop 9 0 sample_guard) queued_state = Ok (b, s') /\ black C1 s' 32.
Proof.
  destruct (drain_exact 9 sample_guard queued_local queued_state sample_no_retry eq_refl queued_phase_ok
    queued_wf queued_tri ltac:(vm_compute; lia) ltac:(vm_compute; lia)) as (b & s' & E & _ & _ & _ & _ & H).
  exists b, s'. split; [exact E|]. apply (H 32). right. exact queued_found.
Defined.
Lemma swap_keeps_live_witness :
  exists s', run (internal_swap 5 0%nat (ManPtr.encode (ManPtr.mkP Rooted 1 0)) sample_guard) queued_state =
      Ok (ManPtr.encode (sample_link (Unrooted C0)), s') /\ live C1 s' 32.
Proof.
  destruct (swap_keeps_live 4 0%nat (sample_link (Unrooted C0)) (ManPtr.mkP Rooted 1 0) C0 sample_guard
    queued_state queued_local RT ltac:(discriminate) eq_refl queued_phase_ok eq_refl queued_wf queued_tri
    queued_holds eq_refl (sample_points _) sample_points_16) as (s' & E & _ & _ & H).
  exists s'. split; [exact E|]. apply (H 32). right. exists 16. split; [left; by left|].
  destruct queued_found as (q & Hq & Hr). apply list_elem_of_singleton in Hq as ->. exact Hr.
Defined.
Lemma swap_rooted_keeps_live_witness :
  exists s', run (internal_swap 5 1%nat (ManPtr.encode (ManPtr.mkP Rooted 1 0)) sample_guard) queued_state =
      Ok (ManPtr.encode (sample_link Rooted), s') /\ live C1 s' 32.
Proof.
  destruct (swap_rooted_keeps_live 4 1%nat (sample_link Rooted) (ManPtr.mkP Rooted 1 0) sample_guard
    queued_state queued_local RT ltac:(discriminate) eq_refl queued_phase_ok eq_refl queued_wf queued_tri
    sample_null_free queued_holds_rooted eq_refl (sample_points _) sample_points_16
    (sample_rc_16 (fun n => n + 1 < 2 ^ 55) ltac:(cbn; lia)) sample_rc_moved) as (s' & E & _ & _ & H).
  exists s'. split; [exact E|]. apply (H 32). right. exists 32. split; [right|reflexivity].
  exists (sample_obj 1 []). split; reflexivity.
Defined.

(** ** Completion: a mutator is about to schedule a task when the collector makes its last
    reading and says that tracing is done; the mutator then schedules and pops the task. *)
Definition idle_local : local := set_l_mt_modified_ts (fun _ => 0) sample_local.
Definition done_state : gstate nat := put_local 0 idle_local sample_state.
Definition done_sched : list nat := replicate 9 0%nat ++ replicate 2 1%nat ++ [0%nat] ++ replicate 20 1%nat.
Definition done_pool := pool_run done_sched (sys 5 [(sample_guard, [MSchedule 16; MPop])], done_state).
Lemma done_returned : results done_pool.1 !! 0%nat = Some (Some true).
Proof. vm_compute. reflexivity. Qed.
Lemma completion_sound_witness :
  exists ps1 s1, rtc pstep (sys 5 [(sample_guard, [MSchedule 16; MPop])], done_state) (ps1, s1) /\
    quiescent 1 s1 = true.
Proof.
  destruct (completion_sound 1 5 [(sample_guard, [MSchedule 16; MPop])] done_state done_pool.1 done_pool.2)
    as (ps1 & s1 & H1 & _ & H2).
  - reflexivity.
  - apply NoDup_singleton.
  - intros m Hm. apply list_elem_of_singleton in Hm as ->. exists idle_local. split; [reflexivity|].
    split; [by exists RT|reflexivity].
  - exact (pool_run_rtc done_sched _).
  - exact (results_lookup done_pool.1 0 true done_returned).
  - exists ps1, s1. exact (conj H1 H2).
Defined.

(** ** The end of a cycle: object 16 was not marked, object 32 was; both are in a batch *)
Definition sample_black : obj nat := mkObj (ObjMeta.encode (ObjMeta.mkHdr C1 1 1)) 1 16 7%nat [].
Definition sample_swept : gstate nat :=
  set_g_objs (fun _ => <[16 := sample_obj 0 [0%nat]]> {[32 := sample_black]})
    (set_g_marked (upd_queue (fun _ => [mkBatch [16; 32] 64]) C0 3) sample_state).
Lemma sample_swept_objs a o : g_objs sample_swept !! a = Some o ->
  (a = 16 /\ o = sample_obj 0 [0%nat]) \/ (a = 32 /\ o = sample_black).
Proof.
  intros H. change ((<[16 := sample_obj 0 [0%nat]]> {[32 := sample_black]} : gmap Z (obj nat)) !! a = Some o) in H.
  apply lookup_insert_Some in H as [[<- <-]|[_ H]]; [by left|right]. by apply lookup_singleton_Some in H as [<- <-].
Qed.
Lemma sample_sweepable : sweepable 5 C0 sample_swept.
Proof.
  assert (Hi : all_items (g_marked sample_swept) C0 = [16; 32]) by reflexivity. constructor.
  - constructor.
    + intros a o c Ho Hc. apply sample_swept_objs in Ho as [[-> ->]|[-> ->]]; [|by apply not_elem_of_nil in Hc].
      apply list_elem_of_singleton in Hc as ->. exists (ManPtr.encode (sample_link (Unrooted C0))).
      split; [reflexivity|]. vm_compute. congruence.
    + intros a o Ho. apply sample_swept_objs in Ho as [[-> ->]|[-> ->]]; [apply NoDup_singleton|apply NoDup_nil_2].
    + intros a b o o' c Ho Ho' Hc Hc'. apply sample_swept_objs in Ho as [[-> ->]|[-> ->]]; [|by apply not_elem_of_nil in Hc].
      by apply sample_swept_objs in Ho' as [[-> ->]|[-> ->]]; [|apply not_elem_of_nil in Hc'].
  - intros [] i Hi'; do 8 (destruct i as [|i]; [eexists; reflexivity|]); unfold OBJ_BATCHES_SHARD in Hi'; lia.
  - intros a. rewrite Hi. intros [->|[->|Ha]%elem_of_cons]%elem_of_cons; [by eexists|by eexists|by apply not_elem_of_nil in Ha].
  - rewrite Hi. apply NoDup_cons. split; [|apply NoDup_singleton]. by intros H%list_elem_of_singleton.
  - intros i bs _ H. do 8 (destruct i as [|i]; [injection H as <-; cbn; lia|]). done.
Qed.
Lemma sweep_exact_witness : exists s', run (sweep 5 C0 (fun i => i)) sample_swept = Ok (tt, s') /\
  g_objs s' !! 16 = None /\ g_objs s' !! 32 = Some sample_black /\ g_cells s' !! 0%nat = None.
Proof.
  destruct (sweep_exact 5 C0 (fun i => i) sample_swept sample_sweepable) as (s' & E & _ & [H1 _ H3] & _).
  - intros [] i Hi; do 8 (destruct i as [|i]; [eexists; reflexivity|]); unfold OBJ_BATCHES_SHARD in Hi; lia.
  - vm_compute. split; congruence.
  - exists s'. split; [exact E|]. rewrite !H1. split; [reflexivity|]. split; [reflexivity|].
    apply (H3 16 (sample_obj 0 [0%nat])); [by left|reflexivity|reflexivity|by left].
Defined.

(** ** A heap at rest: the rooted object 16 leads to object 32; object 48 only leads to itself,
    and is still in the batch of participant 1; participant 0 is the collector's *)
Definition rest_ptr (a : Z) (m : PtrMeta) : ManPtr.ptr := ManPtr.mkP m a 0.
Definition rest_objs : list (Z * obj nat) := [(16, sample_obj 1 [0%nat]); (32, sample_obj 0 []); (48, sample_obj 0 [1%nat])].
Definition rest_cells : list (cell * ManPtr.ptr) :=
  [(0%nat, rest_ptr 2 (Unrooted C0)); (1%nat, rest_ptr 3 (Unrooted C0)); (2%nat, rest_ptr 1 Rooted)].
Definition rest_local : local := set_l_objs (fun _ => [(mkBatch [48] 64, 16); (batch_default, 0)]) local_default.
Definition rest_state : gstate nat :=
  set_g_objs (fun _ => list_to_map rest_objs) (set_g_cells (fun _ => list_to_map (prod_map id ManPtr.encode <$> rest_cells))
    (set_g_locals (fun _ => mkSlots [mkNode (Some (0, true)%nat) local_default; mkNode (Some (1, true)%nat) rest_local] 2)
      (set_g_fresh (upd_queue (fun _ => [mkBatch [16; 32] 64]) C0 3) (set_g_epoch (fun _ => ep N C0 0) (global_new None))))).
Lemma rest_obj a o : g_objs rest_state !! a = Some o ->
  (a = 16 /\ o = sample_obj 1 [0%nat]) \/ (a = 32 /\ o = sample_obj 0 []) \/ (a = 48 /\ o = sample_obj 0 [1%nat]).
Proof.
  intros H%elem_of_list_to_map_2. unfold rest_objs in H. rewrite !elem_of_cons, elem_of_nil in H.
  destruct H as [[= -> ->]|[[= -> ->]|[[= -> ->]|[]]]]; auto.
Qed.
Lemma rest_ptr_ok a m : 0 <= a < 4 -> ManPtr.ptr_ok (rest_ptr a m).
Proof. intros H. split; cbn; change (2 ^ (62 - align_log)) with (2 ^ 58) in *; change (2 ^ align_log) with 16 in *; lia. Qed.
Lemma rest_holds c p : holds_ptr rest_state c p -> (c, p) ∈ rest_cells.
Proof.
  intros [H Hp]. apply elem_of_list_to_map_2, list_elem_of_fmap in H as ([c' q] & [= -> E] & Hin).
  assert (Hq : ManPtr.ptr_ok q).
  { unfold rest_cells in Hin. rewrite !elem_of_cons, elem_of_nil in Hin.
    destruct Hin as [[= _ ->]|[[= _ ->]|[[= _ ->]|[]]]]; apply rest_ptr_ok; lia. }
  by rewrite (encode_inj _ _ Hp Hq E).
Qed.
Lemma rest_cell_ptr c p : (c, p) ∈ rest_cells -> (c = 0%nat /\ p = rest_ptr 2 (Unrooted C0)) \/
  (c = 1%nat /\ p = rest_ptr 3 (Unrooted C0)) \/ (c = 2%nat /\ p = rest_ptr 1 Rooted).
Proof.
  unfold rest_cells. rewrite !elem_of_cons, elem_of_nil. intros [[= -> ->]|[[= -> ->]|[[= -> ->]|[]]]]; auto.
Qed.
Lemma rest_resting : resting C0 0 0 rest_state.
Proof.
  assert (Hlink : forall a o c, g_objs rest_state !! a = Some o -> c ∈ o_links o ->
    (a = 16 /\ c = 0%nat) \/ (a = 48 /\ c = 1%nat)).
  { intros a o c [[-> ->]|[[-> ->]|[-> ->]]]%rest_obj Hc; [left|by apply not_elem_of_nil in Hc|right];
      by apply list_elem_of_singleton in Hc as ->. }
  assert (Hok : forall q i col, rest_state.(g_cells) !! i = Some (ManPtr.encode (rest_ptr q (Unrooted col))) -> 0 <= q < 4 ->
    is_Some (g_objs rest_state !! (q * 16)) -> link_ok rest_state i).
  { intros q i col E Hq Ho. exists (rest_ptr q (Unrooted col)), col. split; [done|]. split; [|done].
    split; [by apply rest_ptr_ok|]. intros _. exact Ho. }
  assert (Hb : batched C0 rest_state = [16; 32; 48]) by (vm_compute; reflexivity).
  constructor; rewrite ?Hb.
  - reflexivity.
  - constructor.
    + intros a o [[_ ->]|[[_ ->]|[_ ->]]]%rest_obj; [exists (sample_hdr 1)|exists (sample_hdr 0)|exists (sample_hdr 0)];
        (split; [apply sample_hdr_ok; lia|reflexivity]).
    + intros a o c Ho [[_ ->]|[_ ->]]%(Hlink a o c Ho); [apply (Hok 2 _ C0)|apply (Hok 3 _ C0)]; (reflexivity || lia || by eexists).
  - constructor.
    + intros a o c Ho [[_ ->]|[_ ->]]%(Hlink a o c Ho); eexists; (split; [reflexivity|by vm_compute]).
    + intros a o [[_ ->]|[[_ ->]|[_ ->]]]%rest_obj; [apply NoDup_singleton|apply NoDup_nil_2|apply NoDup_singleton].
    + intros a b o o' c Ho Ho' Hc Hc'. pose proof (Hlink a o c Ho Hc). pose proof (Hlink b o' c Ho' Hc'). naive_solver.
  - by intros a o [[_ ->]|[[_ ->]|[_ ->]]]%rest_obj.
  - intros a o c p Ho Hc Hp%rest_holds%rest_cell_ptr. pose proof (Hlink a o c Ho Hc). naive_solver.
  - intros c p [[-> ->]|[[-> ->]|[-> ->]]]%rest_holds%rest_cell_ptr; [right|right|by left].
    + exists 16, (sample_obj 1 [0%nat]). split; [reflexivity|by left].
    + exists 48, (sample_obj 0 [1%nat]). split; [reflexivity|by left].
  - reflexivity.
  - intros [] i Hi; do 8 (destruct i as [|i]; [eexists; reflexivity|]); unfold OBJ_BATCHES_SHARD in Hi; lia.
  - intros [] i Hi; do 8 (destruct i as [|i]; [eexists; reflexivity|]); unfold OBJ_BATCHES_SHARD in Hi; lia.
  - reflexivity.
  - by intros [].
  - apply (bool_decide_unpack _). by vm_compute.
  - intros a. rewrite !elem_of_cons, elem_of_nil. split.
    + intros [o Ho]. apply rest_obj in Ho. naive_solver.
    + intros [->|[->|[->|[]]]]; by eexists.
  - reflexivity.
  - intros k nd Hk. assert (Hnd : n_using nd <> None /\ (n_item nd = local_default \/ n_item nd = rest_local)).
    { destruct k as [|[|k]]; [injection Hk as <-; split; [done|by left]|injection Hk as <-; split; [done|by right]|done]. }
    destruct Hnd as [Hu [E|E]]; constructor; rewrite ?E; try done; try (by intros b [= <-]);
      intros b [->|[->|?%not_elem_of_nil]%elem_of_cons]%elem_of_cons; (done || apply Nat.lt_0_succ).
  - eexists. split; [reflexivity|]. split; [reflexivity|]. intros p Hp. by apply elem_of_replicate in Hp as [-> _].
  - vm_compute. split; congruence.
Qed.
Lemma rest_kept a : kept rest_state a -> a = 16 \/ a = 32.
Proof.
  intros (q & (o & Ho & Hr) & Hq). assert (Eq : q = 16).
  { destruct Hr as [Hr|(k & nd & Hk & _ & Hz)].
    - by apply rest_obj in Ho as [[-> ->]|[[-> ->]|[-> ->]]]; vm_compute in Hr.
    - assert (E : l_hazards (n_item nd) = replicate 8 0) by by destruct k as [|[|k]]; [injection Hk as <-|injection Hk as <-|].
      rewrite E in Hz. apply elem_of_replicate in Hz as [-> _]. apply rest_obj in Ho. naive_solver. }
  subst q. assert (Hstep : forall x y, (x = 16 \/ x = 32) -> edge rest_state x y -> y = 16 \/ y = 32).
  { intros x y Hx (ox & c & p & Hox & Hc & Hp%rest_holds%rest_cell_ptr & _ & ->).
    apply rest_obj in Hox as [[-> ->]|[[-> ->]|[-> ->]]]; [|by apply not_elem_of_nil in Hc|lia].
    apply list_elem_of_singleton in Hc as ->. destruct Hp as [[_ ->]|[[? _]|[? _]]]; [right; reflexivity|done|done]. }
  assert (H0 : 16 = 16 \/ 16 = 32) by by left. clear Ho Hr o. revert H0 Hq. generalize 16 at 1 3 4. intros x H0 Hq.
  induction Hq as [|x y z Hxy _ IH]; [lia|]. apply IH, (Hstep x); [lia|done].
Qed.
Lemma cycle_exact_witness : exists s', run (collect_cycle 15 0 (fun i => i)) rest_state = Ok (tt, s') /\
  g_objs s' !! 48 = None /\ resting C1 3 0 s'.
Proof.
  destruct (cycle_exact 15 C0 0 0 rest_state (fun i => i) sample_no_retry rest_resting ltac:(lia) ltac:(lia) ltac:(vm_compute; lia))
    as (s' & E & HR & Hc). exists s'. split; [exact E|]. split; [|exact HR].
  destruct (g_objs s' !! 48) as [o|] eqn:Eo; [|reflexivity]. exfalso.
  destruct (rest_kept 48 (proj1 (co_objs _ _ Hc 48) (ex_intro _ o Eo))); discriminate.
Defined.
