(* ===== verification/Sessions.v ===== *)
(** * Sessions

    Theorems about whole runs, applied to concrete ones: the transparency theorem to the heap at
    rest of [Instances], two critical sections of one thread and a collection between them; the
    counting of handles to a thread that comes and goes; a task to its closures. *)
From S2P Require Import Prelude Prog Epoch Meta Slots Registry State Heap Marking Participant TaskCell Guards Pointers.
From S2P Require Import Collector Stats Total Tasks Sweep TraceInv Cycle Instances Frame Handles Rest Memory Mutator Threads Transparency.
#[local] Open Scope Z_scope.
#[local] Open Scope prog_scope.

(** ** A session on that heap: thread 2 registers; its section overlaps with one of thread 1,
    reads object 16 through the root before thread 1 makes the root lead to object 32, and protects
    it; a collection takes object 48 away, and not object 16; thread 2 reads it, and leaves. *)
Definition rest_threads : gmap nat (nat * option (guard * client (V := nat))) := {[1%nat := (1%nat, None)]}.
Definition swap_section : client (V := nat) := Do (CSwap 2%nat (Some 32) 5) Done.
Definition protect_section : client (V := nat) := Do (CLoad 2%nat) (fun y =>
  match y with AView (Some a, _) => Do (CProtect 1 a) Done | _ => Done AUnit end).
Definition release_section (y : answer (V := nat)) : client (V := nat) :=
  match y with ARef a hp => Do (CDeref a) (fun y => Do (CRelease hp) (fun _ => Done y)) | _ => Done AUnit end.
Definition last_session (y : answer (V := nat)) : Memory.session (V := nat) :=
  Next (Begin 2 (release_section y)) (fun _ => Next (Step 2) (fun _ => Next (Step 2) (fun _ =>
  Next (End 2) (fun _ => Next (Leave 2) (fun _ => Quit))))).
Definition rest_session : Memory.session (V := nat) :=
  Next (Join 2) (fun _ => Next (Begin 1 swap_section) (fun _ => Next (Begin 2 protect_section) (fun _ =>
  Next (Step 2) (fun _ => Next (Step 1) (fun _ => Next (Step 2) (fun _ => Next (End 1) (fun _ => Next (End 2) (fun y =>
  Next (Collect (fun i => i)) (fun _ => last_session y))))))))).
Lemma rest_heap_ok : heap_ok C0 [] no_extra (g_objs rest_state) (g_cells rest_state).
Proof.
  pose proof (rs_owned _ _ _ _ rest_resting) as [O1 O2 O3]. constructor.
  - intros a [o [[-> _]|[[-> _]|[-> _]]]%rest_obj]; [exists 1|exists 2|exists 3]; (split; [reflexivity|vm_compute; split; congruence]).
  - intros a o [[-> ->]|[[-> ->]|[-> ->]]]%rest_obj; [exists (sample_hdr 1)|exists (sample_hdr 0)|exists (sample_hdr 0)];
      (split; [apply sample_hdr_ok; lia|split; [reflexivity|split; vm_compute; reflexivity]]).
  - exact O2.
  - exact O3.
  - intros c (a & o & Ho & Hc). destruct (O1 a o c Ho Hc) as (w & Hw & _). by eexists.
  - intros c w Hw. apply elem_of_list_to_map_2, list_elem_of_fmap in Hw as ([c' p] & [= -> ->] & Hin). exists p. split; [reflexivity|].
    apply rest_cell_ptr in Hin as [[-> ->]|[[-> ->]|[-> ->]]]; (split; [apply rest_ptr_ok; lia|by eexists|]).
    + right. split; [done|]. split; [exists 16, (sample_obj 1 [0%nat]); split; [reflexivity|by left]|apply not_elem_of_nil].
    + right. split; [done|]. split; [exists 48, (sample_obj 0 [1%nat]); split; [reflexivity|by left]|apply not_elem_of_nil].
    + left. split; [done|]. intros (a & o & [[_ ->]|[[_ ->]|[_ ->]]]%rest_obj & Hc); [by apply list_elem_of_singleton in Hc|by apply not_elem_of_nil in Hc|by apply list_elem_of_singleton in Hc].
Qed.
Lemma rest_at_rest : at_rest {[1%nat]} C0 0 0 rest_state.
Proof.
  assert (Hz : forall k nd, nodes (g_locals rest_state) !! k = Some nd -> is_using nd = true /\ hz_inv (n_item nd) []).
  { intros k nd Hk. assert (E : is_using nd = true /\ same_slots local_default (n_item nd)) by (destruct k as [|[|k]]; [injection Hk as <-|injection Hk as <-|]; done).
    destruct E as [Eu Es]. split; [done|]. eapply hz_inv_same; [exact Es|apply hz_inv_default]. }
  constructor; [exact rest_resting|exact rest_heap_ok| |].
  - split; [apply rinv_new|]. intros j e Hj. by apply lookup_replicate in Hj as [? _].
  - constructor; [set_solver| |by intros k nd Hk _; apply (Hz k)].
    intros k ->%elem_of_singleton. eexists _, []. split; [reflexivity|]. by apply (Hz 1%nat).
Qed.
Lemma rest_running : running 0 C0 0 rest_threads rest_state.
Proof.
  assert (Hi : forall i k o, rest_threads !! i = Some (k, o) -> i = 1%nat /\ k = 1%nat /\ o = None).
  { unfold rest_threads. intros i k o Hx. apply lookup_singleton_Some in Hx as [<- E]. by injection E as <- <-. }
  constructor.
  - replace (parts rest_threads) with ({[1%nat]} : gset nat); [|symmetry; apply set_eq; intros k; rewrite elem_of_parts, elem_of_singleton; split].
    + replace (guarded rest_threads) with (∅ : gset nat); [|symmetry; apply set_eq; intros k; rewrite elem_of_guarded, elem_of_empty; split; [|done]].
      * constructor; [lia|by intros j ?%elem_of_empty|]. rewrite unguarded_none. exact rest_at_rest.
      * intros (i & x & Hx). by destruct (Hi _ _ _ Hx) as (_ & _ & ?).
    + intros (i & o & Hx). apply (Hi _ _ _ Hx).
    + intros ->. by exists 1%nat, None.
  - intros i j k o o' H1 H2. destruct (Hi _ _ _ H1) as [-> _]. by destruct (Hi _ _ _ H2) as [-> _].
  - intros i k g p Hx. by destruct (Hi _ _ _ Hx) as (_ & _ & ?).
Qed.
(** What the memory is in the course of it. *)
Lemma last_permitted m k h : m_objs m !! 16 = Some (mkAobj 1 16 7%nat [0%nat]) -> m_hazards m !! k = Some {[h := 16]} ->
  permitted (last_session (ARef 16 (mkHP h k))) ({[1%nat := (1%nat, None); 2%nat := (k, None)]}, m).
Proof.
  intros Ho Hk. unfold last_session. eapply permitted_begin; [reflexivity|]. cbn [release_section].
  eapply permitted_do; [reflexivity|by eexists|]. intros y1 m1 (o & _ & -> & ->)%deref_inv.
  eapply permitted_do; [reflexivity|split; [done|]; exists {[h := 16]}; split; [done|by simplify_map_eq]|].
  intros y2 m2 (hz & Hz & -> & ->)%release_inv. rewrite Hk in Hz. injection Hz as <-. eapply permitted_end; [reflexivity|].
  eapply permitted_leave; [reflexivity| |done]. cbn. simplify_map_eq. by rewrite delete_singleton_eq.
Qed.
Definition rest_memory : memory (V := nat) := visible (parts rest_threads) rest_state.
Lemma rest_memory_links : m_links rest_memory !! 2%nat = Some (Some 16, 0) /\ spare_roots rest_memory.
Proof. split; vm_compute; reflexivity. Qed.
Lemma rest_memory_objs : m_objs rest_memory !! 16 = Some (mkAobj 1 16 7%nat [0%nat]) /\ is_Some (m_objs rest_memory !! 32).
Proof. split; [vm_compute; reflexivity|eexists; vm_compute; reflexivity]. Qed.
Lemma rest_permitted : permitted rest_session (aconf_of rest_threads rest_state).
Proof.
  change (aconf_of rest_threads rest_state) with (pair (athread <$> rest_threads) rest_memory).
  assert (athread <$> rest_threads = {[1%nat := (1%nat, None)]}) as -> by (unfold rest_threads; by rewrite map_fmap_singleton).
  destruct rest_memory_links as [Hl Hs]. destruct rest_memory_objs as [Ho Ho']. revert Hl Hs Ho Ho'. generalize rest_memory. intros m Hl Hs Ho Ho'.
  eapply permitted_join; [done|]. intros k Hk. eapply permitted_begin; [reflexivity|]. eapply permitted_begin; [reflexivity|].
  eapply permitted_do; [reflexivity|by eexists|]. intros y m1 (x & -> & Hx & ->)%load_inv.
  pose proof (eq_trans (eq_sym Hl) Hx) as Ex. injection Ex as <-. cbv iota beta.
  eapply permitted_do; [reflexivity|split; [by eexists|done]|]. intros y m1 (x & -> & _ & ->)%swap_inv.
  eapply permitted_do; [reflexivity|by eexists; split; [exact Ho|]|]. intros y m1 (h & hz & -> & Hhz & Hh & ->)%protect_inv.
  cbn in Hhz. rewrite lookup_insert_eq in Hhz. injection Hhz as <-. clear Hh.
  eapply permitted_end; [reflexivity|]. eapply permitted_end; [reflexivity|].
  match goal with |- permitted _ (?ths, _) => change ths with ({[1%nat := (1%nat, None); 2%nat := (k, None)]} : gmap nat (nat * option (client (V := nat)))) end.
  eapply permitted_collect.
  - intros j th [[<- <-]|[_ [<- <-]%lookup_singleton_Some]]%lookup_insert_Some; done.
  - intros m' [Hobj _ _ Hhz]. apply (last_permitted m' k h).
    + apply Hobj. split; [done|]. exists 16. split; [|done]. split; [by eexists|]. right. exists k, {[h := 16]}, h. split; cbn; by simplify_map_eq.
    + rewrite Hhz. cbn. by simplify_map_eq.
Qed.
(** The answers of a history, by thread. *)
Definition answers (i : nat) (h : history (V := nat)) : list answer :=
  omap (fun x => match x.1 with Step j => if decide (i = j) then Some x.2 else None | _ => None end) h.
Lemma session_refines_witness : exists h ths' s', run (play 20 0 rest_session rest_threads) rest_state = Ok ((h, ths'), s') /\
  aplay rest_session (aconf_of rest_threads rest_state) h (aconf_of ths' s').
Proof.
  destruct (session_refines 0 18 C0 0 rest_session rest_threads rest_state sample_no_retry rest_running rest_permitted ltac:(vm_compute; reflexivity))
    as (W & t & h & ths' & s' & E & _ & H). exists h, ths', s'. split; [exact E|exact H].
Defined.
Example rest_answers : match run (play 20 0 rest_session rest_threads) rest_state with
  | Ok (r, _) => answers 2 r.1 | Stopped _ => [] end = [AView (Some 16, 0); ARef 16 (mkHP 7 2); AVal 7%nat; AUnit].
Proof. vm_compute. reflexivity. Qed.

(** ** A thread that comes and goes: thread 7 takes a handle and pins; its thread-local is destroyed
    while the handle is there; dropping the handle gives the slot back *)
Definition empty_process : process nat := mkProc false (global_new None) ∅ ∅.
Definition life : list op := [OHandle 7; OProtect 7 0 0 0; OExit 7 0; ODrop (mkRef 7 0 (KHazard (mkHP 7 0))); ODrop (mkRef 7 0 KHandle)].
Fixpoint live (os : list op) (P : process nat) : option (list (list ref) * process nat) :=
  match os with
  | [] => Some ([], P)
  | o :: os => match run (exec_op 50 None o) P with
               | Ok (new, P') => (fun r => (new :: r.1, r.2)) <$> live os P'
               | Stopped _ => None
               end
  end.
Definition slot_users (P : process nat) : list (option (nat * bool)) := n_using <$> nodes (g_locals (p_g P)).
Example life_slots :
  (fun r => slot_users r.2) <$> live (firstn 4 life) empty_process = Some [Some (7, true)%nat] /\
  (fun r => slot_users r.2) <$> live life empty_process = Some [None].
Proof. split; vm_compute; reflexivity. Qed.
Definition alive_refs : list ref := [mkRef 7 0 KHandle; mkRef 7 0 KTls].
Definition refs_after (o : op) (P : process nat) : option (list ref) := match run (exec_op 50 None o) P with Ok (new, _) => Some new | Stopped _ => None end.
Definition after (o : op) (P : process nat) : process nat := match run (exec_op 50 None o) P with Ok (_, P') => P' | Stopped _ => P end.
Lemma run_op o P new : refs_after o P = Some new -> run (exec_op 50 None o) P = Ok (new, after o P).
Proof. unfold refs_after, after. destruct (run _ P) as [[? ?]|]; [|done]. by intros [= ->]. Qed.
Definition alive_process : process nat := after (OHandle 7) empty_process.
Definition left_process : process nat := after (OExit 7 0) alive_process.
Lemma handles_counted_witness :
  run (exec_op 50 None (OHandle 7)) empty_process = Ok (alive_refs, alive_process) /\ Handles.inv alive_refs alive_process /\
  run (exec_op 50 None (OExit 7 0)) alive_process = Ok ([], left_process) /\ Handles.inv [mkRef 7 0 KHandle] left_process /\
  slot_users left_process = [Some (7, true)%nat].
Proof.
  assert (E1 : run (exec_op 50 None (OHandle 7)) empty_process = Ok (alive_refs, alive_process)) by (apply run_op; vm_compute; reflexivity).
  assert (E2 : run (exec_op 50 None (OExit 7 0)) alive_process = Ok ([], left_process)) by (apply run_op; vm_compute; reflexivity).
  pose proof (handles_counted 50 None (OHandle 7) [] [] empty_process (inv_none _) ltac:(reflexivity) I ltac:(vm_compute; lia) ltac:(vm_compute; reflexivity)) as H1.
  rewrite E1 in H1. change (Handles.inv alive_refs alive_process) in H1.
  pose proof (handles_counted 50 None (OExit 7 0) alive_refs [mkRef 7 0 KHandle] alive_process H1 ltac:(apply Permutation_swap) I ltac:(vm_compute; lia) ltac:(vm_compute; reflexivity)) as H2.
  rewrite E2 in H2. change (Handles.inv [mkRef 7 0 KHandle] left_process) in H2.
  split; [exact E1|]. split; [exact H1|]. split; [exact E2|]. split; [exact H2|]. vm_compute. reflexivity.
Defined.

(** ** Tasks: the closure of a mark task fits and runs; one that captures two words does not *)
Record two_words := mkTwo { tw_fst : Z; tw_snd : Z }.
#[export] Instance two_words_closure : FnOnce (V := nat) two_words := {
  size_of := 16;
  align_of := 8;
  repr f := le_bytes 8 (tw_fst f) ++ le_bytes 8 (tw_snd f);
  abst l := match le_word (firstn 8 l), le_word (drop 8 l) with Some a, Some b => Some (mkTwo a b) | _, _ => None end;
  call_once f g := obj_mark 10 (tw_fst f) g
}.
Lemma two_words_representable : Representable two_words (fun f => is_word (tw_fst f) /\ is_word (tw_snd f)).
Proof.
  split.
  - by exists 3%nat.
  - intros f. cbn [repr two_words_closure size_of]. by rewrite length_app, !le_bytes_length.
  - intros [a b] [Ha Hb]. cbn [repr abst two_words_closure tw_fst tw_snd] in *.
    rewrite take_app_length' by (by rewrite le_bytes_length). rewrite drop_app_length' by (by rewrite le_bytes_length). by rewrite !le_word_bytes.
Qed.
Definition returns {A} (r : res (A * gstate nat)) : bool := match r with Ok _ => true | Stopped _ => false end.
Lemma word_small x : (0 <=? x) && (x <? wmod) = true -> is_word x.
Proof. intros [?%Z.leb_le ?%Z.ltb_lt]%andb_true_iff. done. Qed.
Lemma task_roundtrip_witness :
  (run (t <- task_new (FnOnce0 := mark_closure 10) (mkMarkFn 32) ; task_run t sample_guard) sample_state = run (obj_mark 10 32 sample_guard) sample_state /\
   returns (run (obj_mark 10 32 sample_guard) sample_state) = true) /\
  run (t <- task_new (mkTwo 32 16) ; task_run t sample_guard) sample_state = Stopped (Panic "Increase `DATA_WORDS`").
Proof.
  split; [split|].
  - exact (task_roundtrip (FnOnce0 := mark_closure 10) (ok := fun f => is_word (mf_obj f)) (mkMarkFn 32) sample_guard sample_state (word_small 32 eq_refl)).
  - vm_compute. reflexivity.
  - pose proof two_words_representable as H.
    exact (task_roundtrip (mkTwo 32 16) sample_guard sample_state (conj (word_small 32 eq_refl) (word_small 16 eq_refl))).
Defined.
