(* ===== verification/StackRun.v ===== *)
(** * Two threads on a stack

    The theorem about Treiber's stack applied to a run: from the heap at rest of [Instances],
    two threads push and pop, one of them registering on the way, and the collector runs while an
    [ItemRef] is held. *)
From S2P Require Import Prelude Prog Epoch Meta Slots Registry State Heap Participant Guards Pointers Collector Total Tasks Rest Memory Mutator Commands Threads Transparency.
From S2P Require Import Scripts StackCrate Instances Sessions.
From Stdlib Require Import Arith.Cantor.
#[local] Open Scope Z_scope.

(** Nodes as numbers, for the payloads of [Instances]. *)
#[local] Instance sample_node : Node nat nat.
Proof.
  refine {| node_val := fun x c => Cantor.to_nat (x, c); node_item := fun v => (Cantor.of_nat v).1; node_next := fun v => (Cantor.of_nat v).2 |};
    intros x c; by rewrite Cantor.cancel_of_to.
Defined.
#[local] Instance sample_stack : Structure nat := stack_structure 2 16 2%nat 3.

(** Link 2 becomes the top of a stack: what it led to is garbage. *)
Definition stack_state : gstate nat :=
  match run (critical 20 1 (Do (CSwap 2%nat None 0) Done)) rest_state with Ok (_, s) => s | Stopped _ => rest_state end.

Definition borrow_drop (y : answer (V := nat)) (next : script nat) : script nat :=
  match y with ARef a hp => Call (Borrow a hp) (fun _ => Call (Drop_ref hp) (fun _ => next)) | _ => next end.
Definition script1 : script nat := Call (Push 5%nat) (fun _ => Call (Push 6%nat) (fun _ => Call Pop (fun y => borrow_drop y Finish))).
Definition script2 : script nat := Call Pop (fun y => Call IsEmpty (fun _ => borrow_drop y Finish)).
Definition stack_threads : gmap nat (thread nat) := {[1%nat := Idle script1; 2%nat := Fresh script2]}.
Definition stack_schedule : list choice :=
  (Run <$> [1; 1; 1; 1; 2; 1; 1; 1; 2; 2; 1; 1; 2; 1; 2; 1; 2; 1; 2; 2; 2; 1; 1; 2; 1; 1; 1; 1; 2; 1; 1; 1; 1; 1; 1]%nat) ++
  Cycle id :: (Run <$> [2; 1; 2; 1; 1; 2; 2; 2; 2; 1; 1; 1; 1; 2]%nat) ++ [Cycle id].

(** *** The state *)
Lemma stack_state_at : running 0 C0 0 rest_threads stack_state /\ visible (parts rest_threads) stack_state = put_link 2%nat (None, 0) rest_memory.
Proof.
  pose proof rest_running as H. pose proof rest_memory_links as [Hl Hs]. pose proof (ru_opened _ _ _ _ _ H) as Ho.
  assert (Hg : guarded rest_threads = ∅).
  { apply set_eq. intros k. rewrite elem_of_guarded, elem_of_empty. split; [|done]. intros (i & x & Hi).
    unfold rest_threads in Hi. apply lookup_singleton_Some in Hi as [_ E]. discriminate E. }
  assert (Hk : 1%nat ∈ parts rest_threads) by (apply elem_of_parts; exists 1%nat, None; reflexivity).
  destruct (critical_refines 0 18 (parts rest_threads) (guarded rest_threads) C0 0 1 (Do (CSwap 2%nat None 0) Done) rest_state Ho Hk)
    as (y & s' & E & Ho' & HA); [by rewrite Hg|by split; [split; [by eexists|]|]|].
  assert (Es : stack_state = s') by (unfold stack_state; by rewrite E). rewrite Es. split.
  - constructor; [exact Ho'|apply (ru_inj _ _ _ _ _ H)|apply (ru_guard _ _ _ _ _ H)].
  - inversion HA; subst. match goal with Hx : astep _ _ _ _ _, Hy : asection _ _ _ _ _ |- _ => apply swap_inv in Hx as (v & -> & _ & Em); inversion Hy end.
    transitivity m1; [done|exact Em].
Qed.
Lemma stack_state_new : new_stack 2 2%nat (visible (parts rest_threads) stack_state).
Proof.
  destruct stack_state_at as [_ ->].
  assert (Ho : forall a o, m_objs rest_memory !! a = Some o -> ao_type o = 1%nat /\ 2%nat ∉ ao_links o).
  { intros a o Ha. unfold rest_memory in Ha. apply visible_object in Ha as (o' & Ho & ->).
    destruct (rest_obj a o' Ho) as [[_ ->]|[[_ ->]|[_ ->]]]; (split; [reflexivity|]); cbn; rewrite ?list_elem_of_singleton; try done. apply not_elem_of_nil. }
  constructor.
  - apply lookup_insert_eq.
  - intros (a & o & Ha & Hc). by destruct (Ho a o Ha).
  - intros a o Ha Et. destruct (Ho a o Ha). congruence.
  - split; [vm_compute; lia|by vm_compute].
Qed.

(** *** The threads *)
Lemma borrow_drop_disciplined k a h : disciplined k (<[h := a]> ∅) (borrow_drop (ARef a (mkHP h k)) Finish).
Proof.
  split; [split; [done|apply lookup_insert_eq]|]. intros y _. split; [split; [done|eexists; apply lookup_insert_eq]|].
  intros z _. by apply (delete_insert_id (M := gmap nat) ∅ h a).
Qed.
Lemma script1_disciplined k : disciplined k ∅ script1.
Proof.
  split; [done|]. intros y _. split; [done|]. intros z _. split; [done|]. intros r [->|[->|(a & h & -> & _)]]; [done|done|].
  apply borrow_drop_disciplined.
Qed.
Lemma script2_disciplined k : disciplined k ∅ script2.
Proof.
  split; [done|]. intros r [->|[->|(a & h & -> & _)]]; (split; [done|]; intros y _); [done|done|]. apply borrow_drop_disciplined.
Qed.
Lemma stack_starts : starts stack_threads (aconf_of rest_threads stack_state).
Proof.
  intros i. unfold stack_threads, aconf_of, rest_threads. cbn [fst snd]. rewrite map_fmap_singleton.
  destruct (decide (i = 1%nat)) as [->|H1]; [|destruct (decide (i = 2%nat)) as [->|H2]].
  - split; [vm_compute; reflexivity|apply script1_disciplined].
  - exact script2_disciplined.
  - by rewrite lookup_insert_ne, !lookup_singleton_ne.
Qed.
(** A hundred addresses are enough for a hundred objects. *)
Lemma sample_alloc_room (objs : gset Z) : (size objs < 100)%nat -> is_Some (sample_alloc objs).
Proof.
  intros Hs. unfold sample_alloc. set (as_ := (fun k => Z.of_nat k * 16) <$> seq 1 100).
  destruct (list_find _ as_) as [[i a]|] eqn:E; [by eexists|]. apply list_find_None in E.
  assert (Hsub : (list_to_set as_ : gset Z) ⊆ objs).
  { intros a Ha%elem_of_list_to_set. rewrite Forall_forall in E. specialize (E a Ha). by destruct (decide (a ∈ objs)). }
  apply subseteq_size in Hsub. assert (size (list_to_set as_ : gset Z) = 100%nat) by (vm_compute; reflexivity). lia.
Qed.
Lemma stack_ample : ample (length stack_schedule) (visible (parts rest_threads) stack_state).
Proof.
  destruct stack_state_at as [_ ->]. split; [vm_compute; reflexivity|]. intros objs Hs. apply sample_alloc_room.
  etransitivity; [exact Hs|]. vm_compute. lia.
Qed.
Lemma stack_on_crate_witness : exists h ths' s' X,
  run (play 20 0 (drive stack_schedule stack_threads) rest_threads) stack_state = Ok ((h, ths'), s') /\
  linear h (nothing_pending (aconf_of rest_threads stack_state), empty_stack) X.
Proof.
  apply (stack_on_crate 2 16 2%nat 3 0 18 C0 0 stack_schedule stack_threads rest_threads stack_state sample_no_retry (proj1 stack_state_at)
    stack_starts stack_state_new stack_ample). vm_compute. reflexivity.
Defined.
(** What it was, call by call: thread 2 has popped 5 before thread 1 could push 6; both references
    outlive the first collection, and nothing is left after the second. *)
Definition results (h : list (event (V := nat) * answer (V := nat))) : list (nat * answer (V := nat)) :=
  omap (fun x => match x.1 with End i => Some (i, match x.2 with AVal v => AVal (Cantor.of_nat v).1 | y => y end) | _ => None end) h.
Example stack_results : match run (play 20 0 (drive stack_schedule stack_threads) rest_threads) stack_state with
  | Ok (x, s) => (results x.1, size (g_objs s))
  | Stopped _ => ([], 1%nat)
  end = ([(1, AUnit); (2, ARef 64 (mkHP 7 2)); (1, AUnit); (2, ABool true); (1, ARef 80 (mkHP 7 1));
          (1, AVal 6); (2, AVal 5); (2, AUnit); (1, AUnit)], 0)%nat.
Proof. vm_compute. reflexivity. Qed.
